(* ===== verification/_CoqProject ===== *)
-Q . S2P
Prelude.v
Effects.v
RustStd.v
StdNet.v
Externals.v
Model.v
Store.v
SampleStore.v
Ipam.v
Keys.v
Acl.v
Auth.v
Netmap.v
Netid.v
ApiHelpers.v
Api.v
Invariant.v
Safety.v
Server.v
Scenario.v
Reachability.v
History.v
Names.v
Access.v
Durability.v
Enrollment.v
Lifecycle.v
Concurrent.v
SharedLife.v
LongPoll.v
Fair.v
Errors.v
KeyLifecycle.v
Visibility.v
Addressing.v
Queries.v
RelayCodec.v
StreamRelay.v
UdpRelay.v
Mesh.v
Dns.v
StdText.v
Config.v
Startup.v
DnsNames.v
MeshWire.v
Cluster.v
MeshTls.v
Launch.v
