(* ===== verification/Prelude.v ===== *)
(** * Lightscale control plane: verification library

    Lightscale-server is the control plane of an overlay VPN: it keeps networks, nodes
    and enrollment tokens, hands out overlay addresses, and tells every node which
    peers it may talk to.  This library models the server and proves what makes it
    correct.  Source paths are under src/src/.

    ** The program and its parts

    - [StateStore] (state.rs) keeps the whole [State], in memory with a JSON file
      behind it or in one row of a database.  Handlers run closures on it.
    - The handlers (api.rs) are the HTTP API: networks, tokens, registration, approval,
      key rotation and revocation, heartbeats, netmaps, audit log.  The router of
      main.rs dispatches to them.
    - netid.rs derives default address prefixes; model.rs and app.rs hold the data.
    - The stream and UDP relays, the server mesh and the DNS responder
      (stream_relay.rs, udp_relay.rs, mesh.rs, dns.rs) are separate tasks.

    ** Which file models what

    - Prelude: results, machine integers, record updates, list and option lemmas,
      tactics and the hint database [lightscale].
    - Effects: the monad of the handlers.  [World] supplies clock readings, UUIDs,
      random bytes and I/O outcomes; a failed computation keeps the mutations made
      before it.  Hoare triples for both outcomes.
    - RustStd, StdNet: what the code uses of Rust's str and std::net, written out:
      trimming, ASCII case, printing and parsing of addresses.
    - Externals: crates that are not in the repository (ipnet, uuid, blake3, base64,
      http, the iteration order of HashMap) as classes of operations with separate
      classes of laws, and executable instances in [Sample].
    - Model: model.rs and app.rs.  Store: state.rs.  SampleStore: an executable codec
      that satisfies the law assumed of serde_json.
    - Ipam, Keys, Acl, Auth, Netmap, ApiHelpers: the helper functions of api.rs by
      subject.  Netid: netid.rs.
    - Api: every handler, and for each the closure it passes to the store ([.._tx] for
      write, [.._rd] for read).
    - Server: the router as a transition system on stores, and the reachable stores.
      [request_meets] says what has to be shown of the closure of a request, and
      [serve_meets] that this is enough for the request, on either backend and with any
      I/O failures.  Scenario: a concrete server and the requests the theorems are tried
      on.
    - Concurrent: requests that run at the same time, on one server or on several that
      share a database, as tasks that are interleaved at their store accesses; the loop of
      [netmap_longpoll] with its sleep and its clock.  Fair: the same with schedules that
      go on for ever.

    - RelayCodec: the packets and frames of both relays.  StreamRelay, UdpRelay: their
      tables, deliveries and events (stream_relay.rs, udp_relay.rs).
    - Mesh: mesh.rs, as operations on [MeshContext] and a step function on the events
      of a server's mesh.
    - Dns: dns.rs, on the state that the store holds.
    - MeshWire, MeshTls: the connections of the mesh: frames as lines of JSON, what
      arrives on a connection and how it ends; certificates, keys and TLS
      configurations, incoming and outgoing connections.
    - Cluster: the relays and the meshes of several servers, with the channels between
      their tasks ([main]'s dispatcher, [deliver_local] of mesh.rs, the delivery tasks
      of the relays), as a transition system.  The handling of a frame is split where
      it waits for the local relay.
    - StdText: splitting, sorting and socket addresses of Rust's std.  Config: the
      arguments of main.rs and the functions that interpret them.  Startup: what [main]
      does before it serves, and the lives of a server that is stopped and started.
    - Launch: what [main] does then: the channels between mesh and relays, the services
      it spawns, the receivers it keeps.  The tasks that run decide which of the events
      of Cluster can happen.

    ** What the theorems show

    - Invariant, Safety, Reachability: [inv], an invariant of the state, is kept by
      every closure on success and on failure, hence holds in every reachable store;
      no two nodes of a server share an address, and addresses lie in their blocks.
    - Durability: both backends implement one abstract store ([store_step] in Store);
      [write] as the locked part ([write_locked]) and the file writes of several requests,
      which can overlap and fail on the way: as long as one request at a time persists its
      snapshot a restart sees the last acknowledged write; otherwise an acknowledged update,
      or the whole state, can be lost; requests that fail but are not undone.
    - History: no request takes back an audit entry or lowers the revision.
    - Access: routes refuse requests without the right token and change nothing.
    - Enrollment: what a registration and an approval link do, when they are refused,
      and how often a token can be used.
    - Lifecycle: the automaton of a node's life (absent, pending, active, revoked) and
      that every request moves every node along its edges; hence what must have happened
      for a node to be approved, and that a revocation lasts.  SharedLife: the same for
      requests that run at the same time on servers with a common store.
    - Concurrent: what happens at the same time is equal to what happens one after the
      other; a long poll misses no change and ends; a client reads its own writes.
    - LongPoll: the task of a long poll answers what its loop returns on the polls that
      the task made.
    - Fair: every request is answered in every infinite run in which time goes on and the
      runtime gives its task its turn.
    - Errors: a request is answered 500 only if an I/O request made for it failed.
    - Names: names of live nodes stay unique without key rotations.
    - KeyLifecycle: the key-age policy and its overflow behaviour; rotation,
      revocation and their interaction: how a rotation undoes a revocation and breaks the
      uniqueness of names.
    - Visibility: the access policy against its first-match meaning, the peers and
      probe requests of a netmap, termination of the long poll.
    - Addressing: how many nodes a network can hold, overlap detection, round trip of
      printed addresses, the range of default prefixes.
    - Queries: token listing and lifetime overflow, network deletion, heartbeats, tags,
      the audit report.

    - RelayCodec: packets and frames read back, only canonical packets are accepted,
      and what is relayed fits a frame.
    - StreamRelay, UdpRelay: the peer table lists exactly the registered connections in
      every run; where a packet goes; when peers expire.
    - Mesh: how far a packet travels, when a copy is dropped, to whom a frame is passed
      on, that answers take the way the question came, that the tables stay bounded, and
      what ends with a connection.
    - Dns: answers tell only live nodes, live nodes of a reachable server resolve, and
      where names hide each other.  DnsNames: node names are trimmed and not empty in
      every reachable store, so with one network, a proper domain and ASCII names a
      question whose text is the DNS name of a live node finds it.
    - MeshWire: frames are read back as they were written, wherever the stream is cut and
      however it ends, and a connection without a
      proper hello has no effect.  MeshTls: outgoing connections are authenticated, each
      by its own certificate, as the configured peer, incoming ones only as a member of the
      mesh.
    - Cluster: every packet that a client receives was sent to it by a client of some
      server, in every interleaving; once a client has sent a packet for a node of another
      server, the tasks of the servers alone ([own_step]) can bring it there, and the
      answer finds its way back.
      The log of what clients did is a ghost component of the transition system.
    - Config: hosts and ports read back, the advertised DNS servers and control URLs,
      when a mesh is configured.
    - Startup: a started server has an admin token and guards its routes; the invariant
      holds over restarts, also with other options and after lost writes.
    - Launch: with the listener of a relay every frame of its transport that waits can be
      answered; without it none ever is, and the queue of its packets only grows.

    ** Bounds and fuel

    Integers are [Z] with the width of the source written out ([wrap_u], [as_i64],
    [i64_saturating_sub], ...); arithmetic that overflows wraps, as in a release
    build.  [netmap_longpoll] has fuel: 601 polls are enough, because the timeout is
    capped at 300 seconds and polls are half a second apart ([longpoll_answers]).  The
    same loop as a task of Concurrent has no fuel, and LongPoll shows that it makes 601
    polls at most in every schedule.
    Trimming, number printing and the reader of lines use the length of the input or
    the bit width.  The transition systems have no fuel: what holds in all runs is an
    invariant, and that a packet arrives is shown by the steps that bring it.  Infinite
    runs are functions on nat (Fair); a request has a measure of steps that are left.
    Everything else is structurally recursive.

    ** What is not modelled

    - A store access is one step (the lock of the file store, the row lock of the
      database), together with the computation before it; the clock of [World] may give
      any reading, also one from before another request's.  In Server a request is one
      step; Concurrent interleaves requests and shows that the stores are the same.  Both
      let a request write the state file before the next one runs; that changes no view,
      because running requests only see the memory.  The file writes as they are, outside
      the lock, are modelled in Durability, where nothing is assumed of their order.  How the runtime chooses the next task is not modelled:
      schedules are arbitrary, and Fair has its fairness as a hypothesis.
    - HTTP parsing, JSON bodies and status codes beyond [into_response] belong to axum
      and serde; sockets, task spawning and logging are library calls.  That clap fills
      the arguments as declared is not modelled.
    - The PEM parsers, certificate validation, the JSON of mesh frames, the DNS wire
      format, how the DNS library writes a name out and Unicode's case table are
      parameters.
    - Between servers frames may be delayed, repeated or lost, but only servers of the
      cluster send them; the delay before a new connection attempt is not modelled.

    ** State of the library

    Every part of the program is modelled; what is left out are the library calls named
    above, the tests of the repository and the constant answer of /healthz. *)
From stdpp Require Export base gmap strings list fin_maps fin_map_dom numbers sorting.
From Stdlib Require Export ZArith Lia.

#[global] Open Scope Z_scope.

(** ** Results

    [result] is Rust's [Result<A, E>]. *)
Inductive result (A E : Type) : Type :=
  | Ok (a : A)
  | Err (e : E).
Arguments Ok {A E} a.
Arguments Err {A E} e.

Definition is_ok {A E} (r : result A E) : bool :=
  match r with Ok _ => true | Err _ => false end.

Definition map_err {A E F} (f : E → F) (r : result A E) : result A F :=
  match r with Ok a => Ok a | Err e => Err (f e) end.

(** ** Machine integers

    A w-bit unsigned integer is a [Z] in [0 .. 2^w - 1], a signed one a [Z] in
    [-2^(w-1) .. 2^(w-1) - 1].  Arithmetic is that of the release profile of
    the crate (no [overflow-checks] in Cargo.toml): [+] wraps around. *)
Definition u8_max : Z := 2 ^ 8 - 1.
Definition u16_max : Z := 2 ^ 16 - 1.
Definition u32_max : Z := 2 ^ 32 - 1.
Definition u64_max : Z := 2 ^ 64 - 1.
Definition u128_max : Z := 2 ^ 128 - 1.
Definition i64_min : Z := - 2 ^ 63.
Definition i64_max : Z := 2 ^ 63 - 1.

Definition wrap_u (bits z : Z) : Z := z mod 2 ^ bits.
(** [x as i64], from any integer type. *)
Definition as_i64 (z : Z) : Z := (z + 2 ^ 63) mod 2 ^ 64 - 2 ^ 63.
Definition i64_add (a b : Z) : Z := as_i64 (a + b).
Definition i64_saturating_sub (a b : Z) : Z := Z.max i64_min (Z.min i64_max (a - b)).
Definition u64_saturating_add (a b : Z) : Z := Z.min u64_max (a + b).
Definition u_saturating_sub (a b : Z) : Z := Z.max 0 (a - b).

Definition in_i64 (z : Z) : Prop := i64_min ≤ z ≤ i64_max.
Definition in_u64 (z : Z) : Prop := 0 ≤ z ≤ u64_max.
Definition in_u32 (z : Z) : Prop := 0 ≤ z ≤ u32_max.
Definition in_u128 (z : Z) : Prop := 0 ≤ z ≤ u128_max.

Lemma as_i64_id z : in_i64 z → as_i64 z = z.
Proof.
  unfold in_i64, as_i64, i64_min, i64_max. intros H.
  rewrite Z.mod_small; lia.
Qed.

Lemma as_i64_range z : in_i64 (as_i64 z).
Proof.
  unfold in_i64, as_i64, i64_min, i64_max.
  pose proof (Z.mod_pos_bound (z + 2 ^ 63) (2 ^ 64) ltac:(lia)). lia.
Qed.

Lemma wrap_u_id bits z : 0 ≤ z < 2 ^ bits → wrap_u bits z = z.
Proof. apply Z.mod_small. Qed.

Lemma i64_saturating_sub_id a b :
  in_i64 (a - b) → i64_saturating_sub a b = a - b.
Proof. unfold in_i64, i64_saturating_sub. lia. Qed.

(** ** Record update

    [r <| f := v |>] is Rust's assignment [r.f = v] on the value [r]: the record
    type gives its eta expansion once, the notation replaces one projection. *)
Class Eta (R : Type) := eta : R → R.

Ltac record_update r proj v :=
  let R := type of r in
  let e := eval unfold eta in (@eta R _) in
  let e := lazymatch e with
           | (fun _ => _) => e
           | ?c => eval unfold c in c
           end in
  lazymatch (eval pattern proj in e) with
  | ?g _ => let t := eval cbv beta in (g (fun _ => v) r) in exact t
  end.

Notation "r <| proj := v |>" := (ltac:(record_update r proj v))
  (at level 1, left associativity, only parsing).

(** ** Automation *)

(** Facts the invariant proofs try without being told. *)
Create HintDb lightscale.
#[export] Hint Resolve as_i64_range : lightscale.

(** Split the innermost match or conditional of a hypothesis, keeping the
    equation. *)
Ltac case_hyp H :=
  match type of H with
  | context [match ?x with _ => _ end] =>
      lazymatch x with
      | context [match _ with _ => _ end] => fail
      | _ => let E := fresh "E" in destruct x eqn:E
      end
  end.

Ltac case_goal :=
  match goal with
  | |- context [match ?x with _ => _ end] =>
      lazymatch x with
      | context [match _ with _ => _ end] => fail
      | _ => let E := fresh "E" in destruct x eqn:E
      end
  end.

(** Boolean tests of the code as propositions. *)
Ltac bool_props :=
  repeat match goal with
  | H : andb _ _ = true |- _ => apply andb_true_iff in H as [? ?]
  | H : orb _ _ = false |- _ => apply orb_false_iff in H as [? ?]
  | H : negb _ = true |- _ => apply negb_true_iff in H
  | H : negb _ = false |- _ => apply negb_false_iff in H
  | H : Z.leb _ _ = true |- _ => apply Z.leb_le in H
  | H : Z.leb _ _ = false |- _ => apply Z.leb_gt in H
  | H : Z.ltb _ _ = true |- _ => apply Z.ltb_lt in H
  | H : Z.ltb _ _ = false |- _ => apply Z.ltb_ge in H
  | H : Z.eqb _ _ = true |- _ => apply Z.eqb_eq in H
  | H : Z.eqb _ _ = false |- _ => apply Z.eqb_neq in H
  | H : bool_decide _ = true |- _ => apply bool_decide_eq_true in H
  | H : bool_decide _ = false |- _ => apply bool_decide_eq_false in H
  | H : String.eqb _ _ = true |- _ => apply String.eqb_eq in H
  | H : String.eqb _ _ = false |- _ => apply String.eqb_neq in H
  end.

(** ** Options and lists *)

Definition is_some {A} (o : option A) : bool :=
  match o with Some _ => true | None => false end.
Definition is_none {A} (o : option A) : bool := negb (is_some o).
Definition unwrap_or {A} (o : option A) (d : A) : A := default d o.

(** [iter().any(..)] and [iter().find(..)]. *)
Definition any {A} (f : A → bool) (l : list A) : bool := existsb f l.
Definition find_first {A} (f : A → bool) (l : list A) : option A := List.find f l.

Lemma any_true {A} (f : A → bool) l : any f l = true ↔ ∃ x, x ∈ l ∧ f x = true.
Proof.
  unfold any. rewrite existsb_exists. by setoid_rewrite list_elem_of_In.
Qed.

Lemma any_false {A} (f : A → bool) l : any f l = false ↔ ∀ x, x ∈ l → f x = false.
Proof.
  split.
  - intros H x Hx. destruct (f x) eqn:E; [|done].
    rewrite (proj2 (any_true f l)) in H by eauto. done.
  - intros H. destruct (any f l) eqn:E; [|done].
    apply any_true in E as (x & Hx & Hf). rewrite H in Hf; done.
Qed.

Lemma any_perm {A} (f : A → bool) l k : l ≡ₚ k → any f l = any f k.
Proof.
  intros Hp. destruct (any f k) eqn:E.
  - rewrite any_true in E |- *. by setoid_rewrite Hp.
  - rewrite any_false in E |- *. by setoid_rewrite Hp.
Qed.

(** The loop [if seen.insert(x) { out.push(x) }] over a list, [seen] being a
    [HashSet] that starts as given: the order-preserving removal of repeats. *)
Fixpoint dedup_from (seen : gset string) (l : list string) : list string :=
  match l with
  | [] => []
  | x :: l =>
      if decide (x ∈ seen) then dedup_from seen l
      else x :: dedup_from ({[x]} ∪ seen) l
  end.

Lemma dedup_from_spec seen l x : x ∈ dedup_from seen l ↔ x ∈ l ∧ x ∉ seen.
Proof.
  revert seen; induction l as [|y l IH]; intros seen; simpl; [set_solver|].
  case_decide.
  - rewrite IH. set_solver.
  - rewrite !elem_of_cons, IH. destruct (decide (x = y)); set_solver.
Qed.

Lemma dedup_from_NoDup seen l : NoDup (dedup_from seen l).
Proof.
  revert seen; induction l as [|y l IH]; intros seen; simpl; [constructor|].
  case_decide; [done|]. constructor; [|done].
  rewrite dedup_from_spec. set_solver.
Qed.

Lemma dedup_from_sublist seen l : sublist (dedup_from seen l) l.
Proof.
  revert seen; induction l as [|y l IH]; intros seen; simpl; [constructor|].
  case_decide; by constructor.
Qed.

Lemma dedup_from_id seen l :
  NoDup l → (∀ x, x ∈ l → x ∉ seen) → dedup_from seen l = l.
Proof.
  revert seen; induction l as [|y l IH]; intros seen Hnd Hs; simpl; [done|].
  apply NoDup_cons in Hnd as [Hy Hnd].
  rewrite decide_False by set_solver. f_equal. apply IH; set_solver.
Qed.

Lemma StronglySorted_reverse {A} (R : relation A) (l : list A) :
  StronglySorted R l → StronglySorted (flip R) (reverse l).
Proof.
  induction 1 as [|x l Hs IH Hx]; [constructor|]. rewrite reverse_cons.
  apply StronglySorted_app_2; [| done |by repeat constructor].
  intros y z Hy Hz. apply list_elem_of_singleton in Hz as ->.
  rewrite elem_of_reverse in Hy. rewrite Forall_forall in Hx. by apply Hx.
Qed.

(** [sort_by_key]: a stable sort on an integer key. *)
Section SortByKey.
Context {A : Type} (key : A → Z).

Fixpoint insert_by_key (x : A) (l : list A) : list A :=
  match l with
  | [] => [x]
  | y :: l => if key x <=? key y then x :: y :: l else y :: insert_by_key x l
  end.

Fixpoint sort_by_key (l : list A) : list A :=
  match l with
  | [] => []
  | x :: l => insert_by_key x (sort_by_key l)
  end.

Definition by_key (x y : A) : Prop := key x ≤ key y.

Lemma insert_by_key_perm x l : insert_by_key x l ≡ₚ x :: l.
Proof.
  induction l as [|y l IH]; simpl; [done|].
  destruct (key x <=? key y); [done|]. rewrite IH. apply Permutation_swap.
Qed.

Lemma sort_by_key_perm l : sort_by_key l ≡ₚ l.
Proof. induction l as [|x l IH]; simpl; [done|]. by rewrite insert_by_key_perm, IH. Qed.

Lemma insert_by_key_sorted x l :
  StronglySorted by_key l → StronglySorted by_key (insert_by_key x l).
Proof.
  induction 1 as [|y l Hs IH Hy]; simpl; [by repeat constructor|].
  destruct (Z.leb_spec (key x) (key y)).
  - constructor; [by constructor|]. constructor; [done|].
    eapply Forall_impl; [exact Hy|]. unfold by_key. intros. lia.
  - constructor; [done|]. rewrite insert_by_key_perm.
    constructor; [unfold by_key; lia|done].
Qed.

Lemma sort_by_key_sorted l : StronglySorted by_key (sort_by_key l).
Proof. induction l as [|x l IH]; simpl; [constructor|by apply insert_by_key_sorted]. Qed.
End SortByKey.

(** ** Reachability *)

(** What every step keeps, every sequence of steps keeps. *)
Lemma rtc_keeps {A} (R : relation A) (P : A → Prop) x y :
  (∀ a b, R a b → P a → P b) → rtc R x y → P x → P y.
Proof. intros Hstep. induction 1; eauto. Qed.

(** A run, written as its result, world and state. *)
Lemma run_eta {A B C} (p : A * B * C) : p = (p.1.1, p.1.2, p.2).
Proof. by destruct p as [[]]. Qed.
