(* ===== verification/Effects.v ===== *)
(** * Effects of the handlers

    The code reads the wall clock, draws UUIDs and random bytes, and performs
    file and database I/O.  [World] supplies the outcomes of those calls, in the
    order the program makes them; [M] is the monad of the handlers: it threads
    the world and a mutable state, and a failure keeps every mutation made before
    it, as a Rust closure on [&mut State] does. *)

From S2P Require Import Prelude.

(** The outcome of one I/O request.  A failed request may have had an effect all the
    same: a file write may have left other contents in the file, [left], and a COMMIT
    whose answer was lost may have been carried out ([left] is then not [None]). *)
Inductive IoRes : Type :=
  | IoOk
  | IoFail (left : option string).

Record World : Type := mkWorld {
  w_clock : nat → Z;          (** readings of the clock, in seconds *)
  w_uuid : nat → list Byte.byte;   (** the 16 bytes of each UUID drawn *)
  w_rand : nat → list Byte.byte;   (** the 32 bytes of each secret drawn *)
  w_io : nat → IoRes;
  w_ticks : nat;              (** clock readings consumed so far *)
  w_uuids : nat;
  w_rands : nat;
  w_ios : nat;
}.
#[export] Instance eta_World : Eta World := λ w,
  mkWorld (w_clock w) (w_uuid w) (w_rand w) (w_io w)
          (w_ticks w) (w_uuids w) (w_rands w) (w_ios w).

Definition M (S E A : Type) : Type := World → S → result A E * World * S.

#[export] Instance M_ret S E : MRet (M S E) := λ A a w s, (Ok a, w, s).
#[export] Instance M_bind S E : MBind (M S E) := λ A B f m w s,
  match m w s with
  | (Ok a, w', s') => f a w' s'
  | (Err e, w', s') => (Err e, w', s')
  end.
#[export] Instance M_throw S E : MThrow E (M S E) := λ A e w s, (Err e, w, s).

Section Operations.
Context {S E : Type}.

Definition get : M S E S := λ w s, (Ok s, w, s).
Definition modify (f : S → S) : M S E unit := λ w s, (Ok tt, w, f s).
(** [o.ok_or(e)?] *)
Definition ok_or {A} (o : option A) (e : E) : M S E A :=
  match o with Some a => mret a | None => mthrow e end.
(** [r?] on a [Result] that is already computed *)
Definition try_result {A} (r : result A E) : M S E A :=
  match r with Ok a => mret a | Err e => mthrow e end.
(** [if c { return Err(e) }] *)
Definition fail_if (c : bool) (e : E) : M S E unit :=
  if c then mthrow e else mret tt.

Definition now : M S E Z := λ w s,
  (Ok (w_clock w (w_ticks w)), w <| w_ticks := Datatypes.S (w_ticks w) |>, s).
Definition new_uuid : M S E (list Byte.byte) := λ w s,
  (Ok (w_uuid w (w_uuids w)), w <| w_uuids := Datatypes.S (w_uuids w) |>, s).
Definition random_bytes : M S E (list Byte.byte) := λ w s,
  (Ok (w_rand w (w_rands w)), w <| w_rands := Datatypes.S (w_rands w) |>, s).
Definition io : M S E IoRes := λ w s,
  (Ok (w_io w (w_ios w)), w <| w_ios := Datatypes.S (w_ios w) |>, s).
End Operations.

(** Run a computation that only needs the world. *)
Definition lift_world {S S' E A} (s' : S') (m : M S' E A) : M S E A := λ w s,
  match m w s' with (r, w', _) => (r, w', s) end.

(** ** Triples

    [triple P m Q X]: from a state in [P], [m] ends in [Q a] when it returns [a]
    and in [X e] when it fails with [e], whatever the world does. *)
Definition triple {S E A} (P : S → Prop) (m : M S E A)
    (Q : A → S → Prop) (X : E → S → Prop) : Prop :=
  ∀ w s, P s →
    match m w s with
    | (Ok a, _, s') => Q a s'
    | (Err e, _, s') => X e s'
    end.

(** [m] keeps [I], on success and on failure. *)
Definition preserves {S E A} (I : S → Prop) (m : M S E A) : Prop :=
  triple I m (λ _, I) (λ _, I).

(** [m] never changes the state. *)
Definition pure_on {S E A} (m : M S E A) : Prop := ∀ w s, (m w s).2 = s.

Section Triples.
Context {S E : Type}.
Implicit Types P I : S → Prop.

Lemma triple_bind {A B} P (m : M S E A) (f : A → M S E B) R Q X :
  triple P m R X → (∀ a, triple (R a) (f a) Q X) → triple P (m ≫= f) Q X.
Proof.
  intros Hm Hf w s HP. specialize (Hm w s HP).
  unfold mbind, M_bind. destruct (m w s) as [[[a|e] w'] s']; [|done].
  by apply Hf.
Qed.

Lemma triple_conseq {A} P P' (m : M S E A) Q Q' X X' :
  triple P' m Q' X' → (∀ s, P s → P' s) →
  (∀ a s, Q' a s → Q a s) → (∀ e s, X' e s → X e s) → triple P m Q X.
Proof.
  intros Hm HP HQ HX w s H. specialize (Hm w s (HP s H)).
  destruct (m w s) as [[[a|e] w'] s']; auto.
Qed.

Lemma triple_pure {A} P (m : M S E A) :
  pure_on m → triple P m (λ _, P) (λ _, P).
Proof.
  intros Hp w s HP. specialize (Hp w s).
  destruct (m w s) as [[[a|e] w'] s']; simpl in Hp; by subst.
Qed.

Lemma triple_bind_pure {A B} P (m : M S E A) (f : A → M S E B) Q X :
  pure_on m → (∀ e s, P s → X e s) → (∀ a, triple P (f a) Q X) → triple P (m ≫= f) Q X.
Proof.
  intros Hp HX Hf. apply triple_bind with (R := λ _, P); [|done].
  intros w s HP. specialize (Hp w s).
  destruct (m w s) as [[[a|e] w'] s']; simpl in Hp; subst; auto.
Qed.

Lemma preserves_bind {A B} I (m : M S E A) (f : A → M S E B) :
  preserves I m → (∀ a, preserves I (f a)) → preserves I (m ≫= f).
Proof. intros. by eapply triple_bind. Qed.

Lemma pure_ret {A} (a : A) : pure_on (mret a : M S E A).
Proof. done. Qed.
Lemma pure_throw {A} (e : E) : pure_on (mthrow e : M S E A).
Proof. done. Qed.
Lemma pure_get : pure_on (get : M S E S).
Proof. done. Qed.
Lemma pure_now : pure_on (now : M S E Z).
Proof. done. Qed.
Lemma pure_new_uuid : pure_on (new_uuid : M S E _).
Proof. done. Qed.
Lemma pure_random_bytes : pure_on (random_bytes : M S E _).
Proof. done. Qed.
Lemma pure_ok_or {A} (o : option A) (e : E) : pure_on (ok_or o e : M S E A).
Proof. by destruct o. Qed.
Lemma pure_try_result {A} (r : result A E) : pure_on (try_result r : M S E A).
Proof. by destruct r. Qed.
Lemma pure_fail_if c (e : E) : pure_on (fail_if c e : M S E unit).
Proof. by destruct c. Qed.
Lemma pure_bind {A B} (m : M S E A) (f : A → M S E B) :
  pure_on m → (∀ a, pure_on (f a)) → pure_on (m ≫= f).
Proof.
  intros Hm Hf w s. specialize (Hm w s). unfold mbind, M_bind.
  destruct (m w s) as [[[a|e] w'] s']; simpl in *; subst; [apply Hf|done].
Qed.

(** Inversion of a successful sequence. *)
Lemma bind_ok_inv {A B} (m : M S E A) (f : A → M S E B) w s b w' s' :
  (m ≫= f) w s = (Ok b, w', s') →
  ∃ a w1 s1, m w s = (Ok a, w1, s1) ∧ f a w1 s1 = (Ok b, w', s').
Proof.
  unfold mbind, M_bind. destruct (m w s) as [[[a|e] w1] s1]; [|done]. eauto 6.
Qed.

Lemma preserves_pure {A} I (m : M S E A) : pure_on m → preserves I m.
Proof. apply triple_pure. Qed.

Lemma triple_modify P (f : S → S) (Q : unit → S → Prop) X :
  (∀ s, P s → Q tt (f s)) → triple P (modify f : M S E unit) Q X.
Proof. intros H w s HP. by apply H. Qed.

(** An invariant that may rely on another one. *)
Lemma preserves_and {A} I J (m : M S E A) :
  preserves I m → triple (λ s, I s ∧ J s) m (λ _, J) (λ _, J) →
  preserves (λ s, I s ∧ J s) m.
Proof.
  intros HI HJ w s [Hi Hj]. specialize (HI w s Hi). specialize (HJ w s (conj Hi Hj)).
  destruct (m w s) as [[[a|e] w'] s']; done.
Qed.

Lemma triple_get {A} P (f : S → M S E A) Q X :
  (∀ s0, triple (λ s, s = s0 ∧ P s) (f s0) Q X) → triple P (get ≫= f) Q X.
Proof. intros H w s HP. by apply (H s w s). Qed.

Lemma triple_ok_or {A} P (o : option A) e Q (X : E → S → Prop) :
  (∀ a s, o = Some a → P s → Q a s) → (∀ s, o = None → P s → X e s) →
  triple P (ok_or o e) Q X.
Proof. intros HQ HX w s HP. destruct o; simpl; eauto. Qed.

Lemma triple_ret {A} P (a : A) (Q : A → S → Prop) (X : E → S → Prop) :
  (∀ s, P s → Q a s) → triple P (mret a) Q X.
Proof. intros H w s HP. by apply H. Qed.
End Triples.

#[export] Hint Resolve pure_ret pure_throw pure_get pure_now pure_new_uuid
  pure_random_bytes pure_ok_or pure_try_result pure_fail_if : lightscale.

(** Discharge [pure_on] goals by following the sequence. *)
Ltac solve_pure :=
  repeat first
    [ progress (intros; cbn beta)
    | apply pure_bind
    | solve [eauto 2 with lightscale]
    | match goal with |- pure_on (match ?x with _ => _ end) => destruct x end
    | match goal with |- pure_on (if ?x then _ else _) => destruct x end ].

(** Take one step of a successful run apart. *)
Ltac run_inv H :=
  let a := fresh "a" in let w := fresh "w" in let s := fresh "s" in
  let H1 := fresh "Hrun" in
  apply bind_ok_inv in H as (a & w & s & H1 & H).
