(* ===== verification/RustStd.v ===== *)
(** * The parts of Rust's standard library the server uses

    Strings are UTF-8 byte sequences, kept as [string]; [bytes] and [str] move
    between the two views.  Trimming, ASCII case folding, number formatting and
    the [std::net] printers and parsers are written out on bytes. *)

From S2P Require Import Prelude.
From Stdlib Require Import Strings.Byte.
Abbreviation byte := Corelib.Init.Byte.byte.

Definition bytes (s : string) : list byte := String.list_byte_of_string s.
Definition str (l : list byte) : string := String.string_of_list_byte l.

Lemma str_bytes s : str (bytes s) = s.
Proof. apply String.string_of_list_byte_of_string. Qed.
Lemma bytes_str l : bytes (str l) = l.
Proof. apply String.list_byte_of_string_of_list_byte. Qed.

#[export] Instance str_inj : Inj (=) (=) str.
Proof. intros a b H. by rewrite <- (bytes_str a), <- (bytes_str b), H. Qed.
#[export] Instance bytes_inj : Inj (=) (=) bytes.
Proof. intros a b H. by rewrite <- (str_bytes a), <- (str_bytes b), H. Qed.

#[export] Instance byte_eq_decision : EqDecision byte := Byte.byte_eq_dec.

Definition byte_val (b : byte) : Z := Z.of_N (Byte.to_N b).
Definition byte_of (z : Z) : byte := default Byte.x00 (Byte.of_N (Z.to_N z)).

Lemma byte_val_range b : 0 ≤ byte_val b < 256.
Proof. unfold byte_val. pose proof (Byte.to_N_bounded b). lia. Qed.

Lemma byte_val_of z : 0 ≤ z < 256 → byte_val (byte_of z) = z.
Proof.
  intros H. unfold byte_val, byte_of.
  destruct (Byte.of_N (Z.to_N z)) as [b|] eqn:E; simpl.
  - apply Byte.to_of_N in E. rewrite E. lia.
  - apply Byte.of_N_None_iff in E. lia.
Qed.

Lemma byte_of_val b : byte_of (byte_val b) = b.
Proof. unfold byte_of, byte_val. by rewrite N2Z.id, Byte.of_to_N. Qed.

#[export] Instance byte_val_inj : Inj (=) (=) byte_val.
Proof. intros a b H. by rewrite <- (byte_of_val a), <- (byte_of_val b), H. Qed.

(** ** Prefixes *)

Fixpoint strip_prefix_bytes (p l : list byte) : option (list byte) :=
  match p, l with
  | [], _ => Some l
  | x :: p, y :: l => if decide (x = y) then strip_prefix_bytes p l else None
  | _ :: _, [] => None
  end.

Definition strip_prefix (p s : string) : option string :=
  str <$> strip_prefix_bytes (bytes p) (bytes s).
Definition starts_with (p s : string) : bool :=
  is_some (strip_prefix_bytes (bytes p) (bytes s)).
(** [s.is_empty()] *)
Definition is_empty (s : string) : bool := bool_decide (s = "").

(** [s.contains(p)] *)
Fixpoint contains_bytes (p l : list byte) : bool :=
  is_some (strip_prefix_bytes p l) ||
  match l with [] => false | _ :: l => contains_bytes p l end.
Definition contains_str (p s : string) : bool := contains_bytes (bytes p) (bytes s).

Lemma strip_prefix_bytes_Some p l r : strip_prefix_bytes p l = Some r ↔ l = p ++ r.
Proof.
  revert l; induction p as [|x p IH]; intros [|y l]; simpl.
  - naive_solver.
  - naive_solver.
  - naive_solver.
  - case_decide; [|naive_solver]. rewrite IH. naive_solver.
Qed.

(** ** Trimming

    [str::trim] removes leading and trailing characters with the Unicode
    property White_Space; these are their UTF-8 encodings. *)
Definition whitespace : list (list byte) :=
  [ [Byte.x09]; [Byte.x0a]; [Byte.x0b]; [Byte.x0c]; [Byte.x0d]; [Byte.x20];
    [Byte.xc2; Byte.x85]; [Byte.xc2; Byte.xa0]; [Byte.xe1; Byte.x9a; Byte.x80];
    [Byte.xe2; Byte.x80; Byte.x80]; [Byte.xe2; Byte.x80; Byte.x81];
    [Byte.xe2; Byte.x80; Byte.x82]; [Byte.xe2; Byte.x80; Byte.x83];
    [Byte.xe2; Byte.x80; Byte.x84]; [Byte.xe2; Byte.x80; Byte.x85];
    [Byte.xe2; Byte.x80; Byte.x86]; [Byte.xe2; Byte.x80; Byte.x87];
    [Byte.xe2; Byte.x80; Byte.x88]; [Byte.xe2; Byte.x80; Byte.x89];
    [Byte.xe2; Byte.x80; Byte.x8a]; [Byte.xe2; Byte.x80; Byte.xa8];
    [Byte.xe2; Byte.x80; Byte.xa9]; [Byte.xe2; Byte.x80; Byte.xaf];
    [Byte.xe2; Byte.x81; Byte.x9f]; [Byte.xe3; Byte.x80; Byte.x80] ].

(** Remove one of the given tokens from the front. *)
Fixpoint strip_token (toks : list (list byte)) (l : list byte) : option (list byte) :=
  match toks with
  | [] => None
  | t :: toks =>
      match strip_prefix_bytes t l with
      | Some r => Some r
      | None => strip_token toks l
      end
  end.

(** Remove tokens from the front as long as there is one; each is at least one
    byte long, so the length of the input is enough fuel. *)
Fixpoint strip_tokens (fuel : nat) (toks : list (list byte)) (l : list byte) : list byte :=
  match fuel with
  | O => l
  | S fuel =>
      match strip_token toks l with
      | Some r => strip_tokens fuel toks r
      | None => l
      end
  end.

Definition trim_start_bytes (l : list byte) : list byte :=
  strip_tokens (length l) whitespace l.
Definition trim_end_bytes (l : list byte) : list byte :=
  reverse (strip_tokens (length l) (reverse <$> whitespace) (reverse l)).
Definition trim_bytes (l : list byte) : list byte := trim_end_bytes (trim_start_bytes l).
Definition trim (s : string) : string := str (trim_bytes (bytes s)).

(** [trim_end_matches(c)] for an ASCII character. *)
Definition trim_end_matches (c : byte) (s : string) : string :=
  let l := bytes s in
  str (reverse (strip_tokens (length l) [[c]] (reverse l))).

Lemma strip_token_Some toks l r :
  strip_token toks l = Some r → ∃ t, t ∈ toks ∧ l = t ++ r.
Proof.
  induction toks as [|t toks IH]; simpl; [done|].
  destruct (strip_prefix_bytes t l) eqn:E.
  - intros [= ->]. apply strip_prefix_bytes_Some in E. exists t. set_solver.
  - intros H. destruct (IH H) as (t' & ? & ?). exists t'. set_solver.
Qed.

Lemma strip_token_None toks l :
  strip_token toks l = None ↔ ∀ t r, t ∈ toks → l ≠ t ++ r.
Proof.
  induction toks as [|t toks IH]; simpl; [set_solver|].
  destruct (strip_prefix_bytes t l) eqn:E.
  - split; [done|]. intros H. apply strip_prefix_bytes_Some in E.
    exfalso. by apply (H t l0); [left|].
  - rewrite IH. split.
    + intros H t' r [->|Ht]%elem_of_cons; [|by eauto].
      intros Hl. apply strip_prefix_bytes_Some in Hl. congruence.
    + intros H t' r Ht. apply H. by right.
Qed.

Lemma strip_tokens_suffix fuel toks l : ∃ p, l = p ++ strip_tokens fuel toks l.
Proof.
  revert l; induction fuel as [|fuel IH]; intros l; simpl; [by exists []|].
  destruct (strip_token toks l) as [r|] eqn:E; [|by exists []].
  apply strip_token_Some in E as (t & _ & ->).
  destruct (IH r) as [p Hp]. exists (t ++ p). rewrite <- app_assoc. by f_equal.
Qed.

(** With the length of the input as fuel, no token is left at the front. *)
Lemma strip_tokens_done fuel toks l :
  (∀ t, t ∈ toks → t ≠ []) → (length l ≤ fuel)%nat →
  strip_token toks (strip_tokens fuel toks l) = None.
Proof.
  intros Hne. revert l; induction fuel as [|fuel IH]; intros l Hl; simpl.
  - destruct l; [|simpl in Hl; lia]. apply strip_token_None.
    intros [|x t] r Ht; [by apply Hne in Ht|done].
  - destruct (strip_token toks l) as [r|] eqn:E; [|done].
    apply IH. apply strip_token_Some in E as (t & Ht & ->).
    specialize (Hne t Ht). destruct t; [done|]. rewrite length_app in Hl. simpl in Hl. lia.
Qed.

Lemma strip_tokens_stuck fuel toks l :
  strip_token toks l = None → strip_tokens fuel toks l = l.
Proof. intros H. destruct fuel; simpl; [done|]. by rewrite H. Qed.

Lemma whitespace_nonempty t : t ∈ whitespace → t ≠ [].
Proof. unfold whitespace. set_solver. Qed.
Lemma whitespace_rev_nonempty t : t ∈ reverse <$> whitespace → t ≠ [].
Proof.
  intros (u & -> & Hu)%list_elem_of_fmap Hn. apply (whitespace_nonempty u Hu).
  by rewrite <- (reverse_involutive u), Hn.
Qed.

Lemma trim_end_prefix l : ∃ p, l = trim_end_bytes l ++ p.
Proof.
  unfold trim_end_bytes.
  destruct (strip_tokens_suffix (length l) (reverse <$> whitespace) (reverse l)) as [p Hp].
  exists (reverse p). rewrite <- reverse_app, <- Hp. by rewrite reverse_involutive.
Qed.

Lemma trim_start_start l : strip_token whitespace (trim_start_bytes l) = None.
Proof. by apply strip_tokens_done; [apply whitespace_nonempty|]. Qed.

(** What [trim] returns starts with no white space, and ends with none. *)
Lemma trim_bytes_start l : strip_token whitespace (trim_bytes l) = None.
Proof.
  apply strip_token_None. intros t r Ht Heq.
  destruct (trim_end_prefix (trim_start_bytes l)) as [p Hp].
  pose proof (trim_start_start l) as Hs. rewrite strip_token_None in Hs.
  apply (Hs t (r ++ p) Ht). rewrite app_assoc, <- Heq. exact Hp.
Qed.

Lemma trim_bytes_end l :
  strip_token (reverse <$> whitespace) (reverse (trim_bytes l)) = None.
Proof.
  unfold trim_bytes, trim_end_bytes. rewrite reverse_involutive.
  apply strip_tokens_done; [apply whitespace_rev_nonempty|by rewrite length_reverse].
Qed.

Lemma trim_bytes_id l :
  strip_token whitespace l = None →
  strip_token (reverse <$> whitespace) (reverse l) = None → trim_bytes l = l.
Proof.
  intros Hs He. unfold trim_bytes, trim_start_bytes, trim_end_bytes.
  rewrite (strip_tokens_stuck _ _ l Hs), strip_tokens_stuck by done.
  apply reverse_involutive.
Qed.

Lemma trim_idemp s : trim (trim s) = trim s.
Proof.
  unfold trim. rewrite bytes_str. f_equal.
  apply trim_bytes_id; [apply trim_bytes_start|apply trim_bytes_end].
Qed.

(** ** ASCII case *)

Definition ascii_lower (b : byte) : byte :=
  let v := byte_val b in if (65 <=? v) && (v <=? 90) then byte_of (v + 32) else b.
Definition to_ascii_lowercase (s : string) : string := str (ascii_lower <$> bytes s).
Definition eq_ignore_ascii_case (a b : string) : bool :=
  bool_decide (to_ascii_lowercase a = to_ascii_lowercase b).

Lemma eq_ignore_ascii_case_sym a b : eq_ignore_ascii_case a b = eq_ignore_ascii_case b a.
Proof. unfold eq_ignore_ascii_case. apply bool_decide_ext. naive_solver. Qed.
