(* ===== verification/StdNet.v ===== *)
(** * [std::net] addresses: printing and parsing

    An IPv4 address is a [Z] below 2^32, an IPv6 address a [Z] below 2^128.  The
    printers are the [Display] implementations of the standard library, the
    parsers those of [core::net::parser].  The round-trip theorems make address
    strings, which is what the server stores, as good as numbers. *)

From S2P Require Import Prelude RustStd.

Definition in_ipv4 (a : Z) : Prop := 0 ≤ a < 2 ^ 32.
Definition in_ipv6 (a : Z) : Prop := 0 ≤ a < 2 ^ 128.

(** ** Numbers in a radix *)

Definition digit_byte (d : Z) : byte :=
  if d <? 10 then byte_of (48 + d) else byte_of (87 + d).

(** [char::to_digit] *)
Definition to_digit (radix : Z) (b : byte) : option Z :=
  let v := byte_val b in
  let d := if (48 <=? v) && (v <=? 57) then v - 48
           else if (97 <=? v) && (v <=? 122) then v - 87
           else if (65 <=? v) && (v <=? 90) then v - 55
           else 255 in
  if d <? radix then Some d else None.

Fixpoint to_radix_rev (fuel : nat) (radix z : Z) : list Z :=
  match fuel with
  | O => []
  | S fuel => z mod radix :: (if z <? radix then [] else to_radix_rev fuel radix (z / radix))
  end.
(** The digits of [z], most significant first; 128 digits hold any [u128]. *)
Definition to_radix (radix z : Z) : list Z := reverse (to_radix_rev 128 radix z).
Definition print_radix (radix z : Z) : list byte := digit_byte <$> to_radix radix z.
Definition print_dec (z : Z) : list byte := print_radix 10 z.
Definition print_hex (z : Z) : list byte := print_radix 16 z.

Definition from_digits (radix : Z) (ds : list Z) : Z :=
  fold_left (λ acc d, acc * radix + d) ds 0.

Fixpoint span_digits (radix : Z) (l : list byte) : list Z * list byte :=
  match l with
  | [] => ([], [])
  | b :: l' =>
      match to_digit radix b with
      | Some d => let '(ds, rest) := span_digits radix l' in (d :: ds, rest)
      | None => ([], l)
      end
  end.

(** [Parser::read_number(radix, Some(max_digits), allow_zero_prefix)] into a type
    whose largest value is [bound]. *)
Definition read_number (radix : Z) (max_digits : nat) (allow_zero_prefix : bool)
    (bound : Z) (l : list byte) : option (Z * list byte) :=
  let '(ds, rest) := span_digits radix l in
  if bool_decide (ds = []) || (max_digits <? length ds)%nat then None
  else if negb allow_zero_prefix && bool_decide (head ds = Some 0) && (1 <? length ds)%nat
       then None
  else let v := from_digits radix ds in
       if v <=? bound then Some (v, rest) else None.

Lemma to_digit_digit_byte radix d :
  0 ≤ d < radix → radix ≤ 16 → to_digit radix (digit_byte d) = Some d.
Proof.
  intros H1 H2. unfold digit_byte, to_digit.
  destruct (Z.ltb_spec d 10); rewrite byte_val_of by lia.
  - rewrite (proj2 (Z.leb_le 48 (48 + d))), (proj2 (Z.leb_le (48 + d) 57)) by lia.
    simpl. replace (48 + d - 48) with d by lia. by rewrite (proj2 (Z.ltb_lt d radix)) by lia.
  - rewrite (proj2 (Z.leb_gt (87 + d) 57)) by lia. rewrite andb_false_r.
    rewrite (proj2 (Z.leb_le 97 (87 + d))), (proj2 (Z.leb_le (87 + d) 122)) by lia.
    simpl. replace (87 + d - 87) with d by lia. by rewrite (proj2 (Z.ltb_lt d radix)) by lia.
Qed.

Lemma to_radix_rev_digits fuel radix z :
  1 < radix → Forall (λ d, 0 ≤ d < radix) (to_radix_rev fuel radix z).
Proof.
  intros Hr. revert z; induction fuel as [|fuel IH]; intros z; simpl; constructor.
  - apply Z.mod_pos_bound. lia.
  - destruct (z <? radix); [constructor|apply IH].
Qed.

Lemma to_radix_digits radix z :
  1 < radix → Forall (λ d, 0 ≤ d < radix) (to_radix radix z).
Proof. intros Hr. apply Forall_reverse. by apply to_radix_rev_digits. Qed.

Lemma from_digits_snoc radix ds d :
  from_digits radix (ds ++ [d]) = from_digits radix ds * radix + d.
Proof. unfold from_digits. by rewrite fold_left_app. Qed.

Lemma from_to_radix_rev fuel radix z :
  1 < radix → 0 ≤ z < radix ^ Z.of_nat fuel →
  from_digits radix (reverse (to_radix_rev fuel radix z)) = z.
Proof.
  intros Hr. revert z; induction fuel as [|fuel IH]; intros z Hz.
  - simpl in *. unfold from_digits. simpl. lia.
  - cbn [to_radix_rev]. rewrite reverse_cons, from_digits_snoc.
    destruct (Z.ltb_spec z radix).
    + unfold from_digits. simpl. rewrite Z.mod_small; lia.
    + rewrite IH.
      * rewrite Z.mul_comm, <- Z.div_mod by lia. done.
      * rewrite Nat2Z.inj_succ, Z.pow_succ_r in Hz by lia. split.
        -- apply Z.div_pos; lia.
        -- apply Z.div_lt_upper_bound; lia.
Qed.

Lemma from_to_radix radix z :
  1 < radix → 0 ≤ z < radix ^ 128 → from_digits radix (to_radix radix z) = z.
Proof. intros. apply (from_to_radix_rev 128); [done|]. by change (Z.of_nat 128) with 128. Qed.

Lemma to_radix_nonempty radix z : to_radix radix z ≠ [].
Proof.
  unfold to_radix. cbn [to_radix_rev]. rewrite reverse_cons. intros H.
  by apply app_eq_nil in H as [_ H].
Qed.

(** A number is printed with no more digits than its size allows. *)
Lemma to_radix_rev_length fuel radix z (n : nat) :
  1 < radix → 0 ≤ z < radix ^ Z.of_nat (S n) →
  (length (to_radix_rev fuel radix z) ≤ S n)%nat.
Proof.
  intros Hr. revert fuel z; induction n as [|n IH]; intros fuel z Hz; destruct fuel; simpl; try lia.
  - destruct (Z.ltb_spec z radix); simpl; [lia|]. lia.
  - destruct (Z.ltb_spec z radix); simpl; [lia|].
    apply le_n_S, IH. rewrite Nat2Z.inj_succ, Z.pow_succ_r in Hz by lia. split.
    + apply Z.div_pos; lia.
    + apply Z.div_lt_upper_bound; lia.
Qed.

Lemma to_radix_length radix z (n : nat) :
  1 < radix → 0 ≤ z < radix ^ Z.of_nat (S n) → (length (to_radix radix z) ≤ S n)%nat.
Proof. intros. unfold to_radix. rewrite length_reverse. by apply to_radix_rev_length. Qed.

(** Only zero starts with the digit zero. *)
Lemma to_radix_rev_last fuel radix z :
  1 < radix → 0 ≤ z < radix ^ Z.of_nat fuel →
  last (to_radix_rev fuel radix z) = Some 0 → z = 0.
Proof.
  intros Hr. revert z; induction fuel as [|fuel IH]; intros z Hz; [done|].
  cbn [to_radix_rev]. destruct (Z.ltb_spec z radix).
  - cbn. rewrite Z.mod_small by lia. congruence.
  - rewrite Nat2Z.inj_succ, Z.pow_succ_r in Hz by lia.
    assert (1 ≤ z / radix) as Hq by (apply Z.div_le_lower_bound; lia).
    assert (z / radix < radix ^ Z.of_nat fuel) by (apply Z.div_lt_upper_bound; lia).
    rewrite last_cons. destruct (last (to_radix_rev fuel radix (z / radix))) as [d|] eqn:E.
    + intros [= ->]. apply IH in E; lia.
    + apply last_None in E. destruct fuel; [simpl in *; lia|done].
Qed.

Lemma to_radix_head radix z :
  1 < radix → 0 ≤ z < radix ^ 128 → head (to_radix radix z) = Some 0 → z = 0.
Proof.
  intros Hr Hz. unfold to_radix. rewrite head_reverse. by apply to_radix_rev_last.
Qed.

(** The rest of the input starts with no further digit. *)
Definition stops (radix : Z) (rest : list byte) : Prop :=
  match rest with [] => True | b :: _ => to_digit radix b = None end.

Lemma span_digits_app radix ds rest :
  radix ≤ 16 → Forall (λ d, 0 ≤ d < radix) ds → stops radix rest →
  span_digits radix ((digit_byte <$> ds) ++ rest) = (ds, rest).
Proof.
  intros Hr Hd Hs. induction Hd as [|d ds Hd Hds IH].
  - destruct rest as [|b rest]; simpl in *; [done|]. by rewrite Hs.
  - rewrite fmap_cons. cbn [app span_digits].
    by rewrite to_digit_digit_byte, IH by lia.
Qed.

(** What [print_radix] writes, [read_number] reads back. *)
Lemma read_number_print radix (n : nat) z0 bound z rest :
  1 < radix ≤ 16 → 0 ≤ z ≤ bound → z < radix ^ Z.of_nat (S n) → (n < 128)%nat →
  stops radix rest →
  read_number radix (S n) z0 bound (print_radix radix z ++ rest) = Some (z, rest).
Proof.
  intros Hr Hz Hn Hn128 Hs. unfold read_number, print_radix.
  assert (z < radix ^ 128) as H128.
  { eapply Z.lt_le_trans; [exact Hn|]. apply Z.pow_le_mono_r; lia. }
  rewrite span_digits_app by (try apply to_radix_digits; auto; lia).
  rewrite bool_decide_eq_false_2 by apply to_radix_nonempty.
  pose proof (to_radix_length radix z n ltac:(lia) ltac:(lia)) as Hl.
  rewrite (proj2 (Nat.ltb_ge _ _) Hl). cbn [orb].
  rewrite from_to_radix by lia. rewrite (proj2 (Z.leb_le _ _)) by lia.
  destruct (negb z0 && _ && _) eqn:E; [|done].
  apply andb_true_iff in E as [E Hlen]. apply andb_true_iff in E as [_ Hzero].
  apply bool_decide_eq_true, to_radix_head in Hzero; [|lia..]. subst z.
  unfold to_radix in Hlen. cbn [to_radix_rev] in Hlen.
  by rewrite (proj2 (Z.ltb_lt 0 radix)) in Hlen by lia.
Qed.

(** ** IPv4 *)

Definition dot : byte := Byte.x2e.
Definition colon : byte := Byte.x3a.

Definition octets (a : Z) : Z * Z * Z * Z :=
  (a / 2 ^ 24 mod 256, a / 2 ^ 16 mod 256, a / 2 ^ 8 mod 256, a mod 256).
Definition from_octets (a b c d : Z) : Z := a * 2 ^ 24 + b * 2 ^ 16 + c * 2 ^ 8 + d.

Definition print_ipv4 (a : Z) : list byte :=
  let '(o0, o1, o2, o3) := octets a in
  print_dec o0 ++ dot :: print_dec o1 ++ dot :: print_dec o2 ++ dot :: print_dec o3.
(** [Ipv4Addr::to_string] *)
Definition ipv4_to_string (a : Z) : string := str (print_ipv4 a).

Definition read_char (c : byte) (l : list byte) : option (list byte) :=
  match l with b :: l => if decide (b = c) then Some l else None | [] => None end.

Definition read_octet (l : list byte) : option (Z * list byte) :=
  read_number 10 3 false u8_max l.

(** [Parser::read_ipv4_addr] *)
Definition read_ipv4 (l : list byte) : option (Z * list byte) :=
  '(o0, l) ← read_octet l; l ← read_char dot l;
  '(o1, l) ← read_octet l; l ← read_char dot l;
  '(o2, l) ← read_octet l; l ← read_char dot l;
  '(o3, l) ← read_octet l;
  Some (from_octets o0 o1 o2 o3, l).

(** [Ipv4Addr::from_str]: an address of at most 15 characters and nothing after it *)
Definition parse_ipv4 (s : string) : option Z :=
  if (15 <? length (bytes s))%nat then None else
  match read_ipv4 (bytes s) with
  | Some (a, []) => Some a
  | _ => None
  end.

Lemma from_octets_octets a : in_ipv4 a →
  let '(o0, o1, o2, o3) := octets a in from_octets o0 o1 o2 o3 = a.
Proof.
  unfold in_ipv4, octets, from_octets. intros H.
  rewrite (Z.mod_small (a / 2 ^ 24)) by
    (split; [apply Z.div_pos; lia|apply Z.div_lt_upper_bound; lia]).
  pose proof (Z.div_mod a 256 ltac:(lia)) as H0.
  pose proof (Z.div_mod (a / 2 ^ 8) 256 ltac:(lia)) as H1.
  pose proof (Z.div_mod (a / 2 ^ 16) 256 ltac:(lia)) as H2.
  replace (a / 2 ^ 8 / 256) with (a / 2 ^ 16) in H1 by (by rewrite Z.div_div by lia).
  replace (a / 2 ^ 16 / 256) with (a / 2 ^ 24) in H2 by (by rewrite Z.div_div by lia).
  change 256 with (2 ^ 8) in *. lia.
Qed.

Lemma octet_range z : 0 ≤ z mod 256 ≤ u8_max.
Proof. unfold u8_max. pose proof (Z.mod_pos_bound z 256 ltac:(lia)). lia. Qed.

Lemma read_octet_print z rest :
  0 ≤ z ≤ u8_max → stops 10 rest → read_octet (print_dec z ++ rest) = Some (z, rest).
Proof.
  intros Hz Hs. unfold read_octet, print_dec.
  apply (read_number_print 10 2); [lia|done|unfold u8_max in Hz; lia|lia|done].
Qed.

Lemma read_char_same c l : read_char c (c :: l) = Some l.
Proof. simpl. by rewrite decide_True. Qed.

Lemma read_ipv4_print a rest :
  in_ipv4 a → stops 10 rest → read_ipv4 (print_ipv4 a ++ rest) = Some (a, rest).
Proof.
  intros Ha Hs. pose proof (from_octets_octets a Ha) as Hoct.
  unfold print_ipv4, octets in *.
  repeat (rewrite <- ?app_assoc; cbn [app]). unfold read_ipv4.
  repeat (rewrite read_octet_print by (done || apply octet_range);
          cbn [mbind option_bind]; rewrite ?read_char_same; cbn [mbind option_bind]).
  by rewrite Hoct.
Qed.

Lemma print_dec_octet_length z : 0 ≤ z ≤ u8_max → (length (print_dec z) ≤ 3)%nat.
Proof.
  intros Hz. unfold print_dec, print_radix. rewrite length_fmap.
  apply (to_radix_length 10 z 2); unfold u8_max in Hz; simpl; lia.
Qed.

Lemma print_ipv4_length a : (length (print_ipv4 a) ≤ 15)%nat.
Proof.
  unfold print_ipv4, octets.
  repeat (rewrite ?length_app; cbn [length]).
  pose proof (print_dec_octet_length _ (octet_range (a / 2 ^ 24))).
  pose proof (print_dec_octet_length _ (octet_range (a / 2 ^ 16))).
  pose proof (print_dec_octet_length _ (octet_range (a / 2 ^ 8))).
  pose proof (print_dec_octet_length _ (octet_range a)). lia.
Qed.

Lemma parse_print_ipv4 a : in_ipv4 a → parse_ipv4 (ipv4_to_string a) = Some a.
Proof.
  intros Ha. unfold parse_ipv4, ipv4_to_string. rewrite bytes_str.
  rewrite (proj2 (Nat.ltb_ge _ _) (print_ipv4_length a)).
  rewrite <- (app_nil_r (print_ipv4 a)), read_ipv4_print by done. done.
Qed.

Lemma ipv4_to_string_inj a b :
  in_ipv4 a → in_ipv4 b → ipv4_to_string a = ipv4_to_string b → a = b.
Proof.
  intros Ha Hb H. apply parse_print_ipv4 in Ha, Hb. congruence.
Qed.

(** ** IPv6 *)

(** The eight 16-bit segments, most significant first. *)
Definition segments (a : Z) : list Z :=
  (λ i, a / 2 ^ (16 * i) mod 2 ^ 16) <$> [7; 6; 5; 4; 3; 2; 1; 0].
Definition from_segments (gs : list Z) : Z := from_digits (2 ^ 16) gs.

(** [Ipv6Addr::to_ipv4_mapped]: the last two segments of [::ffff:a.b.c.d] *)
Definition to_ipv4_mapped (a : Z) : option Z :=
  match segments a with
  | [s0; s1; s2; s3; s4; s5; s6; s7] =>
      if bool_decide ([s0; s1; s2; s3; s4; s5] = [0; 0; 0; 0; 0; 65535])
      then Some (s6 * 2 ^ 16 + s7) else None
  | _ => None
  end.

(** The loop of the printer that finds the first longest run of zero segments:
    [i] is the index of the next segment, [cur] and [longest] are [(start, len)]. *)
Fixpoint zero_run (i : nat) (cur longest : nat * nat) (gs : list Z) : nat * nat :=
  match gs with
  | [] => longest
  | g :: gs =>
      if g =? 0 then
        let start := if decide (cur.2 = O) then i else cur.1 in
        let cur := (start, S cur.2) in
        zero_run (S i) cur (if (longest.2 <? cur.2)%nat then cur else longest) gs
      else zero_run (S i) (O, O) longest gs
  end.

Definition print_tail (gs : list Z) : list byte := gs ≫= λ g, colon :: print_hex g.
Definition print_segments (gs : list Z) : list byte :=
  match gs with [] => [] | g :: gs => print_hex g ++ print_tail gs end.

Definition print_ipv6 (a : Z) : list byte :=
  match to_ipv4_mapped a with
  | Some v4 => [colon; colon] ++ print_hex 65535 ++ [colon] ++ print_ipv4 v4
  | None =>
      let gs := segments a in
      let '(start, len) := zero_run 0 (O, O) (O, O) gs in
      if (1 <? len)%nat then
        print_segments (take start gs) ++ [colon; colon] ++
        print_segments (drop (start + len) gs)
      else print_segments gs
  end.
(** [Ipv6Addr::to_string] *)
Definition ipv6_to_string (a : Z) : string := str (print_ipv6 a).

(** [read_groups] of [Parser::read_ipv6_addr]: the groups read, whether they end
    in an embedded IPv4 address, and the rest of the input. *)
Fixpoint read_groups (room i : nat) (l : list byte) : list Z * bool * list byte :=
  match room with
  | O => ([], false, l)
  | S room =>
      let sep := if decide (i = O) then Some l else read_char colon l in
      match (if (1 <=? room)%nat then sep ≫= read_ipv4 else None) with
      | Some (a, l') => ([a / 2 ^ 16; a mod 2 ^ 16], true, l')
      | None =>
          match sep ≫= read_number 16 4 true u16_max with
          | Some (g, l') =>
              let '(gs, v4, l'') := read_groups room (S i) l' in (g :: gs, v4, l'')
          | None => ([], false, l)
          end
      end
  end.

(** [Parser::read_ipv6_addr] *)
Definition read_ipv6 (l : list byte) : option (Z * list byte) :=
  let '(hd, hd_v4, l) := read_groups 8 0 l in
  if decide (length hd = 8%nat) then Some (from_segments hd, l)
  else if hd_v4 then None
  else
    l ← read_char colon l; l ← read_char colon l;
    let '(tl, _, l) := read_groups (8 - (length hd + 1)) 0 l in
    Some (from_segments (hd ++ replicate (8 - length hd - length tl) 0 ++ tl), l).

Definition in_u16 (g : Z) : Prop := 0 ≤ g ≤ u16_max.

Lemma segments_u16 a : Forall in_u16 (segments a).
Proof.
  unfold segments. rewrite Forall_fmap. repeat constructor;
    unfold in_u16, u16_max; simpl;
    match goal with |- context [?x mod ?m] => pose proof (Z.mod_pos_bound x m ltac:(lia)); lia end.
Qed.

Lemma from_segments_segments a : in_ipv6 a → from_segments (segments a) = a.
Proof.
  unfold in_ipv6, from_segments, from_digits, segments. intros H.
  cbn [fmap list_fmap fold_left].
  assert (∀ k, 0 ≤ k → a / 2 ^ (16 * k) =
    a / 2 ^ (16 * (k + 1)) * 2 ^ 16 + a / 2 ^ (16 * k) mod 2 ^ 16) as Hstep.
  { intros k Hk. pose proof (Z.div_mod (a / 2 ^ (16 * k)) (2 ^ 16) ltac:(lia)) as Hd.
    rewrite Z.div_div in Hd by lia. rewrite <- Z.pow_add_r in Hd by lia.
    replace (16 * k + 16) with (16 * (k + 1)) in Hd by lia. lia. }
  assert (a / 2 ^ (16 * 8) = 0) as H8 by (apply Z.div_small; lia).
  pose proof (Hstep 7 ltac:(lia)) as H7. pose proof (Hstep 6 ltac:(lia)) as H6.
  pose proof (Hstep 5 ltac:(lia)) as H5. pose proof (Hstep 4 ltac:(lia)) as H4.
  pose proof (Hstep 3 ltac:(lia)) as H3. pose proof (Hstep 2 ltac:(lia)) as H2.
  pose proof (Hstep 1 ltac:(lia)) as H1. pose proof (Hstep 0 ltac:(lia)) as H0.
  change (7 + 1) with 8 in H7. change (6 + 1) with 7 in H6. change (5 + 1) with 6 in H5.
  change (4 + 1) with 5 in H4. change (3 + 1) with 4 in H3. change (2 + 1) with 3 in H2.
  change (1 + 1) with 2 in H1. change (0 + 1) with 1 in H0.
  rewrite H8, Z.mul_0_l, Z.add_0_l in H7.
  rewrite Z.mul_0_l, Z.add_0_l.
  rewrite <- H7, <- H6, <- H5, <- H4, <- H3, <- H2, <- H1, <- H0.
  change (2 ^ (16 * 0)) with 1. apply Z.div_1_r.
Qed.

(** The run the printer finds is a run of zeros inside the address. *)
Definition zeros_at (gs : list Z) (run : nat * nat) : Prop :=
  (run.1 + run.2 ≤ length gs)%nat ∧
  ∀ k, (run.1 ≤ k < run.1 + run.2)%nat → gs !! k = Some 0.

Lemma zero_run_zeros gs0 done cur longest gs :
  gs0 = done ++ gs → zeros_at gs0 longest → zeros_at gs0 cur →
  (cur.2 = O ∨ (cur.1 + cur.2 = length done)%nat) →
  zeros_at gs0 (zero_run (length done) cur longest gs).
Proof.
  revert done cur longest; induction gs as [|g gs IH]; intros dn cur longest Heq Hl Hc Hend; simpl; [done|].
  assert (gs0 = (dn ++ [g]) ++ gs) as Heq' by (by rewrite <- app_assoc).
  assert (S (length dn) = length (dn ++ [g])) as Hlen by (rewrite length_app; simpl; lia).
  assert (length dn < length gs0)%nat as Hlt by (subst gs0; rewrite length_app; simpl; lia).
  destruct (Z.eqb_spec g 0) as [->|Hg].
  - set (cur' := (if decide (cur.2 = O) then length dn else cur.1, S cur.2)).
    assert (gs0 !! length dn = Some 0) as H0.
    { subst gs0. by rewrite list_lookup_middle. }
    assert (zeros_at gs0 cur') as Hc'.
    { destruct Hc as [_ Hz]. unfold zeros_at, cur'. simpl. case_decide as Hd.
      - rewrite Hd. split; [lia|]. intros k Hk. by replace k with (length dn) by lia.
      - destruct Hend as [|Hend]; [done|]. split; [lia|]. intros k Hk.
        destruct (decide (k = length dn)) as [->|]; [done|]. apply Hz. lia. }
    rewrite Hlen. apply IH; [done| |done|].
    + by destruct (_ <? _)%nat.
    + right. unfold cur'. simpl. rewrite length_app. simpl. case_decide; lia.
  - rewrite Hlen. apply IH; [done..| |by left]. split; simpl; [lia|]. intros; lia.
Qed.

Lemma zeros_at_split gs start len :
  zeros_at gs (start, len) →
  take start gs ++ replicate len 0 ++ drop (start + len) gs = gs.
Proof.
  intros [Hle Hz]. simpl in *.
  rewrite <- (take_drop start gs) at 3. f_equal.
  rewrite <- (take_drop len (drop start gs)), drop_drop. f_equal.
  apply list_eq. intros k. destruct (decide (k < len)%nat).
  - rewrite lookup_replicate_2 by lia. rewrite lookup_take_lt by lia.
    rewrite lookup_drop. symmetry. apply Hz. lia.
  - rewrite lookup_take_ge by lia. apply lookup_replicate_None. lia.
Qed.

(** What may follow a group: the end, or a colon. *)
Definition group_end (rest : list byte) : Prop :=
  match rest with [] => True | b :: _ => b = colon end.

Lemma group_end_stops radix rest : radix ≤ 16 → group_end rest → stops radix rest.
Proof.
  intros Hr. destruct rest as [|b rest]; simpl; [done|]. intros ->.
  unfold to_digit, colon. change (byte_val Byte.x3a) with 58. cbn.
  rewrite (proj2 (Z.ltb_ge _ _)) by lia. done.
Qed.

Lemma digit_byte_not_dot d : 0 ≤ d < 16 → digit_byte d ≠ dot.
Proof.
  intros Hd H. apply (f_equal byte_val) in H. unfold digit_byte in H.
  change (byte_val dot) with 46 in H.
  destruct (d <? 10) eqn:E; rewrite byte_val_of in H by lia; lia.
Qed.

Lemma span_digits_no_dot l rest :
  Forall (λ b, b ≠ dot) l → group_end rest →
  head (span_digits 10 (l ++ rest)).2 ≠ Some dot.
Proof.
  intros Hl Hr. induction Hl as [|b l Hb Hl IH]; cbn [app span_digits].
  - destruct rest as [|b rest]; [done|]. simpl in Hr. subst b. done.
  - destruct (to_digit 10 b); [|simpl; congruence].
    destruct (span_digits 10 (l ++ rest)). done.
Qed.

(** A hexadecimal group that is followed by a colon or the end is no IPv4 address. *)
Lemma read_ipv4_hex g rest : in_u16 g → group_end rest → read_ipv4 (print_hex g ++ rest) = None.
Proof.
  intros Hg Hr. unfold read_ipv4, read_octet, read_number.
  assert (Forall (λ b, b ≠ dot) (print_hex g)) as Hd.
  { unfold print_hex, print_radix. rewrite Forall_fmap.
    eapply Forall_impl; [apply (to_radix_digits 16); lia|]. apply digit_byte_not_dot. }
  pose proof (span_digits_no_dot _ rest Hd Hr) as Hn.
  destruct (span_digits 10 (print_hex g ++ rest)) as [ds l'] eqn:E. simpl in Hn.
  repeat (case_goal; try done). simpl.
  destruct l' as [|b l']; [done|]. cbn [read_char]. rewrite decide_False by (simpl in Hn; congruence).
  done.
Qed.

Lemma read_group_print g rest :
  in_u16 g → group_end rest → read_number 16 4 true u16_max (print_hex g ++ rest) = Some (g, rest).
Proof.
  intros Hg Hr. apply (read_number_print 16 3); [lia|done| |lia|].
  - unfold in_u16, u16_max in Hg. simpl. lia.
  - by apply group_end_stops.
Qed.

Lemma read_colon_None l : head l = Some colon ∨ l = [] →
  read_ipv4 l = None ∧ read_number 16 4 true u16_max l = None.
Proof. destruct l as [|b l]; intros [[= ->]| ]; simplify_eq; done. Qed.

(** The rest after the last group: the end, or the two colons of a compression. *)
Definition groups_end (rest : list byte) : Prop :=
  rest = [] ∨ ∃ r, rest = colon :: colon :: r.

Lemma groups_end_group_end rest : groups_end rest → group_end rest.
Proof. by intros [->|[r ->]]. Qed.

Lemma print_tail_end gs rest : groups_end rest → group_end (print_tail gs ++ rest).
Proof. intros H. destruct gs; [by apply groups_end_group_end|done]. Qed.

Lemma read_groups_tail room i gs rest :
  i ≠ O → Forall in_u16 gs → (length gs ≤ room)%nat → groups_end rest →
  read_groups room i (print_tail gs ++ rest) = (gs, false, rest).
Proof.
  intros Hi Hgs. revert room i Hi; induction Hgs as [|g gs Hg Hgs IH]; intros room i Hi Hlen Hr.
  - destruct room as [|room]; [done|]. cbn [read_groups print_tail app mbind list_bind].
    rewrite decide_False by done.
    destruct Hr as [->|[r ->]]; [by destruct (1 <=? room)%nat|].
    rewrite read_char_same. cbn [mbind option_bind].
    destruct (read_colon_None (colon :: r)) as [-> ->]; [by left|].
    by destruct (1 <=? room)%nat.
  - destruct room as [|room]; simpl in Hlen; [lia|].
    cbn [read_groups]. rewrite decide_False by done.
    change (print_tail (g :: gs)) with ((colon :: print_hex g) ++ print_tail gs).
    cbn [app]. rewrite read_char_same. cbn [mbind option_bind].
    rewrite <- app_assoc, read_ipv4_hex, read_group_print by (done || by apply print_tail_end).
    rewrite (IH room (S i)) by (done || lia). by destruct (1 <=? room)%nat.
Qed.

Lemma read_groups_print room gs rest :
  Forall in_u16 gs → (length gs ≤ room)%nat → groups_end rest →
  read_groups room 0 (print_segments gs ++ rest) = (gs, false, rest).
Proof.
  intros Hgs Hlen Hr. destruct Hgs as [|g gs Hg Hgs].
  - destruct room as [|room]; [done|]. cbn [read_groups print_segments app].
    rewrite decide_True by done. cbn [mbind option_bind].
    destruct (read_colon_None rest) as [-> ->].
    { destruct Hr as [->|[r ->]]; [by right|by left]. }
    by destruct (1 <=? room)%nat.
  - destruct room as [|room]; simpl in Hlen; [lia|]. cbn [read_groups print_segments].
    rewrite decide_True by done. cbn [mbind option_bind].
    rewrite <- app_assoc, read_ipv4_hex, read_group_print by (done || by apply print_tail_end).
    rewrite (read_groups_tail room 1) by (done || lia). by destruct (1 <=? room)%nat.
Qed.

(** Addresses that print without an embedded IPv4 address. *)
Lemma read_ipv6_print_groups a :
  in_ipv6 a → to_ipv4_mapped a = None → read_ipv6 (print_ipv6 a) = Some (a, []).
Proof.
  intros Ha Hm. unfold print_ipv6. rewrite Hm.
  assert (zeros_at (segments a) (zero_run 0 (O, O) (O, O) (segments a))) as Hzero.
  { apply (zero_run_zeros (segments a) [] (O, O) (O, O) (segments a));
      [done|split; simpl; [lia|intros; lia]..|by left]. }
  destruct (zero_run 0 (O, O) (O, O) (segments a)) as [start len].
  pose proof (segments_u16 a) as H16.
  destruct (1 <? len)%nat eqn:Elen.
  - apply Nat.ltb_lt in Elen. pose proof (zeros_at_split _ _ _ Hzero) as Hsplit.
    destruct Hzero as [Hle _]. simpl in Hle. change (length (segments a)) with 8%nat in Hle.
    assert (length (take start (segments a)) = start) as Htl.
    { rewrite length_take. change (length (segments a)) with 8%nat. lia. }
    assert (length (drop (start + len) (segments a)) = 8 - (start + len))%nat as Hdl.
    { rewrite length_drop. done. }
    unfold read_ipv6.
    rewrite read_groups_print by (by apply Forall_take || (rewrite Htl; lia) || (right; eauto)).
    rewrite Htl. rewrite decide_False by lia. cbn [app].
    rewrite !read_char_same. cbn [mbind option_bind]. rewrite read_char_same. cbn [mbind option_bind].
    rewrite <- (app_nil_r (print_segments (drop _ _))).
    rewrite read_groups_print by (by apply Forall_drop || (rewrite Hdl; lia) || by left).
    rewrite Hdl. replace (8 - start - (8 - (start + len)))%nat with len by lia.
    rewrite Hsplit. by rewrite from_segments_segments.
  - unfold read_ipv6. rewrite <- (app_nil_r (print_segments _)).
    rewrite read_groups_print by (done || by left).
    rewrite decide_True by done. by rewrite from_segments_segments.
Qed.

Lemma to_ipv4_mapped_Some a v4 :
  in_ipv6 a → to_ipv4_mapped a = Some v4 →
  in_ipv4 v4 ∧ a = from_segments [0; 0; 0; 0; 0; 65535; v4 / 2 ^ 16; v4 mod 2 ^ 16].
Proof.
  intros Ha H. pose proof (segments_u16 a) as H16.
  pose proof (from_segments_segments a Ha) as Hseg.
  unfold to_ipv4_mapped in H. unfold segments in *. cbn [fmap list_fmap] in *.
  case_bool_decide as Hd; [|done]. injection H as <-.
  injection Hd as H0 H1 H2 H3 H4 H5. rewrite H0, H1, H2, H3, H4, H5 in Hseg.
  rewrite !Forall_cons in H16. unfold in_u16, u16_max in H16.
  set (s6 := a / 2 ^ (16 * 1) mod 2 ^ 16) in *. set (s7 := a / 2 ^ (16 * 0) mod 2 ^ 16) in *.
  assert (s6 * 2 ^ 16 + s7 = s7 + s6 * 2 ^ 16) as Hc by lia.
  split; [unfold in_ipv4; lia|]. rewrite Hc, Z.div_add, Z.mod_add by lia.
  rewrite (Z.div_small s7), (Z.mod_small s7) by lia. by rewrite Z.add_0_l.
Qed.

(** Addresses of the form [::ffff:a.b.c.d]. *)
Lemma read_ipv6_print_mapped a v4 :
  in_ipv6 a → to_ipv4_mapped a = Some v4 → read_ipv6 (print_ipv6 a) = Some (a, []).
Proof.
  intros Ha Hm. destruct (to_ipv4_mapped_Some a v4 Ha Hm) as [Hv Heq].
  unfold print_ipv6. rewrite Hm. unfold read_ipv6.
  pose proof (read_groups_print 8 [] (colon :: colon :: print_hex 65535 ++ [colon] ++ print_ipv4 v4))
    as Hhd.
  cbn [print_segments app] in Hhd |- *. rewrite Hhd by first [by constructor | simpl; lia | right; eauto].
  rewrite decide_False by done. rewrite read_char_same. cbn [mbind option_bind].
  rewrite read_char_same. cbn [mbind option_bind length Nat.add Nat.sub read_groups].
  rewrite decide_True by done. cbn [mbind option_bind Nat.leb].
  rewrite read_ipv4_hex, read_group_print by (done || (unfold in_u16, u16_max; lia)).
  rewrite decide_False by done. rewrite read_char_same. cbn [mbind option_bind].
  rewrite <- (app_nil_r (print_ipv4 v4)), read_ipv4_print by done. by rewrite Heq.
Qed.

Lemma read_ipv6_print a : in_ipv6 a → read_ipv6 (print_ipv6 a) = Some (a, []).
Proof.
  intros Ha. destruct (to_ipv4_mapped a) eqn:Hm;
    eauto using read_ipv6_print_mapped, read_ipv6_print_groups.
Qed.

(** ** [IpAddr] *)

Inductive IpAddr : Type :=
  | V4 (a : Z)
  | V6 (a : Z).
#[export] Instance IpAddr_eq_dec : EqDecision IpAddr.
Proof. solve_decision. Defined.

Definition ip_to_string (ip : IpAddr) : string :=
  match ip with V4 a => ipv4_to_string a | V6 a => ipv6_to_string a end.

(** [IpAddr::from_str] *)
Definition parse_ip (s : string) : option IpAddr :=
  match read_ipv4 (bytes s) with
  | Some (a, []) => Some (V4 a)
  | Some (_, _ :: _) => None
  | None =>
      match read_ipv6 (bytes s) with
      | Some (a, []) => Some (V6 a)
      | _ => None
      end
  end.

Lemma read_ipv4_print_ipv6 a : in_ipv6 a → read_ipv4 (print_ipv6 a) = None.
Proof.
  intros Ha. unfold print_ipv6. destruct (to_ipv4_mapped a); [done|].
  pose proof (segments_u16 a) as H16.
  assert (∀ gs rest, Forall in_u16 gs → groups_end rest →
            read_ipv4 (print_segments gs ++ rest) = None) as Hseg.
  { intros gs rest Hgs Hr. destruct Hgs as [|g gs Hg _]; cbn [print_segments].
    - apply read_colon_None. destruct Hr as [->|[r ->]]; [by right|by left].
    - rewrite <- app_assoc. apply read_ipv4_hex; [done|by apply print_tail_end]. }
  destruct (zero_run _ _ _ _) as [start len]. destruct (1 <? len)%nat.
  - apply Hseg; [by apply Forall_take|right; eauto].
  - rewrite <- (app_nil_r (print_segments _)). apply Hseg; [done|by left].
Qed.

Definition in_ip (ip : IpAddr) : Prop :=
  match ip with V4 a => in_ipv4 a | V6 a => in_ipv6 a end.

(** An address that is printed and parsed again is the same address. *)
Lemma parse_print_ip ip : in_ip ip → parse_ip (ip_to_string ip) = Some ip.
Proof.
  destruct ip as [a|a]; simpl; intros Ha; unfold parse_ip, ipv4_to_string, ipv6_to_string;
    rewrite bytes_str.
  - rewrite <- (app_nil_r (print_ipv4 a)), read_ipv4_print by done. done.
  - by rewrite read_ipv4_print_ipv6, read_ipv6_print.
Qed.

Lemma ipv6_to_string_inj a b :
  in_ipv6 a → in_ipv6 b → ipv6_to_string a = ipv6_to_string b → a = b.
Proof.
  intros Ha Hb H. pose proof (parse_print_ip (V6 a) Ha) as Pa.
  pose proof (parse_print_ip (V6 b) Hb) as Pb. simpl in *. congruence.
Qed.

Example ipv6_display_compresses :
  ipv6_to_string (0xfd42 * 2 ^ 112 + 0x120 * 2 ^ 96 + 10) = "fd42:120::a".
Proof. vm_compute. reflexivity. Qed.

Example ipv4_display : ipv4_to_string (100 * 2 ^ 24 + 64 * 2 ^ 16 + 10) = "100.64.0.10".
Proof. vm_compute. reflexivity. Qed.
