(* ===== verification/Externals.v ===== *)
(** * Third-party crates, as interfaces

    The server calls crates whose code is not part of the repository.  Each is a
    class of operations; what the server relies on is a separate class of laws,
    taken from the crate's documentation.  The end of the file gives executable
    instances, so that every theorem that assumes a law can be run on concrete
    inputs. *)

From S2P Require Import Prelude RustStd StdNet.

(** ** ipnet: CIDR networks *)
Class IpNet := {
  Ipv4Net : Type;
  Ipv6Net : Type;
  ipv4net_parse : string → option Ipv4Net;
  ipv4net_prefix_len : Ipv4Net → Z;
  ipv4net_network : Ipv4Net → Z;
  ipv4net_contains : Ipv4Net → Z → bool;
  ipv6net_parse : string → option Ipv6Net;
  ipv6net_prefix_len : Ipv6Net → Z;
  ipv6net_network : Ipv6Net → Z;
  ipv6net_contains : Ipv6Net → Z → bool;
}.

(** The prefix length is at most the address width, the network address has no
    host bit set, and [contains] tells the addresses that share the prefix. *)
Class IpNetLaws `{IpNet} : Prop := {
  ipv4net_prefix_bound n : 0 ≤ ipv4net_prefix_len n ≤ 32;
  ipv4net_network_range n : in_ipv4 (ipv4net_network n);
  ipv4net_network_aligned n :
    ipv4net_network n mod 2 ^ (32 - ipv4net_prefix_len n) = 0;
  ipv4net_contains_spec n a : in_ipv4 a →
    ipv4net_contains n a = true ↔
    ipv4net_network n ≤ a < ipv4net_network n + 2 ^ (32 - ipv4net_prefix_len n);
  ipv6net_prefix_bound n : 0 ≤ ipv6net_prefix_len n ≤ 128;
  ipv6net_network_range n : in_ipv6 (ipv6net_network n);
  ipv6net_network_aligned n :
    ipv6net_network n mod 2 ^ (128 - ipv6net_prefix_len n) = 0;
  ipv6net_contains_spec n a : in_ipv6 a →
    ipv6net_contains n a = true ↔
    ipv6net_network n ≤ a < ipv6net_network n + 2 ^ (128 - ipv6net_prefix_len n);
}.

(** ** uuid, blake3, base64, http *)
Class Crates := {
  (** [Uuid::to_string], of the 16 bytes of a UUID *)
  uuid_to_string : list byte → string;
  (** [blake3::hash(..).as_bytes()] *)
  blake3_hash : list byte → list byte;
  (** [URL_SAFE_NO_PAD.encode] *)
  b64url_encode : list byte → string;
  (** [STANDARD.encode] and [STANDARD.decode] *)
  b64_encode : list byte → string;
  b64_decode : string → option (list byte);
  (** [HeaderValue::to_str(..).ok()] *)
  header_to_str : string → option string;
}.

Class CratesLaws `{Crates} : Prop := {
  blake3_hash_length l : length (blake3_hash l) = 32%nat;
  b64_decode_encode l : b64_decode (b64_encode l) = Some l;
}.

(** ** Iteration order of [HashMap]

    [values()] and [iter()] visit every entry once, in an order the program does
    not control. *)
Class HashOrder := {
  hm_iter : ∀ {V : Type}, gmap string V → list (string * V);
  hm_iter_perm : ∀ {V : Type} (m : gmap string V), hm_iter m ≡ₚ map_to_list m;
}.

Definition hm_values `{HashOrder} {V} (m : gmap string V) : list V := (hm_iter m).*2.

Lemma elem_of_hm_iter `{HashOrder} {V} (m : gmap string V) k v :
  (k, v) ∈ hm_iter m ↔ m !! k = Some v.
Proof. by rewrite hm_iter_perm, elem_of_map_to_list. Qed.

Lemma elem_of_hm_values `{HashOrder} {V} (m : gmap string V) v :
  v ∈ hm_values m ↔ ∃ k, m !! k = Some v.
Proof.
  unfold hm_values. rewrite list_elem_of_fmap. split.
  - intros ([k v'] & -> & Hin%elem_of_hm_iter). by exists k.
  - intros [k Hk]. exists (k, v). by rewrite elem_of_hm_iter.
Qed.

(** ** Executable instances *)
Module Sample.
(** A CIDR block: an address and a prefix length. *)
Record cidr := mkCidr { c_base : Z; c_len : Z }.

Definition parse_len (bound : Z) (l : list byte) : option Z :=
  match read_number 10 3 false bound l with Some (n, []) => Some n | _ => None end.

Definition parse_cidr (bits : Z) (rd : list byte → option (Z * list byte)) (s : string)
    : option cidr :=
  '(a, l) ← rd (bytes s);
  l ← read_char Byte.x2f l;
  n ← parse_len bits l;
  (* the block must fit the address width *)
  if (0 <=? a) && (a <? 2 ^ bits) && (0 <=? n) then Some (mkCidr a n) else None.

(** A CIDR value that satisfies the bounds for an address width. *)
Definition cidr_ok (bits : Z) (c : cidr) : bool :=
  (0 <=? c_base c) && (c_base c <? 2 ^ bits) && (0 <=? c_len c) && (c_len c <=? bits).
Definition net (bits : Z) : Type := { c : cidr | cidr_ok bits c = true }.

Definition mk_net (bits : Z) (c : cidr) : option (net bits) :=
  match cidr_ok bits c as b return cidr_ok bits c = b → option (net bits) with
  | true => λ H, Some (exist _ c H)
  | false => λ _, None
  end eq_refl.

Definition host_bits (bits : Z) (c : cidr) : Z := bits - c_len c.
Definition network (bits : Z) (c : cidr) : Z :=
  c_base c / 2 ^ host_bits bits c * 2 ^ host_bits bits c.
Definition contains (bits : Z) (c : cidr) (a : Z) : bool :=
  (network bits c <=? a) && (a <? network bits c + 2 ^ host_bits bits c).

#[export] Instance ipnet : IpNet := {|
  Ipv4Net := net 32;
  Ipv6Net := net 128;
  ipv4net_parse s := parse_cidr 32 read_ipv4 s ≫= mk_net 32;
  ipv4net_prefix_len n := c_len (proj1_sig n);
  ipv4net_network n := network 32 (proj1_sig n);
  ipv4net_contains n := contains 32 (proj1_sig n);
  ipv6net_parse s := parse_cidr 128 read_ipv6 s ≫= mk_net 128;
  ipv6net_prefix_len n := c_len (proj1_sig n);
  ipv6net_network n := network 128 (proj1_sig n);
  ipv6net_contains n := contains 128 (proj1_sig n);
|}.

Lemma network_facts bits c : cidr_ok bits c = true →
  0 ≤ c_len c ≤ bits ∧ 0 ≤ network bits c < 2 ^ bits ∧
  network bits c mod 2 ^ host_bits bits c = 0.
Proof.
  unfold cidr_ok, network, host_bits. intros H. bool_props.
  assert (0 < 2 ^ (bits - c_len c)) as Hp by (apply Z.pow_pos_nonneg; lia).
  split; [lia|]. split; [|by apply Z_mod_mult].
  pose proof (Z.mul_div_le (c_base c) (2 ^ (bits - c_len c)) Hp).
  assert (0 ≤ c_base c / 2 ^ (bits - c_len c)) by (apply Z.div_pos; lia). nia.
Qed.

Lemma contains_spec bits c a :
  contains bits c a = true ↔ network bits c ≤ a < network bits c + 2 ^ host_bits bits c.
Proof. unfold contains. rewrite andb_true_iff, Z.leb_le, Z.ltb_lt. done. Qed.

#[export] Instance ipnet_laws : IpNetLaws.
Proof.
  split; intros [c Hc]; simpl; try (intros a _; apply contains_spec);
    destruct (network_facts _ c Hc) as (? & ? & ?); done.
Qed.

(** Hexadecimal text stands for the codecs. *)
Definition hex_encode (l : list byte) : string :=
  str (l ≫= λ b, [digit_byte (byte_val b / 16); digit_byte (byte_val b mod 16)]).
Fixpoint hex_decode_bytes (l : list byte) : option (list byte) :=
  match l with
  | [] => Some []
  | a :: b :: l =>
      x ← to_digit 16 a; y ← to_digit 16 b; r ← hex_decode_bytes l;
      Some (byte_of (x * 16 + y) :: r)
  | _ => None
  end.
Definition hex_decode (s : string) : option (list byte) := hex_decode_bytes (bytes s).

Lemma hex_decode_encode l : hex_decode (hex_encode l) = Some l.
Proof.
  unfold hex_decode, hex_encode. rewrite bytes_str.
  induction l as [|b l IH]; [done|]. rewrite bind_cons. cbn [app hex_decode_bytes].
  pose proof (byte_val_range b) as Hb.
  assert (0 ≤ byte_val b / 16 < 16) as Hd.
  { split; [apply Z.div_pos; lia|apply Z.div_lt_upper_bound; lia]. }
  assert (0 ≤ byte_val b mod 16 < 16) as Hm by (apply Z.mod_pos_bound; lia).
  rewrite !to_digit_digit_byte by lia.
  cbn [mbind option_bind]. rewrite IH. cbn [mbind option_bind].
  rewrite (Z.mul_comm _ 16), <- Z.div_mod by lia. by rewrite byte_of_val.
Qed.

Definition dash : byte := Byte.x2d.
(** The hyphenated form of a UUID. *)
Definition uuid_text (l : list byte) : string :=
  let hex k n := bytes (hex_encode (take n (drop k l))) in
  str (hex 0%nat 4%nat ++ dash :: hex 4%nat 2%nat ++ dash :: hex 6%nat 2%nat ++
       dash :: hex 8%nat 2%nat ++ dash :: hex 10%nat 6%nat).

Definition visible (b : byte) : bool :=
  let v := byte_val b in ((32 <=? v) && (v <=? 126)) || (v =? 9).

#[export] Instance crates : Crates := {|
  uuid_to_string := uuid_text;
  blake3_hash l := take 32 (l ++ replicate 32 Byte.x00);
  b64url_encode := hex_encode;
  b64_encode := hex_encode;
  b64_decode := hex_decode;
  header_to_str s := if forallb visible (bytes s) then Some s else None;
|}.

#[export] Instance crates_laws : CratesLaws.
Proof.
  split.
  - intros l. unfold blake3_hash, crates.
    rewrite length_take, length_app, length_replicate. lia.
  - apply hex_decode_encode.
Qed.

#[export] Instance hash_order : HashOrder := {|
  hm_iter V m := map_to_list m;
  hm_iter_perm V m := Permutation_refl (map_to_list m);
|}.
End Sample.
