(* ===== verification/Model.v ===== *)
(** * Data model (src/model.rs, src/app.rs)

    One record per struct and one inductive type per enum, with the source's
    fields in the source's order; integers are [Z], [Vec] is [list], [Option] is
    [option].  The conversions between stored and reported forms follow. *)

From S2P Require Import Prelude.

(** ** Access control *)

Inductive AclAction : Type := Allow | Deny.

Record AclSelector : Type := mkAclSelector {
  sel_any : bool;
  sel_tags : list string;
  sel_node_ids : list string;
  sel_names : list string;
}.

Record AclRule : Type := mkAclRule {
  rule_action : AclAction;
  rule_src : AclSelector;
  rule_dst : AclSelector;
}.

Record AclPolicy : Type := mkAclPolicy {
  acl_default_action : AclAction;
  acl_rules : list AclRule;
}.
(** [AclPolicy::default()] *)
Definition AclPolicy_default : AclPolicy := mkAclPolicy Allow [].

(** ** Keys *)

Record KeyRotationPolicy : Type := mkKeyRotationPolicy {
  max_age_seconds : option Z;
}.

Inductive KeyType : Type := Machine | WireGuard.
#[export] Instance KeyType_eq_dec : EqDecision KeyType.
Proof. solve_decision. Defined.

Record KeyRecord : Type := mkKeyRecord {
  kr_key_type : KeyType;
  kr_public_key : string;
  kr_created_at : Z;
  kr_revoked_at : option Z;
}.
#[export] Instance eta_KeyRecord : Eta KeyRecord := λ r,
  mkKeyRecord (kr_key_type r) (kr_public_key r) (kr_created_at r) (kr_revoked_at r).

(** ** Stored state *)

Inductive RouteKind : Type := Subnet | Exit.

Record Route : Type := mkRoute {
  rt_prefix : string;
  rt_kind : RouteKind;
  rt_enabled : bool;
  rt_mapped_prefix : option string;
}.

Record NetworkState : Type := mkNetworkState {
  nw_id : string;
  nw_name : string;
  nw_overlay_v4 : string;
  nw_overlay_v6 : string;
  nw_dns_domain : string;
  nw_requires_approval : bool;
  nw_acl : AclPolicy;
  nw_key_policy : KeyRotationPolicy;
  nw_created_at : Z;
  nw_next_ipv4 : Z;
  nw_next_ipv6 : Z;
}.
#[export] Instance eta_NetworkState : Eta NetworkState := λ n,
  mkNetworkState (nw_id n) (nw_name n) (nw_overlay_v4 n) (nw_overlay_v6 n) (nw_dns_domain n)
    (nw_requires_approval n) (nw_acl n) (nw_key_policy n) (nw_created_at n)
    (nw_next_ipv4 n) (nw_next_ipv6 n).

Record NodeState : Type := mkNodeState {
  nd_id : string;
  nd_network_id : string;
  nd_name : string;
  nd_machine_public_key : string;
  nd_wg_public_key : string;
  nd_ipv4 : string;
  nd_ipv6 : string;
  nd_endpoints : list string;
  nd_tags : list string;
  nd_owner_user_id : option string;
  nd_owner_email : option string;
  nd_owner_is_admin : bool;
  nd_routes : list Route;
  nd_created_at : Z;
  nd_last_seen : Z;
  nd_probe_requested_at : option Z;
  nd_approved : bool;
  nd_approved_at : option Z;
  nd_auth_secret : option string;
  nd_auth_expires_at : option Z;
  nd_node_token : option string;
  nd_revoked_at : option Z;
  nd_key_history : list KeyRecord;
}.
#[export] Instance eta_NodeState : Eta NodeState := λ n,
  mkNodeState (nd_id n) (nd_network_id n) (nd_name n) (nd_machine_public_key n)
    (nd_wg_public_key n) (nd_ipv4 n) (nd_ipv6 n) (nd_endpoints n) (nd_tags n)
    (nd_owner_user_id n) (nd_owner_email n) (nd_owner_is_admin n) (nd_routes n)
    (nd_created_at n) (nd_last_seen n) (nd_probe_requested_at n) (nd_approved n)
    (nd_approved_at n) (nd_auth_secret n) (nd_auth_expires_at n) (nd_node_token n)
    (nd_revoked_at n) (nd_key_history n).

Record TokenState : Type := mkTokenState {
  tk_token : string;
  tk_network_id : string;
  tk_expires_at : Z;
  tk_uses_left : Z;
  tk_tags : list string;
  tk_owner_user_id : option string;
  tk_owner_email : option string;
  tk_owner_is_admin : bool;
  tk_revoked_at : option Z;
}.
#[export] Instance eta_TokenState : Eta TokenState := λ t,
  mkTokenState (tk_token t) (tk_network_id t) (tk_expires_at t) (tk_uses_left t)
    (tk_tags t) (tk_owner_user_id t) (tk_owner_email t) (tk_owner_is_admin t)
    (tk_revoked_at t).

(** A [serde_json::Value], as the audit log carries it; the members of an object
    in the order the code inserts them. *)
Inductive Json : Type :=
  | JNull
  | JBool (b : bool)
  | JNumber (z : Z)
  | JString (s : string)
  | JArray (l : list Json)
  | JObject (m : list (string * Json)).

Definition JOption {A} (f : A → Json) (o : option A) : Json :=
  match o with Some a => f a | None => JNull end.

Record AuditEntry : Type := mkAuditEntry {
  ae_id : string;
  ae_timestamp : Z;
  ae_network_id : option string;
  ae_node_id : option string;
  ae_action : string;
  ae_detail : option Json;
}.

(** ** Reports *)

Record NetworkInfo : Type := mkNetworkInfo {
  ni_id : string;
  ni_name : string;
  ni_overlay_v4 : string;
  ni_overlay_v6 : string;
  ni_dns_domain : string;
  ni_requires_approval : bool;
  ni_key_rotation_max_age_seconds : option Z;
}.

Record NodeInfo : Type := mkNodeInfo {
  no_id : string;
  no_name : string;
  no_dns_name : string;
  no_ipv4 : string;
  no_ipv6 : string;
  no_wg_public_key : string;
  no_machine_public_key : string;
  no_endpoints : list string;
  no_tags : list string;
  no_owner_user_id : option string;
  no_owner_email : option string;
  no_owner_is_admin : bool;
  no_routes : list Route;
  no_last_seen : Z;
  no_approved : bool;
  no_key_rotation_required : bool;
  no_revoked : bool;
}.

Record PeerInfo : Type := mkPeerInfo {
  pi_id : string;
  pi_name : string;
  pi_dns_name : string;
  pi_ipv4 : string;
  pi_ipv6 : string;
  pi_wg_public_key : string;
  pi_endpoints : list string;
  pi_tags : list string;
  pi_routes : list Route;
  pi_last_seen : Z;
}.

Record RelayConfig : Type := mkRelayConfig {
  rc_stun_servers : list string;
  rc_turn_servers : list string;
  rc_stream_relay_servers : list string;
  rc_udp_relay_servers : list string;
  rc_dns_servers : list string;
}.

Record ProbeRequest : Type := mkProbeRequest {
  pr_peer_id : string;
  pr_endpoints : list string;
  pr_ipv4 : string;
  pr_ipv6 : string;
  pr_requested_at : Z;
}.

Record NetMap : Type := mkNetMap {
  nm_network : NetworkInfo;
  nm_node : NodeInfo;
  nm_peers : list PeerInfo;
  nm_relay : option RelayConfig;
  nm_probe_requests : list ProbeRequest;
  nm_generated_at : Z;
  nm_revision : Z;
}.

Record EnrollmentToken : Type := mkEnrollmentToken {
  et_token : string;
  et_expires_at : Z;
  et_uses_left : Z;
  et_tags : list string;
  et_owner_user_id : option string;
  et_owner_email : option string;
  et_owner_is_admin : bool;
  et_revoked_at : option Z;
}.

(** ** Requests and responses *)

Record CreateNetworkRequest : Type := mkCreateNetworkRequest {
  cn_name : string;
  cn_overlay_v4 : option string;
  cn_overlay_v6 : option string;
  cn_dns_domain : option string;
  cn_requires_approval : option bool;
  cn_key_rotation_max_age_seconds : option Z;
  cn_bootstrap_token_ttl_seconds : option Z;
  cn_bootstrap_token_uses : option Z;
  cn_bootstrap_token_tags : option (list string);
}.

Record CreateNetworkResponse : Type := mkCreateNetworkResponse {
  cnr_network : NetworkInfo;
  cnr_bootstrap_token : option EnrollmentToken;
}.

Record CreateTokenRequest : Type := mkCreateTokenRequest {
  ct_ttl_seconds : Z;
  ct_uses : Z;
  ct_tags : list string;
  ct_owner_user_id : option string;
  ct_owner_email : option string;
  ct_owner_is_admin : option bool;
}.

Record CreateTokenResponse : Type := mkCreateTokenResponse { ctr_token : EnrollmentToken }.
Record ListTokensResponse : Type := mkListTokensResponse { ltr_tokens : list EnrollmentToken }.
Record AdminNodesResponse : Type := mkAdminNodesResponse { anr_nodes : list NodeInfo }.
Record UpdateAclRequest : Type := mkUpdateAclRequest { uar_policy : AclPolicy }.
Record UpdateAclResponse : Type := mkUpdateAclResponse { uas_policy : AclPolicy }.

Record UpdateNodeRequest : Type := mkUpdateNodeRequest {
  un_name : option string;
  un_tags : option (list string);
}.
Record UpdateNodeResponse : Type := mkUpdateNodeResponse { unr_node : NodeInfo }.
Record KeyPolicyResponse : Type := mkKeyPolicyResponse { kpr_policy : KeyRotationPolicy }.

Record KeyRotationRequest : Type := mkKeyRotationRequest {
  krq_machine_public_key : option string;
  krq_wg_public_key : option string;
}.
Record KeyRotationResponse : Type := mkKeyRotationResponse {
  krs_node_id : string;
  krs_machine_public_key : string;
  krs_wg_public_key : string;
}.
Record DeleteNodeResponse : Type := mkDeleteNodeResponse { dnr_node_id : string }.
Record KeyHistoryResponse : Type := mkKeyHistoryResponse {
  khr_node_id : string;
  khr_keys : list KeyRecord;
}.
Record AuditLogResponse : Type := mkAuditLogResponse { alr_entries : list AuditEntry }.

Record RegisterRequest : Type := mkRegisterRequest {
  rq_token : string;
  rq_node_name : string;
  rq_machine_public_key : string;
  rq_wg_public_key : string;
}.
Record RegisterResponse : Type := mkRegisterResponse {
  rs_node_token : string;
  rs_netmap : NetMap;
}.

Record RegisterUrlRequest : Type := mkRegisterUrlRequest {
  ru_network_id : string;
  ru_node_name : string;
  ru_machine_public_key : string;
  ru_wg_public_key : string;
  ru_ttl_seconds : option Z;
}.
Record RegisterUrlResponse : Type := mkRegisterUrlResponse {
  rur_node_id : string;
  rur_network_id : string;
  rur_ipv4 : string;
  rur_ipv6 : string;
  rur_auth_path : string;
  rur_expires_at : Z;
  rur_node_token : string;
}.

Record HeartbeatRequest : Type := mkHeartbeatRequest {
  hb_node_id : string;
  hb_endpoints : list string;
  hb_listen_port : option Z;
  hb_routes : list Route;
  hb_probe : option bool;
}.
Record HeartbeatResponse : Type := mkHeartbeatResponse { hbr_netmap : NetMap }.

Record ControlPlaneMeshPeer : Type := mkControlPlaneMeshPeer {
  cpm_id : string;
  cpm_addr : string;
}.
Record ControlPlaneTopologyResponse : Type := mkControlPlaneTopologyResponse {
  cpt_control_urls : list string;
  cpt_mesh_server_id : option string;
  cpt_mesh_peers : list ControlPlaneMeshPeer;
  cpt_generated_at : Z;
}.

(** ** The application (src/app.rs)

    [AppState] without its store, which is the state the handlers thread. *)
Record MeshPeerMeta : Type := mkMeshPeerMeta {
  mpm_id : string;
  mpm_addr : string;
}.

Record AppState : Type := mkAppState {
  app_relay : RelayConfig;
  app_admin_token : option string;
  app_control_urls : list string;
  app_mesh_server_id : option string;
  app_mesh_peers : list MeshPeerMeta;
}.

(** ** Conversions *)

Definition NetworkInfo_from (n : NetworkState) : NetworkInfo :=
  mkNetworkInfo (nw_id n) (nw_name n) (nw_overlay_v4 n) (nw_overlay_v6 n) (nw_dns_domain n)
    (nw_requires_approval n) (max_age_seconds (nw_key_policy n)).

(** [format!("{}.{}", name, dns_domain)] *)
Definition dns_name (name dns_domain : string) : string := name +:+ "." +:+ dns_domain.

Definition NodeInfo_from_state (node : NodeState) (dns_domain : string)
    (approved key_rotation_required : bool) : NodeInfo :=
  mkNodeInfo (nd_id node) (nd_name node) (dns_name (nd_name node) dns_domain)
    (nd_ipv4 node) (nd_ipv6 node) (nd_wg_public_key node) (nd_machine_public_key node)
    (nd_endpoints node) (nd_tags node) (nd_owner_user_id node) (nd_owner_email node)
    (nd_owner_is_admin node) (nd_routes node) (nd_last_seen node) approved
    key_rotation_required (is_some (nd_revoked_at node)).

Definition PeerInfo_from (node : NodeState) (dns_domain : string) : PeerInfo :=
  mkPeerInfo (nd_id node) (nd_name node) (dns_name (nd_name node) dns_domain)
    (nd_ipv4 node) (nd_ipv6 node) (nd_wg_public_key node) (nd_endpoints node)
    (nd_tags node) (nd_routes node) (nd_last_seen node).

Definition EnrollmentToken_from (t : TokenState) : EnrollmentToken :=
  mkEnrollmentToken (tk_token t) (tk_expires_at t) (tk_uses_left t) (tk_tags t)
    (tk_owner_user_id t) (tk_owner_email t) (tk_owner_is_admin t) (tk_revoked_at t).
