(* ===== verification/Store.v ===== *)
(** * The state store (src/state.rs)

    [State] is the whole control-plane state; [StateStore] keeps it in memory with
    a JSON file behind it, or in one row of a database.  [read] and [write] run a
    closure on it.  The theorems state what both backends promise to the handlers
    (a successful [write] is one atomic step of the closure plus a revision
    increment), where they differ (a failed closure is rolled back by the
    database only), and what reaches the disk. *)

From S2P Require Import Prelude Effects RustStd Model.

Record State : Type := mkState {
  st_version : Z;
  st_revision : Z;
  st_networks : gmap string NetworkState;
  st_nodes : gmap string NodeState;
  st_tokens : gmap string TokenState;
  st_audit_log : list AuditEntry;
}.
#[export] Instance eta_State : Eta State := λ s,
  mkState (st_version s) (st_revision s) (st_networks s) (st_nodes s) (st_tokens s)
    (st_audit_log s).

(** [State::default()] *)
Definition State_default : State := mkState 1 0 ∅ ∅ ∅ [].

(** serde_json on [State]: [to_string_pretty]/[from_str], and the [Json] column
    type of the database. *)
Class Serde := {
  state_to_json : State → string;
  state_from_json : string → option State;
}.
Class SerdeLaws `{Serde} : Prop := {
  state_from_to_json s : state_from_json (state_to_json s) = Some s;
}.

(** A path and its [Path::parent]. *)
Record PathBuf : Type := mkPathBuf {
  path_text : string;
  path_parent : option string;
}.

Record FileStore : Type := mkFileStore {
  fs_inner : State;
  fs_path : option PathBuf;
}.
#[export] Instance eta_FileStore : Eta FileStore := λ f, mkFileStore (fs_inner f) (fs_path f).

(** The database behind the pool: the answer to [SELECT version()], and the JSON
    of the row of [lightscale_state] with id 1, if there is one. *)
Record DbStore : Type := mkDbStore {
  db_version : option string;
  db_row : option string;
}.
#[export] Instance eta_DbStore : Eta DbStore := λ d, mkDbStore (db_version d) (db_row d).

Inductive StoreBackend : Type :=
  | File (store : FileStore)
  | Db (store : DbStore).

(** The store, with the contents of the files it can reach. *)
Record StateStore : Type := mkStateStore {
  ss_backend : StoreBackend;
  ss_files : gmap string string;
}.
#[export] Instance eta_StateStore : Eta StateStore := λ s,
  mkStateStore (ss_backend s) (ss_files s).

(** An [anyhow::Error] that comes out of the store: the closure's own error, or an
    I/O failure. *)
Inductive AnyErr (E : Type) : Type :=
  | Raised (e : E)
  | Failed.
Arguments Raised {E} e.
Arguments Failed {E}.

(** [revision.saturating_add(1)] *)
Definition bump_revision (s : State) : State :=
  s <| st_revision := u64_saturating_add (st_revision s) 1 |>.

Definition set_inner (s : State) (fs : FileStore) (st : StateStore) : StateStore :=
  let fs := fs <| fs_inner := s |> in st <| ss_backend := File fs |>.
Definition set_row (json : string) (db : DbStore) (st : StateStore) : StateStore :=
  let db := db <| db_row := Some json |> in st <| ss_backend := Db db |>.
Definition set_file (p : PathBuf) (contents : string) (st : StateStore) : StateStore :=
  st <| ss_files := <[path_text p := contents]> (ss_files st) |>.

Section Store.
Context `{Serde}.
Context {E : Type}.

(** One I/O request that is only checked for success: [.await?]. *)
Definition io_ok : M StateStore (AnyErr E) unit :=
  r ← io; match r with IoOk => mret tt | IoFail _ => mthrow Failed end.

Definition persist_file (path : option PathBuf) (s : State)
    : M StateStore (AnyErr E) unit :=
  match path with
  | None => mret tt
  | Some p =>
      match path_parent p with
      | Some parent => if is_empty parent then mret tt else io_ok
      | None => mret tt
      end;;
      r ← io;
      match r with
      | IoOk => modify (set_file p (state_to_json s))
      | IoFail partial =>
          match partial with
          | Some contents => modify (set_file p contents)
          | None => mret tt
          end;; mthrow Failed
      end
  end.

(** [tx.commit().await?]: the effect of the transaction happens when the commit
    succeeds, or when it is carried out and only the answer is lost. *)
Definition commit_db (effect : StateStore → StateStore) : M StateStore (AnyErr E) unit :=
  r ← io;
  match r with
  | IoOk => modify effect
  | IoFail None => mthrow Failed
  | IoFail (Some _) => modify effect;; mthrow Failed
  end.

(** [load_state_db] *)
Definition load_state_db (db : DbStore) : M StateStore (AnyErr E) State :=
  io_ok;; row ← ok_or (db_row db) Failed; ok_or (state_from_json row) Failed.

Definition write_state_db {R} (db : DbStore) (f : M State E R)
    : M StateStore (AnyErr E) R :=
  io_ok;; (* begin *)
  io_ok;; (* select for update *)
  row ← ok_or (db_row db) Failed;
  state ← ok_or (state_from_json row) Failed;
  ((λ w st,
    match f w state with
    | (Err e, w, _) => (Err (Raised e), w, st) (* the transaction is dropped *)
    | (Ok r, w, state) =>
        (io_ok;; (* update *)
         commit_db (set_row (state_to_json (bump_revision state)) db);;
         mret r) w st
    end) : M StateStore (AnyErr E) R).

(** [StateStore::read]: the closure sees the state and cannot change it. *)
Definition read {R} (f : M State E R) : M StateStore (AnyErr E) R := λ w st,
  match ss_backend st with
  | File fs =>
      match f w (fs_inner fs) with
      | (Ok r, w, _) => (Ok r, w, st)
      | (Err e, w, _) => (Err (Raised e), w, st)
      end
  | Db db =>
      (state ← load_state_db db;
       ((λ w st, match f w state with
                 | (Ok r, w, _) => (Ok r, w, st)
                 | (Err e, w, _) => (Err (Raised e), w, st)
                 end) : M StateStore (AnyErr E) R)) w st
  end.

(** The part of [write] that a file store runs under its lock: the closure on the memory,
    the revision, and the snapshot it hands on.  A closure that fails leaves the memory
    as it has changed it. *)
Definition write_locked {R} (f : M State E R) : M State E (R * State) :=
  r ← f;
  modify bump_revision;;
  snapshot ← get;
  mret (r, snapshot).

(** [StateStore::write], as one request runs it: the lock is dropped before
    [persist_file], and what other requests do in between is the subject of
    Durability.v. *)
Definition write {R} (f : M State E R) : M StateStore (AnyErr E) R := λ w st,
  match ss_backend st with
  | File fs =>
      match write_locked f w (fs_inner fs) with
      | (Err e, w, s) => (Err (Raised e), w, set_inner s fs st)
      | (Ok (r, snapshot), w, s) =>
          (persist_file (fs_path fs) snapshot;; mret r) w (set_inner s fs st)
      end
  | Db db => write_state_db db f w st
  end.

(** [load_state] and [StateStore::load]: whatever goes wrong, the result is the
    default state. *)
Definition load_state (p : PathBuf) (files : gmap string string) (r : IoRes) : option State :=
  match r, files !! path_text p with
  | IoOk, Some contents => state_from_json contents
  | _, _ => Some State_default
  end.

Definition load (path : option PathBuf) (files : gmap string string) (r : IoRes)
    : StateStore :=
  let state := match path with
               | Some p => default State_default (load_state p files r)
               | None => State_default
               end in
  mkStateStore (File (mkFileStore state path)) files.

(** [init_db] *)
Definition init_db (db : DbStore) : M StateStore (AnyErr E) unit :=
  r ← io; (* select version() *)
  let is_cockroach :=
    match r, db_version db with
    | IoOk, Some v => contains_str "CockroachDB" v
    | _, _ => false
    end in
  io_ok;; (* begin *)
  (if is_cockroach : bool then mret tt else io_ok);; (* advisory lock *)
  io_ok;; (* create table if not exists *)
  io_ok;; (* select 1 *)
  match db_row db with
  | None => io_ok;; (* insert *)
            commit_db (set_row (state_to_json State_default) db)
  | Some _ => commit_db (λ st, st)
  end.

(** [StateStore::load_db], on the database behind the URL *)
Definition load_db (db : DbStore) : M StateStore (AnyErr E) unit :=
  io_ok;; (* connect *)
  modify (λ st, st <| ss_backend := Db db |>);;
  init_db db.

(** The state a request would see: the memory of the file store, the row of the
    database. *)
Definition view (st : StateStore) : option State :=
  match ss_backend st with
  | File fs => Some (fs_inner fs)
  | Db db => db_row db ≫= state_from_json
  end.
End Store.

(** ** What the handlers may rely on *)
Section Contract.
Context `{SerdeLaws}.
Context {E R : Type}.

Lemma io_ok_pure : pure_on (@io_ok E).
Proof. intros w s. unfold io_ok, mbind, M_bind, io. by destruct (w_io w (w_ios w)). Qed.

Lemma io_ok_cases w st :
  ∃ w', io_ok (E := E) w st = (Ok tt, w', st) ∨ io_ok (E := E) w st = (Err Failed, w', st).
Proof.
  unfold io_ok, mbind, M_bind, io. destruct (w_io w (w_ios w)); eexists; [left|right]; done.
Qed.

Lemma persist_file_backend path s w st :
  ss_backend (persist_file (E := E) path s w st).2 = ss_backend st.
Proof.
  unfold persist_file. destruct path as [p|]; [|done].
  unfold mbind at 1, M_bind at 1.
  destruct (_ w st) as [[r w1] st1] eqn:E1.
  assert (ss_backend st1 = ss_backend st) as Hb.
  { destruct (path_parent p) as [d|]; [destruct (is_empty d)|]; try (by inversion E1).
    pose proof (io_ok_pure w st) as Hp. rewrite E1 in Hp. simpl in Hp. by subst. }
  destruct r as [[]|e]; [|done]. unfold mbind, M_bind, io.
  destruct (w_io w1 (w_ios w1)) as [|[c|]]; simpl; by rewrite <- Hb.
Qed.

Lemma persist_file_error path s w st e w' st' :
  persist_file (E := E) path s w st = (Err e, w', st') → e = Failed.
Proof.
  unfold persist_file, io_ok, mbind, M_bind, io, mret, M_ret, mthrow, M_throw, modify.
  destruct path as [p|]; [|done].
  destruct (path_parent p) as [d|]; [destruct (is_empty d)|]; simpl;
    repeat (match goal with |- context [w_io ?w ?i] => destruct (w_io w i) as [|[c|]] end;
            simpl); by intros [= <- <- <-].
Qed.

(** The specification of [write], on the state in view.  [step_commit] is the normal
    case; a closure that fails is undone by the database and not by the file store;
    after an I/O failure nothing has happened, or everything has. *)
Inductive store_step (db : bool) (f : M State E R)
    : option State → result R (AnyErr E) → option State → Prop :=
  | step_commit s w r w' s' :
      f w s = (Ok r, w', s') →
      store_step db f (Some s) (Ok r) (Some (bump_revision s'))
  | step_rollback s w e w' s' :
      db = true → f w s = (Err e, w', s') →
      store_step db f (Some s) (Err (Raised e)) (Some s)
  | step_keep s w e w' s' :
      db = false → f w s = (Err e, w', s') →
      store_step db f (Some s) (Err (Raised e)) (Some s')
  | step_io_failure v :
      db = true → store_step db f v (Err Failed) v
  | step_unconfirmed s w r w' s' :
      f w s = (Ok r, w', s') →
      store_step db f (Some s) (Err Failed) (Some (bump_revision s')).

Definition is_db (st : StateStore) : bool :=
  match ss_backend st with Db _ => true | File _ => false end.

(** The locked part is one run of the closure, with the revision incremented when it
    succeeds. *)
Lemma write_locked_run (f : M State E R) w s :
  write_locked f w s = match f w s with
                       | (Ok r, w', s') => (Ok (r, bump_revision s'), w', bump_revision s')
                       | (Err e, w', s') => (Err e, w', s')
                       end.
Proof. unfold write_locked, mbind, M_bind. by destruct (f w s) as [[[r|e] w1] s1]. Qed.

Lemma write_file_step (f : M State E R) fs w st res w' st' :
  ss_backend st = File fs → write f w st = (res, w', st') →
  store_step false f (Some (fs_inner fs)) res (view st').
Proof.
  unfold write. intros Eb. rewrite Eb, write_locked_run.
  destruct (f w (fs_inner fs)) as [[[r|e] w1] s1] eqn:Ef.
  - pose proof (persist_file_backend (fs_path fs) (bump_revision s1) w1
      (set_inner (bump_revision s1) fs st)) as Hb.
    unfold mbind, M_bind. destruct (persist_file _ _ _ _) as [[[u|e] w2] st2] eqn:Ep;
      simpl in Hb; intros [= <- <- <-]; unfold view; rewrite Hb; simpl.
    + by eapply step_commit.
    + assert (e = Failed) as -> by (destruct e; [by apply persist_file_error in Ep|done]).
      by eapply step_unconfirmed.
  - intros [= <- <- <-]. by eapply step_keep.
Qed.

Lemma write_db_step (f : M State E R) db w st res w' st' :
  ss_backend st = Db db → write f w st = (res, w', st') →
  store_step true f (view st) res (view st').
Proof.
  unfold write. intros Eb. rewrite Eb. unfold write_state_db, mbind, M_bind.
  destruct (io_ok_cases w st) as (w1 & [->| ->]); [|intros [= <- <- <-]; by constructor].
  destruct (io_ok_cases w1 st) as (w2 & [->| ->]); [|intros [= <- <- <-]; by constructor].
  destruct (db_row db) as [row|] eqn:Er; [|intros [= <- <- <-]; by constructor]. simpl.
  destruct (state_from_json row) as [s|] eqn:Ej; [|intros [= <- <- <-]; by constructor]. simpl.
  assert (view st = Some s) as -> by (unfold view; rewrite Eb, Er; exact Ej).
  destruct (f w2 s) as [[[r|e] w3] s3] eqn:Ef;
    [|intros [= <- <- <-]; unfold view; rewrite Eb, Er; simpl; rewrite Ej; by eapply step_rollback].
  assert (view st = Some s) as Hv by (unfold view; rewrite Eb, Er; exact Ej).
  destruct (io_ok_cases w3 st) as (w4 & [->| ->]);
    [|intros [= <- <- <-]; rewrite Hv; by constructor].
  unfold commit_db, mbind, M_bind, io.
  destruct (w_io w4 (w_ios w4)) as [|[c|]]; simpl; intros [= <- <- <-];
    rewrite ?Hv; unfold view; simpl; rewrite ?state_from_to_json.
  - by eapply step_commit.
  - by eapply step_unconfirmed.
  - by constructor.
Qed.

(** Both backends implement the specification. *)
Lemma write_simulates (f : M State E R) w st res w' st' :
  write f w st = (res, w', st') → store_step (is_db st) f (view st) res (view st').
Proof.
  unfold is_db. destruct (ss_backend st) as [fs|db] eqn:Eb; intros Hw.
  - replace (view st) with (Some (fs_inner fs)) by (unfold view; by rewrite Eb).
    by eapply write_file_step.
  - by eapply write_db_step.
Qed.

(** A failing closure leaves its mutations in the memory of the file store,
    at the old revision and without touching the file. *)
Lemma write_file_no_rollback (f : M State E R) fs w st e w1 s1 :
  ss_backend st = File fs → f w (fs_inner fs) = (Err e, w1, s1) →
  write f w st = (Err (Raised e), w1, set_inner s1 fs st).
Proof. intros Hb Hf. unfold write. by rewrite Hb, write_locked_run, Hf. Qed.

(** [read] changes neither backend. *)
Lemma read_pure (f : M State E R) : pure_on (read f).
Proof.
  intros w st. unfold read. destruct (ss_backend st) as [fs|db].
  - by destruct (f w (fs_inner fs)) as [[[r|e] w1] s1].
  - apply pure_bind.
    + unfold load_state_db. apply pure_bind; [apply io_ok_pure|intros; solve_pure].
    + intros state w1 s1. by destruct (f w1 state) as [[[r|e] w2] s2].
Qed.

Lemma read_view (f : M State E R) w st r w' st' :
  read f w st = (Ok r, w', st') →
  ∃ s w0 w1 s1, view st = Some s ∧ f w0 s = (Ok r, w1, s1).
Proof.
  unfold read, view. destruct (ss_backend st) as [fs|db] eqn:Eb.
  - destruct (f w (fs_inner fs)) as [[[r1|e] w1] s1] eqn:Ef; [|done].
    intros [= <- <- <-]. eauto 8.
  - intros (state & w1 & st1 & Hl & Hr)%bind_ok_inv.
    unfold load_state_db in Hl. run_inv Hl. run_inv Hl.
    destruct (db_row db) as [row|]; [|done]. injection Hrun0 as <- <- <-.
    destruct (state_from_json row) as [sd|] eqn:Ej; [|done]. injection Hl as <- <- <-.
    match type of Hr with context [f ?w sd] =>
      destruct (f w sd) as [[[r1|e] w3] s3] eqn:Ef end; [|done].
    injection Hr as <- <- <-. exists sd. simpl. eauto 8.
Qed.
End Contract.
