(* ===== verification/SampleStore.v ===== *)
(** * An executable codec of the state

    [Serde] stands for serde_json; the theorems about the store only assume that a
    state survives the round trip.  This file gives an instance: every type of the
    state is coded as a tree, and a tree as a string of bits. *)

From S2P Require Import Prelude Effects RustStd Model Store.

(** Trees with text and integers at the leaves. *)
Definition tree : Type := gen_tree (string + Z).

Class Code (A : Type) := {
  enc : A → tree;
  dec : tree → option A;
  dec_enc a : dec (enc a) = Some a;
}.

#[export] Instance code_string : Code string.
Proof.
  refine {|
    enc s := GenLeaf (inl s);
    dec t := match t with GenLeaf (inl s) => Some s | _ => None end;
  |}.
  all: done.
Defined.

#[export] Instance code_Z : Code Z.
Proof.
  refine {|
    enc z := GenLeaf (inr z);
    dec t := match t with GenLeaf (inr z) => Some z | _ => None end;
  |}.
  all: done.
Defined.

(** A type that embeds in a coded one. *)
Definition code_iso {A B} `{Code B} (f : A → B) (g : B → option A)
    (Hgf : ∀ a, g (f a) = Some a) : Code A.
Proof.
  refine {| enc a := enc (f a); dec t := dec t ≫= g |}.
  intros a. rewrite dec_enc. apply Hgf.
Defined.

#[export] Instance code_bool : Code bool :=
  code_iso (λ b : bool, if b then 1%Z else 0%Z) (λ z, Some (negb (z =? 0)%Z))
    ltac:(by intros []).

#[export] Instance code_prod {A B} `{Code A} `{Code B} : Code (A * B).
Proof.
  refine {|
    enc p := GenNode 0 [enc p.1; enc p.2];
    dec t := match t with
             | GenNode _ [a; b] => x ← dec a; y ← dec b; Some (x, y)
             | _ => None
             end;
  |}.
  intros [a b]. simpl. by rewrite !dec_enc.
Defined.

#[export] Instance code_option {A} `{Code A} : Code (option A).
Proof.
  refine {|
    enc o := match o with Some a => GenNode 1 [enc a] | None => GenNode 0 [] end;
    dec t := match t with
             | GenNode _ [a] => Some <$> dec a
             | GenNode _ [] => Some None
             | _ => None
             end;
  |}.
  intros [a|]; simpl; [by rewrite dec_enc|done].
Defined.

Lemma mapM_dec_enc {A} `{Code A} (l : list A) : mapM dec (enc <$> l) = Some l.
Proof. apply mapM_fmap_Some, dec_enc. Qed.

#[export] Instance code_list {A} `{Code A} : Code (list A).
Proof.
  refine {|
    enc l := GenNode 0 (enc <$> l);
    dec t := match t with GenNode _ ts => mapM dec ts | _ => None end;
  |}.
  intros l. apply mapM_dec_enc.
Defined.

#[export] Instance code_map {A} `{Code A} : Code (gmap string A) :=
  code_iso map_to_list (λ l, Some (list_to_map l))
    (λ m, f_equal Some (list_to_map_to_list m)).

(** ** JSON values *)
Fixpoint json_enc (j : Json) : tree :=
  match j with
  | JNull => GenNode 0 []
  | JBool b => GenNode 1 [enc b]
  | JNumber z => GenLeaf (inr z)
  | JString s => GenLeaf (inl s)
  | JArray l => GenNode 2 (json_enc <$> l)
  | JObject m => GenNode 3 ((λ kv, GenNode 4 [enc kv.1; json_enc kv.2]) <$> m)
  end.

Fixpoint json_dec (t : tree) : option Json :=
  match t with
  | GenLeaf (inr z) => Some (JNumber z)
  | GenLeaf (inl s) => Some (JString s)
  | GenNode 0 _ => Some JNull
  | GenNode 1 [b] => JBool <$> dec b
  | GenNode 2 l => JArray <$> mapM json_dec l
  | GenNode 3 m => JObject <$> mapM (λ t, match t with
                                          | GenNode _ [k; v] =>
                                              k ← dec k; v ← json_dec v; Some (k, v)
                                          | _ => None
                                          end) m
  | _ => None
  end.

Fixpoint json_dec_enc (j : Json) : json_dec (json_enc j) = Some j.
Proof.
  destruct j as [|[]|z|s|l|m]; try reflexivity; simpl.
  - assert (mapM json_dec (json_enc <$> l) = Some l) as ->; [|reflexivity].
    induction l as [|j l IH]; [reflexivity|]. rewrite fmap_cons. cbn [mapM].
    rewrite json_dec_enc. cbn [mbind option_bind]. rewrite IH. reflexivity.
  - match goal with |- JObject <$> ?x = _ => assert (x = Some m) as ->; [|reflexivity] end.
    induction m as [|[k v] m IH]; [reflexivity|]. rewrite fmap_cons. cbn [mapM].
    cbn [fst snd dec enc code_string mbind option_bind]. rewrite json_dec_enc.
    cbn [mbind option_bind]. rewrite IH. reflexivity.
Qed.

#[export] Instance code_json : Code Json := {| dec_enc := json_dec_enc |}.

(** ** The records of the state *)
#[export] Instance code_action : Code AclAction :=
  code_iso (λ a, match a with Allow => true | Deny => false end)
    (λ b : bool, Some (if b then Allow else Deny)) ltac:(by intros []).
#[export] Instance code_key_type : Code KeyType :=
  code_iso (λ a, match a with Machine => true | WireGuard => false end)
    (λ b : bool, Some (if b then Machine else WireGuard)) ltac:(by intros []).
#[export] Instance code_route_kind : Code RouteKind :=
  code_iso (λ a, match a with Subnet => true | Exit => false end)
    (λ b : bool, Some (if b then Subnet else Exit)) ltac:(by intros []).
#[export] Instance code_selector : Code AclSelector :=
  code_iso (λ s, (sel_any s, sel_tags s, sel_node_ids s, sel_names s))
    (λ '(a, b, c, d), Some (mkAclSelector a b c d)) ltac:(by intros []).
#[export] Instance code_rule : Code AclRule :=
  code_iso (λ r, (rule_action r, rule_src r, rule_dst r))
    (λ '(a, b, c), Some (mkAclRule a b c)) ltac:(by intros []).
#[export] Instance code_policy : Code AclPolicy :=
  code_iso (λ p, (acl_default_action p, acl_rules p))
    (λ '(a, b), Some (mkAclPolicy a b)) ltac:(by intros []).
#[export] Instance code_key_policy : Code KeyRotationPolicy :=
  code_iso max_age_seconds (λ a, Some (mkKeyRotationPolicy a)) ltac:(by intros []).
#[export] Instance code_key_record : Code KeyRecord :=
  code_iso (λ r, (kr_key_type r, kr_public_key r, kr_created_at r, kr_revoked_at r))
    (λ '(a, b, c, d), Some (mkKeyRecord a b c d)) ltac:(by intros []).
#[export] Instance code_route : Code Route :=
  code_iso (λ r, (rt_prefix r, rt_kind r, rt_enabled r, rt_mapped_prefix r))
    (λ '(a, b, c, d), Some (mkRoute a b c d)) ltac:(by intros []).
#[export] Instance code_network : Code NetworkState :=
  code_iso (λ n, ((nw_id n, nw_name n, nw_overlay_v4 n, nw_overlay_v6 n, nw_dns_domain n),
                  (nw_requires_approval n, nw_acl n, nw_key_policy n),
                  (nw_created_at n, nw_next_ipv4 n, nw_next_ipv6 n)))
    (λ '((a, b, c, d, e), (f, g, h), (i, j, k)), Some (mkNetworkState a b c d e f g h i j k))
    ltac:(by intros []).
#[export] Instance code_node : Code NodeState :=
  code_iso (λ n, ((nd_id n, nd_network_id n, nd_name n, nd_machine_public_key n,
                   nd_wg_public_key n, nd_ipv4 n, nd_ipv6 n),
                  (nd_endpoints n, nd_tags n, nd_owner_user_id n, nd_owner_email n,
                   nd_owner_is_admin n, nd_routes n),
                  (nd_created_at n, nd_last_seen n, nd_probe_requested_at n, nd_approved n,
                   nd_approved_at n),
                  (nd_auth_secret n, nd_auth_expires_at n, nd_node_token n, nd_revoked_at n,
                   nd_key_history n)))
    (λ '((a1, a2, a3, a4, a5, a6, a7), (b1, b2, b3, b4, b5, b6), (c1, c2, c3, c4, c5),
         (d1, d2, d3, d4, d5)),
      Some (mkNodeState a1 a2 a3 a4 a5 a6 a7 b1 b2 b3 b4 b5 b6 c1 c2 c3 c4 c5 d1 d2 d3 d4 d5))
    ltac:(by intros []).
#[export] Instance code_token : Code TokenState :=
  code_iso (λ t, ((tk_token t, tk_network_id t, tk_expires_at t, tk_uses_left t, tk_tags t),
                  (tk_owner_user_id t, tk_owner_email t, tk_owner_is_admin t, tk_revoked_at t)))
    (λ '((a, b, c, d, e), (f, g, h, i)), Some (mkTokenState a b c d e f g h i))
    ltac:(by intros []).
#[export] Instance code_audit : Code AuditEntry :=
  code_iso (λ e, (ae_id e, ae_timestamp e, ae_network_id e, ae_node_id e, ae_action e, ae_detail e))
    (λ '(a, b, c, d, e, f), Some (mkAuditEntry a b c d e f)) ltac:(by intros []).
#[export] Instance code_state : Code State :=
  code_iso (λ s, (st_version s, st_revision s, st_networks s, st_nodes s, st_tokens s,
                  st_audit_log s))
    (λ '(a, b, c, d, e, f), Some (mkState a b c d e f)) ltac:(by intros []).

(** ** Bits *)
Definition zero_char : Ascii.ascii := Ascii.Ascii false false false false true true false false.
Definition one_char : Ascii.ascii := Ascii.Ascii true false false false true true false false.
Fixpoint bits_of (p : positive) : string :=
match p with
| xH => EmptyString
| xO p => String zero_char (bits_of p)
| xI p => String one_char (bits_of p)
end.
Fixpoint of_bits (s : string) : positive :=
match s with
| EmptyString => xH
| String c s => if decide (c = zero_char) then xO (of_bits s) else xI (of_bits s)
end.
Lemma of_bits_of p : of_bits (bits_of p) = p.
Proof. induction p as [p IH|p IH|]; simpl; by rewrite ?IH. Qed.

Definition tree_of (t : string) : option State := decode (of_bits t) ≫= dec.
Lemma tree_of_enc s : tree_of (bits_of (encode (enc s))) = Some s.
Proof.
  unfold tree_of. rewrite of_bits_of, decode_encode. cbn [mbind option_bind]. apply dec_enc.
Qed.

(** Like a JSON parser, it refuses text after the end of the document: it accepts only what
    printing gives. *)
Definition strict_tree_of (text : string) : option State :=
  s ← tree_of text; if bool_decide (bits_of (encode (enc s)) = text) then Some s else None.

Lemma strict_tree_of_enc s : strict_tree_of (bits_of (encode (enc s))) = Some s.
Proof.
  unfold strict_tree_of. rewrite tree_of_enc. cbn [mbind option_bind].
  by rewrite bool_decide_eq_true_2.
Qed.

#[export] Instance sample_serde : Serde := {|
  state_to_json s := bits_of (encode (enc s));
  state_from_json := strict_tree_of;
|}.

#[export] Instance sample_serde_laws : SerdeLaws := {|
  state_from_to_json := strict_tree_of_enc;
|}.
