(* ===== verification/Ipam.v ===== *)
(** * Overlay address allocation (src/api.rs, [max_ipv4_offset] to [allocate_node_ips])

    Each network owns an IPv4 and an IPv6 block and hands out host offsets in
    increasing order.  The theorems show that the offsets stay inside the block,
    that the fixed-width additions never wrap, that the allocator fails exactly
    when a block is used up, and that overlapping blocks are detected. *)

From S2P Require Import Prelude Effects RustStd StdNet Externals Model.

(** [ApiError] (src/api.rs) *)
Inductive ApiError : Type :=
  | NotFound (msg : string)
  | BadRequest (msg : string)
  | Unauthorized (msg : string)
  | Conflict (msg : string)
  | Internal.

Section Ipam.
Context `{IpNet}.

Definition ipv4_nets_overlap (a b : Ipv4Net) : bool :=
  ipv4net_contains a (ipv4net_network b) || ipv4net_contains b (ipv4net_network a).

Definition ipv6_nets_overlap (a b : Ipv6Net) : bool :=
  ipv6net_contains a (ipv6net_network b) || ipv6net_contains b (ipv6net_network a).

(** [total] is a [u64]: [1 << host_bits] for at most 32 host bits. *)
Definition max_ipv4_offset (net : Ipv4Net) : option Z :=
  let prefix_len := ipv4net_prefix_len net in
  if 31 <=? prefix_len then None
  else
    let host_bits := 32 - prefix_len in
    let total := wrap_u 64 (Z.shiftl 1 host_bits) in
    let last_usable := u_saturating_sub total 2 in
    if last_usable <=? u32_max then Some last_usable else None.

Definition initial_ipv4_offset (net : Ipv4Net) : option Z :=
  max ← max_ipv4_offset net;
  if 10 <=? max then Some 10 else if 1 <=? max then Some 1 else None.

Definition max_ipv6_offset (net : Ipv6Net) : Z :=
  let host_bits := 128 - ipv6net_prefix_len net in
  if host_bits =? 128 then u128_max
  else if host_bits =? 0 then 0
  else wrap_u 128 (Z.shiftl 1 host_bits) - 1.

Definition initial_ipv6_offset (net : Ipv6Net) : Z :=
  let max := max_ipv6_offset net in
  if 10 <=? max then 10 else if 1 <=? max then 1 else 0.

(** The allocator works on a [&mut NetworkState]: when the IPv6 block is used up
    the IPv4 offset has already been advanced. *)
Definition allocate_node_ips : M NetworkState ApiError (string * string) :=
  network ← get;
  v4_net ← ok_or (ipv4net_parse (nw_overlay_v4 network)) Internal;
  v6_net ← ok_or (ipv6net_parse (nw_overlay_v6 network)) Internal;
  max_ipv4 ← ok_or (max_ipv4_offset v4_net)
    (Conflict "ipv4 subnet has no usable host addresses");
  fail_if (max_ipv4 <? nw_next_ipv4 network) (Conflict "ipv4 address space exhausted");;
  let base_v4 := ipv4net_network v4_net in
  let ip4 := wrap_u 32 (base_v4 + nw_next_ipv4 network) in
  modify (λ n, n <| nw_next_ipv4 := wrap_u 32 (nw_next_ipv4 n + 1) |>);;
  let max_ipv6 := max_ipv6_offset v6_net in
  fail_if (max_ipv6 <? nw_next_ipv6 network) (Conflict "ipv6 address space exhausted");;
  let base_v6 := ipv6net_network v6_net in
  let ip6 := wrap_u 128 (base_v6 + nw_next_ipv6 network) in
  modify (λ n, n <| nw_next_ipv6 := wrap_u 128 (nw_next_ipv6 n + 1) |>);;
  mret (ipv4_to_string ip4, ipv6_to_string ip6).
End Ipam.

Section Bounds.
Context `{IpNetLaws}.

Lemma ipv4_block_fits n :
  ipv4net_network n + 2 ^ (32 - ipv4net_prefix_len n) ≤ 2 ^ 32.
Proof.
  pose proof (ipv4net_prefix_bound n) as Hp.
  pose proof (ipv4net_network_range n) as Hr. unfold in_ipv4 in Hr.
  pose proof (ipv4net_network_aligned n) as Ha.
  set (h := 32 - ipv4net_prefix_len n) in *.
  assert (0 < 2 ^ h) as Hh by (apply Z.pow_pos_nonneg; lia).
  assert (2 ^ 32 = 2 ^ (32 - h) * 2 ^ h) as Hs by (rewrite <- Z.pow_add_r; f_equal; lia).
  pose proof (Z.div_mod (ipv4net_network n) (2 ^ h) ltac:(lia)) as Hd. rewrite Ha in Hd.
  assert (ipv4net_network n / 2 ^ h < 2 ^ (32 - h)) by (apply Z.div_lt_upper_bound; lia).
  nia.
Qed.

Lemma ipv6_block_fits n :
  ipv6net_network n + 2 ^ (128 - ipv6net_prefix_len n) ≤ 2 ^ 128.
Proof.
  pose proof (ipv6net_prefix_bound n) as Hp.
  pose proof (ipv6net_network_range n) as Hr. unfold in_ipv6 in Hr.
  pose proof (ipv6net_network_aligned n) as Ha.
  set (h := 128 - ipv6net_prefix_len n) in *.
  assert (0 < 2 ^ h) as Hh by (apply Z.pow_pos_nonneg; lia).
  assert (2 ^ 128 = 2 ^ (128 - h) * 2 ^ h) as Hs by (rewrite <- Z.pow_add_r; f_equal; lia).
  pose proof (Z.div_mod (ipv6net_network n) (2 ^ h) ltac:(lia)) as Hd. rewrite Ha in Hd.
  assert (ipv6net_network n / 2 ^ h < 2 ^ (128 - h)) by (apply Z.div_lt_upper_bound; lia).
  nia.
Qed.

(** The largest IPv4 offset is the last host before the broadcast address. *)
Lemma max_ipv4_offset_spec n m :
  max_ipv4_offset n = Some m ↔
  ipv4net_prefix_len n ≤ 30 ∧ m = 2 ^ (32 - ipv4net_prefix_len n) - 2.
Proof.
  pose proof (ipv4net_prefix_bound n) as Hp. unfold max_ipv4_offset.
  destruct (Z.leb_spec 31 (ipv4net_prefix_len n)); [split; [done|lia]|].
  set (h := 32 - ipv4net_prefix_len n) in *. rewrite Z.shiftl_1_l.
  assert (2 ^ 2 ≤ 2 ^ h) as Hlo by (apply Z.pow_le_mono_r; lia).
  assert (2 ^ h ≤ 2 ^ 32) as Hhi by (apply Z.pow_le_mono_r; lia).
  rewrite wrap_u_id by lia. unfold u_saturating_sub, u32_max.
  rewrite (proj2 (Z.leb_le _ _)) by lia.
  split; [intros [= <-]; lia|]. intros [_ ->]. f_equal. lia.
Qed.

Lemma max_ipv6_offset_spec n :
  max_ipv6_offset n = 2 ^ (128 - ipv6net_prefix_len n) - 1.
Proof.
  pose proof (ipv6net_prefix_bound n) as Hp. unfold max_ipv6_offset.
  set (h := 128 - ipv6net_prefix_len n) in *. rewrite Z.shiftl_1_l.
  destruct (Z.eqb_spec h 128) as [->|]; [done|].
  destruct (Z.eqb_spec h 0) as [->|]; [done|].
  rewrite wrap_u_id; [done|]. split; [apply Z.pow_nonneg; lia|apply Z.pow_lt_mono_r; lia].
Qed.

(** Two blocks overlap exactly when they share an address. *)
Lemma ipv4_nets_overlap_spec a b :
  ipv4_nets_overlap a b = true ↔
  ∃ x, in_ipv4 x ∧ ipv4net_contains a x = true ∧ ipv4net_contains b x = true.
Proof.
  pose proof (ipv4net_network_range a) as Ra. pose proof (ipv4net_network_range b) as Rb.
  pose proof (ipv4net_prefix_bound a) as Pa. pose proof (ipv4net_prefix_bound b) as Pb.
  unfold ipv4_nets_overlap. rewrite orb_true_iff, !ipv4net_contains_spec by done.
  assert (∀ k, 0 ≤ k → 0 < 2 ^ k) as Hpow by (intros; apply Z.pow_pos_nonneg; lia).
  pose proof (Hpow (32 - ipv4net_prefix_len a) ltac:(lia)) as Ha.
  pose proof (Hpow (32 - ipv4net_prefix_len b) ltac:(lia)) as Hb.
  split.
  - intros [Hx|Hx]; [exists (ipv4net_network b)|exists (ipv4net_network a)];
      (split; [done|]); rewrite !ipv4net_contains_spec by done; lia.
  - intros (x & Hx & H1 & H2). rewrite ipv4net_contains_spec in H1, H2 by done.
    destruct (Z.le_ge_cases (ipv4net_network a) (ipv4net_network b)); [left|right]; lia.
Qed.

Lemma ipv6_nets_overlap_spec a b :
  ipv6_nets_overlap a b = true ↔
  ∃ x, in_ipv6 x ∧ ipv6net_contains a x = true ∧ ipv6net_contains b x = true.
Proof.
  pose proof (ipv6net_network_range a) as Ra. pose proof (ipv6net_network_range b) as Rb.
  pose proof (ipv6net_prefix_bound a) as Pa. pose proof (ipv6net_prefix_bound b) as Pb.
  unfold ipv6_nets_overlap. rewrite orb_true_iff, !ipv6net_contains_spec by done.
  assert (∀ k, 0 ≤ k → 0 < 2 ^ k) as Hpow by (intros; apply Z.pow_pos_nonneg; lia).
  pose proof (Hpow (128 - ipv6net_prefix_len a) ltac:(lia)) as Ha.
  pose proof (Hpow (128 - ipv6net_prefix_len b) ltac:(lia)) as Hb.
  split.
  - intros [Hx|Hx]; [exists (ipv6net_network b)|exists (ipv6net_network a)];
      (split; [done|]); rewrite !ipv6net_contains_spec by done; lia.
  - intros (x & Hx & H1 & H2). rewrite ipv6net_contains_spec in H1, H2 by done.
    destruct (Z.le_ge_cases (ipv6net_network a) (ipv6net_network b)); [left|right]; lia.
Qed.
End Bounds.

(** ** Well-formed allocators *)
Section Allocator.
Context `{IpNetLaws}.

(** The blocks of a network parse, and the next offsets are host offsets or one
    past the last. *)
Record alloc_ok (n : NetworkState) (v4 : Ipv4Net) (v6 : Ipv6Net) : Prop := {
  ao_v4 : ipv4net_parse (nw_overlay_v4 n) = Some v4;
  ao_v6 : ipv6net_parse (nw_overlay_v6 n) = Some v6;
  ao_usable : ipv4net_prefix_len v4 ≤ 30;
  ao_next4 : 1 ≤ nw_next_ipv4 n ≤ 2 ^ (32 - ipv4net_prefix_len v4) - 1;
  ao_next6 : 0 ≤ nw_next_ipv6 n ≤ 2 ^ (128 - ipv6net_prefix_len v6);
  (* the IPv6 offset never runs ahead of the IPv4 offset, so it cannot wrap *)
  ao_lag : nw_next_ipv6 n ≤ nw_next_ipv4 n + 9;
}.

(** [create_network] starts from a well-formed allocator. *)
Lemma initial_offsets_ok n v4 v6 o4 :
  ipv4net_parse (nw_overlay_v4 n) = Some v4 → ipv6net_parse (nw_overlay_v6 n) = Some v6 →
  initial_ipv4_offset v4 = Some o4 →
  nw_next_ipv4 n = o4 → nw_next_ipv6 n = initial_ipv6_offset v6 → alloc_ok n v4 v6.
Proof.
  intros H4 H6 Hi Hn4 Hn6. unfold initial_ipv4_offset in Hi.
  destruct (max_ipv4_offset v4) as [m|] eqn:Em; [|done]. simpl in Hi.
  apply max_ipv4_offset_spec in Em as [Hp Hm].
  pose proof (ipv6net_prefix_bound v6) as Hp6.
  assert (0 < 2 ^ (128 - ipv6net_prefix_len v6)) by (apply Z.pow_pos_nonneg; lia).
  unfold initial_ipv6_offset in Hn6. rewrite max_ipv6_offset_spec in Hn6.
  split; try done; repeat (case_match; simplify_eq); bool_props; lia.
Qed.

(** What the allocator does on a well-formed network, on every branch.  The
    addresses are the block's base plus the next offsets: nothing wraps. *)
Lemma allocate_node_ips_spec n v4 v6 w :
  alloc_ok n v4 v6 →
  allocate_node_ips w n =
    if 2 ^ (32 - ipv4net_prefix_len v4) - 2 <? nw_next_ipv4 n
    then (Err (Conflict "ipv4 address space exhausted"), w, n)
    else let n1 := n <| nw_next_ipv4 := nw_next_ipv4 n + 1 |> in
      if 2 ^ (128 - ipv6net_prefix_len v6) - 1 <? nw_next_ipv6 n
      then (Err (Conflict "ipv6 address space exhausted"), w, n1)
      else (Ok (ipv4_to_string (ipv4net_network v4 + nw_next_ipv4 n),
                ipv6_to_string (ipv6net_network v6 + nw_next_ipv6 n)), w,
            n1 <| nw_next_ipv6 := nw_next_ipv6 n + 1 |>).
Proof.
  intros [H4 H6 Hu Hn4 Hn6 Hlag].
  assert (2 ^ (32 - ipv4net_prefix_len v4) ≤ 2 ^ 32) as Hb4
    by (apply Z.pow_le_mono_r; pose proof (ipv4net_prefix_bound v4); lia).
  pose proof (ipv4net_prefix_bound v4) as Hp4. pose proof (ipv6net_prefix_bound v6) as Hp6.
  pose proof (ipv4_block_fits v4) as F4. pose proof (ipv6_block_fits v6) as F6.
  pose proof (ipv4net_network_range v4) as R4. pose proof (ipv6net_network_range v6) as R6.
  unfold in_ipv4, in_ipv6 in R4, R6.
  assert (max_ipv4_offset v4 = Some (2 ^ (32 - ipv4net_prefix_len v4) - 2)) as Hm4
    by (by apply max_ipv4_offset_spec).
  unfold allocate_node_ips, mbind, M_bind, get. rewrite H4, H6. simpl. rewrite Hm4. simpl.
  destruct (Z.ltb_spec (2 ^ (32 - ipv4net_prefix_len v4) - 2) (nw_next_ipv4 n)); [done|].
  simpl. rewrite max_ipv6_offset_spec.
  rewrite (wrap_u_id 32 (nw_next_ipv4 n + 1)) by lia.
  destruct (Z.ltb_spec (2 ^ (128 - ipv6net_prefix_len v6) - 1) (nw_next_ipv6 n)); [done|].
  simpl. rewrite !wrap_u_id by lia. done.
Qed.

(** Every outcome of the allocator keeps it well-formed, failures included. *)
Lemma allocate_node_ips_ok v4 v6 : preserves (λ n, alloc_ok n v4 v6) allocate_node_ips.
Proof.
  intros w n Hok. rewrite (allocate_node_ips_spec n v4 v6 w Hok).
  destruct Hok as [H4 H6 Hu Hn4 Hn6 Hlag].
  repeat (case_match; simplify_eq/=); bool_props; split; simpl; done || lia.
Qed.
End Allocator.
