(* ===== verification/Keys.v ===== *)
(** * Key history and node status (src/api.rs, [effective_node_status] to
    [revoke_key_record])

    A node has one current machine key and one current WireGuard key, and a history
    of every key it registered.  [key_history_ok] is the invariant that makes the
    age check meaningful: at most one record per key type is live, and it is the
    current key's. *)

From S2P Require Import Prelude Model.

Definition node_key (node : NodeState) (t : KeyType) : string :=
  match t with Machine => nd_machine_public_key node | WireGuard => nd_wg_public_key node end.

Definition current_key_created_at (node : NodeState) (key_type : KeyType) : option Z :=
  kr_created_at <$>
    find_first (λ record,
      bool_decide (kr_key_type record = key_type)
      && is_none (kr_revoked_at record)
      && bool_decide (kr_public_key record = node_key node key_type))
    (nd_key_history node).

Definition effective_node_status (node : NodeState) (key_policy : KeyRotationPolicy) (now : Z)
    : bool * bool :=
  let expired max_age t :=
    match current_key_created_at node t with
    | Some created_at => as_i64 max_age <? i64_saturating_sub now created_at
    | None => false
    end in
  let key_rotation_required :=
    match max_age_seconds key_policy with
    | Some max_age => expired max_age Machine || expired max_age WireGuard
    | None => false
    end in
  let revoked := is_some (nd_revoked_at node) in
  (nd_approved node && negb revoked && negb key_rotation_required, key_rotation_required).

Definition revoke_key_record (history : list KeyRecord) (key_type : KeyType)
    (public_key : string) (now : Z) : list KeyRecord :=
  (λ record,
     if bool_decide (kr_key_type record = key_type)
        && bool_decide (kr_public_key record = public_key)
     then record <| kr_revoked_at := Some now |> else record) <$> history.

(** ** The history invariant *)

(** The live records of a type, in order. *)
Definition live (t : KeyType) (h : list KeyRecord) : list KeyRecord :=
  filter (λ r, kr_key_type r = t ∧ kr_revoked_at r = None) h.

(** A history with current key [k] for [t]: nothing live, or one live record, for [k]. *)
Definition history_ok (t : KeyType) (k : string) (h : list KeyRecord) : Prop :=
  live t h = [] ∨ ∃ c, live t h = [mkKeyRecord t k c None].

Definition key_history_ok (node : NodeState) : Prop :=
  ∀ t, history_ok t (node_key node t) (nd_key_history node).

(** [rotate] as the handlers do it: retire the old key, append the new one. *)
Definition rotate_history (h : list KeyRecord) (t : KeyType) (old new : string) (now : Z)
    : list KeyRecord :=
  revoke_key_record h t old now ++ [mkKeyRecord t new now None].

Lemma live_app t h1 h2 : live t (h1 ++ h2) = live t h1 ++ live t h2.
Proof. apply filter_app. Qed.

(** Revoking the current key's records leaves nothing live of its type. *)
Lemma live_revoke_same t k h now : history_ok t k h → live t (revoke_key_record h t k now) = [].
Proof.
  intros Hok.
  assert (∀ r, r ∈ live t h → kr_public_key r = k) as Hk.
  { intros r Hr. destruct Hok as [E|[c E]]; rewrite E in Hr; set_solver. }
  clear Hok. unfold live in *. induction h as [|r h IH]; [done|].
  unfold revoke_key_record in *. rewrite fmap_cons.
  rewrite (filter_cons _ r h) in Hk. rewrite filter_cons.
  case_bool_decide as Et; case_bool_decide as Ek; simpl;
    destruct (decide (kr_key_type r = t ∧ kr_revoked_at r = None)) as [[? ?]|?];
    (try (rewrite decide_False by naive_solver));
    try (apply IH; set_solver); exfalso; set_solver.
Qed.

(** Keys of the other type are left alone. *)
Lemma live_revoke_other t t' k h now :
  t ≠ t' → live t (revoke_key_record h t' k now) = live t h.
Proof.
  intros Hne. unfold live, revoke_key_record. induction h as [|r h IH]; [done|].
  rewrite fmap_cons, !filter_cons. destruct (decide (kr_key_type r = t)) as [Et|Et].
  - rewrite bool_decide_eq_false_2 by congruence. simpl. case_decide; by rewrite IH.
  - rewrite (decide_False (P := kr_key_type r = t ∧ _)) by naive_solver.
    rewrite decide_False; [done|]. case_match; simpl; naive_solver.
Qed.

Lemma history_ok_rotate t old new h now :
  history_ok t old h → history_ok t new (rotate_history h t old new now).
Proof.
  intros Hok. right. exists now. unfold rotate_history.
  rewrite live_app, live_revoke_same by done. simpl.
  unfold live. rewrite filter_cons_True by done. done.
Qed.

Lemma history_ok_rotate_other t t' k old new h now :
  t ≠ t' → history_ok t k h → history_ok t k (rotate_history h t' old new now).
Proof.
  intros Hne Hok. unfold history_ok, rotate_history.
  rewrite live_app, live_revoke_other by done.
  unfold live at 2 4. rewrite filter_cons_False by naive_solver.
  rewrite filter_nil, app_nil_r. exact Hok.
Qed.

Lemma history_ok_revoke t t' k k' h now :
  history_ok t k h → (t = t' → k' = k) → history_ok t k (revoke_key_record h t' k' now).
Proof.
  intros Hok Hk. destruct (decide (t = t')) as [<-|Hne].
  - rewrite Hk by done. left. by apply live_revoke_same.
  - unfold history_ok. rewrite live_revoke_other by done. exact Hok.
Qed.

(** The history a registration writes. *)
Lemma key_history_ok_new t machine wg now :
  history_ok t (match t with Machine => machine | WireGuard => wg end)
    [mkKeyRecord Machine machine now None; mkKeyRecord WireGuard wg now None].
Proof. right. exists now. by destruct t. Qed.

(** ** What the age check sees *)

Lemma find_live t k h :
  find_first (λ r, bool_decide (kr_key_type r = t) && is_none (kr_revoked_at r)
                   && bool_decide (kr_public_key r = k)) h =
  find_first (λ r, bool_decide (kr_public_key r = k)) (live t h).
Proof.
  unfold find_first, live. induction h as [|r h IH]; [done|].
  rewrite filter_cons. cbn [List.find].
  case_bool_decide as Et; simpl.
  - destruct (kr_revoked_at r) eqn:Er; simpl.
    + rewrite decide_False by naive_solver. exact IH.
    + rewrite decide_True by done. simpl. case_bool_decide; [done|exact IH].
  - rewrite decide_False by naive_solver. exact IH.
Qed.

(** With a well-formed history, the creation time that is found is that of the
    only live record. *)
Lemma current_key_created_at_live node t :
  key_history_ok node →
  current_key_created_at node t = kr_created_at <$> head (live t (nd_key_history node)).
Proof.
  intros Hok. unfold current_key_created_at. rewrite find_live.
  destruct (Hok t) as [E|[c E]]; rewrite E; [done|]. simpl.
  by rewrite bool_decide_eq_true_2.
Qed.

(** The key-age rule the policy asks for, without the machine arithmetic. *)
Definition key_expired (node : NodeState) (max_age now : Z) (t : KeyType) : Prop :=
  ∃ c, mkKeyRecord t (node_key node t) c None ∈ nd_key_history node ∧ max_age < now - c.

Lemma key_expired_live node max_age now t :
  key_history_ok node →
  key_expired node max_age now t ↔
  ∃ c, current_key_created_at node t = Some c ∧ max_age < now - c.
Proof.
  intros Hok. rewrite current_key_created_at_live by done. unfold key_expired.
  assert (∀ c, mkKeyRecord t (node_key node t) c None ∈ nd_key_history node ↔
               mkKeyRecord t (node_key node t) c None ∈ live t (nd_key_history node)) as Hin.
  { intros c. unfold live. rewrite list_elem_of_filter. naive_solver. }
  setoid_rewrite Hin. destruct (Hok t) as [E|[c E]]; rewrite E.
  - split; [set_solver|naive_solver].
  - setoid_rewrite list_elem_of_singleton. naive_solver.
Qed.
