(* ===== verification/Acl.v ===== *)
(** * Access-control policies (src/api.rs, [acl_allows] and [selector_matches])

    A policy is a list of rules, the first one whose two selectors match decides,
    and a default action applies when none does. *)

From S2P Require Import Prelude Model.

Definition selector_matches (node : NodeState) (selector : AclSelector) : bool :=
  let empty := bool_decide (sel_tags selector = [])
               && bool_decide (sel_node_ids selector = [])
               && bool_decide (sel_names selector = []) in
  if sel_any selector || empty then true
  else if any (λ id, bool_decide (id = nd_id node)) (sel_node_ids selector) then true
  else if any (λ name, bool_decide (name = nd_name node)) (sel_names selector) then true
  else any (λ tag, any (λ node_tag, bool_decide (node_tag = tag)) (nd_tags node))
         (sel_tags selector).

Definition is_allow (a : AclAction) : bool := match a with Allow => true | Deny => false end.

Fixpoint acl_rules_allow (rules : list AclRule) (default : AclAction) (src dst : NodeState)
    : bool :=
  match rules with
  | [] => is_allow default
  | rule :: rules =>
      if selector_matches src (rule_src rule) && selector_matches dst (rule_dst rule)
      then is_allow (rule_action rule)
      else acl_rules_allow rules default src dst
  end.

Definition acl_allows (policy : AclPolicy) (src dst : NodeState) : bool :=
  acl_rules_allow (acl_rules policy) (acl_default_action policy) src dst.

(** ** Specification *)

(** The nodes a selector selects. *)
Definition selects (sel : AclSelector) (node : NodeState) : Prop :=
  sel_any sel = true ∨
  (sel_tags sel = [] ∧ sel_node_ids sel = [] ∧ sel_names sel = []) ∨
  nd_id node ∈ sel_node_ids sel ∨ nd_name node ∈ sel_names sel ∨
  ∃ tag, tag ∈ sel_tags sel ∧ tag ∈ nd_tags node.

Lemma selector_matches_spec node sel : selector_matches node sel = true ↔ selects sel node.
Proof.
  unfold selector_matches, selects.
  assert (∀ (x : string) l, any (λ y, bool_decide (y = x)) l = true ↔ x ∈ l) as Hmem.
  { intros x l. rewrite any_true. setoid_rewrite bool_decide_eq_true. naive_solver. }
  assert (any (λ tag, any (λ t, bool_decide (t = tag)) (nd_tags node)) (sel_tags sel) = true
          ↔ ∃ tag, tag ∈ sel_tags sel ∧ tag ∈ nd_tags node) as Htags.
  { rewrite any_true. by setoid_rewrite Hmem. }
  destruct (sel_any sel); simpl; [naive_solver|].
  destruct (bool_decide _ && bool_decide _ && bool_decide _) eqn:Ee.
  { bool_props. naive_solver. }
  assert (¬ (sel_tags sel = [] ∧ sel_node_ids sel = [] ∧ sel_names sel = [])) as Hne.
  { intros (E1 & E2 & E3). by rewrite !bool_decide_eq_true_2 in Ee. }
  destruct (any _ (sel_node_ids sel)) eqn:Ei; [rewrite Hmem in Ei; naive_solver|].
  assert (nd_id node ∉ sel_node_ids sel) by (by rewrite <- Hmem, Ei).
  destruct (any _ (sel_names sel)) eqn:En; [rewrite Hmem in En; naive_solver|].
  assert (nd_name node ∉ sel_names sel) by (by rewrite <- Hmem, En).
  rewrite Htags. naive_solver.
Qed.

(** A rule applies to a pair of nodes. *)
Definition applies (src dst : NodeState) (rule : AclRule) : Prop :=
  selects (rule_src rule) src ∧ selects (rule_dst rule) dst.

(** The action a policy takes: that of the first rule that applies, or the
    default. *)
Inductive decides (policy : AclPolicy) (src dst : NodeState) : AclAction → Prop :=
  | decides_rule i rule :
      acl_rules policy !! i = Some rule → applies src dst rule →
      (∀ j r, (j < i)%nat → acl_rules policy !! j = Some r → ¬ applies src dst r) →
      decides policy src dst (rule_action rule)
  | decides_default :
      (∀ r, r ∈ acl_rules policy → ¬ applies src dst r) →
      decides policy src dst (acl_default_action policy).

Lemma acl_rules_allow_decides d rules src dst :
  ∃ a, decides (mkAclPolicy d rules) src dst a ∧ acl_rules_allow rules d src dst = is_allow a.
Proof.
  induction rules as [|r rules (a & Hd & Heq)].
  - exists d. split; [|done]. apply (decides_default (mkAclPolicy d [])). simpl. set_solver.
  - simpl. destruct (selector_matches src (rule_src r) && selector_matches dst (rule_dst r)) eqn:E.
    + apply andb_true_iff in E as [E1%selector_matches_spec E2%selector_matches_spec].
      exists (rule_action r). split; [|done].
      by apply (decides_rule _ _ _ 0 r); [| |intros; lia].
    + assert (¬ applies src dst r) as Hr.
      { intros [H1%selector_matches_spec H2%selector_matches_spec]. by rewrite H1, H2 in E. }
      exists a. split; [|done]. inversion Hd as [i rule Hi Ha Hbefore|Hno]; subst; simpl in *.
      * apply (decides_rule _ _ _ (S i) rule); [done..|].
        intros [|j] r' Hj Hr'; simpl in *; [congruence|]. apply (Hbefore j); [lia|done].
      * apply (decides_default (mkAclPolicy d (r :: rules))). simpl. set_solver.
Qed.

(** A policy decides every pair of nodes in one way. *)
Lemma decides_functional policy src dst a b :
  decides policy src dst a → decides policy src dst b → a = b.
Proof.
  intros [i r Hi Ha Hbi|Hno] [j r' Hj Ha' Hbj|Hno'].
  - destruct (lt_eq_lt_dec i j) as [[Hlt|Heq]|Hlt].
    + by destruct (Hbj i r).
    + by simplify_eq.
    + by destruct (Hbi j r').
  - destruct (Hno' r); [by eapply list_elem_of_lookup_2|done].
  - destruct (Hno r'); [by eapply list_elem_of_lookup_2|done].
  - done.
Qed.
