(* ===== verification/Auth.v ===== *)
(** * Request authentication (src/api.rs, [bearer_token], [require_admin],
    [require_node]) *)

From S2P Require Import Prelude RustStd Externals Model Ipam.

(** A header map: the raw bytes of the first value of a header, by lower-case
    header name. *)
Definition HeaderMap : Type := string → option string.

Section Auth.
Context `{Crates}.

Definition bearer_token (headers : HeaderMap) : option string :=
  header ← headers "authorization";
  value ← header_to_str header;
  rest ← strip_prefix "Bearer " value;
  let token := trim rest in
  if is_empty token then None else Some token.

Definition require_admin (headers : HeaderMap) (admin_token : option string)
    : result unit ApiError :=
  match admin_token with
  | None => Ok tt
  | Some expected =>
      match bearer_token headers with
      | Some token => if bool_decide (token = expected) then Ok tt
                      else Err (Unauthorized "admin token required")
      | None => Err (Unauthorized "admin token required")
      end
  end.

Definition require_node (headers : HeaderMap) (admin_token : option string)
    (node : NodeState) : result unit ApiError :=
  match nd_node_token node with
  | None => Ok tt
  | Some expected =>
      match bearer_token headers with
      | Some token =>
          if bool_decide (token = expected) then Ok tt
          else match admin_token with
               | Some admin => if bool_decide (token = admin) then Ok tt
                               else Err (Unauthorized "node token required")
               | None => Err (Unauthorized "node token required")
               end
      | None => Err (Unauthorized "node token required")
      end
  end.

(** With an admin token configured, the check passes exactly for requests that
    carry it. *)
Lemma require_admin_spec headers t :
  require_admin headers (Some t) = Ok tt ↔ bearer_token headers = Some t.
Proof.
  unfold require_admin. destruct (bearer_token headers) as [b|]; [|done].
  case_bool_decide; naive_solver.
Qed.

Lemma require_node_spec headers admin node t :
  nd_node_token node = Some t →
  require_node headers admin node = Ok tt ↔
  ∃ b, bearer_token headers = Some b ∧ (b = t ∨ admin = Some b).
Proof.
  intros Ht. unfold require_node. rewrite Ht.
  destruct (bearer_token headers) as [b|]; [|naive_solver].
  case_bool_decide; [naive_solver|]. destruct admin as [a|]; [|naive_solver].
  case_bool_decide; naive_solver.
Qed.

Lemma require_admin_ok_unit headers admin u :
  require_admin headers admin = Ok u → require_admin headers admin = Ok tt.
Proof. by destruct u. Qed.
End Auth.
