(* ===== verification/Netmap.v ===== *)
(** * Netmaps (src/api.rs, [build_netmap], [collect_peers],
    [collect_probe_requests], [netmap_longpoll])

    A netmap is what a node learns about its network: its own status, the peers it
    may talk to, and the peers that ask to be probed. *)

From S2P Require Import Prelude Effects RustStd Externals Model Store Ipam Keys Acl Auth.

(* simplification keeps the status of a node folded *)
#[local] Opaque effective_node_status.

Definition PROBE_TTL_SECONDS : Z := 30.

Definition relay_or_none (relay : RelayConfig) : option RelayConfig :=
  if bool_decide (rc_stun_servers relay = []) && bool_decide (rc_turn_servers relay = [])
     && bool_decide (rc_stream_relay_servers relay = [])
     && bool_decide (rc_udp_relay_servers relay = [])
     && bool_decide (rc_dns_servers relay = [])
  then None else Some relay.

Definition collect_probe_requests (state : State) (peers : list PeerInfo) (now : Z)
    : list ProbeRequest :=
  omap (λ peer,
    node ← st_nodes state !! pi_id peer;
    requested_at ← nd_probe_requested_at node;
    if PROBE_TTL_SECONDS <? i64_saturating_sub now requested_at then None
    else Some (mkProbeRequest (pi_id peer) (pi_endpoints peer) (pi_ipv4 peer) (pi_ipv6 peer)
                 requested_at)) peers.

Section Netmap.
Context `{HashOrder}.

Definition collect_peers (network_id dns_domain : string) (nodes : gmap string NodeState)
    (exclude_id : option string) (src_node : NodeState) (acl : AclPolicy)
    (key_policy : KeyRotationPolicy) (now : Z) : list PeerInfo :=
  (λ node, PeerInfo_from node dns_domain) <$>
    filter (λ node, acl_allows acl src_node node = true)
      (filter (λ node, exclude_id ≠ Some (nd_id node))
        (filter (λ node, (effective_node_status node key_policy now).1 = true)
          (filter (λ node, nd_network_id node = network_id) (hm_values nodes)))).

Definition build_netmap (node_id : string) (relay : option RelayConfig)
    : M State ApiError NetMap :=
  state ← get;
  node ← ok_or (st_nodes state !! node_id) (NotFound "node");
  network ← ok_or (st_networks state !! nd_network_id node) (NotFound "network");
  now ← now;
  let '(approved, key_rotation_required) :=
    effective_node_status node (nw_key_policy network) now in
  let peers :=
    if approved : bool then
      collect_peers (nw_id network) (nw_dns_domain network) (st_nodes state) (Some node_id)
        node (nw_acl network) (nw_key_policy network) now
    else [] in
  let probe_requests := collect_probe_requests state peers now in
  generated_at ← Effects.now;
  mret (mkNetMap (NetworkInfo_from network)
          (NodeInfo_from_state node (nw_dns_domain network) approved key_rotation_required)
          peers relay probe_requests generated_at (st_revision state)).

Lemma build_netmap_pure node_id relay : pure_on (build_netmap node_id relay).
Proof. unfold build_netmap. solve_pure. Qed.

(** The nodes of a network that a source node may see at a given time. *)
Definition visible (state : State) (network : NetworkState) (src dst : NodeState) (now : Z)
    : Prop :=
  nd_network_id dst = nw_id network ∧
  (effective_node_status dst (nw_key_policy network) now).1 = true ∧
  acl_allows (nw_acl network) src dst = true.

Lemma elem_of_collect_peers nid dom nodes ex src acl kp now p :
  p ∈ collect_peers nid dom nodes (Some ex) src acl kp now ↔
  ∃ k dst, nodes !! k = Some dst ∧ p = PeerInfo_from dst dom ∧
    nd_network_id dst = nid ∧ (effective_node_status dst kp now).1 = true ∧
    nd_id dst ≠ ex ∧ acl_allows acl src dst = true.
Proof.
  unfold collect_peers. rewrite list_elem_of_fmap.
  setoid_rewrite list_elem_of_filter. setoid_rewrite list_elem_of_filter.
  setoid_rewrite list_elem_of_filter. setoid_rewrite list_elem_of_filter.
  setoid_rewrite elem_of_hm_values. naive_solver.
Qed.

(** What a successful [build_netmap] returns. *)
Lemma build_netmap_inv node_id relay w s nm w' s' :
  build_netmap node_id relay w s = (Ok nm, w', s') →
  ∃ node network now,
    st_nodes s !! node_id = Some node ∧
    st_networks s !! nd_network_id node = Some network ∧
    now = w_clock w (w_ticks w) ∧ s' = s ∧
    nm_network nm = NetworkInfo_from network ∧
    no_approved (nm_node nm) = (effective_node_status node (nw_key_policy network) now).1 ∧
    nm_peers nm =
      (if (effective_node_status node (nw_key_policy network) now).1 then
         collect_peers (nw_id network) (nw_dns_domain network) (st_nodes s) (Some node_id)
           node (nw_acl network) (nw_key_policy network) now
       else []) ∧
    nm_probe_requests nm = collect_probe_requests s (nm_peers nm) now ∧
    nm_relay nm = relay ∧ nm_revision nm = st_revision s.
Proof.
  unfold build_netmap, mbind, M_bind, get.
  destruct (st_nodes s !! node_id) as [node|] eqn:En; [|done]. simpl.
  destruct (st_networks s !! nd_network_id node) as [network|] eqn:Ew; [|done]. simpl.
  destruct (effective_node_status _ _ _) as [approved rot] eqn:Es. simpl.
  intros [= <- <- <-]. exists node, network, (w_clock w (w_ticks w)).
  rewrite Es. by destruct approved.
Qed.

(** It fails only when the node or its network is gone. *)
Lemma build_netmap_ok node_id relay w s node network :
  st_nodes s !! node_id = Some node → st_networks s !! nd_network_id node = Some network →
  ∃ nm w', build_netmap node_id relay w s = (Ok nm, w', s).
Proof.
  intros Hn Hw. unfold build_netmap, mbind, M_bind, get. rewrite Hn. simpl. rewrite Hw. simpl.
  destruct (effective_node_status _ _ _). eauto.
Qed.
End Netmap.

(** ** Long polling *)
Section Longpoll.
Context `{HashOrder} `{Crates}.

(** The closure each poll reads: the authorised node's netmap, with the revision
    it was taken at. *)
Definition poll_read (headers : HeaderMap) (admin_token : option string) (node_id : string)
    (relay : option RelayConfig) : M State ApiError (Z * NetMap) :=
  state ← get;
  node ← ok_or (st_nodes state !! node_id) (NotFound "node");
  try_result (require_node headers admin_token node);;
  netmap ← build_netmap node_id relay;
  mret (st_revision state, netmap).

(** The loop of [netmap_longpoll].  Other requests change the store between two
    polls, so the [i]-th poll is given as what it read, [polls i], and the
    monotonic time in milliseconds at which the loop then looked at the clock,
    [instants i].  [None] is the exhausted fuel. *)
Fixpoint longpoll_loop (fuel : nat) (since deadline : Z)
    (polls : nat → result (Z * NetMap) ApiError) (instants : nat → Z) (i : nat)
    : option (result NetMap ApiError) :=
  match fuel with
  | O => None
  | S fuel =>
      match polls i with
      | Err e => Some (Err e)
      | Ok (revision, netmap) =>
          if (since <? revision) || (deadline <=? instants i) then Some (Ok netmap)
          else longpoll_loop fuel since deadline polls instants (S i)
      end
  end.

Record NetmapLongpollParams : Type := mkNetmapLongpollParams {
  lp_since : option Z;
  lp_timeout_seconds : option Z;
}.

Definition netmap_longpoll (params : NetmapLongpollParams) (fuel : nat) (start : Z)
    (polls : nat → result (Z * NetMap) ApiError) (instants : nat → Z)
    : option (result NetMap ApiError) :=
  let since := unwrap_or (lp_since params) 0 in
  let timeout := Z.min (unwrap_or (lp_timeout_seconds params) 30) 300 in
  let deadline := start + timeout * 1000 in
  longpoll_loop fuel since deadline polls instants 0.

(** The result of the loop is the result of one of its polls, the first that
    failed, was newer than [since], or came after the deadline. *)
Lemma longpoll_loop_inv fuel since deadline polls instants i res :
  longpoll_loop fuel since deadline polls instants i = Some res →
  ∃ j, (i ≤ j)%nat ∧
    (∀ k, (i ≤ k < j)%nat → ∃ rv nm, polls k = Ok (rv, nm) ∧ rv ≤ since ∧ instants k < deadline) ∧
    match res with
    | Err e => polls j = Err e
    | Ok nm => ∃ rv, polls j = Ok (rv, nm) ∧ (since < rv ∨ deadline ≤ instants j)
    end.
Proof.
  revert i; induction fuel as [|fuel IH]; intros i; simpl; [done|].
  destruct (polls i) as [[rv nm]|e] eqn:Ep.
  - destruct (orb _ _) eqn:Eo.
    + intros [= <-]. exists i. split; [done|]. split; [intros; lia|]. exists rv. split; [done|].
      apply orb_true_iff in Eo as [?%Z.ltb_lt|?%Z.leb_le]; auto.
    + intros (j & Hj & Hbefore & Hres)%IH. exists j. split; [lia|]. split; [|done].
      intros k Hk. destruct (decide (k = i)) as [->|]; [|apply Hbefore; lia].
      bool_props. eauto.
  - intros [= <-]. exists i. split; [done|]. split; [intros; lia|done].
Qed.

(** The loop sleeps 500 ms between polls: it ends after as many polls as there are
    half seconds until the deadline. *)
Lemma longpoll_loop_total fuel since deadline polls instants i :
  (∀ k, instants k + 500 ≤ instants (S k)) →
  deadline ≤ instants i + 500 * Z.of_nat fuel →
  is_Some (longpoll_loop (S fuel) since deadline polls instants i).
Proof.
  intros Hstep. revert i; induction fuel as [|fuel IH]; intros i Hd.
  - simpl. destruct (polls i) as [[rv nm]|e]; [|eauto].
    rewrite (proj2 (Z.leb_le _ _)) by lia. rewrite orb_true_r. eauto.
  - cbn [longpoll_loop]. destruct (polls i) as [[rv nm]|e]; [|eauto].
    destruct (orb _ _); [eauto|]. apply IH. specialize (Hstep i). lia.
Qed.
End Longpoll.
