(* ===== verification/Netid.v ===== *)
(** * Default overlay prefixes (src/netid.rs)

    A network that names no prefix gets one derived from a hash of its UUID: an
    IPv6 /48 under fd00::/8 and an IPv4 /24 under 100.64.0.0/10. *)

From S2P Require Import Prelude RustStd StdNet Externals.

(** [bytes[i]] of a hash, which has 32 bytes. *)
Definition hash_byte (h : list byte) (i : nat) : Z := byte_val (nth i h Byte.x00).

(** [{:02x}] of a byte *)
Definition hex02 (v : Z) : list byte := [digit_byte (v / 16); digit_byte (v mod 16)].

Definition derive_ipv6_ula (h : list byte) : string :=
  let b := hash_byte h in
  str (bytes "fd" ++ hex02 (b 0%nat) ++ [colon] ++ hex02 (b 1%nat) ++ hex02 (b 2%nat) ++ [colon]
       ++ hex02 (b 3%nat) ++ hex02 (b 4%nat) ++ bytes "::/48").

Definition derive_ipv4_overlay (h : list byte) : string :=
  let raw := hash_byte h 5 * 256 + hash_byte h 6 in
  let idx := Z.land raw 0x3fff in
  let second := wrap_u 8 (64 + wrap_u 8 (Z.shiftr idx 8)) in
  let third := wrap_u 8 (Z.land idx 0xff) in
  str (bytes "100." ++ print_dec second ++ [dot] ++ print_dec third ++ bytes ".0/24").

Definition derive_overlay_prefixes `{Crates} (network_id : list byte) : string * string :=
  let hash := blake3_hash network_id in
  (derive_ipv4_overlay hash, derive_ipv6_ula hash).

Lemma hash_byte_range h i : 0 ≤ hash_byte h i < 256.
Proof. apply byte_val_range. Qed.

Lemma land_ones_mod a n : 0 ≤ n → Z.land a (2 ^ n - 1) = a mod 2 ^ n.
Proof. intros. rewrite <- Z.land_ones by done. by rewrite Z.ones_equiv. Qed.

(** The index of the /24 inside 100.64.0.0/10. *)
Definition overlay_index (h : list byte) : Z := (hash_byte h 5 * 256 + hash_byte h 6) mod 2 ^ 14.

Lemma overlay_index_range h : 0 ≤ overlay_index h < 2 ^ 14.
Proof. apply Z.mod_pos_bound. lia. Qed.

(** The text of the derived IPv4 prefix is that of an address of 100.64.0.0/10. *)
Lemma derive_ipv4_overlay_text h :
  derive_ipv4_overlay h =
  str (print_ipv4 (100 * 2 ^ 24 + 64 * 2 ^ 16 + overlay_index h * 2 ^ 8) ++ bytes "/24").
Proof.
  unfold derive_ipv4_overlay. f_equal.
  set (raw := hash_byte h 5 * 256 + hash_byte h 6).
  change 16383 with (2 ^ 14 - 1). change 255 with (2 ^ 8 - 1).
  rewrite !land_ones_mod, Z.shiftr_div_pow2 by lia. fold raw.
  change (raw mod 2 ^ 14) with (overlay_index h).
  pose proof (overlay_index_range h) as Hi. set (i := overlay_index h) in *.
  assert (0 ≤ i / 2 ^ 8 < 64) as Hq
    by (split; [apply Z.div_pos; lia|apply Z.div_lt_upper_bound; lia]).
  pose proof (Z.mod_pos_bound i (2 ^ 8) ltac:(lia)) as Hr.
  rewrite (wrap_u_id 8 (i / 2 ^ 8)), (wrap_u_id 8 (64 + i / 2 ^ 8)), (wrap_u_id 8 (i mod 2 ^ 8)) by lia.
  set (a := 100 * 2 ^ 24 + 64 * 2 ^ 16 + i * 2 ^ 8).
  assert (octets a = (100, 64 + i / 2 ^ 8, i mod 2 ^ 8, 0)) as Ho.
  { pose proof (Z.div_mod i (2 ^ 8) ltac:(lia)) as Hd. unfold octets.
    assert (a / 2 ^ 24 = 100) as -> by (symmetry; apply (Z.div_unique a _ _ (64 * 2 ^ 16 + i * 2 ^ 8)); lia).
    assert (a / 2 ^ 16 = 100 * 2 ^ 8 + (64 + i / 2 ^ 8)) as ->
      by (symmetry; apply (Z.div_unique a _ _ (i mod 2 ^ 8 * 2 ^ 8)); lia).
    assert (a / 2 ^ 8 = (100 * 2 ^ 8 + 64 + i / 2 ^ 8) * 2 ^ 8 + i mod 2 ^ 8) as ->
      by (symmetry; apply (Z.div_unique a _ _ 0); lia).
    assert (100 mod 256 = 100) as -> by done.
    apply pair_equal_spec; split; [apply pair_equal_spec; split;
      [apply pair_equal_spec; split; [done|]|]|]; symmetry.
    - apply (Z.mod_unique _ _ 100); lia.
    - apply (Z.mod_unique _ _ (100 * 2 ^ 8 + 64 + i / 2 ^ 8)); lia.
    - apply (Z.mod_unique _ _ (100 * 2 ^ 16 + 64 * 2 ^ 8 + i)); unfold a; lia. }
  unfold print_ipv4. rewrite Ho.
  repeat (rewrite <- ?app_assoc; cbn [app]). done.
Qed.
