(* ===== verification/ApiHelpers.v ===== *)
(** * Helpers of the request handlers (src/api.rs) *)

From S2P Require Import Prelude Effects RustStd StdNet Externals Model Store Ipam Auth Netid.

(** [map_store_err]: an error raised by a closure is an [ApiError], any other error of
    the store is reported as internal. *)
Definition map_store_err (err : AnyErr ApiError) : ApiError :=
  match err with Raised api_err => api_err | Failed => Internal end.

(** [state.store.<call>(..).await.map_err(map_store_err)?] *)
Definition store_call {A} (m : M StateStore (AnyErr ApiError) A) : M StateStore ApiError A :=
  λ w st, match m w st with (r, w, st) => (map_err map_store_err r, w, st) end.

(** The HTTP status of an error. *)
Definition into_response (e : ApiError) : Z * string :=
  match e with
  | NotFound msg => (404, msg)
  | BadRequest msg => (400, msg)
  | Unauthorized msg => (401, msg)
  | Conflict msg => (409, msg)
  | Internal => (500, "internal error")
  end.

Definition normalize_node_name (name : string) : result string ApiError :=
  let trimmed := trim name in
  if is_empty trimmed then Err (BadRequest "node name must be non-empty")
  else Ok trimmed.

(** Whether a node stands in the way of a name: same network, not revoked, not the
    node being renamed, and the same name up to ASCII case. *)
Definition name_conflict (network_id name : string) (exclude_node_id : option string)
    (node : NodeState) : bool :=
  if bool_decide (nd_network_id node ≠ network_id) then false
  else if is_some (nd_revoked_at node) then false
  else if bool_decide (exclude_node_id = Some (nd_id node)) then false
  else eq_ignore_ascii_case (nd_name node) name.

Definition ensure_unique_node_name `{HashOrder} (state : State) (network_id name : string)
    (exclude_node_id : option string) : result unit ApiError :=
  if any (name_conflict network_id name exclude_node_id) (hm_values (st_nodes state))
  then Err (Conflict "node name already exists") else Ok tt.

(** [value.trim()], or nothing when that is empty *)
Definition trimmed_or_none (value : option string) : option string :=
  v ← value; let trimmed := trim v in if is_empty trimmed then None else Some trimmed.

Definition dedup_strings (values : list string) : list string := dedup_from ∅ values.

Definition merge_endpoints (provided : list string) (observed : option string) : list string :=
  match observed with
  | Some endpoint => endpoint :: dedup_from {[endpoint]} provided
  | None => dedup_from ∅ provided
  end.

(** [SocketAddr::new(ip, port).to_string()] *)
Definition socket_addr_to_string (ip : IpAddr) (port : Z) : string :=
  match ip with
  | V4 a => ipv4_to_string a +:+ ":" +:+ str (print_dec port)
  | V6 a => "[" +:+ ipv6_to_string a +:+ "]:" +:+ str (print_dec port)
  end.

(** The text before the first occurrence of a byte: [split(c).next()]. *)
Fixpoint before_byte (c : byte) (l : list byte) : list byte :=
  match l with [] => [] | b :: l => if decide (b = c) then [] else b :: before_byte c l end.

Section Helpers.
Context `{Crates}.

Definition random_secret {S E} : M S E string :=
  random ← random_bytes; mret (b64url_encode random).

Definition short_id (id : list byte) : string :=
  str (before_byte Byte.x2d (bytes (uuid_to_string id))).

Definition build_token {S} (network_id : string) (ttl_seconds uses : Z) (tags : list string)
    (owner_user_id owner_email : option string) (owner_is_admin : bool)
    : M S ApiError TokenState :=
  fail_if ((ttl_seconds =? 0) || (uses =? 0))
    (BadRequest "ttl_seconds and uses must be > 0");;
  let owner_user_id := trimmed_or_none owner_user_id in
  let owner_email := trimmed_or_none owner_email in
  token ← random_secret;
  now ← now;
  let expires_at := i64_add now (as_i64 ttl_seconds) in
  mret (mkTokenState token network_id expires_at uses tags owner_user_id owner_email
          owner_is_admin None).

Definition build_audit_entry {S E} (action : string) (network_id node_id : option string)
    (detail : option Json) : M S E AuditEntry :=
  id ← new_uuid;
  timestamp ← now;
  mret (mkAuditEntry (uuid_to_string id) timestamp network_id node_id action detail).

(** [state.audit_log.push(build_audit_entry(..))] *)
Definition audit {E} (action : string) (network_id node_id : option string)
    (detail : option Json) : M State E unit :=
  entry ← build_audit_entry action network_id node_id detail;
  modify (λ s, s <| st_audit_log := st_audit_log s ++ [entry] |>).

Definition infer_control_url_from_headers (headers : HeaderMap) : option string :=
  let nonempty v := let t := trim v in if is_empty t then None else Some t in
  header ← match headers "x-forwarded-host" with Some h => Some h | None => headers "host" end;
  value ← header_to_str header;
  host ← nonempty value;
  let proto := unwrap_or (h ← headers "x-forwarded-proto"; v ← header_to_str h; nonempty v)
                 "http" in
  let scheme := if eq_ignore_ascii_case proto "https" then "https" else "http" in
  Some (scheme +:+ "://" +:+ trim_end_matches Byte.x2f host).

Lemma audit_state {E} action nid id detail w s :
  ∃ entry w', audit (E := E) action nid id detail w s =
    (Ok tt, w', s <| st_audit_log := st_audit_log s ++ [entry] |>) ∧
    ae_action entry = action ∧ ae_network_id entry = nid ∧ ae_node_id entry = id ∧
    ae_detail entry = detail.
Proof. unfold audit, build_audit_entry, mbind, M_bind, new_uuid, now. simpl. eauto 10. Qed.

Lemma build_token_pure {S} nid ttl uses tags ou oe oa :
  pure_on (build_token (S := S) nid ttl uses tags ou oe oa).
Proof. unfold build_token, random_secret. solve_pure. Qed.

(** A token that is built belongs to the network and has uses left. *)
Lemma build_token_inv {S} nid ttl uses tags ou oe oa w (s : S) t w' s' :
  build_token nid ttl uses tags ou oe oa w s = (Ok t, w', s') →
  s' = s ∧ tk_network_id t = nid ∧ tk_uses_left t = uses ∧ uses ≠ 0 ∧ ttl ≠ 0 ∧
  tk_revoked_at t = None ∧ tk_tags t = tags ∧
  ∃ n, tk_expires_at t = i64_add n (as_i64 ttl).
Proof.
  unfold build_token, random_secret, mbind, M_bind, fail_if.
  destruct (orb _ _) eqn:E; [done|]. simpl. intros [= <- <- <-]. bool_props.
  simpl. eauto 12.
Qed.
End Helpers.

#[export] Hint Resolve build_token_pure : lightscale.

(** ** Properties of the helpers *)

Lemma normalize_node_name_inv name n :
  normalize_node_name name = Ok n → n = trim name ∧ n ≠ "".
Proof.
  unfold normalize_node_name, is_empty. case_bool_decide; [done|]. by intros [= <-].
Qed.

Section Names.
Context `{HashOrder}.

(** The check passes exactly when no other live node of the network has the name,
    up to ASCII case. *)
Lemma ensure_unique_node_name_spec s nid name ex :
  ensure_unique_node_name s nid name ex = Ok tt ↔
  ∀ k node, st_nodes s !! k = Some node → nd_network_id node = nid →
    nd_revoked_at node = None → ex ≠ Some (nd_id node) →
    to_ascii_lowercase (nd_name node) ≠ to_ascii_lowercase name.
Proof.
  unfold ensure_unique_node_name.
  assert (∀ node, name_conflict nid name ex node = true ↔
    nd_network_id node = nid ∧ nd_revoked_at node = None ∧ ex ≠ Some (nd_id node) ∧
    to_ascii_lowercase (nd_name node) = to_ascii_lowercase name) as Hc.
  { intros node. unfold name_conflict, eq_ignore_ascii_case.
    case_bool_decide; [naive_solver|].
    destruct (nd_revoked_at node); simpl; [naive_solver|].
    case_bool_decide; [naive_solver|]. rewrite bool_decide_eq_true.
    assert (nd_network_id node = nid) by (destruct (decide (nd_network_id node = nid)); tauto).
    naive_solver. }
  destruct (any _ _) eqn:Ea.
  - apply any_true in Ea as (node & [k Hk]%elem_of_hm_values & Hn%Hc).
    split; [done|]. intros Hall. destruct Hn as (? & ? & ? & Heq). by destruct (Hall k node).
  - split; [|done]. intros _ k node Hk Hnet Hrev Hex Heq.
    rewrite any_false in Ea. specialize (Ea node).
    rewrite (proj2 (Hc node)) in Ea by done.
    discriminate Ea. apply elem_of_hm_values. eauto.
Qed.
End Names.

(** Merged endpoints: the observed one first, the provided ones in order, no repeats. *)
Lemma merge_endpoints_spec provided observed e :
  e ∈ merge_endpoints provided observed ↔ e ∈ provided ∨ observed = Some e.
Proof.
  unfold merge_endpoints. destruct observed as [o|]; rewrite ?elem_of_cons, !dedup_from_spec.
  - destruct (decide (e = o)); set_solver.
  - set_solver.
Qed.

Lemma merge_endpoints_NoDup provided observed : NoDup (merge_endpoints provided observed).
Proof.
  unfold merge_endpoints. destruct observed as [o|]; [constructor|]; try apply dedup_from_NoDup.
  rewrite dedup_from_spec. set_solver.
Qed.
