(* ===== verification/Api.v ===== *)
(** * Request handlers (src/api.rs)

    One definition per handler, and one per closure a handler passes to the store
    ([.._tx] for [write], [.._rd] for [read]).  A closure runs on [State]; a handler
    runs on the store, and is what the router of src/main.rs calls. *)

From S2P Require Import Prelude Effects RustStd StdNet Externals Model Store Ipam Keys Acl Auth.
From S2P Require Import Netmap Netid ApiHelpers.

(** [state.networks.get_mut(key)] followed by work on the network. *)
Definition with_network {A} (key : string) (m : M NetworkState ApiError A)
    : M State ApiError A := λ w s,
  match st_networks s !! key with
  | Some n => match m w n with
              | (r, w, n) => (r, w, s <| st_networks := <[key := n]> (st_networks s) |>)
              end
  | None => (Err (NotFound "network"), w, s)
  end.

Definition put_network (key : string) (n : NetworkState) (s : State) : State :=
  s <| st_networks := <[key := n]> (st_networks s) |>.
Definition put_node (key : string) (n : NodeState) (s : State) : State :=
  s <| st_nodes := <[key := n]> (st_nodes s) |>.
Definition put_token (key : string) (t : TokenState) (s : State) : State :=
  s <| st_tokens := <[key := t]> (st_tokens s) |>.

Section Handlers.
Context `{IpNet} `{Crates} `{HashOrder} `{Serde}.
Context (app : AppState).

(** ** Networks *)

Fixpoint check_overlaps (v4 : Ipv4Net) (v6 : Ipv6Net) (existing : list NetworkState)
    : result unit ApiError :=
  match existing with
  | [] => Ok tt
  | n :: existing =>
      match ipv4net_parse (nw_overlay_v4 n) with
      | None => Err Internal
      | Some existing_v4 =>
          if ipv4_nets_overlap v4 existing_v4
          then Err (Conflict "overlay_v4 overlaps existing network")
          else match ipv6net_parse (nw_overlay_v6 n) with
               | None => Err Internal
               | Some existing_v6 =>
                   if ipv6_nets_overlap v6 existing_v6
                   then Err (Conflict "overlay_v6 overlaps existing network")
                   else check_overlaps v4 v6 existing
               end
      end
  end.

Definition create_network_tx (req : CreateNetworkRequest) (network_state : NetworkState)
    (v4 : Ipv4Net) (v6 : Ipv6Net) : M State ApiError (option EnrollmentToken) :=
  state ← get;
  fail_if (is_some (st_networks state !! nw_id network_state))
    (Conflict "network already exists");;
  try_result (check_overlaps v4 v6 (hm_values (st_networks state)));;
  modify (put_network (nw_id network_state) network_state);;
  audit "network.create" (Some (nw_id network_state)) None
    (Some (JObject [("name", JString (nw_name network_state));
                    ("requires_approval", JBool (nw_requires_approval network_state));
                    ("key_rotation_max_age_seconds",
                      JOption JNumber (max_age_seconds (nw_key_policy network_state)))]));;
  match cn_bootstrap_token_ttl_seconds req with
  | None => mret None
  | Some ttl =>
      let uses := unwrap_or (cn_bootstrap_token_uses req) 1 in
      let tags := unwrap_or (cn_bootstrap_token_tags req) [] in
      token ← build_token (nw_id network_state) ttl uses tags None None true;
      modify (put_token (tk_token token) token);;
      mret (Some (EnrollmentToken_from token))
  end.

Definition create_network (headers : HeaderMap) (req : CreateNetworkRequest)
    : M StateStore ApiError CreateNetworkResponse :=
  try_result (require_admin headers (app_admin_token app));;
  network_id ← new_uuid;
  let '(default_overlay_v4, default_overlay_v6) := derive_overlay_prefixes network_id in
  let overlay_v4 := unwrap_or (cn_overlay_v4 req) default_overlay_v4 in
  let overlay_v6 := unwrap_or (cn_overlay_v6 req) default_overlay_v6 in
  overlay_v4_net ← ok_or (ipv4net_parse overlay_v4) (BadRequest "invalid overlay_v4 cidr");
  overlay_v6_net ← ok_or (ipv6net_parse overlay_v6) (BadRequest "invalid overlay_v6 cidr");
  next_ipv4 ← ok_or (initial_ipv4_offset overlay_v4_net)
    (BadRequest "overlay_v4 must provide usable host addresses");
  let next_ipv6 := initial_ipv6_offset overlay_v6_net in
  let dns_domain := unwrap_or (cn_dns_domain req)
                      ("net-" +:+ short_id network_id +:+ ".lightscale") in
  now ← now;
  let network_state :=
    mkNetworkState (uuid_to_string network_id) (cn_name req) overlay_v4 overlay_v6 dns_domain
      (unwrap_or (cn_requires_approval req) false) AclPolicy_default
      (mkKeyRotationPolicy (cn_key_rotation_max_age_seconds req)) now next_ipv4 next_ipv6 in
  bootstrap_token ←
    store_call (write (create_network_tx req network_state overlay_v4_net overlay_v6_net));
  mret (mkCreateNetworkResponse (NetworkInfo_from network_state) bootstrap_token).

Definition delete_network_tx (network_id : string) : M State ApiError unit :=
  state ← get;
  fail_if (negb (is_some (st_networks state !! network_id))) (NotFound "network");;
  let connected_nodes :=
    nd_id <$> filter (λ node, nd_network_id node = network_id) (hm_values (st_nodes state)) in
  fail_if (negb (bool_decide (connected_nodes = [])))
    (Conflict "network has connected nodes; revoke or delete nodes first");;
  modify (λ s, s <| st_tokens := filter (λ kt, tk_network_id kt.2 ≠ network_id) (st_tokens s) |>);;
  modify (λ s, s <| st_networks := delete network_id (st_networks s) |>);;
  audit "network.delete" (Some network_id) None None.

Definition delete_network (headers : HeaderMap) (network_id : string)
    : M StateStore ApiError unit :=
  try_result (require_admin headers (app_admin_token app));;
  store_call (write (delete_network_tx network_id)).

Definition get_acl_rd (network_id : string) : M State ApiError AclPolicy :=
  state ← get;
  network ← ok_or (st_networks state !! network_id) (NotFound "network");
  mret (nw_acl network).

Definition get_acl (headers : HeaderMap) (network_id : string) : M StateStore ApiError AclPolicy :=
  try_result (require_admin headers (app_admin_token app));;
  store_call (read (get_acl_rd network_id)).

Definition update_acl_tx (network_id : string) (req : UpdateAclRequest)
    : M State ApiError AclPolicy :=
  state ← get;
  network ← ok_or (st_networks state !! network_id) (NotFound "network");
  let network := (network : NetworkState) <| nw_acl := uar_policy req |> in
  modify (put_network network_id network);;
  audit "acl.update" (Some (nw_id network)) None None;;
  mret (nw_acl network).

Definition update_acl (headers : HeaderMap) (network_id : string) (req : UpdateAclRequest)
    : M StateStore ApiError UpdateAclResponse :=
  try_result (require_admin headers (app_admin_token app));;
  policy ← store_call (write (update_acl_tx network_id req));
  mret (mkUpdateAclResponse policy).

Definition get_key_policy_rd (network_id : string) : M State ApiError KeyRotationPolicy :=
  state ← get;
  network ← ok_or (st_networks state !! network_id) (NotFound "network");
  mret (nw_key_policy network).

Definition get_key_policy (headers : HeaderMap) (network_id : string)
    : M StateStore ApiError KeyPolicyResponse :=
  try_result (require_admin headers (app_admin_token app));;
  policy ← store_call (read (get_key_policy_rd network_id));
  mret (mkKeyPolicyResponse policy).

Definition update_key_policy_tx (network_id : string) (req : KeyRotationPolicy)
    : M State ApiError KeyRotationPolicy :=
  state ← get;
  network ← ok_or (st_networks state !! network_id) (NotFound "network");
  let network := (network : NetworkState) <| nw_key_policy := req |> in
  modify (put_network network_id network);;
  audit "key_policy.update" (Some (nw_id network)) None
    (Some (JObject [("max_age_seconds",
                     JOption JNumber (max_age_seconds (nw_key_policy network)))]));;
  mret (nw_key_policy network).

Definition update_key_policy (headers : HeaderMap) (network_id : string)
    (req : KeyRotationPolicy) : M StateStore ApiError KeyPolicyResponse :=
  try_result (require_admin headers (app_admin_token app));;
  policy ← store_call (write (update_key_policy_tx network_id req));
  mret (mkKeyPolicyResponse policy).

(** ** Enrollment tokens *)

Definition create_token_tx (network_id : string) (req : CreateTokenRequest)
    : M State ApiError TokenState :=
  state ← get;
  network ← ok_or (st_networks state !! network_id) (NotFound "network");
  token ← build_token (nw_id network) (ct_ttl_seconds req) (ct_uses req) (ct_tags req)
            (ct_owner_user_id req) (ct_owner_email req)
            (unwrap_or (ct_owner_is_admin req) true);
  modify (put_token (tk_token token) token);;
  audit "token.create" (Some (nw_id network)) None
    (Some (JObject [("expires_at", JNumber (tk_expires_at token));
                    ("uses", JNumber (tk_uses_left token));
                    ("tags", JArray (JString <$> tk_tags token));
                    ("owner_user_id", JOption JString (tk_owner_user_id token));
                    ("owner_email", JOption JString (tk_owner_email token));
                    ("owner_is_admin", JBool (tk_owner_is_admin token))]));;
  mret token.

Definition create_token (headers : HeaderMap) (network_id : string) (req : CreateTokenRequest)
    : M StateStore ApiError CreateTokenResponse :=
  try_result (require_admin headers (app_admin_token app));;
  token ← store_call (write (create_token_tx network_id req));
  mret (mkCreateTokenResponse (EnrollmentToken_from token)).

Definition list_tokens_rd (network_id : string) : M State ApiError (list EnrollmentToken) :=
  state ← get;
  fail_if (negb (is_some (st_networks state !! network_id))) (NotFound "network");;
  let tokens := EnrollmentToken_from <$>
    filter (λ token, tk_network_id token = network_id) (hm_values (st_tokens state)) in
  mret (reverse (sort_by_key et_expires_at tokens)).

Definition list_tokens (headers : HeaderMap) (network_id : string)
    : M StateStore ApiError ListTokensResponse :=
  try_result (require_admin headers (app_admin_token app));;
  tokens ← store_call (read (list_tokens_rd network_id));
  mret (mkListTokensResponse tokens).

Definition revoke_token_tx (token_id : string) (now : Z) : M State ApiError TokenState :=
  state ← get;
  token ← ok_or (st_tokens state !! token_id) (NotFound "token");
  let token := (token : TokenState) <| tk_revoked_at := Some now |> in
  modify (put_token token_id token);;
  audit "token.revoke" (Some (tk_network_id token)) None
    (Some (JObject [("revoked_at", JOption JNumber (tk_revoked_at token))]));;
  mret token.

Definition revoke_token (headers : HeaderMap) (token_id : string)
    : M StateStore ApiError EnrollmentToken :=
  try_result (require_admin headers (app_admin_token app));;
  now ← now;
  token ← store_call (write (revoke_token_tx token_id now));
  mret (EnrollmentToken_from token).

(** ** Registration *)

(** The history a new node starts with. *)
Definition new_key_history (machine wg : string) (now : Z) : list KeyRecord :=
  [mkKeyRecord Machine machine now None; mkKeyRecord WireGuard wg now None].

Definition register_tx (req : RegisterRequest) (node_name node_token : string) (now : Z)
    : M State ApiError string :=
  state ← get;
  token ← ok_or (st_tokens state !! rq_token req) (Unauthorized "token not found");
  fail_if (tk_expires_at token <=? now) (Unauthorized "token expired");;
  fail_if (is_some (tk_revoked_at token)) (Unauthorized "token revoked");;
  fail_if (tk_uses_left token =? 0) (Unauthorized "token used up");;
  try_result (ensure_unique_node_name state (tk_network_id token) node_name None);;
  network ← ok_or (st_networks state !! tk_network_id token) (NotFound "network");
  '(ipv4, ipv6) ← with_network (tk_network_id token) allocate_node_ips;
  uuid ← new_uuid;
  let node_id := uuid_to_string uuid in
  let approved := negb (nw_requires_approval network) in
  let node :=
    mkNodeState node_id (nw_id network) node_name (rq_machine_public_key req)
      (rq_wg_public_key req) ipv4 ipv6 [] (tk_tags token) (tk_owner_user_id token)
      (tk_owner_email token) (tk_owner_is_admin token) [] now now None approved
      (if approved then Some now else None) None None (Some node_token) None
      (new_key_history (rq_machine_public_key req) (rq_wg_public_key req) now) in
  modify (put_node node_id node);;
  audit "node.register" (Some (nw_id network)) (Some node_id)
    (Some (JObject [("approved", JBool (nd_approved node));
                    ("owner_user_id", JOption JString (nd_owner_user_id node));
                    ("owner_email", JOption JString (nd_owner_email node));
                    ("owner_is_admin", JBool (nd_owner_is_admin node))]));;
  state ← get;
  token ← ok_or (st_tokens state !! rq_token req) (Unauthorized "token not found");
  let token := (token : TokenState) <| tk_uses_left := u_saturating_sub (tk_uses_left token) 1 |> in
  modify (λ s, if tk_uses_left token =? 0
               then s <| st_tokens := delete (rq_token req) (st_tokens s) |>
               else put_token (rq_token req) token s);;
  mret node_id.

Definition register (req : RegisterRequest) : M StateStore ApiError RegisterResponse :=
  now ← now;
  let relay := relay_or_none (app_relay app) in
  node_token ← random_secret;
  node_name ← try_result (normalize_node_name (rq_node_name req));
  node_id ← store_call (write (register_tx req node_name node_token now));
  netmap ← store_call (read (build_netmap node_id relay));
  mret (mkRegisterResponse node_token netmap).

Definition register_url_tx (req : RegisterUrlRequest) (node_name node_token : string)
    (now expires_at : Z) : M State ApiError (NodeState * string) :=
  state ← get;
  try_result (ensure_unique_node_name state (ru_network_id req) node_name None);;
  network ← ok_or (st_networks state !! ru_network_id req) (NotFound "network");
  '(ipv4, ipv6) ← with_network (ru_network_id req) allocate_node_ips;
  uuid ← new_uuid;
  let node_id := uuid_to_string uuid in
  auth_secret ← random_secret;
  let node :=
    mkNodeState node_id (nw_id network) node_name (ru_machine_public_key req)
      (ru_wg_public_key req) ipv4 ipv6 [] [] None None true [] now now None false None
      (Some auth_secret) (Some expires_at) (Some node_token) None
      (new_key_history (ru_machine_public_key req) (ru_wg_public_key req) now) in
  modify (put_node node_id node);;
  audit "node.register_url" (Some (nw_id network)) (Some node_id)
    (Some (JObject [("expires_at", JNumber expires_at)]));;
  mret (node, "/v1/register/approve/" +:+ node_id +:+ "/" +:+ auth_secret).

Definition register_url (req : RegisterUrlRequest)
    : M StateStore ApiError RegisterUrlResponse :=
  now ← now;
  let ttl_seconds := unwrap_or (ru_ttl_seconds req) 600 in
  fail_if (ttl_seconds =? 0) (BadRequest "ttl_seconds must be > 0");;
  let expires_at := i64_add now (as_i64 ttl_seconds) in
  node_name ← try_result (normalize_node_name (ru_node_name req));
  node_token ← random_secret;
  '(node, auth_path) ←
    store_call (write (register_url_tx req node_name node_token now expires_at));
  mret (mkRegisterUrlResponse (nd_id node) (nd_network_id node) (nd_ipv4 node) (nd_ipv6 node)
          auth_path expires_at node_token).

(** ** Approval *)

(** The fields an approval sets. *)
Definition approve_fields (node : NodeState) (now : Z) : NodeState :=
  let node := (node : NodeState) <| nd_approved := true |> in
  let node := (node : NodeState) <| nd_approved_at := Some now |> in
  let node := (node : NodeState) <| nd_auth_secret := (None : option string) |> in
  (node : NodeState) <| nd_auth_expires_at := (None : option Z) |>.

Definition approve_audit (node : NodeState) (via : string) : M State ApiError unit :=
  audit "node.approve" (Some (nd_network_id node)) (Some (nd_id node))
    (Some (JObject [("approved_at", JOption JNumber (nd_approved_at node));
                    ("via", JString via)])).

Definition approve_node_secret_tx (node_id secret : string) (now : Z)
    : M State ApiError NodeState :=
  state ← get;
  node ← ok_or (st_nodes state !! node_id) (NotFound "node");
  if nd_approved node then mret node
  else
    auth_secret ← ok_or (nd_auth_secret node) (Unauthorized "approval not allowed");
    fail_if (bool_decide (auth_secret ≠ secret)) (Unauthorized "invalid approval secret");;
    fail_if (match nd_auth_expires_at node with
             | Some expires_at => expires_at <=? now
             | None => false
             end) (Unauthorized "approval expired");;
    let node := approve_fields node now in
    modify (put_node node_id node);;
    approve_audit node "auth_url";;
    mret node.

(** The JSON body of the approval handlers: id, approved, approved_at. *)
Definition approve_node_secret (node_id secret : string)
    : M StateStore ApiError (string * bool * option Z) :=
  now ← now;
  node ← store_call (write (approve_node_secret_tx node_id secret now));
  mret (nd_id node, nd_approved node, nd_approved_at node).

Definition approve_node_tx (node_id : string) (now : Z) : M State ApiError NodeState :=
  state ← get;
  node ← ok_or (st_nodes state !! node_id) (NotFound "node");
  if nd_approved node then mret node
  else
    let node := approve_fields node now in
    modify (put_node node_id node);;
    approve_audit node "admin";;
    mret node.

Definition approve_node (headers : HeaderMap) (node_id : string)
    : M StateStore ApiError (string * bool * option Z) :=
  try_result (require_admin headers (app_admin_token app));;
  now ← now;
  node ← store_call (write (approve_node_tx node_id now));
  mret (nd_id node, nd_approved node, nd_approved_at node).

(** ** Nodes *)

Definition admin_nodes_rd (network_id : string) (now : Z) : M State ApiError (list NodeInfo) :=
  state ← get;
  network ← ok_or (st_networks state !! network_id) (NotFound "network");
  mret ((λ node,
    let '(approved, key_rotation_required) :=
      effective_node_status node (nw_key_policy network) now in
    NodeInfo_from_state node (nw_dns_domain network) approved key_rotation_required) <$>
    filter (λ node, nd_network_id node = network_id) (hm_values (st_nodes state))).

Definition admin_nodes (headers : HeaderMap) (network_id : string)
    : M StateStore ApiError AdminNodesResponse :=
  try_result (require_admin headers (app_admin_token app));;
  now ← now;
  nodes ← store_call (read (admin_nodes_rd network_id now));
  mret (mkAdminNodesResponse nodes).

(** The tags a request asks for: trimmed, without blanks and repeats. *)
Fixpoint unique_tags (seen : gset string) (tags : list string) : list string :=
  match tags with
  | [] => []
  | tag :: tags =>
      let tag := trim tag in
      if is_empty tag then unique_tags seen tags
      else if decide (tag ∈ seen) then unique_tags seen tags
      else tag :: unique_tags ({[tag]} ∪ seen) tags
  end.

(** The new name of a node, when the request changes it. *)
Definition next_node_name (state : State) (existing : NodeState) (req : UpdateNodeRequest)
    : result (option string) ApiError :=
  match un_name req with
  | None => Ok None
  | Some name =>
      match normalize_node_name name with
      | Err e => Err e
      | Ok normalized =>
          if bool_decide (normalized = nd_name existing) then Ok None
          else match ensure_unique_node_name state (nd_network_id existing) normalized
                       (Some (nd_id existing)) with
               | Err e => Err e
               | Ok _ => Ok (Some normalized)
               end
      end
  end.

Definition next_node_tags (existing : NodeState) (req : UpdateNodeRequest)
    : option (list string) :=
  match un_tags req with
  | None => None
  | Some tags =>
      let unique := unique_tags ∅ tags in
      if bool_decide (unique = nd_tags existing) then None else Some unique
  end.

Definition update_node_tx (node_id : string) (req : UpdateNodeRequest) (now : Z)
    : M State ApiError NodeInfo :=
  state ← get;
  existing ← ok_or (st_nodes state !! node_id) (NotFound "node");
  next_name ← try_result (next_node_name state existing req);
  let next_tags := next_node_tags existing req in
  let detail :=
    match next_name with Some n => [("name", JString n)] | None => [] end ++
    match next_tags with Some t => [("tags", JArray (JString <$> t))] | None => [] end in
  node ← ok_or (st_nodes state !! node_id) (NotFound "node");
  let node := match next_name with Some n => (node : NodeState) <| nd_name := n |> | None => node end in
  let node := match next_tags with Some t => (node : NodeState) <| nd_tags := t |> | None => node end in
  modify (put_node node_id node);;
  network ← ok_or (st_networks state !! nd_network_id node) (NotFound "network");
  let '(approved, key_rotation_required) :=
    effective_node_status node (nw_key_policy network) now in
  (if bool_decide (length detail = 0%nat) then mret tt
   else audit "node.update" (Some (nw_id network)) (Some (nd_id node)) (Some (JObject detail)));;
  mret (NodeInfo_from_state node (nw_dns_domain network) approved key_rotation_required).

Definition update_node (headers : HeaderMap) (node_id : string) (req : UpdateNodeRequest)
    : M StateStore ApiError UpdateNodeResponse :=
  try_result (require_admin headers (app_admin_token app));;
  fail_if (is_none (un_name req) && is_none (un_tags req)) (BadRequest "no fields to update");;
  now ← now;
  node ← store_call (write (update_node_tx node_id req now));
  mret (mkUpdateNodeResponse node).

(** One half of [rotate_keys]: replace the key of one type, if the request has a
    new one.  It works on the node in place. *)
Definition rotate_key (t : KeyType) (new : option string) (unchanged : string) (now : Z)
    : M NodeState ApiError unit :=
  match new with
  | None => mret tt
  | Some new =>
      node ← get;
      fail_if (bool_decide (node_key node t = new)) (BadRequest unchanged);;
      modify (λ node, (node : NodeState) <| nd_key_history :=
        revoke_key_record (nd_key_history node) t (node_key node t) now |>);;
      modify (λ node, match t with
                      | Machine => (node : NodeState) <| nd_machine_public_key := new |>
                      | WireGuard => (node : NodeState) <| nd_wg_public_key := new |>
                      end);;
      modify (λ node, (node : NodeState) <| nd_key_history :=
        nd_key_history node ++ [mkKeyRecord t new now None] |>)
  end.

(** The work of [rotate_keys] on the [&mut NodeState] it looked up. *)
Definition rotate_keys_node (headers : HeaderMap) (req : KeyRotationRequest) (now : Z)
    : M NodeState ApiError unit :=
  node ← get;
  try_result (require_node headers (app_admin_token app) node);;
  rotate_key Machine (krq_machine_public_key req) "machine_public_key unchanged" now;;
  rotate_key WireGuard (krq_wg_public_key req) "wg_public_key unchanged" now;;
  modify (λ node, (node : NodeState) <| nd_revoked_at := (None : option Z) |>).

(** [state.nodes.get_mut(key)] followed by work on the node. *)
Definition with_node {A} (key : string) (m : M NodeState ApiError A) : M State ApiError A :=
  λ w s,
  match st_nodes s !! key with
  | Some n => match m w n with (r, w, n) => (r, w, put_node key n s) end
  | None => (Err (NotFound "node"), w, s)
  end.

Definition rotate_keys_tx (headers : HeaderMap) (node_id : string) (req : KeyRotationRequest)
    (now : Z) : M State ApiError NodeState :=
  with_node node_id (rotate_keys_node headers req now);;
  state ← get;
  node ← ok_or (st_nodes state !! node_id) (NotFound "node");
  let rotated :=
    match krq_machine_public_key req with Some k => [("machine", JString k)] | None => [] end ++
    match krq_wg_public_key req with Some k => [("wireguard", JString k)] | None => [] end in
  audit "keys.rotate" (Some (nd_network_id node)) (Some (nd_id node)) (Some (JObject rotated));;
  mret node.

Definition rotate_keys (headers : HeaderMap) (node_id : string) (req : KeyRotationRequest)
    : M StateStore ApiError KeyRotationResponse :=
  fail_if (is_none (krq_machine_public_key req) && is_none (krq_wg_public_key req))
    (BadRequest "no keys provided");;
  now ← now;
  node ← store_call (write (rotate_keys_tx headers node_id req now));
  mret (mkKeyRotationResponse (nd_id node) (nd_machine_public_key node) (nd_wg_public_key node)).

(** What [revoke_node] does to the node. *)
Definition revoke_fields (node : NodeState) (now : Z) : NodeState :=
  let node := (node : NodeState) <| nd_revoked_at := Some now |> in
  let node := (node : NodeState) <| nd_key_history :=
    revoke_key_record (nd_key_history node) Machine (nd_machine_public_key node) now |> in
  (node : NodeState) <| nd_key_history :=
    revoke_key_record (nd_key_history node) WireGuard (nd_wg_public_key node) now |>.

Definition revoke_node_tx (node_id : string) (now : Z) : M State ApiError NodeState :=
  state ← get;
  node ← ok_or (st_nodes state !! node_id) (NotFound "node");
  let node := revoke_fields node now in
  modify (put_node node_id node);;
  audit "keys.revoke" (Some (nd_network_id node)) (Some (nd_id node))
    (Some (JObject [("revoked_at", JOption JNumber (nd_revoked_at node))]));;
  mret node.

Definition revoke_node (headers : HeaderMap) (node_id : string)
    : M StateStore ApiError (string * option Z) :=
  try_result (require_admin headers (app_admin_token app));;
  now ← now;
  node ← store_call (write (revoke_node_tx node_id now));
  mret (nd_id node, nd_revoked_at node).

Definition delete_node_tx (node_id : string) : M State ApiError string :=
  state ← get;
  node ← ok_or (st_nodes state !! node_id) (NotFound "node");
  modify (λ s, s <| st_nodes := delete node_id (st_nodes s) |>);;
  audit "node.delete" (Some (nd_network_id node)) (Some (nd_id node))
    (Some (JObject [("name", JString (nd_name node)); ("ipv4", JString (nd_ipv4 node));
                    ("ipv6", JString (nd_ipv6 node))]));;
  mret (nd_id node).

Definition delete_node (headers : HeaderMap) (node_id : string)
    : M StateStore ApiError DeleteNodeResponse :=
  try_result (require_admin headers (app_admin_token app));;
  deleted ← store_call (write (delete_node_tx node_id));
  mret (mkDeleteNodeResponse deleted).

Definition node_keys_rd (headers : HeaderMap) (node_id : string)
    : M State ApiError (list KeyRecord) :=
  state ← get;
  node ← ok_or (st_nodes state !! node_id) (NotFound "node");
  try_result (require_node headers (app_admin_token app) node);;
  mret (nd_key_history node).

Definition node_keys (headers : HeaderMap) (node_id : string)
    : M StateStore ApiError KeyHistoryResponse :=
  history ← store_call (read (node_keys_rd headers node_id));
  mret (mkKeyHistoryResponse node_id history).

(** ** Audit log *)

Record AuditQuery : Type := mkAuditQuery {
  aq_network_id : option string;
  aq_node_id : option string;
  aq_limit : option nat;
}.

Definition audit_matches (params : AuditQuery) (entry : AuditEntry) : bool :=
  match aq_network_id params with
  | Some network_id => bool_decide (ae_network_id entry = Some network_id)
  | None => true
  end &&
  match aq_node_id params with
  | Some node_id => bool_decide (ae_node_id entry = Some node_id)
  | None => true
  end.

Definition audit_log_rd (params : AuditQuery) : M State ApiError (list AuditEntry) :=
  state ← get;
  let entries := List.filter (audit_matches params) (st_audit_log state) in
  mret (match aq_limit params with
        | Some limit => if (limit <? length entries)%nat
                        then drop (length entries - limit) entries else entries
        | None => entries
        end).

Definition audit_log (headers : HeaderMap) (params : AuditQuery)
    : M StateStore ApiError AuditLogResponse :=
  try_result (require_admin headers (app_admin_token app));;
  entries ← store_call (read (audit_log_rd params));
  mret (mkAuditLogResponse entries).

(** ** Heartbeat and netmaps *)

Definition heartbeat_tx (headers : HeaderMap) (node_id : string) (endpoints : list string)
    (routes : list Route) (probe : option bool) (now : Z) : M State ApiError unit :=
  state ← get;
  node ← ok_or (st_nodes state !! node_id) (NotFound "node");
  try_result (require_node headers (app_admin_token app) node);;
  let node := (node : NodeState) <| nd_endpoints := endpoints |> in
  let node := (node : NodeState) <| nd_routes := routes |> in
  let node := (node : NodeState) <| nd_last_seen := now |> in
  let node := if unwrap_or probe false then (node : NodeState) <| nd_probe_requested_at := Some now |>
              else node in
  modify (put_node node_id node).

Definition heartbeat (headers : HeaderMap) (remote_ip : IpAddr) (req : HeartbeatRequest)
    : M StateStore ApiError HeartbeatResponse :=
  now ← now;
  let relay := relay_or_none (app_relay app) in
  let observed_endpoint := (λ port, socket_addr_to_string remote_ip port) <$> hb_listen_port req in
  let endpoints := merge_endpoints (hb_endpoints req) observed_endpoint in
  store_call (write (heartbeat_tx headers (hb_node_id req) endpoints (hb_routes req)
                       (hb_probe req) now));;
  netmap ← store_call (read (build_netmap (hb_node_id req) relay));
  mret (mkHeartbeatResponse netmap).

Definition netmap_rd (headers : HeaderMap) (node_id : string) (relay : option RelayConfig)
    : M State ApiError NetMap :=
  state ← get;
  node ← ok_or (st_nodes state !! node_id) (NotFound "node");
  try_result (require_node headers (app_admin_token app) node);;
  build_netmap node_id relay.

Definition netmap (headers : HeaderMap) (node_id : string) : M StateStore ApiError NetMap :=
  let relay := relay_or_none (app_relay app) in
  store_call (read (netmap_rd headers node_id relay)).

(** ** Topology *)

Definition admin_topology (headers : HeaderMap)
    : M StateStore ApiError ControlPlaneTopologyResponse :=
  try_result (require_admin headers (app_admin_token app));;
  let control_urls :=
    match infer_control_url_from_headers headers with
    | Some inferred =>
        if any (λ existing, bool_decide (existing = inferred)) (app_control_urls app)
        then app_control_urls app else inferred :: app_control_urls app
    | None => app_control_urls app
    end in
  let control_urls := dedup_strings control_urls in
  let mesh_peers := (λ peer, mkControlPlaneMeshPeer (mpm_id peer) (mpm_addr peer)) <$>
                      app_mesh_peers app in
  generated_at ← now;
  mret (mkControlPlaneTopologyResponse control_urls (app_mesh_server_id app) mesh_peers
          generated_at).
End Handlers.
