(* ===== verification/Invariant.v ===== *)
(** * The state invariant

    [inv] is what every reachable control-plane state satisfies: maps are keyed by
    the identifiers of their values, tokens and nodes belong to existing networks,
    overlay blocks are pairwise disjoint, every node has an address its network
    handed out and no two nodes share one, and key histories are well formed.  It
    only looks at the three maps.  The lemmas say which updates of the maps keep
    it; the handlers of Api.v are made of these updates. *)

From S2P Require Import Prelude Effects RustStd StdNet Externals Model Store Ipam Keys.

Section Invariant.
Context `{IpNetLaws}.

Implicit Types (nets : gmap string NetworkState) (nodes : gmap string NodeState)
  (toks : gmap string TokenState).

(** The addresses of a node were handed out by the allocator of a network. *)
Definition addr_in (n : NetworkState) (nd : NodeState) : Prop :=
  ∃ v4 v6 o4 o6, alloc_ok n v4 v6 ∧
    1 ≤ o4 < nw_next_ipv4 n ∧ 0 ≤ o6 < nw_next_ipv6 n ∧
    nd_ipv4 nd = ipv4_to_string (ipv4net_network v4 + o4) ∧
    nd_ipv6 nd = ipv6_to_string (ipv6net_network v6 + o6).

(** The blocks of two networks share no address. *)
Definition blocks_disjoint (n1 n2 : NetworkState) : Prop :=
  (∀ a b, ipv4net_parse (nw_overlay_v4 n1) = Some a →
          ipv4net_parse (nw_overlay_v4 n2) = Some b → ipv4_nets_overlap a b = false) ∧
  (∀ a b, ipv6net_parse (nw_overlay_v6 n1) = Some a →
          ipv6net_parse (nw_overlay_v6 n2) = Some b → ipv6_nets_overlap a b = false).

Record inv_maps nets nodes toks : Prop := {
  inv_network_id : ∀ k n, nets !! k = Some n → nw_id n = k;
  inv_node_id : ∀ k n, nodes !! k = Some n → nd_id n = k;
  inv_token_id : ∀ k t, toks !! k = Some t → tk_token t = k;
  inv_token_network : ∀ k t, toks !! k = Some t → is_Some (nets !! tk_network_id t);
  inv_token_uses : ∀ k t, toks !! k = Some t → 0 < tk_uses_left t;
  inv_alloc : ∀ k n, nets !! k = Some n → ∃ v4 v6, alloc_ok n v4 v6;
  inv_disjoint : ∀ k1 k2 n1 n2, nets !! k1 = Some n1 → nets !! k2 = Some n2 →
    k1 ≠ k2 → blocks_disjoint n1 n2;
  inv_node_addr : ∀ k nd, nodes !! k = Some nd →
    ∃ n, nets !! nd_network_id nd = Some n ∧ addr_in n nd;
  inv_distinct : ∀ k1 k2 n1 n2, nodes !! k1 = Some n1 → nodes !! k2 = Some n2 →
    k1 ≠ k2 → nd_network_id n1 = nd_network_id n2 →
    nd_ipv4 n1 ≠ nd_ipv4 n2 ∧ nd_ipv6 n1 ≠ nd_ipv6 n2;
  inv_keys : ∀ k nd, nodes !! k = Some nd → key_history_ok nd;
}.

Definition inv (s : State) : Prop := inv_maps (st_networks s) (st_nodes s) (st_tokens s).

Lemma inv_default : inv State_default.
Proof. split; intros; by simplify_map_eq. Qed.

Lemma inv_bump s : inv s → inv (bump_revision s).
Proof. done. Qed.

(** ** Networks that change without moving their blocks *)

(** [n'] has the same identity and blocks as [n], and may have handed out more. *)
Record net_evolves (n n' : NetworkState) : Prop := {
  ne_id : nw_id n' = nw_id n;
  ne_v4 : nw_overlay_v4 n' = nw_overlay_v4 n;
  ne_v6 : nw_overlay_v6 n' = nw_overlay_v6 n;
  ne_next4 : nw_next_ipv4 n ≤ nw_next_ipv4 n';
  ne_next6 : nw_next_ipv6 n ≤ nw_next_ipv6 n';
  ne_alloc : ∀ v4 v6, alloc_ok n v4 v6 → alloc_ok n' v4 v6;
}.

Lemma addr_in_evolves n n' nd : net_evolves n n' → addr_in n nd → addr_in n' nd.
Proof.
  intros [] (v4 & v6 & o4 & o6 & ? & ? & ? & ? & ?).
  exists v4, v6, o4, o6. split; [auto|]. split; [lia|]. split; [lia|done].
Qed.

Lemma blocks_disjoint_evolves n n' m :
  net_evolves n n' → (blocks_disjoint n m → blocks_disjoint n' m) ∧
                     (blocks_disjoint m n → blocks_disjoint m n').
Proof. intros [_ E4 E6 _ _ _]. unfold blocks_disjoint. by rewrite E4, E6. Qed.

(** Fields no allocation reads may change freely. *)
Lemma net_evolves_same n n' :
  nw_id n' = nw_id n → nw_overlay_v4 n' = nw_overlay_v4 n → nw_overlay_v6 n' = nw_overlay_v6 n →
  nw_next_ipv4 n' = nw_next_ipv4 n → nw_next_ipv6 n' = nw_next_ipv6 n → net_evolves n n'.
Proof.
  intros Ei E4 E6 N4 N6. split; try done; try lia.
  intros v4 v6 []. split; congruence.
Qed.

Lemma inv_put_network nets nodes toks k n n' :
  inv_maps nets nodes toks → nets !! k = Some n → net_evolves n n' →
  inv_maps (<[k := n']> nets) nodes toks.
Proof.
  intros [Nid Did Tid Tnet Tuse Al Dj Ad Ds Ky] Hk Hev.
  assert (∀ j, is_Some (nets !! j) → is_Some (<[k := n']> nets !! j)) as Hdom.
  { intros j. rewrite lookup_insert. case_decide; eauto. }
  split; try done.
  - intros j m. rewrite lookup_insert. case_decide; [|eauto].
    intros [= <-]. subst. rewrite (ne_id _ _ Hev). eauto.
  - eauto.
  - intros j m. rewrite lookup_insert. case_decide; [|eauto]. intros [= <-].
    destruct (Al k n Hk) as (v4 & v6 & Hok). exists v4, v6. by apply (ne_alloc _ _ Hev).
  - intros k1 k2 n1 n2. rewrite !lookup_insert.
    repeat case_decide; intros; simplify_eq; [| |eauto].
    + apply (blocks_disjoint_evolves _ _ _ Hev). eauto.
    + apply (blocks_disjoint_evolves _ _ _ Hev). eauto.
  - intros j nd Hj. destruct (Ad j nd Hj) as (m & Hm & Haddr). rewrite lookup_insert.
    case_decide; [|eauto]. simplify_eq. exists n'. split; [done|].
    by eapply addr_in_evolves.
Qed.

(** ** Nodes *)

(** A node may change anything but its identity, network and addresses, as long as
    its key history stays well formed. *)
Lemma inv_put_node nets nodes toks k n n' :
  inv_maps nets nodes toks → nodes !! k = Some n →
  nd_id n' = nd_id n → nd_network_id n' = nd_network_id n →
  nd_ipv4 n' = nd_ipv4 n → nd_ipv6 n' = nd_ipv6 n → key_history_ok n' →
  inv_maps nets (<[k := n']> nodes) toks.
Proof.
  intros [Nid Did Tid Tnet Tuse Al Dj Ad Ds Ky] Hk Ei En E4 E6 Hkeys.
  split; try done.
  - intros j m. rewrite lookup_insert. case_decide; [|eauto].
    intros [= <-]. subst. rewrite Ei. eauto.
  - intros j m. rewrite lookup_insert. case_decide; [|eauto]. intros [= <-].
    destruct (Ad k n Hk) as (w & Hw & Haddr). exists w. rewrite En. split; [done|].
    unfold addr_in in *. by rewrite E4, E6.
  - intros k1 k2 n1 n2. rewrite !lookup_insert.
    repeat case_decide; intros; simplify_eq; [| |eauto].
    + rewrite E4, E6. eapply Ds; eauto. congruence.
    + rewrite E4, E6. eapply Ds; eauto. congruence.
  - intros j m. rewrite lookup_insert. case_decide; [|eauto]. by intros [= <-].
Qed.

Lemma inv_delete_node nets nodes toks k :
  inv_maps nets nodes toks → inv_maps nets (delete k nodes) toks.
Proof.
  intros [Nid Did Tid Tnet Tuse Al Dj Ad Ds Ky].
  assert (∀ j m, delete k nodes !! j = Some m → nodes !! j = Some m) as Hl.
  { intros j m. rewrite lookup_delete_Some. by intros [_ ?]. }
  split; eauto.
Qed.

(** ** Tokens *)

Lemma inv_put_token nets nodes toks k t :
  inv_maps nets nodes toks → tk_token t = k → is_Some (nets !! tk_network_id t) →
  0 < tk_uses_left t → inv_maps nets nodes (<[k := t]> toks).
Proof.
  intros [Nid Did Tid Tnet Tuse Al Dj Ad Ds Ky] Ht Hn Hu.
  split; try done; intros j m; rewrite lookup_insert_Some;
    intros [[<- <-]|[_ ?]]; eauto.
Qed.

Lemma inv_sub_tokens nets nodes toks toks' :
  inv_maps nets nodes toks → toks' ⊆ toks → inv_maps nets nodes toks'.
Proof.
  intros [Nid Did Tid Tnet Tuse Al Dj Ad Ds Ky] Hsub.
  assert (∀ k t, toks' !! k = Some t → toks !! k = Some t) as Hl.
  { intros k t Hk. by eapply lookup_weaken. }
  split; eauto.
Qed.

(** ** Creating and deleting networks *)

Lemma inv_add_network nets nodes toks k n v4 v6 :
  inv_maps nets nodes toks → nets !! k = None → nw_id n = k → alloc_ok n v4 v6 →
  (∀ j m, nets !! j = Some m → blocks_disjoint n m ∧ blocks_disjoint m n) →
  inv_maps (<[k := n]> nets) nodes toks.
Proof.
  intros [Nid Did Tid Tnet Tuse Al Dj Ad Ds Ky] Hk Hid Hok Hdisj.
  assert (∀ j, is_Some (nets !! j) → is_Some (<[k := n]> nets !! j)) as Hdom.
  { intros j. rewrite lookup_insert. case_decide; eauto. }
  split; try done.
  - intros j m. rewrite lookup_insert_Some. intros [[<- <-]|[_ ?]]; eauto.
  - eauto.
  - intros j m. rewrite lookup_insert_Some. intros [[<- <-]|[_ ?]]; eauto.
  - intros k1 k2 n1 n2. rewrite !lookup_insert_Some.
    intros [[<- <-]|[_ H1]] [[<- <-]|[_ H2]] Hne; [done|..|eauto].
    + by apply (Hdisj k2).
    + by apply (Hdisj k1).
  - intros j nd Hj. destruct (Ad j nd Hj) as (m & Hm & Haddr). exists m.
    rewrite lookup_insert_ne by congruence. done.
Qed.

Lemma inv_delete_network nets nodes toks k :
  inv_maps nets nodes toks →
  (∀ j nd, nodes !! j = Some nd → nd_network_id nd ≠ k) →
  (∀ j t, toks !! j = Some t → tk_network_id t ≠ k) →
  inv_maps (delete k nets) nodes toks.
Proof.
  intros [Nid Did Tid Tnet Tuse Al Dj Ad Ds Ky] Hnodes Htoks.
  split; try done.
  - intros j m. rewrite lookup_delete_Some. intros [_ ?]; eauto.
  - intros j t Hj. rewrite lookup_delete_ne; [eauto|]. intros ->. by eapply Htoks.
  - intros j m. rewrite lookup_delete_Some. intros [_ ?]; eauto.
  - intros k1 k2 n1 n2. rewrite !lookup_delete_Some. intros [_ ?] [_ ?]; eauto.
  - intros j nd Hj. destruct (Ad j nd Hj) as (m & Hm & Haddr). exists m.
    rewrite lookup_delete_ne; [done|]. intros ->. by eapply Hnodes.
Qed.

(** ** Allocation *)

Lemma addr_in_range4 v4 (o : Z) :
  0 ≤ o ≤ 2 ^ (32 - ipv4net_prefix_len v4) - 1 → in_ipv4 (ipv4net_network v4 + o).
Proof.
  pose proof (ipv4_block_fits v4). pose proof (ipv4net_network_range v4) as Hr.
  unfold in_ipv4 in *. lia.
Qed.

Lemma addr_in_range6 v6 (o : Z) :
  0 ≤ o ≤ 2 ^ (128 - ipv6net_prefix_len v6) - 1 → in_ipv6 (ipv6net_network v6 + o).
Proof.
  pose proof (ipv6_block_fits v6). pose proof (ipv6net_network_range v6) as Hr.
  unfold in_ipv6 in *. lia.
Qed.

Lemma alloc_ok_det n v4 v6 v4' v6' :
  alloc_ok n v4 v6 → alloc_ok n v4' v6' → v4' = v4 ∧ v6' = v6.
Proof. intros [? ? _ _ _ _] [? ? _ _ _ _]. split; congruence. Qed.

(** An address that is handed out now is nobody's in the network. *)
Lemma fresh_address n nd v4 v6 :
  alloc_ok n v4 v6 → addr_in n nd →
  nw_next_ipv4 n ≤ 2 ^ (32 - ipv4net_prefix_len v4) - 2 →
  nw_next_ipv6 n ≤ 2 ^ (128 - ipv6net_prefix_len v6) - 1 →
  nd_ipv4 nd ≠ ipv4_to_string (ipv4net_network v4 + nw_next_ipv4 n) ∧
  nd_ipv6 nd ≠ ipv6_to_string (ipv6net_network v6 + nw_next_ipv6 n).
Proof.
  intros Hok (v4' & v6' & o4 & o6 & Hok' & H4 & H6 & E4 & E6) N4 N6.
  destruct (alloc_ok_det n v4 v6 v4' v6' Hok Hok') as [-> ->]. rewrite E4, E6.
  split; intros Heq; [apply ipv4_to_string_inj in Heq|apply ipv6_to_string_inj in Heq];
    try (apply addr_in_range4 || apply addr_in_range6); lia.
Qed.

(** A successful allocation: the network advances and the new node takes the
    addresses. *)
Lemma inv_add_node nets nodes toks k n n' nd v4 v6 :
  inv_maps nets nodes toks → nets !! nd_network_id nd = Some n → alloc_ok n v4 v6 →
  net_evolves n n' → nw_next_ipv4 n < nw_next_ipv4 n' → nw_next_ipv6 n < nw_next_ipv6 n' →
  nw_next_ipv4 n ≤ 2 ^ (32 - ipv4net_prefix_len v4) - 2 →
  nw_next_ipv6 n ≤ 2 ^ (128 - ipv6net_prefix_len v6) - 1 →
  nd_id nd = k → key_history_ok nd →
  nd_ipv4 nd = ipv4_to_string (ipv4net_network v4 + nw_next_ipv4 n) →
  nd_ipv6 nd = ipv6_to_string (ipv6net_network v6 + nw_next_ipv6 n) →
  inv_maps (<[nd_network_id nd := n']> nets) (<[k := nd]> nodes) toks.
Proof.
  intros Hinv Hn Hok Hev L4 L6 M4 M6 Hid Hkeys E4 E6.
  pose proof (inv_put_network _ _ _ _ _ _ Hinv Hn Hev) as Hinv'.
  assert (∀ j m, nodes !! j = Some m → nd_network_id m = nd_network_id nd →
            nd_ipv4 m ≠ nd_ipv4 nd ∧ nd_ipv6 m ≠ nd_ipv6 nd) as Hfresh.
  { intros j m Hj Hnet. destruct (inv_node_addr _ _ _ Hinv j m Hj) as (n0 & Hn0 & Haddr).
    rewrite Hnet, Hn in Hn0. injection Hn0 as <-. rewrite E4, E6. by eapply fresh_address. }
  destruct Hinv' as [Nid Did Tid Tnet Tuse Al Dj Ad Ds Ky]. split; try done.
  - intros j m. rewrite lookup_insert_Some. intros [[<- <-]|[_ ?]]; eauto.
  - intros j m. rewrite lookup_insert_Some. intros [[<- <-]|[_ Hj]]; [|eauto].
    exists n'. rewrite lookup_insert_eq. split; [done|].
    exists v4, v6, (nw_next_ipv4 n), (nw_next_ipv6 n).
    split; [by apply (ne_alloc _ _ Hev)|]. destruct Hok. split; [lia|]. split; [lia|done].
  - intros k1 k2 n1 n2. rewrite !lookup_insert_Some.
    intros [[<- <-]|[_ H1]] [[<- <-]|[_ H2]] Hne Hnet; try done.
    + destruct (Hfresh k2 n2 H2 (eq_sym Hnet)). split; by apply not_eq_sym.
    + by apply (Hfresh k1 n1).
    + eauto.
  - intros j m. rewrite lookup_insert_Some. intros [[<- <-]|[_ ?]]; eauto.
Qed.
End Invariant.
