(* ===== verification/Safety.v ===== *)
(** * Every transaction keeps the invariant

    For each closure a handler passes to [StateStore::write], its success and its
    failures keep [inv].  Failures count: the file store does not roll back. *)

From S2P Require Import Prelude Effects RustStd StdNet Externals Model Store Ipam Keys Acl Auth.
From S2P Require Import Netmap Netid ApiHelpers Api Invariant.

Lemma with_network_unfold {A} key (m : M NetworkState ApiError A) w s n :
  st_networks s !! key = Some n →
  with_network key m w s = match m w n with (r, w, n) => (r, w, put_network key n s) end.
Proof. intros Hn. unfold with_network. by rewrite Hn. Qed.

Lemma with_node_unfold {A} key (m : M NodeState ApiError A) w s :
  with_node key m w s =
  match st_nodes s !! key with
  | Some n => match m w n with (r, w, n) => (r, w, put_node key n s) end
  | None => (Err (NotFound "node"), w, s)
  end.
Proof. done. Qed.

(* simplification keeps these folded; the lemmas about them are used instead *)
#[local] Opaque effective_node_status audit build_token with_network with_node
  ensure_unique_node_name.

(** Run a closure symbolically: unfold the sequence, name the audit entries. *)
Ltac tx_simpl :=
  unfold mbind, M_bind, mret, M_ret, mthrow, M_throw, get, modify, ok_or, try_result, fail_if,
    Effects.now, new_uuid, random_secret, random_bytes, put_node, put_network, put_token in *;
  simpl in *.
Ltac tx_audit :=
  match goal with
  | |- context [audit ?a ?b ?c ?d ?w ?s] =>
      let entry := fresh "entry" in let w' := fresh "w" in let E := fresh "Eaudit" in
      destruct (audit_state (E := ApiError) a b c d w s) as (entry & w' & E & _);
      rewrite E; clear E; simpl
  end.

Section Transactions.
Context `{IpNetLaws} `{Crates} `{HashOrder}.
Context (app : AppState).

(** ** Networks *)

Lemma check_overlaps_ok v4 v6 l :
  check_overlaps v4 v6 l = Ok tt →
  ∀ n, n ∈ l → ∃ a b, ipv4net_parse (nw_overlay_v4 n) = Some a ∧
    ipv6net_parse (nw_overlay_v6 n) = Some b ∧
    ipv4_nets_overlap v4 a = false ∧ ipv6_nets_overlap v6 b = false.
Proof.
  induction l as [|m l IH]; simpl; [set_solver|]. intros Hc n.
  destruct (ipv4net_parse (nw_overlay_v4 m)) as [a|] eqn:E4; [|done].
  destruct (ipv4_nets_overlap v4 a) eqn:O4; [done|].
  destruct (ipv6net_parse (nw_overlay_v6 m)) as [b|] eqn:E6; [|done].
  destruct (ipv6_nets_overlap v6 b) eqn:O6; [done|].
  intros [->|Hn]%elem_of_cons; [eauto 8|]. by apply IH.
Qed.

Lemma overlap_sym4 a b : ipv4_nets_overlap a b = ipv4_nets_overlap b a.
Proof. apply orb_comm. Qed.
Lemma overlap_sym6 a b : ipv6_nets_overlap a b = ipv6_nets_overlap b a.
Proof. apply orb_comm. Qed.

(** A new network passes the checks of [create_network]: its blocks parse as given,
    and its allocator starts well formed. *)
Lemma create_network_tx_inv req n v4 v6 :
  alloc_ok n v4 v6 → 0 ≤ unwrap_or (cn_bootstrap_token_uses req) 1 →
  preserves inv (create_network_tx req n v4 v6).
Proof.
  intros Hok Huses w s Hinv. unfold create_network_tx. tx_simpl.
  destruct (st_networks s !! nw_id n) as [m|] eqn:En; simpl; [done|].
  destruct (check_overlaps v4 v6 (hm_values (st_networks s))) as [[]|e] eqn:Ec; [|done].
  tx_simpl. tx_audit.
  assert (inv_maps (<[nw_id n := n]> (st_networks s)) (st_nodes s) (st_tokens s)) as Hinv'.
  { eapply inv_add_network; eauto. intros j m Hj.
    destruct (check_overlaps_ok _ _ _ Ec m) as (a & b & E4 & E6 & O4 & O6).
    { apply elem_of_hm_values. eauto. }
    destruct Hok. unfold blocks_disjoint. split; split; intros a' b' Ha Hb; simplify_eq;
      rewrite ?(overlap_sym4 a), ?(overlap_sym6 b); congruence. }
  destruct (cn_bootstrap_token_ttl_seconds req) as [ttl|]; [|done].
  match goal with |- context [build_token ?a ?b ?c ?d ?e ?f ?g ?w ?s] =>
    destruct (build_token a b c d e f g w s) as [[[t|er] w2] s2] eqn:Et;
    pose proof (build_token_pure a b c d e f g w s) as Hpure end;
    rewrite Et in Hpure; simpl in Hpure; subst s2; [|done].
  apply build_token_inv in Et as (_ & Hnet & Hu & Hne & _ & _ & _ & _).
  apply inv_put_token; simpl; [done|done| |lia].
  rewrite Hnet, lookup_insert_eq. eauto.
Qed.

Lemma delete_network_tx_inv nid : preserves inv (delete_network_tx nid).
Proof.
  intros w s Hinv. unfold delete_network_tx. tx_simpl.
  destruct (st_networks s !! nid) as [n|] eqn:En; simpl; [|done].
  case_bool_decide as Hc; simpl; [|done]. tx_simpl. tx_audit.
  apply inv_delete_network.
  - eapply inv_sub_tokens; [exact Hinv|]. apply map_filter_subseteq.
  - intros j nd Hj Heq.
    assert (nd ∈ filter (λ node, nd_network_id node = nid) (hm_values (st_nodes s))) as Hin.
    { apply list_elem_of_filter. split; [done|]. apply elem_of_hm_values. eauto. }
    apply (list_elem_of_fmap_2 nd_id) in Hin. rewrite Hc in Hin. set_solver.
  - intros j t Ht. simpl in Ht. apply map_lookup_filter_Some in Ht as [_ Ht]. done.
Qed.

Lemma update_acl_tx_inv nid req : preserves inv (update_acl_tx nid req).
Proof.
  intros w s Hinv. unfold update_acl_tx. tx_simpl.
  destruct (st_networks s !! nid) as [n|] eqn:En; simpl; [|done]. tx_simpl. tx_audit.
  eapply inv_put_network; eauto. by apply net_evolves_same.
Qed.

Lemma update_key_policy_tx_inv nid req : preserves inv (update_key_policy_tx nid req).
Proof.
  intros w s Hinv. unfold update_key_policy_tx. tx_simpl.
  destruct (st_networks s !! nid) as [n|] eqn:En; simpl; [|done]. tx_simpl. tx_audit.
  eapply inv_put_network; eauto. by apply net_evolves_same.
Qed.

(** ** Tokens *)

Lemma create_token_tx_inv nid req : 0 ≤ ct_uses req → preserves inv (create_token_tx nid req).
Proof.
  intros Huses w s Hinv. unfold create_token_tx. tx_simpl.
  destruct (st_networks s !! nid) as [n|] eqn:En; simpl; [|done].
  match goal with |- context [build_token ?a ?b ?c ?d ?e ?f ?g ?w ?s] =>
    destruct (build_token a b c d e f g w s) as [[[t|er] w2] s2] eqn:Et;
    pose proof (build_token_pure a b c d e f g w s) as Hpure end;
    rewrite Et in Hpure; simpl in Hpure; subst s2; [|done].
  apply build_token_inv in Et as (_ & Hnet & Hu & Hne & _ & _ & _ & _).
  tx_simpl. tx_audit. apply inv_put_token; simpl; [done|done| |lia].
  rewrite Hnet, (inv_network_id _ _ _ Hinv nid n En), En. eauto.
Qed.

Lemma revoke_token_tx_inv tid now : preserves inv (revoke_token_tx tid now).
Proof.
  intros w s Hinv. unfold revoke_token_tx. tx_simpl.
  destruct (st_tokens s !! tid) as [t|] eqn:Et; simpl; [|done]. tx_simpl. tx_audit.
  apply inv_put_token; simpl; [done|..].
  - by apply (inv_token_id _ _ _ Hinv).
  - by apply (inv_token_network _ _ _ Hinv tid).
  - by apply (inv_token_uses _ _ _ Hinv tid).
Qed.

(** ** Registration *)

(** The allocator inside a state: what it leaves in the networks. *)
Lemma with_network_alloc nid w s n r w' s' :
  inv s → st_networks s !! nid = Some n →
  with_network nid allocate_node_ips w s = (r, w', s') →
  ∃ n' v4 v6, alloc_ok n v4 v6 ∧ net_evolves n n' ∧ s' = put_network nid n' s ∧
    match r with
    | Err _ => True
    | Ok (ip4, ip6) =>
        ip4 = ipv4_to_string (ipv4net_network v4 + nw_next_ipv4 n) ∧
        ip6 = ipv6_to_string (ipv6net_network v6 + nw_next_ipv6 n) ∧
        nw_next_ipv4 n < nw_next_ipv4 n' ∧ nw_next_ipv6 n < nw_next_ipv6 n' ∧
        nw_next_ipv4 n ≤ 2 ^ (32 - ipv4net_prefix_len v4) - 2 ∧
        nw_next_ipv6 n ≤ 2 ^ (128 - ipv6net_prefix_len v6) - 1
    end.
Proof.
  intros Hinv Hn. rewrite (with_network_unfold _ _ _ _ _ Hn).
  destruct (inv_alloc _ _ _ Hinv nid n Hn) as (v4 & v6 & Hok).
  pose proof (allocate_node_ips_ok v4 v6 w n Hok) as Hok'.
  rewrite (allocate_node_ips_spec n v4 v6 w Hok) in Hok' |- *.
  destruct (Z.ltb_spec (2 ^ (32 - ipv4net_prefix_len v4) - 2) (nw_next_ipv4 n)).
  { intros [= <- <- <-]. exists n, v4, v6. split; [done|]. split; [|done].
    by apply net_evolves_same. }
  cbn zeta in *.
  destruct (Z.ltb_spec (2 ^ (128 - ipv6net_prefix_len v6) - 1) (nw_next_ipv6 n)).
  - intros [= <- <- <-]. eexists _, v4, v6. split; [done|]. split; [|done].
    split; simpl; try done; try lia. intros v4' v6' Hok2.
    by destruct (alloc_ok_det _ _ _ _ _ Hok Hok2) as [-> ->].
  - intros [= <- <- <-]. eexists _, v4, v6. split; [done|]. split; [|split; [done|]].
    + split; simpl; try done; try lia. intros v4' v6' Hok2.
      by destruct (alloc_ok_det _ _ _ _ _ Hok Hok2) as [-> ->].
    + simpl. repeat split; lia.
Qed.

Lemma register_tx_inv req name token now : preserves inv (register_tx req name token now).
Proof.
  intros w s Hinv. unfold register_tx. tx_simpl.
  destruct (st_tokens s !! rq_token req) as [t|] eqn:Et; simpl; [|done].
  destruct (tk_expires_at t <=? now); simpl; [done|].
  destruct (tk_revoked_at t); simpl; [done|].
  destruct (tk_uses_left t =? 0) eqn:Eu; simpl; [done|].
  destruct (ensure_unique_node_name _ _ _ _) as [[]|e]; simpl; [|done].
  destruct (st_networks s !! tk_network_id t) as [n|] eqn:En; simpl; [|done].
  destruct (with_network _ _ _ _) as [[r w1] s1] eqn:Ew.
  destruct (with_network_alloc _ _ _ _ _ _ _ Hinv En Ew) as (n' & v4 & v6 & Hok & Hev & -> & Hr).
  destruct r as [[ip4 ip6]|e].
  2: { eapply inv_put_network; eauto. }
  destruct Hr as (-> & -> & L4 & L6 & M4 & M6). tx_simpl. tx_audit.
  rewrite Et. simpl.
  pose proof (inv_network_id _ _ _ Hinv _ _ En) as Hid.
  assert (∀ nd, nd_network_id nd = nw_id n → key_history_ok nd →
    nd_ipv4 nd = ipv4_to_string (ipv4net_network v4 + nw_next_ipv4 n) →
    nd_ipv6 nd = ipv6_to_string (ipv6net_network v6 + nw_next_ipv6 n) →
    inv_maps (<[tk_network_id t := n']> (st_networks s)) (<[nd_id nd := nd]> (st_nodes s))
      (st_tokens s)) as Hadd.
  { intros nd E1 E2 E3 E4. rewrite <- Hid, <- E1. eapply inv_add_node; eauto.
    by rewrite E1, Hid. }
  match goal with |- context [<[_ := ?nd]> (st_nodes s)] => specialize (Hadd nd) end.
  specialize (Hadd eq_refl (λ kt, key_history_ok_new kt _ _ now) eq_refl eq_refl).
  destruct (u_saturating_sub (tk_uses_left t) 1 =? 0) eqn:Eleft; simpl.
  - eapply inv_sub_tokens; [exact Hadd|]. apply delete_subseteq.
  - apply inv_put_token; simpl; [exact Hadd|by apply (inv_token_id _ _ _ Hinv)|..].
    + rewrite lookup_insert_eq. eauto.
    + pose proof (inv_token_uses _ _ _ Hinv _ _ Et). unfold u_saturating_sub in *.
      bool_props. lia.
Qed.

Lemma register_url_tx_inv req name token now expires :
  preserves inv (register_url_tx req name token now expires).
Proof.
  intros w s Hinv. unfold register_url_tx. tx_simpl.
  destruct (ensure_unique_node_name _ _ _ _) as [[]|e]; simpl; [|done].
  destruct (st_networks s !! ru_network_id req) as [n|] eqn:En; simpl; [|done].
  destruct (with_network _ _ _ _) as [[r w1] s1] eqn:Ew.
  destruct (with_network_alloc _ _ _ _ _ _ _ Hinv En Ew) as (n' & v4 & v6 & Hok & Hev & -> & Hr).
  destruct r as [[ip4 ip6]|e].
  2: { eapply inv_put_network; eauto. }
  destruct Hr as (-> & -> & L4 & L6 & M4 & M6). tx_simpl. tx_audit.
  pose proof (inv_network_id _ _ _ Hinv _ _ En) as Hid. rewrite <- Hid. unfold inv. simpl.
  match goal with |- inv_maps _ (<[?k := ?nd]> _) _ =>
    apply (inv_add_node _ _ _ k n n' nd v4 v6); simpl; eauto end.
  - by rewrite Hid.
  - intros kt. apply key_history_ok_new.
Qed.

(** ** Nodes *)

Lemma approve_fields_inv s k n now :
  inv s → st_nodes s !! k = Some n →
  inv_maps (st_networks s) (<[k := approve_fields n now]> (st_nodes s)) (st_tokens s).
Proof.
  intros Hinv Hn. eapply inv_put_node; eauto. exact (inv_keys _ _ _ Hinv k n Hn).
Qed.

Lemma approve_node_secret_tx_inv nid secret now : preserves inv (approve_node_secret_tx nid secret now).
Proof.
  intros w s Hinv. unfold approve_node_secret_tx. tx_simpl.
  destruct (st_nodes s !! nid) as [n|] eqn:En; simpl; [|done].
  destruct (nd_approved n); [done|]. destruct (nd_auth_secret n) as [a|]; simpl; [|done].
  case_bool_decide; simpl; [done|].
  destruct (nd_auth_expires_at n) as [x|]; [destruct (x <=? now)|]; simpl; try done;
    unfold approve_audit; tx_simpl; tx_audit; by apply (approve_fields_inv s nid n now).
Qed.

Lemma approve_node_tx_inv nid now : preserves inv (approve_node_tx nid now).
Proof.
  intros w s Hinv. unfold approve_node_tx. tx_simpl.
  destruct (st_nodes s !! nid) as [n|] eqn:En; simpl; [|done].
  destruct (nd_approved n); [done|].
  unfold approve_audit. tx_simpl. tx_audit. by apply (approve_fields_inv s nid n now).
Qed.

Lemma update_node_tx_inv nid req now : preserves inv (update_node_tx nid req now).
Proof.
  intros w s Hinv. unfold update_node_tx. tx_simpl.
  destruct (st_nodes s !! nid) as [n|] eqn:En; simpl; [|done].
  destruct (next_node_name s n req) as [nn|e]; simpl; [|done].
  assert (∀ n', nd_id n' = nd_id n → nd_network_id n' = nd_network_id n →
    nd_ipv4 n' = nd_ipv4 n → nd_ipv6 n' = nd_ipv6 n →
    (∀ t, node_key n' t = node_key n t) → nd_key_history n' = nd_key_history n →
    inv (put_node nid n' s)) as Hput.
  { intros n' ? ? ? ? Hk Hh. eapply inv_put_node; eauto. intros t. rewrite Hk, Hh.
    apply (inv_keys _ _ _ Hinv nid n En). }
  match goal with |- context [<[nid := ?x]> (st_nodes s)] => set (n' := x) end.
  assert (inv (put_node nid n' s)) as Hinv'.
  { unfold n'. apply Hput; intros; destruct nn, (next_node_tags n req); try destruct t; done. }
  match goal with |- context [st_networks s !! ?k] =>
    destruct (st_networks s !! k) as [nw|]; simpl; [|exact Hinv'] end.
  destruct (effective_node_status _ _ _) as [ap rot].
  case_bool_decide; simpl; [exact Hinv'|]. tx_audit. exact Hinv'.
Qed.

(** Rotation works on the node in place: whatever prefix of it runs, the history
    stays well formed and the identity is untouched. *)
Definition same_place (n n' : NodeState) : Prop :=
  nd_id n' = nd_id n ∧ nd_network_id n' = nd_network_id n ∧
  nd_ipv4 n' = nd_ipv4 n ∧ nd_ipv6 n' = nd_ipv6 n.

Lemma rotate_key_ok n0 t new msg now :
  preserves (λ n, same_place n0 n ∧ key_history_ok n) (rotate_key t new msg now).
Proof.
  intros w n [Hp Hk]. unfold rotate_key. destruct new as [new|]; [|done].
  tx_simpl. case_bool_decide; [done|]. simpl.
  split; [by destruct t|]. intros t'.
  match goal with |- history_ok _ (node_key ?x _) _ => set (n' := x) end.
  assert (nd_key_history n' = rotate_history (nd_key_history n) t (node_key n t) new now) as ->
    by (by destruct t).
  destruct (decide (t' = t)) as [->|Hne].
  - replace (node_key n' t) with new by (by destruct t). by apply history_ok_rotate.
  - replace (node_key n' t') with (node_key n t') by (by destruct t, t').
    by apply history_ok_rotate_other.
Qed.

Lemma rotate_keys_node_ok headers req n0 now :
  preserves (λ n, same_place n0 n ∧ key_history_ok n) (rotate_keys_node app headers req now).
Proof.
  unfold rotate_keys_node. apply preserves_bind; [by apply preserves_pure|intros n].
  apply preserves_bind; [apply preserves_pure, pure_try_result|intros _].
  apply preserves_bind; [apply rotate_key_ok|intros _].
  apply preserves_bind; [apply rotate_key_ok|intros _].
  apply triple_modify. by intros.
Qed.

Lemma rotate_keys_tx_inv headers nid req now : preserves inv (rotate_keys_tx app headers nid req now).
Proof.
  intros w s Hinv. unfold rotate_keys_tx. tx_simpl. rewrite with_node_unfold.
  destruct (st_nodes s !! nid) as [n|] eqn:En; [|done].
  pose proof (rotate_keys_node_ok headers req n now w n) as Hok.
  destruct (rotate_keys_node app headers req now w n) as [[r w1] n1].
  assert (same_place n n1 ∧ key_history_ok n1) as [(? & ? & ? & ?) Hk].
  { destruct r; apply Hok; (split; [done|exact (inv_keys _ _ _ Hinv nid n En)]). }
  assert (inv (put_node nid n1 s)) as Hinv' by (by eapply inv_put_node).
  destruct r as [[]|e]; [|exact Hinv']. tx_simpl. rewrite lookup_insert_eq. simpl.
  tx_audit. exact Hinv'.
Qed.

Lemma revoke_node_tx_inv nid now : preserves inv (revoke_node_tx nid now).
Proof.
  intros w s Hinv. unfold revoke_node_tx. tx_simpl.
  destruct (st_nodes s !! nid) as [n|] eqn:En; simpl; [|done]. tx_simpl. tx_audit.
  unfold inv. simpl. eapply inv_put_node; eauto. intros t.
  pose proof (inv_keys _ _ _ Hinv nid n En) as Hk.
  unfold revoke_fields. simpl. apply history_ok_revoke; [apply history_ok_revoke|];
    [exact (Hk t)|by destruct t..].
Qed.

Lemma delete_node_tx_inv nid : preserves inv (delete_node_tx nid).
Proof.
  intros w s Hinv. unfold delete_node_tx. tx_simpl.
  destruct (st_nodes s !! nid) as [n|] eqn:En; simpl; [|done]. tx_simpl. tx_audit.
  by apply inv_delete_node.
Qed.

Lemma heartbeat_tx_inv headers nid eps routes probe now :
  preserves inv (heartbeat_tx app headers nid eps routes probe now).
Proof.
  intros w s Hinv. unfold heartbeat_tx. tx_simpl.
  destruct (st_nodes s !! nid) as [n|] eqn:En; simpl; [|done].
  destruct (require_node _ _ _) as [[]|e]; simpl; [|done].
  unfold inv. simpl. eapply inv_put_node; eauto; try (by destruct (unwrap_or probe false)).
  intros t. pose proof (inv_keys _ _ _ Hinv nid n En t) as Hk.
  by destruct (unwrap_or probe false), t.
Qed.
End Transactions.

(** ** Closures that do not touch the nodes *)
Section NodeFrame.
Context `{IpNet} `{Crates} `{HashOrder}.

Definition keeps_nodes {A} (m : M State ApiError A) : Prop :=
  ∀ nodes, preserves (λ s, st_nodes s = nodes) m.

Lemma keeps_nodes_pred {A} (P : gmap string NodeState → Prop) (m : M State ApiError A) :
  keeps_nodes m → preserves (λ s, P (st_nodes s)) m.
Proof.
  intros Hm w s HP. specialize (Hm (st_nodes s) w s eq_refl).
  destruct (m w s) as [[[a|e] w'] s']; by rewrite Hm.
Qed.

Lemma audit_keeps_nodes action nid id detail :
  keeps_nodes (audit (E := ApiError) action nid id detail).
Proof.
  intros nodes w s Hn.
  by destruct (audit_state (E := ApiError) action nid id detail w s) as (? & ? & -> & _).
Qed.

Ltac frame_step :=
  first
    [ solve [apply preserves_pure; unfold random_secret; solve_pure]
    | apply audit_keeps_nodes
    | apply triple_modify; intros; assumption
    | apply preserves_bind; [|intros]
    | match goal with |- preserves _ (match ?x with _ => _ end) => destruct x end ].

(** The administration of networks and tokens *)
Lemma administration_keeps_nodes :
  (∀ req n v4 v6, keeps_nodes (create_network_tx req n v4 v6)) ∧
  (∀ nid, keeps_nodes (delete_network_tx nid)) ∧
  (∀ nid req, keeps_nodes (update_acl_tx nid req)) ∧
  (∀ nid req, keeps_nodes (update_key_policy_tx nid req)) ∧
  (∀ nid req, keeps_nodes (create_token_tx nid req)) ∧
  (∀ tid now, keeps_nodes (revoke_token_tx tid now)).
Proof.
  unfold create_network_tx, delete_network_tx, update_acl_tx, update_key_policy_tx,
    create_token_tx, revoke_token_tx.
  repeat apply conj; intros; intros nodes; repeat frame_step.
Qed.
End NodeFrame.
