(* ===== verification/Server.v ===== *)
(** * The server as a transition system

    [Request] has one constructor per route of the router in src/main.rs; [serve]
    runs its handler.  Requests are served one store access at a time, so the states
    other requests and the DNS responder see are those between two [serve] steps.
    [reachable] is the set of stores a server can get to; the theorems at the end
    are about every reachable store. *)

From S2P Require Import Prelude Effects RustStd StdNet Externals Model Store Ipam Keys Acl Auth.
From S2P Require Import Netmap Netid ApiHelpers Api Invariant Safety.

(** The routes. *)
Inductive Request : Type :=
  | PostNetworks (headers : HeaderMap) (req : CreateNetworkRequest)
  | DeleteNetwork (headers : HeaderMap) (network_id : string)
  | GetTokens (headers : HeaderMap) (network_id : string)
  | PostTokens (headers : HeaderMap) (network_id : string) (req : CreateTokenRequest)
  | GetAcl (headers : HeaderMap) (network_id : string)
  | PutAcl (headers : HeaderMap) (network_id : string) (req : UpdateAclRequest)
  | GetKeyPolicy (headers : HeaderMap) (network_id : string)
  | PutKeyPolicy (headers : HeaderMap) (network_id : string) (req : KeyRotationPolicy)
  | PostTokenRevoke (headers : HeaderMap) (token_id : string)
  | PostRegister (req : RegisterRequest)
  | PostRegisterUrl (req : RegisterUrlRequest)
  | GetRegisterApprove (node_id secret : string)
  | PostNodeApprove (headers : HeaderMap) (node_id : string)
  | PostRotateKeys (headers : HeaderMap) (node_id : string) (req : KeyRotationRequest)
  | PostNodeRevoke (headers : HeaderMap) (node_id : string)
  | DeleteNode (headers : HeaderMap) (node_id : string)
  | GetNodeKeys (headers : HeaderMap) (node_id : string)
  | GetAdminNodes (headers : HeaderMap) (network_id : string)
  | GetTopology (headers : HeaderMap)
  | PutNode (headers : HeaderMap) (node_id : string) (req : UpdateNodeRequest)
  | GetAudit (headers : HeaderMap) (params : AuditQuery)
  | PostHeartbeat (headers : HeaderMap) (remote_ip : IpAddr) (req : HeartbeatRequest)
  | GetNetmap (headers : HeaderMap) (node_id : string)
  | GetNetmapPoll (headers : HeaderMap) (node_id : string).

(** The unsigned integers of a request are unsigned. *)
Definition request_typed (r : Request) : Prop :=
  match r with
  | PostNetworks _ req => ∀ u, cn_bootstrap_token_uses req = Some u → 0 ≤ u
  | PostTokens _ _ req => 0 ≤ ct_uses req
  | _ => True
  end.

(** The result of a handler, without the body of the response. *)
Definition status {A} (m : M StateStore ApiError A) : M StateStore ApiError unit :=
  m ≫= λ _, mret tt.

Section Server.
Context `{IpNet} `{Crates} `{HashOrder} `{Serde}.
Context (app : AppState).

(** The router of [main]; a long poll is one of its polls. *)
Definition serve (r : Request) : M StateStore ApiError unit :=
  match r with
  | PostNetworks headers req => status (create_network app headers req)
  | DeleteNetwork headers nid => status (delete_network app headers nid)
  | GetTokens headers nid => status (list_tokens app headers nid)
  | PostTokens headers nid req => status (create_token app headers nid req)
  | GetAcl headers nid => status (get_acl app headers nid)
  | PutAcl headers nid req => status (update_acl app headers nid req)
  | GetKeyPolicy headers nid => status (get_key_policy app headers nid)
  | PutKeyPolicy headers nid req => status (update_key_policy app headers nid req)
  | PostTokenRevoke headers tid => status (revoke_token app headers tid)
  | PostRegister req => status (register app req)
  | PostRegisterUrl req => status (register_url req)
  | GetRegisterApprove nid secret => status (approve_node_secret nid secret)
  | PostNodeApprove headers nid => status (approve_node app headers nid)
  | PostRotateKeys headers nid req => status (rotate_keys app headers nid req)
  | PostNodeRevoke headers nid => status (revoke_node app headers nid)
  | DeleteNode headers nid => status (delete_node app headers nid)
  | GetNodeKeys headers nid => status (node_keys app headers nid)
  | GetAdminNodes headers nid => status (admin_nodes app headers nid)
  | GetTopology headers => status (admin_topology app headers)
  | PutNode headers nid req => status (update_node app headers nid req)
  | GetAudit headers params => status (audit_log app headers params)
  | PostHeartbeat headers ip req => status (heartbeat app headers ip req)
  | GetNetmap headers nid => status (netmap app headers nid)
  | GetNetmapPoll headers nid =>
      status (store_call (read (poll_read headers (app_admin_token app) nid
                                  (relay_or_none (app_relay app)))))
  end.

(** Stores a server can get to from a fresh one. *)
Inductive reachable : StateStore → Prop :=
  | reach_init st : view st = Some State_default → reachable st
  | reach_step st w r res w' st' :
      reachable st → request_typed r → serve r w st = (res, w', st') → reachable st'.

(** Serve a list of requests; the results are the status of each. *)
Fixpoint run (rs : list Request) (w : World) (st : StateStore)
    : list (result unit ApiError) * World * StateStore :=
  match rs with
  | [] => ([], w, st)
  | r :: rs =>
      match serve r w st with
      | (res, w, st) => match run rs w st with (l, w, st) => (res :: l, w, st) end
      end
  end.

Lemma reachable_run rs w st :
  reachable st → Forall request_typed rs → reachable (run rs w st).2.
Proof.
  intros Hr Hty. revert w st Hr.
  induction Hty as [|r rs Hr Hrs IH]; intros w st Hst; [done|]. simpl.
  destruct (serve r w st) as [[res w1] st1] eqn:Es.
  specialize (IH w1 st1 (reach_step _ _ _ _ _ _ Hst Hr Es)).
  by destruct (run rs w1 st1) as [[l w2] st2].
Qed.
End Server.

(** ** Lifting invariants of the state to the store *)
Section Lifting.
Context `{SerdeLaws}.

(** A property of the state in view. *)
Definition on_view (I : State → Prop) (st : StateStore) : Prop :=
  ∀ s, view st = Some s → I s.

(** The same, with what has to hold when there is no state in view. *)
Definition viewed (N : Prop) (I : State → Prop) (st : StateStore) : Prop :=
  match view st with Some s => I s | None => N end.

Lemma viewed_on_view I st : viewed True I st ↔ on_view I st.
Proof. unfold viewed, on_view. destruct (view st); naive_solver. Qed.
End Lifting.

Lemma triple_try {S E A B} (P : S → Prop) (r : result A E) (k : A → M S E B) Q X :
  (∀ e s, P s → X e s) → (∀ a, r = Ok a → triple P (k a) Q X) →
  triple P (try_result r ≫= k) Q X.
Proof.
  intros HX Hk w s HP. unfold mbind, M_bind. destruct r as [a|e]; simpl; [|by apply HX].
  by apply Hk.
Qed.

Lemma triple_ok_or_bind {S E A B} (P : S → Prop) (o : option A) (e : E) (k : A → M S E B) Q X :
  (∀ e s, P s → X e s) → (∀ a, o = Some a → triple P (k a) Q X) →
  triple P (ok_or o e ≫= k) Q X.
Proof.
  intros HX Hk w s HP. unfold mbind, M_bind. destruct o as [a|]; simpl; [|by apply HX].
  by apply Hk.
Qed.

(** ** One request at a time

    What a request does to the state is what its closure does.  [request_meets Pre Post]
    is what has to be shown of the closure of a request: run on a state in [Pre] it
    leaves a state in [Post], also when it fails.  Its arguments are those the handler
    computes, after the handler's own checks. *)
Section Obligations.
Context `{IpNetLaws} `{Crates} `{HashOrder} `{SerdeLaws}.
Context (app : AppState).

Definition meets (Pre Post : State → Prop) {A} (f : M State ApiError A) : Prop :=
  triple Pre f (λ _, Post) (λ _, Post).

Definition is_admin (headers : HeaderMap) : Prop :=
  require_admin headers (app_admin_token app) = Ok tt.

Definition request_meets (Pre Post : State → Prop) (r : Request) : Prop :=
  match r with
  | PostNetworks headers req => ∀ n v4 v6, is_admin headers → alloc_ok n v4 v6 →
      0 ≤ unwrap_or (cn_bootstrap_token_uses req) 1 →
      meets Pre Post (create_network_tx req n v4 v6)
  | DeleteNetwork headers nid => is_admin headers → meets Pre Post (delete_network_tx nid)
  | PostTokens headers nid req => is_admin headers → meets Pre Post (create_token_tx nid req)
  | PutAcl headers nid req => is_admin headers → meets Pre Post (update_acl_tx nid req)
  | PutKeyPolicy headers nid req =>
      is_admin headers → meets Pre Post (update_key_policy_tx nid req)
  | PostTokenRevoke headers tid =>
      ∀ now, is_admin headers → meets Pre Post (revoke_token_tx tid now)
  | PostRegister req => ∀ name tok now, normalize_node_name (rq_node_name req) = Ok name →
      meets Pre Post (register_tx req name tok now)
  | PostRegisterUrl req => ∀ name tok now ex, normalize_node_name (ru_node_name req) = Ok name →
      meets Pre Post (register_url_tx req name tok now ex)
  | GetRegisterApprove nid secret => ∀ now, meets Pre Post (approve_node_secret_tx nid secret now)
  | PostNodeApprove headers nid =>
      ∀ now, is_admin headers → meets Pre Post (approve_node_tx nid now)
  | PostRotateKeys headers nid req => ∀ now, meets Pre Post (rotate_keys_tx app headers nid req now)
  | PostNodeRevoke headers nid =>
      ∀ now, is_admin headers → meets Pre Post (revoke_node_tx nid now)
  | DeleteNode headers nid => is_admin headers → meets Pre Post (delete_node_tx nid)
  | PutNode headers nid req =>
      ∀ now, is_admin headers → meets Pre Post (update_node_tx nid req now)
  | PostHeartbeat headers ip req => ∀ eps now,
      meets Pre Post (heartbeat_tx app headers (hb_node_id req) eps (hb_routes req) (hb_probe req) now)
  | _ => True
  end.

Context (N : Prop) (Pre Post : State → Prop).
Hypothesis Hsub : ∀ s, Pre s → Post s.
Hypothesis Hbump : ∀ s, Post s → Post (bump_revision s).

Lemma viewed_sub st : viewed N Pre st → viewed N Post st.
Proof. unfold viewed. destruct (view st); auto. Qed.

Lemma write_meets {R} (f : M State ApiError R) :
  meets Pre Post f →
  triple (viewed N Pre) (store_call (write f)) (λ _, viewed N Post) (λ _, viewed N Post).
Proof.
  intros Hf w st HI. unfold store_call. destruct (write f w st) as [[res w'] st'] eqn:Ew.
  assert (viewed N Post st'); [|by destruct res].
  apply write_simulates in Ew. unfold viewed in *.
  assert (∀ w0 s r w1 s1, view st = Some s → f w0 s = (r, w1, s1) → Post s1) as Hrun.
  { intros w0 s r w1 s1 Hv Hr. rewrite Hv in HI. specialize (Hf w0 s HI). rewrite Hr in Hf.
    by destruct r. }
  destruct (view st) as [s|].
  - inversion Ew; subst; eauto.
  - by inversion Ew.
Qed.

(** The last store access of a handler that writes, and what it computes from it *)
Lemma write_last {R B} (f : M State ApiError R) (k : R → M StateStore ApiError B) :
  meets Pre Post f → (∀ a, pure_on (k a)) →
  triple (viewed N Pre) (store_call (write f) ≫= k) (λ _, viewed N Post) (λ _, viewed N Post).
Proof.
  intros Hf Hk. apply triple_bind with (R := λ _, viewed N Post); [by apply write_meets|].
  intros a. by apply triple_pure.
Qed.

Lemma pure_keeps {A} (m : M StateStore ApiError A) :
  pure_on m → triple (viewed N Pre) m (λ _, viewed N Post) (λ _, viewed N Post).
Proof.
  intros Hm. eapply triple_conseq; [by apply triple_pure|done|..]; intros ? st; apply viewed_sub.
Qed.
End Obligations.

Lemma store_call_pure {A} (m : M StateStore (AnyErr ApiError) A) : pure_on m → pure_on (store_call m).
Proof.
  intros Hm w st. specialize (Hm w st). unfold store_call.
  by destruct (m w st) as [[[a|e] w'] st'].
Qed.

(** Purity of what follows the write: reads, and computation of the response *)
Ltac solve_tail :=
  repeat first
    [ progress (intros; cbn beta)
    | apply pure_bind
    | apply store_call_pure, read_pure
    | solve [eauto 2 with lightscale]
    | match goal with |- pure_on (let '(_, _) := ?x in _) => destruct x end
    | match goal with |- pure_on (match ?x with _ => _ end) => destruct x end ].

(** Follow a handler up to its write: checks and computations before it, the write, and
    the rest. *)
Ltac handler_step Hsub :=
  first
    [ solve [apply pure_keeps; [exact Hsub|solve_tail]]
    | apply triple_try; [intros ?; apply viewed_sub, Hsub|];
      intros; try match goal with u : unit |- _ => destruct u end
    | apply write_last; [assumption|assumption|eauto|solve [solve_tail]]
    | apply write_meets; [assumption|assumption|eauto]
    | apply triple_bind_pure;
      [solve [unfold random_secret; solve_tail]|intros ?; apply viewed_sub, Hsub|intros]
    | match goal with |- triple _ (let '(_, _) := ?x in _) _ _ => destruct x end
    | match goal with |- triple _ (match ?x with _ => _ end) _ _ => destruct x end ].

Section Serving.
Context `{IpNetLaws} `{Crates} `{HashOrder} `{SerdeLaws}.
Context (app : AppState).

#[local] Hint Unfold is_admin : core.

Lemma create_network_meets N Pre Post headers req :
  (∀ s, Pre s → Post s) → (∀ s, Post s → Post (bump_revision s)) →
  request_meets app Pre Post (PostNetworks headers req) →
  (∀ u, cn_bootstrap_token_uses req = Some u → 0 ≤ u) →
  triple (viewed N Pre) (create_network app headers req) (λ _, viewed N Post) (λ _, viewed N Post).
Proof.
  intros Hsub Hbump Hm Hty. simpl in Hm. unfold create_network.
  apply triple_try; [intros _; by apply viewed_sub|intros [] Hadmin].
  apply triple_bind_pure; [solve_pure|intros _; by apply viewed_sub|intros uuid].
  destruct (derive_overlay_prefixes uuid) as [d4 d6].
  apply triple_ok_or_bind; [intros _; by apply viewed_sub|intros v4 E4].
  apply triple_ok_or_bind; [intros _; by apply viewed_sub|intros v6 E6].
  apply triple_ok_or_bind; [intros _; by apply viewed_sub|intros o4 Eo].
  apply triple_bind_pure; [solve_pure|intros _; by apply viewed_sub|intros now].
  apply write_last; [exact Hsub|exact Hbump| |solve_tail]. apply Hm; [done|by eapply initial_offsets_ok|].
  destruct (cn_bootstrap_token_uses req) as [u|]; simpl; [eauto|lia].
Qed.

(** A request does what its closure does, whatever the backend and the I/O do. *)
Lemma serve_meets N Pre Post r :
  (∀ s, Pre s → Post s) → (∀ s, Post s → Post (bump_revision s)) →
  request_meets app Pre Post r → request_typed r →
  triple (viewed N Pre) (serve app r) (λ _, viewed N Post) (λ _, viewed N Post).
Proof.
  intros Hsub Hbump Hm Hty. pose proof (create_network_meets N Pre Post) as Hcreate.
  destruct r; simpl in Hm; unfold serve, status;
    (apply triple_bind with (R := λ _, viewed N Post); [|intros; apply triple_pure; solve_tail]);
    [by apply Hcreate|..]; repeat handler_step Hsub.
Qed.
End Serving.

Section Reachable.
Context `{IpNetLaws} `{Crates} `{HashOrder} `{SerdeLaws}.
Context (app : AppState).

(** [I] is kept by every closure that a handler runs in [write]; without
    [rotations], by every closure but the one of [rotate_keys]. *)
Record closed (rotations : bool) (I : State → Prop) : Prop := {
  cl_bump s : I s → I (bump_revision s);
  cl_create_network req n v4 v6 :
    alloc_ok n v4 v6 → 0 ≤ unwrap_or (cn_bootstrap_token_uses req) 1 →
    preserves I (create_network_tx req n v4 v6);
  cl_delete_network nid : preserves I (delete_network_tx nid);
  cl_update_acl nid req : preserves I (update_acl_tx nid req);
  cl_update_key_policy nid req : preserves I (update_key_policy_tx nid req);
  cl_create_token nid req : 0 ≤ ct_uses req → preserves I (create_token_tx nid req);
  cl_revoke_token tid now : preserves I (revoke_token_tx tid now);
  cl_register req raw name tok now : normalize_node_name raw = Ok name →
    preserves I (register_tx req name tok now);
  cl_register_url req raw name tok now ex : normalize_node_name raw = Ok name →
    preserves I (register_url_tx req name tok now ex);
  cl_approve_secret nid secret now : preserves I (approve_node_secret_tx nid secret now);
  cl_approve nid now : preserves I (approve_node_tx nid now);
  cl_update_node nid req now : preserves I (update_node_tx nid req now);
  cl_rotate headers nid req now : rotations = true → preserves I (rotate_keys_tx app headers nid req now);
  cl_revoke nid now : preserves I (revoke_node_tx nid now);
  cl_delete_node nid : preserves I (delete_node_tx nid);
  cl_heartbeat headers nid eps routes probe now :
    preserves I (heartbeat_tx app headers nid eps routes probe now);
}.

(** A request that rotates keys. *)
Definition is_rotation (r : Request) : bool :=
  match r with PostRotateKeys _ _ _ => true | _ => false end.

(** Every request keeps what every closure keeps. *)
Lemma serve_preserves rot I r :
  closed rot I → (is_rotation r = true → rot = true) → request_typed r →
  preserves (on_view I) (serve app r).
Proof.
  intros Hc Hrot Hty.
  assert (triple (viewed True I) (serve app r) (λ _, viewed True I) (λ _, viewed True I)) as Ht.
  { apply serve_meets; [done|apply Hc| |done]. destruct Hc.
    destruct r; simpl in *; unfold meets, preserves in *; eauto. }
  eapply triple_conseq; [exact Ht|..]; intros *; by rewrite viewed_on_view.
Qed.
End Reachable.

