(* ===== verification/Scenario.v ===== *)
(** * A concrete server

    A file-backed server that serves a few requests: the concrete inputs on which the
    theorems are applied. *)

From S2P Require Import Prelude Effects RustStd StdNet Externals Model Store SampleStore Ipam.
From S2P Require Import Keys Acl Auth Netmap Netid ApiHelpers Api Server.
Export Sample.

(** The [i]-th UUID and secret are made of the byte [i + 1]; the clock gains one
    second at every reading; all I/O succeeds. *)
Definition demo_world : World :=
  mkWorld (λ i, 1000 + Z.of_nat i) (λ i, replicate 16 (byte_of (Z.of_nat i + 1)))
    (λ i, replicate 32 (byte_of (Z.of_nat i + 1))) (λ _, IoOk) 0 0 0 0.

Definition demo_relay : RelayConfig := mkRelayConfig [] [] [] [] [].
Definition demo_app : AppState := mkAppState demo_relay (Some "admin") [] None [].

Definition admin_headers : HeaderMap := λ h,
  if bool_decide (h = "authorization") then Some "Bearer admin" else None.
Definition no_headers : HeaderMap := λ _, None.

Definition file_store (s : State) : StateStore := mkStateStore (File (mkFileStore s None)) ∅.
Definition empty_store : StateStore := file_store State_default.

(** One network, with a bootstrap token good for two registrations. *)
Definition demo_network : CreateNetworkRequest :=
  mkCreateNetworkRequest "office" None None None None None (Some 3600) (Some 2) None.
Definition demo_token : string := b64url_encode (replicate 32 (byte_of 1)).
Definition demo_register (name machine wg : string) : RegisterRequest :=
  mkRegisterRequest demo_token name machine wg.

Definition demo_requests : list Request :=
  [PostNetworks admin_headers demo_network;
   PostRegister (demo_register "alice" "m1" "w1");
   PostRegister (demo_register "bob" "m2" "w2")].

Lemma demo_requests_typed : Forall request_typed demo_requests.
Proof. repeat constructor. simpl. intros u [= <-]. lia. Defined.

Definition demo_store : StateStore := (run demo_app demo_requests demo_world empty_store).2.
Definition view_or_default (st : StateStore) : State := default State_default (view st).
Definition demo_state : State := view_or_default demo_store.

Lemma demo_reachable : reachable demo_app demo_store.
Proof. apply reachable_run; [by apply reach_init|apply demo_requests_typed]. Qed.

(** All three requests succeed. *)
Example demo_results :
  (run demo_app demo_requests demo_world empty_store).1.1 = [Ok tt; Ok tt; Ok tt].
Proof. vm_compute. reflexivity. Qed.

Lemma demo_view : view demo_store = Some demo_state.
Proof. vm_compute. reflexivity. Qed.

(** The two nodes of the scenario. *)
Definition alice_id : string := uuid_to_string (replicate 16 (byte_of 3)).
Definition bob_id : string := uuid_to_string (replicate 16 (byte_of 5)).
Definition node_of (s : State) (k : string) : NodeState :=
  default (mkNodeState "" "" "" "" "" "" "" [] [] None None false [] 0 0 None false None None
             None None None []) (st_nodes s !! k).

Lemma demo_alice : st_nodes demo_state !! alice_id = Some (node_of demo_state alice_id).
Proof. vm_compute. reflexivity. Qed.
Lemma demo_bob : st_nodes demo_state !! bob_id = Some (node_of demo_state bob_id).
Proof. vm_compute. reflexivity. Qed.

(** The server before the registrations. *)
Definition start_store : StateStore :=
  (run demo_app [PostNetworks admin_headers demo_network] demo_world empty_store).2.
Definition start_state : State := view_or_default start_store.

Lemma start_reachable : reachable demo_app start_store.
Proof.
  apply reachable_run; [by apply reach_init|]. repeat constructor. simpl. intros u [= <-]. lia.
Qed.
Lemma start_view : view start_store = Some start_state.
Proof. vm_compute. reflexivity. Qed.
