(* ===== verification/Reachability.v ===== *)
(** * Properties of every reachable store

    The invariant of Invariant.v is closed under the handlers, so it holds in every
    store a server can get to, on both backends and whatever requests, clock
    readings, random draws and I/O failures occur. *)

From S2P Require Import Prelude Effects RustStd StdNet Externals Model Store SampleStore Ipam.
From S2P Require Import Keys Acl Auth Netmap Netid ApiHelpers Api Invariant Safety Server.
From S2P Require Import Scenario.

Section Closed.
Context `{IpNetLaws} `{Crates} `{HashOrder} `{SerdeLaws}.
Context (app : AppState).

Lemma inv_closed : closed app true inv.
Proof.
  split; intros.
  - by apply inv_bump.
  - by eapply create_network_tx_inv.
  - apply delete_network_tx_inv.
  - apply update_acl_tx_inv.
  - apply update_key_policy_tx_inv.
  - by apply create_token_tx_inv.
  - apply revoke_token_tx_inv.
  - apply register_tx_inv.
  - apply register_url_tx_inv.
  - apply approve_node_secret_tx_inv.
  - apply approve_node_tx_inv.
  - apply update_node_tx_inv.
  - apply rotate_keys_tx_inv.
  - apply revoke_node_tx_inv.
  - apply delete_node_tx_inv.
  - apply heartbeat_tx_inv.
Qed.

(** Rule induction: what the closures keep and the default state has, every
    reachable store has. *)
Lemma reachable_ind_inv (I : State → Prop) st :
  closed app true I → I State_default → reachable app st → on_view I st.
Proof.
  intros Hc Hd. induction 1 as [st Hv|st w r res w' st' _ IH Hty Hs].
  - intros s. rewrite Hv. by intros [= <-].
  - pose proof (serve_preserves app true I r Hc (λ _, eq_refl) Hty w st IH) as Hp. rewrite Hs in Hp.
    by destruct res.
Qed.

Lemma reachable_state_inv st s : reachable app st → view st = Some s → inv s.
Proof.
  intros Hr Hv. by apply (reachable_ind_inv inv st inv_closed inv_default Hr).
Qed.
End Closed.

(** ** Addresses across the whole server *)
Section Addresses.
Context `{IpNetLaws}.

Lemma addr_in_block n nd v4 v6 :
  addr_in n nd → alloc_ok n v4 v6 →
  ∃ a b, nd_ipv4 nd = ipv4_to_string a ∧ nd_ipv6 nd = ipv6_to_string b ∧
    in_ipv4 a ∧ in_ipv6 b ∧
    ipv4net_network v4 < a < ipv4net_network v4 + 2 ^ (32 - ipv4net_prefix_len v4) - 1 ∧
    ipv6net_network v6 ≤ b < ipv6net_network v6 + 2 ^ (128 - ipv6net_prefix_len v6).
Proof.
  intros (u4 & u6 & o4 & o6 & Hok & H4 & H6 & E4 & E6) Hok'.
  destruct (alloc_ok_det _ _ _ _ _ Hok' Hok) as [-> ->]. destruct Hok as [_ _ _ N4 N6 _].
  exists (ipv4net_network v4 + o4), (ipv6net_network v6 + o6).
  split; [done|]. split; [done|].
  split; [apply addr_in_range4; lia|]. split; [apply addr_in_range6; lia|]. lia.
Qed.

(** Two nodes of different networks draw from disjoint blocks. *)
Lemma inv_distinct_networks s k1 k2 n1 n2 :
  inv s → st_nodes s !! k1 = Some n1 → st_nodes s !! k2 = Some n2 →
  nd_network_id n1 ≠ nd_network_id n2 →
  nd_ipv4 n1 ≠ nd_ipv4 n2 ∧ nd_ipv6 n1 ≠ nd_ipv6 n2.
Proof.
  intros Hinv H1 H2 Hne.
  destruct (inv_node_addr _ _ _ Hinv _ _ H1) as (w1 & Hw1 & Ha1).
  destruct (inv_node_addr _ _ _ Hinv _ _ H2) as (w2 & Hw2 & Ha2).
  destruct (inv_alloc _ _ _ Hinv _ _ Hw1) as (v4 & v6 & Hok1).
  destruct (inv_alloc _ _ _ Hinv _ _ Hw2) as (u4 & u6 & Hok2).
  destruct (inv_disjoint _ _ _ Hinv _ _ _ _ Hw1 Hw2 Hne) as [D4 D6].
  specialize (D4 v4 u4 (ao_v4 _ _ _ Hok1) (ao_v4 _ _ _ Hok2)).
  specialize (D6 v6 u6 (ao_v6 _ _ _ Hok1) (ao_v6 _ _ _ Hok2)).
  destruct (addr_in_block _ _ _ _ Ha1 Hok1) as (a1 & b1 & E41 & E61 & R41 & R61 & B41 & B61).
  destruct (addr_in_block _ _ _ _ Ha2 Hok2) as (a2 & b2 & E42 & E62 & R42 & R62 & B42 & B62).
  rewrite E41, E61, E42, E62. split; intros Heq.
  - apply ipv4_to_string_inj in Heq as ->; [|done..].
    assert (ipv4_nets_overlap v4 u4 = true); [|congruence].
    apply ipv4_nets_overlap_spec. exists a2. split; [done|]. rewrite !ipv4net_contains_spec by done. lia.
  - apply ipv6_to_string_inj in Heq as ->; [|done..].
    assert (ipv6_nets_overlap v6 u6 = true); [|congruence].
    apply ipv6_nets_overlap_spec. exists b2. split; [done|]. rewrite !ipv6net_contains_spec by done. lia.
Qed.
End Addresses.

(** ** The theorems *)
Section Theorems.
Context `{IpNetLaws} `{Crates} `{HashOrder} `{SerdeLaws}.
Context (app : AppState).

(** In every store a server can reach from a fresh one, by any requests, on
    either backend and with any I/O failures, the state in view satisfies the
    invariant: maps keyed by identifiers, tokens and nodes of existing networks
    only, live tokens with uses left, disjoint overlay blocks, node addresses
    handed out by the network's allocator and pairwise distinct, and key histories
    with at most one live record per key type. *)
Theorem reachable_invariant st s : reachable app st → view st = Some s → inv s.
Proof. apply reachable_state_inv. Qed.

(** C2. No two nodes of a reachable server have the same overlay IPv4 or IPv6
    address, also when they are in different networks. *)
Theorem reachable_addresses_unique st s k1 k2 n1 n2 :
  reachable app st → view st = Some s →
  st_nodes s !! k1 = Some n1 → st_nodes s !! k2 = Some n2 → k1 ≠ k2 →
  nd_ipv4 n1 ≠ nd_ipv4 n2 ∧ nd_ipv6 n1 ≠ nd_ipv6 n2.
Proof.
  intros Hr Hv Hn1 Hn2 Hne. pose proof (reachable_state_inv app st s Hr Hv) as Hinv.
  destruct (decide (nd_network_id n1 = nd_network_id n2)) as [Heq|Hdiff].
  - by eapply inv_distinct.
  - by eapply inv_distinct_networks.
Qed.

(** The addresses of a node of a reachable server read back as addresses of the
    blocks of its network, and the IPv4 address is neither the block's network
    address nor its broadcast address. *)
Theorem reachable_addresses_in_block st s k nd :
  reachable app st → view st = Some s → st_nodes s !! k = Some nd →
  ∃ n v4 v6 a b, st_networks s !! nd_network_id nd = Some n ∧
    ipv4net_parse (nw_overlay_v4 n) = Some v4 ∧ ipv6net_parse (nw_overlay_v6 n) = Some v6 ∧
    parse_ip (nd_ipv4 nd) = Some (V4 a) ∧ parse_ip (nd_ipv6 nd) = Some (V6 b) ∧
    ipv4net_contains v4 a = true ∧ ipv6net_contains v6 b = true ∧
    a ≠ ipv4net_network v4 ∧
    a ≠ ipv4net_network v4 + 2 ^ (32 - ipv4net_prefix_len v4) - 1.
Proof.
  intros Hr Hv Hk. pose proof (reachable_state_inv app st s Hr Hv) as Hinv.
  destruct (inv_node_addr _ _ _ Hinv k nd Hk) as (n & Hn & Ha).
  destruct (inv_alloc _ _ _ Hinv _ n Hn) as (v4 & v6 & Hok).
  destruct (addr_in_block n nd v4 v6 Ha Hok) as (a & b & -> & -> & R4 & R6 & B4 & B6).
  exists n, v4, v6, a, b. rewrite ipv4net_contains_spec, ipv6net_contains_spec by done.
  repeat split; try lia; try (by destruct Hok); try done.
  - exact (parse_print_ip (V4 a) R4).
  - exact (parse_print_ip (V6 b) R6).
Qed.
End Theorems.

Lemma demo_inv : inv demo_state.
Proof. apply (reachable_state_inv demo_app demo_store demo_state demo_reachable demo_view). Qed.
Lemma start_inv : inv start_state.
Proof. apply (reachable_state_inv demo_app start_store start_state start_reachable start_view). Qed.

Lemma reachable_invariant_witness : inv demo_state ∧ size (st_nodes demo_state) = 2%nat.
Proof.
  split; [|vm_compute; reflexivity].
  apply (reachable_invariant demo_app demo_store demo_state demo_reachable demo_view).
Defined.

Lemma reachable_addresses_unique_witness :
  nd_ipv4 (node_of demo_state alice_id) ≠ nd_ipv4 (node_of demo_state bob_id).
Proof.
  apply (reachable_addresses_unique demo_app demo_store demo_state alice_id bob_id
           (node_of demo_state alice_id) (node_of demo_state bob_id)
           demo_reachable demo_view demo_alice demo_bob).
  vm_compute. discriminate.
Defined.

Lemma reachable_addresses_in_block_witness :
  ∃ a, parse_ip (nd_ipv4 (node_of demo_state alice_id)) = Some (V4 a).
Proof.
  destruct (reachable_addresses_in_block demo_app demo_store demo_state alice_id
              (node_of demo_state alice_id) demo_reachable demo_view demo_alice)
    as (n & v4 & v6 & a & b & _ & _ & _ & Ha & _).
  exists a. exact Ha.
Defined.
