(* ===== verification/History.v ===== *)
(** * What no request takes back

    Every request only appends to the audit log and never lowers the revision, on
    success and on failure: the log is a record of everything that was done, and a
    client that polls for revisions above the last one it saw misses nothing. *)

From S2P Require Import Prelude Effects RustStd StdNet Externals Model Store SampleStore Ipam.
From S2P Require Import Keys Acl Auth Netmap Netid ApiHelpers Api Server Scenario.

(** [s] extends a state with audit log [log], revision [rev] and version [ver]. *)
Record extends (ver rev : Z) (log : list AuditEntry) (s : State) : Prop := {
  ex_version : st_version s = ver;
  ex_revision : rev ≤ st_revision s ≤ u64_max;
  ex_log : log `prefix_of` st_audit_log s;
}.

Section Frames.
Context `{IpNet} `{Crates} `{HashOrder}.
Context (app : AppState) (ver rev : Z) (log : list AuditEntry).

Lemma extends_audit action nid id detail :
  preserves (extends ver rev log) (audit (E := ApiError) action nid id detail).
Proof.
  intros w s [? ? ?]. destruct (audit_state (E := ApiError) action nid id detail w s)
    as (entry & w' & -> & _). split; simpl; [done..|]. by apply prefix_app_r.
Qed.

Lemma extends_modify (f : State → State) :
  (∀ s, st_version (f s) = st_version s ∧ st_revision (f s) = st_revision s ∧
        st_audit_log (f s) = st_audit_log s) →
  preserves (extends ver rev log) (modify f : M State ApiError unit).
Proof.
  intros Hf. apply triple_modify. intros s [? ? ?].
  destruct (Hf s) as (Ev & Er & El). split; by rewrite ?Ev, ?Er, ?El.
Qed.

Lemma extends_with_network {A} key (m : M NetworkState ApiError A) :
  preserves (extends ver rev log) (with_network key m).
Proof.
  intros w s [? ? ?]. unfold with_network. destruct (st_networks s !! key) as [n|]; [|done].
  by destruct (m w n) as [[[a|e] w1] n1].
Qed.

Lemma extends_with_node {A} key (m : M NodeState ApiError A) :
  preserves (extends ver rev log) (with_node key m).
Proof.
  intros w s [? ? ?]. unfold with_node. destruct (st_nodes s !! key) as [n|]; [|done].
  by destruct (m w n) as [[[a|e] w1] n1].
Qed.
End Frames.

(** Follow a closure: reads, audit entries and updates of the maps. *)
Ltac extends_step :=
  first
    [ solve [apply preserves_pure; unfold random_secret; solve_pure]
    | apply extends_audit | apply extends_with_network | apply extends_with_node
    | apply extends_modify; intros; by repeat case_match
    | apply preserves_bind; [|intros]
    | match goal with |- preserves _ (match ?x with _ => _ end) => destruct x end ].

Section Monotone.
Context `{IpNetLaws} `{Crates} `{HashOrder} `{SerdeLaws}.
Context (app : AppState).

Lemma extends_closed ver rev log : closed app true (extends ver rev log).
Proof.
  split; intros;
    unfold create_network_tx, delete_network_tx, update_acl_tx, update_key_policy_tx,
      create_token_tx, revoke_token_tx, register_tx, register_url_tx, approve_node_secret_tx,
      approve_node_tx, approve_audit, update_node_tx, rotate_keys_tx, revoke_node_tx,
      delete_node_tx, heartbeat_tx; repeat extends_step.
  match goal with Hx : extends _ _ _ _ |- _ => destruct Hx as [? ? ?] end.
  split; simpl; [done| |done]. unfold u64_saturating_add. lia.
Qed.

(** C24. Whatever a request does and however it ends, the audit log of the state in
    view afterwards has the log from before as a prefix, and the revision has not
    decreased (it saturates at the largest u64). *)
Theorem serve_extends_history r w st res w' st' s s' :
  request_typed r → serve app r w st = (res, w', st') →
  view st = Some s → view st' = Some s' → st_revision s ≤ u64_max →
  st_audit_log s `prefix_of` st_audit_log s' ∧ st_revision s ≤ st_revision s' ≤ u64_max.
Proof.
  intros Hty Hs Hv Hv' Hmax.
  pose proof (serve_preserves app true _ r
    (extends_closed (st_version s) (st_revision s) (st_audit_log s)) (λ _, eq_refl) Hty w st)
    as Hp.
  rewrite Hs in Hp. assert (extends (st_version s) (st_revision s) (st_audit_log s) s') as [];
    [|done].
  destruct res; apply Hp; try done; intros s0; rewrite Hv; intros [= <-];
    (split; [done|lia|done]).
Qed.
End Monotone.

Lemma serve_extends_history_witness :
  st_audit_log demo_state `prefix_of`
    st_audit_log (view_or_default
      (serve demo_app (PostNodeRevoke admin_headers alice_id) demo_world demo_store).2).
Proof.
  destruct (serve demo_app (PostNodeRevoke admin_headers alice_id) demo_world demo_store)
    as [[res w'] st'] eqn:Es.
  destruct (view st') as [s'|] eqn:Ev.
  - unfold view_or_default. cbn [snd]. rewrite Ev. cbn [default].
    apply (serve_extends_history demo_app (PostNodeRevoke admin_headers alice_id) demo_world
             demo_store res w' st' demo_state s' I Es demo_view Ev).
    vm_compute. discriminate.
  - exfalso. revert Ev.
    replace st' with
      (serve demo_app (PostNodeRevoke admin_headers alice_id) demo_world demo_store).2
      by (by rewrite Es).
    vm_compute. discriminate.
Defined.
