(* ===== verification/Names.v ===== *)
(** * Node names

    [ensure_unique_node_name] keeps the names of the live nodes of a network distinct
    up to ASCII case: registrations, renames and every other request preserve that,
    except [rotate_keys], which brings a revoked node back without checking its
    name. *)

From S2P Require Import Prelude Effects RustStd StdNet Externals Model Store SampleStore Ipam.
From S2P Require Import Keys Acl Auth Netmap Netid ApiHelpers Api Invariant Safety Server.
From S2P Require Import Scenario Reachability.

#[local] Opaque effective_node_status audit build_token with_network with_node
  ensure_unique_node_name.

Section Names.
Implicit Types nodes : gmap string NodeState.

(** Live nodes of one network differ in name. *)
Definition names_ok nodes : Prop := ∀ k1 k2 n1 n2,
  nodes !! k1 = Some n1 → nodes !! k2 = Some n2 → k1 ≠ k2 →
  nd_network_id n1 = nd_network_id n2 → nd_revoked_at n1 = None → nd_revoked_at n2 = None →
  to_ascii_lowercase (nd_name n1) ≠ to_ascii_lowercase (nd_name n2).
Definition names_unique (s : State) : Prop := names_ok (st_nodes s).

(** No other live node of the network has the name. *)
Definition name_free nodes (k nid name : string) : Prop := ∀ j m,
  nodes !! j = Some m → j ≠ k → nd_network_id m = nid → nd_revoked_at m = None →
  to_ascii_lowercase (nd_name m) ≠ to_ascii_lowercase name.

Lemma names_ok_insert nodes k n :
  names_ok nodes → (nd_revoked_at n = None → name_free nodes k (nd_network_id n) (nd_name n)) →
  names_ok (<[k := n]> nodes).
Proof.
  intros Hok Hfree k1 k2 n1 n2. rewrite !lookup_insert_Some.
  intros [[<- <-]|[? E1]] [[<- <-]|[? E2]] Hne Hnet R1 R2; [done|..].
  - apply not_eq_sym. by eapply Hfree.
  - by eapply Hfree.
  - by eapply Hok.
Qed.

(** An update that keeps the name and does not bring the node back to life. *)
Lemma names_ok_update nodes k n n' :
  names_ok nodes → nodes !! k = Some n → nd_network_id n' = nd_network_id n →
  nd_name n' = nd_name n → (nd_revoked_at n' = None → nd_revoked_at n = None) →
  names_ok (<[k := n']> nodes).
Proof.
  intros Hok Hk En Ename Hrev. apply names_ok_insert; [done|]. rewrite En, Ename.
  intros Hr j m Hj Hne Hnet Hm. eapply Hok; eauto.
Qed.

Lemma names_ok_delete nodes k : names_ok nodes → names_ok (delete k nodes).
Proof.
  intros Hok k1 k2 n1 n2. rewrite !lookup_delete_Some. intros [_ ?] [_ ?]. by eapply Hok.
Qed.

Lemma ensure_unique_free `{HashOrder} s nid name ex k :
  ensure_unique_node_name s nid name ex = Ok tt →
  (∀ j m, st_nodes s !! j = Some m → j ≠ k → ex ≠ Some (nd_id m)) →
  name_free (st_nodes s) k nid name.
Proof.
  intros Hu Hex j m Hj Hne Hnet Hrev.
  by eapply (proj1 (ensure_unique_node_name_spec s nid name ex)); eauto.
Qed.
End Names.

Section Transactions.
Context `{IpNetLaws} `{Crates} `{HashOrder}.
Context (app : AppState).
Implicit Types s : State.

(** What the requests keep: the checks on names rely on the invariant. *)
Definition named (s : State) : Prop := inv s ∧ names_unique s.

(** Updates of networks and tokens do not touch the nodes. *)
Lemma names_other :
  (∀ req n v4 v6, preserves names_unique (create_network_tx req n v4 v6)) ∧
  (∀ nid, preserves names_unique (delete_network_tx nid)) ∧
  (∀ nid req, preserves names_unique (update_acl_tx nid req)) ∧
  (∀ nid req, preserves names_unique (update_key_policy_tx nid req)) ∧
  (∀ nid req, preserves names_unique (create_token_tx nid req)) ∧
  (∀ tid now, preserves names_unique (revoke_token_tx tid now)).
Proof.
  destruct administration_keeps_nodes as (K1 & K2 & K3 & K4 & K5 & K6).
  repeat apply conj; intros; by apply (keeps_nodes_pred names_ok).
Qed.

(** A registration that got addresses: the check on its name was made before. *)
Lemma register_tx_names req name tok now :
  triple named (register_tx req name tok now) (λ _, names_unique) (λ _, names_unique).
Proof.
  intros w s [Hinv Hn]. unfold register_tx. tx_simpl.
  destruct (st_tokens s !! rq_token req) as [t|] eqn:Et; simpl; [|done].
  destruct (tk_expires_at t <=? now); simpl; [done|].
  destruct (tk_revoked_at t); simpl; [done|].
  destruct (tk_uses_left t =? 0); simpl; [done|].
  destruct (ensure_unique_node_name _ _ _ _) as [[]|e] eqn:Eu; simpl; [|done].
  destruct (st_networks s !! tk_network_id t) as [n|] eqn:En; simpl; [|done].
  pose proof (inv_network_id _ _ _ Hinv _ _ En) as Hid.
  rewrite (with_network_unfold _ _ _ _ _ En).
  destruct (allocate_node_ips w n) as [[[[ip4 ip6]|e] w1] n1]; [|done]. tx_simpl. tx_audit.
  rewrite Et. simpl. unfold names_unique.
  destruct (_ =? 0); simpl; apply names_ok_insert; simpl; try done; intros _;
    rewrite Hid; by eapply ensure_unique_free.
Qed.

Lemma register_url_tx_names req name tok now ex :
  triple named (register_url_tx req name tok now ex) (λ _, names_unique) (λ _, names_unique).
Proof.
  intros w s [Hinv Hn]. unfold register_url_tx. tx_simpl.
  destruct (ensure_unique_node_name _ _ _ _) as [[]|e] eqn:Eu; simpl; [|done].
  destruct (st_networks s !! ru_network_id req) as [n|] eqn:En; simpl; [|done].
  pose proof (inv_network_id _ _ _ Hinv _ _ En) as Hid.
  rewrite (with_network_unfold _ _ _ _ _ En).
  destruct (allocate_node_ips w n) as [[[[ip4 ip6]|e] w1] n1]; [|done]. tx_simpl. tx_audit.
  unfold names_unique. simpl. apply names_ok_insert; simpl; [done|]. intros _.
  rewrite Hid. by eapply ensure_unique_free.
Qed.

(** Approvals, revocations and heartbeats keep names and life. *)
Lemma approve_node_secret_tx_names nid secret now :
  triple named (approve_node_secret_tx nid secret now) (λ _, names_unique) (λ _, names_unique).
Proof.
  intros w s [Hinv Hn]. unfold approve_node_secret_tx. tx_simpl.
  destruct (st_nodes s !! nid) as [n|] eqn:En; simpl; [|done].
  destruct (nd_approved n); [done|]. destruct (nd_auth_secret n) as [a|]; simpl; [|done].
  case_bool_decide; simpl; [done|].
  destruct (nd_auth_expires_at n) as [x|]; [destruct (x <=? now)|]; simpl; try done;
    unfold approve_audit; tx_simpl; tx_audit; by eapply names_ok_update.
Qed.

Lemma approve_node_tx_names nid now :
  triple named (approve_node_tx nid now) (λ _, names_unique) (λ _, names_unique).
Proof.
  intros w s [Hinv Hn]. unfold approve_node_tx. tx_simpl.
  destruct (st_nodes s !! nid) as [n|] eqn:En; simpl; [|done].
  destruct (nd_approved n); [done|].
  unfold approve_audit. tx_simpl. tx_audit. by eapply names_ok_update.
Qed.

Lemma revoke_node_tx_names nid now :
  triple named (revoke_node_tx nid now) (λ _, names_unique) (λ _, names_unique).
Proof.
  intros w s [Hinv Hn]. unfold revoke_node_tx. tx_simpl.
  destruct (st_nodes s !! nid) as [n|] eqn:En; simpl; [|done]. tx_simpl. tx_audit.
  by eapply names_ok_update.
Qed.

Lemma delete_node_tx_names nid :
  triple named (delete_node_tx nid) (λ _, names_unique) (λ _, names_unique).
Proof.
  intros w s [Hinv Hn]. unfold delete_node_tx. tx_simpl.
  destruct (st_nodes s !! nid) as [n|] eqn:En; simpl; [|done]. tx_simpl. tx_audit.
  by apply names_ok_delete.
Qed.

Lemma heartbeat_tx_names headers nid eps routes probe now :
  triple named (heartbeat_tx app headers nid eps routes probe now)
    (λ _, names_unique) (λ _, names_unique).
Proof.
  intros w s [Hinv Hn]. unfold heartbeat_tx. tx_simpl.
  destruct (st_nodes s !! nid) as [n|] eqn:En; simpl; [|done].
  destruct (require_node _ _ _) as [[]|e]; simpl; [|done].
  eapply names_ok_update; eauto; by destruct (unwrap_or probe false).
Qed.

(** A rename was checked against every node but the renamed one. *)
Lemma update_node_tx_names nid req now :
  triple named (update_node_tx nid req now) (λ _, names_unique) (λ _, names_unique).
Proof.
  intros w s [Hinv Hn]. unfold update_node_tx. tx_simpl.
  destruct (st_nodes s !! nid) as [n|] eqn:En; simpl; [|done].
  destruct (next_node_name s n req) as [nn|e] eqn:Enn; simpl; [|done].
  match goal with |- context [<[nid := ?x]> (st_nodes s)] => set (n' := x) end.
  assert (names_ok (<[nid := n']> (st_nodes s))) as Hok.
  { assert (nd_network_id n' = nd_network_id n ∧ nd_revoked_at n' = nd_revoked_at n ∧
            nd_name n' = match nn with Some m => m | None => nd_name n end) as (E1 & E2 & E3)
      by (unfold n'; by destruct nn, (next_node_tags n req)).
    apply names_ok_insert; [done|]. rewrite E1, E2, E3. intros Hrev. destruct nn as [m|].
    - unfold next_node_name in Enn. destruct (un_name req) as [raw|]; [|done].
      destruct (normalize_node_name raw) as [norm|]; [|done]. case_bool_decide; [done|].
      destruct (ensure_unique_node_name _ _ _ _) as [[]|e] eqn:Eu; [|done].
      injection Enn as <-. eapply ensure_unique_free; [exact Eu|]. intros j x Hj Hne.
      rewrite (inv_node_id _ _ _ Hinv _ _ En), (inv_node_id _ _ _ Hinv _ _ Hj). congruence.
    - intros j x Hj Hne Hnet Hr. by eapply Hn. }
  match goal with |- context [st_networks s !! ?k] =>
    destruct (st_networks s !! k) as [nw|]; simpl; [|exact Hok] end.
  destruct (effective_node_status _ _ _) as [ap rot].
  case_bool_decide; simpl; [exact Hok|]. tx_audit. exact Hok.
Qed.
End Transactions.

Section Theorems.
Context `{IpNetLaws} `{Crates} `{HashOrder} `{SerdeLaws}.
Context (app : AppState).

Lemma named_frame {A} (m : M State ApiError A) :
  preserves inv m → preserves names_unique m → preserves named m.
Proof.
  intros Hi Hm. apply preserves_and; [done|].
  apply triple_conseq with names_unique (λ _, names_unique) (λ _, names_unique); auto.
  by intros s [].
Qed.

Lemma named_closed : closed app false named.
Proof.
  destruct names_other as (N1 & N2 & N3 & N4 & N5 & N6).
  destruct (inv_closed app) as [_ C1 C2 C3 C4 C5 C6 C7 C8 C9 C10 C11 _ C13 C14 C15].
  split; intros; try done; first [solve [apply named_frame; eauto]|apply preserves_and; eauto].
  - apply register_tx_names.
  - apply register_url_tx_names.
  - apply approve_node_secret_tx_names.
  - apply approve_node_tx_names.
  - apply update_node_tx_names.
  - apply revoke_node_tx_names.
  - apply delete_node_tx_names.
  - apply heartbeat_tx_names.
Qed.

Lemma run_keeps (rs : list Request) w st (I : State → Prop) :
  closed app false I → Forall request_typed rs → Forall (λ r, is_rotation r = false) rs →
  on_view I st → on_view I (run app rs w st).2.
Proof.
  intros Hc Hty Hrot. revert w st.
  induction rs as [|r rs IH]; intros w st Hst; [done|].
  apply Forall_cons in Hty as [Hr Hty]. apply Forall_cons in Hrot as [Hn Hrot]. simpl.
  pose proof (serve_preserves app false I r Hc ltac:(congruence) Hr w st Hst) as Hp.
  destruct (serve app r w st) as [[res w1] st1].
  specialize (IH Hty Hrot w1 st1 ltac:(by destruct res)).
  by destruct (run app rs w1 st1) as [[l w2] st2].
Qed.

(** C8. As long as nobody rotates keys, whatever requests a fresh server serves, two
    live nodes of one network never have names that agree up to ASCII case. *)
Theorem run_names_unique rs w st s :
  view st = Some State_default → Forall request_typed rs →
  Forall (λ r, is_rotation r = false) rs → view (run app rs w st).2 = Some s →
  names_unique s.
Proof.
  intros Hv Hty Hrot. apply (run_keeps rs w st named named_closed Hty Hrot).
  intros s0. rewrite Hv. intros [= <-]. split; [apply inv_default|].
  intros k1 k2 n1 n2 Hk. simpl in Hk. by apply lookup_empty_Some in Hk.
Qed.
End Theorems.

Lemma run_names_unique_witness :
  names_unique demo_state ∧ size (st_nodes demo_state) = 2%nat.
Proof.
  split; [|vm_compute; reflexivity].
  apply (run_names_unique demo_app demo_requests demo_world empty_store demo_state eq_refl
           demo_requests_typed).
  - repeat constructor.
  - exact demo_view.
Defined.
