(* ===== verification/Access.v ===== *)
(** * Who may do what

    Two groups of routes are guarded: the administration routes by the server's admin
    token, the routes of a node by that node's token (or the admin token).  A request
    without the right token is refused and leaves the store as it was. *)

From S2P Require Import Prelude Effects RustStd StdNet Externals Model Store SampleStore Ipam.
From S2P Require Import Keys Acl Auth Netmap Netid ApiHelpers Api Server Scenario.

(** The routes of the administrator, with their headers. *)
Definition admin_route (r : Request) : option HeaderMap :=
  match r with
  | PostNetworks h _ | DeleteNetwork h _ | GetTokens h _ | PostTokens h _ _ | GetAcl h _
  | PutAcl h _ _ | GetKeyPolicy h _ | PutKeyPolicy h _ _ | PostTokenRevoke h _
  | PostNodeApprove h _ | PostNodeRevoke h _ | DeleteNode h _ | GetAdminNodes h _
  | GetTopology h | PutNode h _ _ | GetAudit h _ => Some h
  | _ => None
  end.

(** The routes of a node, with their headers and the node. *)
Definition node_route (r : Request) : option (HeaderMap * string) :=
  match r with
  | PostRotateKeys h k _ | GetNodeKeys h k | GetNetmap h k | GetNetmapPoll h k => Some (h, k)
  | PostHeartbeat h _ req => Some (h, hb_node_id req)
  | _ => None
  end.

Section Failures.
Context `{SerdeLaws}.
Context {R : Type}.
Implicit Types (f : M State ApiError R) (v : option State).

(** A closure that fails on the state in view without changing it. *)
Definition refuses f v : Prop :=
  ∀ s w, v = Some s → ∃ e w', f w s = (Err e, w', s).

(** A handler that fails and leaves the state in view as it was. *)
Definition rejects {E A} (m : M StateStore E A) v : Prop :=
  ∀ w st, view st = v → ∃ e w' st', m w st = (Err e, w', st') ∧ view st' = v.

Lemma rejects_write f v : refuses f v → rejects (write f) v.
Proof.
  intros Hf w st <-. destruct (write f w st) as [[res w'] st'] eqn:Ew.
  apply write_simulates in Ew.
  assert (∀ s w r w1 s1, view st = Some s → f w s = (r, w1, s1) → ∃ e, r = Err e ∧ s1 = s)
    as Hrun.
  { intros s w0 r w1 s1 Hv Hr. destruct (Hf s w0 Hv) as (e & w2 & Hfail).
    rewrite Hr in Hfail. injection Hfail as -> -> ->. eauto. }
  inversion Ew; subst;
    match goal with
    | Hv : Some _ = view st, Hr : f _ _ = _ |- _ =>
        destruct (Hrun _ _ _ _ _ (eq_sym Hv) Hr) as (? & ? & ?); simplify_eq; eauto 6
    | _ => eauto 6
    end.
Qed.

Lemma rejects_read f v : refuses f v → rejects (read f) v.
Proof.
  intros Hf w st Hv. destruct (read f w st) as [[[r|e] w'] st'] eqn:Er.
  - apply read_view in Er as (s & w0 & w1 & s1 & Hs & Hrun).
    destruct (Hf s w0) as (e & w2 & Hfail); congruence.
  - pose proof (read_pure f w st) as Hp. rewrite Er in Hp. simpl in Hp. subst. eauto 6.
Qed.

Lemma rejects_store_call {A} (m : M StateStore (AnyErr ApiError) A) v :
  rejects m v → rejects (store_call m) v.
Proof.
  intros Hm w st Hv. destruct (Hm w st Hv) as (e & w' & st' & E & Hv').
  unfold store_call. rewrite E. simpl. eauto 6.
Qed.

Lemma rejects_bind {E A B} (m : M StateStore E A) (k : A → M StateStore E B) v :
  rejects m v → rejects (m ≫= k) v.
Proof.
  intros Hm w st Hv. destruct (Hm w st Hv) as (e & w' & st' & Eq & Hv').
  unfold mbind, M_bind. rewrite Eq. eauto 6.
Qed.

Lemma rejects_then {E A B} (m : M StateStore E A) (k : A → M StateStore E B) v :
  pure_on m → (∀ a, rejects (k a) v) → rejects (m ≫= k) v.
Proof.
  intros Hp Hk w st Hv. specialize (Hp w st). unfold mbind, M_bind.
  destruct (m w st) as [[[a|e] w'] st']; simpl in Hp; subst st'; [by apply Hk|eauto 6].
Qed.
End Failures.

Section Access.
Context `{IpNet} `{Crates} `{HashOrder} `{SerdeLaws}.
Context (app : AppState).

Lemma admin_route_denied r headers t w st :
  app_admin_token app = Some t → admin_route r = Some headers →
  bearer_token headers ≠ Some t →
  serve app r w st = (Err (Unauthorized "admin token required"), w, st).
Proof.
  intros Ht Hr Hb.
  assert (require_admin headers (app_admin_token app)
          = Err (Unauthorized "admin token required")) as Hreq.
  { rewrite Ht. unfold require_admin. destruct (bearer_token headers) as [b|]; [|done].
    by rewrite bool_decide_eq_false_2 by congruence. }
  destruct r; simpl in Hr; try discriminate Hr; injection Hr as ->;
    unfold serve, status, create_network, delete_network, list_tokens, create_token, get_acl,
      update_acl, get_key_policy, update_key_policy, revoke_token, approve_node, revoke_node,
      delete_node, admin_nodes, admin_topology, update_node, audit_log;
    unfold mbind, M_bind; by rewrite Hreq.
Qed.

(** With an admin token configured, every administration route refuses a request
    that does not carry it as its bearer token, before anything else: no store
    access, no clock reading, no random draw is made. *)
Theorem admin_route_refused r headers t w st :
  app_admin_token app = Some t → admin_route r = Some headers →
  bearer_token headers ≠ Some t →
  serve app r w st = (Err (Unauthorized "admin token required"), w, st).
Proof. apply admin_route_denied. Qed.

Lemma require_node_fails headers node t :
  nd_node_token node = Some t →
  (∀ b, bearer_token headers = Some b → b ≠ t ∧ app_admin_token app ≠ Some b) →
  ∃ e, require_node headers (app_admin_token app) node = Err e.
Proof.
  intros Ht Hb. destruct (require_node _ _ _) as [[]|e] eqn:E; [|eauto].
  apply (require_node_spec _ _ _ _ Ht) in E as (b & Hbear & Hor). naive_solver.
Qed.

(** Every closure of a node route looks the node up and checks its token first. *)
Lemma node_closures_refuse headers k s node e :
  st_nodes s !! k = Some node → require_node headers (app_admin_token app) node = Err e →
  (∀ req now, refuses (rotate_keys_tx app headers k req now) (Some s)) ∧
  (∀ eps routes p now, refuses (heartbeat_tx app headers k eps routes p now) (Some s)) ∧
  refuses (node_keys_rd app headers k) (Some s) ∧
  (∀ relay, refuses (netmap_rd app headers k relay) (Some s)) ∧
  (∀ relay, refuses (poll_read headers (app_admin_token app) k relay) (Some s)).
Proof.
  intros Hn He. repeat apply conj; intros; intros s0 w [= <-]; exists e, w;
    unfold rotate_keys_tx, with_node, rotate_keys_node, heartbeat_tx, node_keys_rd, netmap_rd,
      poll_read, mbind, M_bind, get; rewrite Hn; simpl; rewrite He; simpl; try done.
  unfold put_node. rewrite insert_id by done. by destruct s.
Qed.

(** C23. The routes of a node that holds a node token refuse a request whose bearer
    token is neither that token nor the admin token, and the state in view is
    unchanged. *)
Theorem node_route_refused r headers k t node w st s :
  node_route r = Some (headers, k) → view st = Some s →
  st_nodes s !! k = Some node → nd_node_token node = Some t →
  (∀ b, bearer_token headers = Some b → b ≠ t ∧ app_admin_token app ≠ Some b) →
  ∃ e w' st', serve app r w st = (Err e, w', st') ∧ view st' = view st.
Proof.
  intros Hr Hv Hn Ht Hb. destruct (require_node_fails headers node t Ht Hb) as [e He].
  destruct (node_closures_refuse headers k s node e Hn He) as (R1 & R2 & R3 & R4 & R5).
  rewrite Hv. revert w st Hv. change (rejects (serve app r) (Some s)).
  destruct r; simpl in Hr; try discriminate Hr; injection Hr as -> Hk; subst k;
    simpl; apply rejects_bind.
  - apply rejects_then; [apply pure_fail_if|intros _].
    apply rejects_then; [apply pure_now|intros now].
    by apply rejects_bind, rejects_store_call, rejects_write.
  - by apply rejects_bind, rejects_store_call, rejects_read.
  - apply rejects_then; [apply pure_now|intros now].
    by apply rejects_bind, rejects_store_call, rejects_write.
  - by apply rejects_store_call, rejects_read.
  - by apply rejects_store_call, rejects_read.
Qed.
End Access.

Lemma admin_route_refused_witness :
  serve demo_app (DeleteNode no_headers alice_id) demo_world demo_store =
  (Err (Unauthorized "admin token required"), demo_world, demo_store).
Proof.
  apply (admin_route_refused demo_app (DeleteNode no_headers alice_id) no_headers "admin"
           demo_world demo_store eq_refl eq_refl).
  vm_compute. discriminate.
Defined.

Lemma node_route_refused_witness :
  ∃ e w' st', serve demo_app (GetNetmap no_headers alice_id) demo_world demo_store
              = (Err e, w', st') ∧ view st' = view demo_store.
Proof.
  apply (node_route_refused demo_app (GetNetmap no_headers alice_id) no_headers alice_id
           (b64url_encode (replicate 32 (byte_of 2))) (node_of demo_state alice_id) demo_world
           demo_store demo_state eq_refl demo_view demo_alice).
  - vm_compute. reflexivity.
  - intros b Hb. vm_compute in Hb. discriminate.
Defined.
