(* ===== verification/Durability.v ===== *)
(** * What the store promises, and what reaches the disk

    The contract of [StateStore::write] on both backends, the restart behaviour of the
    file store, and the interleavings of concurrent writers: [write] releases the lock
    before it persists its snapshot, so the file writes of several requests can overlap. *)

From S2P Require Import Prelude Effects RustStd StdNet Externals Model Store SampleStore Ipam.
From S2P Require Import Keys Acl Auth Netmap Netid ApiHelpers Api Invariant Safety Server.
From S2P Require Import Scenario.

Section Contract.
Context `{SerdeLaws}.
Context {E R : Type}.
Implicit Types f : M State E R.

(** C3. Every outcome of [write], on either backend and with any I/O failures, is a
    step of the abstract store: a success is one run of the closure on the state in
    view followed by a revision increment; an error of the closure is passed on,
    with the state rolled back by the database and kept as the closure left it by
    the file store; after an I/O failure the whole step has happened or none of
    it. *)
Theorem write_refines_store_step f w st res w' st' :
  write f w st = (res, w', st') → store_step (is_db st) f (view st) res (view st').
Proof. apply write_simulates. Qed.

(** A database store rolls a failed closure back: the state that later requests
    see is the one from before. *)
Lemma write_db_error_rolls_back f w st e w' st' :
  is_db st = true → write f w st = (Err (Raised e), w', st') → view st' = view st.
Proof.
  intros Hdb Hw. apply write_simulates in Hw. rewrite Hdb in Hw.
  remember (Err (Raised e)) as res. destruct Hw; simplify_eq; done.
Qed.

(** The path of a store. *)
Definition store_path (st : StateStore) : option PathBuf :=
  match ss_backend st with File fs => fs_path fs | Db _ => None end.

Lemma persist_file_contents p s w st w' st' :
  persist_file (E := E) (Some p) s w st = (Ok tt, w', st') →
  ss_files st' !! path_text p = Some (state_to_json s).
Proof.
  unfold persist_file. intros Hp. run_inv Hp. clear Hrun. run_inv Hp.
  unfold io in Hrun. injection Hrun as <- _ <-.
  destruct (w_io _ _) as [|[c|]]; [|by run_inv Hp..].
  injection Hp as _ <-. simpl. apply lookup_insert_eq.
Qed.

(** A path without a directory part, or with an empty one. *)
Definition bare_path (p : PathBuf) : bool :=
  match path_parent p with Some d => is_empty d | None => true end.

(** A [write] that is cut short can cost everything: when the file is left with
    text that does not parse, the caller gets an error, the running server has the
    new state, and a restarted server starts from the empty default state without
    reporting anything. *)
Theorem torn_write_restarts_empty f w s p r w1 s1 files partial :
  bare_path p = true → f w s = (Ok r, w1, s1) →
  w_io w1 (w_ios w1) = IoFail (Some partial) → state_from_json partial = None →
  let st := mkStateStore (File (mkFileStore s (Some p))) files in
  let '(res, _, st') := write f w st in
  res = Err Failed ∧ view st' = Some (bump_revision s1) ∧
  view (load (Some p) (ss_files st') IoOk) = Some State_default.
Proof.
  intros Hp Hf Hio Hbad. unfold write. simpl. rewrite write_locked_run, Hf.
  unfold mbind, M_bind, persist_file. unfold bare_path in Hp.
  assert (match path_parent p with
          | Some parent => if is_empty parent then mret tt else io_ok (E := E)
          | None => mret tt
          end = mret tt) as ->
    by (destruct (path_parent p) as [d|]; [by rewrite Hp|done]).
  unfold mbind, M_bind, io. simpl. rewrite Hio. simpl. split; [done|]. split; [done|].
  unfold load, load_state, view. simpl. rewrite lookup_insert_eq, Hbad. done.
Qed.

(** Opening a database store: afterwards the state in view is the one the row
    holds, or the default state when there was no row. *)
Theorem load_db_view (db : DbStore) w st w' st' :
  load_db (E := E) db w st = (Ok tt, w', st') →
  view st' = match db_row db with
             | Some row => state_from_json row
             | None => Some State_default
             end.
Proof.
  intros Hl. unfold load_db in Hl. run_inv Hl. clear Hrun.
  run_inv Hl. injection Hrun as _ _ <-.
  set (opened (st : StateStore) := ss_backend st = Db db).
  assert (triple opened (init_db (E := E) db)
    (λ _ st, view st = match db_row db with
                       | Some row => state_from_json row
                       | None => Some State_default
                       end) (λ _ _, True)) as Ht.
  { unfold init_db. apply triple_bind_pure; [by intros ? ?|done|intros v].
    destruct (match v with IoOk => _ | _ => _ end) eqn:Ec.
    all: repeat (apply triple_bind_pure;
      [first [apply io_ok_pure|apply pure_ret|by destruct (_ : bool); auto using io_ok_pure]
      |done|intros _]).
    all: destruct (db_row db) as [row|] eqn:Er;
      [|apply triple_bind_pure; [apply io_ok_pure|done|intros _]];
      intros w2 st2 Ho; unfold commit_db, mbind, M_bind, io;
      destruct (w_io w2 (w_ios w2)) as [|[c|]]; simpl; try done.
    all: unfold view; simpl; rewrite ?state_from_to_json; try done.
    all: unfold opened in Ho; by rewrite Ho, Er. }
  match type of Hl with init_db db ?wa ?sa = _ => specialize (Ht wa sa eq_refl) end.
  by rewrite Hl in Ht.
Qed.
End Contract.

(** ** Concurrent writers of the file store

    [write] drops the lock before [persist_file], and [tokio::fs::write] runs
    [std::fs::write] on a thread of its own: it truncates the file and then writes the
    text from its beginning, in as many pieces as the system takes.  So the persisting
    halves of several requests can overlap. *)

(** One [write(2)] at an offset: it replaces what is there, extends the file, and fills a
    gap beyond its end with zero bytes. *)
Fixpoint string_drop (n : nat) (text : string) : string :=
  match n, text with
  | S n, String _ text => string_drop n text
  | _, _ => text
  end.
Fixpoint write_at (offset : nat) (chunk text : string) : string :=
  match offset, text with
  | O, _ => chunk +:+ string_drop (String.length chunk) text
  | S offset, EmptyString => String Ascii.zero (write_at offset chunk "")
  | S offset, String c text => String c (write_at offset chunk text)
  end.

Lemma string_app_nil (s : string) : s +:+ "" = s.
Proof. induction s as [|c s IH]; [done|exact (f_equal (String c) IH)]. Qed.

Lemma write_at_end chunk text : write_at (String.length text) chunk text = text +:+ chunk.
Proof.
  induction text as [|c text IH]; [simpl|exact (f_equal (String c) IH)].
  replace (string_drop (String.length chunk) "") with "" by by destruct chunk.
  apply string_app_nil.
Qed.

Lemma string_app_assoc (a b c : string) : a +:+ b +:+ c = (a +:+ b) +:+ c.
Proof. induction a as [|x a IH]; [done|exact (f_equal (String x) IH)]. Qed.
Lemma string_app_length (a b : string) :
  String.length (a +:+ b) = (String.length a + String.length b)%nat.
Proof. induction a as [|x a IH]; [done|exact (f_equal S IH)]. Qed.
Lemma delete_insert_eq {A} (l : list A) i x : delete i (<[i := x]> l) = delete i l.
Proof. revert i. induction l as [|y l IH]; intros [|i]; simpl; [done..|by f_equal/=]. Qed.

(** How far a request has come with persisting its snapshot: not begun; the file is open,
    [rest] is to be written and [offset] is where. *)
Inductive WritePhase : Type :=
  | Todo
  | Writing (rest : string) (offset : nat).
Record PendingWrite : Type := mkPending {
  pd_state : State;
  pd_phase : WritePhase;
}.

(** What has happened: a request took its snapshot, a closure was refused, a snapshot was
    persisted and its request answered Ok, persisting a snapshot failed. *)
Inductive WriteEntry : Type :=
  | Taken (s : State)
  | Refused
  | Written (s : State)
  | Lost (s : State).
#[export] Instance entry_refused_dec e : Decision (e = Refused).
Proof. destruct e; [right|left|right|right]; congruence. Defined.

(** The memory, the state file, the snapshots that are not yet persisted, and the log,
    newest first. *)
Record Writers : Type := mkWriters {
  wr_memory : State;
  wr_file : option string;
  wr_pending : list PendingWrite;
  wr_log : list WriteEntry;
}.

Section Interleaving.
Context `{SerdeLaws}.

(** The steps of the requests that are in [write] and [persist_file]: under the lock, the
    closure and the snapshot, or the refusal; then, at any pace, the file is created or
    truncated, and the text written in pieces; any of this can fail. *)
Inductive writers_step : Writers → Writers → Prop :=
  | ws_locked {R E} (f : M State E R) w r snapshot w' m m' d p l :
      write_locked f w m = (Ok (r, snapshot), w', m') →
      writers_step (mkWriters m d p l)
        (mkWriters m' d (p ++ [mkPending snapshot Todo]) (Taken snapshot :: l))
  | ws_refused {R E} (f : M State E R) w e w' m m' d p l :
      write_locked f w m = (Err e, w', m') →
      writers_step (mkWriters m d p l) (mkWriters m' d p (Refused :: l))
  | ws_open i s m d p l :
      p !! i = Some (mkPending s Todo) →
      writers_step (mkWriters m d p l)
        (mkWriters m (Some "") (<[i := mkPending s (Writing (state_to_json s) 0)]> p) l)
  | ws_chunk i s chunk rest offset m text p l :
      p !! i = Some (mkPending s (Writing (chunk +:+ rest) offset)) →
      writers_step (mkWriters m (Some text) p l)
        (mkWriters m (Some (write_at offset chunk text))
           (<[i := mkPending s (Writing rest (offset + String.length chunk))]> p) l)
  | ws_done i s offset m d p l :
      p !! i = Some (mkPending s (Writing "" offset)) →
      writers_step (mkWriters m d p l) (mkWriters m d (delete i p) (Written s :: l))
  | ws_fail i s phase m d p l :
      p !! i = Some (mkPending s phase) →
      writers_step (mkWriters m d p l) (mkWriters m d (delete i p) (Lost s :: l)).

(** A server whose memory is [s] and whose file holds [d]. *)
Definition started (s : State) (d : option string) : Writers := mkWriters s d [] [].

(** Runs in which no request takes a snapshot while another is persisting its own. *)
Definition solo_step (c c' : Writers) : Prop :=
  writers_step c c' ∧ (length (wr_pending c') ≤ 1)%nat.

(** The newest entry that is not a refusal *)
Definition last_write (l : list WriteEntry) : option WriteEntry :=
  head (filter (λ e, e ≠ Refused) l).

(** [s] is the newest snapshot, and the memory as well unless a closure was refused
    since. *)
Definition newest (c : Writers) (s : State) : Prop :=
  ∃ since older, wr_log c = since ++ Taken s :: older ∧
    Forall (λ e, e = Refused ∨ e = Written s) since ∧
    (Refused ∉ since → wr_memory c = s).

(** The text of [s] that is in the file so far. *)
Definition phase_ok (file : option string) (s : State) (phase : WritePhase) : Prop :=
  match phase with
  | Todo => True
  | Writing rest offset =>
      ∃ text, file = Some text ∧ offset = String.length text ∧ state_to_json s = text +:+ rest
  end.

Definition solo_inv (c : Writers) : Prop :=
  match wr_pending c with
  | [] => ∀ s, last_write (wr_log c) = Some (Written s) →
      wr_file c = Some (state_to_json s) ∧ newest c s
  | [mkPending s phase] => newest c s ∧ phase_ok (wr_file c) s phase ∧
      last_write (wr_log c) = Some (Taken s)
  | _ => False
  end.
Lemma solo_pending m d p l i pd :
  solo_inv (mkWriters m d p l) → p !! i = Some pd → i = 0%nat ∧ p = [pd].
Proof.
  unfold solo_inv. simpl. destruct p as [|q [|q' p]]; [by rewrite lookup_nil| |by destruct q].
  destruct i; [by intros _ [= ->]|]. simpl. by rewrite lookup_nil.
Qed.

(** While requests persist one at a time, the file follows the newest snapshot. *)
Lemma solo_inv_step c c' : solo_step c c' → solo_inv c → solo_inv c'.
Proof.
  intros [Hs Hlen] HI.
  destruct Hs as [R E f w r sn w' m m' d p l Hf|R E f w e w' m m' d p l Hf|i s m d p l Hi
                 |i s chunk rest off m text p l Hi|i s off m d p l Hi|i s ph m d p l Hi];
    try (destruct (solo_pending _ _ _ _ _ _ HI Hi) as [-> ->]; clear Hi);
    unfold solo_inv in *; simpl in *.
  - destruct p as [|q p]; [|rewrite length_app in Hlen; simpl in Hlen; lia]. simpl.
    assert (m' = sn) as -> by
      (rewrite write_locked_run in Hf; destruct (f w m) as [[[?|?] ?] ?]; by simplify_eq).
    split; [|done]. by exists [], l.
  - assert (∀ s, newest (mkWriters m d p l) s → newest (mkWriters m' d p (Refused :: l)) s) as Hn.
    { intros s (since & older & Hlog & Hq & _). simpl in Hlog. subst l.
      exists (Refused :: since), older. split; [done|]. split; [constructor; auto|]. set_solver. }
    destruct p as [|[s ph] [|]]; [|naive_solver..].
    intros s Hl. destruct (HI s Hl). auto.
  - destruct HI as (Hn & _ & Hl). split; [exact Hn|]. split; [by exists ""|done].
  - destruct HI as (Hn & (text' & [= <-] & -> & Ht) & Hl).
    split; [exact Hn|]. split; [|done]. exists (text +:+ chunk).
    rewrite write_at_end, string_app_length, Ht. by rewrite string_app_assoc.
  - destruct HI as ((since & older & Hlog & Hq & Hm) & (text & Hd & _ & Ht) & _).
    simpl in *. intros s' [= <-]. split; [by rewrite Ht, string_app_nil|].
    exists (Written s :: since), older. rewrite Hlog. split; [done|].
    split; [constructor; auto|]. simpl. set_solver.
  - done.
Qed.

(** C25. As long as no request takes a snapshot while another is persisting its own, with
    any closures refused and any writes failing on the way: whenever no write is under
    way and the last one was acknowledged, a server restarted from the file sees exactly
    the state that write committed, which is the newest snapshot, and the memory of the
    old server unless a closure was refused since. *)
Theorem write_durable s d c s' p files :
  rtc solo_step (started s d) c → wr_pending c = [] →
  last_write (wr_log c) = Some (Written s') → files !! path_text p = wr_file c →
  view (load (Some p) files IoOk) = Some s' ∧ newest c s'.
Proof.
  intros Hr Hp Hl Hf.
  assert (solo_inv c) as HI by (eapply rtc_keeps; [apply solo_inv_step|exact Hr|done]).
  unfold solo_inv in HI. rewrite Hp in HI. destruct (HI s' Hl) as [Hw Hn]. split; [|done].
  unfold load, load_state, view. simpl. by rewrite Hf, Hw, state_from_to_json.
Qed.

(** A request that runs [write] without another one in between is such a run. *)
Lemma write_solo_run {R E} (f : M State E R) w st res w' st' fs p l :
  ss_backend st = File fs → fs_path fs = Some p → write f w st = (res, w', st') →
  res ≠ Err Failed →
  ∃ m s, rtc solo_step (mkWriters (fs_inner fs) (ss_files st !! path_text p) [] l)
      (mkWriters m (ss_files st' !! path_text p) []
         match res with Ok _ => Written s :: Taken s :: l | Err _ => Refused :: l end) ∧
    view st' = Some m ∧ (is_ok res = true → m = s).
Proof.
  intros Eb Ep. unfold write. rewrite Eb.
  destruct (write_locked f w (fs_inner fs)) as [[[[r sn]|e] w1] m] eqn:Ef.
  - rewrite Ep. intros Hw Hres.
    assert (m = sn) as -> by
      (rewrite write_locked_run in Ef; destruct (f w (fs_inner fs)) as [[[?|?] ?] ?]; by simplify_eq).
    destruct res as [r'|e]; cycle 1.
    { exfalso. apply Hres. f_equal. revert Hw. unfold mbind, M_bind.
      destruct (persist_file _ _ _ _) as [[[u|e'] w2] st2] eqn:Epf; [done|].
      intros [= <- _ _]. by apply persist_file_error in Epf. }
    destruct (bind_ok_inv _ _ _ _ _ _ _ Hw) as ([] & w2 & st2 & Hpf & Hret).
    injection Hret as _ _ ->.
    pose proof (persist_file_backend (E := E) (Some p) sn w1 (set_inner sn fs st)) as Hb.
    rewrite Hpf in Hb. simpl in Hb. apply persist_file_contents in Hpf. rewrite Hpf.
    exists sn, sn. split; [|split; [unfold view; by rewrite Hb|done]].
    eapply rtc_l; [split; [by eapply (ws_locked f)|simpl; lia]|].
    eapply rtc_l; [split; [by apply (ws_open 0 sn)|simpl; lia]|].
    eapply rtc_l; [split; [apply (ws_chunk 0 sn (state_to_json sn) ""); simpl; by rewrite string_app_nil|simpl; lia]|].
    eapply rtc_l; [split; [by eapply (ws_done 0 sn)|simpl; lia]|].
    pose proof (write_at_end (state_to_json sn) "") as Hat. simpl in Hat |- *. rewrite Hat.
    apply rtc_refl.
  - intros [= <- <- <-] _. exists m, m. split; [|done].
    eapply rtc_l; [split; [by eapply (ws_refused f)|simpl; lia]|]. apply rtc_refl.
Qed.

(** The part of a request that persists, on its own: opened, written in one piece and
    acknowledged. *)
Lemma persist_steps m p l i s text :
  p !! i = Some (mkPending s (Writing (state_to_json s) 0)) →
  rtc writers_step (mkWriters m (Some text) p l)
    (mkWriters m (Some (write_at 0 (state_to_json s) text)) (delete i p) (Written s :: l)).
Proof.
  intros Hi.
  eapply rtc_l; [apply (ws_chunk i s (state_to_json s) ""); by rewrite string_app_nil|].
  eapply rtc_l; [eapply (ws_done i s); apply list_lookup_insert_eq;
                 by eapply lookup_lt_Some|].
  rewrite delete_insert_eq. apply rtc_refl.
Qed.

Lemma persist_from_todo m d p l i s :
  p !! i = Some (mkPending s Todo) →
  rtc writers_step (mkWriters m d p l)
    (mkWriters m (Some (state_to_json s)) (delete i p) (Written s :: l)).
Proof.
  intros Hi. eapply rtc_l; [by apply (ws_open i s)|].
  pose proof (write_at_end (state_to_json s) "") as Hat. simpl in Hat. rewrite <- Hat at 2.
  rewrite <- (delete_insert_eq p i (mkPending s (Writing (state_to_json s) 0))).
  apply persist_steps, list_lookup_insert_eq. by eapply lookup_lt_Some.
Qed.

(** Two requests take their snapshots, one after the other. *)
Lemma two_snapshots {R1 R2 E1 E2} (f : M State E1 R1) (g : M State E2 R2)
    w s d r1 w1 s1 r2 w2 s2 :
  f w s = (Ok r1, w1, s1) → g w1 (bump_revision s1) = (Ok r2, w2, s2) →
  rtc writers_step (started s d)
    (mkWriters (bump_revision s2) d
       [mkPending (bump_revision s1) Todo; mkPending (bump_revision s2) Todo]
       [Taken (bump_revision s2); Taken (bump_revision s1)]).
Proof.
  intros Hf Hg.
  eapply rtc_l; [eapply (ws_locked f); by rewrite write_locked_run, Hf|].
  eapply rtc_l; [eapply (ws_locked g); by rewrite write_locked_run, Hg|]. apply rtc_refl.
Qed.

(** C38. Nothing in [write] orders the persisting halves: for any two successful requests
    there is an interleaving after which both have been answered Ok, no write is under
    way, and the file holds the state before the second one; a restart loses it. *)
Theorem unordered_writers_lose_update {R1 R2 E1 E2} (f : M State E1 R1) (g : M State E2 R2)
    w s d r1 w1 s1 r2 w2 s2 :
  f w s = (Ok r1, w1, s1) → g w1 (bump_revision s1) = (Ok r2, w2, s2) →
  ∃ c, rtc writers_step (started s d) c ∧ wr_pending c = [] ∧
    wr_log c = [Written (bump_revision s1); Written (bump_revision s2);
                Taken (bump_revision s2); Taken (bump_revision s1)] ∧
    wr_memory c = bump_revision s2 ∧
    (wr_file c ≫= state_from_json) = Some (bump_revision s1).
Proof.
  intros Hf Hg. eexists (mkWriters _ (Some (state_to_json (bump_revision s1))) [] _).
  split; [|split; [done|split; [done|split; [done|apply state_from_to_json]]]].
  etrans; [by eapply two_snapshots|].
  etrans; [by apply (persist_from_todo _ _ _ _ 1 (bump_revision s2))|].
  exact (persist_from_todo _ _ [mkPending (bump_revision s1) Todo] _ 0 _ eq_refl).
Qed.

End Interleaving.

(** ** A rejected request that is not undone *)
#[local] Opaque audit.

Section Leak.
Context `{IpNet} `{Crates} `{HashOrder} `{SerdeLaws}.

(** C37. On a file store, [create_network] with a bootstrap token that is refused (zero
    lifetime or zero uses) answers 400 and creates the network all the same: it is
    in the state later requests see, and occupies its address blocks. *)
Theorem rejected_bootstrap_keeps_network req n v4 v6 w st s ttl :
  is_db st = false → view st = Some s → st_networks s !! nw_id n = None →
  check_overlaps v4 v6 (hm_values (st_networks s)) = Ok tt →
  cn_bootstrap_token_ttl_seconds req = Some ttl →
  ttl = 0 ∨ unwrap_or (cn_bootstrap_token_uses req) 1 = 0 →
  ∃ w' st' s', store_call (write (create_network_tx req n v4 v6)) w st =
      (Err (BadRequest "ttl_seconds and uses must be > 0"), w', st') ∧
    view st' = Some s' ∧ st_networks s' !! nw_id n = Some n.
Proof.
  unfold is_db, view. destruct (ss_backend st) as [fs|] eqn:Eb; [|done].
  intros _ [= <-] Hn Ho Ht Hz.
  assert (∃ w' s', create_network_tx req n v4 v6 w (fs_inner fs) =
    (Err (BadRequest "ttl_seconds and uses must be > 0"), w', s') ∧
    st_networks s' !! nw_id n = Some n) as (w' & s' & Htx & Hs').
  { unfold create_network_tx. tx_simpl. rewrite Hn. simpl. rewrite Ho. simpl.
    tx_audit. rewrite Ht.
    unfold build_token. tx_simpl.
    assert ((ttl =? 0) || (unwrap_or (cn_bootstrap_token_uses req) 1 =? 0) = true) as ->.
    { apply orb_true_iff. rewrite !Z.eqb_eq. done. }
    eexists _, _. split; [done|]. simpl. apply lookup_insert_eq. }
  unfold store_call. rewrite (write_file_no_rollback _ fs w st _ _ _ Eb Htx).
  eexists _, _, s'. split; [done|]. done.
Qed.
End Leak.

(** ** Concrete instances *)

(** A fresh server behind a file, and behind a database; a closure that succeeds on
    it and one that fails. *)
Definition demo_path : PathBuf := mkPathBuf "state.json" (Some "").
Definition demo_file : StateStore :=
  mkStateStore (File (mkFileStore State_default (Some demo_path))) ∅.
Definition demo_db_store : DbStore := mkDbStore None (Some (state_to_json State_default)).
Definition demo_db : StateStore := mkStateStore (Db demo_db_store) ∅.
Definition put_demo_network : M State ApiError unit :=
  modify (put_network "n" (mkNetworkState "n" "n" "" "" "" false AclPolicy_default
                             (mkKeyRotationPolicy None) 0 0 0)).
Definition revoke_alice : M State ApiError NodeState := revoke_node_tx alice_id 2000.

Lemma demo_file_ok : (write put_demo_network demo_world demo_file).1.1 = Ok tt.
Proof. vm_compute. reflexivity. Qed.
Lemma write_refines_store_step_witness :
  let o := write revoke_alice demo_world demo_store in
  store_step false revoke_alice (view demo_store) o.1.1 (view o.2).
Proof.
  intros o. apply (write_refines_store_step revoke_alice demo_world demo_store o.1.1 o.1.2 o.2).
  apply run_eta.
Defined.

(** A world in which the first I/O request fails and leaves an empty file. *)
Definition torn_world : World :=
  (demo_world : World) <| w_io := (λ _, IoFail (Some "")) : nat → IoRes |>.

Lemma empty_text : state_from_json "" = None.
Proof. vm_compute. reflexivity. Qed.

Lemma torn_write_restarts_empty_witness :
  let st' := (write put_demo_network torn_world demo_file).2 in
  view (load (Some demo_path) (ss_files st') IoOk) = Some State_default.
Proof.
  pose proof (torn_write_restarts_empty put_demo_network torn_world State_default demo_path tt
    torn_world _ ∅ "" eq_refl eq_refl eq_refl empty_text) as Ht.
  cbv zeta in Ht. fold demo_file in Ht.
  destruct (write put_demo_network torn_world demo_file) as [[res w'] st'].
  exact (proj2 (proj2 Ht)).
Defined.

Lemma load_db_view_witness :
  view (load_db (E := ApiError) demo_db_store demo_world empty_store).2 = Some State_default.
Proof.
  assert ((load_db (E := ApiError) demo_db_store demo_world empty_store).1.1 = Ok tt) as E
    by (vm_compute; reflexivity).
  rewrite (load_db_view (E := ApiError) demo_db_store demo_world empty_store
    (load_db (E := ApiError) demo_db_store demo_world empty_store).1.2
    (load_db (E := ApiError) demo_db_store demo_world empty_store).2).
  - apply state_from_to_json.
  - rewrite <- E. apply run_eta.
Defined.

(** Two writers of the default state. *)
Definition after_one : State := bump_revision (put_demo_network demo_world State_default).2.
Definition after_two : State := bump_revision (put_demo_network demo_world after_one).2.

Lemma two_step_runs :
  put_demo_network demo_world State_default
    = (Ok tt, demo_world, (put_demo_network demo_world State_default).2) ∧
  put_demo_network demo_world after_one
    = (Ok tt, demo_world, (put_demo_network demo_world after_one).2).
Proof. split; reflexivity. Qed.

(** A first write that fails after the file was truncated, and a second one. *)
Lemma write_durable_witness :
  ∃ c, rtc solo_step (started State_default None) c ∧
    wr_log c = [Written after_two; Taken after_two; Lost after_one; Taken after_one] ∧
    view (load (Some demo_path) {[path_text demo_path := state_to_json after_two]} IoOk)
      = Some after_two.
Proof.
  set (c := mkWriters after_two (Some (state_to_json after_two)) []
    [Written after_two; Taken after_two; Lost after_one; Taken after_one]).
  assert (rtc solo_step (started State_default None) c) as Hr.
  { eapply rtc_l; [split; [by eapply (ws_locked put_demo_network demo_world)|simpl; lia]|].
    eapply rtc_l; [split; [by apply (ws_open 0 after_one)|simpl; lia]|].
    eapply rtc_l; [split; [by eapply (ws_fail 0 after_one)|simpl; lia]|].
    eapply rtc_l; [split; [by eapply (ws_locked put_demo_network demo_world)|simpl; lia]|].
    eapply rtc_l; [split; [by apply (ws_open 0 after_two)|simpl; lia]|].
    eapply rtc_l; [split; [apply (ws_chunk 0 after_two (state_to_json after_two) "");
      simpl; by rewrite string_app_nil|simpl; lia]|].
    eapply rtc_l; [split; [by eapply (ws_done 0 after_two)|simpl; lia]|].
    pose proof (write_at_end (state_to_json after_two) "") as Hat. simpl in Hat |- *.
    rewrite Hat. apply rtc_refl. }
  exists c. split; [exact Hr|]. split; [reflexivity|].
  apply (write_durable State_default None c after_two demo_path _ Hr eq_refl eq_refl).
  apply lookup_singleton_eq.
Defined.

Lemma unordered_writers_lose_update_witness :
  ∃ c, rtc writers_step (started State_default None) c ∧ wr_pending c = [] ∧
    wr_memory c = after_two ∧ (wr_file c ≫= state_from_json) = Some after_one.
Proof.
  destruct two_step_runs as [H1 H2].
  destruct (unordered_writers_lose_update put_demo_network put_demo_network demo_world
    State_default None tt demo_world _ tt demo_world _ H1 H2) as (c & ? & ? & _ & ? & ?).
  by exists c.
Defined.



(** A bootstrap token without uses. *)
Definition bad_bootstrap : CreateNetworkRequest :=
  mkCreateNetworkRequest "lab" None None None None None (Some 3600) (Some 0) None.
Definition lab_network : NetworkState :=
  mkNetworkState "lab" "lab" "10.9.0.0/24" "fd09::/64" "lab.lightscale" false AclPolicy_default
    (mkKeyRotationPolicy None) 1000 10 10.

Lemma rejected_bootstrap_keeps_network_witness :
  ∃ v4 v6 w' st' s',
    store_call (write (create_network_tx bad_bootstrap lab_network v4 v6)) demo_world empty_store
      = (Err (BadRequest "ttl_seconds and uses must be > 0"), w', st') ∧
    view st' = Some s' ∧ st_networks s' !! "lab" = Some lab_network.
Proof.
  assert (is_some (ipv4net_parse "10.9.0.0/24") = true) as E4 by (vm_compute; reflexivity).
  assert (is_some (ipv6net_parse "fd09::/64") = true) as E6 by (vm_compute; reflexivity).
  destruct (ipv4net_parse "10.9.0.0/24") as [v4|]; [|discriminate].
  destruct (ipv6net_parse "fd09::/64") as [v6|]; [|discriminate].
  exists v4, v6.
  assert (check_overlaps v4 v6 (hm_values (st_networks State_default)) = Ok tt) as Hov
    by reflexivity.
  apply (rejected_bootstrap_keeps_network bad_bootstrap lab_network v4 v6 demo_world empty_store
           State_default 3600 eq_refl eq_refl eq_refl Hov eq_refl (or_intror eq_refl)).
Defined.
