(* ===== verification/Enrollment.v ===== *)
(** * Enrollment: tokens, registration and approval

    What a registration with a token does to the node and to the token, when it is
    refused, how many registrations a token is good for, and what an approval link
    achieves. *)

From S2P Require Import Prelude Effects RustStd StdNet Externals Model Store SampleStore Ipam.
From S2P Require Import Keys Acl Auth Netmap Netid ApiHelpers Api Invariant Safety Server.
From S2P Require Import Scenario Reachability.

#[local] Opaque audit with_network ensure_unique_node_name effective_node_status.

(** A token that may enroll a node at a given time. *)
Definition usable (t : TokenState) (now : Z) : Prop :=
  now < tk_expires_at t ∧ tk_revoked_at t = None ∧ tk_uses_left t ≠ 0.

(** What is left of the tokens after one use. *)
Definition token_after_use (key : string) (t : TokenState) (toks : gmap string TokenState)
    : gmap string TokenState :=
  if tk_uses_left t =? 1 then delete key toks
  else <[key := t <| tk_uses_left := tk_uses_left t - 1 |>]> toks.

(** The node a registration stores. *)
Record registered (req : RegisterRequest) (name node_token id : string) (now : Z)
    (t : TokenState) (n : NetworkState) (nd : NodeState) : Prop := {
  rg_id : nd_id nd = id;
  rg_network : nd_network_id nd = nw_id n;
  rg_name : nd_name nd = name;
  rg_machine : nd_machine_public_key nd = rq_machine_public_key req;
  rg_wg : nd_wg_public_key nd = rq_wg_public_key req;
  rg_tags : nd_tags nd = tk_tags t;
  rg_token : nd_node_token nd = Some node_token;
  rg_approved : nd_approved nd = negb (nw_requires_approval n);
  rg_live : nd_revoked_at nd = None;
  rg_history : nd_key_history nd =
    [mkKeyRecord Machine (rq_machine_public_key req) now None;
     mkKeyRecord WireGuard (rq_wg_public_key req) now None];
}.

Section Register.
Context `{IpNetLaws} `{Crates} `{HashOrder}.

Lemma register_tx_inv_ok req name tok now w s id w' s' :
  inv s → register_tx req name tok now w s = (Ok id, w', s') →
  ∃ t n nd, st_tokens s !! rq_token req = Some t ∧ usable t now ∧
    st_networks s !! tk_network_id t = Some n ∧
    ensure_unique_node_name s (tk_network_id t) name None = Ok tt ∧
    registered req name tok id now t n nd ∧
    st_nodes s' = <[id := nd]> (st_nodes s) ∧
    st_tokens s' = token_after_use (rq_token req) t (st_tokens s).
Proof.
  intros Hinv. unfold register_tx. tx_simpl.
  destruct (st_tokens s !! rq_token req) as [t|] eqn:Et; simpl; [|done].
  destruct (tk_expires_at t <=? now) eqn:Ex; simpl; [done|].
  destruct (tk_revoked_at t) eqn:Er; simpl; [done|].
  destruct (tk_uses_left t =? 0) eqn:Eu; simpl; [done|].
  destruct (ensure_unique_node_name _ _ _ _) as [[]|e] eqn:En; simpl; [|done].
  destruct (st_networks s !! tk_network_id t) as [n|] eqn:Enet; simpl; [|done].
  rewrite (with_network_unfold _ _ _ _ _ Enet).
  destruct (allocate_node_ips w n) as [[[[ip4 ip6]|e] w1] n1]; [|done]. tx_simpl. tx_audit.
  rewrite Et. simpl. intros [= <- <- <-].
  pose proof (inv_token_uses _ _ _ Hinv _ _ Et) as Hpos. bool_props.
  eexists t, n, _. split; [done|]. split; [split; [lia|split; [done|lia]]|].
  split; [done|]. split; [done|]. split; [|split].
  2: { by destruct (_ =? 0). }
  - by split.
  - unfold token_after_use, u_saturating_sub.
    replace (Z.max 0 (tk_uses_left t - 1)) with (tk_uses_left t - 1) by lia.
    destruct (Z.eqb_spec (tk_uses_left t) 1), (Z.eqb_spec (tk_uses_left t - 1) 0);
      try lia; done.
Qed.

(** C18. What a successful registration means: the token existed, had not expired, was
    not revoked and had uses left, the name was free, and the only node that is
    new is the one described by the request and the token, approved unless the
    network requires approval; the token has lost one use, and is gone when that
    was the last. *)
Theorem register_success req name tok now w s id w' s' :
  inv s → register_tx req name tok now w s = (Ok id, w', s') →
  ∃ t n nd, st_tokens s !! rq_token req = Some t ∧ usable t now ∧
    st_networks s !! tk_network_id t = Some n ∧
    ensure_unique_node_name s (tk_network_id t) name None = Ok tt ∧
    registered req name tok id now t n nd ∧
    st_nodes s' = <[id := nd]> (st_nodes s) ∧
    st_tokens s' = token_after_use (rq_token req) t (st_tokens s).
Proof. apply register_tx_inv_ok. Qed.

(** A registration with a token that is unknown, expired, revoked or used up is
    refused as unauthorized, and neither the state nor the random source is
    touched. *)
Theorem register_refused req name tok now w s :
  (∀ t, st_tokens s !! rq_token req = Some t → ¬ usable t now) →
  ∃ msg, register_tx req name tok now w s = (Err (Unauthorized msg), w, s).
Proof.
  intros Hno. unfold register_tx. tx_simpl.
  destruct (st_tokens s !! rq_token req) as [t|] eqn:Et; simpl; [|eauto].
  destruct (tk_expires_at t <=? now) eqn:Ex; simpl; [eauto|].
  destruct (tk_revoked_at t) eqn:Er; simpl; [eauto|].
  destruct (tk_uses_left t =? 0) eqn:Eu; simpl; [eauto|].
  bool_props. destruct (Hno t eq_refl). split; [lia|split; [done|lia]].
Qed.

Lemma register_tx_err_tokens req name tok now w s e w' s' :
  register_tx req name tok now w s = (Err e, w', s') → st_tokens s' = st_tokens s.
Proof.
  unfold register_tx. tx_simpl.
  destruct (st_tokens s !! rq_token req) as [t|] eqn:Et; simpl; [|by intros [= <- <- <-]].
  destruct (tk_expires_at t <=? now); simpl; [by intros [= <- <- <-]|].
  destruct (tk_revoked_at t); simpl; [by intros [= <- <- <-]|].
  destruct (tk_uses_left t =? 0); simpl; [by intros [= <- <- <-]|].
  destruct (ensure_unique_node_name _ _ _ _) as [[]|]; simpl; [|by intros [= <- <- <-]].
  destruct (st_networks s !! tk_network_id t) as [n|] eqn:Enet; simpl; [|by intros [= <- <- <-]].
  rewrite (with_network_unfold _ _ _ _ _ Enet).
  destruct (allocate_node_ips w n) as [[[[ip4 ip6]|e1] w1] n1]; [|by intros [= <- <- <-]].
  tx_simpl. tx_audit. rewrite Et. done.
Qed.

(** How many uses a token has left; none when it is unknown. *)
Definition uses_left (key : string) (s : State) : Z :=
  match st_tokens s !! key with Some t => tk_uses_left t | None => 0 end.

Lemma uses_left_nonneg key s : inv s → 0 ≤ uses_left key s.
Proof.
  intros Hinv. unfold uses_left. destruct (st_tokens s !! key) as [t|] eqn:Et; [|done].
  pose proof (inv_token_uses _ _ _ Hinv key t Et). lia.
Qed.

Lemma uses_left_after_use key k t toks :
  toks !! key = Some t →
  match token_after_use key t toks !! k with Some t' => tk_uses_left t' | None => 0 end =
  match toks !! k with Some t' => tk_uses_left t' | None => 0 end
    - (if decide (key = k) then 1 else 0).
Proof.
  intros Ht. unfold token_after_use. destruct (Z.eqb_spec (tk_uses_left t) 1).
  - rewrite lookup_delete. case_decide as Hk; [|lia]. subst. rewrite Ht. lia.
  - rewrite lookup_insert. case_decide as Hk; [|lia]. subst. rewrite Ht. simpl. lia.
Qed.

(** Registration attempts, each one a step of the store: a number of them is
    answered with success and uses the token [key]. *)
Inductive enrolls (key : string) : State → nat → State → Prop :=
  | enrolls_none s : enrolls key s 0 s
  | enrolls_more db req name tok now res s s1 s2 k :
      store_step db (register_tx req name tok now) (Some s) res (Some s1) →
      enrolls key s1 k s2 →
      enrolls key s
        (match res with Ok _ => if decide (rq_token req = key) then S k else k | _ => k end) s2.

Lemma register_step_uses db req name tok now res s s1 key :
  inv s → store_step db (register_tx req name tok now) (Some s) res (Some s1) →
  inv s1 ∧ uses_left key s1 +
    (match res with Ok _ => if decide (rq_token req = key) then 1 else 0 | _ => 0 end)
    ≤ uses_left key s.
Proof.
  intros Hinv Hs.
  assert (∀ w r w' s', register_tx req name tok now w s = (r, w', s') → inv s') as Hkeep.
  { intros w r w' s' Hr. pose proof (register_tx_inv req name tok now w s Hinv) as Hp.
    rewrite Hr in Hp. by destruct r. }
  assert (∀ w r w' s', register_tx req name tok now w s = (Ok r, w', s') →
    uses_left key s' + (if decide (rq_token req = key) then 1 else 0) = uses_left key s) as Hok.
  { intros w r w' s' Hr. apply register_tx_inv_ok in Hr as (t & n & nd & Ht & _ & _ & _ & _ & _ & E);
      [|done]. unfold uses_left. rewrite E, (uses_left_after_use _ _ _ _ Ht). lia. }
  assert (∀ w e w' s', register_tx req name tok now w s = (Err e, w', s') →
    uses_left key s' = uses_left key s) as Herr.
  { intros w e w' s' Hr. unfold uses_left. by rewrite (register_tx_err_tokens _ _ _ _ _ _ _ _ _ Hr). }
  inversion Hs as [? w r w' s' Hr|? w e w' s' Hd Hr|? w e w' s' Hd Hr|v Hd|? w r w' s' Hr];
    subst; try (specialize (Hkeep _ _ _ _ Hr)).
  - split; [by apply inv_bump|]. specialize (Hok _ _ _ _ Hr).
    change (uses_left key (bump_revision s')) with (uses_left key s'). lia.
  - split; [done|lia].
  - split; [done|]. rewrite (Herr _ _ _ _ Hr). lia.
  - split; [done|lia].
  - split; [by apply inv_bump|]. specialize (Hok _ _ _ _ Hr).
    change (uses_left key (bump_revision s')) with (uses_left key s').
    destruct (decide _); lia.
Qed.

(** C6. However registrations are interleaved and whatever the backend and its I/O
    do, a token with [n] uses left is good for at most [n] successful
    registrations, and an unknown token for none. *)
Theorem token_uses_bound key s k s' :
  inv s → enrolls key s k s' → Z.of_nat k ≤ uses_left key s.
Proof.
  intros Hinv He. induction He as [s|db req name tok now res s s1 s2 k Hs He IH].
  - by apply uses_left_nonneg.
  - destruct (register_step_uses _ _ _ _ _ _ _ _ key Hinv Hs) as [Hinv1 Hle].
    specialize (IH Hinv1). destruct res; [destruct (decide _)|]; lia.
Qed.
End Register.

(** ** Approval links *)
Section Approve.
Context `{Crates}.

(** What an approval link needs to work on a node that waits for approval. *)
Definition link_valid (n : NodeState) (secret : string) (now : Z) : Prop :=
  nd_auth_secret n = Some secret ∧ ∀ x, nd_auth_expires_at n = Some x → now < x.

#[export] Instance link_valid_dec n secret now : Decision (link_valid n secret now).
Proof.
  unfold link_valid. destruct (nd_auth_expires_at n) as [x|] eqn:E.
  - destruct (decide (nd_auth_secret n = Some secret ∧ now < x)) as [[]|Hn].
    + left. split; [done|]. intros y [= <-]. done.
    + right. intros [? Hx]. apply Hn. split; [done|by apply Hx].
  - destruct (decide (nd_auth_secret n = Some secret)); [left|right]; naive_solver.
Defined.

(** An approval link works once: on a node that waits for approval it succeeds
    exactly when the secret is the stored one and has not expired, and then the
    node is approved and the secret is erased; otherwise it is refused as
    unauthorized and nothing changes. *)
Theorem approve_link_spec k secret now w s n :
  st_nodes s !! k = Some n → nd_approved n = false →
  (link_valid n secret now →
   ∃ w' s', approve_node_secret_tx k secret now w s = (Ok (approve_fields n now), w', s') ∧
     st_nodes s' = <[k := approve_fields n now]> (st_nodes s) ∧
     nd_approved (approve_fields n now) = true ∧
     nd_auth_secret (approve_fields n now) = None) ∧
  (¬ link_valid n secret now →
   ∃ msg, approve_node_secret_tx k secret now w s = (Err (Unauthorized msg), w, s)).
Proof.
  intros Hn Ha. unfold link_valid, approve_node_secret_tx. tx_simpl. rewrite Hn. simpl.
  rewrite Ha. destruct (nd_auth_secret n) as [a|] eqn:Es; simpl; [|naive_solver].
  case_bool_decide as Hs; simpl; [naive_solver|].
  assert (a = secret) as -> by (destruct (decide (a = secret)); tauto).
  destruct (nd_auth_expires_at n) as [x|] eqn:Ex; simpl.
  - destruct (Z.leb_spec x now); simpl; [split; [|eauto]|split].
    + intros [_ Hlt]. specialize (Hlt x eq_refl). lia.
    + intros _. unfold approve_audit. tx_simpl. tx_audit. eauto 8.
    + intros []. split; [done|]. by intros y [= <-].
  - split; [|intros []; naive_solver].
    intros _. unfold approve_audit. tx_simpl. tx_audit. eauto 8.
Qed.
End Approve.

(** ** Concrete instances *)

Definition carol : RegisterRequest := demo_register "carol" "m9" "w9".
Definition carol_run := register_tx carol "carol" "tok" 1500 demo_world start_state.

Lemma carol_registers : carol_run.1.1 = Ok (uuid_to_string (replicate 16 (byte_of 1))).
Proof. vm_compute. reflexivity. Qed.

Lemma register_success_witness :
  ∃ nd, st_nodes carol_run.2 = <[uuid_to_string (replicate 16 (byte_of 1)) := nd]>
          (st_nodes start_state) ∧ nd_name nd = "carol".
Proof.
  destruct (register_success carol "carol" "tok" 1500 demo_world start_state
    (uuid_to_string (replicate 16 (byte_of 1))) carol_run.1.2 carol_run.2 start_inv)
    as (t & n & nd & _ & _ & _ & _ & Hr & E & _).
  { rewrite <- carol_registers. apply run_eta. }
  exists nd. split; [exact E|exact (rg_name _ _ _ _ _ _ _ _ Hr)].
Defined.

Lemma register_refused_witness :
  ∃ msg, register_tx (mkRegisterRequest "guess" "eve" "m" "w") "eve" "tok" 1500 demo_world
           start_state = (Err (Unauthorized msg), demo_world, start_state).
Proof.
  apply (register_refused (mkRegisterRequest "guess" "eve" "m" "w")). intros t Ht.
  assert (is_some (st_tokens start_state !! "guess") = false) as Hno by (vm_compute; reflexivity).
  change (st_tokens start_state !! "guess" = Some t) in Ht. rewrite Ht in Hno. discriminate.
Defined.

Lemma carol_enrolls : enrolls demo_token start_state 1 (bump_revision carol_run.2).
Proof.
  apply (enrolls_more demo_token false carol "carol" "tok" 1500
           (Ok (uuid_to_string (replicate 16 (byte_of 1)))) start_state
           (bump_revision carol_run.2) (bump_revision carol_run.2) 0); [|constructor].
  apply (step_commit false _ start_state demo_world _ carol_run.1.2).
  rewrite <- carol_registers. apply run_eta.
Qed.

Lemma token_uses_bound_witness :
  Z.of_nat 1 ≤ uses_left demo_token start_state ∧ uses_left demo_token start_state = 2.
Proof.
  split; [|vm_compute; reflexivity].
  apply (token_uses_bound demo_token start_state 1 _ start_inv carol_enrolls).
Defined.

(** A node that waits for approval. *)
Definition waiting : NodeState :=
  mkNodeState "w" "n" "dave" "m" "k" "10.0.0.9" "fd00::9" [] [] None None true [] 1000 1000 None
    false None (Some "s3cret") (Some 2000) None None [].
Definition waiting_state : State := put_node "w" waiting State_default.

Lemma approve_link_spec_witness :
  (∃ w' s', approve_node_secret_tx "w" "s3cret" 1999 demo_world waiting_state
            = (Ok (approve_fields waiting 1999), w', s')) ∧
  (∃ msg, approve_node_secret_tx "w" "s3cret" 2000 demo_world waiting_state
          = (Err (Unauthorized msg), demo_world, waiting_state)).
Proof.
  split.
  - destruct (proj1 (approve_link_spec "w" "s3cret" 1999 demo_world waiting_state waiting
      eq_refl eq_refl)) as (w' & s' & Happ & _); [|eauto].
    split; [reflexivity|]. intros x Hx. injection Hx as <-. lia.
  - apply (proj2 (approve_link_spec "w" "s3cret" 2000 demo_world waiting_state waiting
      eq_refl eq_refl)).
    intros [_ Hx]. specialize (Hx 2000 eq_refl). lia.
Defined.
