(* ===== verification/Lifecycle.v ===== *)
(** * The life of a node

    A node is enrolled, approved, revoked, brought back and deleted.  [edge] is the
    automaton of these phases, with the requests that may take each edge; [node_step]
    is the same on the records of the nodes, with what must hold when the step is taken.
    The theorems say that every request moves every node along the automaton, whatever
    happens otherwise, and what must have happened for a node to be approved. *)

From S2P Require Import Prelude Effects RustStd StdNet Externals Model Store SampleStore Ipam.
From S2P Require Import Keys Acl Auth Netmap Netid ApiHelpers Api Invariant Safety Server.
From S2P Require Import Scenario Reachability Enrollment.

#[local] Opaque effective_node_status audit build_token with_network with_node
  ensure_unique_node_name.

(** ** The automaton *)

Inductive Phase : Type :=
  | Absent
  | Pending
  | Active
  | Revoked (approved : bool).

Definition phase (o : option NodeState) : Phase :=
  match o with
  | None => Absent
  | Some n => match nd_revoked_at n with
              | Some _ => Revoked (nd_approved n)
              | None => if nd_approved n then Active else Pending
              end
  end.
Definition phase_of (s : State) (k : string) : Phase := phase (st_nodes s !! k).

(** Whether the node was approved *)
Definition approved (p : Phase) : bool :=
  match p with Active => true | Revoked a => a | _ => false end.

Section Automaton.
Context `{Crates}.
Context (app : AppState).

(** The edges, by request.  A registration puts a new node under a random identifier,
    whatever is there.  Approval concerns revoked nodes too, and leaves them revoked.
    Only a key rotation takes a revocation back. *)
Inductive edge (k : string) : Request → Phase → Phase → Prop :=
  | edge_enroll req p : edge k (PostRegister req) p Active
  | edge_enroll_pending req p : edge k (PostRegister req) p Pending
  | edge_enroll_url req p : edge k (PostRegisterUrl req) p Pending
  | edge_link secret : edge k (GetRegisterApprove k secret) Pending Active
  | edge_link_revoked secret : edge k (GetRegisterApprove k secret) (Revoked false) (Revoked true)
  | edge_approve headers :
      is_admin app headers → edge k (PostNodeApprove headers k) Pending Active
  | edge_approve_revoked headers :
      is_admin app headers → edge k (PostNodeApprove headers k) (Revoked false) (Revoked true)
  | edge_revoke headers p :
      is_admin app headers → p ≠ Absent →
      edge k (PostNodeRevoke headers k) p (Revoked (approved p))
  | edge_revive headers req a :
      edge k (PostRotateKeys headers k req) (Revoked a) (if a then Active else Pending)
  | edge_delete headers p :
      is_admin app headers → p ≠ Absent → edge k (DeleteNode headers k) p Absent.

(** ** Steps on the records *)

(** The reading of the clock that a request gets.  Every handler reads it once at most. *)
Context (clock : Z).

(** What changes neither the phase nor the place of a node *)
Definition same_standing (n n' : NodeState) : Prop :=
  nd_approved n' = nd_approved n ∧ nd_revoked_at n' = nd_revoked_at n ∧ same_place n n'.

Inductive node_step (s : State) (k : string)
    : Request → option NodeState → option NodeState → Prop :=
  | ns_register req t nw n old :
      st_tokens s !! rq_token req = Some t → usable t clock →
      st_networks s !! tk_network_id t = Some nw → nd_network_id n = nw_id nw →
      nd_revoked_at n = None → nd_approved n = negb (nw_requires_approval nw) →
      node_step s k (PostRegister req) old (Some n)
  | ns_register_url req nw n old :
      st_networks s !! ru_network_id req = Some nw → nd_network_id n = nw_id nw →
      nd_revoked_at n = None → nd_approved n = false →
      node_step s k (PostRegisterUrl req) old (Some n)
  | ns_link secret n :
      nd_approved n = false → nd_auth_secret n = Some secret →
      (∀ expires_at, nd_auth_expires_at n = Some expires_at → clock < expires_at) →
      node_step s k (GetRegisterApprove k secret) (Some n) (Some (approve_fields n clock))
  | ns_approve headers n now :
      is_admin app headers → nd_approved n = false →
      node_step s k (PostNodeApprove headers k) (Some n) (Some (approve_fields n now))
  | ns_revoke headers n now :
      is_admin app headers →
      node_step s k (PostNodeRevoke headers k) (Some n) (Some (revoke_fields n now))
  | ns_rotate headers req n n' :
      require_node headers (app_admin_token app) n = Ok tt →
      nd_approved n' = nd_approved n → same_place n n' →
      nd_revoked_at n' = nd_revoked_at n ∨ nd_revoked_at n' = None →
      node_step s k (PostRotateKeys headers k req) (Some n) (Some n')
  | ns_delete headers n :
      is_admin app headers → node_step s k (DeleteNode headers k) (Some n) None
  | ns_update headers req n n' :
      is_admin app headers → same_standing n n' →
      node_step s k (PutNode headers k req) (Some n) (Some n')
  | ns_heartbeat headers ip req n n' :
      hb_node_id req = k → require_node headers (app_admin_token app) n = Ok tt →
      same_standing n n' →
      node_step s k (PostHeartbeat headers ip req) (Some n) (Some n').

Lemma approved_phase n : nd_approved n = approved (phase (Some n)).
Proof. simpl. by destruct (nd_revoked_at n), (nd_approved n). Qed.

Lemma phase_present n : phase (Some n) ≠ Absent.
Proof. simpl. by destruct (nd_revoked_at n), (nd_approved n). Qed.

(** A step on the record is a step of the automaton, or stays in its phase. *)
Lemma node_step_edge s k r o o' :
  node_step s k r o o' → phase o' = phase o ∨ edge k r (phase o) (phase o').
Proof.
  destruct 1 as [req t nw n old _ _ _ _ Hr Ha|req nw n old _ _ Hr Ha|secret n Ha _ _
    |headers n now Hadm Ha|headers n now Hadm|headers req n n' _ Ha _ Hr|headers n Hadm
    |headers req n n' _ (Ha & Hr & _)|headers ip req n n' _ _ (Ha & Hr & _)].
  - simpl. rewrite Hr. right. destruct (nd_approved n); constructor.
  - simpl. rewrite Hr, Ha. right. constructor.
  - right. simpl. rewrite Ha. destruct (nd_revoked_at n); constructor.
  - right. simpl. rewrite Ha. destruct (nd_revoked_at n); by constructor.
  - right. change (phase (Some (revoke_fields n now))) with (Revoked (nd_approved n)).
    rewrite approved_phase. constructor; [done|apply phase_present].
  - simpl. rewrite Ha. destruct Hr as [-> | ->]; [by left|].
    destruct (nd_revoked_at n); [|by left]. right. constructor.
  - right. constructor; [done|apply phase_present].
  - left. simpl. by rewrite Ha, Hr.
  - left. simpl. by rewrite Ha, Hr.
Qed.

(** Every node is as before, or has taken a step. *)
Definition stepped (s : State) (r : Request) (s' : State) : Prop :=
  ∀ k, st_nodes s' !! k = st_nodes s !! k ∨ node_step s k r (st_nodes s !! k) (st_nodes s' !! k).

Lemma stepped_refl s r s' : st_nodes s' = st_nodes s → stepped s r s'.
Proof. intros E k. left. by rewrite E. Qed.

Lemma stepped_insert s r s' k n' :
  st_nodes s' = <[k := n']> (st_nodes s) → node_step s k r (st_nodes s !! k) (Some n') →
  stepped s r s'.
Proof.
  intros E Hstep j. rewrite E. destruct (decide (j = k)) as [->|Hne].
  - right. by rewrite lookup_insert_eq.
  - left. by rewrite lookup_insert_ne.
Qed.
End Automaton.

(** ** Every request takes such steps *)
Section Steps.
Context `{IpNetLaws} `{Crates} `{HashOrder} `{SerdeLaws}.
Context (app : AppState) (clock : Z) (s0 : State).
Definition steps (r : Request) {A} (m : M State ApiError A) : Prop :=
  meets (λ s, s = s0) (stepped app clock s0 r) m.

Lemma keeps_nodes_steps {A} r (m : M State ApiError A) : keeps_nodes m → steps r m.
Proof.
  intros Hm w s ->. specialize (Hm (st_nodes s0) w s0 eq_refl).
  destruct (m w s0) as [[[a|e] w'] s']; by apply stepped_refl.
Qed.

Lemma register_tx_steps req name tok : steps (PostRegister req) (register_tx req name tok clock).
Proof.
  intros w s ->. unfold register_tx. tx_simpl.
  destruct (st_tokens s0 !! rq_token req) as [t|] eqn:Et; simpl; [|by apply stepped_refl].
  destruct (tk_expires_at t <=? clock) eqn:Ex; simpl; [by apply stepped_refl|].
  destruct (tk_revoked_at t) eqn:Er; simpl; [by apply stepped_refl|].
  destruct (tk_uses_left t =? 0) eqn:Eu; simpl; [by apply stepped_refl|].
  destruct (ensure_unique_node_name _ _ _ _) as [[]|e]; simpl; [|by apply stepped_refl].
  destruct (st_networks s0 !! tk_network_id t) as [n|] eqn:En; simpl; [|by apply stepped_refl].
  rewrite (with_network_unfold _ _ _ _ _ En).
  destruct (allocate_node_ips w n) as [[[[ip4 ip6]|e] w1] n1]; [|by apply stepped_refl].
  tx_simpl. tx_audit. rewrite Et. simpl. bool_props.
  eapply stepped_insert; [by destruct (_ =? 0)|].
  by apply (ns_register _ _ _ _ _ t n).
Qed.

Lemma register_url_tx_steps req name tok now ex :
  steps (PostRegisterUrl req) (register_url_tx req name tok now ex).
Proof.
  intros w s ->. unfold register_url_tx. tx_simpl.
  destruct (ensure_unique_node_name _ _ _ _) as [[]|e]; simpl; [|by apply stepped_refl].
  destruct (st_networks s0 !! ru_network_id req) as [n|] eqn:En; simpl; [|by apply stepped_refl].
  rewrite (with_network_unfold _ _ _ _ _ En).
  destruct (allocate_node_ips w n) as [[[[ip4 ip6]|e] w1] n1]; [|by apply stepped_refl].
  tx_simpl. tx_audit. eapply stepped_insert; [done|]. by eapply ns_register_url.
Qed.

Lemma approve_node_secret_tx_steps nid secret :
  steps (GetRegisterApprove nid secret) (approve_node_secret_tx nid secret clock).
Proof.
  intros w s ->. unfold approve_node_secret_tx. tx_simpl.
  destruct (st_nodes s0 !! nid) as [n|] eqn:En; simpl; [|by apply stepped_refl].
  destruct (nd_approved n) eqn:Ea; [by apply stepped_refl|].
  destruct (nd_auth_secret n) as [a|] eqn:Es; simpl; [|by apply stepped_refl].
  case_bool_decide as Hsecret; simpl; [by apply stepped_refl|].
  assert (a = secret) as -> by (by destruct (decide (a = secret))).
  destruct (match nd_auth_expires_at n with Some x => x <=? clock | None => false end) eqn:Ex;
    simpl; [by apply stepped_refl|].
  unfold approve_audit. tx_simpl. tx_audit. eapply stepped_insert; [done|]. rewrite En.
  apply ns_link; [done|done|]. intros x Hx. rewrite Hx in Ex. lia.
Qed.

Lemma approve_node_tx_steps headers nid now :
  is_admin app headers → steps (PostNodeApprove headers nid) (approve_node_tx nid now).
Proof.
  intros Hadm w s ->. unfold approve_node_tx. tx_simpl.
  destruct (st_nodes s0 !! nid) as [n|] eqn:En; simpl; [|by apply stepped_refl].
  destruct (nd_approved n) eqn:Ea; [by apply stepped_refl|].
  unfold approve_audit. tx_simpl. tx_audit. eapply stepped_insert; [done|]. rewrite En.
  by apply ns_approve.
Qed.

Lemma revoke_node_tx_steps headers nid now :
  is_admin app headers → steps (PostNodeRevoke headers nid) (revoke_node_tx nid now).
Proof.
  intros Hadm w s ->. unfold revoke_node_tx. tx_simpl.
  destruct (st_nodes s0 !! nid) as [n|] eqn:En; simpl; [|by apply stepped_refl].
  tx_simpl. tx_audit. eapply stepped_insert; [done|]. rewrite En. by apply ns_revoke.
Qed.

Lemma delete_node_tx_steps headers nid :
  is_admin app headers → steps (DeleteNode headers nid) (delete_node_tx nid).
Proof.
  intros Hadm w s ->. unfold delete_node_tx. tx_simpl.
  destruct (st_nodes s0 !! nid) as [n|] eqn:En; simpl; [|by apply stepped_refl].
  tx_simpl. tx_audit. intros k. simpl. destruct (decide (k = nid)) as [->|Hne].
  - right. rewrite lookup_delete_eq, En. by apply ns_delete.
  - left. by rewrite lookup_delete_ne.
Qed.

Lemma heartbeat_tx_steps headers ip req eps now :
  steps (PostHeartbeat headers ip req)
    (heartbeat_tx app headers (hb_node_id req) eps (hb_routes req) (hb_probe req) now).
Proof.
  intros w s ->. unfold heartbeat_tx. tx_simpl.
  destruct (st_nodes s0 !! hb_node_id req) as [n|] eqn:En; simpl; [|by apply stepped_refl].
  destruct (require_node _ _ _) as [[]|e] eqn:Er; simpl; [|by apply stepped_refl].
  eapply stepped_insert; [done|]. rewrite En. apply ns_heartbeat; [done|done|].
  by destruct (unwrap_or (hb_probe req) false).
Qed.

Lemma update_node_tx_steps headers nid req now :
  is_admin app headers → steps (PutNode headers nid req) (update_node_tx nid req now).
Proof.
  intros Hadm w s ->. unfold update_node_tx. tx_simpl.
  destruct (st_nodes s0 !! nid) as [n|] eqn:En; simpl; [|by apply stepped_refl].
  destruct (next_node_name s0 n req) as [nn|e]; simpl; [|by apply stepped_refl].
  match goal with |- context [<[nid := ?x]> (st_nodes s0)] => set (n' := x) end.
  assert (∀ s', st_nodes s' = <[nid := n']> (st_nodes s0) →
    stepped app clock s0 (PutNode headers nid req) s') as Hok.
  { intros s' Hs'. eapply stepped_insert; [done|]. rewrite En. apply ns_update; [done|].
    unfold n'. by destruct nn, (next_node_tags n req). }
  match goal with |- context [st_networks s0 !! ?k] =>
    destruct (st_networks s0 !! k) as [nw|]; simpl; [|by apply Hok] end.
  destruct (effective_node_status _ _ _) as [ap rot].
  case_bool_decide; simpl; [by apply Hok|]. tx_audit. by apply Hok.
Qed.

(** A rotation works on the node in place, and may fail in the middle. *)
Lemma rotate_key_standing n0 t new msg now :
  preserves (λ n, nd_approved n = nd_approved n0 ∧ nd_revoked_at n = nd_revoked_at n0 ∧
                  same_place n0 n) (rotate_key t new msg now).
Proof.
  unfold rotate_key. destruct new as [new|]; [|by apply preserves_pure].
  apply preserves_bind; [by apply preserves_pure|intros n].
  apply preserves_bind; [apply preserves_pure, pure_fail_if|intros _].
  repeat (apply preserves_bind; [apply triple_modify; by destruct t|intros _]).
  by apply triple_modify.
Qed.

Lemma rotate_keys_node_standing headers req n0 now :
  triple (λ n, n = n0) (rotate_keys_node app headers req now)
    (λ _ n, require_node headers (app_admin_token app) n0 = Ok tt ∧
            nd_approved n = nd_approved n0 ∧ same_place n0 n ∧ nd_revoked_at n = None)
    (λ _ n, n = n0 ∨ require_node headers (app_admin_token app) n0 = Ok tt ∧ same_standing n0 n).
Proof.
  unfold rotate_keys_node. apply triple_get. intros n1 w n [-> ->]. unfold mbind at 1, M_bind at 1.
  destruct (require_node headers (app_admin_token app) n0) as [[]|e] eqn:Hr; simpl; [|by left].
  pose proof (rotate_key_standing n0 Machine (krq_machine_public_key req)
    "machine_public_key unchanged" now w n0 ltac:(done)) as Hmachine.
  unfold mbind at 1, M_bind at 1. destruct (rotate_key Machine _ _ _ w n0) as [[[[]|e1] w1] n1];
    [|right; split; [done|exact Hmachine]].
  pose proof (rotate_key_standing n0 WireGuard (krq_wg_public_key req)
    "wg_public_key unchanged" now w1 n1 Hmachine) as Hwg.
  unfold mbind at 1, M_bind at 1. destruct (rotate_key WireGuard _ _ _ w1 n1) as [[[[]|e2] w2] n2];
    [|right; split; [done|exact Hwg]].
  simpl. destruct Hwg as (Ha & _ & Hp). done.
Qed.

Lemma rotate_keys_tx_steps headers nid req now :
  steps (PostRotateKeys headers nid req) (rotate_keys_tx app headers nid req now).
Proof.
  intros w s ->. unfold rotate_keys_tx. tx_simpl. rewrite with_node_unfold.
  destruct (st_nodes s0 !! nid) as [n|] eqn:En; [|by apply stepped_refl].
  pose proof (rotate_keys_node_standing headers req n now w n eq_refl) as Hst.
  destruct (rotate_keys_node app headers req now w n) as [[r w1] n1].
  assert (∀ s', st_nodes s' = <[nid := n1]> (st_nodes s0) →
    stepped app clock s0 (PostRotateKeys headers nid req) s') as Hok.
  { intros s' Hs'. destruct r as [[]|e].
    - destruct Hst as (Hr & Ha & Hp & Hv). eapply stepped_insert; [done|]. rewrite En.
      apply ns_rotate; auto.
    - destruct Hst as [->|[Hr (Ha & Hv & Hp)]].
      + apply stepped_refl. by rewrite Hs', insert_id.
      + eapply stepped_insert; [done|]. rewrite En. apply ns_rotate; auto. }
  destruct r as [[]|e]; [|by apply Hok]. tx_simpl. rewrite lookup_insert_eq. simpl.
  tx_audit. by apply Hok.
Qed.

(** The steps of a request, whatever the time is *)
Lemma request_steps r :
  match r with PostRegister _ | GetRegisterApprove _ _ => False | _ => True end →
  request_meets app (λ s, s = s0) (stepped app clock s0 r) r.
Proof.
  destruct administration_keeps_nodes as (K1 & K2 & K3 & K4 & K5 & K6).
  destruct r; intros Hr; try exact I; try destruct Hr; intros *; try intros ?; intros.
  - apply keeps_nodes_steps, K1.
  - apply keeps_nodes_steps, K2.
  - apply keeps_nodes_steps, K5.
  - apply keeps_nodes_steps, K3.
  - apply keeps_nodes_steps, K4.
  - apply keeps_nodes_steps, K6.
  - apply register_url_tx_steps.
  - by apply approve_node_tx_steps.
  - apply rotate_keys_tx_steps.
  - by apply revoke_node_tx_steps.
  - by apply delete_node_tx_steps.
  - by apply update_node_tx_steps.
  - apply heartbeat_tx_steps.
Qed.
End Steps.

Section Theorems.
Context `{IpNetLaws} `{Crates} `{HashOrder} `{SerdeLaws}.
Context (app : AppState).

(** The clock reading of a request that is served in the world [w] *)
Definition clock_of (w : World) : Z := w_clock w (w_ticks w).

(** A handler that begins by reading the clock *)
Lemma timed_meets {A} (f : Z → M StateStore ApiError A) s r w st :
  triple (viewed False (λ x, x = s)) (status (f (clock_of w)))
    (λ _, viewed False (stepped app (clock_of w) s r))
    (λ _, viewed False (stepped app (clock_of w) s r)) →
  view st = Some s →
  viewed False (stepped app (clock_of w) s r) (status (now ≫= f) w st).2.
Proof.
  intros Ht Hv. specialize (Ht (w <| w_ticks := S (w_ticks w) |>) st). unfold viewed at 1 in Ht.
  rewrite Hv in Ht. specialize (Ht eq_refl).
  change (status (now ≫= f) w st) with
    (status (f (clock_of w)) (w <| w_ticks := S (w_ticks w) |>) st).
  by destruct (status _ _ st) as [[[] ?] ?].
Qed.

Lemma serve_viewed r w st s :
  request_typed r → view st = Some s →
  viewed False (stepped app (clock_of w) s r) (serve app r w st).2.
Proof.
  intros Hty Hv.
  assert (∀ x, x = s → stepped app (clock_of w) s r x) as Hsub by (intros ? ->; by apply stepped_refl).
  assert (∀ x, stepped app (clock_of w) s r x → stepped app (clock_of w) s r (bump_revision x)) as Hbump
    by done.
  assert (match r with PostRegister _ | GetRegisterApprove _ _ => False | _ => True end →
    viewed False (stepped app (clock_of w) s r) (serve app r w st).2) as Hgen.
  { intros Hr. pose proof (serve_meets app False (λ x, x = s) (stepped app (clock_of w) s r) r Hsub
      Hbump (request_steps app (clock_of w) s r Hr) Hty w st) as Ht.
    unfold viewed at 1 in Ht. rewrite Hv in Ht. specialize (Ht eq_refl).
    by destruct (serve app r w st) as [[[] ?] ?]. }
  destruct r; try (by apply Hgen).
  - apply timed_meets; [|done]. pose proof (register_tx_steps app (clock_of w) s req) as Hm.
    unfold steps in Hm.
    apply triple_bind with (R := λ _, viewed False (stepped app (clock_of w) s (PostRegister req)));
      [|intros; apply triple_pure; solve_tail].
    repeat handler_step Hsub.
  - apply timed_meets; [|done].
    pose proof (approve_node_secret_tx_steps app (clock_of w) s node_id secret) as Hm.
    unfold steps in Hm.
    apply triple_bind with (R := λ _, viewed False (stepped app (clock_of w) s
      (GetRegisterApprove node_id secret))); [|intros; apply triple_pure; solve_tail].
    repeat handler_step Hsub.
Qed.

(** The state in view after a request, from the one before *)
Lemma serve_stepped r w st res w' st' s :
  request_typed r → serve app r w st = (res, w', st') → view st = Some s →
  ∃ s', view st' = Some s' ∧ stepped app (clock_of w) s r s'.
Proof.
  intros Hty Hs Hv. pose proof (serve_viewed r w st s Hty Hv) as Ht. rewrite Hs in Ht.
  unfold viewed in Ht. simpl in Ht. destruct (view st') as [s'|]; [by exists s'|done].
Qed.

(** C5. The server implements the life cycle of nodes: whatever request is served, with
    whatever outcome, on either backend and with any I/O failures, every node either
    stays in its phase or takes an edge of the automaton that this request may take. *)
Theorem lifecycle_refinement r w st res w' st' s k :
  request_typed r → serve app r w st = (res, w', st') → view st = Some s →
  ∃ s', view st' = Some s' ∧
    (phase_of s' k = phase_of s k ∨ edge app k r (phase_of s k) (phase_of s' k)).
Proof.
  intros Hty Hs Hv. destruct (serve_stepped _ _ _ _ _ _ _ Hty Hs Hv) as (s' & Hv' & Hst).
  exists s'. split; [done|]. unfold phase_of. destruct (Hst k) as [->|Hstep]; [by left|].
  by apply (node_step_edge app (clock_of w) s).
Qed.

(** What makes an approved node, on the state and with the reading of the clock that the
    request got: an administrator, the holder of the approval link before it expires, or a
    token of a network that requires no approval, which has not expired, is not revoked
    and has uses left *)
Definition admission (clock : Z) (s : State) (k : string) (r : Request) : Prop :=
  match r with
  | PostNodeApprove headers k' => k' = k ∧ is_admin app headers
  | GetRegisterApprove k' secret => k' = k ∧
      ∃ n, st_nodes s !! k = Some n ∧ nd_auth_secret n = Some secret ∧
        ∀ expires_at, nd_auth_expires_at n = Some expires_at → clock < expires_at
  | PostRegister req => ∃ t nw, st_tokens s !! rq_token req = Some t ∧ usable t clock ∧
      st_networks s !! tk_network_id t = Some nw ∧ nw_requires_approval nw = false
  | _ => False
  end.

Lemma step_admission clock s k r o o' :
  o = st_nodes s !! k → node_step app clock s k r o o' →
  approved (phase o) = false → approved (phase o') = true → admission clock s k r.
Proof.
  intros Ho. destruct 1 as [req t nw n old Ht Hu Hw _ Hr Ha|req nw n old _ _ Hr Ha|secret n Ha Hsec Hexp
    |headers n now Hadm Ha|headers n now Hadm|headers req n n' _ Ha _ _|headers n Hadm
    |headers req n n' _ (Ha & _)|headers ip req n n' _ _ (Ha & _)];
    rewrite <- ?approved_phase; intros Hold Hnew; simpl; try congruence; try done.
  - exists t, nw. rewrite Ha in Hnew. by apply negb_true_iff in Hnew.
  - split; [done|]. exists n. by rewrite <- Ho.
  - simpl in Hnew. congruence.
Qed.

(** No node becomes approved by itself: if a node was not approved, or did not exist,
    and is approved after any sequence of requests, then one of these requests admitted
    it, and had the right to do so when it was served. *)
Theorem admission_required rs w st s s' k :
  Forall request_typed rs → view st = Some s → view (run app rs w st).2 = Some s' →
  approved (phase_of s k) = false → approved (phase_of s' k) = true →
  ∃ rs1 r rs2 s1, rs = rs1 ++ r :: rs2 ∧ view (run app rs1 w st).2 = Some s1 ∧
    admission (clock_of (run app rs1 w st).1.2) s1 k r.
Proof.
  intros Hty. revert w st s. induction Hty as [|r rs Hr Hrs IH]; intros w st s Hv Hv' Hold Hnew.
  { simpl in Hv'. congruence. }
  simpl in Hv'. destruct (serve app r w st) as [[res w1] st1] eqn:Es.
  destruct (run app rs w1 st1) as [[l w2] st2] eqn:Erun. simpl in Hv'.
  destruct (serve_stepped _ _ _ _ _ _ _ Hr Es Hv) as (s1 & Hv1 & Hst).
  destruct (approved (phase_of s1 k)) eqn:Hmid.
  - exists [], r, rs, s. split; [done|]. split; [done|]. unfold phase_of in *.
    destruct (Hst k) as [Heq|Hstep]; [congruence|]. by eapply step_admission.
  - destruct (IH w1 st1 s1 Hv1) as (rs1 & r' & rs2 & s2 & -> & Hv2 & Hadm);
      [by rewrite Erun|done|done|].
    exists (r :: rs1), r', rs2, s2. split; [done|]. simpl. rewrite Es.
    by destruct (run app rs1 w1 st1) as [[l' w'] st'].
Qed.

(** Requests that can bring a node (back) to life *)
Definition revives (k : string) (r : Request) : Prop :=
  match r with
  | PostRotateKeys _ k' _ => k' = k
  | PostRegister _ | PostRegisterUrl _ => True
  | _ => False
  end.

Definition retired (p : Phase) : Prop := p = Absent ∨ ∃ a, p = Revoked a.

Lemma stepped_retired clock s r s' k :
  stepped app clock s r s' → ¬ revives k r → retired (phase_of s k) → retired (phase_of s' k).
Proof.
  intros Hst Hnr Hret. unfold phase_of in *. destruct (Hst k) as [->|Hstep]; [done|].
  destruct (node_step_edge app _ _ _ _ _ _ Hstep) as [->|He]; [done|].
  destruct Hret as [Hp|[a Hp]]; rewrite Hp in He; inversion He; subst; simpl in Hnr;
    try done; unfold retired; eauto.
Qed.

(** A revocation lasts: a node that is revoked or gone stays revoked or gone, whatever
    requests are served, as long as no key rotation for it and no registration is among
    them. *)
Theorem revocation_lasts rs w st s s' k :
  Forall request_typed rs → Forall (λ r, ¬ revives k r) rs →
  view st = Some s → view (run app rs w st).2 = Some s' →
  retired (phase_of s k) → retired (phase_of s' k).
Proof.
  intros Hty. revert w st s. induction Hty as [|r rs Hr _ IH]; intros w st s Hno Hv Hv' Hret.
  { simpl in Hv'. congruence. }
  apply Forall_cons in Hno as [Hnr Hno]. simpl in Hv'.
  destruct (serve app r w st) as [[res w1] st1] eqn:Es.
  destruct (run app rs w1 st1) as [[l w2] st2] eqn:Erun. simpl in Hv'.
  destruct (serve_stepped _ _ _ _ _ _ _ Hr Es Hv) as (s1 & Hv1 & Hst).
  apply (IH w1 st1 s1 Hno Hv1); [by rewrite Erun|]. by eapply stepped_retired.
Qed.
End Theorems.

(** ** Concrete instances *)

Lemma lifecycle_refinement_witness :
  ∃ s', view (serve demo_app (PostNodeRevoke admin_headers alice_id) demo_world demo_store).2 = Some s' ∧
    (phase_of s' alice_id = Active ∨
     edge demo_app alice_id (PostNodeRevoke admin_headers alice_id) Active (phase_of s' alice_id)).
Proof.
  destruct (serve demo_app (PostNodeRevoke admin_headers alice_id) demo_world demo_store)
    as [[res w'] st'] eqn:Es.
  exact (lifecycle_refinement demo_app (PostNodeRevoke admin_headers alice_id) demo_world demo_store
           res w' st' demo_state alice_id I Es demo_view).
Defined.

Lemma admission_required_witness :
  approved (phase_of demo_state alice_id) = true ∧
  ∃ rs1 r rs2 s1, demo_requests = rs1 ++ r :: rs2 ∧
    view (run demo_app rs1 demo_world empty_store).2 = Some s1 ∧
    admission demo_app (clock_of (run demo_app rs1 demo_world empty_store).1.2) s1 alice_id r.
Proof.
  assert (approved (phase_of demo_state alice_id) = true) as Ha by (vm_compute; reflexivity).
  split; [exact Ha|].
  exact (admission_required demo_app demo_requests demo_world empty_store State_default demo_state
           alice_id demo_requests_typed eq_refl demo_view eq_refl Ha).
Defined.

(** A node that is revoked stays so when an administrator approves it. *)
Definition revoked_store : StateStore :=
  (serve demo_app (PostNodeRevoke admin_headers alice_id) demo_world demo_store).2.
Definition approved_store : StateStore :=
  (run demo_app [PostNodeApprove admin_headers alice_id] demo_world revoked_store).2.

Lemma revocation_lasts_witness :
  phase_of (view_or_default revoked_store) alice_id = Revoked true ∧
  retired (phase_of (view_or_default approved_store) alice_id).
Proof.
  assert (phase_of (view_or_default revoked_store) alice_id = Revoked true) as Hrev
    by (vm_compute; reflexivity).
  split; [exact Hrev|].
  apply (revocation_lasts demo_app [PostNodeApprove admin_headers alice_id] demo_world revoked_store
    (view_or_default revoked_store)).
  - repeat constructor.
  - constructor; [|constructor]. simpl. tauto.
  - vm_compute. reflexivity.
  - vm_compute. reflexivity.
  - right. exists true. exact Hrev.
Defined.
