(* ===== verification/Concurrent.v ===== *)
(** * Requests that run at the same time

    The runtime serves many requests at once, and several servers, each with its own
    options, may work on one database (a file store has one server).  A handler holds the
    store only while one of its closures runs, so another request can come in between the
    two accesses of [register] and [heartbeat], and between two polls of
    [netmap_longpoll].  Here a request under way is a [Task], which says where its handler
    stands; [step] lets one request arrive, lets time pass, runs one task up to the end of
    its next store access, or drops one (the client closed the connection).  A schedule is
    a list of such steps, and the theorems are about every schedule.

    A store access is one step here: the lock of the file store, or the row lock of the
    database, orders the accesses.  What the file on disk holds when file writers overlap
    is the subject of Durability.v. *)

From S2P Require Import Prelude Effects RustStd StdNet Externals Model Store SampleStore Ipam.
From S2P Require Import Keys Acl Auth Netmap Netid ApiHelpers Api Invariant Safety Server.
From S2P Require Import Scenario Reachability History.

(** ** Tasks *)

(** What a client asks for: a route with a fixed number of store accesses, or a long poll. *)
Inductive Call : Type :=
  | Plain (r : Request)
  | Longpoll (headers : HeaderMap) (node_id : string) (params : NetmapLongpollParams).

(** The body of a response; it is kept where a read made it after other accesses. *)
Inductive Response : Type :=
  | Status
  | RegisterBody (body : RegisterResponse)
  | HeartbeatBody (body : HeartbeatResponse)
  | NetmapBody (body : NetMap).

(** The variables of [netmap_longpoll] that stay the same in its loop. *)
Record Poll : Type := mkPoll {
  po_headers : HeaderMap;
  po_node_id : string;
  po_since : Z;
  po_deadline : Z;
}.

Inductive Task : Type :=
  | TStart (r : Request)                          (** before the first access *)
  | TRegistered (node_token node_id : string)     (** [register], after its write *)
  | TBeaten (node_id : string)                    (** [heartbeat], after its write *)
  | TPoll (p : Poll)                              (** at the top of the loop *)
  | TRead (p : Poll) (revision : Z) (netmap : NetMap)   (** before the test of the clock *)
  | TSleep (p : Poll) (wake : Z)
  | TDone (res : result Response ApiError)
  | TDropped.

(** A request with the server it was sent to, and the (monotonic, millisecond) time at
    which it arrived.  Servers with different options may share a database. *)
Record Job : Type := mkJob {
  jb_app : AppState;
  jb_call : Call;
  jb_at : Z;
  jb_task : Task;
}.
#[export] Instance eta_Job : Eta Job := λ j, mkJob (jb_app j) (jb_call j) (jb_at j) (jb_task j).

Record Sys : Type := mkSys {
  sy_now : Z;
  sy_world : World;
  sy_store : StateStore;
  sy_jobs : list Job;
}.
#[export] Instance eta_Sys : Eta Sys := λ c,
  mkSys (sy_now c) (sy_world c) (sy_store c) (sy_jobs c).

Inductive Label : Type :=
  | LArrive (app : AppState) (call : Call)
  | LTick (d : Z)
  | LRun (i : nat)
  | LDrop (i : nat).

Section Tasks.
Context `{IpNet} `{Crates} `{HashOrder} `{Serde}.
Context (app : AppState).

(** [register], up to the end of its write, and from there on *)
Definition register_write (req : RegisterRequest) : M StateStore ApiError (string * string) :=
  now ← now;
  node_token ← random_secret;
  node_name ← try_result (normalize_node_name (rq_node_name req));
  node_id ← store_call (write (register_tx req node_name node_token now));
  mret (node_token, node_id).

Definition register_read (node_token node_id : string) : M StateStore ApiError RegisterResponse :=
  netmap ← store_call (read (build_netmap node_id (relay_or_none (app_relay app))));
  mret (mkRegisterResponse node_token netmap).

(** [heartbeat], likewise *)
Definition heartbeat_write (headers : HeaderMap) (remote_ip : IpAddr) (req : HeartbeatRequest)
    : M StateStore ApiError unit :=
  now ← now;
  let observed_endpoint := (λ port, socket_addr_to_string remote_ip port) <$> hb_listen_port req in
  let endpoints := merge_endpoints (hb_endpoints req) observed_endpoint in
  store_call (write (heartbeat_tx app headers (hb_node_id req) endpoints (hb_routes req)
                       (hb_probe req) now)).

Definition heartbeat_read (node_id : string) : M StateStore ApiError HeartbeatResponse :=
  netmap ← store_call (read (build_netmap node_id (relay_or_none (app_relay app))));
  mret (mkHeartbeatResponse netmap).

(** The prologue of [netmap_longpoll] *)
Definition longpoll_start (now : Z) (headers : HeaderMap) (node_id : string)
    (params : NetmapLongpollParams) : Poll :=
  let since := unwrap_or (lp_since params) 0 in
  let timeout := Z.min (unwrap_or (lp_timeout_seconds params) 30) 300 in
  mkPoll headers node_id since (now + timeout * 1000).

Definition longpoll_read (p : Poll) : M StateStore ApiError (Z * NetMap) :=
  store_call (read (poll_read (po_headers p) (app_admin_token app) (po_node_id p)
                      (relay_or_none (app_relay app)))).

(** Go on with [k] when the access succeeds; [?] ends the handler otherwise. *)
Definition goes_on {A} (m : M StateStore ApiError A) (k : A → Task) (w : World) (st : StateStore)
    : Task * World * StateStore :=
  match m w st with
  | (Ok a, w, st) => (k a, w, st)
  | (Err e, w, st) => (TDone (Err e), w, st)
  end.

(** One step of a task; [None] when it has ended or is asleep. *)
Definition task_step (now : Z) (t : Task) (w : World) (st : StateStore)
    : option (Task * World * StateStore) :=
  match t with
  | TStart (PostRegister req) =>
      Some (goes_on (register_write req) (λ '(node_token, node_id), TRegistered node_token node_id) w st)
  | TRegistered node_token node_id =>
      Some (goes_on (register_read node_token node_id) (λ b, TDone (Ok (RegisterBody b))) w st)
  | TStart (PostHeartbeat headers remote_ip req) =>
      Some (goes_on (heartbeat_write headers remote_ip req) (λ _, TBeaten (hb_node_id req)) w st)
  | TBeaten node_id =>
      Some (goes_on (heartbeat_read node_id) (λ b, TDone (Ok (HeartbeatBody b))) w st)
  | TStart r => Some (goes_on (serve app r) (λ _, TDone (Ok Status)) w st)
  | TPoll p => Some (goes_on (longpoll_read p) (λ '(revision, netmap), TRead p revision netmap) w st)
  | TRead p revision netmap =>
      if (po_since p <? revision) || (po_deadline p <=? now)
      then Some (TDone (Ok (NetmapBody netmap)), w, st)
      else Some (TSleep p (now + 500), w, st)
  | TSleep p wake => if wake <=? now then Some (TPoll p, w, st) else None
  | TDone _ | TDropped => None
  end.

End Tasks.

(** ** Schedules *)
Section Schedules.
Context `{IpNet} `{Crates} `{HashOrder} `{Serde}.

Definition arrive (app : AppState) (now : Z) (call : Call) : Job :=
  mkJob app call now
    match call with
    | Plain r => TStart r
    | Longpoll headers node_id params => TPoll (longpoll_start now headers node_id params)
    end.

(** The requests whose write, or only access, runs in a step, with their servers and the
    world they saw *)
Definition Log : Type := list (nat * (AppState * Request) * World).

Definition step (l : Label) (c : Sys) : option (Log * Sys) :=
  match l with
  | LArrive app call =>
      Some ([], c <| sy_jobs := sy_jobs c ++ [arrive app (sy_now c) call] |>)
  | LTick d => if 0 <=? d then Some ([], c <| sy_now := sy_now c + d |>) else None
  | LRun i =>
      j ← sy_jobs c !! i;
      '(t, w, st) ← task_step (jb_app j) (sy_now c) (jb_task j) (sy_world c) (sy_store c);
      Some (match jb_task j with TStart r => [(i, (jb_app j, r), sy_world c)] | _ => [] end,
            mkSys (sy_now c) w st (<[i := (j : Job) <| jb_task := t |>]> (sy_jobs c)))
  | LDrop i =>
      j ← sy_jobs c !! i;
      match jb_task j with
      | TDone _ => None
      | _ => Some ([], c <| sy_jobs := <[i := (j : Job) <| jb_task := TDropped |>]> (sy_jobs c) |>)
      end
  end.

Fixpoint schedule (ls : list Label) (c : Sys) : option (Log * Sys) :=
  match ls with
  | [] => Some ([], c)
  | l :: ls =>
      '(log1, c1) ← step l c;
      '(log2, c2) ← schedule ls c1;
      Some (log1 ++ log2, c2)
  end.

(** A server that has just started *)
Definition idle (now : Z) (w : World) (st : StateStore) : Sys := mkSys now w st [].
End Schedules.

(** ** One task at a time *)
Section Splitting.
Context `{IpNet} `{Crates} `{HashOrder} `{Serde}.
Context (app : AppState).

(** The two halves make up the handler. *)
Lemma register_split req w st :
  register app req w st =
    (register_write req ≫= λ '(node_token, node_id), register_read app node_token node_id) w st.
Proof.
  unfold register, register_write, register_read, mbind, M_bind.
  repeat (case_match; simplify_eq; try done).
Qed.

Lemma heartbeat_split headers ip req w st :
  heartbeat app headers ip req w st =
    (heartbeat_write app headers ip req ≫= λ _, heartbeat_read app (hb_node_id req)) w st.
Proof.
  unfold heartbeat, heartbeat_write, heartbeat_read, mbind, M_bind.
  repeat (case_match; simplify_eq; try done).
Qed.

Lemma register_read_pure node_token node_id : pure_on (register_read app node_token node_id).
Proof. unfold register_read. solve_tail. Qed.
Lemma heartbeat_read_pure node_id : pure_on (heartbeat_read app node_id).
Proof. unfold heartbeat_read. solve_tail. Qed.
Lemma longpoll_read_pure p : pure_on (longpoll_read app p).
Proof. unfold longpoll_read. solve_tail. Qed.

Lemma goes_on_store {A} (m : M StateStore ApiError A) k w st : (goes_on m k w st).2 = (m w st).2.
Proof. unfold goes_on. by destruct (m w st) as [[[a|e] w'] st']. Qed.

Lemma goes_on_pure {A} (m : M StateStore ApiError A) k w st : pure_on m → (goes_on m k w st).2 = st.
Proof. intros Hm. by rewrite goes_on_store. Qed.

(** The part of a handler that follows its write does not change the store. *)
Lemma status_store {A} (m : M StateStore ApiError A) w st : (status m w st).2 = (m w st).2.
Proof. unfold status, mbind, M_bind. by destruct (m w st) as [[[a|e] w'] st']. Qed.

Lemma bind_store {A B} (m : M StateStore ApiError A) (k : A → M StateStore ApiError B) w st :
  (∀ a, pure_on (k a)) → ((m ≫= k) w st).2 = (m w st).2.
Proof.
  intros Hk. unfold mbind, M_bind. destruct (m w st) as [[[a|e] w'] st']; [|done]. apply Hk.
Qed.

(** A task changes the store in its first step only, as [serve] does. *)
Lemma task_step_store now t w st x :
  task_step app now t w st = Some x →
  x.2 = match t with TStart r => (serve app r w st).2 | _ => st end.
Proof.
  destruct t as [r| | |p|p rv nm|p wake| |]; simpl; try done.
  - intros Hs. trans (goes_on (serve app r) (λ _, TDone (Ok Status)) w st).2;
      [|by rewrite goes_on_store].
    destruct r; injection Hs as <-; rewrite !goes_on_store; try done; simpl; rewrite status_store.
    + rewrite register_split, bind_store; [done|]. intros [tok id]. apply register_read_pure.
    + rewrite heartbeat_split, bind_store; [done|]. intros _. apply heartbeat_read_pure.
  - intros [= <-]. apply goes_on_pure, register_read_pure.
  - intros [= <-]. apply goes_on_pure, heartbeat_read_pure.
  - intros [= <-]. apply goes_on_pure, longpoll_read_pure.
  - destruct (orb _ _); by intros [= <-].
  - destruct (_ <=? _); by intros [= <-].
Qed.

(** The status of a response *)
Definition void (res : result Response ApiError) : result unit ApiError :=
  match res with Ok _ => Ok tt | Err e => Err e end.

(** Routes with one store access at most *)
Definition one_access (r : Request) : bool :=
  match r with PostRegister _ | PostHeartbeat _ _ _ => false | _ => true end.

(** Such a task is done after one step, with the answer of [serve]. *)
Lemma task_step_one_access now r w st t' w' st' :
  one_access r = true → task_step app now (TStart r) w st = Some (t', w', st') →
  ∃ res, t' = TDone res ∧ serve app r w st = (void res, w', st').
Proof.
  intros Hr Ht.
  assert (Some (goes_on (serve app r) (λ _, TDone (Ok Status)) w st) = Some (t', w', st')) as Hg.
  { rewrite <- Ht. by destruct r. }
  clear Ht. injection Hg as Hg. unfold goes_on in Hg.
  destruct (serve app r w st) as [[[[]|e] w1] st1]; injection Hg as <- <- <-; by eexists.
Qed.
End Splitting.

(** ** Linearization

    [serial] serves the requests of a log one after the other, each in the world it saw. *)
Section Linearization.
Context `{IpNet} `{Crates} `{HashOrder} `{Serde}.

Fixpoint serial (log : Log) (st : StateStore)
    : list (nat * Request * result unit ApiError) * StateStore :=
  match log with
  | [] => ([], st)
  | (i, (app, r), w) :: log =>
      match serve app r w st with
      | (res, _, st) => match serial log st with (rs, st) => ((i, r, res) :: rs, st) end
      end
  end.

Lemma serial_app log1 log2 st :
  serial (log1 ++ log2) st =
    ((serial log1 st).1 ++ (serial log2 (serial log1 st).2).1,
     (serial log2 (serial log1 st).2).2).
Proof.
  revert st. induction log1 as [|[[i [app r]] w] log1 IH]; intros st; simpl.
  { by destruct (serial log2 st). }
  destruct (serve app r w st) as [[res w'] st1]. rewrite IH.
  by destruct (serial log1 st1) as [rs st2].
Qed.

Definition served (log : Log) (i : nat) : Prop := ∃ r w, (i, r, w) ∈ log.

(** Where a request stands, and what it has left in the log and got as an answer *)
Definition job_lin (log : Log) (answers : list (nat * Request * result unit ApiError))
    (i : nat) (j : Job) : Prop :=
  match jb_call j, jb_task j with
  | Plain r, TStart r' => r' = r ∧ ¬ served log i
  | Plain r, (TRegistered _ _ | TBeaten _) => one_access r = false ∧ ∃ w, (i, (jb_app j, r), w) ∈ log
  | Plain r, TDone res =>
      (∃ w, (i, (jb_app j, r), w) ∈ log) ∧ (one_access r = true → (i, r, void res) ∈ answers)
  | Longpoll _ _ _, (TPoll _ | TRead _ _ _ | TSleep _ _ | TDone _) => True
  | _, TDropped => True
  | _, _ => False
  end.

Record lin (st : StateStore) (log : Log) (c : Sys) : Prop := {
  ln_store : (serial log st).2 = sy_store c;
  ln_once : NoDup log.*1.*1;
  ln_log i app r w : (i, (app, r), w) ∈ log →
    ∃ j, sy_jobs c !! i = Some j ∧ jb_app j = app ∧ jb_call j = Plain r;
  ln_jobs i j : sy_jobs c !! i = Some j → job_lin log (serial log st).1 i j;
}.

Lemma served_iff log i : served log i ↔ i ∈ log.*1.*1.
Proof.
  unfold served. rewrite list_elem_of_fmap. setoid_rewrite list_elem_of_fmap. split.
  - intros (r & w & Hin). exists (i, r). split; [done|]. by exists (i, r, w).
  - intros ([? r] & -> & [[? ?] w] & [= -> ->] & Hin). by eexists _, w.
Qed.

(** The log and the answers grow. *)
Lemma job_lin_grow log log' ans ans' i j :
  job_lin log ans i j → ¬ served log' i → job_lin (log ++ log') (ans ++ ans') i j.
Proof.
  intros Hj Hno. unfold job_lin, served in *.
  destruct (jb_call j), (jb_task j); try done; setoid_rewrite elem_of_app; naive_solver.
Qed.

(** The calls of the jobs do not change. *)
Lemma update_call (jobs : list Job) i j t k app r :
  jobs !! i = Some j → (∃ j', jobs !! k = Some j' ∧ jb_app j' = app ∧ jb_call j' = Plain r) →
  ∃ j', <[i := (j : Job) <| jb_task := t |>]> jobs !! k = Some j' ∧
    jb_app j' = app ∧ jb_call j' = Plain r.
Proof.
  intros Hi (j' & Hk & Ha & Hc). destruct (decide (i = k)) as [->|Hne].
  - rewrite list_lookup_insert_eq; [|by eapply lookup_lt_Some]. eexists. split; [done|].
    simpl. assert (j = j') as <- by congruence. done.
  - rewrite list_lookup_insert_ne by done. eauto.
Qed.

(** A step that neither reads nor writes for the first time. *)
Lemma lin_update st log c i j t w now :
  lin st log c → sy_jobs c !! i = Some j →
  job_lin log (serial log st).1 i ((j : Job) <| jb_task := t |>) →
  lin st log (mkSys now w (sy_store c) (<[i := (j : Job) <| jb_task := t |>]> (sy_jobs c))).
Proof.
  intros [Hst Hon Hlog Hjobs] Hi Hj. split; [done|done|..]; simpl.
  - intros k app r w' Hin. apply update_call; eauto.
  - intros k j' [(<- & <- & _)|[_ Hk]]%list_lookup_insert_Some; eauto.
Qed.

Lemma lin_arrive st log c app call :
  lin st log c → lin st log (c <| sy_jobs := sy_jobs c ++ [arrive app (sy_now c) call] |>).
Proof.
  intros [Hst Hon Hlog Hjobs]. split; [done|done|..]; simpl.
  - intros i a r w (j & Hj & Hc)%Hlog. exists j. split; [|done]. by apply lookup_app_l_Some.
  - intros i j [Hi|[Hle Hi]]%lookup_app_Some; [by apply Hjobs|].
    apply list_lookup_singleton_Some in Hi as [Hi <-]. destruct call; [|done]. split; [done|].
    intros ([a r'] & w & (j & Hj & _)%Hlog). apply lookup_lt_Some in Hj. lia.
Qed.

(** A request is served. *)
Lemma lin_serve st log c i j r t w' st' :
  lin st log c → sy_jobs c !! i = Some j → jb_task j = TStart r →
  task_step (jb_app j) (sy_now c) (TStart r) (sy_world c) (sy_store c) = Some (t, w', st') →
  lin st (log ++ [(i, (jb_app j, r), sy_world c)])
    (mkSys (sy_now c) w' st' (<[i := (j : Job) <| jb_task := t |>]> (sy_jobs c))).
Proof.
  intros [Hst Hon Hlog Hjobs] Hi Ht Hs.
  assert (jb_call j = Plain r ∧ ¬ served log i) as [Hc Hno].
  { specialize (Hjobs i j Hi). unfold job_lin in Hjobs. rewrite Ht in Hjobs.
    destruct (jb_call j); naive_solver. }
  pose proof (task_step_store _ _ _ _ _ _ Hs) as Hst'. simpl in Hst'.
  destruct (serve (jb_app j) r (sy_world c) (sy_store c)) as [[res w1] st1] eqn:Es.
  simpl in Hst'; subst st'.
  assert (serial (log ++ [(i, (jb_app j, r), sy_world c)]) st =
    ((serial log st).1 ++ [(i, r, res)], st1)) as Eser.
  { rewrite serial_app, Hst. simpl. by rewrite Es. }
  split; simpl; rewrite ?Eser; [done|..].
  - rewrite !fmap_app. simpl. apply NoDup_app. split; [done|]. split; [|apply NoDup_singleton].
    intros k Hk ->%list_elem_of_singleton. by apply Hno, served_iff.
  - intros k a r0 w0 [Hk|Heq%list_elem_of_singleton]%elem_of_app; [|injection Heq as -> -> -> _];
      apply update_call; eauto.
  - intros k j' [(<- & <- & _)|[Hne Hk]]%list_lookup_insert_Some.
    + unfold job_lin. simpl. rewrite Hc.
      assert (∃ w, (i, (jb_app j, r), w) ∈ log ++ [(i, (jb_app j, r), sy_world c)]) as Hin.
      { exists (sy_world c). rewrite elem_of_app, list_elem_of_singleton. by right. }
      destruct (one_access r) eqn:Hone.
      * destruct (task_step_one_access _ _ _ _ _ _ _ _ Hone Hs) as (res' & -> & Es').
        split; [done|]. intros _. rewrite Es in Es'. injection Es' as -> _.
        rewrite elem_of_app, list_elem_of_singleton. by right.
      * destruct r; try done; injection Hs as Hs; unfold goes_on in Hs;
          repeat case_match; simplify_eq; done.
    + apply job_lin_grow; [by apply Hjobs|]. intros (r0 & w0 & [= -> _ _]%list_elem_of_singleton).
      done.
Qed.

(** What a task that has been served does next *)
Lemma task_step_lin app now w0 st0 log ans i j t w st :
  job_lin log ans i j → task_step app now (jb_task j) w0 st0 = Some (t, w, st) →
  (∀ r, jb_task j ≠ TStart r) → job_lin log ans i ((j : Job) <| jb_task := t |>).
Proof.
  unfold job_lin. simpl. intros Hj Hs Hne.
  destruct (jb_call j) as [r|h id params], (jb_task j); try done; simpl in Hs;
    unfold goes_on in Hs; repeat case_match; simplify_eq; naive_solver congruence.
Qed.

Lemma lin_step st log c l log' c' :
  lin st log c → step l c = Some (log', c') → lin st (log ++ log') c'.
Proof.
  intros Hl. destruct l as [app call|d|i|i]; simpl.
  - intros [= <- <-]. rewrite app_nil_r. by apply lin_arrive.
  - case_match; [|done]. intros [= <- <-]. rewrite app_nil_r. by destruct Hl.
  - destruct (sy_jobs c !! i) as [j|] eqn:Hi; [|done]. simpl.
    destruct (task_step _ _ _ _ _) as [[[t w] st1]|] eqn:Hs; [|done]. simpl. intros [= <- <-].
    pose proof (task_step_store _ _ _ _ _ _ Hs) as Hst. simpl in Hst.
    destruct (jb_task j) as [r| | | | | | |] eqn:Ht; [by eapply lin_serve| |..];
      rewrite app_nil_r, Hst; (apply lin_update; [done|done|]);
      (eapply task_step_lin; [by eapply ln_jobs|by rewrite Ht|by rewrite Ht]).
  - destruct (sy_jobs c !! i) as [j|] eqn:Hi; [|done]. simpl. intros Hs.
    assert (log' = [] ∧ c' = c <| sy_jobs := <[i := (j : Job) <| jb_task := TDropped |>]> (sy_jobs c) |>)
      as [-> ->] by (destruct (jb_task j); by inversion Hs).
    rewrite app_nil_r. apply (lin_update _ _ _ _ _ _ (sy_world c) (sy_now c)); [done|done|].
    unfold job_lin. simpl. by destruct (jb_call j).
Qed.

Lemma lin_schedule st log c ls log' c' :
  lin st log c → schedule ls c = Some (log', c') → lin st (log ++ log') c'.
Proof.
  revert log c log'. induction ls as [|l ls IH]; intros log c log' Hl; simpl.
  { intros [= <- <-]. by rewrite app_nil_r. }
  destruct (step l c) as [[log1 c1]|] eqn:Hs; [|done]. simpl.
  destruct (schedule ls c1) as [[log2 c2]|] eqn:Hr; [|done]. simpl. intros [= <- <-].
  rewrite app_assoc. eapply IH; [|done]. by eapply lin_step.
Qed.

Lemma lin_idle now w st : lin st [] (idle now w st).
Proof. split; [done|constructor|by intros ???? ?%not_elem_of_nil|done]. Qed.

(** C4. Requests that run at the same time, on one server or on several that share a
    database, can be put in a sequence.  Whatever the schedule, the store is the one that
    serving the requests of the log one after the other leaves; each request is in this
    log at most once; and every request that was answered is in it, with the same outcome,
    success or the same error, where the handler has one store access.  (The response of
    [register] and of [heartbeat] is read after their place in the sequence.) *)
Theorem concurrent_linearizable ls now w st log c :
  schedule ls (idle now w st) = Some (log, c) →
  (serial log st).2 = sy_store c ∧ NoDup log.*1.*1 ∧
  (∀ i app r w, (i, (app, r), w) ∈ log →
     ∃ j, sy_jobs c !! i = Some j ∧ jb_app j = app ∧ jb_call j = Plain r) ∧
  (∀ i j r res, sy_jobs c !! i = Some j → jb_call j = Plain r → jb_task j = TDone res →
     (∃ w, (i, (jb_app j, r), w) ∈ log) ∧
     (one_access r = true → (i, r, void res) ∈ (serial log st).1)).
Proof.
  intros Hs. destruct (lin_schedule _ _ _ _ _ _ (lin_idle now w st) Hs) as [Hst Hon Hlog Hjobs].
  split; [done|]. split; [done|]. split; [done|]. intros i j r res Hi Hc Ht.
  specialize (Hjobs i j Hi). unfold job_lin in Hjobs. by rewrite Hc, Ht in Hjobs.
Qed.
End Linearization.

(** ** Invariants of every schedule *)

Definition call_typed (call : Call) : Prop :=
  match call with Plain r => request_typed r | Longpoll _ _ _ => True end.
Definition label_typed (l : Label) : Prop :=
  match l with LArrive _ call => call_typed call | _ => True end.

(** The state of a request that is under way, at time [now].  A poll that has been answered
    was answered with something newer, or late. *)
Definition job_ok (now : Z) (j : Job) : Prop :=
  call_typed (jb_call j) ∧
  match jb_call j with
  | Plain r =>
      match jb_task j with
      | TStart r' => r' = r
      | TPoll _ | TRead _ _ _ | TSleep _ _ => False
      | _ => True
      end
  | Longpoll headers node_id params =>
      let p := longpoll_start (jb_at j) headers node_id params in
      match jb_task j with
      | TPoll p' => p' = p
      | TRead p' revision netmap => p' = p ∧ nm_revision netmap = revision
      | TSleep p' wake => p' = p ∧ wake ≤ now + 500
      | TDone (Ok (NetmapBody nm)) => po_since p < nm_revision nm ∨ po_deadline p ≤ now
      | TDone (Ok _) => False
      | TDone (Err _) | TDropped => True
      | TStart _ | TRegistered _ _ | TBeaten _ => False
      end
  end.

Definition jobs_ok (c : Sys) : Prop := Forall (job_ok (sy_now c)) (sy_jobs c).

Lemma job_ok_later now now' j : now ≤ now' → job_ok now j → job_ok now' j.
Proof.
  unfold job_ok. intros Hle [Hty Hj]. split; [done|].
  destruct (jb_call j); [done|]. simpl in *. repeat case_match; intuition lia.
Qed.

Section Reads.
Context `{IpNetLaws} `{Crates} `{HashOrder} `{SerdeLaws}.
Context (app : AppState).

(** What a poll reads: the netmap of the state in view, with its revision *)
Lemma longpoll_read_view p w st rv nm w' st' :
  longpoll_read app p w st = (Ok (rv, nm), w', st') →
  ∃ s, view st = Some s ∧ rv = st_revision s ∧ nm_revision nm = st_revision s.
Proof.
  unfold longpoll_read, store_call.
  destruct (read _ w st) as [[[a|e] w1] st1] eqn:Er; [|done]. intros [= -> _ _].
  apply read_view in Er as (s & w0 & w2 & s1 & Hv & Hp). exists s. split; [done|].
  unfold poll_read in Hp. run_inv Hp. injection Hrun as -> -> ->. run_inv Hp. run_inv Hp. run_inv Hp.
  assert (∀ A (m : M State ApiError A) w s a w' s',
    pure_on m → m w s = (Ok a, w', s') → s' = s) as Hpure.
  { intros A m wa sa a' wb sb Hm He. specialize (Hm wa sa). by rewrite He in Hm. }
  apply Hpure in Hrun as ->; [|apply pure_ok_or]. apply Hpure in Hrun0 as ->; [|apply pure_try_result].
  apply build_netmap_inv in Hrun1 as (? & ? & ? & _ & _ & _ & _ & _ & _ & _ & _ & _ & Hrev).
  injection Hp as <- <-. done.
Qed.

Lemma task_step_ok now j w st t w' st' :
  job_ok now j → task_step app now (jb_task j) w st = Some (t, w', st') →
  job_ok now ((j : Job) <| jb_task := t |>).
Proof.
  unfold job_ok. simpl. intros [Hty Hj] Hs. split; [done|].
  destruct (jb_call j) as [r|headers node_id params].
  - destruct (jb_task j) as [r0| | | | | | |]; [destruct r0|..]; try done; simpl in Hs;
      unfold goes_on in Hs; repeat case_match; simplify_eq; done.
  - destruct (jb_task j) as [| | |p|p rv nm|p wake|res|]; try done; simpl in Hs.
    + injection Hs as Hs. unfold goes_on in Hs.
      destruct (longpoll_read app p w st) as [[[[rv nm]|e] w1] st1] eqn:Er; injection Hs as <- <- <-;
        [|done].
      apply longpoll_read_view in Er as (s & _ & -> & ->). done.
    + destruct Hj as [-> Hrev]. destruct (orb _ _) eqn:Ho; injection Hs as <- <- <-; [|by split].
      rewrite Hrev. apply orb_true_iff in Ho as [?%Z.ltb_lt|?%Z.leb_le]; auto.
    + destruct Hj as [-> _]. destruct (_ <=? _); by inversion Hs.
Qed.

End Reads.

Section Invariants.
Context `{IpNetLaws} `{Crates} `{HashOrder} `{SerdeLaws}.

Lemma step_jobs_ok l c log c' :
  label_typed l → jobs_ok c → step l c = Some (log, c') → jobs_ok c'.
Proof.
  unfold jobs_ok. intros Hty Hok. destruct l as [app call|d|i|i]; simpl.
  - intros [= <- <-]. simpl. apply Forall_app. split; [done|]. constructor; [|done].
    split; [done|]. destruct call; simpl; naive_solver.
  - destruct (_ <=? _) eqn:Hd; [|done]. intros [= <- <-]. simpl. bool_props.
    eapply Forall_impl; [done|]. intros j. apply job_ok_later. lia.
  - destruct (sy_jobs c !! i) as [j|] eqn:Hi; [|done]. simpl.
    destruct (task_step _ _ _ _ _) as [[[t w] st1]|] eqn:Hs; [|done]. simpl. intros [= <- <-].
    simpl. apply Forall_insert; [done|]. eapply task_step_ok; [|done].
    by eapply Forall_lookup_1.
  - destruct (sy_jobs c !! i) as [j|] eqn:Hi; [|done]. simpl. intros Hs.
    assert (c' = c <| sy_jobs := <[i := (j : Job) <| jb_task := TDropped |>]> (sy_jobs c) |>)
      as -> by (destruct (jb_task j); by inversion Hs).
    simpl. apply Forall_insert; [done|].
    pose proof (Forall_lookup_1 _ _ _ _ Hok Hi) as [Htyj _].
    split; [done|]. simpl. by destruct (jb_call j).
Qed.

(** A property of the state that every closure keeps holds under every schedule. *)
Lemma step_preserves I l c log c' :
  (∀ app, closed app true I) → jobs_ok c → on_view I (sy_store c) →
  step l c = Some (log, c') → on_view I (sy_store c').
Proof.
  intros Hc Hok HI. destruct l as [app call|d|i|i]; simpl.
  - by intros [= <- <-].
  - destruct (_ <=? _); by intros [= <- <-].
  - destruct (sy_jobs c !! i) as [j|] eqn:Hi; [|done]. simpl.
    destruct (task_step _ _ _ _ _) as [[[t w] st1]|] eqn:Hs; [|done]. simpl. intros [= <- <-].
    apply task_step_store in Hs. simpl in *. rewrite Hs.
    destruct (jb_task j) as [r| | | | | | |] eqn:Ht; try done.
    assert (request_typed r) as Hty.
    { destruct (Forall_lookup_1 _ _ _ _ Hok Hi) as [Htyj Hj]. rewrite Ht in Hj.
      destruct (jb_call j); [|done]. by rewrite Hj. }
    pose proof (serve_preserves (jb_app j) true I r (Hc _) (λ _, eq_refl) Hty
      (sy_world c) (sy_store c) HI) as Hp.
    by destruct (serve (jb_app j) r (sy_world c) (sy_store c)) as [[[a|e] w'] st'].
  - destruct (sy_jobs c !! i) as [j|]; [|done]. simpl.
    destruct (jb_task j); by intros [= <- <-].
Qed.

Lemma schedule_ok I ls c log c' :
  (∀ app, closed app true I) → Forall label_typed ls → jobs_ok c → on_view I (sy_store c) →
  schedule ls c = Some (log, c') → jobs_ok c' ∧ on_view I (sy_store c').
Proof.
  intros Hc Hty. revert c log. induction Hty as [|l ls Hl Hls IH]; intros c log Hok HI; simpl.
  { by intros [= <- <-]. }
  destruct (step l c) as [[log1 c1]|] eqn:Hs; [|done]. simpl.
  destruct (schedule ls c1) as [[log2 c2]|] eqn:Hr; [|done]. simpl. intros [= <- <-].
  eapply IH; [by eapply step_jobs_ok|by eapply step_preserves|done].
Qed.

Lemma closed_true app : closed app true (λ _, True).
Proof.
  split; intros; try done; intros w s _;
    match goal with |- context [match ?x with _ => _ end] => by destruct x as [[[]?]?] end.
Qed.
End Invariants.

(** ** Waking up *)
Section Waking.
Context `{IpNetLaws} `{Crates} `{HashOrder} `{SerdeLaws}.

(** The answer of a poll is due: there is something newer, or the time is over. *)
Definition due (p : Poll) (c : Sys) : Prop :=
  po_deadline p ≤ sy_now c ∨
  ∃ ver log, on_view (extends ver (po_since p + 1) log) (sy_store c).

(** The steps a poll still takes when its answer is due *)
Definition owes (now : Z) (p : Poll) (t : Task) : nat :=
  match t with
  | TSleep _ _ => 3
  | TPoll _ => 2
  | TRead _ revision _ => if (po_since p <? revision) || (po_deadline p <=? now) then 1 else 4
  | _ => 0
  end.

Definition is_run (i : nat) (l : Label) : bool :=
  match l with LRun k => bool_decide (k = i) | _ => false end.
(** How often the task [i] runs in a schedule *)
Definition runs (i : nat) (ls : list Label) : nat := length (filter (λ l, is_run i l = true) ls).

Lemma owes_later now now' p t : now ≤ now' → (owes now' p t ≤ owes now p t)%nat.
Proof.
  intros Hle. destruct t; simpl; try lia.
  destruct (po_since p <? revision); simpl; [lia|].
  destruct (Z.leb_spec (po_deadline p) now), (Z.leb_spec (po_deadline p) now'); lia.
Qed.

Lemma step_time l c log c' : step l c = Some (log, c') → sy_now c ≤ sy_now c'.
Proof.
  destruct l as [app call|d|i|i]; simpl.
  - by intros [= <- <-].
  - destruct (Z.leb_spec 0 d); [|done]. intros [= <- <-]. simpl. lia.
  - destruct (sy_jobs c !! i); [|done]. simpl. destruct (task_step _ _ _ _ _) as [[[]?]|]; [|done].
    by intros [= <- <-].
  - destruct (sy_jobs c !! i) as [j|]; [|done]. simpl. destruct (jb_task j); by intros [= <- <-].
Qed.

Lemma step_due p l c log c' :
  jobs_ok c → due p c → step l c = Some (log, c') → due p c'.
Proof.
  intros Hok [Hd|(ver & hist & Hv)] Hs; [left; apply step_time in Hs; lia|right].
  exists ver, hist. eapply step_preserves; [intros; apply extends_closed|done|done|done].
Qed.

(** Each step of a poll whose answer is due brings it closer to the answer. *)
Lemma task_step_owes app now p t w st t' w' st' :
  po_deadline p ≤ now ∨ (∃ ver log, on_view (extends ver (po_since p + 1) log) st) →
  match t with TPoll q | TRead q _ _ | TSleep q _ => q = p | _ => False end →
  task_step app now t w st = Some (t', w', st') → (S (owes now p t') ≤ owes now p t)%nat.
Proof.
  intros Hdue Ht Hs. destruct t as [| | |q|q rv nm|q wake| |]; try done; subst q; simpl in Hs |- *.
  - injection Hs as Hs. unfold goes_on in Hs.
    destruct (longpoll_read app p w st) as [[[[rv nm]|e] w1] st1] eqn:Er; injection Hs as <- <- <-;
      [|simpl; lia].
    apply longpoll_read_view in Er as (s & Hv & -> & _). simpl.
    assert ((po_since p <? st_revision s) || (po_deadline p <=? now) = true) as ->; [|lia].
    apply orb_true_iff. destruct Hdue as [Hd|(ver & log & He)]; [right; by apply Z.leb_le|left].
    destruct (He s Hv) as [_ [Hr _] _]. apply Z.ltb_lt. lia.
  - destruct (orb _ _); injection Hs as <- <- <-; simpl; lia.
  - destruct (_ <=? _); [|done]. injection Hs as <- <- <-. simpl. lia.
Qed.

(** A poll that has neither been answered nor dropped is in its loop. *)
Lemma polling now j headers node_id params :
  job_ok now j → jb_call j = Longpoll headers node_id params → jb_task j ≠ TDropped →
  (∃ res, jb_task j = TDone res) ∨
  match jb_task j with
  | TPoll q | TRead q _ _ | TSleep q _ => q = longpoll_start (jb_at j) headers node_id params
  | _ => False
  end.
Proof.
  intros [_ Hj] Hc Hd. rewrite Hc in Hj. destruct (jb_task j); naive_solver.
Qed.

(** What a step does to one request *)
Lemma step_job l c log c' i j :
  step l c = Some (log, c') → sy_jobs c !! i = Some j →
  ∃ j', sy_jobs c' !! i = Some j' ∧ jb_call j' = jb_call j ∧ jb_at j' = jb_at j ∧
    ((l = LRun i ∧ sy_now c' = sy_now c ∧ ∃ w st,
        task_step (jb_app j) (sy_now c) (jb_task j) (sy_world c) (sy_store c)
        = Some (jb_task j', w, st)) ∨
     (l = LDrop i ∧ jb_task j' = TDropped ∧ ∀ res, jb_task j ≠ TDone res) ∨
     (is_run i l = false ∧ jb_task j' = jb_task j)).
Proof.
  intros Hs Hi. pose proof (lookup_lt_Some _ _ _ Hi) as Hlt. destruct l as [app call|d|k|k]; simpl in Hs.
  - injection Hs as <- <-. exists j. simpl. rewrite lookup_app_l by done. naive_solver.
  - destruct (_ <=? _); [|done]. injection Hs as <- <-. exists j. naive_solver.
  - destruct (sy_jobs c !! k) as [jk|] eqn:Hk; [|done]. simpl in Hs.
    destruct (task_step _ _ _ _ _) as [[[t w] st]|] eqn:Ht; [|done]. injection Hs as <- <-. simpl.
    destruct (decide (k = i)) as [->|Hne].
    + rewrite list_lookup_insert_eq by done. assert (jk = j) as -> by congruence.
      eexists. split; [done|]. simpl. eauto 8.
    + rewrite list_lookup_insert_ne by done. exists j. rewrite bool_decide_eq_false_2 by done. auto 8.
  - destruct (sy_jobs c !! k) as [jk|] eqn:Hk; [|done]. simpl in Hs.
    assert (c' = c <| sy_jobs := <[k := (jk : Job) <| jb_task := TDropped |>]> (sy_jobs c) |> ∧
      ∀ res, jb_task jk ≠ TDone res) as [-> Hnd] by (destruct (jb_task jk); by inversion Hs).
    simpl. destruct (decide (k = i)) as [->|Hne].
    + rewrite list_lookup_insert_eq by done. assert (jk = j) as -> by congruence.
      eexists. split; [done|]. simpl. auto 8.
    + rewrite list_lookup_insert_ne by done. exists j. auto 8.
Qed.

Lemma schedule_owes ls c log c' i j headers node_id params :
  Forall label_typed ls → jobs_ok c → schedule ls c = Some (log, c') → LDrop i ∉ ls →
  sy_jobs c !! i = Some j → jb_call j = Longpoll headers node_id params → jb_task j ≠ TDropped →
  let p := longpoll_start (jb_at j) headers node_id params in
  due p c →
  jobs_ok c' ∧ ∃ j', sy_jobs c' !! i = Some j' ∧ jb_call j' = jb_call j ∧ jb_task j' ≠ TDropped ∧
    (owes (sy_now c') p (jb_task j') + runs i ls ≤ owes (sy_now c) p (jb_task j))%nat.
Proof.
  intros Hty. revert c log j.
  induction Hty as [|l ls Hl _ IH]; intros c log j Hok Hs Hdrop Hi Hc Hnd p Hdue; simpl in Hs.
  { injection Hs as <- <-. split; [done|]. exists j. unfold runs. simpl. auto with lia. }
  destruct (step l c) as [[log1 c1]|] eqn:Hs1; [|done]. simpl in Hs.
  destruct (schedule ls c1) as [[log2 c2]|] eqn:Hr; [|done]. injection Hs as <- <-.
  apply not_elem_of_cons in Hdrop as [Hne Hdrop].
  destruct (step_job _ _ _ _ _ _ Hs1 Hi) as (j1 & Hi1 & Hc1 & Ha1 & Hcase).
  assert (jb_task j1 ≠ TDropped ∧
    (owes (sy_now c1) p (jb_task j1) + (if is_run i l then 1 else 0) ≤
     owes (sy_now c) p (jb_task j))%nat) as [Hnd1 Hless].
  { pose proof (Forall_lookup_1 _ _ _ _ Hok Hi) as Hj.
    destruct Hcase as [(-> & -> & w & st & Ht)|[(-> & _)|[-> ->]]]; [|done|].
    - simpl. rewrite bool_decide_eq_true_2 by done.
      destruct (polling _ _ _ _ _ Hj Hc Hnd) as [[res Hd]|Hp]; [by rewrite Hd in Ht|].
      split; [|pose proof (task_step_owes _ _ _ _ _ _ _ _ _ Hdue Hp Ht); lia].
      intros Hd. rewrite Hd in Ht. destruct (jb_task j); simpl in Ht; try done;
        unfold goes_on in Ht; repeat case_match; simplify_eq.
    - split; [done|]. rewrite Nat.add_0_r. eapply owes_later, step_time; done. }
  assert (jobs_ok c1) as Hok1 by by eapply step_jobs_ok.
  destruct (IH c1 log2 j1 Hok1 Hr Hdrop Hi1) as [Hok2 (j2 & Hi2 & Hc2 & Hnd2 & Hless2)];
    [congruence|done|rewrite Ha1; eapply step_due; [exact Hok|exact Hdue|exact Hs1]|].
  split; [done|]. exists j2. rewrite Ha1 in Hless2. unfold p in *.
  split; [done|]. split; [congruence|]. split; [done|].
  unfold runs in *. rewrite filter_cons. destruct (is_run i l); case_decide; simpl; try done; lia.
Qed.
End Waking.

(** ** What a client reads after its own write *)
Section OwnWrites.
Context `{IpNetLaws} `{Crates} `{HashOrder} `{SerdeLaws}.
Context (app : AppState).

Definition body_netmap (b : Response) : option NetMap :=
  match b with
  | Status => None
  | RegisterBody b => Some (rs_netmap b)
  | HeartbeatBody b => Some (hbr_netmap b)
  | NetmapBody nm => Some nm
  end.

(** A request past its write, if it gets an answer, gets one from revision [v] or above. *)
Definition reply_new (v : Z) (t : Task) : Prop :=
  match t with
  | TRegistered _ _ | TBeaten _ | TDropped | TDone (Err _) => True
  | TDone (Ok b) => ∃ nm, body_netmap b = Some nm ∧ v ≤ nm_revision nm
  | _ => False
  end.

(** A write that is acknowledged increments the revision, unless it is the largest u64. *)
Lemma write_newer {R} (f : M State ApiError R) s :
  preserves (extends (st_version s) (st_revision s) (st_audit_log s)) f →
  st_revision s ≤ u64_max →
  triple (λ st, view st = Some s) (store_call (write f))
    (λ _, on_view (extends (st_version s) (u64_saturating_add (st_revision s) 1) (st_audit_log s)))
    (λ _ _, True).
Proof.
  intros Hf Hmax w st Hv. unfold store_call. destruct (write f w st) as [[[a|e] w'] st'] eqn:Ew;
    [|by destruct e].
  apply write_simulates in Ew. inversion Ew as [s0 w0 r w1 s1 Hrun Hs| | | |]; subst.
  assert (s0 = s) as -> by congruence.
  assert (extends (st_version s) (st_revision s) (st_audit_log s) s1) as [Hver Hrev Hlog].
  { specialize (Hf w0 s). rewrite Hrun in Hf. apply Hf. split; [done|lia|done]. }
  intros s2 Hs2. assert (s2 = bump_revision s1) as -> by congruence.
  split; [done| |done]. simpl. unfold u64_saturating_add. lia.
Qed.

Lemma register_write_newer req s :
  st_revision s ≤ u64_max →
  triple (λ st, view st = Some s) (register_write req)
    (λ _, on_view (extends (st_version s) (u64_saturating_add (st_revision s) 1) (st_audit_log s)))
    (λ _ _, True).
Proof.
  intros Hmax. unfold register_write.
  apply triple_bind_pure; [solve_tail|done|intros now].
  apply triple_bind_pure; [unfold random_secret; solve_tail|done|intros tok].
  apply triple_try; [done|intros name Hname].
  eapply triple_bind; [apply write_newer; [|done]|intros id; by apply triple_ret].
  eapply (cl_register app true); [apply extends_closed|done].
Qed.

Lemma heartbeat_write_newer headers ip req s :
  st_revision s ≤ u64_max →
  triple (λ st, view st = Some s) (heartbeat_write app headers ip req)
    (λ _, on_view (extends (st_version s) (u64_saturating_add (st_revision s) 1) (st_audit_log s)))
    (λ _ _, True).
Proof.
  intros Hmax. unfold heartbeat_write.
  apply triple_bind_pure; [solve_tail|done|intros now]. apply write_newer; [|done].
  eapply (cl_heartbeat app true); apply extends_closed.
Qed.

Lemma netmap_read_newer id relay ver v log w st nm w' st' :
  on_view (extends ver v log) st →
  store_call (read (build_netmap id relay)) w st = (Ok nm, w', st') → v ≤ nm_revision nm.
Proof.
  intros He. unfold store_call. destruct (read _ w st) as [[[a|e] w1] st1] eqn:Er; [|done].
  intros [= -> _ _]. apply read_view in Er as (s & w0 & w2 & s1 & Hv & Hp).
  apply build_netmap_inv in Hp as (? & ? & ? & _ & _ & _ & _ & _ & _ & _ & _ & _ & ->).
  by destruct (He s Hv) as [_ [? _] _].
Qed.

Lemma task_step_reply now ver v log t w st t' w' st' :
  reply_new v t → on_view (extends ver v log) st →
  task_step app now t w st = Some (t', w', st') → reply_new v t'.
Proof.
  intros Ht He Hs. destruct t as [|tok id|id| | | |[]|]; try done; injection Hs as Hs;
    unfold goes_on, register_read, heartbeat_read, mbind, M_bind in Hs;
    destruct (store_call _ w st) as [[[nm|e] w1] st1] eqn:Er; injection Hs as <- <- <-; simpl;
    try done; eexists; (split; [done|]); by eapply netmap_read_newer.
Qed.

(** The first step of a request with two accesses *)
Lemma first_step_newer now r s w st t w' st' :
  one_access r = false → view st = Some s → st_revision s ≤ u64_max →
  task_step app now (TStart r) w st = Some (t, w', st') →
  reply_new (u64_saturating_add (st_revision s) 1) t ∧
  ((∃ e, t = TDone (Err e)) ∨
   on_view (extends (st_version s) (u64_saturating_add (st_revision s) 1) (st_audit_log s)) st').
Proof.
  intros Hone Hv Hmax Hs. destruct r; try done; injection Hs as Hs; unfold goes_on in Hs.
  - pose proof (register_write_newer req s Hmax w st Hv) as Hw.
    destruct (register_write req w st) as [[[[tok id]|e] w1] st1]; injection Hs as <- <- <-;
      (split; [done|eauto]).
  - pose proof (heartbeat_write_newer headers remote_ip req s Hmax w st Hv) as Hw.
    destruct (heartbeat_write _ _ _ _ w st) as [[[[]|e] w1] st1]; injection Hs as <- <- <-;
      (split; [done|eauto]).
Qed.

End OwnWrites.

Section Replies.
Context `{IpNetLaws} `{Crates} `{HashOrder} `{SerdeLaws}.

Lemma schedule_reply ls c log c' i j ver v hist :
  Forall label_typed ls → jobs_ok c → schedule ls c = Some (log, c') →
  sy_jobs c !! i = Some j → reply_new v (jb_task j) →
  (∃ e, jb_task j = TDone (Err e)) ∨ on_view (extends ver v hist) (sy_store c) →
  ∃ j', sy_jobs c' !! i = Some j' ∧ reply_new v (jb_task j').
Proof.
  intros Hty. revert c log j. induction Hty as [|l ls Hl _ IH]; intros c log j Hok Hs Hi Hnew Hv;
    simpl in Hs.
  { injection Hs as <- <-. eauto. }
  destruct (step l c) as [[log1 c1]|] eqn:Hs1; [|done]. simpl in Hs.
  destruct (schedule ls c1) as [[log2 c2]|] eqn:Hr; [|done]. injection Hs as <- <-.
  destruct (step_job _ _ _ _ _ _ Hs1 Hi) as (j1 & Hi1 & _ & _ & Hcase).
  apply (IH c1 log2 j1); [by eapply step_jobs_ok|done|done|..].
  - destruct Hcase as [(-> & _ & w & st & Ht)|[(_ & -> & _)|[_ ->]]]; [|done|done].
    destruct Hv as [[e He]|Hv]; [by rewrite He in Ht|]. by eapply task_step_reply.
  - destruct Hv as [[e He]|Hv].
    + left. destruct Hcase as [(-> & _ & w & st & Ht)|[(_ & _ & Hnd)|[_ ->]]];
        [by rewrite He in Ht|by destruct (Hnd (Err e))|eauto].
    + right. eapply step_preserves; [intros; apply extends_closed|exact Hok|exact Hv|exact Hs1].
Qed.
End Replies.

(** ** Theorems on every schedule *)
Section Theorems.
Context `{IpNetLaws} `{Crates} `{HashOrder} `{SerdeLaws}.

(** The state invariant, with unique identifiers and addresses, disjoint blocks and
    consistent references, holds whatever requests run at the same time and however
    they are interleaved, dropped or delayed. *)
Theorem concurrent_invariant ls now w st log c s :
  on_view inv st → Forall label_typed ls →
  schedule ls (idle now w st) = Some (log, c) → view (sy_store c) = Some s → inv s.
Proof.
  intros Hinv Hty Hs. destruct (schedule_ok inv ls (idle now w st) log c) as [_ Hi];
    [intros; apply inv_closed|done|by apply Forall_nil|done|done|apply Hi].
Qed.

(** A long poll keeps its promise in every schedule: when it is answered with a
    netmap, the netmap has a revision above [since], or the timeout (30 seconds if none is
    given, 300 at most) has passed since the request came in. *)
Theorem longpoll_reply ls now w st log c i j headers node_id params body :
  Forall label_typed ls → schedule ls (idle now w st) = Some (log, c) →
  sy_jobs c !! i = Some j → jb_call j = Longpoll headers node_id params →
  jb_task j = TDone (Ok body) →
  ∃ nm, body = NetmapBody nm ∧
    (unwrap_or (lp_since params) 0 < nm_revision nm ∨
     jb_at j + Z.min (unwrap_or (lp_timeout_seconds params) 30) 300 * 1000 ≤ sy_now c).
Proof.
  intros Hty Hs Hi Hc Ht.
  destruct (schedule_ok (λ _, True) ls (idle now w st) log c) as [Hok _];
    [intros; apply closed_true|done|by apply Forall_nil|done|done|].
  destruct (Forall_lookup_1 _ _ _ _ Hok Hi) as [_ Hj]. rewrite Hc, Ht in Hj.
  destruct body; naive_solver.
Qed.
(** C11. No long poll misses a change, and none outlives its deadline.  Take any moment at
    which the state in view has a revision above the [since] of a long poll that is under
    way, or at which its deadline has passed.  Whatever runs after that, once the task of
    the poll has been run four times it has been answered; as long as it has not, it can
    be run after half a second at most. *)
Theorem longpoll_wakes ls1 ls2 now w st log1 c log2 c' i j headers node_id params s :
  Forall label_typed (ls1 ++ ls2) → schedule ls1 (idle now w st) = Some (log1, c) →
  sy_jobs c !! i = Some j → jb_call j = Longpoll headers node_id params → jb_task j ≠ TDropped →
  view (sy_store c) = Some s → st_revision s ≤ u64_max →
  unwrap_or (lp_since params) 0 < st_revision s ∨
    jb_at j + Z.min (unwrap_or (lp_timeout_seconds params) 30) 300 * 1000 ≤ sy_now c →
  schedule ls2 c = Some (log2, c') → LDrop i ∉ ls2 →
  ∃ j', sy_jobs c' !! i = Some j' ∧
    ((∃ res, jb_task j' = TDone res) ∨
     ((runs i ls2 < 4)%nat ∧ is_Some (schedule [LTick 500; LRun i] c'))).
Proof.
  intros [Hty1 Hty2]%Forall_app Hs1 Hi Hc Hnd Hv Hmax Hdue Hs2 Hdrop.
  destruct (schedule_ok (λ _, True) ls1 (idle now w st) log1 c) as [Hok _];
    [intros; apply closed_true|done|by apply Forall_nil|done|done|].
  destruct (schedule_owes ls2 c log2 c' i j headers node_id params)
    as [Hok' (j' & Hi' & Hc' & Hnd' & Hless)]; try done.
  { destruct Hdue as [Hrev|Hd]; [right|by left]. exists (st_version s), (st_audit_log s).
    intros s'. rewrite Hv. intros [= <-]. split; [done|simpl; lia|done]. }
  exists j'. split; [done|]. rewrite Hc in Hc'.
  pose proof (Forall_lookup_1 _ _ _ _ Hok' Hi') as Hj'.
  destruct (polling _ _ _ _ _ Hj' Hc' Hnd') as [Hdone|Hp]; [by left|right]. split.
  - assert (owes (sy_now c) (longpoll_start (jb_at j) headers node_id params) (jb_task j) ≤ 4)%nat
      by (unfold owes; repeat case_match; lia).
    assert (0 < owes (sy_now c') (longpoll_start (jb_at j) headers node_id params) (jb_task j'))%nat
      by (unfold owes; destruct (jb_task j'); try done; try case_match; lia).
    lia.
  - simpl. rewrite Hi'. simpl. destruct Hj' as [_ Hj']. rewrite Hc' in Hj'.
    destruct (jb_task j') as [| | | | |q wake| |]; simpl; try done.
    + by destruct (goes_on _ _ _ _) as [[? ?] ?].
    + destruct (orb _ _); simpl; eauto.
    + destruct Hj' as [_ Hwake]. rewrite (proj2 (Z.leb_le _ _)) by done. simpl. eauto.
Qed.
(** C20. A client that registers or sends a heartbeat is answered with a netmap that is
    newer than its own write, whatever other requests run between the write and the
    read: the revision in the answer is above the one the request found (or it is the
    largest u64).  It can be used as the [since] of a long poll. *)
Theorem reply_after_own_write ls1 ls2 now w st log1 c log2 c' i j j' r b s :
  Forall label_typed (ls1 ++ ls2) → schedule ls1 (idle now w st) = Some (log1, c) →
  sy_jobs c !! i = Some j → jb_task j = TStart r → one_access r = false →
  view (sy_store c) = Some s → st_revision s ≤ u64_max →
  schedule (LRun i :: ls2) c = Some (log2, c') →
  sy_jobs c' !! i = Some j' → jb_task j' = TDone (Ok b) →
  ∃ nm, body_netmap b = Some nm ∧ u64_saturating_add (st_revision s) 1 ≤ nm_revision nm.
Proof.
  intros [Hty1 Hty2]%Forall_app Hs1 Hi Ht Hone Hv Hmax Hs2 Hi' Ht'.
  destruct (schedule_ok (λ _, True) ls1 (idle now w st) log1 c) as [Hok _];
    [intros; apply closed_true|done|by apply Forall_nil|done|done|].
  cbn [schedule] in Hs2. destruct (step (LRun i) c) as [[log3 c3]|] eqn:Hs3; [|done].
  simpl in Hs2. destruct (schedule ls2 c3) as [[log4 c4]|] eqn:Hs4; [|done].
  injection Hs2 as _ <-.
  assert (jobs_ok c3) as Hok3 by (by apply (step_jobs_ok (LRun i) c log3)).
  simpl in Hs3. rewrite Hi in Hs3. simpl in Hs3. rewrite Ht in Hs3.
  destruct (task_step _ _ _ _ _) as [[[t w3] st3]|] eqn:Hts; [|done]. injection Hs3 as _ <-.
  destruct (first_step_newer _ _ _ _ _ _ _ _ _ Hone Hv Hmax Hts) as [Hnew Hdue].
  assert (∃ j0, sy_jobs c4 !! i = Some j0 ∧
    reply_new (u64_saturating_add (st_revision s) 1) (jb_task j0)) as (j0 & Hi0 & Hnew0).
  { eapply (schedule_reply ls2 _ _ _ i ((j : Job) <| jb_task := t |>));
      [done|exact Hok3|exact Hs4| |exact Hnew|exact Hdue].
    simpl. by rewrite list_lookup_insert_eq by (by eapply lookup_lt_Some). }
  assert (j0 = j') as -> by congruence. by rewrite Ht' in Hnew0.
Qed.
End Theorems.

(** ** Concrete instances *)

(** Two servers share a database.  Alice registers with one of them, and polls for changes
    after the netmap she got; the poll finds none and goes to sleep.  Bob registers with
    the other one: this is [mid].  Then bob is answered, and the poll wakes up, reads and
    answers: this is [final]. *)
Definition shared_store : StateStore :=
  mkStateStore (Db (mkDbStore None (Some (state_to_json start_state)))) ∅.
Definition other_app : AppState := mkAppState demo_relay (Some "other") [] None [].
Definition first_id : string := uuid_to_string (replicate 16 (byte_of 1)).
Definition poll_params : NetmapLongpollParams := mkNetmapLongpollParams (Some 2) (Some 60).
Definition alice_call : Call := Plain (PostRegister (demo_register "alice" "m1" "w1")).
Definition bob_call : Call := Plain (PostRegister (demo_register "bob" "m2" "w2")).

Definition before_bob : list Label :=
  [LArrive demo_app alice_call; LRun 0; LRun 0;
   LArrive demo_app (Longpoll admin_headers first_id poll_params); LRun 1; LRun 1;
   LArrive other_app bob_call].
Definition until_mid : list Label := before_bob ++ [LRun 2].
Definition after_mid : list Label := [LRun 2; LTick 500; LRun 1; LRun 1; LRun 1].

Definition demo_idle : Sys := idle 0 demo_world shared_store.
Definition get_run (o : option (Log * Sys)) : Log * Sys := default ([], demo_idle) o.
Definition mid : Log * Sys := get_run (schedule until_mid demo_idle).
Definition final : Log * Sys := get_run (schedule after_mid mid.2).
Definition whole : Log * Sys := get_run (schedule (until_mid ++ after_mid) demo_idle).
Definition job (c : Sys) (i : nat) : Job :=
  default (mkJob demo_app alice_call 0 TDropped) (sy_jobs c !! i).

Lemma get_run_some o : is_some o = true → o = Some ((get_run o).1, (get_run o).2).
Proof. by destruct o as [[? ?]|]. Defined.
Lemma job_some c i : is_some (sy_jobs c !! i) = true → sy_jobs c !! i = Some (job c i).
Proof. unfold job. by destruct (sy_jobs c !! i). Defined.
Lemma view_some st : is_some (view st) = true → view st = Some (view_or_default st).
Proof. unfold view_or_default. by destruct (view st). Defined.

Lemma mid_run : schedule until_mid demo_idle = Some (mid.1, mid.2).
Proof. apply get_run_some. vm_compute. reflexivity. Qed.
Lemma final_run : schedule after_mid mid.2 = Some (final.1, final.2).
Proof. apply get_run_some. vm_compute. reflexivity. Qed.
Lemma whole_run : schedule (until_mid ++ after_mid) demo_idle = Some (whole.1, whole.2).
Proof. apply get_run_some. vm_compute. reflexivity. Qed.
Lemma demo_labels : Forall label_typed (until_mid ++ after_mid).
Proof. repeat constructor. Qed.

Lemma concurrent_linearizable_witness :
  (serial whole.1 shared_store).2 = sy_store whole.2 ∧
  whole.1.*1.*1 = [0%nat; 2%nat].
Proof.
  split; [|vm_compute; reflexivity].
  destruct (concurrent_linearizable (until_mid ++ after_mid) 0 demo_world shared_store
    whole.1 whole.2 whole_run) as [Hst _].
  exact Hst.
Defined.

Lemma concurrent_invariant_witness : inv (view_or_default (sy_store whole.2)).
Proof.
  apply (concurrent_invariant (until_mid ++ after_mid) 0 demo_world shared_store
    whole.1 whole.2).
  - intros s Hv. change (state_from_json (state_to_json start_state) = Some s) in Hv.
    rewrite state_from_to_json in Hv. apply Some_inj in Hv. rewrite <- Hv. exact start_inv.
  - exact demo_labels.
  - exact whole_run.
  - apply view_some. vm_compute. reflexivity.
Defined.

(** The poll was answered half a second after it began, with bob's registration. *)
Definition poll_answer : Response :=
  match jb_task (job whole.2 1) with TDone (Ok b) => b | _ => Status end.

Lemma longpoll_reply_witness :
  sy_now whole.2 = 500 ∧ ∃ nm, poll_answer = NetmapBody nm ∧ nm_revision nm = 3.
Proof.
  split; [vm_compute; reflexivity|].
  destruct (longpoll_reply (until_mid ++ after_mid) 0 demo_world shared_store
    whole.1 whole.2 1 (job whole.2 1) admin_headers first_id poll_params poll_answer)
    as (nm & Hb & Hor).
  - exact demo_labels.
  - exact whole_run.
  - apply job_some. vm_compute. reflexivity.
  - vm_compute. reflexivity.
  - vm_compute. reflexivity.
  - exists nm. split; [exact Hb|].
    assert (match poll_answer with NetmapBody nm => nm_revision nm | _ => 0 end = 3) as H
      by (vm_compute; reflexivity).
    rewrite Hb in H. exact H.
Defined.

Lemma longpoll_wakes_witness :
  ∃ j', sy_jobs final.2 !! 1%nat = Some j' ∧
    ((∃ res, jb_task j' = TDone res) ∨
     ((runs 1 after_mid < 4)%nat ∧ is_Some (schedule [LTick 500; LRun 1] final.2))).
Proof.
  apply (longpoll_wakes until_mid after_mid 0 demo_world shared_store mid.1 mid.2
    final.1 final.2 1 (job mid.2 1) admin_headers first_id poll_params
    (view_or_default (sy_store mid.2))).
  - exact demo_labels.
  - exact mid_run.
  - apply job_some. vm_compute. reflexivity.
  - vm_compute. reflexivity.
  - vm_compute. discriminate.
  - apply view_some. vm_compute. reflexivity.
  - vm_compute. discriminate.
  - left. vm_compute. reflexivity.
  - exact final_run.
  - unfold after_mid. set_unfold. intuition congruence.
Defined.

(** Bob's registration found revision 2. *)
Definition early : Log * Sys := get_run (schedule before_bob demo_idle).
Definition bob_done : Log * Sys := get_run (schedule (LRun 2 :: after_mid) early.2).
Definition bob_answer : Response :=
  match jb_task (job bob_done.2 2) with TDone (Ok b) => b | _ => Status end.

Lemma reply_after_own_write_witness :
  ∃ nm, body_netmap bob_answer = Some nm ∧
    u64_saturating_add (st_revision (view_or_default (sy_store early.2))) 1 ≤ nm_revision nm.
Proof.
  apply (reply_after_own_write before_bob after_mid 0 demo_world shared_store
    early.1 early.2 bob_done.1 bob_done.2 2 (job early.2 2) (job bob_done.2 2)
    (PostRegister (demo_register "bob" "m2" "w2"))).
  - repeat constructor.
  - apply get_run_some. vm_compute. reflexivity.
  - apply job_some. vm_compute. reflexivity.
  - vm_compute. reflexivity.
  - reflexivity.
  - apply view_some. vm_compute. reflexivity.
  - vm_compute. discriminate.
  - apply get_run_some. vm_compute. reflexivity.
  - apply job_some. vm_compute. reflexivity.
  - vm_compute. reflexivity.
Defined.
