(* ===== verification/SharedLife.v ===== *)
(** * The life of a node on shared servers

    Lifecycle.v follows a node through the requests that one server serves in sequence.
    Here the requests run at the same time, on any number of servers with a common
    database: since every schedule leaves what a sequence leaves (Concurrent.v), a node
    is admitted and stays revoked as there. *)

From S2P Require Import Prelude Effects RustStd StdNet Externals Model Store SampleStore Ipam.
From S2P Require Import Keys Acl Auth Netmap Netid ApiHelpers Api Invariant Safety Server.
From S2P Require Import Scenario Reachability Enrollment Lifecycle Concurrent.

Section Traces.
Context `{IpNetLaws} `{Crates} `{HashOrder} `{SerdeLaws}.

Definition log_typed (log : Log) : Prop := Forall (λ e, request_typed e.1.2.2) log.

(** What is in the log of a schedule came in as a request. *)
Lemma schedule_log ls now w st log c :
  Forall label_typed ls → schedule ls (idle now w st) = Some (log, c) →
  (serial log st).2 = sy_store c ∧ log_typed log ∧
  Forall (λ e, ∃ i j, sy_jobs c !! i = Some j ∧ jb_call j = Plain e.1.2.2) log.
Proof.
  intros Hty Hs. destruct (lin_schedule _ _ _ _ _ _ (lin_idle now w st) Hs) as [Hst _ Hlog _].
  destruct (schedule_ok (λ _, True) ls (idle now w st) log c) as [Hok _];
    [intros; apply closed_true|done|by apply Forall_nil|done|done|].
  split; [done|]. unfold log_typed. rewrite <- Forall_and, Forall_forall.
  intros [[i [app r]] w0] Hin. destruct (Hlog i app r w0 Hin) as (j & Hj & _ & Hc). simpl.
  split; [|eauto]. destruct (Forall_lookup_1 _ _ _ _ Hok Hj) as [Htyj _]. by rewrite Hc in Htyj.
Qed.

Lemma serial_cons i app r w log st :
  (serial ((i, (app, r), w) :: log) st).2 = (serial log (serve app r w st).2).2.
Proof.
  simpl. destruct (serve app r w st) as [[res w'] st']. simpl. by destruct (serial log st').
Qed.

(** The state in view moves along the steps of the requests. *)
Lemma serve_view app r w st s :
  request_typed r → view st = Some s →
  ∃ s', view (serve app r w st).2 = Some s' ∧ stepped app (clock_of w) s r s'.
Proof.
  intros Hty Hv. destruct (serve app r w st) as [[res w'] st'] eqn:Es. by eapply serve_stepped.
Qed.

Lemma serial_admission log st s s' k :
  log_typed log → view st = Some s → view (serial log st).2 = Some s' →
  approved (phase_of s k) = false → approved (phase_of s' k) = true →
  ∃ log1 i app r w log2 s1, log = log1 ++ (i, (app, r), w) :: log2 ∧
    view (serial log1 st).2 = Some s1 ∧ admission app (clock_of w) s1 k r.
Proof.
  intros Hty. revert st s. induction Hty as [|[[i [app r]] w] log Hr _ IH]; intros st s Hv Hv' Hold Hnew.
  { simpl in Hv'. congruence. }
  rewrite serial_cons in Hv'. destruct (serve_view app r w st s Hr Hv) as (s1 & Hv1 & Hst).
  destruct (approved (phase_of s1 k)) eqn:Hmid.
  - exists [], i, app, r, w, log, s. split; [done|]. split; [done|]. unfold phase_of in *.
    destruct (Hst k) as [Heq|Hstep]; [congruence|]. by eapply step_admission.
  - destruct (IH _ s1 Hv1 Hv' Hmid Hnew)
      as (log1 & i' & app' & r' & w' & log2 & s2 & -> & Hv2 & Hadm).
    exists ((i, (app, r), w) :: log1), i', app', r', w', log2, s2.
    split; [done|]. split; [by rewrite serial_cons|done].
Qed.

Lemma serial_retired log st s s' k :
  log_typed log → Forall (λ e, ¬ revives k e.1.2.2) log →
  view st = Some s → view (serial log st).2 = Some s' →
  retired (phase_of s k) → retired (phase_of s' k).
Proof.
  intros Hty. revert st s. induction Hty as [|[[i [app r]] w] log Hr _ IH]; intros st s Hno Hv Hv' Hret.
  { simpl in Hv'. congruence. }
  apply Forall_cons in Hno as [Hnr Hno]. rewrite serial_cons in Hv'.
  destruct (serve_view app r w st s Hr Hv) as (s1 & Hv1 & Hst).
  apply (IH _ s1 Hno Hv1 Hv'). by eapply stepped_retired.
Qed.
End Traces.

Section Theorems.
Context `{IpNetLaws} `{Crates} `{HashOrder} `{SerdeLaws}.

(** C7. No node becomes approved by itself.  If a node was not approved, or did not exist,
    and is approved after any number of requests have run at the same time on servers
    with a common store, in any schedule, then one of the requests that were served
    admitted it, and had the right to do so at its place in the sequence and at the time
    its server read from the clock: an administrator of its server approved the node, or
    the node's approval link was used before it expired with the secret that was stored
    for it, or it was enrolled in a network that does not require approval with a token
    that had not expired, was not revoked and had uses left. *)
Theorem concurrent_admission ls now w st log c s s' k :
  Forall label_typed ls → schedule ls (idle now w st) = Some (log, c) →
  view st = Some s → view (sy_store c) = Some s' →
  approved (phase_of s k) = false → approved (phase_of s' k) = true →
  ∃ log1 i app r w1 log2 s1, log = log1 ++ (i, (app, r), w1) :: log2 ∧
    view (serial log1 st).2 = Some s1 ∧ admission app (clock_of w1) s1 k r.
Proof.
  intros Hty Hs Hv Hv' Hold Hnew. destruct (schedule_log _ _ _ _ _ _ Hty Hs) as (Hst & Hlog & _).
  rewrite <- Hst in Hv'. by apply (serial_admission log st s s' k).
Qed.

(** C14. A revocation lasts.  A node that is revoked or gone stays revoked or gone, whatever
    requests run at the same time on servers with a common store, in any schedule, as
    long as no key rotation for it and no registration is among them. *)
Theorem concurrent_revocation ls now w st log c s s' k :
  Forall label_typed ls → schedule ls (idle now w st) = Some (log, c) →
  (∀ i j r, sy_jobs c !! i = Some j → jb_call j = Plain r → ¬ revives k r) →
  view st = Some s → view (sy_store c) = Some s' →
  retired (phase_of s k) → retired (phase_of s' k).
Proof.
  intros Hty Hs Hno Hv Hv'. destruct (schedule_log _ _ _ _ _ _ Hty Hs) as (Hst & Hlog & Hin).
  rewrite <- Hst in Hv'. apply (serial_retired log st); [done| |done|done].
  eapply Forall_impl; [exact Hin|]. intros [[i0 [app r]] w0] (i & j & Hj & Hc). by eapply Hno.
Qed.
End Theorems.

(** ** Concrete instances *)

Lemma shared_view : view shared_store = Some start_state.
Proof. apply state_from_to_json. Qed.

(** Alice, of Concurrent.v, was admitted by one of the requests. *)
Lemma concurrent_admission_witness :
  approved (phase_of (view_or_default (sy_store whole.2)) first_id) = true ∧
  ∃ log1 i app r w1 log2 s1, whole.1 = log1 ++ (i, (app, r), w1) :: log2 ∧
    view (serial log1 shared_store).2 = Some s1 ∧ admission app (clock_of w1) s1 first_id r.
Proof.
  assert (approved (phase_of (view_or_default (sy_store whole.2)) first_id) = true) as Ha
    by (vm_compute; reflexivity).
  split; [exact Ha|].
  apply (concurrent_admission (until_mid ++ after_mid) 0 demo_world shared_store whole.1 whole.2
    start_state (view_or_default (sy_store whole.2))).
  - exact demo_labels.
  - exact whole_run.
  - exact shared_view.
  - apply view_some. vm_compute. reflexivity.
  - vm_compute. reflexivity.
  - exact Ha.
Defined.

(** Alice of the scenario is revoked; then an administrator approves her on one server
    while she polls the other one. *)
Definition revoked_state : State := view_or_default revoked_store.
Definition revoked_shared : StateStore :=
  mkStateStore (Db (mkDbStore None (Some (state_to_json revoked_state)))) ∅.
Definition revoked_labels : list Label :=
  [LArrive demo_app (Longpoll admin_headers alice_id poll_params);
   LArrive demo_app (Plain (PostNodeApprove admin_headers alice_id)); LRun 0; LRun 1; LRun 0].
Definition revoked_run : Log * Sys :=
  get_run (schedule revoked_labels (idle 0 demo_world revoked_shared)).
Definition approved_state : State := view_or_default (sy_store revoked_run.2).

Lemma call_in (jobs : list Job) calls i j r :
  jb_call <$> jobs = calls → jobs !! i = Some j → jb_call j = Plain r → Plain r ∈ calls.
Proof.
  intros <- Hj <-. by apply list_elem_of_fmap_2, list_elem_of_lookup_2 with i.
Qed.

Lemma concurrent_revocation_witness :
  jb_task (job revoked_run.2 1) = TDone (Ok Status) ∧ retired (phase_of approved_state alice_id).
Proof.
  split; [vm_compute; reflexivity|].
  apply (concurrent_revocation revoked_labels 0 demo_world revoked_shared
    revoked_run.1 revoked_run.2 revoked_state).
  - repeat constructor.
  - apply get_run_some. vm_compute. reflexivity.
  - assert (jb_call <$> sy_jobs revoked_run.2 =
      [Longpoll admin_headers alice_id poll_params; Plain (PostNodeApprove admin_headers alice_id)])
      as Hcalls by (vm_compute; reflexivity).
    intros i j r Hj Hc. pose proof (call_in _ _ _ _ _ Hcalls Hj Hc) as Hin.
    apply elem_of_cons in Hin as [Hin|Hin]; [discriminate|].
    apply list_elem_of_singleton in Hin. injection Hin as ->. intros [].
  - apply state_from_to_json.
  - apply view_some. vm_compute. reflexivity.
  - right. exists true. vm_compute. reflexivity.
Defined.
