(* ===== verification/LongPoll.v ===== *)
(** * The loop and the task of a long poll

    [netmap_longpoll] is modelled twice: as a loop over what its polls read (Netmap.v),
    and as a task among others, with its waits (Concurrent.v).  Here the two are shown to
    agree: in every schedule the answer of the task is that of the loop on the readings
    and instants the schedule gave it, in their order, and the fuel of 601 polls is
    always enough. *)

From S2P Require Import Prelude Effects RustStd StdNet Externals Model Store SampleStore Ipam.
From S2P Require Import Keys Acl Auth Netmap Netid ApiHelpers Api Invariant Safety Server.
From S2P Require Import Scenario Reachability History Concurrent.

(** A poll: the place of its reading in the schedule, what it read, and when the loop
    looked at the clock *)
Record Reading : Type := mkReading {
  rd_pos : nat;
  rd_result : result (Z * NetMap) ApiError;
  rd_instant : Z;
}.

Definition reading_or_dummy (e : option Reading) : Reading :=
  default (mkReading 0 (Err (NotFound "")) 0) e.

(** ** The loop on a list of readings *)
Section Loop.
Context (p : Poll).

Definition rejected (e : Reading) : Prop :=
  ∃ revision netmap, rd_result e = Ok (revision, netmap) ∧
    revision ≤ po_since p ∧ rd_instant e < po_deadline p.

(** What the loop returns after a reading, if it returns *)
Definition returned (e : Reading) (r : result NetMap ApiError) : Prop :=
  match rd_result e with
  | Err err => r = Err err
  | Ok (revision, netmap) =>
      r = Ok netmap ∧ (po_since p < revision ∨ po_deadline p ≤ rd_instant e)
  end.

Definition polls_of (h : list Reading) (k : nat) : result (Z * NetMap) ApiError :=
  rd_result (reading_or_dummy (h !! k)).
Definition instants_of (h : list Reading) (k : nat) : Z :=
  rd_instant (reading_or_dummy (h !! k)).

Lemma loop_rejects fuel h k e :
  h !! k = Some e → rejected e →
  longpoll_loop (S fuel) (po_since p) (po_deadline p) (polls_of h) (instants_of h) k =
  longpoll_loop fuel (po_since p) (po_deadline p) (polls_of h) (instants_of h) (S k).
Proof.
  intros Hk (rv & nm & Hr & Hrv & Ht). simpl. unfold polls_of at 1, instants_of at 1.
  rewrite Hk. simpl. rewrite Hr. by rewrite (proj2 (Z.ltb_ge _ _)), (proj2 (Z.leb_gt _ _)).
Qed.

Lemma loop_returns fuel h k e r :
  h !! k = Some e → returned e r →
  longpoll_loop (S fuel) (po_since p) (po_deadline p) (polls_of h) (instants_of h) k = Some r.
Proof.
  unfold returned. intros Hk He. simpl. unfold polls_of at 1, instants_of at 1. rewrite Hk. simpl.
  destruct (rd_result e) as [[rv nm]|err]; [|by subst]. destruct He as [-> Hlate].
  by rewrite (proj2 (orb_true_iff _ _)) by (rewrite Z.ltb_lt, Z.leb_le; lia).
Qed.

(** The loop goes through the readings it rejects, and stops at the last one. *)
Lemma loop_runs h e r k fuel :
  Forall rejected h → returned e r → (k ≤ length h)%nat →
  longpoll_loop fuel (po_since p) (po_deadline p) (polls_of (h ++ [e])) (instants_of (h ++ [e])) k =
  if decide (length h < k + fuel)%nat then Some r else None.
Proof.
  intros Hh He. revert k. induction fuel as [|fuel IH]; intros k Hk.
  { simpl. by rewrite decide_False by lia. }
  destruct (decide (k = length h)) as [->|Hne].
  - rewrite (loop_returns fuel (h ++ [e]) (length h) e r); [|by rewrite list_lookup_middle|done].
    by rewrite decide_True by lia.
  - destruct (lookup_lt_is_Some_2 h k) as [x Hx]; [lia|].
    rewrite (loop_rejects fuel (h ++ [e]) k x); [|by apply lookup_app_l_Some|by eapply Forall_lookup_1].
    rewrite IH by lia. by rewrite Nat.add_succ_r.
Qed.
End Loop.

(** ** The task, along a schedule *)
Section Task.
Context `{IpNetLaws} `{Crates} `{HashOrder} `{SerdeLaws}.
Context (c0 : Sys) (i : nat).

Lemma schedule_snoc ls l c log c' :
  schedule (ls ++ [l]) c = Some (log, c') →
  ∃ log1 c1 log2, schedule ls c = Some (log1, c1) ∧ step l c1 = Some (log2, c').
Proof.
  revert c log. induction ls as [|l1 ls IH]; intros c log; simpl.
  - destruct (step l c) as [[log2 c2]|] eqn:Hs; [|done]. simpl. intros [= _ <-]. eauto.
  - destruct (step l1 c) as [[log1 c1]|]; [|done]. simpl.
    destruct (schedule (ls ++ [l]) c1) as [[log2 c2]|] eqn:Hr; [|done]. simpl. intros [= _ <-].
    destruct (IH _ _ Hr) as (log3 & c3 & log4 & Hs & Hl). rewrite Hs. simpl. eauto.
Qed.

Lemma step_app l c log c' j j' :
  step l c = Some (log, c') → sy_jobs c !! i = Some j → sy_jobs c' !! i = Some j' →
  jb_app j' = jb_app j.
Proof.
  intros Hs Hi Hi'. pose proof (lookup_lt_Some _ _ _ Hi) as Hlt. destruct l as [app call|d|k|k]; simpl in Hs.
  - injection Hs as _ <-. simpl in Hi'. rewrite lookup_app_l in Hi' by done. congruence.
  - destruct (_ <=? _); [|done]. injection Hs as _ <-. simpl in Hi'. congruence.
  - destruct (sy_jobs c !! k) as [jk|] eqn:Hk; [|done]. simpl in Hs.
    destruct (task_step _ _ _ _ _) as [[[t w] st]|]; [|done]. injection Hs as _ <-. simpl in Hi'.
    apply list_lookup_insert_Some in Hi' as [(-> & <- & _)|[_ Hi']]; simpl; congruence.
  - destruct (sy_jobs c !! k) as [jk|] eqn:Hk; [|done]. simpl in Hs.
    assert (c' = c <| sy_jobs := <[k := (jk : Job) <| jb_task := TDropped |>]> (sy_jobs c) |>)
      as -> by (destruct (jb_task jk); by inversion Hs). simpl in Hi'.
    apply list_lookup_insert_Some in Hi' as [(-> & <- & _)|[_ Hi']]; simpl; congruence.
Qed.

(** The reading is that of the task's run at its place in the schedule. *)
Definition read_in (ls : list Label) (app : AppState) (p : Poll) (e : Reading) : Prop :=
  ls !! rd_pos e = Some (LRun i) ∧
  ∃ log c, schedule (take (rd_pos e) ls) c0 = Some (log, c) ∧
    (longpoll_read app p (sy_world c) (sy_store c)).1.1 = rd_result e.

Lemma read_in_snoc ls l app p e : read_in ls app p e → read_in (ls ++ [l]) app p e.
Proof.
  intros [Hpos Hread]. split; [by apply lookup_app_l_Some|].
  rewrite take_app_le; [done|]. apply lookup_lt_Some in Hpos. lia.
Qed.

(** Readings come one after the other, half a second apart at least. *)
Definition paced (start : Z) (h : list Reading) : Prop :=
  ∀ k e, h !! k = Some e →
    start + 500 * Z.of_nat k ≤ rd_instant e ∧
    ∀ e', h !! S k = Some e' → (rd_pos e < rd_pos e')%nat ∧ rd_instant e + 500 ≤ rd_instant e'.

(** The next reading may be at [pos], and its instant not before [now]. *)
Definition may_read (start : Z) (h : list Reading) (pos : nat) (now : Z) : Prop :=
  start + 500 * Z.of_nat (length h) ≤ now ∧
  ∀ e, last h = Some e → (rd_pos e < pos)%nat ∧ rd_instant e + 500 ≤ now.

Lemma paced_snoc start h e :
  paced start h → may_read start h (rd_pos e) (rd_instant e) → paced start (h ++ [e]).
Proof.
  intros Hh [Hs Hl] k x Hk. apply lookup_snoc_Some in Hk as [[Hlt Hk]|[-> <-]].
  - destruct (Hh k x Hk) as [Hx Hnext]. split; [done|]. intros e' He'.
    apply lookup_snoc_Some in He' as [[_ He']|[Hlen <-]]; [by apply Hnext|]. apply Hl.
    rewrite last_lookup, <- Hlen. exact Hk.
  - split; [done|]. intros e' He'. apply lookup_lt_Some in He'. rewrite length_app in He'. simpl in He'. lia.
Qed.

Lemma may_read_mono start h pos now pos' now' :
  may_read start h pos now → (pos ≤ pos')%nat → now ≤ now' → may_read start h pos' now'.
Proof. intros [? Hl] ? ?. split; [lia|]. intros e He. destruct (Hl e He). lia. Qed.

(** After its reading [e], the loop has another half second to wait. *)
Lemma may_read_next start h e pos :
  may_read start h (rd_pos e) (rd_instant e) → (rd_pos e < pos)%nat →
  may_read start (h ++ [e]) pos (rd_instant e + 500).
Proof.
  intros [Hs _] Hpos. split; [rewrite length_app; simpl; lia|]. intros x. rewrite last_snoc. intros [= <-]. lia.
Qed.

(** What the task has read so far *)
Definition polled (ls : list Label) (now : Z) (j : Job) (p : Poll) (h : list Reading) : Prop :=
  Forall (read_in ls (jb_app j) p) h ∧ paced (jb_at j) h ∧
  match jb_task j with
  | TPoll p' => p' = p ∧ Forall (rejected p) h ∧ may_read (jb_at j) h (length ls) now
  | TRead p' revision netmap =>
      p' = p ∧ Forall (rejected p) h ∧
      ∃ e, rd_result e = Ok (revision, netmap) ∧ read_in ls (jb_app j) p e ∧
        may_read (jb_at j) h (rd_pos e) now
  | TSleep p' wake => p' = p ∧ Forall (rejected p) h ∧ may_read (jb_at j) h (length ls) wake
  | TDone res =>
      ∃ h' e r, h = h' ++ [e] ∧ Forall (rejected p) h' ∧ returned p e r ∧
        res = match r with Ok netmap => Ok (NetmapBody netmap) | Err err => Err err end
  | TDropped => True
  | _ => False
  end.

(** A step of another task, or time *)
Lemma polled_later ls l now now' j j' p h :
  polled ls now j p h → now ≤ now' → jb_app j' = jb_app j → jb_at j' = jb_at j →
  jb_task j' = jb_task j → polled (ls ++ [l]) now' j' p h.
Proof.
  unfold polled. intros (Hr & Hp & Ht) Hnow -> -> ->.
  split; [eapply Forall_impl; [exact Hr|]; intros; by apply read_in_snoc|]. split; [done|].
  assert (length ls ≤ length (ls ++ [l]))%nat as Hlen by (rewrite length_app; lia).
  destruct (jb_task j) as [| | |p'|p' rv nm|p' wake|res|]; try done.
  - destruct Ht as (? & ? & Hm). split; [done|]. split; [done|]. by eapply may_read_mono.
  - destruct Ht as (? & ? & e & ? & Hread & Hm). split; [done|]. split; [done|]. exists e.
    split; [done|]. split; [by apply read_in_snoc|]. by eapply may_read_mono.
  - destruct Ht as (? & ? & Hm). split; [done|]. split; [done|]. by eapply may_read_mono; [|exact Hlen|].
Qed.

(** A run of the task *)
Lemma polled_run ls log c j j' w st p h :
  schedule ls c0 = Some (log, c) → polled ls (sy_now c) j p h →
  task_step (jb_app j) (sy_now c) (jb_task j) (sy_world c) (sy_store c) = Some (jb_task j', w, st) →
  jb_app j' = jb_app j → jb_at j' = jb_at j → ∃ h', polled (ls ++ [LRun i]) (sy_now c) j' p h'.
Proof.
  intros Hs (Hr & Hp & Ht) Hstep Happ Hat.
  assert (∀ h0, Forall (read_in ls (jb_app j) p) h0 → Forall (read_in (ls ++ [LRun i]) (jb_app j') p) h0)
    as Hmore. { rewrite Happ. intros h0 Hh0. eapply Forall_impl; [exact Hh0|]. intros. by apply read_in_snoc. }
  unfold polled. rewrite Hat. rewrite length_app. simpl.
  destruct (jb_task j) as [| | |p'|p' rv nm|p' wake|res|]; try done.
  - (* a reading *)
    destruct Ht as (-> & Hrej & Hm). simpl in Hstep. injection Hstep as Hstep. unfold goes_on in Hstep.
    assert (∀ res, (longpoll_read (jb_app j) p (sy_world c) (sy_store c)).1.1 = res →
      read_in (ls ++ [LRun i]) (jb_app j') p (mkReading (length ls) res (sy_now c))) as Hread.
    { intros res Hres. rewrite Happ. split; simpl; [by rewrite list_lookup_middle|].
      exists log, c. by rewrite take_app_length. }
    destruct (longpoll_read (jb_app j) p (sy_world c) (sy_store c)) as [[[[rv nm]|err] w1] st1].
    + injection Hstep as <- _ _. exists h. split; [by apply Hmore|]. split; [done|].
      split; [done|]. split; [done|]. exists (mkReading (length ls) (Ok (rv, nm)) (sy_now c)).
      split; [done|]. split; [by apply Hread|done].
    + injection Hstep as <- _ _. set (e := mkReading (length ls) (Err err) (sy_now c)).
      exists (h ++ [e]). split; [|split; [by apply paced_snoc|]].
      * apply Forall_app. split; [by apply Hmore|]. apply Forall_singleton. by apply Hread.
      * exists h, e, (Err err). done.
  - (* the test *)
    destruct Ht as (-> & Hrej & [pos res t] & Hres & Hread & Hm). simpl in Hres, Hm.
    set (e := mkReading pos res (sy_now c)). simpl in Hstep.
    assert (Forall (read_in (ls ++ [LRun i]) (jb_app j') p) (h ++ [e])) as Hall.
    { apply Hmore, Forall_app. split; [done|]. by apply Forall_singleton. }
    assert (paced (jb_at j) (h ++ [e])) as Hpace by (by apply paced_snoc).
    destruct (orb _ _) eqn:Ho; injection Hstep as <- _ _; exists (h ++ [e]);
      (split; [done|]; split; [done|]).
    + exists h, e, (Ok nm). split; [done|]. split; [done|]. split; [|done].
      unfold returned. simpl. rewrite Hres. split; [done|].
      apply orb_true_iff in Ho. rewrite Z.ltb_lt, Z.leb_le in Ho. done.
    + apply orb_false_iff in Ho. rewrite Z.ltb_ge, Z.leb_gt in Ho. split; [done|]. split.
      * apply Forall_app. split; [done|]. apply Forall_singleton. exists rv, nm. done.
      * apply (may_read_next _ _ e); [done|]. destruct Hread as [Hpos _].
        apply lookup_lt_Some in Hpos. simpl in *. lia.
  - (* the end of a wait *)
    destruct Ht as (-> & Hrej & Hm). simpl in Hstep.
    destruct (Z.leb_spec wake (sy_now c)); [|done]. injection Hstep as <- _ _. exists h.
    split; [by apply Hmore|]. split; [done|]. split; [done|]. split; [done|].
    eapply may_read_mono; [exact Hm|lia|lia].
Qed.

Lemma schedule_polled ls log c j headers node_id params :
  sy_jobs c0 = [] → schedule ls c0 = Some (log, c) → sy_jobs c !! i = Some j →
  jb_call j = Longpoll headers node_id params →
  ∃ h, polled ls (sy_now c) j (longpoll_start (jb_at j) headers node_id params) h.
Proof.
  intros Hstart. revert log c j. induction ls as [|l ls IH] using rev_ind; intros log c j Hs Hi Hc.
  { injection Hs as _ <-. by rewrite Hstart in Hi. }
  apply schedule_snoc in Hs as (log1 & c1 & log2 & Hs1 & Hl).
  destruct (sy_jobs c1 !! i) as [j1|] eqn:Hi1.
  - destruct (step_job _ _ _ _ _ _ Hl Hi1) as (j' & Hi' & Hc' & Hat & Hcase).
    assert (j' = j) as -> by congruence. pose proof (step_app _ _ _ _ _ _ Hl Hi1 Hi) as Happ.
    destruct (IH _ _ _ Hs1 Hi1) as [h Hh]; [congruence|]. rewrite <- Hat in Hh.
    destruct Hcase as [(-> & Hnow & w & st & Hstep)|[(-> & Hdrop & _)|[_ Htask]]].
    + rewrite Hnow. by eapply polled_run.
    + exists h. destruct Hh as (Hr & Hp & _). split; [|split; [|by rewrite Hdrop]].
      * rewrite Happ. eapply Forall_impl; [exact Hr|]. intros. by apply read_in_snoc.
      * by rewrite Hat.
    + exists h. eapply polled_later; [exact Hh| |done|done|done]. by eapply step_time.
  - (* it arrives *)
    assert (∃ app call, l = LArrive app call ∧ j = arrive app (sy_now c1) call ∧
      sy_now c = sy_now c1) as (app & call & -> & -> & ->).
    { apply lookup_ge_None in Hi1. destruct l as [app call|d|k|k]; simpl in Hl.
      - injection Hl as _ <-. simpl in Hi. rewrite lookup_app_r in Hi by done.
        apply list_lookup_singleton_Some in Hi as [_ <-]. eauto.
      - destruct (_ <=? _); [|done]. injection Hl as _ <-. simpl in Hi.
        apply lookup_lt_Some in Hi. lia.
      - destruct (sy_jobs c1 !! k) as [jk|] eqn:Hk; [|done]. simpl in Hl.
        destruct (task_step _ _ _ _ _) as [[[t w] st]|]; [|done]. injection Hl as _ <-. simpl in Hi.
        apply lookup_lt_Some in Hi. rewrite length_insert in Hi. lia.
      - destruct (sy_jobs c1 !! k) as [jk|] eqn:Hk; [|done]. simpl in Hl.
        assert (c = c1 <| sy_jobs := <[k := (jk : Job) <| jb_task := TDropped |>]> (sy_jobs c1) |>)
          as -> by (destruct (jb_task jk); by inversion Hl).
        simpl in Hi. apply lookup_lt_Some in Hi. rewrite length_insert in Hi. lia. }
    simpl in Hc. subst call. exists []. split; [done|]. split; [by intros k e|]. simpl.
    split; [done|]. split; [done|]. split; [simpl; lia|done].
Qed.
End Task.

(** ** The theorem *)
Section Equivalence.
Context `{IpNetLaws} `{Crates} `{HashOrder} `{SerdeLaws}.

(** C12. The task of a long poll and the loop are one.  In every schedule, with whatever
    else is served between two polls, the answer of a long poll is what the loop returns
    on the polls its task made: each is a read of the store at its place in the
    schedule, they come in order and half a second apart, the loop goes on through all
    of them but the last, and there are 601 at most. *)
Theorem longpoll_task_is_loop ls now w st log c i j headers node_id params res :
  schedule ls (idle now w st) = Some (log, c) → sy_jobs c !! i = Some j →
  jb_call j = Longpoll headers node_id params → jb_task j = TDone res →
  let p := longpoll_start (jb_at j) headers node_id params in
  ∃ n pos polls instants r, (n ≤ 600)%nat ∧
    (∀ fuel, netmap_longpoll params fuel (jb_at j) polls instants =
       if decide (n < fuel)%nat then Some r else None) ∧
    res = match r with Ok netmap => Ok (NetmapBody netmap) | Err err => Err err end ∧
    (∀ k, (k ≤ n)%nat → read_in (idle now w st) i ls (jb_app j) p
                          (mkReading (pos k) (polls k) (instants k))) ∧
    (∀ k, (k < n)%nat → (pos k < pos (S k))%nat ∧ instants k + 500 ≤ instants (S k)).
Proof.
  intros Hs Hi Hc Ht p.
  destruct (schedule_polled (idle now w st) i _ _ _ _ _ _ _ eq_refl Hs Hi Hc) as [h (Hr & Hp & Hdone)].
  rewrite Ht in Hdone. destruct Hdone as (h' & e & r & -> & Hrej & Hret & ->). fold p in Hr, Hrej, Hret.
  set (h := h' ++ [e]) in *.
  assert (∀ k, (k ≤ length h')%nat → ∃ x, h !! k = Some x) as Hall.
  { intros k Hk. apply lookup_lt_is_Some_2. unfold h. rewrite length_app. simpl. lia. }
  exists (length h'), (λ k, rd_pos (reading_or_dummy (h !! k))), (polls_of h), (instants_of h), r.
  split; [|split; [|split; [done|split]]].
  - (* the last rejected poll came before the deadline *)
    destruct h' as [|x h'] using rev_ind; [simpl; lia|]. rewrite length_app. simpl.
    apply Forall_app in Hrej as [_ Hx]. apply Forall_singleton in Hx as (rv & nm & _ & _ & Hx).
    destruct (Hp (length h') x) as [Hle _].
    { unfold h. rewrite <- app_assoc. simpl. by rewrite list_lookup_middle. }
    unfold p, longpoll_start in Hx. simpl in Hx. lia.
  - intros fuel. apply (loop_runs p h' e r 0 fuel Hrej Hret). lia.
  - intros k Hk. destruct (Hall k Hk) as [x Hx]. unfold polls_of, instants_of. rewrite Hx. simpl.
    destruct x. by apply (Forall_lookup_1 _ _ _ _ Hr Hx).
  - intros k Hk. destruct (Hall k ltac:(lia)) as [x Hx]. destruct (Hall (S k) ltac:(lia)) as [y Hy].
    unfold instants_of. rewrite Hx, Hy. simpl. by apply (Hp k x Hx).
Qed.
End Equivalence.

(** The poll of the sample schedule of Concurrent.v *)
Lemma longpoll_task_is_loop_witness :
  ∃ n polls instants r, (n ≤ 600)%nat ∧
    netmap_longpoll poll_params (S n) (jb_at (job whole.2 1)) polls instants = Some r ∧
    Ok poll_answer = match r with Ok netmap => Ok (NetmapBody netmap) | Err err => Err err end.
Proof.
  destruct (longpoll_task_is_loop (until_mid ++ after_mid) 0 demo_world shared_store whole.1 whole.2
    1 (job whole.2 1) admin_headers first_id poll_params (Ok poll_answer) whole_run)
    as (n & pos & polls & instants & r & Hn & Hloop & Hr & _).
  - apply job_some. vm_compute. reflexivity.
  - vm_compute. reflexivity.
  - vm_compute. reflexivity.
  - exists n, polls, instants, r. split; [exact Hn|]. split; [|exact Hr].
    rewrite Hloop. by rewrite decide_True by lia.
Defined.
