(* ===== verification/Fair.v ===== *)
(** * Every request is answered

    The schedules of Concurrent.v are finite.  Here a run goes on for ever, time passes
    beyond every bound, and the runtime is fair to a request: it is not the case that its
    task could run from some point on and is never run.  Then the request is answered,
    unless its client goes away.  The measure is the number of steps that are left; the
    steps of others do not raise it, once the deadline of a long poll has passed. *)

From S2P Require Import Prelude Effects RustStd StdNet Externals Model Store SampleStore Ipam.
From S2P Require Import Keys Acl Auth Netmap Netid ApiHelpers Api Invariant Safety Server.
From S2P Require Import Scenario Reachability History Concurrent.

Section Runs.
Context `{IpNet} `{Crates} `{HashOrder} `{Serde}.

(** The task of a request can take a step. *)
Definition enabled (i : nat) (c : Sys) : Prop :=
  ∃ j x, sy_jobs c !! i = Some j ∧
    task_step (jb_app j) (sy_now c) (jb_task j) (sy_world c) (sy_store c) = Some x.

(** An infinite run from a server that has just started, fair to the request [i], whose
    client stays *)
Record FairRun (i : nat) (run : nat → Sys) (label : nat → Label) : Prop := {
  fr_start : sy_jobs (run 0%nat) = [];
  fr_step n : ∃ log, step (label n) (run n) = Some (log, run (S n));
  fr_typed n : label_typed (label n);
  fr_time t : ∃ n, t ≤ sy_now (run n);
  fr_fair n : ∃ m, (n ≤ m)%nat ∧ (label m = LRun i ∨ ¬ enabled i (run m));
  fr_stays n : label n ≠ LDrop i;
}.

(** The variables of the loop, if the request is a long poll *)
Definition poll_of (j : Job) : option Poll :=
  match jb_call j with
  | Plain _ => None
  | Longpoll headers node_id params => Some (longpoll_start (jb_at j) headers node_id params)
  end.

(** The deadline has passed, if there is one. *)
Definition ripe (now : Z) (j : Job) : Prop := ∀ p, poll_of j = Some p → po_deadline p ≤ now.

(** The steps that are left *)
Definition todo (now : Z) (j : Job) : nat :=
  match poll_of j, jb_task j with
  | None, TStart _ => 2
  | None, (TRegistered _ _ | TBeaten _) => 1
  | None, _ => 0
  | Some p, t => owes now p t
  end.

(** Same request, still there *)
Definition follows (j j' : Job) : Prop :=
  jb_call j' = jb_call j ∧ jb_at j' = jb_at j ∧ jb_task j' ≠ TDropped.

Lemma follows_poll j j' : follows j j' → poll_of j' = poll_of j.
Proof. intros (Hc & Ha & _). unfold poll_of. by rewrite Hc, Ha. Qed.
Lemma follows_ripe now j j' : follows j j' → ripe now j → ripe now j'.
Proof. intros Hf. unfold ripe. by rewrite (follows_poll _ _ Hf). Qed.
Lemma follows_trans j1 j2 j3 : follows j1 j2 → follows j2 j3 → follows j1 j3.
Proof. intros (? & ? & ?) (? & ? & ?). split; [congruence|]. split; [congruence|done]. Qed.

Lemma task_step_stays app now t w st t' w' st' :
  task_step app now t w st = Some (t', w', st') → t' ≠ TDropped.
Proof.
  intros Hs ->. destruct t as [r| | | | | | |]; [destruct r|..]; simpl in Hs; try done;
    unfold goes_on in Hs; repeat case_match; simplify_eq.
Qed.
End Runs.

Section Steps.
Context `{IpNetLaws} `{Crates} `{HashOrder} `{SerdeLaws}.

(** The task of a plain request comes closer to its end with each step. *)
Lemma plain_step_todo app now j r w st t w' st' :
  job_ok now j → jb_call j = Plain r → task_step app now (jb_task j) w st = Some (t, w', st') →
  (S (todo now ((j : Job) <| jb_task := t |>)) ≤ todo now j)%nat.
Proof.
  intros [_ Hj] Hc Hs. unfold todo, poll_of. simpl. rewrite Hc in *.
  destruct (jb_task j) as [r'| | | | | | |]; [destruct r'|..]; simpl in Hs; try done;
    unfold goes_on in Hs; repeat case_match; simplify_eq; simpl; try lia.
Qed.

(** A step, seen from a request that is ripe: it is closer to its end, or its task was
    not run. *)
Lemma step_todo l c log c' i j :
  step l c = Some (log, c') → jobs_ok c → l ≠ LDrop i →
  sy_jobs c !! i = Some j → jb_task j ≠ TDropped →
  ∃ j', sy_jobs c' !! i = Some j' ∧ follows j j' ∧
    (l ≠ LRun i → jb_task j' = jb_task j) ∧
    (ripe (sy_now c) j → (todo (sy_now c') j' ≤ todo (sy_now c) j)%nat ∧
       (l = LRun i → (todo (sy_now c') j' < todo (sy_now c) j)%nat)).
Proof.
  intros Hs Hok Hne Hi Hnd. pose proof (Forall_lookup_1 _ _ _ _ Hok Hi) as Hj.
  pose proof (step_time _ _ _ _ Hs) as Htime.
  destruct (step_job _ _ _ _ _ _ Hs Hi) as (j' & Hi' & Hc & Ha & Hcase).
  exists j'. split; [done|]. destruct Hcase as [(-> & -> & w & st & Ht)|[[-> _]|[Hrun Heq]]];
    [|done|].
  - assert (follows j j') as Hf. { split; [done|]. split; [done|]. by eapply task_step_stays. }
    split; [done|]. split; [done|]. intros Hripe.
    assert (S (todo (sy_now c) j') ≤ todo (sy_now c) j)%nat; [|split; [lia|intros _; lia]].
    destruct (jb_call j) as [r|h id params] eqn:Hcall.
    + pose proof (plain_step_todo _ _ _ _ _ _ _ _ _ Hj Hcall Ht) as Hless.
      assert (todo (sy_now c) j' = todo (sy_now c) ((j : Job) <| jb_task := jb_task j' |>)) as ->;
        [|done]. unfold todo, poll_of. simpl. by rewrite Hc, Hcall.
    + destruct (polling _ _ _ _ _ Hj Hcall Hnd) as [[res Hd]|Hp]; [by rewrite Hd in Ht|].
      unfold todo. rewrite (follows_poll _ _ Hf). unfold poll_of in *. rewrite Hcall in *.
      eapply task_step_owes; [|exact Hp|exact Ht]. left. apply Hripe. unfold poll_of.
      by rewrite Hcall.
  - assert (follows j j') as Hf. { split; [done|]. split; [done|]. by rewrite Heq. }
    split; [done|]. split; [done|]. intros _. split.
    + unfold todo. rewrite (follows_poll _ _ Hf), Heq. destruct (poll_of j); [|done].
      by apply owes_later.
    + intros ->. simpl in Hrun. by rewrite bool_decide_eq_true_2 in Hrun.
Qed.

(** A request that is not done can take a step, or sleeps. *)
Lemma can_step c i j :
  jobs_ok c → sy_jobs c !! i = Some j → jb_task j ≠ TDropped →
  (∃ res, jb_task j = TDone res) ∨ enabled i c ∨
  ∃ p wake, jb_task j = TSleep p wake ∧ wake ≤ sy_now c + 500.
Proof.
  intros Hok Hi Hnd. pose proof (Forall_lookup_1 _ _ _ _ Hok Hi) as [_ Hj].
  unfold enabled. destruct (jb_task j) as [r|tok id|id|p|p rv nm|p wake|res|] eqn:Ht; [..|done].
  - right; left. exists j. rewrite Ht. destruct r; eauto.
  - right; left. exists j. rewrite Ht. simpl. eauto.
  - right; left. exists j. rewrite Ht. simpl. eauto.
  - right; left. exists j. rewrite Ht. simpl. eauto.
  - right; left. exists j. rewrite Ht. simpl. destruct (orb _ _); eauto.
  - right; right. destruct (jb_call j) as [r|h id params]; [done|]. destruct Hj as [-> Hw]. eauto.
  - left. eauto.
Qed.
End Steps.

(** ** Along a fair run *)
Section Fairness.
Context `{IpNetLaws} `{Crates} `{HashOrder} `{SerdeLaws}.
Context (i : nat) (run : nat → Sys) (label : nat → Label) (Hfair : FairRun i run label).

Lemma run_ok n : jobs_ok (run n).
Proof.
  induction n as [|n IH].
  - unfold jobs_ok. rewrite (fr_start _ _ _ Hfair). apply Forall_nil_2.
  - destruct (fr_step _ _ _ Hfair n) as [log Hs]. eapply step_jobs_ok; [|exact IH|exact Hs].
    by apply (fr_typed _ _ _ Hfair).
Qed.

Lemma run_time n k : sy_now (run n) ≤ sy_now (run (n + k)%nat).
Proof.
  induction k as [|k IH]; [by rewrite Nat.add_0_r|]. rewrite Nat.add_succ_r.
  destruct (fr_step _ _ _ Hfair (n + k)) as [log Hs]. apply step_time in Hs. lia.
Qed.

Lemma ripe_later n k j : ripe (sy_now (run n)) j → ripe (sy_now (run (n + k)%nat)) j.
Proof. intros Hr p Hp. specialize (Hr p Hp). pose proof (run_time n k). lia. Qed.

(** The request stays, and is closer to its end once its task has changed. *)
Lemma run_job n k j :
  sy_jobs (run n) !! i = Some j → jb_task j ≠ TDropped →
  ∃ j', sy_jobs (run (n + k)%nat) !! i = Some j' ∧ follows j j' ∧
    (ripe (sy_now (run n)) j →
       let t := todo (sy_now (run n)) j in let t' := todo (sy_now (run (n + k)%nat)) j' in
       (t' < t)%nat ∨ (t' ≤ t)%nat ∧ jb_task j' = jb_task j).
Proof.
  intros Hi Hnd. induction k as [|k (j1 & Hi1 & Hf1 & Hless1)].
  { exists j. rewrite Nat.add_0_r. split; [done|]. split; [done|]. auto. }
  rewrite Nat.add_succ_r. destruct (fr_step _ _ _ Hfair (n + k)) as [log Hs].
  destruct (step_todo _ _ _ _ i j1 Hs (run_ok _) (fr_stays _ _ _ Hfair _) Hi1) as
    (j2 & Hi2 & Hf2 & Heq & Hless2); [by apply Hf1|].
  exists j2. split; [done|]. split; [by eapply follows_trans|]. intros Hripe.
  destruct (Hless2 (follows_ripe _ _ _ Hf1 (ripe_later n k j Hripe))) as [Hle Hlt].
  assert (label (n + k)%nat = LRun i ∨ label (n + k)%nat ≠ LRun i) as [Hrun|Hother].
  { destruct (label (n + k)%nat) as [| |i'|]; try (by right).
    destruct (decide (i' = i)) as [->|]; [by left|right; congruence]. }
  - left. specialize (Hlt Hrun). destruct (Hless1 Hripe) as [?|[? _]]; lia.
  - destruct (Hless1 Hripe) as [?|[? Ht]]; [left; lia|right]. split; [lia|]. by rewrite Heq.
Qed.

(** A task that has not changed for half a second can run. *)
Lemma enabled_later n k j j' :
  sy_jobs (run n) !! i = Some j → jb_task j ≠ TDropped → ¬ (∃ res, jb_task j = TDone res) →
  sy_jobs (run (n + k)%nat) !! i = Some j' → jb_task j' = jb_task j →
  sy_now (run n) + 500 ≤ sy_now (run (n + k)%nat) → enabled i (run (n + k)%nat).
Proof.
  intros Hi Hnd Hopen Hi' Heq Hlate.
  destruct (can_step _ _ _ (run_ok _) Hi') as [[res Hd]|[He|(p & wake & Ht & _)]];
    [by rewrite Heq|destruct Hopen; exists res; congruence|done|].
  destruct (can_step _ _ _ (run_ok _) Hi Hnd) as [Hd|[(j0 & x & Hi0 & Hx)|(p' & wake' & Ht' & Hw)]].
  - done.
  - assert (j0 = j) as -> by congruence. rewrite <- Heq, Ht in Hx. simpl in Hx.
    destruct (Z.leb_spec wake (sy_now (run n))); [|done].
    exists j'. rewrite Ht. simpl. rewrite (proj2 (Z.leb_le _ _)) by lia. eauto.
  - exists j'. rewrite Ht. simpl. assert (wake = wake') as -> by congruence.
    rewrite (proj2 (Z.leb_le _ _)) by lia. eauto.
Qed.

Lemma run_progress n j :
  sy_jobs (run n) !! i = Some j → jb_task j ≠ TDropped → ripe (sy_now (run n)) j →
  (∃ res, jb_task j = TDone res) ∨
  ∃ k j', sy_jobs (run (n + k)%nat) !! i = Some j' ∧ follows j j' ∧
    (todo (sy_now (run (n + k)%nat)) j' < todo (sy_now (run n)) j)%nat.
Proof.
  intros Hi Hnd Hripe.
  assert ((∃ res, jb_task j = TDone res) ∨ ¬ ∃ res, jb_task j = TDone res) as [Hd|Hopen];
    [destruct (jb_task j); naive_solver|by left|right].
  destruct (fr_time _ _ _ Hfair (sy_now (run n) + 500)) as [m1 Hm1].
  destruct (fr_fair _ _ _ Hfair (n + m1)) as (m2 & Hm2 & Hcase).
  set (k := (m2 - n)%nat). assert (m2 = n + k)%nat as Hk by lia. rewrite Hk in Hcase.
  assert (sy_now (run n) + 500 ≤ sy_now (run (n + k)%nat)) as Hlate.
  { pose proof (run_time m1 (n + k - m1)) as Ht.
    replace (m1 + (n + k - m1))%nat with (n + k)%nat in Ht by lia. lia. }
  destruct (run_job n k j Hi Hnd) as (j2 & Hi2 & Hf2 & Hless2).
  destruct (Hless2 Hripe) as [Hlt|[Hle Heq]]; [by exists k, j2|].
  destruct Hcase as [Hrun|Hno].
  - destruct (fr_step _ _ _ Hfair (n + k)) as [log Hs]. rewrite Hrun in Hs.
    destruct (step_todo _ _ _ _ i j2 Hs (run_ok _)) as (j3 & Hi3 & Hf3 & _ & Hless3);
      [done|done|by apply Hf2|].
    destruct (Hless3 (follows_ripe _ _ _ Hf2 (ripe_later n k j Hripe))) as [_ Hlt].
    specialize (Hlt eq_refl). exists (S k), j3. rewrite Nat.add_succ_r.
    split; [done|]. split; [by eapply follows_trans|lia].
  - destruct Hno. by apply (enabled_later n k j j2).
Qed.

Lemma run_done n j :
  sy_jobs (run n) !! i = Some j → jb_task j ≠ TDropped → ripe (sy_now (run n)) j →
  ∃ k j', sy_jobs (run (n + k)%nat) !! i = Some j' ∧ follows j j' ∧ ∃ res, jb_task j' = TDone res.
Proof.
  remember (todo (sy_now (run n)) j) as t eqn:Ht. revert n j Ht.
  induction (lt_wf t) as [t _ IH]. intros n j -> Hi Hnd Hripe.
  destruct (run_progress n j Hi Hnd Hripe) as [Hd|(k & j' & Hi' & Hf & Hlt)].
  { exists 0%nat, j. rewrite Nat.add_0_r. split; [done|]. by split. }
  destruct (IH _ Hlt (n + k)%nat j' eq_refl Hi') as (k' & j2 & Hi2 & Hf2 & Hd).
  - apply Hf.
  - eapply follows_ripe; [exact Hf|by apply ripe_later].
  - exists (k + k')%nat, j2. rewrite Nat.add_assoc. split; [done|].
    split; [by eapply follows_trans|done].
Qed.
End Fairness.

(** ** The theorem *)
Section Answered.
Context `{IpNetLaws} `{Crates} `{HashOrder} `{SerdeLaws}.

(** C10. Every request is answered.  In every infinite run of servers on a common store, in
    which time goes on and the runtime is fair to a request whose client stays, this
    request is answered after finitely many steps, whatever else is served; a long poll
    that is answered with a netmap is answered with a revision above its [since], or
    after its timeout (30 seconds if none is given, 300 at most). *)
Theorem every_request_answered i run label n app call :
  FairRun i run label → label n = LArrive app call → length (sy_jobs (run n)) = i →
  ∃ m j res, (n < m)%nat ∧ sy_jobs (run m) !! i = Some j ∧ jb_call j = call ∧
    jb_task j = TDone res ∧
    match call, res with
    | Longpoll headers node_id params, Ok body =>
        ∃ nm, body = NetmapBody nm ∧
          (unwrap_or (lp_since params) 0 < nm_revision nm ∨
           sy_now (run n) + Z.min (unwrap_or (lp_timeout_seconds params) 30) 300 * 1000
             ≤ sy_now (run m))
    | _, _ => True
    end.
Proof.
  intros Hfair Hl Hlen. destruct (fr_step _ _ _ Hfair n) as [log Hs].
  rewrite Hl in Hs. simpl in Hs. injection Hs as _ Hrun.
  set (j0 := arrive app (sy_now (run n)) call).
  assert (sy_jobs (run (S n)) !! i = Some j0) as Hi.
  { rewrite <- Hrun. simpl. rewrite lookup_app_r by lia. by rewrite Hlen, Nat.sub_diag. }
  assert (jb_task j0 ≠ TDropped) as Hnd by (by destruct call).
  (* the deadline passes *)
  destruct (fr_time _ _ _ Hfair (sy_now (run n) +
    match poll_of j0 with Some p => po_deadline p - sy_now (run n) | None => 0 end)) as [m1 Hm1].
  destruct (run_job i run label Hfair (S n) m1 j0 Hi Hnd) as (j1 & Hi1 & Hf1 & _).
  assert (ripe (sy_now (run (S n + m1)%nat)) j1) as Hripe.
  { eapply follows_ripe; [exact Hf1|]. intros p Hp. rewrite Hp in Hm1.
    pose proof (run_time i run label Hfair m1 (S n)) as Ht.
    replace (m1 + S n)%nat with (S n + m1)%nat in Ht by lia. lia. }
  destruct (run_done i run label Hfair _ j1 Hi1 ltac:(apply Hf1) Hripe)
    as (k & j & Hj & Hf & res & Hres).
  destruct (follows_trans _ _ _ Hf1 Hf) as (Hcall & Hat & _).
  exists (S n + m1 + k)%nat, j, res. split; [lia|]. split; [done|].
  assert (jb_call j = call) as Hcall' by done. split; [done|]. split; [done|].
  destruct (Forall_lookup_1 _ _ _ _ (run_ok i run label Hfair (S n + m1 + k)) Hj) as [_ Hok].
  rewrite Hcall', Hres in Hok. destruct call as [r|h id params]; [done|].
  destruct res as [body|e]; [|done]. destruct body as [| | |nm]; try done.
  exists nm. split; [done|]. by rewrite Hat in Hok.
Qed.
End Answered.

(** ** A system in which only time passes *)
(** Time passes in [c]. *)
Definition at_time (t : Z) (c : Sys) : Sys := c <| sy_now := t |>.

(** The request has been answered. *)
Definition is_answered (i : nat) (c : Sys) : bool :=
  match sy_jobs c !! i with
  | Some j => match jb_task j with TDone _ => true | _ => false end
  | None => false
  end.

Lemma answered_not_enabled `{IpNet} `{Crates} `{HashOrder} `{Serde} i t c :
  is_answered i c = true → ¬ enabled i (at_time t c).
Proof.
  unfold is_answered. intros Hd (j & x & Hj & Hx). unfold at_time in Hj. simpl in Hj.
  rewrite Hj in Hd. destruct (jb_task j); done.
Qed.

(** ** A concrete run: a long poll for anything newer than nothing, and then time passes *)

Definition poll_call : Call := Longpoll admin_headers alice_id (mkNetmapLongpollParams None None).
Definition fair_label (n : nat) : Label :=
  match n with 0 => LArrive demo_app poll_call | 1 => LRun 0 | 2 => LRun 0 | _ => LTick 1 end%nat.
Fixpoint fair_run (n : nat) : Sys :=
  match n with
  | O => idle 0 demo_world demo_store
  | S n => (get_run (step (fair_label n) (fair_run n))).2
  end.
Lemma step_tick t c : step (LTick 1) (at_time t c) = Some ([], at_time (t + 1) c).
Proof. reflexivity. Qed.
Lemma at_time_now t c : sy_now (at_time t c) = t.
Proof. reflexivity. Qed.
Lemma at_time_same c : at_time (sy_now c) c = c.
Proof. by destruct c. Qed.

(** The state after the third step, and later ones *)
Definition settled : Sys := fair_run 3.
Definition quiet (k : nat) : Sys := at_time (Z.of_nat k) settled.

Lemma settled_now : sy_now settled = 0.
Proof. vm_compute. reflexivity. Qed.

Lemma quiet_step k : step (LTick 1) (quiet k) = Some ([], quiet (S k)).
Proof.
  unfold quiet. rewrite step_tick. replace (Z.of_nat k + 1) with (Z.of_nat (S k)) by lia. done.
Qed.

Lemma fair_run_succ k : fair_run (S (3 + k)) = (get_run (step (LTick 1) (fair_run (3 + k)))).2.
Proof. reflexivity. Qed.

Lemma fair_run_quiet k : fair_run (3 + k) = quiet k.
Proof.
  induction k as [|k IH].
  - unfold quiet. change (Z.of_nat 0) with 0. rewrite <- settled_now. symmetry. apply at_time_same.
  - rewrite Nat.add_succ_r, fair_run_succ, IH, quiet_step. reflexivity.
Qed.

Lemma settled_done : is_answered 0 settled = true.
Proof. vm_compute. reflexivity. Qed.

Lemma quiet_done k : ¬ enabled 0 (quiet k).
Proof. exact (answered_not_enabled 0 (Z.of_nat k) settled settled_done). Qed.

Lemma demo_fair : FairRun 0 fair_run fair_label.
Proof.
  split.
  - reflexivity.
  - intros n. destruct n as [|[|[|k]]].
    + eexists. vm_compute. reflexivity.
    + eexists. vm_compute. reflexivity.
    + eexists. vm_compute. reflexivity.
    + exists []. change (S (S (S k))) with (3 + k)%nat. rewrite <- Nat.add_succ_r.
      rewrite !fair_run_quiet. apply quiet_step.
  - intros n. destruct n as [|[|[|k]]]; exact I.
  - intros t. exists (3 + Z.to_nat t)%nat. rewrite fair_run_quiet. unfold quiet.
    rewrite at_time_now. lia.
  - intros n. exists (3 + n)%nat. split; [lia|right]. rewrite fair_run_quiet. apply quiet_done.
  - intros n. destruct n as [|[|[|k]]]; discriminate.
Qed.

Lemma every_request_answered_witness :
  ∃ m j res, (0 < m)%nat ∧ sy_jobs (fair_run m) !! 0%nat = Some j ∧ jb_call j = poll_call ∧
    jb_task j = TDone res.
Proof.
  destruct (every_request_answered 0 fair_run fair_label 0 demo_app poll_call demo_fair
    eq_refl eq_refl) as (m & j & res & Hm & Hj & Hc & Hd & _).
  exists m, j, res. split; [exact Hm|]. split; [exact Hj|]. split; [exact Hc|exact Hd].
Defined.
