(* ===== verification/Errors.v ===== *)
(** * When a request is answered 500

    [ApiError::Internal] is the answer when the store fails, and also when an overlay
    prefix that is stored does not parse.  The theorem says that the second never happens:
    on a store with a sound state a request is answered 500 only if one of the I/O
    requests that were made for it failed. *)

From S2P Require Import Prelude Effects RustStd StdNet Externals Model Store SampleStore Ipam.
From S2P Require Import Keys Acl Auth Netmap Netid ApiHelpers Api Invariant Safety Server.
From S2P Require Import Scenario Reachability.

(** ** Who is to blame *)

(** The I/O requests between two worlds of one run, and whether one of them failed *)
Definition later (w w' : World) : Prop := w_io w' = w_io w ∧ (w_ios w ≤ w_ios w')%nat.
Definition io_failed (w w' : World) : Prop :=
  ∃ i, (w_ios w ≤ i < w_ios w')%nat ∧ w_io w i ≠ IoOk.

(** From a state in [P], [m] fails with an error in [bad] only when I/O failed, and ends
    in [Q] when it succeeds. *)
Definition honest {S E A} (bad : E → Prop) (P : S → Prop) (m : M S E A) (Q : S → Prop) : Prop :=
  ∀ w s, P s → match m w s with
               | (r, w', s') => later w w' ∧ (∀ e, r = Err e → bad e → io_failed w w') ∧
                                (∀ a, r = Ok a → Q s')
               end.

Lemma later_refl w : later w w.
Proof. by split. Qed.
Lemma later_trans w1 w2 w3 : later w1 w2 → later w2 w3 → later w1 w3.
Proof. intros [E1 H1] [E2 H2]. split; [congruence|lia]. Qed.
Lemma io_failed_before w1 w2 w3 : io_failed w1 w2 → later w2 w3 → io_failed w1 w3.
Proof. intros (i & Hi & Hf) [_ Hle]. exists i. split; [lia|done]. Qed.
Lemma io_failed_after w1 w2 w3 : later w1 w2 → io_failed w2 w3 → io_failed w1 w3.
Proof. intros [E Hle] (i & Hi & Hf). exists i. split; [lia|by rewrite <- E]. Qed.

Section Honest.
Context {S E : Type} (bad : E → Prop).
Implicit Types P Q R : S → Prop.

Lemma honest_bind {A B} P R Q (m : M S E A) (f : A → M S E B) :
  honest bad P m R → (∀ a, honest bad R (f a) Q) → honest bad P (m ≫= f) Q.
Proof.
  intros Hm Hf w s HP. specialize (Hm w s HP). unfold mbind, M_bind.
  destruct (m w s) as [[[a|e] w1] s1]; destruct Hm as (Hl & He & Ha).
  - specialize (Hf a w1 s1 (Ha a eq_refl)). destruct (f a w1 s1) as [[r w2] s2].
    destruct Hf as (Hl2 & He2 & Ha2). split; [by eapply later_trans|]. split; [|done].
    intros e Hr Hb. by eapply io_failed_after, He2.
  - split; [done|]. split; [|done]. intros e' [= <-]. by apply He.
Qed.

Lemma honest_conseq {A} P P' Q Q' (m : M S E A) :
  honest bad P m Q → (∀ s, P' s → P s) → (∀ s, Q s → Q' s) → honest bad P' m Q'.
Proof.
  intros Hm HP HQ w s H. specialize (Hm w s (HP s H)). destruct (m w s) as [[r w1] s1].
  naive_solver.
Qed.

(** A computation without I/O that does not change the state *)
Lemma honest_quiet {A} P (m : M S E A) :
  (∀ w s, ∃ r w', m w s = (r, w', s) ∧ w_io w' = w_io w ∧ w_ios w' = w_ios w ∧
                  ∀ e, r = Err e → ¬ bad e) →
  honest bad P m P.
Proof.
  intros Hm w s HP. destruct (Hm w s) as (r & w' & -> & E1 & E2 & He).
  split; [split; [done|lia]|]. split; [|done]. intros e Hr Hb. by destruct (He e Hr).
Qed.

Lemma honest_ret {A} P (a : A) : honest bad P (mret a) P.
Proof. apply honest_quiet. intros w s. by exists (Ok a), w. Qed.
Lemma honest_throw {A} P (e : E) Q : ¬ bad e → honest bad P (mthrow e : M S E A) Q.
Proof. intros He w s _. split; [apply later_refl|]. split; [by intros e' [= <-]|done]. Qed.
Lemma honest_now P : honest bad P (now : M S E Z) P.
Proof. apply honest_quiet. intros w s. by eexists (Ok _), _. Qed.
Lemma honest_new_uuid P : honest bad P (new_uuid : M S E _) P.
Proof. apply honest_quiet. intros w s. by eexists (Ok _), _. Qed.
Lemma honest_random_bytes P : honest bad P (random_bytes : M S E _) P.
Proof. apply honest_quiet. intros w s. by eexists (Ok _), _. Qed.
Lemma honest_ok_or {A} P (o : option A) (e : E) : ¬ bad e → honest bad P (ok_or o e) P.
Proof. intros He. destruct o; [apply honest_ret|by apply honest_throw]. Qed.
Lemma honest_fail_if P c (e : E) : ¬ bad e → honest bad P (fail_if c e) P.
Proof. intros He. destruct c; [by apply honest_throw|apply honest_ret]. Qed.
Lemma honest_try_result {A} P (r : result A E) :
  (∀ e, r = Err e → ¬ bad e) → honest bad P (try_result r) P.
Proof. intros He. destruct r; [apply honest_ret|by apply honest_throw, He]. Qed.

Lemma honest_some {A B} P Q (o : option A) (a : A) (k : A → M S E B) e :
  o = Some a → honest bad P (k a) Q → honest bad P (ok_or o e ≫= k) Q.
Proof. by intros ->. Qed.

Lemma honest_get {A} P Q (f : S → M S E A) :
  (∀ s, P s → honest bad P (f s) Q) → honest bad P (get ≫= f) Q.
Proof. intros Hf w s HP. by apply (Hf s HP w s). Qed.

Lemma honest_modify P Q (f : S → S) :
  (∀ s, P s → Q (f s)) → honest bad P (modify f : M S E unit) Q.
Proof. intros HQ w s HP. split; [apply later_refl|]. split; [done|]. intros _ _. by apply HQ. Qed.

(** An I/O request: whatever is done when it fails is to its blame. *)
Lemma honest_io {A} P Q (k : IoRes → M S E A) :
  honest bad P (k IoOk) Q → (∀ left, honest (λ _, False) P (k (IoFail left)) Q) →
  honest bad P (io ≫= k) Q.
Proof.
  intros Hok Hfail w s HP. unfold mbind, M_bind, io.
  set (w1 := w <| w_ios := Datatypes.S (w_ios w) |>).
  assert (later w w1) as Hl by (split; simpl; [done|lia]).
  destruct (w_io w (w_ios w)) as [|left] eqn:Ei.
  - specialize (Hok w1 s HP). destruct (k IoOk w1 s) as [[r w2] s2].
    destruct Hok as (Hl2 & He & Ha). split; [by eapply later_trans|]. split; [|done].
    intros e Hr Hb. by eapply io_failed_after, He.
  - specialize (Hfail left w1 s HP). destruct (k (IoFail left) w1 s) as [[r w2] s2].
    destruct Hfail as (Hl2 & _ & Ha). split; [by eapply later_trans|]. split; [|done].
    intros e _ _. eapply io_failed_before; [|done]. exists (w_ios w).
    split; [simpl; lia|congruence].
Qed.
End Honest.

(** ** The store *)

Definition internal (e : ApiError) : Prop := e = Internal.
Definition internal_any (e : AnyErr ApiError) : Prop := e = Failed ∨ e = Raised Internal.

Section Stores.
Context `{SerdeLaws}.

(** There is a state in view, and it is in [I]. *)
Definition sound (I : State → Prop) (st : StateStore) : Prop := ∃ s, view st = Some s ∧ I s.
Definition in_view : StateStore → Prop := sound (λ _, True).

Lemma io_ok_honest P : honest internal_any P io_ok P.
Proof.
  apply honest_io; [apply honest_ret|]. intros left. apply honest_throw. tauto.
Qed.

Lemma persist_file_honest path s : honest internal_any (λ _, True) (persist_file path s) (λ _, True).
Proof.
  destruct path as [p|]; [|by apply honest_ret]. unfold persist_file.
  apply honest_bind with (R := λ _, True).
  { repeat case_match; first [apply honest_ret|apply io_ok_honest]. }
  intros _. apply honest_io; [by apply honest_modify|]. intros [contents|].
  - apply honest_bind with (R := λ _, True); [by apply honest_modify|]. intros _. apply honest_throw. tauto.
  - apply honest_bind with (R := λ _, True); [by apply honest_ret|]. intros _. apply honest_throw. tauto.
Qed.

Lemma commit_db_honest effect P Q :
  (∀ st, P st → Q (effect st)) → honest internal_any P (commit_db effect) Q.
Proof.
  intros HQ. apply honest_io; [by apply honest_modify|]. intros [contents|].
  - apply honest_bind with (R := Q); [by apply honest_modify|]. intros _. apply honest_throw. tauto.
  - apply honest_throw. tauto.
Qed.

(** A closure that is run in a store access *)
Lemma honest_closure {R} (f : M State ApiError R) I s w r w' s' :
  honest internal I f (λ _, True) → I s → f w s = (r, w', s') →
  later w w' ∧ (r = Err Internal → io_failed w w').
Proof.
  intros Hf HI Er. specialize (Hf w s HI). rewrite Er in Hf. destruct Hf as (Hl & He & _).
  split; [done|]. intros ->. by apply (He Internal).
Qed.

(** What a transaction does with its closure *)
Lemma transaction_honest {R} (f : M State ApiError R) I s
    (k : R → State → M StateStore (AnyErr ApiError) R) :
  honest internal I f (λ _, True) → I s →
  (∀ r s, honest internal_any (λ _, True) (k r s) (λ _, True)) →
  honest internal_any (λ _, True)
    (λ w st, match f w s with
             | (Err e, w, _) => (Err (Raised e), w, st)
             | (Ok r, w, s) => k r s w st
             end) (λ _, True).
Proof.
  intros Hf HI Hk w st _. destruct (f w s) as [[[r|e] w1] s1] eqn:Ef;
    destruct (honest_closure f I s w _ _ _ Hf HI Ef) as [Hl He].
  - specialize (Hk r s1 w1 st Logic.I). destruct (k r s1 w1 st) as [[r2 w2] st2].
    destruct Hk as (Hl2 & He2 & _). split; [by eapply later_trans|]. split; [|done].
    intros e Hr Hb. by eapply io_failed_after, He2.
  - split; [done|]. split; [|done]. intros e' [= <-] [Hb|Hb]; [done|]. injection Hb as ->. by apply He.
Qed.

Lemma write_db_honest {R} (f : M State ApiError R) I db row s :
  db_row db = Some row → state_from_json row = Some s →
  honest internal I f (λ _, True) → I s →
  honest internal_any (λ _, True) (write_state_db db f) (λ _, True).
Proof.
  intros Hrow Hjson Hf HI. unfold write_state_db.
  do 2 (apply honest_bind with (R := λ _, True); [apply io_ok_honest|intros _]).
  apply (honest_some _ _ _ _ row _ _ Hrow), (honest_some _ _ _ _ s _ _ Hjson).
  apply (transaction_honest f I s (λ r s, io_ok;;
    commit_db (set_row (state_to_json (bump_revision s)) db);; mret r)); [done..|].
  intros r s1. apply honest_bind with (R := λ _, True); [apply io_ok_honest|intros _].
  apply honest_bind with (R := λ _, True); [by apply commit_db_honest|intros _]. apply honest_ret.
Qed.

Lemma load_db_honest db row s {A} (k : State → M StateStore (AnyErr ApiError) A) P Q :
  db_row db = Some row → state_from_json row = Some s →
  honest internal_any P (k s) Q → honest internal_any P (load_state_db db ≫= k) Q.
Proof.
  intros Hrow Hjson Hk.
  assert (honest internal_any P (io_ok;; row ← ok_or (db_row db) Failed;
            s ← ok_or (state_from_json row) Failed; k s) Q) as Hm.
  { apply honest_bind with (R := P); [apply io_ok_honest|intros _].
    by apply (honest_some _ _ _ _ row _ _ Hrow), (honest_some _ _ _ _ s _ _ Hjson). }
  intros w st HP. specialize (Hm w st HP). revert Hm. unfold load_state_db, mbind, M_bind.
  destruct (io_ok w st) as [[[u|e] w1] st1]; [|done]. rewrite Hrow. simpl. rewrite Hjson. done.
Qed.

Lemma sound_db I st db :
  sound I st → ss_backend st = Db db →
  ∃ row s, db_row db = Some row ∧ state_from_json row = Some s ∧ I s.
Proof.
  intros (s & Hv & HI) Eb. unfold view in Hv. rewrite Eb in Hv.
  destruct (db_row db) as [row|]; [|done]. eauto.
Qed.

Lemma write_honest {R} (f : M State ApiError R) I :
  honest internal I f (λ _, True) → honest internal (sound I) (store_call (write f)) in_view.
Proof.
  intros Hf w st HI.
  assert (match write f w st with (r, w', _) =>
    later w w' ∧ (∀ e, r = Err e → internal_any e → io_failed w w') end) as Hw.
  { unfold write. destruct (ss_backend st) as [fs|db] eqn:Eb.
    - assert (I (fs_inner fs)) as HIs.
      { destruct HI as (s & Hv & HIs). unfold view in Hv. rewrite Eb in Hv. by injection Hv as ->. }
      set (k := (λ r s, modify (set_inner (bump_revision s) fs);;
        persist_file (fs_path fs) (bump_revision s);; mret r)
        : R → State → M StateStore (AnyErr ApiError) R).
      assert (∀ r s, honest internal_any (λ _, True) (k r s) (λ _, True)) as Hk.
      { intros r s. apply honest_bind with (R := λ _, True); [by apply honest_modify|intros _].
        apply honest_bind with (R := λ _, True); [apply persist_file_honest|intros _].
        apply honest_ret. }
      pose proof (transaction_honest f I (fs_inner fs) k Hf HIs Hk w st Logic.I) as Ht.
      revert Ht. rewrite write_locked_run. unfold k, mbind, M_bind, modify.
      destruct (f w (fs_inner fs)) as [[[r|e] w1] s1]; simpl.
      + destruct (persist_file _ _ _ _) as [[[u|e] w2] st2]; naive_solver.
      + naive_solver.
    - destruct (sound_db _ _ _ HI Eb) as (row & s & Hrow & Hjson & HIs).
      pose proof (write_db_honest f I db row s Hrow Hjson Hf HIs w st Logic.I) as Ht.
      destruct (write_state_db db f w st) as [[r w'] st']. naive_solver. }
  unfold store_call. destruct (write f w st) as [[r w'] st'] eqn:Ew. destruct Hw as [Hl He].
  split; [done|]. split.
  - intros e. destruct r as [a|e']; [done|]. intros [= <-] Hint. apply (He e' eq_refl).
    destruct e' as [e'|]; [right|by left]. by rewrite <- Hint.
  - intros a Ha. destruct r as [r|e]; [|done]. apply write_simulates in Ew.
    inversion Ew; subst. eexists. by split.
Qed.

Lemma read_honest {R} (f : M State ApiError R) I :
  honest internal I f (λ _, True) → honest internal (sound I) (store_call (read f)) (sound I).
Proof.
  intros Hf w st HI.
  assert (match read f w st with (r, w', _) =>
    later w w' ∧ (∀ e, r = Err e → internal_any e → io_failed w w') end) as Hr.
  { set (run := (λ s w st, match f w s with
                           | (Ok r, w, _) => (Ok r, w, st)
                           | (Err e, w, _) => (Err (Raised e), w, st)
                           end) : State → M StateStore (AnyErr ApiError) R).
    assert (∀ s, I s → honest internal_any (λ _, True) (run s) (λ _, True)) as Hrun.
    { intros s HIs w1 st1 _.
      pose proof (transaction_honest f I s
        ((λ r _, mret r) : R → State → M StateStore (AnyErr ApiError) R) Hf HIs
        (λ r _, honest_ret _ _ r) w1 st1 Logic.I) as Ht.
      cbn beta in Ht. unfold run. destruct (f w1 s) as [[[r|e] w2] s2]; exact Ht. }
    unfold read. destruct (ss_backend st) as [fs|db] eqn:Eb.
    - assert (I (fs_inner fs)) as HIs.
      { destruct HI as (s & Hv & HIs). unfold view in Hv. rewrite Eb in Hv. by injection Hv as ->. }
      specialize (Hrun _ HIs w st Logic.I). unfold run in Hrun. cbn beta in Hrun.
      destruct (f w (fs_inner fs)) as [[[r|e] w1] s1]; destruct Hrun as (Hl & He & _); by split.
    - destruct (sound_db _ _ _ HI Eb) as (row & s & Hrow & Hjson & HIs).
      pose proof (load_db_honest db row s run (λ _, True) (λ _, True) Hrow Hjson (Hrun s HIs) w st
        Logic.I) as Ht. cbn beta in Ht.
      revert Ht. fold run. destruct ((load_state_db db ≫= run) w st) as [[r w'] st'].
      intros (Hl & He & _). by split. }
  pose proof (store_call_pure _ (read_pure f) w st) as Hpure. revert Hpure.
  unfold store_call. destruct (read f w st) as [[r w'] st'] eqn:Er. destruct Hr as [Hl He].
  simpl. intros ->. split; [done|]. split; [|done].
  intros e. destruct r as [a|e']; [done|]. intros [= <-] Hint. apply (He e' eq_refl).
  destruct e' as [e'|]; [right|by left]. by rewrite <- Hint.
Qed.
End Stores.

(** ** The closures *)

Lemma honest_any {S E A} (bad : E → Prop) (P Q : S → Prop) (m : M S E A) :
  honest bad (λ _, True) m (λ _, True) → (∀ s, Q s) → honest bad P m Q.
Proof. intros Hm HQ. eapply honest_conseq; [exact Hm|done|done]. Qed.

Lemma honest_random_secret `{Crates} {S E} (bad : E → Prop) P :
  honest bad P (random_secret : M S E string) P.
Proof. unfold random_secret. eapply honest_bind; [apply honest_random_bytes|intros; apply honest_ret]. Qed.

Section Results.
Context `{Crates} `{HashOrder}.

Lemma require_admin_error headers t e : require_admin headers t = Err e → ¬ internal e.
Proof.
  unfold require_admin. destruct t; [|done].
  destruct (bearer_token headers); [case_bool_decide|]; by intros [= <-].
Qed.
Lemma require_node_error headers t node e : require_node headers t node = Err e → ¬ internal e.
Proof. unfold require_node. repeat case_match; by intros [= <-]. Qed.
Lemma normalize_node_name_error name e : normalize_node_name name = Err e → ¬ internal e.
Proof. unfold normalize_node_name. destruct (is_empty _); by intros [= <-]. Qed.
Lemma ensure_unique_error s nid name ex e :
  ensure_unique_node_name s nid name ex = Err e → ¬ internal e.
Proof. unfold ensure_unique_node_name. destruct (any _ _); by intros [= <-]. Qed.
Lemma next_node_name_error s nd req e : next_node_name s nd req = Err e → ¬ internal e.
Proof.
  unfold next_node_name. destruct (un_name req) as [name|]; [|done].
  destruct (normalize_node_name name) as [n|e1] eqn:En;
    [|by intros [= <-]; eapply normalize_node_name_error].
  case_bool_decide; [done|]. destruct (ensure_unique_node_name _ _ _ _) as [u|e1] eqn:Eu; [done|].
  intros [= <-]. by eapply ensure_unique_error.
Qed.
End Results.

Create HintDb honest.
#[export] Hint Resolve require_admin_error require_node_error normalize_node_name_error
  ensure_unique_error next_node_name_error honest_random_secret : honest.

(** One step of a computation that may be in any state *)
Ltac honest_leaf :=
  lazymatch goal with
  | |- honest _ _ (mret _) _ => apply honest_ret
  | |- honest _ _ now _ => apply honest_now
  | |- honest _ _ new_uuid _ => apply honest_new_uuid
  | |- honest _ _ random_bytes _ => apply honest_random_bytes
  | |- honest _ _ (mthrow _) _ => apply honest_throw; discriminate
  | |- honest _ _ (ok_or _ _) _ => apply honest_ok_or; discriminate
  | |- honest _ _ (fail_if _ _) _ => apply honest_fail_if; discriminate
  | |- honest _ _ (try_result _) _ => apply honest_try_result; solve [eauto with honest]
  | |- honest _ _ (modify _) _ => apply honest_modify; done
  | |- honest _ _ _ _ => solve [eauto with honest]
  end.
Ltac solve_honest :=
  repeat (intros; cbn beta;
    lazymatch goal with
    | |- honest _ _ (get ≫= _) _ => apply honest_get
    | |- honest _ _ (_ ≫= _) _ => apply honest_bind with (R := λ _, True)
    | |- honest _ _ (match ?x with _ => _ end) _ => destruct x
    | |- honest _ _ (let '(_, _) := ?x in _) _ => destruct x
    | |- _ => honest_leaf
    end).

Section Closures.
Context `{IpNetLaws} `{Crates} `{HashOrder}.
Context (app : AppState).
#[local] Notation "'polite' m" := (honest internal (λ _, True) m (λ _, True)) (at level 10, m at level 9).

Lemma audit_honest action nid id detail : polite (audit action nid id detail).
Proof. unfold audit, build_audit_entry. solve_honest. Qed.
#[local] Hint Resolve audit_honest : honest.

Lemma build_token_honest nid ttl uses tags ou oe oa :
  polite (build_token (S := State) nid ttl uses tags ou oe oa).
Proof. unfold build_token. solve_honest. Qed.
#[local] Hint Resolve build_token_honest : honest.

Lemma with_node_honest {A} key (m : M NodeState ApiError A) : polite m → polite (with_node key m).
Proof.
  intros Hm w s _. unfold with_node. destruct (st_nodes s !! key) as [n|].
  - specialize (Hm w n Logic.I). destruct (m w n) as [[r w1] n1]. naive_solver.
  - split; [apply later_refl|]. split; [|done]. by intros e [= <-].
Qed.

Lemma with_network_honest {A} (P : State → Prop) (J : NetworkState → Prop) key
    (m : M NetworkState ApiError A) :
  honest internal J m (λ _, True) →
  (∀ s n, P s → st_networks s !! key = Some n → J n) →
  honest internal P (with_network key m) (λ _, True).
Proof.
  intros Hm HJ w s HP. unfold with_network. destruct (st_networks s !! key) as [n|] eqn:En.
  - specialize (Hm w n (HJ s n HP En)). destruct (m w n) as [[r w1] n1]. naive_solver.
  - split; [apply later_refl|]. split; [|done]. by intros e [= <-].
Qed.

(** A network whose prefixes parse *)
Definition parses (n : NetworkState) : Prop :=
  is_Some (ipv4net_parse (nw_overlay_v4 n)) ∧ is_Some (ipv6net_parse (nw_overlay_v6 n)).

Lemma inv_parses s key n : inv s → st_networks s !! key = Some n → parses n.
Proof.
  intros Hi Hn. destruct (inv_alloc _ _ _ Hi key n Hn) as (v4 & v6 & Ha).
  split; [by rewrite (ao_v4 _ _ _ Ha)|by rewrite (ao_v6 _ _ _ Ha)].
Qed.

Lemma allocate_node_ips_honest : honest internal parses allocate_node_ips (λ _, True).
Proof.
  unfold allocate_node_ips. apply honest_get. intros n [[v4 E4] [v6 E6]].
  apply honest_any; [|done].
  apply (honest_some _ _ _ _ v4 _ _ E4), (honest_some _ _ _ _ v6 _ _ E6). solve_honest.
Qed.

Lemma check_overlaps_error v4 v6 l e :
  Forall parses l → check_overlaps v4 v6 l = Err e → ¬ internal e.
Proof.
  induction 1 as [|n l [[e4 E4] [e6 E6]] _ IH]; simpl; [done|]. rewrite E4, E6.
  destruct (ipv4_nets_overlap v4 e4); [by intros [= <-]|].
  destruct (ipv6_nets_overlap v6 e6); [by intros [= <-]|done].
Qed.

Lemma create_network_tx_honest req n v4 v6 :
  honest internal inv (create_network_tx req n v4 v6) (λ _, True).
Proof.
  unfold create_network_tx. apply honest_get. intros s Hi.
  apply honest_bind with (R := λ _, True); [apply honest_any; [honest_leaf|done]|intros _].
  apply honest_bind with (R := λ _, True); [|solve_honest].
  apply honest_try_result. intros e. apply check_overlaps_error, Forall_forall.
  intros x [key Hx]%elem_of_hm_values. by eapply inv_parses.
Qed.

(** Work on the state that leaves it as it was, up to the allocation of addresses *)
Lemma honest_keep {S E A B} (bad : E → Prop) (P Q : S → Prop) (m : M S E A) (f : A → M S E B) :
  honest bad P m P → (∀ a, honest bad P (f a) Q) → honest bad P (m ≫= f) Q.
Proof. apply honest_bind. Qed.

Lemma allocation_honest key : honest internal inv (with_network key allocate_node_ips) (λ _, True).
Proof.
  eapply with_network_honest; [apply allocate_node_ips_honest|]. intros s n. apply inv_parses.
Qed.

Lemma register_tx_honest req name tok now :
  honest internal inv (register_tx req name tok now) (λ _, True).
Proof.
  unfold register_tx. apply honest_get. intros s Hi.
  repeat (apply honest_keep; [honest_leaf|intros ?]).
  apply honest_bind with (R := λ _, True); [apply allocation_honest|solve_honest].
Qed.

Lemma register_url_tx_honest req name tok now ex :
  honest internal inv (register_url_tx req name tok now ex) (λ _, True).
Proof.
  unfold register_url_tx. apply honest_get. intros s Hi.
  repeat (apply honest_keep; [honest_leaf|intros ?]).
  apply honest_bind with (R := λ _, True); [apply allocation_honest|solve_honest].
Qed.

Lemma rotate_key_honest t new unchanged now : polite (rotate_key t new unchanged now).
Proof. unfold rotate_key. solve_honest. Qed.
#[local] Hint Resolve rotate_key_honest : honest.

Lemma rotate_keys_node_honest headers req now : polite (rotate_keys_node app headers req now).
Proof. unfold rotate_keys_node. solve_honest. Qed.

Lemma build_netmap_honest id relay : polite (build_netmap id relay).
Proof. unfold build_netmap. solve_honest. Qed.
End Closures.

#[export] Hint Resolve audit_honest build_token_honest with_node_honest rotate_keys_node_honest
  build_netmap_honest create_network_tx_honest register_tx_honest register_url_tx_honest : honest.

(** A closure that works on any state, or one of the lemmas above *)
Ltac closure_honest :=
  first
    [ solve [eauto with honest]
    | apply honest_any; [|done];
      unfold delete_network_tx, get_acl_rd, update_acl_tx, get_key_policy_rd,
        update_key_policy_tx, create_token_tx, list_tokens_rd, revoke_token_tx,
        approve_node_secret_tx, approve_node_tx, approve_audit, admin_nodes_rd, update_node_tx,
        rotate_keys_tx, revoke_node_tx, delete_node_tx, node_keys_rd, audit_log_rd,
        heartbeat_tx, netmap_rd, poll_read;
      solve [solve_honest] ].

(** Follow a handler on a sound store: its checks, its accesses and what comes after. *)
Ltac handler_honest :=
  repeat (intros; cbn beta;
    lazymatch goal with
    | |- honest _ _ (store_call (write _) ≫= _) _ =>
        apply honest_bind with (R := in_view); [apply write_honest; closure_honest|]
    | |- honest _ _ (store_call (write _)) _ =>
        eapply honest_conseq; [apply write_honest; closure_honest|done|done]
    | |- honest _ _ (store_call (read _) ≫= _) _ =>
        eapply honest_bind; [apply read_honest; closure_honest|]
    | |- honest _ _ (store_call (read _)) _ =>
        eapply honest_conseq; [apply read_honest; closure_honest|done|done]
    | |- honest _ _ (_ ≫= _) _ => apply honest_keep; [honest_leaf|]
    | |- honest _ _ (match ?x with _ => _ end) _ => destruct x
    | |- honest _ _ (let '(_, _) := ?x in _) _ => destruct x
    | |- honest _ _ _ _ => eapply honest_conseq; [honest_leaf|done|done]
    end).

Section Handlers.
Context `{IpNetLaws} `{Crates} `{HashOrder} `{SerdeLaws}.
Context (app : AppState).

Lemma status_honest {A} P (m : M StateStore ApiError A) :
  honest internal P m (λ _, True) → honest internal P (status m) (λ _, True).
Proof.
  intros Hm. unfold status. apply honest_bind with (R := λ _, True); [done|].
  intros _. apply honest_ret.
Qed.

Lemma serve_honest r : honest internal (sound inv) (serve app r) (λ _, True).
Proof.
  destruct r; unfold serve; apply status_honest;
    unfold create_network, delete_network, list_tokens, create_token, get_acl, update_acl,
      get_key_policy, update_key_policy, revoke_token, register, register_url,
      approve_node_secret, approve_node, rotate_keys, revoke_node, delete_node, node_keys,
      admin_nodes, admin_topology, update_node, audit_log, heartbeat, netmap.
  all: handler_honest.
Qed.

(** C19. A request is answered 500 only when the store fails.  On a store whose state
    satisfies the invariant, which every reachable store does, whatever the request is,
    if the answer is an internal error then one of the I/O requests made while it was
    served has failed. *)
Theorem internal_error_is_io r w st res w' st' s :
  view st = Some s → inv s → serve app r w st = (res, w', st') →
  res = Err Internal → io_failed w w'.
Proof.
  intros Hv Hi Hs ->. pose proof (serve_honest r w st) as Hh. rewrite Hs in Hh.
  destruct Hh as (_ & He & _); [by exists s|]. by apply (He Internal).
Qed.
End Handlers.

(** ** A concrete instance: the disk is full *)

Definition full_disk : World :=
  mkWorld (w_clock demo_world) (w_uuid demo_world) (w_rand demo_world) (λ _, IoFail None) 0 0 0 0.
Definition demo_on_disk : StateStore :=
  mkStateStore (File (mkFileStore demo_state (Some (mkPathBuf "state.json" (Some ""))))) ∅.

Lemma internal_error_is_io_witness :
  let run := serve demo_app (PostNodeRevoke admin_headers alice_id) full_disk demo_on_disk in
  run.1.1 = Err Internal ∧ io_failed full_disk run.1.2.
Proof.
  intros run. assert (run.1.1 = Err Internal) as He by (vm_compute; reflexivity).
  split; [exact He|].
  apply (internal_error_is_io demo_app (PostNodeRevoke admin_headers alice_id) full_disk
    demo_on_disk run.1.1 run.1.2 run.2 demo_state).
  - reflexivity.
  - exact (reachable_state_inv demo_app demo_store demo_state demo_reachable demo_view).
  - unfold run. apply run_eta.
  - exact He.
Defined.
