(* ===== verification/KeyLifecycle.v ===== *)
(** * The life of a node's keys

    What the key-age policy demands, what a rotation does to a node and its history,
    and how revocation and rotation interact. *)

From S2P Require Import Prelude Effects RustStd StdNet Externals Model Store SampleStore Ipam.
From S2P Require Import Keys Acl Auth Netmap Netid ApiHelpers Api Invariant Safety Server.
From S2P Require Import Scenario Reachability Names Errors.

#[local] Opaque audit.

Section Status.
(** Times as the clock gives them: non-negative seconds. *)
Definition times_ok (node : NodeState) (now : Z) : Prop :=
  0 ≤ now ≤ i64_max ∧ ∀ r, r ∈ nd_key_history node → 0 ≤ kr_created_at r ≤ i64_max.

Lemma current_key_created_at_range node now t c :
  times_ok node now → current_key_created_at node t = Some c → 0 ≤ c ≤ i64_max.
Proof.
  intros [_ Ht] Hc. unfold current_key_created_at in Hc.
  apply fmap_Some in Hc as (r & Hr & ->). apply Ht. 
  apply List.find_some in Hr as [Hr _]. by apply list_elem_of_In.
Qed.

(** A maximum age as the code reads it: a [u64] that is cast to [i64] *)
Definition policy_age (max_age : Z) : Z :=
  if decide (max_age ≤ i64_max) then max_age else max_age - 2 ^ 64.

Lemma as_i64_policy_age max_age : 0 ≤ max_age ≤ u64_max → as_i64 max_age = policy_age max_age.
Proof.
  unfold policy_age, u64_max, i64_max. intros Hm. case_decide.
  - apply as_i64_id. unfold in_i64, i64_min, i64_max. lia.
  - unfold as_i64. replace (max_age + 2 ^ 63) with (max_age - 2 ^ 63 + 1 * 2 ^ 64) by lia.
    rewrite Z_mod_plus_full, Z.mod_small by lia. lia.
Qed.

(** The policy sets a maximum age, and the live record of a current key is older. *)
Definition rotation_due (node : NodeState) (policy : KeyRotationPolicy) (now : Z) : Prop :=
  ∃ max_age t, max_age_seconds policy = Some max_age ∧ key_expired node (policy_age max_age) now t.

(** C17. The status the code computes is the one the policy means, for every policy and
    every maximum age of the API, on a node whose key history is sound and with clock
    readings that are not negative: rotation is required exactly when the policy sets a
    maximum age and the live record of the current key of some type is older than this
    age, and a node counts as approved exactly when it is approved, not revoked, and
    needs no rotation.  An age below 2^63 seconds counts as it is; a larger one is read
    as the negative number of the same bits, which every key exceeds. *)
Theorem node_status_spec node policy now :
  key_history_ok node → times_ok node now →
  (∀ max_age, max_age_seconds policy = Some max_age → 0 ≤ max_age ≤ u64_max) →
  let '(approved, rotate) := effective_node_status node policy now in
  (rotate = true ↔ rotation_due node policy now) ∧
  (approved = true ↔ nd_approved node = true ∧ nd_revoked_at node = None ∧
                      ¬ rotation_due node policy now).
Proof.
  intros Hok Ht Hm.
  set (expired max_age t := match current_key_created_at node t with
                    | Some c => as_i64 max_age <? i64_saturating_sub now c
                    | None => false
                    end).
  assert (∀ max_age t, 0 ≤ max_age ≤ u64_max →
    expired max_age t = true ↔ key_expired node (policy_age max_age) now t) as Hexp.
  { intros max_age t Hage. rewrite key_expired_live by done. unfold expired.
    destruct (current_key_created_at node t) as [c|] eqn:Ec; [|naive_solver].
    pose proof (current_key_created_at_range node now t c Ht Ec). destruct Ht as [Hnow _].
    rewrite as_i64_policy_age by done. unfold i64_max in *.
    rewrite i64_saturating_sub_id by (unfold in_i64, i64_min, i64_max; lia).
    rewrite Z.ltb_lt. naive_solver. }
  set (due := match max_age_seconds policy with
              | Some m => expired m Machine || expired m WireGuard | None => false end).
  assert (due = true ↔ rotation_due node policy now) as Hor.
  { unfold due, rotation_due. destruct (max_age_seconds policy) as [m|]; [|naive_solver].
    rewrite orb_true_iff, !Hexp by auto. split; [naive_solver|].
    intros (m' & [] & [= <-] & ?); auto. }
  assert (effective_node_status node policy now =
    (nd_approved node && negb (is_some (nd_revoked_at node)) && negb due, due)) as -> by done.
  clearbody due. split; [exact Hor|]. rewrite <- Hor, !andb_true_iff, !negb_true_iff.
  destruct (nd_revoked_at node), due; simpl; intuition congruence.
Qed.

(** A maximum age of 2^63 seconds or more is read as a negative number: every
    node with a live current key needs a rotation at once and is never approved,
    although no key can be that old. *)
Theorem huge_max_age_locks_out node max_age now t c :
  2 ^ 63 ≤ max_age < 2 ^ 64 → current_key_created_at node t = Some c → c ≤ now →
  effective_node_status node (mkKeyRotationPolicy (Some max_age)) now = (false, true).
Proof.
  intros Hm Hc Hle.
  assert (as_i64 max_age < 0) as Hneg.
  { unfold as_i64. replace (max_age + 2 ^ 63) with (max_age - 2 ^ 63 + 1 * 2 ^ 64) by lia.
    rewrite Z_mod_plus_full, Z.mod_small by lia. lia. }
  assert ((as_i64 max_age <? i64_saturating_sub now c) = true) as Hlt.
  { apply Z.ltb_lt. unfold i64_saturating_sub, i64_min, i64_max. lia. }
  unfold effective_node_status. simpl.
  assert (∀ a b : bool, (match t with Machine => a | WireGuard => b end) = true → a || b = true) as Hor
    by (destruct t; intros [] []; done).
  rewrite (Hor (match current_key_created_at node Machine with
                | Some c => as_i64 max_age <? i64_saturating_sub now c | None => false end)
               (match current_key_created_at node WireGuard with
                | Some c => as_i64 max_age <? i64_saturating_sub now c | None => false end)).
  - by rewrite andb_false_r.
  - destruct t; by rewrite Hc.
Qed.
End Status.

(** ** Rotation *)

(** The node after a rotation of one key. *)
Definition rotated_key (n : NodeState) (t : KeyType) (new : string) (now : Z) : NodeState :=
  let h := rotate_history (nd_key_history n) t (node_key n t) new now in
  let n := match t with
           | Machine => (n : NodeState) <| nd_machine_public_key := new |>
           | WireGuard => (n : NodeState) <| nd_wg_public_key := new |>
           end in
  (n : NodeState) <| nd_key_history := h |>.

(** The node after the keys a request asks for were rotated. *)
Definition rotated (n : NodeState) (req : KeyRotationRequest) (now : Z) : NodeState :=
  let n := match krq_machine_public_key req with
           | Some k => rotated_key n Machine k now | None => n end in
  match krq_wg_public_key req with
  | Some k => rotated_key n WireGuard k now | None => n end.

Lemma rotate_key_run t new msg now w n :
  rotate_key t new msg now w n =
  match new with
  | None => (Ok tt, w, n)
  | Some k => if bool_decide (node_key n t = k) then (Err (BadRequest msg), w, n)
              else (Ok tt, w, rotated_key n t k now)
  end.
Proof.
  unfold rotate_key. destruct new as [k|]; [|done].
  unfold mbind, M_bind, get, modify, fail_if. case_bool_decide; [done|]. by destruct t.
Qed.

(** A rotation changes the keys and their history, nothing else. *)
Lemma rotated_key_fields n t k now :
  nd_approved (rotated_key n t k now) = nd_approved n ∧
  nd_revoked_at (rotated_key n t k now) = nd_revoked_at n ∧
  nd_name (rotated_key n t k now) = nd_name n ∧
  nd_id (rotated_key n t k now) = nd_id n ∧
  nd_network_id (rotated_key n t k now) = nd_network_id n ∧
  nd_node_token (rotated_key n t k now) = nd_node_token n ∧
  node_key (rotated_key n t k now) t = k ∧
  (∀ t', t' ≠ t → node_key (rotated_key n t k now) t' = node_key n t') ∧
  nd_key_history (rotated_key n t k now)
    = rotate_history (nd_key_history n) t (node_key n t) k now.
Proof. destruct t; repeat split; intros []; done. Qed.

Lemma rotated_key_history_ok n t k now : key_history_ok n → key_history_ok (rotated_key n t k now).
Proof.
  intros Hok t'. destruct (rotated_key_fields n t k now) as (_ & _ & _ & _ & _ & _ & Ek & Eo & Eh).
  rewrite Eh. destruct (decide (t' = t)) as [->|Hne].
  - rewrite Ek. by apply history_ok_rotate.
  - rewrite Eo by done. by apply history_ok_rotate_other.
Qed.

(** The age check sees a rotated key as new, and the other key as before. *)
Lemma rotated_key_created_at n t k now t' :
  key_history_ok n →
  current_key_created_at (rotated_key n t k now) t' =
  if decide (t' = t) then Some now else current_key_created_at n t'.
Proof.
  intros Hok. rewrite !current_key_created_at_live by auto using rotated_key_history_ok.
  destruct (rotated_key_fields n t k now) as (_ & _ & _ & _ & _ & _ & _ & _ & ->).
  unfold rotate_history. rewrite live_app. case_decide as Ht.
  - subst. rewrite live_revoke_same by done. unfold live. by rewrite filter_cons_True.
  - rewrite live_revoke_other by done. unfold live at 2.
    rewrite filter_cons_False by naive_solver. by rewrite filter_nil, app_nil_r.
Qed.

Section Rotation.
Context `{IpNetLaws} `{Crates} `{HashOrder}.
Context (app : AppState).

(** A request for which no key stays the same. *)
Definition changes_keys (n : NodeState) (req : KeyRotationRequest) : Prop :=
  krq_machine_public_key req ≠ Some (nd_machine_public_key n) ∧
  krq_wg_public_key req ≠ Some (nd_wg_public_key n).

Lemma rotate_keys_node_run headers req now w n :
  require_node headers (app_admin_token app) n = Ok tt → changes_keys n req →
  rotate_keys_node app headers req now w n =
    (Ok tt, w, (rotated n req now : NodeState) <| nd_revoked_at := (None : option Z) |>).
Proof.
  intros Hauth [Hm Hw]. unfold rotate_keys_node, rotated, mbind, M_bind, get. rewrite Hauth. simpl.
  rewrite rotate_key_run. destruct (krq_machine_public_key req) as [m|].
  - rewrite bool_decide_eq_false_2 by (simpl; congruence). rewrite rotate_key_run.
    destruct (krq_wg_public_key req) as [k|]; [|done].
    by rewrite bool_decide_eq_false_2 by (simpl; congruence).
  - rewrite rotate_key_run. destruct (krq_wg_public_key req) as [k|]; [|done].
    by rewrite bool_decide_eq_false_2 by (simpl; congruence).
Qed.

(** An authorised rotation to new keys always succeeds: the stored node is the old
    one with the requested keys, their old records retired and new records added,
    and with its revocation cleared; the response carries that node. *)
Theorem rotate_keys_success headers k req now w s n :
  st_nodes s !! k = Some n → require_node headers (app_admin_token app) n = Ok tt →
  changes_keys n req →
  let n' := (rotated n req now : NodeState) <| nd_revoked_at := (None : option Z) |> in
  ∃ w' s', rotate_keys_tx app headers k req now w s = (Ok n', w', s') ∧
    st_nodes s' = <[k := n']> (st_nodes s) ∧ st_networks s' = st_networks s ∧
    st_tokens s' = st_tokens s.
Proof.
  intros Hn Hauth Hch n'. unfold rotate_keys_tx, mbind, M_bind, with_node. rewrite Hn.
  rewrite (rotate_keys_node_run headers req now w n Hauth Hch). fold n'.
  unfold get, ok_or, put_node. simpl. rewrite lookup_insert_eq. simpl.
  match goal with |- context [audit ?a ?b ?c ?d ?w ?s] =>
    destruct (audit_state (E := ApiError) a b c d w s) as (entry & w' & -> & _) end.
  exists w'. eexists. done.
Qed.

Lemma rotated_both n req m wg now :
  krq_machine_public_key req = Some m → krq_wg_public_key req = Some wg →
  key_history_ok n → ∀ t, current_key_created_at (rotated n req now) t = Some now.
Proof.
  intros Em Ew Hok t. unfold rotated. rewrite Em, Ew.
  rewrite rotated_key_created_at by by apply rotated_key_history_ok.
  rewrite rotated_key_created_at by done. by destruct t.
Qed.

(** After both keys of an approved node were rotated, the node is approved and
    needs no rotation, whatever the policy's maximum age (as long as it fits an
    i64): rotating is always enough to satisfy the policy. *)
Theorem rotation_satisfies_policy n req m wg now policy :
  krq_machine_public_key req = Some m → krq_wg_public_key req = Some wg →
  key_history_ok n → 0 ≤ now ≤ i64_max → nd_approved n = true →
  (∀ max_age, max_age_seconds policy = Some max_age → 0 ≤ max_age ≤ i64_max) →
  effective_node_status
    ((rotated n req now : NodeState) <| nd_revoked_at := (None : option Z) |>) policy now
  = (true, false).
Proof.
  intros Em Ew Hok Hnow Ha Hpol.
  match goal with |- effective_node_status ?x _ _ = _ => set (n' := x) end.
  assert (∀ t, current_key_created_at n' t = Some now) as Hc.
  { intros t. rewrite <- (rotated_both n req m wg now Em Ew Hok t). by destruct t. }
  assert (nd_approved n' = true) as Ha'.
  { unfold n', rotated. simpl. rewrite Em, Ew. done. }
  unfold effective_node_status. rewrite !Hc, Ha'. simpl.
  destruct (max_age_seconds policy) as [a|] eqn:Ep; [|done]. specialize (Hpol a eq_refl).
  unfold i64_max in *.
  rewrite as_i64_id, i64_saturating_sub_id by (unfold in_i64, i64_min, i64_max; lia).
  rewrite (proj2 (Z.ltb_ge a (now - now))) by lia. done.
Qed.

(** Revoking a node retires the records of both its current keys; a node that then
    rotates only its machine key is live again, and its WireGuard key, which stays
    in use, has no live record: its age is never checked again, at any time and
    under any policy. *)
Theorem revoked_key_escapes_policy n m now now' :
  key_history_ok n →
  let n' := rotated (revoke_fields n now) (mkKeyRotationRequest (Some m) None) now' in
  nd_wg_public_key n' = nd_wg_public_key n ∧
  current_key_created_at n' Machine = Some now' ∧
  current_key_created_at n' WireGuard = None.
Proof.
  intros Hok n'.
  assert (key_history_ok (revoke_fields n now)) as Hok1.
  { intros t. unfold revoke_fields. simpl. apply history_ok_revoke; [apply history_ok_revoke|];
      [exact (Hok t)|by destruct t..]. }
  unfold n', rotated. simpl. rewrite !rotated_key_created_at by done. simpl.
  split; [done|]. split; [done|].
  rewrite current_key_created_at_live by done. unfold revoke_fields. simpl.
  rewrite live_revoke_same; [done|]. apply history_ok_revoke; [exact (Hok WireGuard)|done].
Qed.

(** A rotation of both keys in which the WireGuard key is the current one is
    answered with 400, but the machine key has been replaced by then: on a file
    store the node is left with the new machine key (and, if it was revoked, still
    revoked). *)
Theorem half_rotation_kept headers k req m now w s n :
  st_nodes s !! k = Some n → require_node headers (app_admin_token app) n = Ok tt →
  krq_machine_public_key req = Some m → m ≠ nd_machine_public_key n →
  krq_wg_public_key req = Some (nd_wg_public_key n) →
  rotate_keys_tx app headers k req now w s =
    (Err (BadRequest "wg_public_key unchanged"), w,
     put_node k (rotated_key n Machine m now) s).
Proof.
  intros Hn Hauth Em Hne Ew. unfold rotate_keys_tx, mbind, M_bind, with_node. rewrite Hn.
  unfold rotate_keys_node, mbind, M_bind, get. rewrite Hauth. simpl.
  rewrite rotate_key_run, Em, bool_decide_eq_false_2 by (simpl; congruence).
  rewrite rotate_key_run, Ew, bool_decide_eq_true_2 by done. done.
Qed.
End Rotation.

(** ** Rotation revives revoked nodes *)
Section Revival.
Context `{IpNetLaws} `{Crates} `{HashOrder} `{SerdeLaws}.
Context (app : AppState).

Lemma rotated_fields n req now :
  let n' := rotated n req now in
  nd_id n' = nd_id n ∧ nd_approved n' = nd_approved n ∧ nd_name n' = nd_name n ∧
  nd_network_id n' = nd_network_id n ∧ nd_node_token n' = nd_node_token n.
Proof. unfold rotated. by destruct (krq_machine_public_key req), (krq_wg_public_key req). Qed.

(** The request, up to I/O failures *)
Lemma rotate_served headers k req w st res w' st' s n :
  view st = Some s → st_nodes s !! k = Some n →
  require_node headers (app_admin_token app) n = Ok tt → changes_keys n req →
  krq_machine_public_key req ≠ None ∨ krq_wg_public_key req ≠ None →
  serve app (PostRotateKeys headers k req) w st = (res, w', st') →
  res = Err Internal ∨
  res = Ok tt ∧ ∃ now s', view st' = Some s' ∧
    st_nodes s' = <[k := (rotated n req now : NodeState) <| nd_revoked_at := (None : option Z) |>]>
                    (st_nodes s).
Proof.
  intros Hv Hn Hauth Hch Hsome. unfold serve, status, rotate_keys, fail_if.
  assert (is_none (krq_machine_public_key req) && is_none (krq_wg_public_key req) = false) as ->
    by (by destruct (krq_machine_public_key req), (krq_wg_public_key req), Hsome).
  unfold store_call, mbind, M_bind, now. simpl. set (t := w_clock w (w_ticks w)).
  destruct (write _ _ st) as [[r w1] st1] eqn:Hw. apply write_simulates in Hw.
  assert (∀ w0 r w1 s', rotate_keys_tx app headers k req t w0 s = (r, w1, s') →
    (∃ a, r = Ok a) ∧ st_nodes s' =
      <[k := (rotated n req t : NodeState) <| nd_revoked_at := (None : option Z) |>]> (st_nodes s))
    as Hrun.
  { intros w0 r0 w2 s' Hr.
    destruct (rotate_keys_success app headers k req t w0 s n Hn Hauth Hch) as (w3 & s3 & E & Hs3 & _).
    rewrite E in Hr. injection Hr as <- _ <-. eauto. }
  rewrite Hv in Hw. destruct r as [a|[e|]]; simpl; intros [= <- _ <-]; [right|exfalso|by left].
  - split; [done|]. inversion Hw as [? ? ? ? s' Hr Es Er Ev| | | |]; subst.
    exists t, (bump_revision s'). split; [done|]. exact (proj2 (Hrun _ _ _ _ Hr)).
  - inversion Hw as [|? ? ? ? ? _ Hr|? ? ? ? ? _ Hr| |]; subst;
      by destruct (Hrun _ _ _ _ Hr) as [[? ?] _].
Qed.

(** C36. Whoever holds the credentials of a revoked node can undo the revocation: on any
    server with a sound state, a rotation of one of its keys is answered with success
    unless I/O fails, and afterwards the node is there under its name, no longer revoked,
    and approved if it was.  Names are not looked at: when a live node of the network has
    taken the name meanwhile, the names are not unique any more. *)
Theorem rotation_revives_revoked_node headers k req w st res w' st' s n revoked_at :
  view st = Some s → inv s → st_nodes s !! k = Some n → nd_revoked_at n = Some revoked_at →
  require_node headers (app_admin_token app) n = Ok tt → changes_keys n req →
  krq_machine_public_key req ≠ None ∨ krq_wg_public_key req ≠ None →
  serve app (PostRotateKeys headers k req) w st = (res, w', st') →
  io_failed w w' ∨
  res = Ok tt ∧ ∃ s' n', view st' = Some s' ∧ st_nodes s' = <[k := n']> (st_nodes s) ∧
    nd_revoked_at n' = None ∧ nd_approved n' = nd_approved n ∧ nd_name n' = nd_name n ∧
    nd_network_id n' = nd_network_id n ∧
    (∀ j m, j ≠ k → st_nodes s !! j = Some m → nd_revoked_at m = None →
       nd_network_id m = nd_network_id n →
       to_ascii_lowercase (nd_name m) = to_ascii_lowercase (nd_name n) → ¬ names_unique s').
Proof.
  intros Hv Hi Hn _ Hauth Hch Hsome Hs.
  destruct (rotate_served headers k req w st res w' st' s n Hv Hn Hauth Hch Hsome Hs)
    as [->|(-> & now & s' & Hv' & Hnodes)].
  - left. pose proof (serve_honest app (PostRotateKeys headers k req) w st) as Hh. rewrite Hs in Hh.
    destruct Hh as (_ & He & _); [by exists s|]. by apply (He Internal).
  - right. split; [done|]. destruct (rotated_fields n req now) as (_ & Ha & Hname & Hnet & _).
    exists s', ((rotated n req now : NodeState) <| nd_revoked_at := (None : option Z) |>).
    do 6 (split; [done|]). intros j m Hne Hm Hlive Hmnet Hsame Huniq.
    refine (Huniq j k m _ _ _ Hne _ Hlive _ _); [|by rewrite Hnodes, lookup_insert_eq|..];
      [by rewrite Hnodes, lookup_insert_ne|simpl; congruence|done|simpl; congruence].
Qed.
End Revival.

(** ** Concrete instances *)

Definition alice : NodeState := node_of demo_state alice_id.

Lemma alice_history_ok : key_history_ok alice.
Proof. apply (inv_keys _ _ _ demo_inv alice_id alice demo_alice). Qed.
Lemma alice_times : times_ok alice 5000.
Proof.
  split; [unfold i64_max; lia|].
  assert (forallb (λ r, (0 <=? kr_created_at r) && (kr_created_at r <=? i64_max))
            (nd_key_history alice) = true) as Hall by (vm_compute; reflexivity).
  rewrite forallb_forall in Hall. intros r Hr%list_elem_of_In. specialize (Hall r Hr).
  bool_props. lia.
Qed.
Lemma alice_auth : require_node admin_headers (app_admin_token demo_app) alice = Ok tt.
Proof. vm_compute. reflexivity. Qed.

Definition both_keys : KeyRotationRequest := mkKeyRotationRequest (Some "m5") (Some "w5").

Lemma alice_changes : changes_keys alice both_keys.
Proof. split; vm_compute; discriminate. Qed.

Lemma node_status_spec_witness :
  effective_node_status alice (mkKeyRotationPolicy (Some 100)) 5000 = (false, true) ∧
  rotation_due alice (mkKeyRotationPolicy (Some 100)) 5000.
Proof.
  assert (effective_node_status alice (mkKeyRotationPolicy (Some 100)) 5000 = (false, true)) as E
    by (vm_compute; reflexivity).
  split; [exact E|].
  assert (∀ m, max_age_seconds (mkKeyRotationPolicy (Some 100)) = Some m → 0 ≤ m ≤ u64_max) as Hm.
  { intros m [= <-]. unfold u64_max. lia. }
  pose proof (node_status_spec alice (mkKeyRotationPolicy (Some 100)) 5000 alice_history_ok
    alice_times Hm) as Hs.
  rewrite E in Hs. apply (proj1 (proj1 Hs)). reflexivity.
Defined.

Lemma huge_max_age_locks_out_witness :
  effective_node_status alice (mkKeyRotationPolicy (Some (2 ^ 63))) 5000 = (false, true).
Proof.
  apply (huge_max_age_locks_out alice (2 ^ 63) 5000 Machine 1003).
  - lia.
  - vm_compute. reflexivity.
  - lia.
Defined.

Lemma rotate_keys_success_witness :
  ∃ n' w' s', rotate_keys_tx demo_app admin_headers alice_id both_keys 5000 demo_world demo_state
              = (Ok n', w', s').
Proof.
  destruct (rotate_keys_success demo_app admin_headers alice_id both_keys 5000 demo_world
              demo_state alice demo_alice alice_auth alice_changes) as (w' & s' & E & _).
  eauto.
Defined.

Lemma rotation_satisfies_policy_witness :
  effective_node_status
    ((rotated alice both_keys 5000 : NodeState) <| nd_revoked_at := (None : option Z) |>)
    (mkKeyRotationPolicy (Some 100)) 5000 = (true, false).
Proof.
  apply (rotation_satisfies_policy alice both_keys "m5" "w5" 5000
           (mkKeyRotationPolicy (Some 100)) eq_refl eq_refl alice_history_ok).
  - unfold i64_max. lia.
  - vm_compute. reflexivity.
  - intros a Ha. injection Ha as <-. unfold i64_max. lia.
Defined.

Lemma revoked_key_escapes_policy_witness :
  current_key_created_at
    (rotated (revoke_fields alice 4000) (mkKeyRotationRequest (Some "m5") None) 5000) WireGuard
  = None.
Proof.
  apply (revoked_key_escapes_policy alice "m5" 4000 5000 alice_history_ok).
Defined.

Definition half_request : KeyRotationRequest := mkKeyRotationRequest (Some "m5") (Some "w1").

Lemma half_rotation_kept_witness :
  (rotate_keys_tx demo_app admin_headers alice_id half_request 5000 demo_world demo_state).2 =
  put_node alice_id (rotated_key alice Machine "m5" 5000) demo_state.
Proof.
  rewrite (half_rotation_kept demo_app admin_headers alice_id half_request "m5" 5000 demo_world
             demo_state alice demo_alice alice_auth eq_refl).
  - reflexivity.
  - vm_compute. discriminate.
  - vm_compute. reflexivity.
Defined.

(** Alice is revoked, and her name is taken by a new node; then the revoked device rotates
    its keys with its old node token. *)
Definition alice_headers : HeaderMap := λ h,
  if bool_decide (h = "authorization")
  then Some ("Bearer " +:+ b64url_encode (replicate 32 (byte_of 2))) else None.
Definition replaced_requests : list Request :=
  [PostNetworks admin_headers demo_network;
   PostRegister (demo_register "alice" "m1" "w1");
   PostNodeRevoke admin_headers alice_id;
   PostRegister (demo_register "alice" "m2" "w2")].
Definition replaced_store : StateStore := (run demo_app replaced_requests demo_world empty_store).2.
Definition replaced_state : State := view_or_default replaced_store.
Definition new_key : KeyRotationRequest := mkKeyRotationRequest (Some "m3") None.

Lemma replaced_inv : inv replaced_state.
Proof.
  apply (reachable_state_inv demo_app replaced_store); [|vm_compute; reflexivity].
  apply reachable_run; [by apply reach_init|]. repeat constructor.
  simpl. intros u [= <-]. lia.
Qed.

(** The other node of the name *)
Definition other_id : string := uuid_to_string (replicate 16 (byte_of 6)).

Lemma rotation_revives_revoked_node_witness :
  ∃ s', view (serve demo_app (PostRotateKeys alice_headers alice_id new_key) demo_world
                replaced_store).2 = Some s' ∧ ¬ names_unique s'.
Proof.
  set (o := serve demo_app (PostRotateKeys alice_headers alice_id new_key) demo_world replaced_store).
  destruct (rotation_revives_revoked_node demo_app alice_headers alice_id new_key demo_world
    replaced_store o.1.1 o.1.2 o.2 replaced_state (node_of replaced_state alice_id)
    (default 0 (nd_revoked_at (node_of replaced_state alice_id))))
    as [(i & _ & Hio)|(_ & s' & n' & Hv & _ & _ & _ & _ & _ & Hclash)].
  - vm_compute. reflexivity.
  - exact replaced_inv.
  - vm_compute. reflexivity.
  - vm_compute. reflexivity.
  - vm_compute. reflexivity.
  - split; vm_compute; discriminate.
  - left. discriminate.
  - unfold o. apply run_eta.
  - destruct (Hio eq_refl).
  - exists s'. split; [exact Hv|].
    apply (Hclash other_id (node_of replaced_state other_id)); vm_compute; [discriminate|reflexivity..].
Defined.
