(* ===== verification/Visibility.v ===== *)
(** * What a node gets to see

    The access-control decision refines a first-match specification, the peers of a
    netmap are exactly the nodes the policy lets a node see, and the long poll
    answers within its deadline. *)

From S2P Require Import Prelude Effects RustStd StdNet Externals Model Store SampleStore Ipam.
From S2P Require Import Keys Acl Auth Netmap Netid ApiHelpers Api Invariant Safety Server.
From S2P Require Import Scenario Reachability.

(** C16. The rule loop implements the policy's meaning: traffic is allowed exactly when
    the first rule whose selectors match both nodes says so, or no rule matches and the
    default action allows. *)
Theorem acl_allows_iff_decides policy src dst :
  acl_allows policy src dst = true ↔ decides policy src dst Allow.
Proof.
  destruct policy as [d rules]. unfold acl_allows. simpl.
  destruct (acl_rules_allow_decides d rules src dst) as (a & Hd & ->).
  split.
  - intros Ha. destruct a; [done|discriminate].
  - intros Ha. by rewrite (decides_functional _ _ _ _ _ Hd Ha).
Qed.

Section Netmap.
Context `{HashOrder}.

(** A node that is approved, not revoked and within the key policy. *)
Definition active (n : NetworkState) (node : NodeState) (now : Z) : Prop :=
  (effective_node_status node (nw_key_policy n) now).1 = true.

Lemma active_live n node now :
  active n node now → nd_approved node = true ∧ nd_revoked_at node = None.
Proof.
  unfold active, effective_node_status. simpl.
  destruct (nd_approved node), (nd_revoked_at node); done.
Qed.

(** C15. The peers in a netmap are exactly the other nodes of the node's network that
    are active when the netmap is built and that the network's policy lets the node
    talk to; an inactive node has no peers. *)
Theorem netmap_peers_spec node_id relay w s nm w' s' p :
  build_netmap node_id relay w s = (Ok nm, w', s') →
  ∃ node n now, st_nodes s !! node_id = Some node ∧
    st_networks s !! nd_network_id node = Some n ∧ now = w_clock w (w_ticks w) ∧
    (p ∈ nm_peers nm ↔
     active n node now ∧
     ∃ k dst, st_nodes s !! k = Some dst ∧ p = PeerInfo_from dst (nw_dns_domain n) ∧
       nd_id dst ≠ node_id ∧ nd_network_id dst = nw_id n ∧ active n dst now ∧
       decides (nw_acl n) node dst Allow).
Proof.
  intros Hb. apply build_netmap_inv in Hb
    as (node & n & now & Hn & Hw & Hnow & _ & _ & _ & Hp & _).
  exists node, n, now. split; [done|]. split; [done|]. split; [done|].
  assert (∀ dst, decides (nw_acl n) node dst Allow ↔ acl_allows (nw_acl n) node dst = true) as Hacl.
  { intros dst. destruct (nw_acl n) as [d rules]. unfold acl_allows. simpl.
    destruct (acl_rules_allow_decides d rules node dst) as (a & Hd & ->). split.
    - intros Ha. by rewrite (decides_functional _ _ _ _ _ Hd Ha).
    - intros Ha. destruct a; [done|discriminate]. }
  setoid_rewrite Hacl. unfold active. rewrite Hp.
  destruct (effective_node_status node (nw_key_policy n) now).1; [|set_solver].
  rewrite elem_of_collect_peers. naive_solver.
Qed.

(** A node that is not approved, is revoked, or whose keys are too old gets a netmap
    without peers and without probe requests. *)
Theorem netmap_inactive_empty node_id relay w s nm w' s' node n :
  build_netmap node_id relay w s = (Ok nm, w', s') →
  st_nodes s !! node_id = Some node → st_networks s !! nd_network_id node = Some n →
  ¬ active n node (w_clock w (w_ticks w)) →
  nm_peers nm = [] ∧ nm_probe_requests nm = [] ∧ no_approved (nm_node nm) = false.
Proof.
  intros Hb Hn Hw Ha. apply build_netmap_inv in Hb
    as (node' & n' & now & Hn' & Hw' & -> & _ & _ & Hst & Hp & Hpr & _).
  rewrite Hn in Hn'. injection Hn' as <-. rewrite Hw in Hw'. injection Hw' as <-.
  unfold active in Ha. apply not_true_is_false in Ha. rewrite Ha in Hst, Hp.
  rewrite Hpr, Hp. done.
Qed.

(** The probe requests in a netmap name exactly the peers of the netmap that asked
    to be probed in the last 30 seconds. *)
Theorem netmap_probes_spec node_id relay w s nm w' s' r :
  build_netmap node_id relay w s = (Ok nm, w', s') →
  r ∈ nm_probe_requests nm ↔
  ∃ peer node at_, peer ∈ nm_peers nm ∧ st_nodes s !! pi_id peer = Some node ∧
    nd_probe_requested_at node = Some at_ ∧
    i64_saturating_sub (w_clock w (w_ticks w)) at_ ≤ 30 ∧
    r = mkProbeRequest (pi_id peer) (pi_endpoints peer) (pi_ipv4 peer) (pi_ipv6 peer) at_.
Proof.
  intros Hb. apply build_netmap_inv in Hb
    as (node' & n' & now & _ & _ & -> & _ & _ & _ & _ & -> & _).
  unfold collect_probe_requests. rewrite list_elem_of_omap. split.
  - intros (peer & Hp & Hr). destruct (st_nodes s !! pi_id peer) as [node|] eqn:En; [|done].
    simpl in Hr. destruct (nd_probe_requested_at node) as [a|] eqn:Ea; [|done]. simpl in Hr.
    destruct (_ <? _) eqn:El; [done|]. injection Hr as <-. bool_props.
    unfold PROBE_TTL_SECONDS in *. exists peer, node, a. naive_solver lia.
  - intros (peer & node & a & Hp & En & Ea & Hle & ->). exists peer. split; [done|].
    rewrite En. simpl. rewrite Ea. simpl. unfold PROBE_TTL_SECONDS.
    by rewrite (proj2 (Z.ltb_ge 30 _)).
Qed.
End Netmap.

(** A long poll always answers, after at most 601 polls, since the timeout is capped
    at 300 seconds and the loop sleeps half a second between polls: with the error of
    the first poll that failed, or with the netmap of the first poll that saw a newer
    revision or came after the deadline. *)
Theorem longpoll_answers params start polls instants :
  start ≤ instants 0%nat → (∀ k, instants k + 500 ≤ instants (S k)) →
  ∃ res j, netmap_longpoll params 601 start polls instants = Some res ∧
    (∀ k, (k < j)%nat → ∃ rv nm, polls k = Ok (rv, nm) ∧ rv ≤ unwrap_or (lp_since params) 0) ∧
    match res with
    | Err e => polls j = Err e
    | Ok nm => ∃ rv, polls j = Ok (rv, nm) ∧
        (unwrap_or (lp_since params) 0 < rv ∨
         start + Z.min (unwrap_or (lp_timeout_seconds params) 30) 300 * 1000 ≤ instants j)
    end.
Proof.
  intros Hs Hstep. unfold netmap_longpoll.
  set (since := unwrap_or (lp_since params) 0).
  set (deadline := start + _).
  destruct (longpoll_loop_total 600 since deadline polls instants 0 Hstep) as [res Hres].
  { unfold deadline. lia. }
  exists res. destruct (longpoll_loop_inv _ _ _ _ _ _ _ Hres) as (j & _ & Hbefore & Hj).
  exists j. split; [done|]. split; [|done].
  intros k Hk. destruct (Hbefore k ltac:(lia)) as (rv & nm & ? & ? & _). eauto.
Qed.

(** ** Concrete instances *)

Definition alice_run := build_netmap alice_id None demo_world demo_state.
Definition alice_netmap : NetMap :=
  match alice_run.1.1 with Ok nm => nm | Err _ => mkNetMap
    (mkNetworkInfo "" "" "" "" "" false None)
    (mkNodeInfo "" "" "" "" "" "" "" [] [] None None false [] 0 false false false) [] None [] 0 0
  end.

Lemma alice_run_ok : build_netmap alice_id None demo_world demo_state
  = (Ok alice_netmap, alice_run.1.2, alice_run.2).
Proof.
  assert (alice_run.1.1 = Ok alice_netmap) as E by (vm_compute; reflexivity).
  rewrite <- E. apply run_eta.
Qed.

Lemma netmap_peers_spec_witness :
  nm_peers alice_netmap ≠ [] ∧ ∃ node, st_nodes demo_state !! alice_id = Some node.
Proof.
  split; [vm_compute; discriminate|].
  destruct (netmap_peers_spec alice_id None demo_world demo_state alice_netmap alice_run.1.2
    alice_run.2 (PeerInfo_from (node_of demo_state bob_id) "x") alice_run_ok)
    as (node & n & now & Hn & _).
  exists node. exact Hn.
Defined.

(** The scenario after alice was revoked. *)
Definition revoked_state : State :=
  put_node alice_id (revoke_fields (node_of demo_state alice_id) 2000) demo_state.
Definition revoked_run := build_netmap alice_id None demo_world revoked_state.
Definition network_of (s : State) (k : string) : NetworkState :=
  default (mkNetworkState "" "" "" "" "" false AclPolicy_default (mkKeyRotationPolicy None) 0 0 0)
    (st_networks s !! k).
Definition office : NetworkState :=
  network_of demo_state (nd_network_id (node_of demo_state alice_id)).

Lemma netmap_inactive_empty_witness :
  ∃ nm, revoked_run.1.1 = Ok nm ∧ nm_peers nm = [].
Proof.
  destruct revoked_run.1.1 as [nm|e] eqn:E; [|vm_compute in E; discriminate].
  exists nm. split; [reflexivity|].
  apply (netmap_inactive_empty alice_id None demo_world revoked_state nm revoked_run.1.2
    revoked_run.2 (revoke_fields (node_of demo_state alice_id) 2000) office).
  - rewrite <- E. apply run_eta.
  - vm_compute. reflexivity.
  - vm_compute. reflexivity.
  - vm_compute. discriminate.
Defined.

(** The scenario after bob asked for a probe, ten seconds before the netmap is built. *)
Definition probing_state : State :=
  put_node bob_id
    ((node_of demo_state bob_id : NodeState) <| nd_probe_requested_at := Some 990 |>) demo_state.
Definition probing_run := build_netmap alice_id None demo_world probing_state.

Lemma netmap_probes_spec_witness :
  ∃ nm r, probing_run.1.1 = Ok nm ∧ head (nm_probe_requests nm) = Some r ∧
    ∃ peer, peer ∈ nm_peers nm ∧ pr_peer_id r = pi_id peer.
Proof.
  assert (match probing_run.1.1 with
          | Ok nm => length (nm_probe_requests nm) | Err _ => 0%nat end = 1%nat) as Hlen
    by (vm_compute; reflexivity).
  destruct probing_run.1.1 as [nm|e] eqn:E; [|discriminate].
  destruct (nm_probe_requests nm) as [|r l] eqn:Er; [discriminate|].
  exists nm, r. split; [reflexivity|]. rewrite Er. split; [reflexivity|].
  assert (r ∈ nm_probe_requests nm) as Hr by (rewrite Er; left).
  assert (build_netmap alice_id None demo_world probing_state
          = (Ok nm, probing_run.1.2, probing_run.2)) as Hrun by (rewrite <- E; apply run_eta).
  destruct (proj1 (netmap_probes_spec alice_id None demo_world probing_state nm probing_run.1.2
    probing_run.2 r Hrun) Hr) as (peer & node & at_ & Hp & _ & _ & _ & Heq).
  exists peer. split; [exact Hp|]. rewrite Heq. reflexivity.
Defined.

Lemma longpoll_answers_witness :
  ∃ res j, netmap_longpoll (mkNetmapLongpollParams (Some 7) (Some 1)) 601 0
             (λ i, if (i <? 2)%nat then Ok (7, alice_netmap) else Err (NotFound "node"))
             (λ i, 500 * Z.of_nat i) = Some res ∧
    (∀ k, (k < j)%nat → ∃ rv nm,
       (if (k <? 2)%nat then Ok (7, alice_netmap) else Err (NotFound "node")) = Ok (rv, nm) ∧
       rv ≤ 7).
Proof.
  destruct (longpoll_answers (mkNetmapLongpollParams (Some 7) (Some 1)) 0
    (λ i, if (i <? 2)%nat then Ok (7, alice_netmap) else Err (NotFound "node"))
    (λ i, 500 * Z.of_nat i)) as (res & j & Hr & Hb & _).
  - lia.
  - intros k. lia.
  - exists res, j. split; [exact Hr|exact Hb].
Defined.
