(* ===== verification/Addressing.v ===== *)
(** * Addresses end to end

    How many nodes a network can hold and which addresses they get, when two overlay
    blocks conflict, that printed addresses read back, and where default prefixes
    lie. *)

From S2P Require Import Prelude Effects RustStd StdNet Externals Model Store Ipam Netid.
From S2P Require Import SampleStore Keys Acl Auth Netmap ApiHelpers Api Server Scenario.

Section Capacity.
Context `{IpNetLaws}.

(** [k] allocations in a row on one network. *)
Fixpoint alloc_times (k : nat) (w : World) (n : NetworkState)
    : list (result (string * string) ApiError) * NetworkState :=
  match k with
  | O => ([], n)
  | S k => match allocate_node_ips w n with
           | (r, w, n) => let '(l, n) := alloc_times k w n in (r :: l, n)
           end
  end.

(** The number of nodes a network still has room for. *)
Definition room (n : NetworkState) (v4 : Ipv4Net) (v6 : Ipv6Net) : Z :=
  Z.min (2 ^ (32 - ipv4net_prefix_len v4) - 1 - nw_next_ipv4 n)
        (2 ^ (128 - ipv6net_prefix_len v6) - nw_next_ipv6 n).

(** The addresses of the [i]-th node from now. *)
Definition nth_address (n : NetworkState) (v4 : Ipv4Net) (v6 : Ipv6Net) (i : nat)
    : string * string :=
  (ipv4_to_string (ipv4net_network v4 + (nw_next_ipv4 n + Z.of_nat i)),
   ipv6_to_string (ipv6net_network v6 + (nw_next_ipv6 n + Z.of_nat i))).

Definition advance (n : NetworkState) (k : nat) : NetworkState :=
  let n := (n : NetworkState) <| nw_next_ipv4 := nw_next_ipv4 n + Z.of_nat k |> in
  (n : NetworkState) <| nw_next_ipv6 := nw_next_ipv6 n + Z.of_nat k |>.

Lemma allocate_advance n v4 v6 w :
  alloc_ok n v4 v6 → 1 ≤ room n v4 v6 →
  allocate_node_ips w n = (Ok (nth_address n v4 v6 0), w, advance n 1) ∧
  alloc_ok (advance n 1) v4 v6.
Proof.
  intros Hok Hroom. unfold room in Hroom.
  rewrite (allocate_node_ips_spec n v4 v6 w Hok).
  rewrite (proj2 (Z.ltb_ge _ _)) by lia. cbv zeta. rewrite (proj2 (Z.ltb_ge _ _)) by lia.
  split; [unfold nth_address, advance; by rewrite !Z.add_0_r|].
  destruct Hok as [H4 H6 Hu Hn4 Hn6 Hlag]. split; simpl; done || lia.
Qed.

Lemma alloc_times_ok k n v4 v6 w :
  alloc_ok n v4 v6 → Z.of_nat k ≤ room n v4 v6 →
  alloc_times k w n = ((λ i, Ok (nth_address n v4 v6 i)) <$> seq 0 k, advance n k) ∧
  alloc_ok (advance n k) v4 v6.
Proof.
  revert n w. induction k as [|k IH]; intros n w Hok Hk.
  - split; [simpl; destruct n; unfold advance; simpl; by rewrite !Z.add_0_r|].
    destruct Hok. split; simpl; done || lia.
  - destruct (allocate_advance n v4 v6 w Hok ltac:(lia)) as [Ha Hok1].
    cbn [alloc_times]. rewrite Ha.
    destruct (IH (advance n 1) w Hok1) as [Hrest Hok2]; [unfold room in *; simpl; lia|].
    assert (advance (advance n 1) k = advance n (S k)) as Eadv.
    { unfold advance. simpl. f_equal; lia. }
    rewrite Eadv in Hrest, Hok2. rewrite Hrest. split; [|done]. f_equal.
    cbn [seq]. rewrite fmap_cons. f_equal. rewrite <- fmap_S_seq, <- list_fmap_compose.
    apply list_fmap_ext. intros i x _. unfold compose, nth_address. simpl. do 3 f_equal; lia.
Qed.

(** C21. A network hands out exactly as many addresses as its blocks have: the first
    [room] allocations succeed with consecutive addresses of both blocks, all
    different from each other, and the next one is refused with a conflict. *)
Theorem allocator_capacity n v4 v6 w k :
  alloc_ok n v4 v6 → Z.of_nat k = room n v4 v6 →
  (alloc_times k w n).1 = (λ i, Ok (nth_address n v4 v6 i)) <$> seq 0 k ∧
  (∀ i j, (i < k)%nat → (j < k)%nat → nth_address n v4 v6 i = nth_address n v4 v6 j → i = j) ∧
  ∃ msg w' n', allocate_node_ips w (alloc_times k w n).2 = (Err (Conflict msg), w', n').
Proof.
  intros Hok Hk. destruct (alloc_times_ok k n v4 v6 w Hok ltac:(lia)) as [E Hok'].
  rewrite E. split; [done|]. split.
  - intros i j Hi Hj [= E4 _]. unfold room in Hk.
    pose proof (ipv4_block_fits v4). pose proof (ipv4net_network_range v4) as Hr.
    destruct Hok. apply ipv4_to_string_inj in E4; unfold in_ipv4 in *; lia.
  - cbn [snd]. rewrite (allocate_node_ips_spec _ v4 v6 w Hok'). unfold room in Hk.
    cbn [advance nw_next_ipv4 nw_next_ipv6].
    destruct (Z.ltb_spec (2 ^ (32 - ipv4net_prefix_len v4) - 2) (nw_next_ipv4 n + Z.of_nat k));
      [eauto|]. cbv zeta.
    rewrite (proj2 (Z.ltb_lt _ _)) by lia. eauto.
Qed.

(** Two overlay blocks are reported as overlapping exactly when some address lies
    in both, for IPv4 and for IPv6. *)
Theorem overlap_iff_shared_address :
  (∀ a b, ipv4_nets_overlap a b = true ↔
     ∃ x, in_ipv4 x ∧ ipv4net_contains a x = true ∧ ipv4net_contains b x = true) ∧
  (∀ a b, ipv6_nets_overlap a b = true ↔
     ∃ x, in_ipv6 x ∧ ipv6net_contains a x = true ∧ ipv6net_contains b x = true).
Proof. split; intros; [apply ipv4_nets_overlap_spec|apply ipv6_nets_overlap_spec]. Qed.
End Capacity.

(** Printing an IPv4 or IPv6 address as the code does and parsing the text gives the
    address back, so the address stored for a node determines it. *)
Theorem ip_text_roundtrip ip : in_ip ip → parse_ip (ip_to_string ip) = Some ip.
Proof. apply parse_print_ip. Qed.

(** The default IPv4 prefix of a network is the text of a /24 inside 100.64.0.0/10,
    whatever the hash of its identifier. *)
Theorem default_prefix_in_cgnat `{Crates} network_id :
  ∃ a, (derive_overlay_prefixes network_id).1 = str (print_ipv4 a ++ bytes "/24") ∧
    100 * 2 ^ 24 + 64 * 2 ^ 16 ≤ a < 100 * 2 ^ 24 + 128 * 2 ^ 16 ∧ a mod 2 ^ 8 = 0.
Proof.
  pose proof (overlay_index_range (blake3_hash network_id)) as Hi.
  eexists. split; [apply derive_ipv4_overlay_text|].
  split; [lia|]. rewrite Z.add_mod, Z_mod_mult by lia. done.
Qed.

(** ** Concrete instances *)

(** A /28, which has room for five nodes: offsets 10 to 14. *)
Definition tiny : NetworkState :=
  mkNetworkState "t" "tiny" "10.0.0.0/28" "fd00::/64" "tiny.lightscale" false AclPolicy_default
    (mkKeyRotationPolicy None) 0 10 10.

Lemma tiny_blocks : ∃ v4 v6,
  ipv4net_parse "10.0.0.0/28" = Some v4 ∧ ipv6net_parse "fd00::/64" = Some v6 ∧
  ipv4net_prefix_len v4 = 28 ∧ ipv6net_prefix_len v6 = 64.
Proof.
  assert (ipv4net_prefix_len <$> ipv4net_parse "10.0.0.0/28" = Some 28) as E4
    by (vm_compute; reflexivity).
  assert (ipv6net_prefix_len <$> ipv6net_parse "fd00::/64" = Some 64) as E6
    by (vm_compute; reflexivity).
  apply fmap_Some in E4 as (v4 & H4 & L4). apply fmap_Some in E6 as (v6 & H6 & L6).
  exists v4, v6. exact (conj H4 (conj H6 (conj (eq_sym L4) (eq_sym L6)))).
Qed.

Lemma allocator_capacity_witness :
  ∃ msg w' n', allocate_node_ips demo_world (alloc_times 5 demo_world tiny).2
               = (Err (Conflict msg), w', n').
Proof.
  destruct tiny_blocks as (v4 & v6 & E4 & E6 & L4 & L6).
  apply (allocator_capacity tiny v4 v6 demo_world 5).
  - split; cbn [tiny nw_overlay_v4 nw_overlay_v6 nw_next_ipv4 nw_next_ipv6];
      rewrite ?L4, ?L6; first [exact E4|exact E6|lia].
  - unfold room. rewrite L4, L6. reflexivity.
Defined.

Lemma ip_text_roundtrip_witness :
  parse_ip (ip_to_string (V6 0xfd00000000000000000000000000000a)) =
  Some (V6 0xfd00000000000000000000000000000a).
Proof. apply ip_text_roundtrip. split; vm_compute; congruence. Defined.

Lemma overlap_iff_shared_address_witness :
  ∃ a b, ipv4net_parse "10.0.0.0/8" = Some a ∧ ipv4net_parse "10.1.0.0/16" = Some b ∧
    ∃ x, in_ipv4 x ∧ ipv4net_contains a x = true ∧ ipv4net_contains b x = true.
Proof.
  assert (match ipv4net_parse "10.0.0.0/8", ipv4net_parse "10.1.0.0/16" with
          | Some a, Some b => ipv4_nets_overlap a b
          | _, _ => false
          end = true) as E by (vm_compute; reflexivity).
  destruct (ipv4net_parse "10.0.0.0/8") as [a|]; [|discriminate].
  destruct (ipv4net_parse "10.1.0.0/16") as [b|]; [|discriminate].
  exists a, b. split; [reflexivity|]. split; [reflexivity|].
  exact (proj1 (proj1 overlap_iff_shared_address a b) E).
Defined.
