(* ===== verification/Queries.v ===== *)
(** * Administration: tokens, networks, nodes and the audit log

    What the administration handlers report and change. *)

From S2P Require Import Prelude Effects RustStd StdNet Externals Model Store SampleStore Ipam.
From S2P Require Import Keys Acl Auth Netmap Netid ApiHelpers Api Invariant Safety Server.
From S2P Require Import Scenario Reachability.

#[local] Opaque audit.

Section Tokens.
Context `{Crates} `{HashOrder}.

(** Listing tokens reports every token of the network once and no other, those that
    expire last first. *)
Theorem list_tokens_spec nid w s l w' s' :
  list_tokens_rd nid w s = (Ok l, w', s') →
  StronglySorted (λ a b, et_expires_at b ≤ et_expires_at a) l ∧
  l ≡ₚ EnrollmentToken_from <$>
         filter (λ t, tk_network_id t = nid) (map_to_list (st_tokens s)).*2.
Proof.
  unfold list_tokens_rd, mbind, M_bind, get, fail_if.
  destruct (is_some (st_networks s !! nid)); [|done]. simpl. intros [= <- <- <-]. split.
  - apply (StronglySorted_reverse (by_key et_expires_at)), sort_by_key_sorted.
  - rewrite reverse_Permutation, sort_by_key_perm. unfold hm_values. by rewrite hm_iter_perm.
Qed.

(** A token whose lifetime is 2^63 seconds or more has already expired when it is
    created (the u64 is read as a negative i64), so no node can ever enroll with
    it. *)
Theorem huge_ttl_token_is_expired {S} nid ttl uses tags ou oe oa w (s : S) t w' s' :
  2 ^ 63 ≤ ttl < 2 ^ 64 → (∀ i, 0 ≤ w_clock w i ≤ i64_max) →
  build_token nid ttl uses tags ou oe oa w s = (Ok t, w', s') →
  tk_expires_at t < w_clock w (w_ticks w).
Proof.
  intros Ht Hclock. unfold build_token, random_secret, mbind, M_bind, fail_if.
  destruct (orb _ _); [done|]. cbn. intros [= <- <- <-]. cbn.
  specialize (Hclock (w_ticks w)). unfold i64_max in Hclock. set (now := w_clock w (w_ticks w)) in *.
  assert (as_i64 ttl = ttl - 2 ^ 64) as ->.
  { unfold as_i64. replace (ttl + 2 ^ 63) with (ttl - 2 ^ 63 + 1 * 2 ^ 64) by lia.
    rewrite Z_mod_plus_full, Z.mod_small by lia. lia. }
  unfold i64_add. rewrite as_i64_id; [lia|]. unfold in_i64, i64_min, i64_max. lia.
Qed.
End Tokens.

Section Networks.
Context `{IpNetLaws} `{Crates} `{HashOrder}.

(** A network is deleted exactly when it exists and has no node, revoked ones
    included; then the network and all its tokens are gone, and the other networks,
    their tokens and all nodes are untouched. *)
Theorem delete_network_spec nid w s :
  (is_Some (st_networks s !! nid) ∧ (∀ k n, st_nodes s !! k = Some n → nd_network_id n ≠ nid) →
   ∃ w' s', delete_network_tx nid w s = (Ok tt, w', s') ∧
     st_networks s' = delete nid (st_networks s) ∧ st_nodes s' = st_nodes s ∧
     ∀ k t, st_tokens s' !! k = Some t ↔ st_tokens s !! k = Some t ∧ tk_network_id t ≠ nid) ∧
  (st_networks s !! nid = None →
   delete_network_tx nid w s = (Err (NotFound "network"), w, s)) ∧
  (is_Some (st_networks s !! nid) → (∃ k n, st_nodes s !! k = Some n ∧ nd_network_id n = nid) →
   delete_network_tx nid w s =
     (Err (Conflict "network has connected nodes; revoke or delete nodes first"), w, s)).
Proof.
  assert (nd_id <$> filter (λ node, nd_network_id node = nid) (hm_values (st_nodes s)) = [] ↔
          ∀ k n, st_nodes s !! k = Some n → nd_network_id n ≠ nid) as Hnodes.
  { split.
    - intros Hnil%fmap_nil_inv k n Hk Hn.
      assert (n ∈ filter (λ node, nd_network_id node = nid) (hm_values (st_nodes s))) as Hin.
      { apply list_elem_of_filter. split; [done|]. apply elem_of_hm_values. eauto. }
      rewrite Hnil in Hin. by apply not_elem_of_nil in Hin.
    - intros Hno. destruct (filter _ _) as [|n l] eqn:E; [done|]. exfalso.
      assert (n ∈ filter (λ node, nd_network_id node = nid) (hm_values (st_nodes s))) as Hin
        by (rewrite E; left).
      apply list_elem_of_filter in Hin as [Hn [k Hk]%elem_of_hm_values]. by apply (Hno k n). }
  split; [|split].
  - intros [[n Hn] Hno]. unfold delete_network_tx. tx_simpl. rewrite Hn. simpl.
    rewrite bool_decide_eq_true_2 by (by apply Hnodes). simpl. tx_audit.
    eexists _, _. split; [done|]. split; [done|]. split; [done|].
    intros k t. simpl. by rewrite map_lookup_filter_Some.
  - intros Hn. unfold delete_network_tx. tx_simpl. rewrite Hn. done.
  - intros [n Hn] (k & nd & Hk & Hnd). unfold delete_network_tx. tx_simpl. rewrite Hn. simpl.
    rewrite bool_decide_eq_false_2; [done|]. intros Hnil. by apply (proj1 Hnodes Hnil k nd).
Qed.
End Networks.

Section Nodes.
Context `{IpNetLaws} `{Crates} `{HashOrder}.
Context (app : AppState).

(** A heartbeat of an authorised node always succeeds and records what the node
    reported: the endpoints without repeats, the observed one first, the routes, and
    the time; a probe request is stamped, and otherwise an earlier one is kept.
    Nothing else about the node or about other nodes changes. *)
Theorem heartbeat_spec headers k provided observed routes probe now w s n :
  st_nodes s !! k = Some n → require_node headers (app_admin_token app) n = Ok tt →
  let eps := merge_endpoints provided observed in
  ∃ n', heartbeat_tx app headers k eps routes probe now w s = (Ok tt, w, put_node k n' s) ∧
    nd_endpoints n' = eps ∧ NoDup eps ∧ (∀ e, e ∈ eps ↔ e ∈ provided ∨ observed = Some e) ∧
    (∀ e, observed = Some e → head eps = Some e) ∧
    nd_routes n' = routes ∧ nd_last_seen n' = now ∧
    nd_probe_requested_at n' =
      (if unwrap_or probe false then Some now else nd_probe_requested_at n) ∧
    nd_name n' = nd_name n ∧ nd_approved n' = nd_approved n ∧
    nd_revoked_at n' = nd_revoked_at n ∧ nd_key_history n' = nd_key_history n ∧
    nd_ipv4 n' = nd_ipv4 n ∧ nd_ipv6 n' = nd_ipv6 n ∧ nd_tags n' = nd_tags n.
Proof.
  intros Hn Hauth eps. unfold heartbeat_tx, mbind, M_bind, get, modify. rewrite Hn. simpl.
  rewrite Hauth. simpl. eexists. split; [done|].
  split; [by destruct (unwrap_or probe false)|]. split; [apply merge_endpoints_NoDup|].
  split; [intros e; apply merge_endpoints_spec|].
  split; [intros e He; unfold eps, merge_endpoints; by rewrite He|].
  destruct (unwrap_or probe false); repeat split.
Qed.

Lemma unique_tags_spec tags seen t :
  t ∈ unique_tags seen tags ↔ t ≠ "" ∧ (t ∉ seen) ∧ ∃ raw, raw ∈ tags ∧ t = trim raw.
Proof.
  revert seen. induction tags as [|raw tags IH]; intros seen; simpl; [set_solver|].
  unfold is_empty. case_bool_decide as Hempty.
  - rewrite IH. set_solver.
  - case_decide as Hin.
    + rewrite IH. set_solver.
    + rewrite elem_of_cons, IH. destruct (decide (t = trim raw)); set_solver.
Qed.

Lemma unique_tags_NoDup tags seen : NoDup (unique_tags seen tags).
Proof.
  revert seen. induction tags as [|raw tags IH]; intros seen; simpl; [constructor|].
  destruct (is_empty _); [done|]. case_decide; [done|]. constructor; [|done].
  rewrite unique_tags_spec. set_solver.
Qed.

(** The tags an administrator sets on a node are stored trimmed, without empty ones
    and without repeats, and no other tag is stored. *)
Lemma next_node_tags_spec existing req tags new :
  un_tags req = Some tags → next_node_tags existing req = Some new →
  NoDup new ∧ ∀ t, t ∈ new ↔ t ≠ "" ∧ ∃ raw, raw ∈ tags ∧ t = trim raw.
Proof.
  intros Ht. unfold next_node_tags. rewrite Ht. case_bool_decide; [done|]. intros [= <-].
  split; [apply unique_tags_NoDup|]. intros t. rewrite unique_tags_spec. set_solver.
Qed.
End Nodes.

(** The audit report lists, in the order they were logged, the entries that match the
    network and node asked for, all of them or the most recent [limit]. *)
Theorem audit_log_spec params w s l w' s' :
  audit_log_rd params w s = (Ok l, w', s') →
  ∃ older, List.filter (audit_matches params) (st_audit_log s) = older ++ l ∧
    match aq_limit params with
    | None => older = []
    | Some limit => (length l ≤ limit)%nat ∧ (older ≠ [] → length l = limit)
    end.
Proof.
  unfold audit_log_rd, mbind, M_bind, get. simpl. intros [= <- <- <-].
  set (m := List.filter _ _). destruct (aq_limit params) as [limit|]; [|by exists []].
  destruct (Nat.ltb_spec limit (length m)).
  - exists (take (length m - limit) m). rewrite take_drop. split; [done|].
    rewrite length_drop. lia.
  - exists []. split; [done|]. split; [lia|done].
Qed.

(** ** Concrete instances *)

Definition office_id : string := uuid_to_string (replicate 16 (byte_of 1)).

Definition tokens_run := list_tokens_rd office_id demo_world start_state.

Lemma list_tokens_spec_witness :
  ∃ l, tokens_run.1.1 = Ok l ∧ length l = 1%nat ∧
    StronglySorted (λ a b, et_expires_at b ≤ et_expires_at a) l.
Proof.
  assert (match tokens_run.1.1 with Ok l => length l | Err _ => 0%nat end = 1%nat) as Hlen
    by (vm_compute; reflexivity).
  destruct tokens_run.1.1 as [l|e] eqn:E; [|discriminate].
  exists l. split; [reflexivity|]. split; [exact Hlen|].
  apply (list_tokens_spec office_id demo_world start_state l tokens_run.1.2 tokens_run.2).
  rewrite <- E. apply run_eta.
Defined.

Lemma huge_ttl_token_is_expired_witness :
  let w := mkWorld (λ _, 1000) (λ _, []) (λ _, []) (λ _, IoOk) 0 0 0 0 in
  ∃ t w' s', build_token office_id (2 ^ 63) 1 [] None None true w State_default = (Ok t, w', s') ∧
    tk_expires_at t < 1000.
Proof.
  intros w.
  destruct (build_token office_id (2 ^ 63) 1 [] None None true w State_default)
    as [[[t|e] w'] s'] eqn:E; [|discriminate].
  exists t, w', s'. split; [reflexivity|].
  apply (huge_ttl_token_is_expired office_id (2 ^ 63) 1 [] None None true w State_default t w' s').
  - lia.
  - intros i. simpl. unfold i64_max. lia.
  - exact E.
Defined.

Lemma delete_network_spec_witness :
  ∃ w' s', delete_network_tx office_id demo_world start_state = (Ok tt, w', s') ∧
    st_networks s' = delete office_id (st_networks start_state).
Proof.
  destruct (proj1 (delete_network_spec office_id demo_world start_state))
    as (w' & s' & E & Hn & _).
  - split.
    + assert (is_some (st_networks start_state !! office_id) = true) as Hs
        by (vm_compute; reflexivity).
      destruct (st_networks start_state !! office_id) as [n|]; [eauto|discriminate].
    + assert (st_nodes start_state = ∅) as Hempty by (vm_compute; reflexivity).
      intros k n Hk. rewrite Hempty in Hk. discriminate.
  - exists w', s'. split; [exact E|exact Hn].
Defined.

Lemma heartbeat_spec_witness :
  ∃ n', heartbeat_tx demo_app admin_headers alice_id
          (merge_endpoints ["a:1"; "b:2"; "a:1"] (Some "b:2")) [] None 3000 demo_world demo_state
        = (Ok tt, demo_world, put_node alice_id n' demo_state) ∧
    nd_endpoints n' = ["b:2"; "a:1"].
Proof.
  assert (require_node admin_headers (app_admin_token demo_app) (node_of demo_state alice_id)
          = Ok tt) as Hauth by (vm_compute; reflexivity).
  destruct (heartbeat_spec demo_app admin_headers alice_id ["a:1"; "b:2"; "a:1"] (Some "b:2") []
    None 3000 demo_world demo_state (node_of demo_state alice_id) demo_alice Hauth)
    as (n' & E & He & _).
  exists n'. split; [exact E|]. rewrite He. vm_compute. reflexivity.
Defined.

Lemma audit_log_spec_witness :
  ∃ older, List.filter (audit_matches (mkAuditQuery None None (Some 1%nat)))
             (st_audit_log demo_state) = older ++ drop 2 (st_audit_log demo_state).
Proof.
  destruct (audit_log_spec (mkAuditQuery None None (Some 1%nat)) demo_world demo_state
    (drop 2 (st_audit_log demo_state)) demo_world demo_state) as (older & E & _).
  - vm_compute. reflexivity.
  - exists older. exact E.
Defined.
