(* ===== verification/RelayCodec.v ===== *)
(** * Relay packets and frames (src/stream_relay.rs, src/udp_relay.rs)

    Both relays exchange packets with an eight byte header, two node identifiers and a
    payload; they differ in the magic number.  The stream relay sends packets in
    length-prefixed frames.  The theorems show that packets and frames read back, and
    that a packet the relay accepted can always be passed on. *)

From S2P Require Import Prelude RustStd.

(** ** UTF-8 *)

(** [lo ..= hi] on a byte *)
Definition in_range (lo hi : Z) (b : byte) : bool := (lo <=? byte_val b) && (byte_val b <=? hi).

(** The second byte a lead byte of a three or four byte sequence allows. *)
Definition second_ok (lead b : byte) : bool :=
  let a := byte_val lead in
  if a =? 0xe0 then in_range 0xa0 0xbf b
  else if a =? 0xed then in_range 0x80 0x9f b
  else if a =? 0xf0 then in_range 0x90 0xbf b
  else if a =? 0xf4 then in_range 0x80 0x8f b
  else in_range 0x80 0xbf b.

(** [std::str::from_utf8(..).is_ok()] *)
Fixpoint utf8_valid (l : list byte) : bool :=
  match l with
  | [] => true
  | a :: l =>
      if in_range 0 0x7f a then utf8_valid l
      else if in_range 0xc2 0xdf a then
        match l with
        | b :: l => in_range 0x80 0xbf b && utf8_valid l
        | _ => false
        end
      else if in_range 0xe0 0xef a then
        match l with
        | b :: c :: l => second_ok a b && in_range 0x80 0xbf c && utf8_valid l
        | _ => false
        end
      else if in_range 0xf0 0xf4 a then
        match l with
        | b :: c :: d :: l =>
            second_ok a b && in_range 0x80 0xbf c && in_range 0x80 0xbf d && utf8_valid l
        | _ => false
        end
      else false
  end.

(** [std::str::from_utf8(..).ok()?.to_string()] *)
Definition from_utf8 (l : list byte) : option string :=
  if utf8_valid l then Some (str l) else None.

(** ** Packets *)

Definition TYPE_REGISTER : Z := 1.
Definition TYPE_SEND : Z := 2.
Definition TYPE_DELIVER : Z := 3.
Definition HEADER_LEN : nat := 8.
Definition MAX_ID_LEN : nat := 64.

Inductive RelayPacket : Type :=
  | Register (node_id : string)
  | Send (from_id to_id : string) (payload : list byte).

(** [buf[i] as usize] *)
Definition byte_at (buf : list byte) (i : nat) : nat :=
  Z.to_nat (byte_val (nth i buf Byte.x00)).

Definition parse_packet (magic buf : list byte) : option RelayPacket :=
  if (length buf <? HEADER_LEN)%nat then None
  else if bool_decide (take 4 buf ≠ magic) then None
  else
    let msg_type := byte_val (nth 4 buf Byte.x00) in
    let from_len := byte_at buf 5 in
    let to_len := byte_at buf 6 in
    if (MAX_ID_LEN <? from_len)%nat || (MAX_ID_LEN <? to_len)%nat then None
    else
      let offset := HEADER_LEN in
      if (length buf <? offset + from_len + to_len)%nat then None
      else
        let from_end := (offset + from_len)%nat in
        let to_end := (from_end + to_len)%nat in
        from_id ← from_utf8 (take from_len (drop offset buf));
        to_id ← from_utf8 (take to_len (drop from_end buf));
        let payload := drop to_end buf in
        if msg_type =? TYPE_REGISTER then
          if is_empty from_id || negb (is_empty to_id) then None else Some (Register from_id)
        else if msg_type =? TYPE_SEND then
          if is_empty from_id || is_empty to_id then None
          else Some (Send from_id to_id payload)
        else None.

(** [s.len()], in bytes *)
Definition str_len (s : string) : nat := length (bytes s).

(** The error of [build_packet] and of the frame functions is only reported. *)
Definition build_packet (magic : list byte) (msg_type : Z) (from_id to_id : string)
    (payload : list byte) : option (list byte) :=
  if (MAX_ID_LEN <? str_len from_id)%nat || (MAX_ID_LEN <? str_len to_id)%nat then None
  else Some (magic ++ [byte_of msg_type; byte_of (Z.of_nat (str_len from_id));
                       byte_of (Z.of_nat (str_len to_id)); byte_of 0]
             ++ bytes from_id ++ bytes to_id ++ payload).

(** The two relays. *)
Definition stream_magic : list byte := bytes "LSR2".
Definition udp_magic : list byte := bytes "LSR1".
Definition stream_parse_packet : list byte → option RelayPacket := parse_packet stream_magic.
Definition stream_build_packet : Z → string → string → list byte → option (list byte) :=
  build_packet stream_magic.
Definition udp_parse_packet : list byte → option RelayPacket := parse_packet udp_magic.
Definition udp_build_packet : Z → string → string → list byte → option (list byte) :=
  build_packet udp_magic.

(** ** Frames of the stream relay *)

Definition MAX_FRAME_LEN : nat := Z.to_nat (64 * 1024).

(** [u32::to_be_bytes] and [u32::from_be_bytes] *)
Definition u32_to_be (z : Z) : list byte :=
  [byte_of (z / 2 ^ 24 mod 256); byte_of (z / 2 ^ 16 mod 256);
   byte_of (z / 2 ^ 8 mod 256); byte_of (z mod 256)].
Definition u32_from_be (l : list byte) : Z :=
  foldl (λ acc b, acc * 256 + byte_val b) 0 l.

(** [read_exact]: the bytes asked for and the rest, if the stream has that many before
    it ends. *)
Definition read_exact (n : nat) (input : list byte) : option (list byte * list byte) :=
  if (length input <? n)%nat then None else Some (take n input, drop n input).

Definition read_frame (input : list byte) : option (list byte * list byte) :=
  '(len_buf, input) ← read_exact 4 input;
  let len := u32_from_be len_buf in
  if (len =? 0) || (Z.of_nat MAX_FRAME_LEN <? len) then None
  else read_exact (Z.to_nat len) input.

Definition write_frame (body : list byte) : option (list byte) :=
  if bool_decide (body = []) || (MAX_FRAME_LEN <? length body)%nat then None
  else Some (u32_to_be (wrap_u 32 (Z.of_nat (length body))) ++ body).

(** ** Lemmas *)

Lemma from_utf8_bytes s : utf8_valid (bytes s) = true → from_utf8 (bytes s) = Some s.
Proof. intros Hv. unfold from_utf8. by rewrite Hv, str_bytes. Qed.

Lemma from_utf8_Some l s : from_utf8 l = Some s → l = bytes s.
Proof. unfold from_utf8. destruct (utf8_valid l); [|done]. intros [= <-]. by rewrite bytes_str. Qed.

(** A packet, byte by byte. *)
Definition packet_bytes (magic : list byte) (t f o r : byte) (from to payload : list byte)
    : list byte := magic ++ [t; f; o; r] ++ from ++ to ++ payload.

Lemma build_packet_Some magic t from to payload buf :
  build_packet magic t from to payload = Some buf →
  buf = packet_bytes magic (byte_of t) (byte_of (Z.of_nat (str_len from)))
          (byte_of (Z.of_nat (str_len to))) (byte_of 0) (bytes from) (bytes to) payload ∧
  (str_len from ≤ MAX_ID_LEN)%nat ∧ (str_len to ≤ MAX_ID_LEN)%nat.
Proof.
  unfold build_packet. destruct (Nat.ltb_spec MAX_ID_LEN (str_len from)); [done|].
  destruct (Nat.ltb_spec MAX_ID_LEN (str_len to)); [done|]. cbn [orb].
  intros E%(inj Some). by subst.
Qed.

Section Layout.
Context (magic : list byte) (Hmagic : length magic = 4%nat).

Lemma packet_bytes_parts t f o r from to payload :
  let buf := packet_bytes magic t f o r from to payload in
  take 4 buf = magic ∧ nth 4 buf Byte.x00 = t ∧ nth 5 buf Byte.x00 = f ∧
  nth 6 buf Byte.x00 = o ∧ drop 8 buf = from ++ to ++ payload ∧
  length buf = (8 + length from + length to + length payload)%nat.
Proof.
  destruct magic as [|a [|b [|c [|d [|]]]]]; try done. simpl.
  rewrite !length_app. repeat split; lia.
Qed.

(** What parsing makes of a packet whose lengths are as the header says. *)
Lemma parse_packet_bytes t f o r from to payload :
  Z.to_nat (byte_val f) = length from → Z.to_nat (byte_val o) = length to →
  (length from ≤ 64)%nat → (length to ≤ 64)%nat →
  parse_packet magic (packet_bytes magic t f o r from to payload) =
    from_id ← from_utf8 from; to_id ← from_utf8 to;
    if byte_val t =? 1 then
      if is_empty from_id || negb (is_empty to_id) then None else Some (Register from_id)
    else if byte_val t =? 2 then
      if is_empty from_id || is_empty to_id then None else Some (Send from_id to_id payload)
    else None.
Proof.
  intros Hf Ho Lf Lo.
  destruct (packet_bytes_parts t f o r from to payload) as (P1 & P2 & P3 & P4 & P5 & P6).
  unfold parse_packet, byte_at, HEADER_LEN, MAX_ID_LEN. rewrite P1, P2, P3, P4, P6, Hf, Ho.
  rewrite (proj2 (Nat.ltb_ge _ _)) by lia. rewrite bool_decide_eq_false_2 by (by intros []).
  rewrite !(proj2 (Nat.ltb_ge _ _)) by lia. cbn [orb].
  rewrite <- !drop_drop, P5, drop_app_length, take_app_length, take_app_length, drop_app_length.
  done.
Qed.

(** Any packet that parses has that shape. *)
Lemma parse_packet_shape buf pkt :
  parse_packet magic buf = Some pkt →
  ∃ t f o r from to payload, buf = packet_bytes magic t f o r from to payload ∧
    Z.to_nat (byte_val f) = length from ∧ Z.to_nat (byte_val o) = length to ∧
    (length from ≤ 64)%nat ∧ (length to ≤ 64)%nat.
Proof.
  unfold parse_packet, byte_at, HEADER_LEN, MAX_ID_LEN.
  destruct (Nat.ltb_spec (length buf) 8); [done|].
  case_bool_decide as Hm; [done|].
  destruct buf as [|b0 [|b1 [|b2 [|b3 [|t [|f [|o [|r body]]]]]]]]; simpl in *; try lia.
  set (nf := Z.to_nat (byte_val f)). set (no := Z.to_nat (byte_val o)).
  destruct (Nat.ltb_spec 64 nf); [done|]. destruct (Nat.ltb_spec 64 no); [done|]. simpl.
  destruct (Nat.ltb_spec (S (S (S (S (S (S (S (S (length body)))))))))
    (S (S (S (S (S (S (S (S (nf + no)))))))))); [done|]. intros _.
  exists t, f, o, r, (take nf body), (take no (drop nf body)), (drop no (drop nf body)).
  split.
  - unfold packet_bytes. rewrite <- Hm. simpl. do 8 f_equal. by rewrite !take_drop.
  - rewrite !length_take, length_drop. fold nf no. lia.
Qed.

(** The identifiers of a packet that parses fit the limit. *)
Lemma parse_packet_send_len buf from to payload :
  parse_packet magic buf = Some (Send from to payload) →
  (str_len from ≤ MAX_ID_LEN)%nat ∧ (str_len to ≤ MAX_ID_LEN)%nat.
Proof.
  intros Hp. pose proof Hp as Hs.
  apply parse_packet_shape in Hs as (t & f & o & r & fr & t' & pl & -> & Ef & Eo & Lf & Lo).
  rewrite parse_packet_bytes in Hp by done.
  destruct (from_utf8 fr) as [from_id|] eqn:Uf; [|done]. cbn [mbind option_bind] in Hp.
  destruct (from_utf8 t') as [to_id|] eqn:Ut; [|done]. cbn [mbind option_bind] in Hp.
  apply from_utf8_Some in Uf as ->. apply from_utf8_Some in Ut as ->.
  repeat (case_match; simplify_eq). done.
Qed.
End Layout.

(** ** Theorems *)

Lemma id_len_byte n : (n ≤ MAX_ID_LEN)%nat → Z.to_nat (byte_val (byte_of (Z.of_nat n))) = n.
Proof. unfold MAX_ID_LEN. intros Hn. rewrite byte_val_of by lia. lia. Qed.

(** A built packet has one reading only. *)
Lemma build_packet_inj magic ty from to payload ty' from' to' payload' buf :
  length magic = 4%nat → 0 ≤ ty < 256 → 0 ≤ ty' < 256 →
  build_packet magic ty from to payload = Some buf →
  build_packet magic ty' from' to' payload' = Some buf →
  ty' = ty ∧ from' = from ∧ to' = to ∧ payload' = payload.
Proof.
  intros Hm Hty Hty' (-> & Lf & Lt)%build_packet_Some (E & Lf' & Lt')%build_packet_Some.
  pose proof (packet_bytes_parts magic Hm (byte_of ty) (byte_of (Z.of_nat (str_len from)))
    (byte_of (Z.of_nat (str_len to))) (byte_of 0) (bytes from) (bytes to) payload)
    as (_ & P2 & P3 & P4 & P5 & _).
  rewrite E in P2, P3, P4, P5.
  destruct (packet_bytes_parts magic Hm (byte_of ty') (byte_of (Z.of_nat (str_len from')))
    (byte_of (Z.of_nat (str_len to'))) (byte_of 0) (bytes from') (bytes to') payload')
    as (_ & Q2 & Q3 & Q4 & Q5 & _).
  rewrite Q2 in P2. rewrite Q3 in P3. rewrite Q4 in P4. rewrite Q5 in P5.
  apply (f_equal byte_val) in P2. rewrite !byte_val_of in P2 by done.
  apply (f_equal (λ b, Z.to_nat (byte_val b))) in P3, P4. rewrite !id_len_byte in P3, P4 by done.
  unfold str_len in P3, P4. apply app_inj_1 in P5 as [Ef P5]; [|done].
  apply app_inj_1 in P5 as [Et Ep]; [|done].
  split; [done|]. split; [by apply (inj bytes)|]. split; [by apply (inj bytes)|done].
Qed.

(** C33. Packets read back.  For every packet that [build_packet] makes, of any type, the
    type, the identifiers and the payload can be recovered from its bytes.  The parser
    of the relays gives them back for a SEND packet with both identifiers and for a
    REGISTER packet with the first identifier only, and refuses all others: among them
    the DELIVER packets, which the relays send to clients and never accept. *)
Theorem packet_roundtrip magic ty from to payload buf :
  length magic = 4%nat → 0 ≤ ty < 256 →
  utf8_valid (bytes from) = true → utf8_valid (bytes to) = true →
  build_packet magic ty from to payload = Some buf →
  parse_packet magic buf =
    (if decide (ty = TYPE_REGISTER ∧ from ≠ "" ∧ to = "") then Some (Register from)
     else if decide (ty = TYPE_SEND ∧ from ≠ "" ∧ to ≠ "") then Some (Send from to payload)
     else None) ∧
  (∀ ty' from' to' payload', 0 ≤ ty' < 256 →
     build_packet magic ty' from' to' payload' = Some buf →
     ty' = ty ∧ from' = from ∧ to' = to ∧ payload' = payload).
Proof.
  intros Hm Hty Vf Vt Hbuf. split; [|intros; by eapply build_packet_inj].
  apply build_packet_Some in Hbuf as (-> & Lf & Lt).
  rewrite (parse_packet_bytes magic Hm) by (first [by apply id_len_byte|done]).
  rewrite !from_utf8_bytes by done. cbn [mbind option_bind]. rewrite byte_val_of by done.
  unfold is_empty, TYPE_REGISTER, TYPE_SEND.
  destruct (Z.eqb_spec ty 1) as [->|H1]; [|destruct (Z.eqb_spec ty 2) as [->|H2]];
    repeat case_bool_decide; repeat case_decide; simpl; naive_solver.
Qed.

(** The relay accepts no two readings of a packet: a packet that parses as SEND is,
    up to its reserved byte, the packet built from what was read, and its identifiers
    are at most 64 bytes of valid UTF-8 and not empty. *)
Theorem packet_canonical magic buf from to payload :
  length magic = 4%nat → parse_packet magic buf = Some (Send from to payload) →
  (∃ t f o r, buf = packet_bytes magic t f o r (bytes from) (bytes to) payload ∧
     build_packet magic TYPE_SEND from to payload =
       Some (packet_bytes magic t f o (byte_of 0) (bytes from) (bytes to) payload)) ∧
  (str_len from ≤ 64)%nat ∧ (str_len to ≤ 64)%nat ∧ from ≠ "" ∧ to ≠ "" ∧
  utf8_valid (bytes from) = true ∧ utf8_valid (bytes to) = true.
Proof.
  intros Hm Hp. pose proof Hp as Hs.
  apply (parse_packet_shape magic) in Hs as (t & f & o & r & fr & tt' & pl & -> & Ef & Eo & Lf & Lo);
    [|done].
  rewrite (parse_packet_bytes magic Hm) in Hp by done.
  destruct (from_utf8 fr) as [from_id|] eqn:Uf; [|done]. cbn [mbind option_bind] in Hp.
  destruct (from_utf8 tt') as [to_id|] eqn:Ut; [|done]. cbn [mbind option_bind] in Hp.
  pose proof (from_utf8_Some _ _ Uf) as ->. pose proof (from_utf8_Some _ _ Ut) as ->.
  destruct (byte_val t =? 1) eqn:E1; [destruct (_ || _); done|].
  destruct (byte_val t =? 2) eqn:E2; [|done]. unfold is_empty in Hp.
  case_bool_decide as Nf; [done|]. case_bool_decide as Nt; [done|]. cbn [orb] in Hp.
  injection Hp as <- <- <-. bool_props.
  unfold from_utf8 in Uf, Ut. destruct (utf8_valid (bytes from_id)) eqn:Vf; [|done].
  destruct (utf8_valid (bytes to_id)) eqn:Vt; [|done].
  split; [|done]. exists t, f, o, r. split; [done|].
  unfold build_packet, MAX_ID_LEN, str_len. rewrite !(proj2 (Nat.ltb_ge _ _)) by lia. cbn [orb].
  unfold packet_bytes, TYPE_SEND. rewrite <- Ef, <- Eo.
  pose proof (byte_val_range f). pose proof (byte_val_range o).
  rewrite !Z2Nat.id by lia. rewrite !byte_of_val.
  replace 2 with (byte_val t) by lia. by rewrite byte_of_val.
Qed.

(** Read [n] frames from a stream. *)
Fixpoint read_frames (n : nat) (input : list byte) : option (list (list byte) * list byte) :=
  match n with
  | O => Some ([], input)
  | S n => '(body, input) ← read_frame input;
           '(bodies, input) ← read_frames n input; Some (body :: bodies, input)
  end.

Lemma u32_be_roundtrip z : 0 ≤ z < 2 ^ 32 → u32_from_be (u32_to_be z) = z.
Proof.
  intros Hz. unfold u32_from_be, u32_to_be. cbn [foldl].
  rewrite !byte_val_of by (apply Z.mod_pos_bound; lia).
  change (2 ^ 24) with 16777216. change (2 ^ 16) with 65536. change (2 ^ 8) with 256.
  pose proof (Z.div_mod z 256 ltac:(lia)).
  pose proof (Z.div_mod (z / 256) 256 ltac:(lia)).
  pose proof (Z.div_mod (z / 65536) 256 ltac:(lia)).
  pose proof (Z.div_mod (z / 16777216) 256 ltac:(lia)).
  assert (z / 256 / 256 = z / 65536) by (rewrite Z.div_div by lia; done).
  assert (z / 65536 / 256 = z / 16777216) by (rewrite Z.div_div by lia; done).
  assert (z / 16777216 / 256 = 0) by (rewrite Z.div_div by lia; apply Z.div_small; lia).
  lia.
Qed.

Lemma read_write_frame body bs rest :
  write_frame body = Some bs → read_frame (bs ++ rest) = Some (body, rest).
Proof.
  unfold write_frame. case_bool_decide as Hne; [done|].
  destruct (Nat.ltb_spec MAX_FRAME_LEN (length body)) as [|Hle]; [done|]. cbn [orb].
  intros E%(inj Some). subst bs. unfold MAX_FRAME_LEN in Hle.
  assert (0 < length body)%nat by (destruct body; [done|simpl; lia]).
  rewrite wrap_u_id by lia. unfold read_frame, read_exact.
  assert (length (u32_to_be (Z.of_nat (length body))) = 4%nat) as L4 by done.
  rewrite <- app_assoc, length_app, L4. rewrite (proj2 (Nat.ltb_ge _ 4)) by lia.
  cbn [mbind option_bind]. rewrite <- L4, take_app_length, drop_app_length.
  rewrite u32_be_roundtrip by lia.
  rewrite (proj2 (Z.eqb_neq _ 0)), (proj2 (Z.ltb_ge _ _)) by (unfold MAX_FRAME_LEN; lia).
  cbn [orb]. rewrite Nat2Z.id, length_app, (proj2 (Nat.ltb_ge _ _)) by lia.
  by rewrite take_app_length, drop_app_length.
Qed.

Lemma read_frame_length input body rest :
  read_frame input = Some (body, rest) → (length body ≤ MAX_FRAME_LEN)%nat.
Proof.
  unfold read_frame, read_exact. destruct (length input <? 4)%nat; [done|].
  cbn [mbind option_bind]. set (len := u32_from_be _).
  destruct (len =? 0); [done|]. destruct (Z.ltb_spec (Z.of_nat MAX_FRAME_LEN) len); [done|].
  cbn [orb]. destruct (_ <? _)%nat; [done|]. intros [= <- _]. rewrite length_take. lia.
Qed.

(** Frames are self-delimiting: whatever frames a relay writes one after the other,
    the reader at the other end gets exactly those bodies in order, and the rest of the
    stream is untouched. *)
Theorem frames_roundtrip bodies written rest :
  mapM write_frame bodies = Some written →
  read_frames (length bodies) (concat written ++ rest) = Some (bodies, rest).
Proof.
  revert written. induction bodies as [|body bodies IH]; intros written.
  - intros [= <-]. done.
  - cbn [mapM]. destruct (write_frame body) as [bs|] eqn:Ew; [|done]. cbn [mbind option_bind].
    destruct (mapM write_frame bodies) as [ws|] eqn:Em; [|done]. intros [= <-].
    cbn [length read_frames concat]. rewrite <- app_assoc.
    rewrite (read_write_frame _ _ _ Ew). cbn [mbind option_bind].
    rewrite (IH ws eq_refl). done.
Qed.

(** Whatever SEND packet arrives in a frame, the DELIVER packet for it can be built
    and written: the identifiers are short enough and the frame is no longer than the
    one received, so a delivery never fails for its size. *)
Theorem relayed_packet_fits input frame rest from to payload :
  read_frame input = Some (frame, rest) →
  stream_parse_packet frame = Some (Send from to payload) →
  ∃ deliver bs, stream_build_packet TYPE_DELIVER from "" payload = Some deliver ∧
    write_frame deliver = Some bs ∧ (length deliver < length frame)%nat.
Proof.
  intros Hr Hp. unfold stream_parse_packet in Hp.
  destruct (parse_packet_shape stream_magic eq_refl _ _ Hp)
    as (t & f & o & r & fr & tt' & pl & -> & Ef & Eo & Lf & Lo).
  rewrite (parse_packet_bytes stream_magic eq_refl) in Hp by done.
  destruct (from_utf8 fr) as [from_id|] eqn:Uf; [|done]. cbn [mbind option_bind] in Hp.
  destruct (from_utf8 tt') as [to_id|] eqn:Ut; [|done]. cbn [mbind option_bind] in Hp.
  pose proof (from_utf8_Some _ _ Uf) as ->. pose proof (from_utf8_Some _ _ Ut) as ->.
  destruct (byte_val t =? 1); [destruct (_ || _); done|].
  destruct (byte_val t =? 2); [|done]. unfold is_empty in Hp.
  case_bool_decide as Nf; [done|]. case_bool_decide as Nt; [done|]. cbn [orb] in Hp.
  injection Hp as <- <- <-.
  assert (0 < length (bytes to_id))%nat as Hpos.
  { destruct (bytes to_id) as [|b l] eqn:E; simpl; [|lia]. destruct Nt.
    rewrite <- (str_bytes to_id), E. done. }
  apply read_frame_length in Hr.
  destruct (packet_bytes_parts stream_magic eq_refl t f o r (bytes from_id) (bytes to_id) pl)
    as (_ & _ & _ & _ & _ & Hlen).
  set (frame := packet_bytes _ _ _ _ _ _ _ _) in *.
  unfold stream_build_packet, build_packet, MAX_ID_LEN, str_len.
  rewrite !(proj2 (Nat.ltb_ge 64 _)) by (simpl; lia). cbn [orb].
  set (deliver := stream_magic ++ _).
  assert (length deliver = 8 + length (bytes from_id) + length pl)%nat as Hd.
  { unfold deliver. rewrite !length_app. simpl. lia. }
  exists deliver. eexists. split; [done|]. split; [|lia].
  unfold write_frame. rewrite bool_decide_eq_false_2 by (intros E; rewrite E in Hd; simpl in Hd; lia).
  by rewrite (proj2 (Nat.ltb_ge _ _)) by lia.
Qed.

(** ** Concrete instances *)

Definition sample_send : list byte :=
  default [] (build_packet stream_magic TYPE_SEND "alice" "bob" (bytes "hi")).
Definition sample_register : list byte :=
  default [] (build_packet stream_magic TYPE_REGISTER "alice" "" (bytes "hi")).

(** What a client gets *)
Definition sample_deliver : list byte :=
  default [] (build_packet stream_magic TYPE_DELIVER "alice" "" (bytes "hi")).

Lemma packet_roundtrip_witness :
  parse_packet stream_magic sample_send = Some (Send "alice" "bob" (bytes "hi")) ∧
  parse_packet stream_magic sample_register = Some (Register "alice") ∧
  parse_packet stream_magic sample_deliver = None ∧
  ∀ from payload, build_packet stream_magic TYPE_DELIVER from "" payload = Some sample_deliver →
    from = "alice" ∧ payload = bytes "hi".
Proof.
  split; [|split; [|split]].
  - refine (proj1 (packet_roundtrip stream_magic TYPE_SEND "alice" "bob" (bytes "hi") sample_send
      _ _ _ _ _)); solve [vm_compute; intuition congruence].
  - refine (proj1 (packet_roundtrip stream_magic TYPE_REGISTER "alice" "" (bytes "hi") sample_register
      _ _ _ _ _)); solve [vm_compute; intuition congruence].
  - refine (proj1 (packet_roundtrip stream_magic TYPE_DELIVER "alice" "" (bytes "hi") sample_deliver
      _ _ _ _ _)); solve [vm_compute; intuition congruence].
  - intros from payload Hb.
    destruct (packet_roundtrip stream_magic TYPE_DELIVER "alice" "" (bytes "hi") sample_deliver)
      as [_ Hinj]; [solve [vm_compute; intuition congruence]..|].
    destruct (Hinj TYPE_DELIVER from "" payload) as (_ & Hf & _ & Hp);
      [solve [vm_compute; intuition congruence]|exact Hb|]. exact (conj Hf Hp).
Defined.

Lemma packet_canonical_witness : (str_len "alice" ≤ 64)%nat ∧ utf8_valid (bytes "bob") = true.
Proof.
  destruct (packet_canonical stream_magic sample_send "alice" "bob" (bytes "hi"))
    as (_ & Hf & _ & _ & _ & _ & Ht).
  - reflexivity.
  - vm_compute. reflexivity.
  - split; [exact Hf|exact Ht].
Defined.

Lemma frames_roundtrip_witness :
  read_frames 2 (concat (default [] (mapM write_frame [sample_send; sample_register])) ++ bytes "x")
  = Some ([sample_send; sample_register], bytes "x").
Proof.
  apply (frames_roundtrip [sample_send; sample_register]
           (default [] (mapM write_frame [sample_send; sample_register])) (bytes "x")).
  vm_compute. reflexivity.
Defined.

Lemma relayed_packet_fits_witness :
  ∃ deliver bs, stream_build_packet TYPE_DELIVER "alice" "" (bytes "hi") = Some deliver ∧
    write_frame deliver = Some bs.
Proof.
  destruct (relayed_packet_fits (default [] (write_frame sample_send)) sample_send [] "alice" "bob"
    (bytes "hi")) as (d & bs & Hd & Hw & _).
  - vm_compute. reflexivity.
  - vm_compute. reflexivity.
  - exists d, bs. split; [exact Hd|exact Hw].
Defined.
