(* ===== verification/StreamRelay.v ===== *)
(** * The stream relay (src/stream_relay.rs)

    The connection tasks, the table of registered connections and the channels to the
    writer tasks, as a transition system.  One event is what happens between two points
    at which a task waits; the table is only touched under its lock. *)

From S2P Require Import Prelude RustStd RelayCodec.

(** [MeshTransport] and [MeshOutgoingPacket] (src/mesh.rs) *)
Inductive MeshTransport : Type := Stream | Udp.
Record MeshOutgoingPacket : Type := mkMeshOutgoingPacket {
  mo_transport : MeshTransport;
  mo_from_id : string;
  mo_to_id : string;
  mo_payload : list byte;
}.

(** The relay.  A connection is named by its identifier, and stands for the sender of
    its channel in [PeerConn]. *)
Record StreamRelay : Type := mkStreamRelay {
  sr_next_conn : Z;                         (** [NEXT_CONN_ID] *)
  sr_peers : gmap string (list Z);          (** the table *)
  sr_conns : gmap Z (option string);        (** running tasks, with the registered node *)
  sr_outbox : gmap Z (list (list byte));    (** channels that still have a receiver *)
  sr_mesh : list MeshOutgoingPacket;        (** handed to the mesh, oldest first *)
}.
#[export] Instance eta_StreamRelay : Eta StreamRelay := λ s,
  mkStreamRelay (sr_next_conn s) (sr_peers s) (sr_conns s) (sr_outbox s) (sr_mesh s).

(** [target.sender.send(deliver.clone())] for every target, and whether one succeeded *)
Fixpoint send_all (frame : list byte) (targets : list Z) (outbox : gmap Z (list (list byte)))
    : bool * gmap Z (list (list byte)) :=
  match targets with
  | [] => (false, outbox)
  | c :: targets =>
      match outbox !! c with
      | Some q => let '(_, outbox) := send_all frame targets (<[c := q ++ [frame]]> outbox) in
                  (true, outbox)
      | None => send_all frame targets outbox
      end
  end.

(** [deliver_local]; [None] is the error of [build_packet]. *)
Definition deliver_local (s : StreamRelay) (from_id to_id : string) (payload : list byte)
    : option (bool * StreamRelay) :=
  match sr_peers s !! to_id with
  | None => Some (false, s)
  | Some targets =>
      deliver ← stream_build_packet TYPE_DELIVER from_id "" payload;
      let '(sent_any, outbox) := send_all deliver targets (sr_outbox s) in
      Some (sent_any, s <| sr_outbox := outbox |>)
  end.

(** A task that ends: its sender is dropped with it. *)
Definition drop_conn (c : Z) (s : StreamRelay) : StreamRelay :=
  let s := s <| sr_conns := delete c (sr_conns s) |> in
  s <| sr_outbox := delete c (sr_outbox s) |>.

(** [list.retain(|conn| conn.id != conn_id)], and the removal of an empty list *)
Definition unregister (c : Z) (node_id : string) (s : StreamRelay) : StreamRelay :=
  match sr_peers s !! node_id with
  | Some l =>
      let l := filter (λ x, x ≠ c) l in
      s <| sr_peers := if bool_decide (l = []) then delete node_id (sr_peers s)
                       else <[node_id := l]> (sr_peers s) |>
  | None => s
  end.

Inductive RelayEvent : Type :=
  | Accept                                      (** a connection is accepted *)
  | FrameRead (conn : Z) (frame : option (list byte))   (** [read_frame] returns *)
  | FrameWritten (conn : Z)                     (** the writer task writes one frame *)
  | WriteFailed (conn : Z)                      (** the writer task stops *)
  | FromMesh (from_id to_id : string) (payload : list byte).

(** What [handle_connection] does with a frame once the node is registered. *)
Definition on_packet (mesh : bool) (c : Z) (node_id : string) (frame : list byte)
    (s : StreamRelay) : StreamRelay :=
  match stream_parse_packet frame with
  | Some (Send from_id to_id payload) =>
      if bool_decide (from_id ≠ node_id) then s
      else match deliver_local s from_id to_id payload with
           | None => s <| sr_conns := delete c (sr_conns s) |> (* [?]: no clean-up *)
           | Some (true, s) => s
           | Some (false, s) =>
               if mesh then
                 s <| sr_mesh := sr_mesh s ++ [mkMeshOutgoingPacket Stream from_id to_id payload] |>
               else s
           end
  | Some (Register _) | None => s
  end.

Definition relay_step (mesh : bool) (ev : RelayEvent) (s : StreamRelay) : StreamRelay :=
  match ev with
  | Accept =>
      let c := sr_next_conn s in
      let s := s <| sr_next_conn := c + 1 |> in
      let s := s <| sr_conns := <[c := None]> (sr_conns s) |> in
      s <| sr_outbox := <[c := []]> (sr_outbox s) |>
  | FrameRead c frame =>
      match sr_conns s !! c with
      | None => s
      | Some None =>
          match frame ≫= stream_parse_packet with
          | Some (Register node_id) =>
              let l := default [] (sr_peers s !! node_id) in
              let s := s <| sr_peers := <[node_id := l ++ [c]]> (sr_peers s) |> in
              s <| sr_conns := <[c := Some node_id]> (sr_conns s) |>
          | _ => drop_conn c s
          end
      | Some (Some node_id) =>
          match frame with
          | None => drop_conn c (unregister c node_id s)
          | Some frame => on_packet mesh c node_id frame s
          end
      end
  | FrameWritten c => s <| sr_outbox := alter (drop 1) c (sr_outbox s) |>
  | WriteFailed c => s <| sr_outbox := delete c (sr_outbox s) |>
  | FromMesh from_id to_id payload =>
      match deliver_local s from_id to_id payload with
      | Some (_, s) => s
      | None => s
      end
  end.

Definition relay_start : StreamRelay := mkStreamRelay 1 ∅ ∅ ∅ [].
Definition relay_run (mesh : bool) (evs : list RelayEvent) : StreamRelay :=
  foldl (λ s ev, relay_step mesh ev s) relay_start evs.

(** ** The table *)

(** The table lists, for every node, exactly the running connections that registered
    for it, once each, and has no empty entry. *)
Record table_ok (s : StreamRelay) : Prop := {
  to_listed : ∀ node l c, sr_peers s !! node = Some l → c ∈ l → sr_conns s !! c = Some (Some node);
  to_complete : ∀ node c, sr_conns s !! c = Some (Some node) →
    ∃ l, sr_peers s !! node = Some l ∧ c ∈ l;
  to_nodup : ∀ node l, sr_peers s !! node = Some l → NoDup l ∧ l ≠ [];
  to_fresh : ∀ c x, sr_conns s !! c = Some x → c < sr_next_conn s;
}.

Lemma deliver_local_table s f t p b s' :
  deliver_local s f t p = Some (b, s') →
  sr_peers s' = sr_peers s ∧ sr_conns s' = sr_conns s ∧ sr_next_conn s' = sr_next_conn s ∧
  sr_mesh s' = sr_mesh s.
Proof.
  unfold deliver_local. destruct (sr_peers s !! t) as [l|]; [|by intros [= _ <-]].
  destruct (stream_build_packet _ _ _ _) as [d|]; [|done]. cbn [mbind option_bind].
  destruct (send_all d l (sr_outbox s)) as [any o]. by intros [= _ <-].
Qed.

Lemma table_ok_same s s' :
  sr_peers s' = sr_peers s → sr_conns s' = sr_conns s → sr_next_conn s' = sr_next_conn s →
  table_ok s → table_ok s'.
Proof. intros Ep Ec En [H1 H2 H3 H4]. split; rewrite ?Ep, ?Ec, ?En; done. Qed.

(** A packet that parses has a sender that fits, so a delivery does not fail. *)
Lemma deliver_local_total s frame f t p :
  stream_parse_packet frame = Some (Send f t p) → is_Some (deliver_local s f t p).
Proof.
  intros Hp. unfold deliver_local. destruct (sr_peers s !! t); [|eauto].
  destruct (parse_packet_send_len stream_magic eq_refl _ _ _ _ Hp) as [Hf _].
  unfold stream_build_packet, build_packet.
  rewrite (proj2 (Nat.ltb_ge _ _)) by done. simpl.
  destruct (send_all _ _ _). eauto.
Qed.

Lemma table_ok_register s c node_id :
  table_ok s → sr_conns s !! c = Some None →
  let l := default [] (sr_peers s !! node_id) in
  let s1 := s <| sr_peers := <[node_id := l ++ [c]]> (sr_peers s) |> in
  table_ok (s1 <| sr_conns := <[c := Some node_id]> (sr_conns s1) |>).
Proof.
  intros [H1 H2 H3 H4] Hc. cbv zeta. split; simpl.
  - intros node l x. rewrite lookup_insert_Some. intros [[<- <-]|[Hne Hl]] Hx.
    + apply elem_of_app in Hx as [Hx| ->%list_elem_of_singleton]; [|by rewrite lookup_insert_eq].
      destruct (sr_peers s !! node_id) as [l0|] eqn:El; [|by apply not_elem_of_nil in Hx].
      pose proof (H1 _ _ _ El Hx). rewrite lookup_insert_ne by congruence. done.
    + pose proof (H1 _ _ _ Hl Hx). rewrite lookup_insert_ne by congruence. done.
  - intros node x. rewrite lookup_insert_Some. intros [[<- [= <-]]|[Hne Hx]].
    + rewrite lookup_insert_eq. eexists. split; [done|]. set_solver.
    + destruct (H2 _ _ Hx) as (l & Hl & Hin). destruct (decide (node_id = node)) as [<-|].
      * rewrite lookup_insert_eq. eexists. split; [done|]. rewrite Hl. set_solver.
      * rewrite lookup_insert_ne by done. eauto.
  - intros node l. rewrite lookup_insert_Some. intros [[<- <-]|[_ Hl]]; [|by eapply H3].
    split; [|by destruct (default _ _)]. destruct (sr_peers s !! node_id) as [l0|] eqn:El; simpl.
    + apply NoDup_app. split; [by eapply H3|]. split; [|by repeat constructor; set_solver].
      intros x Hx ->%list_elem_of_singleton. pose proof (H1 _ _ _ El Hx). congruence.
    + repeat constructor. set_solver.
  - intros x y. rewrite lookup_insert_Some. intros [[<- _]|[_ Hx]]; by eapply H4.
Qed.

Lemma table_ok_unregister s c node_id :
  table_ok s → sr_conns s !! c = Some (Some node_id) →
  table_ok (drop_conn c (unregister c node_id s)).
Proof.
  intros [H1 H2 H3 H4] Hc. destruct (H2 _ _ Hc) as (l & Hl & Hin).
  unfold unregister. rewrite Hl. set (l' := filter (λ x, x ≠ c) l).
  assert (∀ node m x, (if bool_decide (l' = []) then delete node_id (sr_peers s)
      else <[node_id := l']> (sr_peers s)) !! node = Some m → x ∈ m →
      x ≠ c ∧ sr_conns s !! x = Some (Some node)) as Hin'.
  { intros node m x. case_bool_decide.
    - rewrite lookup_delete_Some. intros [Hne Hm] Hx. pose proof (H1 _ _ _ Hm Hx). naive_solver congruence.
    - rewrite lookup_insert_Some. intros [[<- <-]|[Hne Hm]] Hx.
      + unfold l' in Hx. apply list_elem_of_filter in Hx as [? Hx]. eauto.
      + pose proof (H1 _ _ _ Hm Hx). split; [congruence|done]. }
  split; simpl.
  - intros node m x Hm Hx. destruct (Hin' _ _ _ Hm Hx). rewrite lookup_delete_ne by done. done.
  - intros node x. rewrite lookup_delete_Some. intros [Hne Hx].
    destruct (H2 _ _ Hx) as (m & Hm & Hxm). destruct (decide (node = node_id)) as [->|Hnode].
    + rewrite Hl in Hm. injection Hm as <-.
      assert (x ∈ l') as Hx' by (apply list_elem_of_filter; naive_solver).
      rewrite bool_decide_eq_false_2 by (intros E; rewrite E in Hx'; by apply not_elem_of_nil in Hx').
      exists l'. by rewrite lookup_insert_eq.
    + exists m. case_bool_decide; [rewrite lookup_delete_ne by done|rewrite lookup_insert_ne by done];
        done.
  - intros node m. case_bool_decide as Hnil.
    + rewrite lookup_delete_Some. intros [_ Hm]. by eapply H3.
    + rewrite lookup_insert_Some. intros [[<- <-]|[_ Hm]]; [|by eapply H3].
      split; [|done]. apply NoDup_filter. by eapply H3.
  - intros x y. rewrite lookup_delete_Some. intros [_ Hx]. by eapply H4.
Qed.

Lemma table_ok_step mesh ev s : table_ok s → table_ok (relay_step mesh ev s).
Proof.
  intros Hok. destruct ev as [|c frame|c|c|f t p]; simpl; try by apply (table_ok_same s).
  - destruct Hok as [H1 H2 H3 H4]. assert (sr_conns s !! sr_next_conn s = None) as Hnew.
    { destruct (sr_conns s !! sr_next_conn s) as [x|] eqn:E; [|done]. pose proof (H4 _ _ E). lia. }
    split; simpl.
    + intros node l c Hl Hc. pose proof (H1 _ _ _ Hl Hc). rewrite lookup_insert_ne by congruence. done.
    + intros node c. rewrite lookup_insert_Some. intros [[_ ?]|[_ ?]]; [done|by apply H2].
    + done.
    + intros c x. rewrite lookup_insert_Some. intros [[<- _]|[_ Hc]]; [lia|].
      pose proof (H4 _ _ Hc). lia.
  - destruct (sr_conns s !! c) as [[node|]|] eqn:Hc; [| |done].
    + destruct frame as [frame|]; [|by apply table_ok_unregister].
      unfold on_packet. destruct (stream_parse_packet frame) as [[|f t p]|] eqn:Hp; [done| |done].
      case_bool_decide; [done|]. destruct (deliver_local_total s frame f t p Hp) as [[b s1] Hd].
      rewrite Hd. apply deliver_local_table in Hd as (E1 & E2 & E3 & _).
      destruct b; [by apply (table_ok_same s)|]. destruct mesh; by apply (table_ok_same s).
    + assert (table_ok (drop_conn c s)) as Hdrop.
      { destruct Hok as [H1 H2 H3 H4]. split; simpl; [| |done|].
        - intros node l x Hl Hx. pose proof (H1 _ _ _ Hl Hx). rewrite lookup_delete_ne by congruence. done.
        - intros node x. rewrite lookup_delete_Some. intros [_ ?]. by apply H2.
        - intros x y. rewrite lookup_delete_Some. intros [_ ?]. by eapply H4. }
      destruct (frame ≫= stream_parse_packet) as [[node|f t p]|]; [|done..].
      by apply table_ok_register.
  - destruct (deliver_local s f t p) as [[b s1]|] eqn:Hd; [|done].
    apply deliver_local_table in Hd as (E1 & E2 & E3 & _). by apply (table_ok_same s).
Qed.

Lemma table_ok_run mesh evs : table_ok (relay_run mesh evs).
Proof.
  unfold relay_run. assert (table_ok relay_start) as H0.
  { split; simpl; intros; simplify_map_eq; done. }
  revert H0. generalize relay_start. induction evs as [|ev evs IH]; intros s Hs; [done|].
  simpl. by apply IH, table_ok_step.
Qed.

(** Whatever connections come and go and whatever they send, the relay's table lists
    for every node exactly the running connections that registered for it, once each,
    and keeps no empty entry: nothing leaks and nothing is lost. *)
Theorem stream_table_invariant mesh evs node :
  let s := relay_run mesh evs in
  match sr_peers s !! node with
  | Some l => l ≠ [] ∧ NoDup l ∧ ∀ c, c ∈ l ↔ sr_conns s !! c = Some (Some node)
  | None => ∀ c, sr_conns s !! c ≠ Some (Some node)
  end.
Proof.
  intros s. destruct (table_ok_run mesh evs) as [H1 H2 H3 _]. fold s in H1, H2, H3.
  destruct (sr_peers s !! node) as [l|] eqn:El.
  - destruct (H3 _ _ El) as [Hnd Hne]. split; [done|]. split; [done|]. intros c. split; [by eapply H1|].
    intros Hc. destruct (H2 _ _ Hc) as (l' & El' & ?). congruence.
  - intros c Hc. destruct (H2 _ _ Hc) as (l & ? & _). congruence.
Qed.

(** ** Delivery *)

Lemma send_all_lookup d l o c :
  NoDup l →
  (send_all d l o).2 !! c = if decide (c ∈ l) then (λ q, q ++ [d]) <$> o !! c else o !! c.
Proof.
  revert o. induction l as [|x l IH]; intros o Hnd; [case_decide; set_solver|].
  cbn [send_all].
  apply NoDup_cons in Hnd as [Hx Hnd]. destruct (o !! x) as [q|] eqn:Eo.
  - specialize (IH (<[x := q ++ [d]]> o) Hnd).
    destruct (send_all d l (<[x := q ++ [d]]> o)) as [b o']. simpl in *. rewrite IH.
    destruct (decide (c = x)) as [->|Hne].
    + rewrite decide_False, decide_True by set_solver. by rewrite lookup_insert_eq, Eo.
    + rewrite lookup_insert_ne by done. repeat case_decide; set_solver.
  - rewrite IH by done. destruct (decide (c = x)) as [->|Hne].
    + rewrite decide_False, decide_True by set_solver. by rewrite Eo.
    + repeat case_decide; set_solver.
Qed.

Lemma send_all_any d l o : (send_all d l o).1 = true ↔ ∃ c, c ∈ l ∧ is_Some (o !! c).
Proof.
  revert o. induction l as [|x l IH]; intros o; simpl; [set_solver|].
  destruct (o !! x) as [q|] eqn:Eo.
  - destruct (send_all d l _) as [b o']. simpl. split; [|done]. intros _. exists x. set_solver.
  - rewrite IH. split; intros (c & Hc & Ho); exists c; [set_solver|].
    split; [|done]. destruct Ho as [q Hq]. set_solver.
Qed.

(** A connection of a node that can still be written to. *)
Definition listens (s : StreamRelay) (node_id : string) (c : Z) : Prop :=
  sr_conns s !! c = Some (Some node_id) ∧ is_Some (sr_outbox s !! c).

Lemma deliver_local_spec s f t p b s' :
  table_ok s → deliver_local s f t p = Some (b, s') →
  (b = true ↔ ∃ c, listens s t c) ∧
  ∀ deliver, stream_build_packet TYPE_DELIVER f "" p = Some deliver →
  ∀ c, sr_outbox s' !! c =
    if decide (sr_conns s !! c = Some (Some t)) then (λ q, q ++ [deliver]) <$> sr_outbox s !! c
    else sr_outbox s !! c.
Proof.
  intros [H1 H2 H3 H4]. unfold deliver_local, listens.
  destruct (sr_peers s !! t) as [l|] eqn:El.
  - assert (∀ c, sr_conns s !! c = Some (Some t) ↔ c ∈ l) as Hmem.
    { intros c. split; [|by eapply H1]. intros Hc. destruct (H2 _ _ Hc) as (l' & El' & ?). congruence. }
    destruct (stream_build_packet _ _ _ _) as [d|] eqn:Eb; [|done]. cbn [mbind option_bind].
    pose proof (send_all_any d l (sr_outbox s)) as Hany.
    pose proof (λ c, send_all_lookup d l (sr_outbox s) c (proj1 (H3 _ _ El))) as Hlook.
    destruct (send_all d l (sr_outbox s)) as [any o]. simpl in *. intros [= <- <-].
    split; [rewrite Hany; split; intros (c & ? & ?); exists c; by rewrite ?Hmem in *|].
    intros d' [= <-] c. simpl. rewrite Hlook.
    destruct (decide (c ∈ l)) as [Hc|Hc].
    + by rewrite decide_True by (by apply Hmem).
    + rewrite decide_False; [done|]. by rewrite Hmem.
  - intros [= <- <-]. split.
    + split; [done|]. intros (c & Hc & _). destruct (H2 _ _ Hc) as (l & ? & _). congruence.
    + intros d _ c. rewrite decide_False; [done|]. intros Hc.
      destruct (H2 _ _ Hc) as (l & ? & _). congruence.
Qed.

(** What the relay does with a SEND packet of a registered connection.  If the packet
    names another sender than the node the connection registered for, nothing happens.
    Otherwise every connection of the target that can be written to gets one copy, with
    the registered node as its sender, and no other connection gets anything; the packet
    goes to the mesh exactly when there is one and no such connection exists. *)
Theorem stream_send_spec mesh s c node frame from to payload :
  table_ok s → sr_conns s !! c = Some (Some node) →
  stream_parse_packet frame = Some (Send from to payload) →
  let s' := relay_step mesh (FrameRead c (Some frame)) s in
  (from ≠ node → s' = s) ∧
  (from = node → ∃ deliver, stream_build_packet TYPE_DELIVER node "" payload = Some deliver ∧
     (∀ d, sr_outbox s' !! d =
        if decide (sr_conns s !! d = Some (Some to)) then (λ q, q ++ [deliver]) <$> sr_outbox s !! d
        else sr_outbox s !! d) ∧
     (((∃ d, listens s to d) ∨ mesh = false) → sr_mesh s' = sr_mesh s) ∧
     (¬ (∃ d, listens s to d) → mesh = true →
      sr_mesh s' = sr_mesh s ++ [mkMeshOutgoingPacket Stream node to payload])).
Proof.
  intros Hok Hc Hp s'. unfold s'. simpl. rewrite Hc. unfold on_packet. rewrite Hp. split.
  - intros Hne. by rewrite bool_decide_eq_true_2.
  - intros ->. rewrite bool_decide_eq_false_2 by (by intros []).
    destruct (deliver_local_total s frame node to payload Hp) as [[b s1] Hd]. rewrite Hd.
    destruct (parse_packet_send_len stream_magic eq_refl _ _ _ _ Hp) as [Hf _].
    assert (∃ d, stream_build_packet TYPE_DELIVER node "" payload = Some d) as [d Hb].
    { unfold stream_build_packet, build_packet. rewrite (proj2 (Nat.ltb_ge _ _)) by done.
      simpl. eauto. }
    exists d. split; [done|]. destruct (deliver_local_spec _ _ _ _ _ _ Hok Hd) as [Hany Hout].
    specialize (Hout d Hb). apply deliver_local_table in Hd as (_ & _ & _ & Em).
    destruct b.
    + split; [done|]. split; [done|]. intros Hno. by destruct Hno, Hany; auto.
    + destruct mesh; simpl; (split; [done|]); rewrite ?Em.
      * split; [|done]. intros [Hl|]; [|done]. by apply Hany in Hl.
      * done.
Qed.

(** ** Concrete instances *)

Definition reg_frame (id : string) : list byte :=
  default [] (stream_build_packet TYPE_REGISTER id "" []).
Definition send_frame (from to : string) : list byte :=
  default [] (stream_build_packet TYPE_SEND from to (bytes "hi")).

(** Two nodes, the second with two connections. *)
Definition two_nodes : list RelayEvent :=
  [Accept; Accept; Accept; FrameRead 1 (Some (reg_frame "a")); FrameRead 2 (Some (reg_frame "b"));
   FrameRead 3 (Some (reg_frame "b"))].

Lemma stream_send_spec_witness :
  let s := relay_run true two_nodes in
  ∃ deliver, stream_build_packet TYPE_DELIVER "a" "" (bytes "hi") = Some deliver ∧
    sr_outbox (relay_step true (FrameRead 1 (Some (send_frame "a" "b"))) s) !! 3 = Some [deliver].
Proof.
  intros s.
  destruct (stream_send_spec true s 1 "a" (send_frame "a" "b") "a" "b" (bytes "hi")) as [_ Hsend].
  - exact (table_ok_run true two_nodes).
  - vm_compute. reflexivity.
  - vm_compute. reflexivity.
  - destruct (Hsend eq_refl) as (d & Hd & Hout & _). exists d. split; [exact Hd|].
    rewrite (Hout 3). vm_compute. reflexivity.
Defined.
