(* ===== verification/UdpRelay.v ===== *)
(** * The UDP relay (src/udp_relay.rs)

    The relay remembers the address each node identifier was last seen at, passes
    packets on to the address of their target, and forgets addresses after five
    minutes.  Times are in seconds of the monotonic clock. *)

From S2P Require Import Prelude RustStd StdNet RelayCodec StreamRelay.

(** [SocketAddr] *)
Definition SocketAddr : Type := IpAddr * Z.

Definition PEER_TTL : Z := 300.

Record Peer : Type := mkPeer {
  peer_addr : SocketAddr;
  peer_last_seen : Z;
}.

(** The peer table, the datagrams sent and the packets handed to the mesh, oldest
    first. *)
Record UdpRelay : Type := mkUdpRelay {
  ur_peers : gmap string Peer;
  ur_sent : list (SocketAddr * list byte);
  ur_mesh : list MeshOutgoingPacket;
}.
#[export] Instance eta_UdpRelay : Eta UdpRelay := λ s,
  mkUdpRelay (ur_peers s) (ur_sent s) (ur_mesh s).

Definition upsert_peer (node_id : string) (addr : SocketAddr) (now : Z) (s : UdpRelay)
    : UdpRelay :=
  s <| ur_peers := <[node_id := mkPeer addr now]> (ur_peers s) |>.

(** [deliver_local]; [send_ok] is the outcome of [send_to], [None] the error of
    [build_packet]. *)
Definition udp_deliver_local (send_ok : bool) (from_id to_id : string) (payload : list byte)
    (s : UdpRelay) : option (bool * UdpRelay) :=
  match ur_peers s !! to_id with
  | Some peer =>
      deliver ← udp_build_packet TYPE_DELIVER from_id "" payload;
      Some (if send_ok : bool
            then (true, s <| ur_sent := ur_sent s ++ [(peer_addr peer, deliver)] |>)
            else (false, s))
  | None => Some (false, s)
  end.

(** One round of the loop of [run_with_mesh]; [None] when the loop ends with an error. *)
Definition udp_receive (mesh send_ok : bool) (buf : list byte) (addr : SocketAddr) (now : Z)
    (s : UdpRelay) : option UdpRelay :=
  match udp_parse_packet buf with
  | None => Some s
  | Some (Register node_id) => Some (upsert_peer node_id addr now s)
  | Some (Send from_id to_id payload) =>
      '(delivered, s) ← udp_deliver_local send_ok from_id to_id payload
                          (upsert_peer from_id addr now s);
      Some (if (delivered : bool) || negb mesh then s
            else s <| ur_mesh := ur_mesh s ++ [mkMeshOutgoingPacket Udp from_id to_id payload] |>)
  end.

(** One packet of [handle_mesh_deliveries], with the flag that is sent back. *)
Definition udp_from_mesh (send_ok : bool) (transport : MeshTransport) (from_id to_id : string)
    (payload : list byte) (s : UdpRelay) : bool * UdpRelay :=
  match transport with
  | Stream => (false, s)
  | Udp => match udp_deliver_local send_ok from_id to_id payload s with
           | Some r => r
           | None => (false, s)
           end
  end.

(** One round of [cleanup_loop]; the difference of two instants saturates at zero. *)
Definition udp_cleanup (now : Z) (s : UdpRelay) : UdpRelay :=
  s <| ur_peers := filter (λ kp, u_saturating_sub now (peer_last_seen kp.2) < PEER_TTL)
                     (ur_peers s) |>.

(** ** Theorems *)

(** Whatever datagram arrives, the relay keeps running.  A SEND packet makes the
    sender reachable at the address it came from; when the target is known, one DELIVER
    packet naming the sender goes to the address the target was last seen at, and the
    mesh gets nothing; when it is not known, nothing is sent, and the mesh gets the
    packet if there is one. *)
Theorem udp_send_spec mesh buf addr now s from to payload :
  udp_parse_packet buf = Some (Send from to payload) →
  let known := ur_peers (upsert_peer from addr now s) in
  ∃ deliver s', udp_receive mesh true buf addr now s = Some s' ∧
    udp_build_packet TYPE_DELIVER from "" payload = Some deliver ∧
    ur_peers s' = known ∧ known !! from = Some (mkPeer addr now) ∧
    match known !! to with
    | Some peer => ur_sent s' = ur_sent s ++ [(peer_addr peer, deliver)] ∧ ur_mesh s' = ur_mesh s
    | None => ur_sent s' = ur_sent s ∧
        ur_mesh s' = ur_mesh s ++
          (if mesh then [mkMeshOutgoingPacket Udp from to payload] else [])
    end.
Proof.
  intros Hp known. destruct (parse_packet_send_len udp_magic eq_refl _ _ _ _ Hp) as [Hf _].
  assert (∃ d, udp_build_packet TYPE_DELIVER from "" payload = Some d) as [d Hb].
  { unfold udp_build_packet, build_packet. rewrite (proj2 (Nat.ltb_ge _ _)) by done. simpl. eauto. }
  unfold udp_receive, udp_deliver_local. rewrite Hp. fold known. exists d.
  destruct (known !! to) as [peer|] eqn:Et.
  - rewrite Hb. cbn [mbind option_bind]. eexists. split; [done|]. split; [done|].
    split; [done|]. split; [apply lookup_insert_eq|]. done.
  - cbn [mbind option_bind]. eexists. split; [done|]. split; [done|].
    split; [by destruct mesh|]. split; [apply lookup_insert_eq|].
    destruct mesh; simpl; by rewrite ?app_nil_r.
Qed.

(** A clean-up forgets exactly the peers that were not heard of for 300 seconds. *)
Theorem udp_cleanup_spec now s k peer :
  ur_peers (udp_cleanup now s) !! k = Some peer ↔
  ur_peers s !! k = Some peer ∧ now - peer_last_seen peer < 300.
Proof.
  unfold udp_cleanup, u_saturating_sub, PEER_TTL. simpl. rewrite map_lookup_filter_Some. simpl.
  split; intros [? ?]; (split; [done|lia]).
Qed.

(** ** Concrete instances *)

Definition udp_send (from to : string) : list byte :=
  default [] (udp_build_packet TYPE_SEND from to (bytes "hi")).
Definition addr_b : SocketAddr := (V4 0x0a000002, 4000).
Definition addr_a : SocketAddr := (V4 0x0a000001, 4000).
Definition udp_b : UdpRelay := upsert_peer "b" addr_b 5 (mkUdpRelay ∅ [] []).

Lemma udp_send_spec_witness :
  ∃ deliver s', udp_receive true true (udp_send "a" "b") addr_a 9 udp_b = Some s' ∧
    ur_sent s' = [(addr_b, deliver)].
Proof.
  destruct (udp_send_spec true (udp_send "a" "b") addr_a 9 udp_b "a" "b" (bytes "hi"))
    as (d & s' & Hs & _ & _ & _ & Hm).
  - vm_compute. reflexivity.
  - exists d, s'. split; [exact Hs|]. exact (proj1 Hm).
Defined.
