(* ===== verification/Mesh.v ===== *)
(** * The server mesh (src/mesh.rs)

    Control-plane servers pass relay packets on to each other when the target is not
    connected locally.  A message carries an identifier and a hop count; a server
    forwards a message it has not seen, to the peer its target was last heard through,
    or to all peers.  Times are in milliseconds of the monotonic clock. *)

From S2P Require Import Prelude RustStd StdNet Externals RelayCodec StreamRelay.

Definition SEEN_TTL : Z := 120000.
Definition MAX_SEEN_IDS : nat := Z.to_nat 8192.
Definition ROUTE_TTL : Z := 300000.
Definition MAX_ROUTE_HINTS : nat := Z.to_nat 16384.

Inductive MeshFrame : Type :=
  | Hello (server_id : string)
  | Relay (message_id : string) (transport : MeshTransport) (from_id to_id payload_b64 : string)
      (hops_left : Z).

Record RouteHint : Type := mkRouteHint {
  rh_peer_id : string;
  rh_updated_at : Z;
}.

(** [MeshContext], with the channels: [mc_peers] has the connection of each peer,
    [mc_receivers] the connections whose channel still has a receiver, [mc_sent] what
    was put into channels, oldest first. *)
Record MeshContext : Type := mkMeshContext {
  mc_server_id : string;
  mc_max_hops : Z;
  mc_allowed_peers : gset string;
  mc_peers : gmap string Z;
  mc_seen_ids : gmap string Z;
  mc_route_hints : gmap string RouteHint;
  mc_receivers : gset Z;
  mc_sent : list (Z * MeshFrame);
}.
#[export] Instance eta_MeshContext : Eta MeshContext := λ m,
  mkMeshContext (mc_server_id m) (mc_max_hops m) (mc_allowed_peers m) (mc_peers m)
    (mc_seen_ids m) (mc_route_hints m) (mc_receivers m) (mc_sent m).

(** [now.duration_since(t)], which saturates at zero *)
Definition duration_since (now t : Z) : Z := u_saturating_sub now t.

(** The context that [start] makes: the allow list is the configured peers; an identifier
    of spaces and a hop limit of zero are refused. *)
Definition mesh_context (server_id : string) (max_hops : Z) (peers : list string)
    : option MeshContext :=
  if is_empty (trim server_id) then None
  else if max_hops =? 0 then None
  else Some (mkMeshContext server_id max_hops (list_to_set peers) ∅ ∅ ∅ ∅ []).

(** ** Connections *)

Definition validate_peer (m : MeshContext) (expected_peer : option string) (peer_id : string)
    : bool :=
  if is_empty peer_id then false
  else if bool_decide (peer_id = mc_server_id m) then false
  else if match expected_peer with
          | Some expected => bool_decide (expected ≠ peer_id)
          | None => false
          end then false
  else if bool_decide (mc_allowed_peers m = ∅) then false
  else bool_decide (peer_id ∈ mc_allowed_peers m).

(** [run_connection] up to its read loop: the hello is checked and the connection is
    entered for the peer; [None] when it is refused. *)
Definition open_connection (conn_id : Z) (expected_peer : option string) (hello : MeshFrame)
    (m : MeshContext) : option MeshContext :=
  match hello with
  | Relay _ _ _ _ _ _ => None
  | Hello peer_id =>
      if validate_peer m expected_peer peer_id then
        let m := m <| mc_peers := <[peer_id := conn_id]> (mc_peers m) |> in
        Some (m <| mc_receivers := {[conn_id]} ∪ mc_receivers m |>)
      else None
  end.

(** The end of [run_connection].  When the peer closes the connection the writer is
    stopped, and the entry is removed if it is still this connection's; an error of the
    reader returns before that. *)
Definition close_connection (read_error : bool) (conn_id : Z) (peer_id : string)
    (m : MeshContext) : MeshContext :=
  if read_error then m
  else
    let m := m <| mc_receivers := mc_receivers m ∖ {[conn_id]} |> in
    if bool_decide (mc_peers m !! peer_id = Some conn_id)
    then m <| mc_peers := delete peer_id (mc_peers m) |> else m.

(** The writer task stops when a write fails. *)
Definition writer_stopped (conn_id : Z) (m : MeshContext) : MeshContext :=
  m <| mc_receivers := mc_receivers m ∖ {[conn_id]} |>.

Section Tables.
Context `{HashOrder}.

(** The oldest entries beyond the limit are removed. *)
Definition evict_oldest {V} (stamp : V → Z) (limit : nat) (m : gmap string V) : gmap string V :=
  if (limit <? size m)%nat then
    let entries := sort_by_key snd ((λ kv, (kv.1, stamp kv.2)) <$> hm_iter m) in
    foldl (λ m e, delete e.1 m) m (take (size m - limit) entries)
  else m.

(** Both tables are trimmed in the same way after an insertion: first by age, then by
    number. *)
Definition trim_table {V} (stamp : V → Z) (ttl : Z) (limit : nat) (now : Z) (m : gmap string V)
    : gmap string V :=
  if (limit <? size m)%nat then
    evict_oldest stamp limit (filter (λ kv, duration_since now (stamp kv.2) <= ttl) m)
  else m.

Definition remember_message (message_id : string) (now : Z) (m : MeshContext)
    : bool * MeshContext :=
  let recent := match mc_seen_ids m !! message_id with
                | Some seen_at => duration_since now seen_at <? SEEN_TTL
                | None => false
                end in
  if recent then (false, m)
  else (true, m <| mc_seen_ids :=
          trim_table id SEEN_TTL MAX_SEEN_IDS now (<[message_id := now]> (mc_seen_ids m)) |>).

Definition learn_route (node_id peer_id : string) (now : Z) (m : MeshContext) : MeshContext :=
  if is_empty node_id || is_empty peer_id then m
  else m <| mc_route_hints :=
         trim_table rh_updated_at ROUTE_TTL MAX_ROUTE_HINTS now
           (<[node_id := mkRouteHint peer_id now]> (mc_route_hints m)) |>.

Definition lookup_route (node_id : string) (now : Z) (m : MeshContext)
    : option string * MeshContext :=
  match mc_route_hints m !! node_id with
  | Some route =>
      if duration_since now (rh_updated_at route) <=? ROUTE_TTL
      then (Some (rh_peer_id route), m)
      else (None, m <| mc_route_hints := delete node_id (mc_route_hints m) |>)
  | None => (None, m)
  end.

(** ** Forwarding *)

(** [tx.send(frame)], and whether the channel still had a receiver *)
Definition channel_send (conn : Z) (frame : MeshFrame) (m : MeshContext) : bool * MeshContext :=
  if decide (conn ∈ mc_receivers m)
  then (true, m <| mc_sent := mc_sent m ++ [(conn, frame)] |>) else (false, m).

Definition send_to_peer (peer_id : string) (frame : MeshFrame) (m : MeshContext)
    : bool * MeshContext :=
  match mc_peers m !! peer_id with
  | None => (false, m)
  | Some conn => channel_send conn frame m
  end.

Definition broadcast (exclude_peer : option string) (frame : MeshFrame) (m : MeshContext)
    : MeshContext :=
  foldl (λ m target,
    if bool_decide (exclude_peer = Some target.1) then m
    else (channel_send target.2 frame m).2) m (hm_iter (mc_peers m)).

Definition forward_to_target (exclude_peer : option string) (target_node_id : string)
    (frame : MeshFrame) (now : Z) (m : MeshContext) : MeshContext :=
  let '(route, m) := lookup_route target_node_id now m in
  let '(done, m) :=
    match route with
    | Some peer_id =>
        if bool_decide (exclude_peer ≠ Some peer_id) then send_to_peer peer_id frame m
        else (false, m)
    | None => (false, m)
    end in
  if done : bool then m else broadcast exclude_peer frame m.

Context `{Crates}.

(** [handle_frame]; [delivered] is the answer of the local relay, if one came in time.
    The clock is read three times, the last time after the local relay had its chance.
    The error of a payload that does not decode is only logged. *)
Definition handle_frame (source_peer : string) (frame : MeshFrame) (delivered : bool)
    (t_seen t_learn t_route : Z) (m : MeshContext) : MeshContext :=
  match frame with
  | Hello _ => m
  | Relay message_id transport from_id to_id payload_b64 hops_left =>
      let '(fresh, m) := remember_message message_id t_seen m in
      if negb fresh then m
      else
        let m := learn_route from_id source_peer t_learn m in
        match b64_decode payload_b64 with
        | None => m
        | Some payload =>
            if delivered || (hops_left =? 0) then m
            else
              let forwarded := Relay message_id transport from_id to_id (b64_encode payload)
                                 (u_saturating_sub hops_left 1) in
              forward_to_target (Some source_peer) to_id forwarded t_route m
        end
  end.

(** A packet of the local relays, in the task that [start] spawns. *)
Definition send_local (packet : MeshOutgoingPacket) (message_id : string) (t_seen t_route : Z)
    (m : MeshContext) : MeshContext :=
  let '(_, m) := remember_message message_id t_seen m in
  let frame := Relay message_id (mo_transport packet) (mo_from_id packet) (mo_to_id packet)
                 (b64_encode (mo_payload packet)) (mc_max_hops m) in
  forward_to_target None (mo_to_id packet) frame t_route m.

(** What happens to a server's mesh: connections come and go, frames arrive, and the
    local relays have packets to send. *)
Inductive MeshEvent : Type :=
  | EvOpen (conn_id : Z) (expected_peer : option string) (hello : MeshFrame)
  | EvClose (read_error : bool) (conn_id : Z) (peer_id : string)
  | EvWriterStopped (conn_id : Z)
  | EvFrame (source_peer : string) (frame : MeshFrame) (delivered : bool)
      (t_seen t_learn t_route : Z)
  | EvLocal (packet : MeshOutgoingPacket) (message_id : string) (t_seen t_route : Z).

Definition mesh_step (m : MeshContext) (e : MeshEvent) : MeshContext :=
  match e with
  | EvOpen conn_id expected_peer hello => default m (open_connection conn_id expected_peer hello m)
  | EvClose read_error conn_id peer_id => close_connection read_error conn_id peer_id m
  | EvWriterStopped conn_id => writer_stopped conn_id m
  | EvFrame source_peer frame delivered t_seen t_learn t_route =>
      handle_frame source_peer frame delivered t_seen t_learn t_route m
  | EvLocal packet message_id t_seen t_route => send_local packet message_id t_seen t_route m
  end.

Definition mesh_run (es : list MeshEvent) (m : MeshContext) : MeshContext := foldl mesh_step m es.
End Tables.

(** ** Who may connect *)

(** A connection is entered exactly for a peer that introduces itself by a non-empty
    identifier from the allow list, which is not this server's own and is the expected
    one when this server made the connection. *)
Lemma validate_peer_spec m expected peer_id :
  validate_peer m expected peer_id = true ↔
  peer_id ≠ "" ∧ peer_id ≠ mc_server_id m ∧ (∀ e, expected = Some e → e = peer_id) ∧
  peer_id ∈ mc_allowed_peers m.
Proof.
  unfold validate_peer, is_empty. case_bool_decide; [naive_solver|].
  case_bool_decide; [naive_solver|]. destruct expected as [e|].
  - case_bool_decide as He; [naive_solver|]. case_bool_decide as Hempty.
    + rewrite Hempty. set_solver.
    + rewrite bool_decide_eq_true. naive_solver.
  - case_bool_decide as Hempty; [rewrite Hempty; set_solver|].
    rewrite bool_decide_eq_true. naive_solver.
Qed.

(** An older connection that ends does not take down a newer one of the same peer:
    after any other connection was entered for the peer, closing the old one leaves the
    peer reachable through the new one. *)
Theorem reconnect_survives_close m m' c c' expected peer_id :
  open_connection c' expected (Hello peer_id) m = Some m' → c ≠ c' →
  mc_peers (close_connection false c peer_id m') !! peer_id = Some c' ∧
  c' ∈ mc_receivers (close_connection false c peer_id m').
Proof.
  unfold open_connection. destruct (validate_peer _ _ _); [|done]. intros [= <-] Hne.
  unfold close_connection. simpl. rewrite lookup_insert_eq.
  rewrite bool_decide_eq_false_2 by congruence. simpl. rewrite lookup_insert_eq. set_solver.
Qed.

(** A connection that ends with a read error is not cleaned up: the peer stays in the
    table, and what is sent to it counts as sent until a write to it fails. *)
Theorem read_error_keeps_peer m m' c expected peer_id frame :
  open_connection c expected (Hello peer_id) m = Some m' →
  (send_to_peer peer_id frame (close_connection true c peer_id m')).1 = true ∧
  (send_to_peer peer_id frame (close_connection false c peer_id m')).1 = false.
Proof.
  unfold open_connection. destruct (validate_peer _ _ _); [|done]. intros [= <-].
  unfold close_connection, send_to_peer, channel_send. simpl.
  rewrite lookup_insert_eq, bool_decide_eq_true_2 by done. simpl.
  rewrite lookup_delete_eq. rewrite decide_True by set_solver. done.
Qed.

(** ** Table sizes *)
Section Sizes.
Context `{HashOrder}.

Lemma size_delete_all {V} (m : gmap string V) (ks : list string) :
  NoDup ks → (∀ k, k ∈ ks → is_Some (m !! k)) →
  size (foldl (λ m k, delete k m) m ks) = (size m - length ks)%nat.
Proof.
  revert m. induction ks as [|k ks IH]; intros m Hnd Hin; simpl; [lia|].
  apply NoDup_cons in Hnd as [Hk Hnd]. rewrite IH; [|done|].
  - destruct (Hin k) as [v Hv]; [set_solver|]. rewrite map_size_delete_Some by eauto. lia.
  - intros j Hj. rewrite lookup_delete_ne by set_solver. apply Hin. set_solver.
Qed.

(** The keys in the order of eviction, and the effect of the loop on them. *)
Definition by_age {V} (stamp : V → Z) (m : gmap string V) : list (string * Z) :=
  sort_by_key snd ((λ kv, (kv.1, stamp kv.2)) <$> hm_iter m).

Lemma by_age_elem {V} (stamp : V → Z) (m : gmap string V) k t :
  (k, t) ∈ by_age stamp m ↔ ∃ v, m !! k = Some v ∧ stamp v = t.
Proof.
  unfold by_age. rewrite sort_by_key_perm, list_elem_of_fmap. split.
  - intros ([k' v] & [= -> ->] & Hin%elem_of_hm_iter). eauto.
  - intros (v & Hv & <-). exists (k, v). by rewrite elem_of_hm_iter.
Qed.

Lemma by_age_keys {V} (stamp : V → Z) (m : gmap string V) :
  (by_age stamp m).*1 ≡ₚ (map_to_list m).*1.
Proof. unfold by_age. by rewrite sort_by_key_perm, <- list_fmap_compose, hm_iter_perm. Qed.

Lemma by_age_nodup {V} (stamp : V → Z) (m : gmap string V) : NoDup (by_age stamp m).*1.
Proof. rewrite by_age_keys. apply NoDup_fst_map_to_list. Qed.

Lemma by_age_length {V} (stamp : V → Z) (m : gmap string V) : length (by_age stamp m) = size m.
Proof.
  rewrite <- (length_fmap fst), by_age_keys, length_fmap. apply length_map_to_list.
Qed.

Lemma evict_oldest_keys {V} (stamp : V → Z) limit (m : gmap string V) :
  evict_oldest stamp limit m =
  foldl (λ m k, delete k m) m (take (size m - limit) (by_age stamp m)).*1.
Proof.
  unfold evict_oldest. destruct (Nat.ltb_spec limit (size m)).
  - fold (by_age stamp m). generalize (take (size m - limit) (by_age stamp m)) as l.
    intros l. clear. revert m. induction l as [|e l IH]; intros m; [done|]. apply IH.
  - by replace (size m - limit)%nat with 0%nat by lia.
Qed.

Lemma evict_oldest_size {V} (stamp : V → Z) limit (m : gmap string V) :
  (size (evict_oldest stamp limit m) ≤ limit)%nat.
Proof.
  rewrite evict_oldest_keys, size_delete_all.
  - rewrite length_fmap, length_take, by_age_length. lia.
  - eapply sublist_NoDup; [apply (by_age_nodup stamp m)|].
    rewrite fmap_take. apply sublist_take.
  - intros x Hx. apply list_elem_of_fmap in Hx as ([x' t] & -> & Hx).
    apply elem_of_take in Hx as (i & Hi & _). apply list_elem_of_lookup_2 in Hi.
    apply by_age_elem in Hi as (v & Hv & _). simpl. eauto.
Qed.

Lemma delete_all_lookup {V} (m : gmap string V) (ks : list string) k :
  k ∉ ks → foldl (λ m k, delete k m) m ks !! k = m !! k.
Proof.
  revert m. induction ks as [|j ks IH]; intros m Hk; [done|]. simpl.
  rewrite IH by set_solver. apply lookup_delete_ne. set_solver.
Qed.

Lemma sorted_lookup {A} (R : A → A → Prop) l :
  StronglySorted R l → ∀ i j x y, l !! i = Some x → l !! j = Some y → (i < j)%nat → R x y.
Proof.
  induction 1 as [|z l Hs IH Hz]; intros [|i] [|j] x y Hi Hj Hlt; simpl in *; try done; try lia.
  - injection Hi as <-. rewrite Forall_lookup in Hz. eauto.
  - eapply IH; eauto. lia.
Qed.

(** An entry newer than all others is not evicted, as long as one entry may stay. *)
Lemma evict_oldest_newest {V} (stamp : V → Z) limit (m : gmap string V) k v :
  (0 < limit)%nat → m !! k = Some v →
  (∀ k' v', m !! k' = Some v' → k' ≠ k → stamp v' < stamp v) →
  evict_oldest stamp limit m !! k = Some v.
Proof.
  intros Hlimit Hk Hnewest. rewrite evict_oldest_keys, delete_all_lookup; [done|].
  intros Hin. apply list_elem_of_fmap in Hin as ([k' t] & -> & Hin). simpl in *.
  apply elem_of_take in Hin as (i & Hi & Hlt).
  pose proof (by_age_length stamp m) as Hlen.
  destruct (lookup_lt_is_Some_2 (by_age stamp m) (size m - 1)) as [[k2 t2] Hlast]; [lia|].
  assert (t = stamp v) as ->.
  { apply list_elem_of_lookup_2, by_age_elem in Hi. naive_solver. }
  assert (stamp v ≤ t2) as Hle.
  { refine (sorted_lookup _ _ (sort_by_key_sorted snd _) i _ _ _ Hi Hlast _). lia. }
  pose proof Hlast as Hmem. apply list_elem_of_lookup_2, by_age_elem in Hmem as (v2 & Hv2 & <-).
  destruct (decide (k2 = k')) as [->|Hne]; [|pose proof (Hnewest k2 v2 Hv2 Hne); lia].
  assert (i = (size m - 1)%nat); [|lia].
  apply (NoDup_lookup _ _ _ k' (by_age_nodup stamp m)); rewrite list_lookup_fmap;
    [by rewrite Hi|by rewrite Hlast].
Qed.

Lemma trim_table_size {V} (stamp : V → Z) ttl limit now (m : gmap string V) :
  (size (trim_table stamp ttl limit now m) ≤ limit)%nat.
Proof.
  unfold trim_table. destruct (Nat.ltb_spec limit (size m)); [apply evict_oldest_size|lia].
Qed.

Lemma trim_table_newest {V} (stamp : V → Z) ttl limit now (m : gmap string V) k v :
  (0 < limit)%nat → 0 ≤ ttl → stamp v = now → m !! k = Some v →
  (∀ k' v', m !! k' = Some v' → k' ≠ k → stamp v' < now) →
  trim_table stamp ttl limit now m !! k = Some v.
Proof.
  intros Hlimit Httl Hv Hk Hnewest. unfold trim_table. destruct (_ <? _)%nat; [|done].
  apply evict_oldest_newest; [done| |].
  - apply map_lookup_filter_Some_2; [done|]. simpl.
    unfold duration_since, u_saturating_sub. lia.
  - intros k' v' Hk' Hne. rewrite Hv.
    apply map_lookup_filter_Some in Hk' as [Hk' _]. eauto.
Qed.

Lemma map_size_insert_le {V} (k : string) (v : V) (m : gmap string V) :
  (size (<[k := v]> m) ≤ S (size m))%nat.
Proof. rewrite map_size_insert. destruct (m !! k); simpl; lia. Qed.

Lemma trim_table_room {V} (stamp : V → Z) ttl limit now (m : gmap string V) :
  (size m ≤ limit)%nat → trim_table stamp ttl limit now m = m.
Proof. intros Hm. unfold trim_table. by destruct (Nat.ltb_spec limit (size m)); [lia|]. Qed.
End Sizes.

(** ** What is forwarded, and to whom *)
Section Forwarding.
Context `{HashOrder} `{Crates}.

(** The live connections of the peers other than the excluded one. *)
Definition others (exclude_peer : option string) (m : MeshContext) : list Z :=
  omap (λ target, if bool_decide (exclude_peer = Some target.1) then None
                  else if decide (target.2 ∈ mc_receivers m) then Some target.2 else None)
    (hm_iter (mc_peers m)).

Lemma elem_of_others ex m c :
  c ∈ others ex m ↔ ∃ p, mc_peers m !! p = Some c ∧ ex ≠ Some p ∧ c ∈ mc_receivers m.
Proof.
  unfold others. rewrite list_elem_of_omap. split.
  - intros ([p c'] & Hin%elem_of_hm_iter & Heq). simpl in Heq.
    case_bool_decide; [done|]. case_decide; [|done]. injection Heq as <-. eauto.
  - intros (p & Hp & Hex & Hc). exists (p, c). rewrite elem_of_hm_iter. simpl.
    rewrite bool_decide_eq_false_2, decide_True by done. done.
Qed.

Lemma broadcast_sent ex frame m :
  broadcast ex frame m =
  m <| mc_sent := mc_sent m ++ ((λ c, (c, frame)) <$> others ex m) |>.
Proof.
  unfold broadcast, others. generalize (hm_iter (mc_peers m)) as l. intros l. revert m.
  induction l as [|[p c] l IH]; intros m; simpl; [rewrite app_nil_r; by destruct m|].
  case_bool_decide; [apply IH|]. unfold channel_send at 2. simpl. case_decide; [|apply IH].
  simpl. rewrite IH. simpl. by rewrite <- app_assoc.
Qed.

(** Forwarding takes the hint for the target, if it leads to a live connection that is
    not excluded, and otherwise all other peers; nothing but the hint changes. *)
Definition forward_conns (ex : option string) (to_id : string) (now : Z) (m : MeshContext)
    : list Z :=
  match (lookup_route to_id now m).1 with
  | Some p =>
      match mc_peers m !! p with
      | Some c => if bool_decide (ex ≠ Some p ∧ c ∈ mc_receivers m) then [c] else others ex m
      | None => others ex m
      end
  | None => others ex m
  end.

Lemma forward_sent ex to_id frame now m :
  forward_to_target ex to_id frame now m =
  (lookup_route to_id now m).2
    <| mc_sent := mc_sent m ++ ((λ c, (c, frame)) <$> forward_conns ex to_id now m) |>.
Proof.
  unfold forward_to_target, forward_conns.
  assert (mc_peers (lookup_route to_id now m).2 = mc_peers m ∧
          mc_receivers (lookup_route to_id now m).2 = mc_receivers m ∧
          mc_sent (lookup_route to_id now m).2 = mc_sent m) as (Hp & Hr & Hs).
  { unfold lookup_route. by destruct (mc_route_hints m !! to_id); [destruct (_ <=? _)|]. }
  destruct (lookup_route to_id now m) as [route m'] eqn:Hroute. simpl in *.
  assert (others ex m' = others ex m) as Ho. { unfold others. by rewrite Hp, Hr. }
  destruct route as [p|]; [|by rewrite broadcast_sent, Ho, Hs].
  unfold send_to_peer, channel_send. rewrite Hp, Hr, Hs.
  destruct (mc_peers m !! p) as [c|] eqn:Hc.
  - destruct (decide (ex = Some p)) as [->|Hne].
    + rewrite (bool_decide_eq_false_2 (Some p ≠ Some p)) by naive_solver.
      rewrite bool_decide_eq_false_2 by naive_solver. by rewrite broadcast_sent, Ho, Hs, ?Hp, ?Hr.
    + rewrite (bool_decide_eq_true_2 (ex ≠ Some p)) by done. case_decide.
      * by rewrite bool_decide_eq_true_2 by done.
      * rewrite bool_decide_eq_false_2 by naive_solver. by rewrite broadcast_sent, Ho, Hs, ?Hp, ?Hr.
  - by case_bool_decide; rewrite broadcast_sent, Ho, Hs, ?Hp, ?Hr.
Qed.

Lemma forward_conns_peers ex to_id now m c :
  c ∈ forward_conns ex to_id now m →
  ∃ p, mc_peers m !! p = Some c ∧ ex ≠ Some p ∧ c ∈ mc_receivers m.
Proof.
  unfold forward_conns. destruct (lookup_route _ _ _).1 as [p|]; [|by rewrite elem_of_others].
  destruct (mc_peers m !! p) as [c'|] eqn:Hp; [|by rewrite elem_of_others].
  case_bool_decide; [|by rewrite elem_of_others]. intros ->%list_elem_of_singleton. naive_solver.
Qed.

Lemma forward_conns_cases source to_id now m :
  let conns := forward_conns (Some source) to_id now m in
  (∃ p c, (lookup_route to_id now m).1 = Some p ∧ mc_peers m !! p = Some c ∧ conns = [c]) ∨
  (∀ p c, mc_peers m !! p = Some c → p ≠ source → c ∈ mc_receivers m → c ∈ conns).
Proof.
  assert (∀ p c, mc_peers m !! p = Some c → p ≠ source → c ∈ mc_receivers m →
    c ∈ others (Some source) m) as Hall by (intros; apply elem_of_others; naive_solver).
  unfold forward_conns. destruct (lookup_route _ _ _).1 as [p|]; [|by right].
  destruct (mc_peers m !! p) as [c|] eqn:Hp; [|by right].
  case_bool_decide; [left; eauto|by right].
Qed.

Lemma lookup_route_peers to_id now m : mc_peers (lookup_route to_id now m).2 = mc_peers m.
Proof. unfold lookup_route. by destruct (mc_route_hints m !! to_id); [destruct (_ <=? _)|]. Qed.

Lemma forward_conns_seen ex to_id from_id source t2 t3 m seen :
  forward_conns ex to_id t3 (learn_route from_id source t2 (m <| mc_seen_ids := seen |>)) =
  forward_conns ex to_id t3 (learn_route from_id source t2 m).
Proof.
  unfold learn_route. destruct (_ || _); unfold forward_conns, lookup_route, others; simpl;
    destruct (_ !! to_id); try done; by destruct (_ <=? _).
Qed.

(** [remember_message] answers whether the message is new: not seen, or not lately. *)
Definition seen_lately (message_id : string) (now : Z) (m : MeshContext) : bool :=
  match mc_seen_ids m !! message_id with
  | Some seen_at => duration_since now seen_at <? SEEN_TTL
  | None => false
  end.

Lemma remember_fresh message_id now m :
  (remember_message message_id now m).1 = negb (seen_lately message_id now m).
Proof.
  unfold remember_message. fold (seen_lately message_id now m). by destruct (seen_lately _ _ _).
Qed.

Lemma remember_rest message_id now m :
  ∃ seen, (remember_message message_id now m).2 = m <| mc_seen_ids := seen |>.
Proof.
  unfold remember_message. fold (seen_lately message_id now m).
  destruct (seen_lately _ _ _); simpl; [|by eexists].
  exists (mc_seen_ids m). by destruct m.
Qed.

Lemma learn_rest node_id peer_id now m :
  ∃ hints, learn_route node_id peer_id now m = m <| mc_route_hints := hints |>.
Proof.
  unfold learn_route. destruct (_ || _); [|by eexists].
  exists (mc_route_hints m). by destruct m.
Qed.

(** What the server passes on of a frame it received. *)
Definition passed_on (frame : MeshFrame) : option MeshFrame :=
  match frame with
  | Hello _ => None
  | Relay message_id transport from_id to_id payload_b64 hops_left =>
      payload ← b64_decode payload_b64;
      if hops_left =? 0 then None
      else Some (Relay message_id transport from_id to_id (b64_encode payload)
                   (u_saturating_sub hops_left 1))
  end.

(** The connections a received frame goes to, if it can be passed on at all *)
Definition frame_conns (source : string) (frame : MeshFrame) (delivered : bool) (t1 t2 t3 : Z)
    (m : MeshContext) : list Z :=
  match frame with
  | Hello _ => []
  | Relay message_id _ from_id to_id _ _ =>
      if seen_lately message_id t1 m || delivered then []
      else forward_conns (Some source) to_id t3 (learn_route from_id source t2 m)
  end.

Lemma handle_frame_sent source frame delivered t1 t2 t3 m :
  let m' := handle_frame source frame delivered t1 t2 t3 m in
  mc_peers m' = mc_peers m ∧
  mc_sent m' = mc_sent m ++
    match passed_on frame with
    | Some f => (λ c, (c, f)) <$> frame_conns source frame delivered t1 t2 t3 m
    | None => []
    end.
Proof.
  destruct frame as [|message_id tr from_id to_id b64 hops]; simpl; [by rewrite app_nil_r|].
  pose proof (remember_fresh message_id t1 m) as Hfresh.
  destruct (remember_rest message_id t1 m) as [seen Hrest].
  destruct (remember_message message_id t1 m) as [fresh m1]. simpl in Hfresh, Hrest.
  rewrite Hfresh, negb_involutive. clear Hfresh fresh. destruct (seen_lately message_id t1 m).
  { subst m1. split; [done|]. simpl.
    destruct (b64_decode b64); simpl; [destruct (_ =? _); simpl|]; by rewrite app_nil_r. }
  rewrite <- (forward_conns_seen _ _ _ _ _ _ m seen), <- Hrest. simpl.
  destruct (learn_rest from_id source t2 m1) as [hints Hlearn].
  set (m2 := learn_route from_id source t2 m1) in *.
  assert (mc_peers m = mc_peers m2 ∧ mc_sent m = mc_sent m2) as [-> ->]
    by (by rewrite Hlearn, Hrest).
  destruct (b64_decode b64), delivered, (hops =? 0); simpl; rewrite ?app_nil_r; try done.
  rewrite forward_sent. split; [apply lookup_route_peers|done].
Qed.

(** A frame is passed on exactly when it is new, could not be delivered here, has
    hops left and decodes: then to the connection the target was last heard through,
    or else to every peer; never back to the peer it came from; always with one hop
    less.  In every other case nothing is sent. *)
Theorem mesh_forward_spec source frame delivered t1 t2 t3 m :
  let m' := handle_frame source frame delivered t1 t2 t3 m in
  ∃ conns,
  mc_sent m' = mc_sent m ++ match passed_on frame with
                            | Some f => (λ c, (c, f)) <$> conns
                            | None => []
                            end ∧
  (∀ c, c ∈ conns → ∃ p, mc_peers m !! p = Some c ∧ p ≠ source ∧ c ∈ mc_receivers m) ∧
  match frame with
  | Hello _ => True
  | Relay message_id _ from_id to_id _ _ =>
      if seen_lately message_id t1 m || delivered then conns = []
      else
        let hint := (lookup_route to_id t3 (learn_route from_id source t2 m)).1 in
        (∃ p c, hint = Some p ∧ mc_peers m !! p = Some c ∧ conns = [c]) ∨
        (∀ p c, mc_peers m !! p = Some c → p ≠ source → c ∈ mc_receivers m → c ∈ conns)
  end.
Proof.
  exists (frame_conns source frame delivered t1 t2 t3 m).
  split; [apply handle_frame_sent|].
  destruct frame as [|message_id tr from_id to_id b64 hops]; simpl; [split; [set_solver|done]|].
  destruct (_ || _); [split; [set_solver|done]|].
  pose proof (forward_conns_cases source to_id t3 (learn_route from_id source t2 m)) as Hcases.
  destruct (learn_rest from_id source t2 m) as [hints Hlearn]. rewrite Hlearn in *.
  split; [|done]. intros c Hc%forward_conns_peers. naive_solver.
Qed.
End Forwarding.

(** ** The tables of a running server *)
Section Running.
Context `{HashOrder} `{Crates} (server_id : string) (max_hops : Z) (peers : list string).

(** The tables stay within their limits, and only allowed peers are connected. *)
Record mesh_inv (m : MeshContext) : Prop := {
  mi_seen : (size (mc_seen_ids m) ≤ MAX_SEEN_IDS)%nat;
  mi_routes : (size (mc_route_hints m) ≤ MAX_ROUTE_HINTS)%nat;
  mi_config : mc_server_id m = server_id ∧ mc_allowed_peers m = list_to_set peers;
  mi_peers : ∀ p, is_Some (mc_peers m !! p) → p ∈ peers ∧ p ≠ server_id;
}.

Lemma remember_inv message_id now m :
  mesh_inv m → mesh_inv (remember_message message_id now m).2.
Proof.
  intros []. unfold remember_message. fold (seen_lately message_id now m).
  destruct (seen_lately _ _ _); split; simpl; auto. apply trim_table_size.
Qed.

Lemma learn_inv node_id peer_id now m : mesh_inv m → mesh_inv (learn_route node_id peer_id now m).
Proof.
  intros []. unfold learn_route. destruct (_ || _); split; simpl; auto. apply trim_table_size.
Qed.

Lemma forward_inv ex to_id frame now m :
  mesh_inv m → mesh_inv (forward_to_target ex to_id frame now m).
Proof.
  intros []. rewrite forward_sent. unfold lookup_route.
  destruct (_ !! to_id); [destruct (_ <=? _)|]; split; simpl; auto.
  etrans; [apply map_subseteq_size, delete_subseteq|done].
Qed.

Lemma mesh_step_inv m e : mesh_inv m → mesh_inv (mesh_step m e).
Proof.
  intros Hm. destruct e as [c ex hello|err c p|c|src frame del t1 t2 t3|pk id t1 t2]; simpl.
  - destruct hello as [p|]; simpl; [|done]. destruct (validate_peer m ex p) eqn:Hv; [|done].
    apply validate_peer_spec in Hv as (_ & Hne & _ & Hin). destruct Hm as [? ? [Hid Hall] ?].
    rewrite Hall, elem_of_list_to_set in Hin.
    split; simpl; auto. intros q [->|[_ Hq]]%lookup_insert_is_Some; [|auto]. by rewrite <- Hid.
  - unfold close_connection. destruct err; [done|]. destruct Hm.
    case_bool_decide; split; simpl; auto. intros q [_ Hq]%lookup_delete_is_Some. auto.
  - by destruct Hm.
  - destruct frame as [|id tr f t b64 hops]; simpl; [done|].
    pose proof (remember_inv id t1 m Hm) as Hr.
    destruct (remember_message id t1 m) as [fresh m1]. destruct fresh; simpl in *; [|done].
    apply (learn_inv f src t2) in Hr. destruct (b64_decode b64); [|done].
    destruct (_ || _); [done|]. by apply forward_inv.
  - unfold send_local. pose proof (remember_inv id t1 m Hm) as Hr.
    destruct (remember_message id t1 m) as [fresh m1]. by apply forward_inv.
Qed.

(** C32. However long a server runs, and whatever its peers send, its table of seen
    messages and its table of routes stay within their limits, and every peer it can
    send to is one of the configured ones. *)
Theorem mesh_tables_bounded m es :
  mesh_context server_id max_hops peers = Some m →
  (size (mc_seen_ids (mesh_run es m)) ≤ MAX_SEEN_IDS)%nat ∧
  (size (mc_route_hints (mesh_run es m)) ≤ MAX_ROUTE_HINTS)%nat ∧
  (∀ p, is_Some (mc_peers (mesh_run es m) !! p) → p ∈ peers ∧ p ≠ server_id).
Proof.
  intros Hstart. assert (mesh_inv m) as Hm.
  { unfold mesh_context in Hstart. destruct (is_empty _); [done|]. destruct (_ =? _); [done|].
    injection Hstart as <-. split; simpl; [rewrite map_size_empty; lia..|done|].
    intros p [c Hc]. by rewrite lookup_empty in Hc. }
  clear Hstart. unfold mesh_run. revert m Hm. induction es as [|e es IH]; intros m Hm; simpl.
  - by destruct Hm.
  - apply IH. by apply mesh_step_inv.
Qed.
End Running.

(** ** A message is handled once, and travels a bounded way *)
Section Messages.
Context `{HashOrder} `{Crates}.

(** What an event does to the table of seen messages *)
Definition remember_in (message_id : string) (now : Z) (seen : gmap string Z) : gmap string Z :=
  match seen !! message_id with
  | Some seen_at => if duration_since now seen_at <? SEEN_TTL then seen else
      trim_table id SEEN_TTL MAX_SEEN_IDS now (<[message_id := now]> seen)
  | None => trim_table id SEEN_TTL MAX_SEEN_IDS now (<[message_id := now]> seen)
  end.

Definition remembered (seen : gmap string Z) (e : MeshEvent) : gmap string Z :=
  match e with
  | EvFrame _ (Relay message_id _ _ _ _ _) _ t_seen _ _ => remember_in message_id t_seen seen
  | EvLocal _ message_id t_seen _ => remember_in message_id t_seen seen
  | _ => seen
  end.

Lemma remember_seen message_id now m :
  mc_seen_ids (remember_message message_id now m).2 = remember_in message_id now (mc_seen_ids m).
Proof.
  unfold remember_message, remember_in. destruct (mc_seen_ids m !! message_id); [|done].
  by destruct (_ <? _).
Qed.

Lemma learn_seen node_id peer_id now m :
  mc_seen_ids (learn_route node_id peer_id now m) = mc_seen_ids m.
Proof. unfold learn_route. by destruct (_ || _). Qed.

Lemma forward_seen ex to_id frame now m :
  mc_seen_ids (forward_to_target ex to_id frame now m) = mc_seen_ids m.
Proof.
  rewrite forward_sent. unfold lookup_route. by destruct (_ !! to_id); [destruct (_ <=? _)|].
Qed.

Lemma mesh_step_seen m e : mc_seen_ids (mesh_step m e) = remembered (mc_seen_ids m) e.
Proof.
  destruct e as [c ex hello|err c p|c|src frame del t1 t2 t3|pk id t1 t2]; simpl.
  - destruct hello; simpl; [|done]. by destruct (validate_peer _ _ _).
  - unfold close_connection. destruct err; [done|]. by case_bool_decide.
  - done.
  - destruct frame as [|id tr f t b64 hops]; simpl; [done|].
    rewrite <- (remember_seen id t1 m). destruct (remember_message id t1 m) as [[] m1]; [|done].
    simpl. destruct (b64_decode b64); [|by rewrite learn_seen].
    destruct (_ || _); by rewrite ?forward_seen, learn_seen.
  - unfold send_local. rewrite <- (remember_seen id t1 m).
    destruct (remember_message id t1 m) as [fresh m1]. by rewrite forward_seen.
Qed.

(** With room in the table, an event adds at most one entry and forgets none; a
    timestamp only ever grows. *)
Lemma remember_in_room message_id now seen :
  (size seen < MAX_SEEN_IDS)%nat →
  (size (remember_in message_id now seen) ≤ S (size seen))%nat ∧
  (∀ k t, seen !! k = Some t → ∃ t', remember_in message_id now seen !! k = Some t' ∧ t ≤ t').
Proof.
  intros Hroom. pose proof (map_size_insert_le message_id now seen) as Hsize.
  unfold remember_in. rewrite trim_table_room by lia.
  assert (∀ k t, seen !! k = Some t → k ≠ message_id →
    ∃ t', <[message_id := now]> seen !! k = Some t' ∧ t ≤ t') as Hother.
  { intros k t Hk Hne. exists t. by rewrite lookup_insert_ne. }
  destruct (seen !! message_id) as [t0|] eqn:Ht0.
  - destruct (Z.ltb_spec (duration_since now t0) SEEN_TTL) as [|Hold].
    { split; [lia|]. intros k t Hk. by exists t. }
    split; [lia|]. intros k t Hk. destruct (decide (k = message_id)) as [->|Hne].
    + exists now. rewrite lookup_insert_eq. split; [done|].
      unfold duration_since, u_saturating_sub, SEEN_TTL in Hold. rewrite Ht0 in Hk.
      injection Hk as <-. lia.
    + eauto.
  - split; [lia|]. intros k t Hk. apply Hother; [done|]. congruence.
Qed.

Lemma remembered_room seen e :
  (size seen < MAX_SEEN_IDS)%nat →
  (size (remembered seen e) ≤ S (size seen))%nat ∧
  (∀ k t, seen !! k = Some t → ∃ t', remembered seen e !! k = Some t' ∧ t ≤ t').
Proof.
  intros Hroom. destruct e as [| | |? [] ? ? ? ?|]; simpl; try (split; [lia|]; intros k t Hk; by exists t);
    by apply remember_in_room.
Qed.

Lemma run_remembers es m k t :
  (size (mc_seen_ids m) + length es ≤ MAX_SEEN_IDS)%nat → mc_seen_ids m !! k = Some t →
  ∃ t', mc_seen_ids (mesh_run es m) !! k = Some t' ∧ t ≤ t'.
Proof.
  unfold mesh_run. revert m t. induction es as [|e es IH]; intros m t Hroom Hk; simpl in *.
  { by exists t. }
  destruct (remembered_room (mc_seen_ids m) e ltac:(lia)) as [Hsize Hkeep].
  rewrite <- mesh_step_seen in Hsize, Hkeep. destruct (Hkeep k t Hk) as (t' & Ht' & ?).
  destruct (IH (mesh_step m e) t') as (t'' & ? & ?); [lia|done|]. exists t''. split; [done|lia].
Qed.

(** C29. A message is handled at most once: after its first arrival, whatever else
    happens meanwhile, a copy that arrives within two minutes from any peer changes
    nothing and is not sent on, as long as the table of seen messages did not fill up. *)
Theorem duplicate_suppressed m src src' id tr tr' from from' to to' b64 b64' hops hops' del del'
    t1 t2 t3 t1' t2' t3' es :
  (size (mc_seen_ids m) + length es < MAX_SEEN_IDS)%nat → t1' < t1 + SEEN_TTL →
  let m1 := handle_frame src (Relay id tr from to b64 hops) del t1 t2 t3 m in
  seen_lately id t1 m = false →
  handle_frame src' (Relay id tr' from' to' b64' hops') del' t1' t2' t3' (mesh_run es m1) =
  mesh_run es m1.
Proof.
  intros Hroom Ht m1 Hnew.
  pose proof (mesh_step_seen m (EvFrame src (Relay id tr from to b64 hops) del t1 t2 t3)) as Hseen.
  change (mc_seen_ids m1 = remember_in id t1 (mc_seen_ids m)) in Hseen.
  assert (mc_seen_ids m1 = <[id := t1]> (mc_seen_ids m)) as Hins.
  { rewrite Hseen. unfold remember_in. unfold seen_lately in Hnew.
    pose proof (map_size_insert_le id t1 (mc_seen_ids m)). rewrite trim_table_room by lia.
    by destruct (mc_seen_ids m !! id) as [t0|]; [rewrite Hnew|]. }
  destruct (run_remembers es m1 id t1) as (t' & Ht' & Hle).
  { rewrite Hins. pose proof (map_size_insert_le id t1 (mc_seen_ids m)). lia. }
  { by rewrite Hins, lookup_insert_eq. }
  unfold handle_frame, remember_message. rewrite Ht'.
  replace (duration_since t1' t' <? SEEN_TTL) with true; [done|].
  symmetry. apply Z.ltb_lt. unfold duration_since, u_saturating_sub, SEEN_TTL in *. lia.
Qed.

(** Even a full table remembers the message that was just entered: as long as the
    clock moved on since every earlier entry, what is evicted is something older. *)
Theorem full_table_remembers id t t' m :
  (∀ k s, mc_seen_ids m !! k = Some s → s < t) → t' < t + SEEN_TTL →
  let m1 := (remember_message id t m).2 in
  seen_lately id t m = false → (remember_message id t' m1).1 = false.
Proof.
  intros Hclock Ht m1 Hnew. rewrite remember_fresh. unfold seen_lately.
  assert (mc_seen_ids m1 !! id = Some t) as ->.
  { unfold m1. rewrite remember_seen. unfold remember_in, seen_lately in *.
    assert (trim_table Datatypes.id SEEN_TTL MAX_SEEN_IDS t (<[id:=t]> (mc_seen_ids m)) !! id
            = Some t) as Htrim.
    { apply trim_table_newest; try done; [unfold MAX_SEEN_IDS; lia|apply lookup_insert_eq|].
      intros k s Hk Hne. rewrite lookup_insert_ne in Hk by done. eauto. }
    by destruct (mc_seen_ids m !! id); [rewrite Hnew|]. }
  unfold duration_since, u_saturating_sub, SEEN_TTL in *.
  destruct (Z.ltb_spec (Z.max 0 (t' - t)) 120000); [done|lia].
Qed.
End Messages.

(** ** The way back *)
Section Replies.
Context `{HashOrder} `{Crates}.

(** The server knows that [node] was heard through [peer], at time [t] or later. *)
Definition heard (node peer : string) (t : Z) (hints : gmap string RouteHint) : Prop :=
  ∃ hint, hints !! node = Some hint ∧ rh_peer_id hint = peer ∧ t ≤ rh_updated_at hint.

(** An event that does not make the server hear [node] through another peer, and looks
    for a route while what was heard at [t] is current. *)
Definition undisturbed (node peer : string) (t : Z) (e : MeshEvent) : Prop :=
  match e with
  | EvFrame source (Relay _ _ from_id _ _ _) _ _ t_learn t_route =>
      (from_id = node → source = peer ∧ t ≤ t_learn) ∧ t_route ≤ t + ROUTE_TTL
  | EvLocal _ _ _ t_route => t_route ≤ t + ROUTE_TTL
  | _ => True
  end.

Lemma learn_hints node_id peer_id now m :
  node_id ≠ "" → peer_id ≠ "" → (size (mc_route_hints m) < MAX_ROUTE_HINTS)%nat →
  mc_route_hints (learn_route node_id peer_id now m) =
    <[node_id := mkRouteHint peer_id now]> (mc_route_hints m).
Proof.
  intros Hn Hp Hroom. unfold learn_route, is_empty. rewrite !bool_decide_eq_false_2 by done. simpl.
  apply trim_table_room. etrans; [apply map_size_insert_le|lia].
Qed.

Lemma learn_heard node peer t from_id source now m :
  (size (mc_route_hints m) < MAX_ROUTE_HINTS)%nat →
  (from_id = node → source = peer ∧ t ≤ now) → heard node peer t (mc_route_hints m) →
  heard node peer t (mc_route_hints (learn_route from_id source now m)) ∧
  (size (mc_route_hints (learn_route from_id source now m)) ≤ S (size (mc_route_hints m)))%nat.
Proof.
  intros Hroom Hfrom (hint & Hh & Hp & Ht).
  destruct (decide (from_id = "" ∨ source = "")) as [He|He].
  { assert (learn_route from_id source now m = m) as ->; [|split; [by exists hint|lia]].
    unfold learn_route, is_empty. by repeat case_bool_decide; naive_solver. }
  rewrite learn_hints by naive_solver. split; [|apply map_size_insert_le].
  destruct (decide (from_id = node)) as [->|Hne].
  - destruct Hfrom as [-> Hle]; [done|]. eexists. rewrite lookup_insert_eq. by split.
  - exists hint. by rewrite lookup_insert_ne.
Qed.

Lemma lookup_route_heard node peer t to_id now m :
  now ≤ t + ROUTE_TTL → heard node peer t (mc_route_hints m) →
  heard node peer t (mc_route_hints (lookup_route to_id now m).2) ∧
  (size (mc_route_hints (lookup_route to_id now m).2) ≤ size (mc_route_hints m))%nat.
Proof.
  intros Hnow (hint & Hh & Hp & Ht). unfold lookup_route.
  destruct (mc_route_hints m !! to_id) as [h|] eqn:Hto; [|split; [by exists hint|done]].
  destruct (Z.leb_spec (duration_since now (rh_updated_at h)) ROUTE_TTL) as [|Hold]; simpl;
    [split; [by exists hint|done]|].
  split; [|apply map_subseteq_size, delete_subseteq].
  exists hint. destruct (decide (to_id = node)) as [->|Hne]; [|by rewrite lookup_delete_ne].
  unfold duration_since, u_saturating_sub, ROUTE_TTL in *.
  assert (h = hint) as -> by congruence. lia.
Qed.

Lemma forward_hints ex to_id frame now m :
  mc_route_hints (forward_to_target ex to_id frame now m) =
  mc_route_hints (lookup_route to_id now m).2.
Proof. by rewrite forward_sent. Qed.

(** With room in the table, what was heard stays known. *)
Lemma step_heard node peer t e m :
  (size (mc_route_hints m) < MAX_ROUTE_HINTS)%nat → undisturbed node peer t e →
  heard node peer t (mc_route_hints m) →
  heard node peer t (mc_route_hints (mesh_step m e)) ∧
  (size (mc_route_hints (mesh_step m e)) ≤ S (size (mc_route_hints m)))%nat.
Proof.
  intros Hroom He Hh. destruct e as [c ex hello|err c p|c|src frame del t1 t2 t3|pk id t1 t2]; simpl.
  - destruct hello; simpl; [|auto with lia]. destruct (validate_peer _ _ _); simpl; auto with lia.
  - unfold close_connection. destruct err; [auto with lia|]. case_bool_decide; simpl; auto with lia.
  - auto with lia.
  - destruct frame as [|id tr f to b64 hops]; simpl; [auto with lia|]. destruct He as [Hfrom Hroute].
    destruct (remember_rest id t1 m) as [seen Hrest].
    destruct (remember_message id t1 m) as [fresh m1]. simpl in Hrest.
    assert (mc_route_hints m1 = mc_route_hints m) as Hm1 by (by rewrite Hrest).
    rewrite <- Hm1 in Hroom, Hh. rewrite <- Hm1. clear Hrest Hm1.
    destruct fresh; simpl; [|auto with lia].
    destruct (learn_heard node peer t f src t2 m1 Hroom Hfrom Hh) as [Hl Hs].
    destruct (b64_decode b64); [|done]. destruct (_ || _); [done|]. rewrite forward_hints.
    destruct (lookup_route_heard _ _ _ to t3 _ Hroute Hl) as [Hl' Hs']. split; [done|lia].
  - unfold send_local. destruct (remember_rest id t1 m) as [seen Hrest].
    destruct (remember_message id t1 m) as [fresh m1]. simpl in Hrest.
    assert (mc_route_hints m1 = mc_route_hints m) as Hm1 by (by rewrite Hrest).
    rewrite <- Hm1 in Hh. rewrite forward_hints, <- Hm1.
    destruct (lookup_route_heard _ _ _ (mo_to_id pk) t2 _ He Hh) as [Hl' Hs']. split; [done|lia].
Qed.

Lemma run_heard node peer t es m :
  (size (mc_route_hints m) + length es ≤ MAX_ROUTE_HINTS)%nat →
  Forall (undisturbed node peer t) es → heard node peer t (mc_route_hints m) →
  heard node peer t (mc_route_hints (mesh_run es m)).
Proof.
  unfold mesh_run. intros Hroom Hes. revert m Hroom.
  induction Hes as [|e es He _ IH]; intros m Hroom Hh; simpl in *; [done|].
  destruct (step_heard node peer t e m) as [Hh' Hs]; [lia|done|done|]. apply IH; [lia|done].
Qed.

Lemma heard_conns node peer t now m k :
  heard node peer t (mc_route_hints m) → now ≤ t + ROUTE_TTL →
  mc_peers m !! peer = Some k → k ∈ mc_receivers m → forward_conns None node now m = [k].
Proof.
  intros (hint & Hh & Hp & Ht) Hnow Hk Hlive. unfold forward_conns, lookup_route. rewrite Hh.
  rewrite (proj2 (Z.leb_le _ _)) by (unfold duration_since, u_saturating_sub, ROUTE_TTL in *; lia).
  simpl. rewrite Hp, Hk. by rewrite bool_decide_eq_true_2.
Qed.

(** C27. Answers go back the way the question came.  Once a server has taken a frame from a
    node through a peer, one it had not seen lately, with room in the table of routes,
    every packet its relays have for that node in the next five
    minutes goes to that peer's connection and to no other, whatever happened meanwhile,
    unless the node was heard through another peer, the peer is no longer connected, or
    the table of routes filled up. *)
Theorem reply_takes_heard_route m src id tr node to b64 hops del t1 t2 t3 es packet id' t4 t5 k :
  (size (mc_route_hints m) + length es < MAX_ROUTE_HINTS)%nat → node ≠ "" → src ≠ "" →
  seen_lately id t1 m = false → t3 ≤ t2 + ROUTE_TTL → Forall (undisturbed node src t2) es →
  mo_to_id packet = node → t5 ≤ t2 + ROUTE_TTL →
  let m1 := mesh_run es (handle_frame src (Relay id tr node to b64 hops) del t1 t2 t3 m) in
  mc_peers m1 !! src = Some k → k ∈ mc_receivers m1 →
  mc_sent (send_local packet id' t4 t5 m1) =
    mc_sent m1 ++ [(k, Relay id' (mo_transport packet) (mo_from_id packet) node
                         (b64_encode (mo_payload packet)) (mc_max_hops m1))].
Proof.
  intros Hroom Hnode Hsrc Hnew Ht3 Hes Hto Ht5 m1 Hk Hlive.
  set (m0 := handle_frame src (Relay id tr node to b64 hops) del t1 t2 t3 m) in *.
  assert (heard node src t2 (mc_route_hints m0) ∧
    (size (mc_route_hints m0) ≤ S (size (mc_route_hints m)))%nat) as [Hh Hs].
  { unfold m0, handle_frame. pose proof (remember_fresh id t1 m) as Hfresh.
    destruct (remember_rest id t1 m) as [seen Hrest].
    destruct (remember_message id t1 m) as [fresh m']. simpl in Hfresh, Hrest.
    rewrite Hnew in Hfresh. subst fresh. simpl.
    assert (mc_route_hints m' = mc_route_hints m) as Hm' by (by rewrite Hrest).
    assert (heard node src t2 (mc_route_hints (learn_route node src t2 m')) ∧
      (size (mc_route_hints (learn_route node src t2 m')) ≤ S (size (mc_route_hints m)))%nat)
      as [Hl Hs].
    { rewrite learn_hints by (rewrite ?Hm'; done || lia). rewrite Hm'. split.
      - eexists. by rewrite lookup_insert_eq.
      - apply map_size_insert_le. }
    destruct (b64_decode b64); [|done]. destruct (_ || _); [done|]. rewrite forward_hints.
    destruct (lookup_route_heard _ _ _ to t3 _ Ht3 Hl) as [Hl' Hs']. split; [done|lia]. }
  apply (run_heard _ _ _ es) in Hh; [|lia|done]. fold m1 in Hh.
  unfold send_local. destruct (remember_rest id' t4 m1) as [seen Hrest].
  destruct (remember_message id' t4 m1) as [fresh m2]. simpl in Hrest. subst m2.
  rewrite forward_sent, Hto. simpl.
  by rewrite (heard_conns node src t2 t5 _ k).
Qed.
End Replies.

Section HopBound.
Context `{HashOrder} `{CratesLaws}.

(** The frames put into channels on the way from one state to a later one *)
Definition sent_since (m m' : MeshContext) : list MeshFrame :=
  (drop (length (mc_sent m)) (mc_sent m')).*2.

(** The ways of one packet through the mesh: it is sent by the server it came to, and
    each server that receives a copy may send copies of its own.  The number is that of
    the servers that have passed the copy on. *)
Inductive travels (packet : MeshOutgoingPacket) (message_id : string) (max_hops : Z)
    : nat → MeshFrame → Prop :=
  | travels_sent m t_seen t_route f :
      mc_max_hops m = max_hops → f ∈ sent_since m (send_local packet message_id t_seen t_route m) →
      travels packet message_id max_hops 0 f
  | travels_on n f f' m source delivered t_seen t_learn t_route :
      travels packet message_id max_hops n f →
      f' ∈ sent_since m (handle_frame source f delivered t_seen t_learn t_route m) →
      travels packet message_id max_hops (S n) f'.

Lemma handle_frame_sends source f delivered t1 t2 t3 m f' :
  f' ∈ sent_since m (handle_frame source f delivered t1 t2 t3 m) → passed_on f = Some f'.
Proof.
  unfold sent_since.
  destruct (handle_frame_sent source f delivered t1 t2 t3 m) as [_ ->].
  rewrite drop_app_length. destruct (passed_on f) as [g|]; [|set_solver].
  rewrite <- list_fmap_compose. intros (c & -> & _)%list_elem_of_fmap. done.
Qed.

Lemma send_local_sends packet message_id t1 t2 m f :
  f ∈ sent_since m (send_local packet message_id t1 t2 m) →
  f = Relay message_id (mo_transport packet) (mo_from_id packet) (mo_to_id packet)
        (b64_encode (mo_payload packet)) (mc_max_hops m).
Proof.
  unfold sent_since, send_local. destruct (remember_rest message_id t1 m) as [seen Hrest].
  destruct (remember_message message_id t1 m) as [fresh m1]. simpl in Hrest. subst m1.
  rewrite forward_sent. simpl. rewrite drop_app_length, <- list_fmap_compose.
  by intros (c & -> & _)%list_elem_of_fmap.
Qed.

(** C28. A packet is passed on at most as many times as the server that sent it allows,
    whatever loops the connections between the servers have and even if servers forget
    what they have seen; and every copy carries the packet's sender, target, transport
    and payload unchanged. *)
Theorem mesh_hop_bound packet message_id max_hops n f :
  0 ≤ max_hops → travels packet message_id max_hops n f →
  Z.of_nat n ≤ max_hops ∧
  ∃ b64, b64_decode b64 = Some (mo_payload packet) ∧
    f = Relay message_id (mo_transport packet) (mo_from_id packet) (mo_to_id packet) b64
          (max_hops - Z.of_nat n).
Proof.
  intros Hmax. induction 1 as [m t1 t2 f Hhops Hf|n f f' m src del t1 t2 t3 _ IH Hf].
  - apply send_local_sends in Hf. rewrite Hhops in Hf. split; [lia|].
    exists (b64_encode (mo_payload packet)). split; [apply b64_decode_encode|].
    rewrite Hf. f_equal. lia.
  - destruct IH as (Hn & b64 & Hdec & ->). apply handle_frame_sends in Hf. simpl in Hf.
    rewrite Hdec in Hf. simpl in Hf. destruct (Z.eqb_spec (max_hops - Z.of_nat n) 0); [done|].
    injection Hf as <-. split; [lia|]. exists (b64_encode (mo_payload packet)).
    split; [apply b64_decode_encode|]. f_equal. unfold u_saturating_sub. lia.
Qed.
End HopBound.

(** ** Witnesses: server a, allowed to talk to b and c *)
Module MeshSample.
Definition start : MeshContext :=
  mkMeshContext "a" 4 {["b"; "c"]} ∅ ∅ ∅ ∅ [].
Definition packet : MeshOutgoingPacket := mkMeshOutgoingPacket Udp "n1" "n2" [Byte.x01].
Definition connected : MeshContext :=
  mesh_run (H := Sample.hash_order) (H0 := Sample.crates)
    [EvOpen 1 None (Hello "b"); EvOpen 2 (Some "c") (Hello "c")] start.
End MeshSample.

Lemma reconnect_survives_close_witness :
  ∃ m', open_connection 3 None (Hello "b") MeshSample.connected = Some m' ∧
    mc_peers (close_connection false 1 "b" m') !! "b" = Some 3.
Proof.
  destruct (open_connection 3 None (Hello "b") MeshSample.connected) as [m'|] eqn:Hopen;
    [|by vm_compute in Hopen].
  exists m'. split; [done|]. by apply (reconnect_survives_close _ _ 1 3 None "b" Hopen).
Defined.

Lemma read_error_keeps_peer_witness :
  ∃ m', open_connection 1 None (Hello "b") MeshSample.start = Some m' ∧
    (send_to_peer "b" (Hello "a") (close_connection true 1 "b" m')).1 = true.
Proof.
  destruct (open_connection 1 None (Hello "b") MeshSample.start) as [m'|] eqn:Hopen;
    [|by vm_compute in Hopen].
  exists m'. split; [done|]. by apply (read_error_keeps_peer _ _ 1 None "b" (Hello "a") Hopen).
Defined.

Lemma mesh_tables_bounded_witness :
  ∃ m, mesh_context "a" 4 ["b"; "c"] = Some m ∧
    (size (mc_seen_ids (mesh_run (H := Sample.hash_order) (H0 := Sample.crates)
       [EvOpen 1 None (Hello "b"); EvLocal MeshSample.packet "m1" 10 11] m)) ≤ MAX_SEEN_IDS)%nat.
Proof.
  destruct (mesh_context "a" 4 ["b"; "c"]) as [m|] eqn:Hm; [|by vm_compute in Hm].
  exists m. split; [done|].
  apply (mesh_tables_bounded (H := Sample.hash_order) (H0 := Sample.crates) "a" 4 ["b"; "c"] m _ Hm).
Defined.

Lemma duplicate_suppressed_witness :
  let handle := handle_frame (H := Sample.hash_order) (H0 := Sample.crates) in
  let m1 := handle "b" (Relay "m1" Udp "n1" "n2" "01" 4) false 10 11 12 MeshSample.connected in
  mc_sent m1 = [(2, Relay "m1" Udp "n1" "n2" "01" 3)] ∧
  handle "c" (Relay "m1" Udp "n1" "n2" "01" 2) false 20 21 22 m1 = m1.
Proof.
  split; [by vm_compute|].
  apply (duplicate_suppressed (H := Sample.hash_order) (H0 := Sample.crates)
    MeshSample.connected "b" "c" "m1" Udp Udp "n1" "n1" "n2" "n2" "01" "01" 4 2 false false
    10 11 12 20 21 22 []); [apply Nat.ltb_lt; by vm_compute|by vm_compute|by vm_compute].
Defined.

(** A frame from n2 came through c; b then announced another node, and n1's packet for n2
    goes to c alone. *)
Lemma reply_takes_heard_route_witness :
  let heard_m := handle_frame (H := Sample.hash_order) (H0 := Sample.crates) "c"
    (Relay "m1" Udp "n2" "n1" "01" 4) true 10 11 12 MeshSample.connected in
  let m1 := mesh_run (H := Sample.hash_order) (H0 := Sample.crates)
    [EvFrame "b" (Relay "m2" Udp "n3" "n1" "01" 4) true 13 14 15] heard_m in
  mc_sent (send_local (H := Sample.hash_order) (H0 := Sample.crates) MeshSample.packet "m3" 20 21 m1)
  = mc_sent m1 ++ [(2, Relay "m3" Udp "n1" "n2" "01" 4)].
Proof.
  apply (reply_takes_heard_route (H := Sample.hash_order) (H0 := Sample.crates)
    MeshSample.connected "c" "m1" Udp "n2" "n1" "01" 4 true 10 11 12
    [EvFrame "b" (Relay "m2" Udp "n3" "n1" "01" 4) true 13 14 15] MeshSample.packet "m3" 20 21 2).
  - apply Nat.ltb_lt. vm_compute. reflexivity.
  - discriminate.
  - discriminate.
  - vm_compute. reflexivity.
  - vm_compute. discriminate.
  - constructor; [|constructor]. split; [discriminate|vm_compute; discriminate].
  - reflexivity.
  - vm_compute. discriminate.
  - vm_compute. reflexivity.
  - vm_compute. set_solver.
Defined.

Lemma full_table_remembers_witness :
  (remember_message (H := Sample.hash_order) "m1" 20
     (remember_message (H := Sample.hash_order) "m1" 10 MeshSample.start).2).1 = false.
Proof.
  apply (full_table_remembers (H := Sample.hash_order) "m1" 10 20 MeshSample.start);
    [|by vm_compute|by vm_compute].
  intros k s Hk. by vm_compute in Hk.
Defined.

Lemma mesh_hop_bound_witness :
  ∃ f, travels (H := Sample.hash_order) (H0 := Sample.crates) MeshSample.packet "m1" 4 0 f ∧
    ∃ b64, f = Relay "m1" Udp "n1" "n2" b64 4.
Proof.
  set (f := Relay "m1" Udp "n1" "n2" "01" 4).
  assert (travels (H := Sample.hash_order) (H0 := Sample.crates) MeshSample.packet "m1" 4 0 f)
    as Htravels.
  { apply (travels_sent _ _ _ MeshSample.connected 10 11); [done|].
    assert (sent_since MeshSample.connected
      (send_local (H := Sample.hash_order) (H0 := Sample.crates) MeshSample.packet "m1" 10 11
         MeshSample.connected) = [f; f]) as -> by (by vm_compute). left. }
  exists f. split; [done|].
  destruct (mesh_hop_bound (H := Sample.hash_order) (H1 := Sample.crates_laws) MeshSample.packet
    "m1" 4 0 f ltac:(lia) Htravels) as (_ & b64 & _ & Hf). exists b64. by rewrite Hf.
Defined.
