(* ===== verification/Dns.v ===== *)
(** * The DNS responder (src/dns.rs)

    The responder answers from the state of the server: the names of approved nodes
    that are not revoked, under the domains of their networks.  The wire format and the
    name type are those of the hickory library and stay parameters, like Unicode's case
    table behind [str::to_lowercase]. *)

From S2P Require Import Prelude Effects RustStd StdNet Externals Model Store SampleStore Ipam.
From S2P Require Import Keys Acl Auth Netmap Netid ApiHelpers Api Invariant Safety Server.
From S2P Require Import Scenario Reachability Names.

(** [str::to_lowercase], by Unicode's tables; on ASCII it is ASCII's. *)
Class Unicode := { to_lowercase : string → string }.
Definition is_ascii (s : string) : bool := forallb (λ b, byte_val b <? 128) (bytes s).
Class UnicodeLaws `{Unicode} : Prop := {
  to_lowercase_ascii s : is_ascii s = true → to_lowercase s = to_ascii_lowercase s;
}.

(** [hickory_proto::rr::Name] with [to_ascii] *)
Class HickoryName := {
  Name : Type;
  name_to_ascii : Name → string;
}.

Definition DNS_TTL_SECONDS : Z := 30.

(** [s.ends_with(p)] *)
Definition ends_with (p s : string) : bool :=
  is_some (strip_prefix_bytes (reverse (bytes p)) (reverse (bytes s))).

(** ** Messages *)
Inductive RecordType : Type := RT_A | RT_AAAA | RT_ANY | RT_Other (code : Z).
Inductive MessageType : Type := MT_Query | MT_Response.
Inductive ResponseCode : Type := NoError | NXDomain | Refused.
Inductive RData : Type := RD_A (a : Z) | RD_AAAA (a : Z).

Section Messages.
Context `{HickoryName}.

Record Query : Type := mkQuery {
  q_name : Name;
  q_type : RecordType;
  q_class : Z;
}.

Record DnsRecord : Type := mkDnsRecord {
  rr_name : Name;
  rr_ttl : Z;
  rr_data : RData;
}.

Record Message : Type := mkMessage {
  msg_id : Z;
  msg_type : MessageType;
  msg_op_code : Z;
  msg_recursion_desired : bool;
  msg_recursion_available : bool;
  msg_authoritative : bool;
  msg_response_code : ResponseCode;
  msg_queries : list Query;
  msg_answers : list DnsRecord;
}.

(** The setters of [Message] *)
Definition set_id (id : Z) (m : Message) : Message :=
  mkMessage id (msg_type m) (msg_op_code m) (msg_recursion_desired m)
    (msg_recursion_available m) (msg_authoritative m) (msg_response_code m) (msg_queries m)
    (msg_answers m).
Definition set_message_type (t : MessageType) (m : Message) : Message :=
  mkMessage (msg_id m) t (msg_op_code m) (msg_recursion_desired m) (msg_recursion_available
    m) (msg_authoritative m) (msg_response_code m) (msg_queries m) (msg_answers m).
Definition set_op_code (code : Z) (m : Message) : Message :=
  mkMessage (msg_id m) (msg_type m) code (msg_recursion_desired m) (msg_recursion_available
    m) (msg_authoritative m) (msg_response_code m) (msg_queries m) (msg_answers m).
Definition set_recursion_desired (b : bool) (m : Message) : Message :=
  mkMessage (msg_id m) (msg_type m) (msg_op_code m) b (msg_recursion_available m)
    (msg_authoritative m) (msg_response_code m) (msg_queries m) (msg_answers m).
Definition set_recursion_available (b : bool) (m : Message) : Message :=
  mkMessage (msg_id m) (msg_type m) (msg_op_code m) (msg_recursion_desired m) b
    (msg_authoritative m) (msg_response_code m) (msg_queries m) (msg_answers m).
Definition set_authoritative (b : bool) (m : Message) : Message :=
  mkMessage (msg_id m) (msg_type m) (msg_op_code m) (msg_recursion_desired m)
    (msg_recursion_available m) b (msg_response_code m) (msg_queries m) (msg_answers m).
Definition set_response_code (code : ResponseCode) (m : Message) : Message :=
  mkMessage (msg_id m) (msg_type m) (msg_op_code m) (msg_recursion_desired m)
    (msg_recursion_available m) (msg_authoritative m) code (msg_queries m) (msg_answers m).
Definition add_query (q : Query) (m : Message) : Message :=
  mkMessage (msg_id m) (msg_type m) (msg_op_code m) (msg_recursion_desired m)
    (msg_recursion_available m) (msg_authoritative m) (msg_response_code m) (msg_queries m ++
    [q]) (msg_answers m).
Definition add_answer (r : DnsRecord) (m : Message) : Message :=
  mkMessage (msg_id m) (msg_type m) (msg_op_code m) (msg_recursion_desired m)
    (msg_recursion_available m) (msg_authoritative m) (msg_response_code m) (msg_queries m)
    (msg_answers m ++ [r]).

(** [Message::new()], a query with no flags set *)
Definition Message_new : Message := mkMessage 0 MT_Query 0 false false false NoError [] [].

Definition build_record (name : Name) (addr : IpAddr) : DnsRecord :=
  let rdata := match addr with V4 v4 => RD_A v4 | V6 v6 => RD_AAAA v6 end in
  mkDnsRecord name DNS_TTL_SECONDS rdata.
End Messages.

(** The wire format: [Message::from_vec] and [Message::to_vec] *)
Class HickoryWire `{HickoryName} := {
  message_from_vec : list byte → option Message;
  message_to_vec : Message → option (list byte);
}.

(** ** Names and the snapshot *)
Section Snapshot.
Context `{Unicode} `{HashOrder}.

Definition normalize_name (name : string) : string :=
  to_lowercase (trim_end_matches dot (trim name)).

Record DnsSnapshot : Type := mkDnsSnapshot {
  sn_records : gmap string (list IpAddr);
  sn_domains : gset string;
}.

(** The record of one node, if it has one *)
Definition node_record (state : State) (node : NodeState) : option (string * list IpAddr) :=
  if is_some (nd_revoked_at node) || negb (nd_approved node) then None
  else
    network ← st_networks state !! nd_network_id node;
    let dns_name := normalize_name (nd_name node +:+ "." +:+ nw_dns_domain network) in
    ipv4 ← parse_ip (nd_ipv4 node);
    ipv6 ← parse_ip (nd_ipv6 node);
    Some (dns_name, [ipv4; ipv6]).

Definition insert_record (state : State) (records : gmap string (list IpAddr))
    (node : NodeState) : gmap string (list IpAddr) :=
  match node_record state node with
  | Some (dns_name, addresses) => <[dns_name := addresses]> records
  | None => records
  end.

(** The closure that [snapshot] runs in the store *)
Definition snapshot (state : State) : DnsSnapshot :=
  mkDnsSnapshot
    (foldl (insert_record state) ∅ (hm_values (st_nodes state)))
    (foldl (λ domains network, {[normalize_name (nw_dns_domain network)]} ∪ domains) ∅
       (hm_values (st_networks state))).

Definition is_within_domains (name : string) (domains : gset string) : bool :=
  existsb (λ domain, bool_decide (name = domain) || ends_with ("." +:+ domain) name)
    (elements domains).

Context `{HickoryName}.

(** ** Answers *)

Definition type_matches (query_type : RecordType) (address : IpAddr) : bool :=
  match query_type, address with
  | RT_A, V4 _ | RT_ANY, V4 _ => true
  | RT_AAAA, V6 _ | RT_ANY, V6 _ => true
  | _, _ => false
  end.

(** One round of the loop over the addresses of a name, which adds a record to the
    message and sets [answered] *)
Definition answer_address (query : Query) (acc : Message * bool) (address : IpAddr)
    : Message * bool :=
  let '(response, answered) := acc in
  if type_matches (q_type query) address
  then (add_answer (build_record (q_name query) address) response, true)
  else (response, answered).

(** One round of the loop over the queries: the message so far, [answered] and
    [any_within_domain] *)
Definition answer_query (sn : DnsSnapshot) (acc : Message * bool * bool) (query : Query)
    : Message * bool * bool :=
  let '(response, answered, any_within_domain) := acc in
  let response := add_query query response in
  let query_name := normalize_name (name_to_ascii (q_name query)) in
  let any_within_domain := any_within_domain || is_within_domains query_name (sn_domains sn) in
  match sn_records sn !! query_name with
  | None => (response, answered, any_within_domain)
  | Some addresses =>
      (foldl (answer_address query) (response, answered) addresses, any_within_domain)
  end.

(** [build_response], given the snapshot *)
Definition respond (sn : DnsSnapshot) (request : Message) : Message :=
  let response := Message_new in
  let response := set_id (msg_id request) response in
  let response := set_message_type MT_Response response in
  let response := set_op_code (msg_op_code request) response in
  let response := set_recursion_desired (msg_recursion_desired request) response in
  let response := set_recursion_available false response in
  let '(response, answered, any_within_domain) :=
    foldl (answer_query sn) (response, false, false) (msg_queries request) in
  let response := set_response_code
    (if answered : bool then NoError else if any_within_domain : bool then NXDomain else Refused)
    response in
  set_authoritative true response.

Context `{Serde} {E : Type}.

Definition build_response (request : Message) : M StateStore (AnyErr E) Message :=
  sn ← read (state ← get; mret (snapshot state));
  mret (respond sn request).

(** One round of [run]: a datagram is skipped, answered, or, when the response cannot be
    encoded, ends the responder. *)
Inductive DnsRound : Type := Skip | Reply (out : list byte) | Stopped.
Context `{!HickoryWire}.

Definition dns_round (datagram : list byte) : M StateStore (AnyErr E) DnsRound := λ w st,
  match message_from_vec datagram with
  | None => (Ok Skip, w, st)
  | Some request =>
      match build_response request w st with
      | (Err _, w, st) => (Ok Skip, w, st)
      | (Ok response, w, st) =>
          match message_to_vec response with
          | Some out => (Ok (Reply out), w, st)
          | None => (Ok Stopped, w, st)
          end
      end
  end.
End Snapshot.

(** ** What the loops compute *)
Section Respond.
Context `{Unicode} `{HashOrder} `{HickoryName}.

Definition query_name (q : Query) : string := normalize_name (name_to_ascii (q_name q)).

Definition answers_of (sn : DnsSnapshot) (q : Query) : list DnsRecord :=
  build_record (q_name q) <$>
    filter (λ a, type_matches (q_type q) a = true) (default [] (sn_records sn !! query_name q)).

Lemma answer_address_all q addrs (m : Message) answered :
  let rs := build_record (q_name q) <$> filter (λ a, type_matches (q_type q) a = true) addrs in
  foldl (answer_address q) (m, answered) addrs =
  (foldl (λ m r, add_answer r m) m rs, answered || negb (bool_decide (rs = []))).
Proof.
  revert m answered. induction addrs as [|a addrs IH]; intros m answered; simpl.
  - by rewrite orb_false_r.
  - rewrite filter_cons. destruct (type_matches (q_type q) a); [|by rewrite decide_False by done].
    rewrite decide_True by done. simpl. rewrite IH. by rewrite orb_true_r.
Qed.

Lemma add_all_answers rs (m : Message) :
  foldl (λ m r, add_answer r m) m rs =
  mkMessage (msg_id m) (msg_type m) (msg_op_code m) (msg_recursion_desired m)
    (msg_recursion_available m) (msg_authoritative m) (msg_response_code m) (msg_queries m)
    (msg_answers m ++ rs).
Proof.
  revert m. induction rs as [|r rs IH]; intros m; simpl.
  - rewrite app_nil_r. by destruct m.
  - rewrite IH. unfold add_answer. simpl. by rewrite <- app_assoc.
Qed.

Lemma answer_query_eq sn q (m : Message) answered within :
  answer_query sn (m, answered, within) q =
  (mkMessage (msg_id m) (msg_type m) (msg_op_code m) (msg_recursion_desired m)
    (msg_recursion_available m) (msg_authoritative m) (msg_response_code m)
    (msg_queries m ++ [q]) (msg_answers m ++ answers_of sn q),
   answered || negb (bool_decide (answers_of sn q = [])),
   within || is_within_domains (query_name q) (sn_domains sn)).
Proof.
  unfold answer_query, answers_of. fold (query_name q).
  destruct (sn_records sn !! query_name q) as [addrs|]; simpl.
  - by rewrite answer_address_all, add_all_answers.
  - by rewrite app_nil_r, orb_false_r.
Qed.

Lemma answer_query_all sn qs (m : Message) answered within :
  foldl (answer_query sn) (m, answered, within) qs =
  (mkMessage (msg_id m) (msg_type m) (msg_op_code m) (msg_recursion_desired m)
    (msg_recursion_available m) (msg_authoritative m) (msg_response_code m)
    (msg_queries m ++ qs) (msg_answers m ++ (qs ≫= answers_of sn)),
   answered || negb (bool_decide (qs ≫= answers_of sn = [])),
   within || existsb (λ q, is_within_domains (query_name q) (sn_domains sn)) qs).
Proof.
  revert m answered within. induction qs as [|q qs IH]; intros m answered within.
  - simpl. rewrite !app_nil_r, !orb_false_r. by destruct m.
  - cbn [foldl]. rewrite answer_query_eq, IH, bind_cons. simpl.
    rewrite <- !app_assoc, <- !orb_assoc. do 3 f_equal.
    by destruct (answers_of sn q).
Qed.

(** The response in closed form *)
Lemma respond_eq sn request :
  respond sn request =
  let answers := msg_queries request ≫= answers_of sn in
  let within := existsb (λ q, is_within_domains (query_name q) (sn_domains sn))
                  (msg_queries request) in
  mkMessage (msg_id request) MT_Response (msg_op_code request) (msg_recursion_desired request)
    false true
    (if bool_decide (answers = []) then if within then NXDomain else Refused else NoError)
    (msg_queries request) answers.
Proof.
  unfold respond. rewrite answer_query_all. simpl. by case_bool_decide.
Qed.
End Respond.

(** ** What the snapshot holds *)
Section Records.
Context `{Unicode} `{HashOrder}.

Lemma insert_records_from s nodes records name addrs :
  foldl (insert_record s) records nodes !! name = Some addrs →
  records !! name = Some addrs ∨ ∃ nd, nd ∈ nodes ∧ node_record s nd = Some (name, addrs).
Proof.
  revert records. induction nodes as [|nd nodes IH]; intros records; simpl; [by left|].
  intros [Hin|(nd' & ? & ?)]%IH; [|right; exists nd'; set_solver].
  unfold insert_record in Hin. destruct (node_record s nd) as [[name' addrs']|] eqn:Hnd; [|by left].
  apply lookup_insert_Some in Hin as [[-> ->]|[_ Hin]]; [|by left].
  right. exists nd. set_solver.
Qed.

Lemma insert_records_some s nodes records name :
  is_Some (records !! name) ∨ (∃ nd addrs, nd ∈ nodes ∧ node_record s nd = Some (name, addrs)) →
  is_Some (foldl (insert_record s) records nodes !! name).
Proof.
  revert records. induction nodes as [|nd nodes IH]; intros records Hor; simpl.
  - destruct Hor as [|(? & ? & ? & _)]; [done|set_solver].
  - apply IH. unfold insert_record.
    destruct Hor as [Hin|(nd' & addrs & [->|Hin]%elem_of_cons & Hnd)]; [left|left|right; eauto].
    + destruct (node_record s nd) as [[]|]; [|done]. apply lookup_insert_is_Some'. by right.
    + rewrite Hnd. apply lookup_insert_is_Some'. by left.
Qed.

(** A name in the snapshot is that of a stored node, *)
Lemma snapshot_from s name addrs :
  sn_records (snapshot s) !! name = Some addrs →
  ∃ k nd, st_nodes s !! k = Some nd ∧ node_record s nd = Some (name, addrs).
Proof.
  simpl. intros [Hin|(nd & Hin & Hnd)]%insert_records_from; [by rewrite lookup_empty in Hin|].
  apply elem_of_hm_values in Hin as [k Hk]. eauto.
Qed.

(** and every name of a stored node is in the snapshot. *)
Lemma snapshot_some s k nd name addrs :
  st_nodes s !! k = Some nd → node_record s nd = Some (name, addrs) →
  is_Some (sn_records (snapshot s) !! name).
Proof.
  intros Hk Hnd. simpl. apply insert_records_some. right. exists nd, addrs. split; [|done].
  apply elem_of_hm_values. eauto.
Qed.

Lemma snapshot_own s k nd name addrs :
  st_nodes s !! k = Some nd → node_record s nd = Some (name, addrs) →
  (∀ k' nd' addrs', st_nodes s !! k' = Some nd' → node_record s nd' = Some (name, addrs') → k' = k) →
  sn_records (snapshot s) !! name = Some addrs.
Proof.
  intros Hk Hnd Hown. destruct (snapshot_some s k nd name addrs Hk Hnd) as [addrs' Hsome].
  destruct (snapshot_from s name addrs' Hsome) as (k' & nd' & Hk' & Hnd').
  assert (k' = k) as -> by eauto. rewrite Hsome. congruence.
Qed.
End Records.

(** ** Answers of a running server *)
Section Answers.
Context `{IpNetLaws} `{Crates} `{HashOrder} `{SerdeLaws} `{Unicode} `{HickoryName} {E : Type}.

Lemma build_response_view request w st r w' st' s :
  build_response (E := E) request w st = (Ok r, w', st') → view st = Some s →
  st' = st ∧ r = respond (snapshot s) request.
Proof.
  intros Hrun Hv. unfold build_response in Hrun.
  apply bind_ok_inv in Hrun as (sn & w1 & st1 & Hread & Hret). injection Hret as <- <- <-.
  pose proof (read_pure (E := E) (state ← get; mret (snapshot state)) w st) as Hpure.
  rewrite Hread in Hpure. simpl in Hpure.
  apply read_view in Hread as (s' & w0 & w2 & s2 & Hv' & Hf). rewrite Hv in Hv'.
  injection Hv' as <-. injection Hf as <- <- <-. done.
Qed.

(** C34. The responder tells only what it should: every record of an answer is an address
    of an approved node that is not revoked, and the question asked for that type of
    address of that node's name in the domain of its network.  Answering changes
    nothing. *)
Theorem dns_answers_sound request w st r w' st' s rr :
  build_response (E := E) request w st = (Ok r, w', st') → view st = Some s →
  rr ∈ msg_answers r →
  st' = st ∧ ∃ q k nd n ip, q ∈ msg_queries request ∧ rr = build_record (q_name q) ip ∧
    type_matches (q_type q) ip = true ∧ st_nodes s !! k = Some nd ∧
    nd_approved nd = true ∧ nd_revoked_at nd = None ∧
    st_networks s !! nd_network_id nd = Some n ∧
    query_name q = normalize_name (nd_name nd +:+ "." +:+ nw_dns_domain n) ∧
    (parse_ip (nd_ipv4 nd) = Some ip ∨ parse_ip (nd_ipv6 nd) = Some ip).
Proof.
  intros Hrun Hv Hrr. destruct (build_response_view _ _ _ _ _ _ _ Hrun Hv) as [-> ->].
  split; [done|]. rewrite respond_eq in Hrr. simpl in Hrr.
  apply list_elem_of_bind in Hrr as (q & Hrr & Hq). unfold answers_of in Hrr.
  apply list_elem_of_fmap in Hrr as (ip & -> & [Htype Hip]%list_elem_of_filter).
  destruct (sn_records (snapshot s) !! query_name q) as [addrs|] eqn:Hrec; [|set_solver].
  apply snapshot_from in Hrec as (k & nd & Hk & Hnd). simpl in Hip. unfold node_record in Hnd.
  destruct (nd_revoked_at nd) eqn:Hrevoked; [done|]. destruct (nd_approved nd) eqn:Happ; [|done].
  simpl in Hnd. destruct (st_networks s !! nd_network_id nd) as [n|] eqn:Hn; [|done].
  simpl in Hnd. destruct (parse_ip (nd_ipv4 nd)) as [ip4|] eqn:Hip4; [|done].
  simpl in Hnd. destruct (parse_ip (nd_ipv6 nd)) as [ip6|] eqn:Hip6; [|done].
  injection Hnd as Hname <-. exists q, k, nd, n, ip. repeat split; try done. set_solver.
Qed.

(** On a store that can be read the response is computed; only the database can fail. *)
Lemma build_response_cases request w st s :
  view st = Some s →
  (∃ w', build_response (E := E) request w st = (Ok (respond (snapshot s) request), w', st)) ∨
  is_db st = true ∧ (build_response (E := E) request w st).1.1 = Err Failed.
Proof.
  unfold view, is_db, build_response, read. destruct (ss_backend st) as [fs|db] eqn:Hb.
  - intros [= <-]. left. exists w. unfold mbind, M_bind. by rewrite Hb.
  - destruct (db_row db) as [row|] eqn:Hrow; [|done]. simpl. intros Hjson.
    unfold mbind, M_bind. rewrite Hb. unfold load_state_db, io_ok, io, ok_or, mbind, M_bind.
    rewrite Hrow. cbn. destruct (w_io w (w_ios w)); cbn; [|by right].
    rewrite Hjson. cbn. left. by eexists.
Qed.

(** A live node: approved, not revoked, of a network *)
Definition dns_name_of (s : State) (nd : NodeState) : option string := fst <$> node_record s nd.

Lemma reachable_node_record (app : AppState) st s k nd n :
  reachable app st → view st = Some s → st_nodes s !! k = Some nd →
  nd_approved nd = true → nd_revoked_at nd = None → st_networks s !! nd_network_id nd = Some n →
  ∃ a b, parse_ip (nd_ipv4 nd) = Some (V4 a) ∧ parse_ip (nd_ipv6 nd) = Some (V6 b) ∧
    node_record s nd =
      Some (normalize_name (nd_name nd +:+ "." +:+ nw_dns_domain n), [V4 a; V6 b]).
Proof.
  intros Hr Hv Hk Happ Hrev Hn.
  destruct (reachable_addresses_in_block app st s k nd Hr Hv Hk)
    as (n' & v4 & v6 & a & b & _ & _ & _ & Ha & Hb & _).
  exists a, b. split; [done|]. split; [done|].
  unfold node_record. by rewrite Hrev, Happ, Hn, Ha, Hb.
Qed.

Lemma resolves_node (app : AppState) st s k nd n request q w :
  reachable app st → view st = Some s → st_nodes s !! k = Some nd →
  nd_approved nd = true → nd_revoked_at nd = None → st_networks s !! nd_network_id nd = Some n →
  (∀ k' nd', st_nodes s !! k' = Some nd' → dns_name_of s nd' = dns_name_of s nd → k' = k) →
  q ∈ msg_queries request →
  query_name q = normalize_name (nd_name nd +:+ "." +:+ nw_dns_domain n) →
  (is_db st = true ∧ (build_response (E := E) request w st).1.1 = Err Failed) ∨
  ∃ a b r w', parse_ip (nd_ipv4 nd) = Some (V4 a) ∧ parse_ip (nd_ipv6 nd) = Some (V6 b) ∧
    build_response (E := E) request w st = (Ok r, w', st) ∧
    (∀ ip, ip ∈ [V4 a; V6 b] → type_matches (q_type q) ip = true →
       build_record (q_name q) ip ∈ msg_answers r ∧ msg_response_code r = NoError).
Proof.
  intros Hr Hv Hk Happ Hrev Hn Hown Hq Hname.
  destruct (build_response_cases request w st s Hv) as [[w' Hrun]|]; [right|by left].
  destruct (reachable_node_record app st s k nd n Hr Hv Hk Happ Hrev Hn) as (a & b & Ha & Hb & Hnd).
  exists a, b, (respond (snapshot s) request), w'. repeat (split; [done|]).
  intros ip Hip Htype. rewrite respond_eq. simpl.
  assert (build_record (q_name q) ip ∈ msg_queries request ≫= answers_of (snapshot s)) as Hin.
  { apply list_elem_of_bind. exists q. split; [|done]. unfold answers_of. apply list_elem_of_fmap_2.
    apply list_elem_of_filter. split; [done|]. rewrite Hname.
    rewrite (snapshot_own s k nd _ _ Hk Hnd); [done|].
    intros k' nd' addrs' Hk' Hnd'. apply (Hown k' nd' Hk'). unfold dns_name_of.
    by rewrite Hnd', Hnd. }
  split; [done|]. rewrite bool_decide_eq_false_2; [done|]. intros Hnil. rewrite Hnil in Hin. set_solver.
Qed.

(** Every approved and unrevoked node of a reachable server can be resolved: unless
    another live node has the same DNS name, a question for its name, however it is
    cased, is answered with its IPv4 address, its IPv6 address or both, as the question
    asks, and the answer says no error.  Only an unreadable database prevents it. *)
Theorem dns_resolves_node (app : AppState) st s k nd n request q w :
  reachable app st → view st = Some s → st_nodes s !! k = Some nd →
  nd_approved nd = true → nd_revoked_at nd = None → st_networks s !! nd_network_id nd = Some n →
  (∀ k' nd', st_nodes s !! k' = Some nd' → dns_name_of s nd' = dns_name_of s nd → k' = k) →
  q ∈ msg_queries request →
  query_name q = normalize_name (nd_name nd +:+ "." +:+ nw_dns_domain n) →
  (is_db st = true ∧ (build_response (E := E) request w st).1.1 = Err Failed) ∨
  ∃ a b r w', parse_ip (nd_ipv4 nd) = Some (V4 a) ∧ parse_ip (nd_ipv6 nd) = Some (V6 b) ∧
    build_response (E := E) request w st = (Ok r, w', st) ∧
    (∀ ip, ip ∈ [V4 a; V6 b] → type_matches (q_type q) ip = true →
       build_record (q_name q) ip ∈ msg_answers r ∧ msg_response_code r = NoError).
Proof. apply resolves_node. Qed.

End Answers.

(** ** A concrete responder *)
Module DnsSample.
#[export] Instance unicode : Unicode := {| to_lowercase := to_ascii_lowercase |}.
#[export] Instance unicode_laws : UnicodeLaws.
Proof. by split. Qed.
#[export] Instance hickory_name : HickoryName := {| Name := string; name_to_ascii := λ n, n |}.

Definition ask (name : string) (t : RecordType) : Message :=
  set_id 7 (add_query (mkQuery name t 1) Message_new).

(** Alice's name in the demo network, as a client may write it *)
Definition alice_name : string := "Alice." +:+ nw_dns_domain (default (mkNetworkState "" "" "" "" ""
  false AclPolicy_default (mkKeyRotationPolicy None) 0 0 0)
  (st_networks demo_state !! nd_network_id (node_of demo_state alice_id))) +:+ ".".

(** Two networks with one domain, and a node called alice in each *)
Definition shared_requests : list Request :=
  [PostNetworks admin_headers
     (mkCreateNetworkRequest "one" None None (Some "corp") None None (Some 3600) (Some 1) None);
   PostNetworks admin_headers
     (mkCreateNetworkRequest "two" None None (Some "corp") None None (Some 3600) (Some 1) None);
   PostRegister (mkRegisterRequest (b64url_encode (replicate 32 (byte_of 1))) "alice" "m1" "w1");
   PostRegister (mkRegisterRequest (b64url_encode (replicate 32 (byte_of 2))) "alice" "m2" "w2")].
Definition shared_run := run demo_app shared_requests demo_world empty_store.
Definition shared_state : State := view_or_default shared_run.2.
End DnsSample.
Import DnsSample.

Lemma dns_answers_sound_witness :
  ∃ rr k nd, rr ∈ msg_answers (respond (snapshot demo_state) (ask alice_name RT_A)) ∧
    st_nodes demo_state !! k = Some nd ∧ nd_approved nd = true.
Proof.
  destruct (build_response (E := ApiError) (ask alice_name RT_A) demo_world demo_store)
    as [[[r|e] w'] st'] eqn:Hrun; [|by vm_compute in Hrun].
  destruct (build_response_view _ _ _ _ _ _ _ Hrun demo_view) as [_ Hr].
  set (rr := build_record (H := hickory_name) alice_name (V4 1681981706)).
  assert (rr ∈ msg_answers (respond (snapshot demo_state) (ask alice_name RT_A))) as Hrr.
  { assert (msg_answers (respond (snapshot demo_state) (ask alice_name RT_A)) = [rr]) as ->
      by (vm_compute; reflexivity). left. }
  pose proof Hrr as Hrr'. rewrite <- Hr in Hrr'.
  destruct (dns_answers_sound _ _ _ _ _ _ _ rr Hrun demo_view Hrr')
    as (_ & q & k & nd & n & ip & _ & _ & _ & Hk & Happ & _).
  exists rr, k, nd. split; [exact Hrr|split; [exact Hk|exact Happ]].
Defined.

Lemma dns_resolves_node_witness :
  ∃ r w', build_response (E := ApiError) (ask alice_name RT_A) demo_world demo_store
            = (Ok r, w', demo_store) ∧ msg_response_code r = NoError.
Proof.
  destruct (dns_resolves_node (E := ApiError) demo_app demo_store demo_state alice_id
    (node_of demo_state alice_id)
    (default (mkNetworkState "" "" "" "" "" false AclPolicy_default (mkKeyRotationPolicy None) 0 0 0)
      (st_networks demo_state !! nd_network_id (node_of demo_state alice_id)))
    (ask alice_name RT_A) (mkQuery (H := hickory_name) alice_name RT_A 1) demo_world demo_reachable demo_view demo_alice)
    as [[Hdb _]|(a & b & r & w' & _ & _ & Hrun & Hans)].
  - vm_compute. reflexivity.
  - vm_compute. reflexivity.
  - vm_compute. reflexivity.
  - intros k' nd' Hk' Hname.
    assert (forallb (λ kv, negb (bool_decide (dns_name_of demo_state kv.2 =
      dns_name_of demo_state (node_of demo_state alice_id))) || bool_decide (kv.1 = alice_id))
      (map_to_list (st_nodes demo_state)) = true) as Hall by (vm_compute; reflexivity).
    rewrite forallb_forall in Hall. apply elem_of_map_to_list, list_elem_of_In in Hk'.
    specialize (Hall _ Hk'). cbn [fst snd] in Hall.
    rewrite (bool_decide_eq_true_2 _ Hname) in Hall. by apply bool_decide_eq_true in Hall.
  - left.
  - vm_compute. reflexivity.
  - by vm_compute in Hdb.
  - exists r, w'. split; [exact Hrun|]. apply (Hans (V4 a)); [left|reflexivity].
Defined.

(** A question for another type of record of an existing name is answered with
    NXDomain, which denies the name itself, although a question for its address is
    answered. *)
Theorem other_type_denies_name :
  msg_response_code (respond (snapshot demo_state) (ask alice_name RT_A)) = NoError ∧
  ∀ code, msg_response_code (respond (snapshot demo_state) (ask alice_name (RT_Other code)))
          = NXDomain.
Proof. split; [|intros code]; vm_compute; reflexivity. Qed.

(** Two networks may be given one domain, and then a node of one hides the node of
    the same name of the other: all four requests succeed and both nodes are live, but
    their common name resolves to one of them only. *)
Theorem shared_domain_hides_node :
  shared_run.1.1 = [Ok tt; Ok tt; Ok tt; Ok tt] ∧
  length (filter (λ nd, dns_name_of shared_state nd = Some "alice.corp")
            (hm_values (st_nodes shared_state))) = 2%nat ∧
  length (msg_answers (respond (snapshot shared_state) (ask "alice.corp" RT_A))) = 1%nat.
Proof. repeat split; vm_compute; reflexivity. Qed.
