(* ===== verification/StdText.v ===== *)
(** * More of Rust's standard library: splitting, ordering and parsing text

    What the command-line parsers of main.rs use: [str::split], [split_once],
    [rsplit_once], [find], [u16::from_str], [SocketAddr::from_str] and its printer, and
    [sort] with [dedup] on strings.  Strings are compared by their bytes. *)

From S2P Require Import Prelude RustStd StdNet.

Lemma bytes_app a b : bytes (a +:+ b) = bytes a ++ bytes b.
Proof.
  unfold bytes, String.list_byte_of_string. induction a as [|c a IH]; [done|].
  simpl. f_equal. exact IH.
Qed.

Lemma str_app l1 l2 : str (l1 ++ l2) = str l1 +:+ str l2.
Proof. apply (inj bytes). by rewrite bytes_app, !bytes_str. Qed.

Lemma is_empty_bytes s : is_empty s = bool_decide (bytes s = []).
Proof.
  unfold is_empty. apply bool_decide_ext. split; [by intros ->|].
  intros Hs. apply (inj bytes). by rewrite Hs.
Qed.

(** ** Splitting *)

(** [s.split(c)] *)
Fixpoint split_bytes (c : byte) (l : list byte) : list (list byte) :=
  match l with
  | [] => [[]]
  | b :: l =>
      if decide (b = c) then [] :: split_bytes c l
      else match split_bytes c l with
           | [] => [[b]]
           | p :: ps => (b :: p) :: ps
           end
  end.
Definition split (c : byte) (s : string) : list string := str <$> split_bytes c (bytes s).

(** [s.split_once(c)]: at the first [c] *)
Fixpoint split_once_bytes (c : byte) (l : list byte) : option (list byte * list byte) :=
  match l with
  | [] => None
  | b :: l =>
      if decide (b = c) then Some ([], l)
      else '(p, r) ← split_once_bytes c l; Some (b :: p, r)
  end.
(** [s.rsplit_once(c)]: at the last [c] *)
Definition rsplit_once_bytes (c : byte) (l : list byte) : option (list byte * list byte) :=
  '(r, p) ← split_once_bytes c (reverse l); Some (reverse p, reverse r).

Definition str_pair (p : list byte * list byte) : string * string := (str p.1, str p.2).
Definition split_once (c : byte) (s : string) : option (string * string) :=
  str_pair <$> split_once_bytes c (bytes s).
Definition rsplit_once (c : byte) (s : string) : option (string * string) :=
  str_pair <$> rsplit_once_bytes c (bytes s).

(** [s.contains(c)] for a character *)
Definition contains_char (c : byte) (s : string) : bool := bool_decide (c ∈ bytes s).

Lemma split_once_Some c l p r :
  split_once_bytes c l = Some (p, r) ↔ l = p ++ c :: r ∧ c ∉ p.
Proof.
  revert p. induction l as [|b l IH]; intros p; simpl.
  - split; [done|]. by intros [?%app_cons_not_nil].
  - case_decide as Hb.
    + subst b. split; [intros [= <- <-]; set_solver|].
      intros [Heq Hp]. destruct p as [|b p]; simplify_eq/=; [done|set_solver].
    + split.
      * destruct (split_once_bytes c l) as [[p' r']|]; [|done]. intros [= <- <-].
        destruct (IH p') as [[-> Hp'] _]; [done|]. split; [done|set_solver].
      * intros [Heq Hp]. destruct p as [|b' p]; simplify_eq/=.
        destruct (IH p) as [_ ->]; [done|]. split; [done|set_solver].
Qed.

Lemma split_once_None c l : split_once_bytes c l = None ↔ c ∉ l.
Proof.
  induction l as [|b l IH]; simpl; [set_solver|]. case_decide.
  - subst. set_solver.
  - destruct (split_once_bytes c l) as [[p r]|]; simpl.
    + split; [done|]. intros Hin. destruct IH as [_ IH]. set_solver.
    + set_solver.
Qed.

Lemma rsplit_once_Some c l p r :
  rsplit_once_bytes c l = Some (p, r) ↔ l = p ++ c :: r ∧ c ∉ r.
Proof.
  unfold rsplit_once_bytes. split.
  - destruct (split_once_bytes c (reverse l)) as [[q s]|] eqn:Hs; [|done]. simpl.
    intros [= <- <-]. apply split_once_Some in Hs as [Hl Hq].
    rewrite elem_of_reverse. split; [|done].
    rewrite <- (reverse_involutive l), Hl, reverse_app, reverse_cons, <- app_assoc. done.
  - intros [-> Hr]. rewrite (proj2 (split_once_Some c _ (reverse r) (reverse p))).
    + simpl. by rewrite !reverse_involutive.
    + rewrite elem_of_reverse, reverse_app, reverse_cons, <- app_assoc. done.
Qed.

Lemma rsplit_once_None c l : rsplit_once_bytes c l = None ↔ c ∉ l.
Proof.
  unfold rsplit_once_bytes. rewrite <- (elem_of_reverse c l), <- split_once_None.
  by destruct (split_once_bytes c (reverse l)) as [[]|].
Qed.

(** The pieces joined by the separator are the text, and no piece has it. *)
Lemma split_bytes_nonempty c l : split_bytes c l ≠ [].
Proof. destruct l as [|b l]; simpl; [done|]. case_decide; [done|]. by destruct (split_bytes c l). Qed.

Lemma split_bytes_free c l p : p ∈ split_bytes c l → c ∉ p.
Proof.
  revert p. induction l as [|b l IH]; intros p; simpl.
  { intros ->%list_elem_of_singleton. apply not_elem_of_nil. }
  case_decide.
  - intros [->|Hp]%elem_of_cons; [apply not_elem_of_nil|by apply IH].
  - destruct (split_bytes c l) as [|q qs].
    + intros ->%list_elem_of_singleton. rewrite list_elem_of_singleton. congruence.
    + intros [->|Hp]%elem_of_cons; [|apply IH; by right].
      rewrite not_elem_of_cons. split; [congruence|]. apply IH. by left.
Qed.

(** A text without the separator is its only piece. *)
Lemma split_bytes_none c l : c ∉ l → split_bytes c l = [l].
Proof.
  induction l as [|b l IH]; simpl; [done|]. intros Hc. rewrite decide_False by set_solver.
  by rewrite IH by set_solver.
Qed.

(** ** Numbers *)

(** [u16::from_str] and the like: decimal digits, with an optional plus sign, and not
    above the largest value of the type *)
Definition parse_uint (bound : Z) (s : string) : option Z :=
  let digits := match bytes s with
                | b :: l => if decide (b = Byte.x2b) then l else b :: l
                | [] => []
                end in
  match span_digits 10 digits with
  | (ds, []) =>
      if bool_decide (ds = []) then None
      else let v := from_digits 10 ds in if v <=? bound then Some v else None
  | (_, _ :: _) => None
  end.

(** [n.to_string()] *)
Definition uint_to_string (z : Z) : string := str (print_dec z).

Lemma to_digit_byte_value d : 0 ≤ d < 10 → byte_val (digit_byte d) = 48 + d.
Proof.
  intros Hd. unfold digit_byte. rewrite (proj2 (Z.ltb_lt d 10)) by lia.
  apply byte_val_of. lia.
Qed.

(** Printed numbers consist of digits only. *)
Lemma print_dec_digits z b : b ∈ print_dec z → 48 ≤ byte_val b ≤ 57.
Proof.
  intros (d & -> & Hd)%list_elem_of_fmap.
  pose proof (to_radix_digits 10 z ltac:(lia)) as Hall.
  rewrite Forall_forall in Hall. specialize (Hall d Hd). simpl in Hall.
  rewrite to_digit_byte_value; lia.
Qed.

Lemma print_dec_nonempty z : print_dec z ≠ [].
Proof.
  unfold print_dec, print_radix. intros Heq%fmap_nil_inv. by apply (to_radix_nonempty 10 z).
Qed.

Lemma parse_uint_print bound z :
  0 ≤ z ≤ bound → z < 10 ^ 128 → parse_uint bound (uint_to_string z) = Some z.
Proof.
  intros Hz Hmax. unfold parse_uint, uint_to_string. rewrite bytes_str.
  assert (match print_dec z with
          | b :: l => if decide (b = Byte.x2b) then l else b :: l
          | [] => []
          end = print_dec z) as ->.
  { destruct (print_dec z) as [|b l] eqn:Hp; [done|]. rewrite decide_False; [done|].
    intros ->. assert (Byte.x2b ∈ print_dec z) as Hin by (rewrite Hp; left).
    apply print_dec_digits in Hin. change (byte_val Byte.x2b) with 43 in Hin. lia. }
  rewrite <- (app_nil_r (print_dec z)). unfold print_dec, print_radix.
  rewrite span_digits_app; [|lia|apply to_radix_digits; lia|done].
  rewrite bool_decide_eq_false_2 by apply to_radix_nonempty.
  rewrite from_to_radix by lia. by rewrite (proj2 (Z.leb_le z bound)) by lia.
Qed.

Lemma span_digits_nonneg l : Forall (λ d, 0 ≤ d) (span_digits 10 l).1.
Proof.
  induction l as [|b l IH]; simpl; [constructor|].
  destruct (to_digit 10 b) as [d|] eqn:Hd; [|constructor].
  destruct (span_digits 10 l) as [ds rest]. simpl in *. constructor; [|done].
  unfold to_digit in Hd. destruct (_ <? 10); [|done]. injection Hd as <-.
  destruct (Z.leb_spec 48 (byte_val b)), (Z.leb_spec 97 (byte_val b)),
    (Z.leb_spec 65 (byte_val b)), (byte_val b <=? 57), (byte_val b <=? 122),
    (byte_val b <=? 90); simpl; lia.
Qed.

Lemma from_digits_nonneg ds : Forall (λ d, 0 ≤ d) ds → 0 ≤ from_digits 10 ds.
Proof.
  intros Hds. induction ds as [|d ds IH] using rev_ind; [done|].
  apply Forall_app in Hds as [Hds Hd]. rewrite from_digits_snoc. inversion_clear Hd.
  specialize (IH Hds). lia.
Qed.

Lemma parse_uint_range bound s z : parse_uint bound s = Some z → 0 ≤ z ≤ bound.
Proof.
  unfold parse_uint. generalize (match bytes s with
    | b :: l => if decide (b = Byte.x2b) then l else b :: l | [] => [] end) as l.
  intros l. pose proof (span_digits_nonneg l) as Hds.
  destruct (span_digits 10 l) as [ds [|]]; [|done].
  case_bool_decide; [done|]. destruct (Z.leb_spec (from_digits 10 ds) bound); [|done].
  intros [= <-]. split; [|done]. by apply from_digits_nonneg.
Qed.

(** ** Socket addresses *)

(** [SocketAddr]; an IPv6 address may have a scope. *)
Record SockAddr : Type := mkSockAddr {
  sa_ip : IpAddr;
  sa_scope : Z;
  sa_port : Z;
}.

Definition read_port (l : list byte) : option (Z * list byte) :=
  l ← read_char colon l; read_number 10 (length l) true u16_max l.

Definition read_scope (l : list byte) : Z * list byte :=
  match (l' ← read_char Byte.x25 l; read_number 10 (length l') true u32_max l') with
  | Some (scope, l') => (scope, l')
  | None => (0, l)
  end.

(** [SocketAddr::from_str] *)
Definition parse_socket_addr (s : string) : option SockAddr :=
  match ('(a, l) ← read_ipv4 (bytes s); '(port, l) ← read_port l; Some (mkSockAddr (V4 a) 0 port, l))
  with
  | Some (addr, []) => Some addr
  | Some (_, _ :: _) => None
  | None =>
      match (l ← read_char Byte.x5b (bytes s); '(a, l) ← read_ipv6 l;
             let '(scope, l) := read_scope l in
             l ← read_char Byte.x5d l; '(port, l) ← read_port l;
             Some (mkSockAddr (V6 a) scope port, l)) with
      | Some (addr, []) => Some addr
      | _ => None
      end
  end.

(** [ip.is_unspecified()] *)
Definition is_unspecified (ip : IpAddr) : bool :=
  match ip with V4 a => a =? 0 | V6 a => a =? 0 end.

(** [addr.to_string()] *)
Definition socket_addr_to_string (a : SockAddr) : string :=
  match sa_ip a with
  | V4 v4 => ipv4_to_string v4 +:+ ":" +:+ uint_to_string (sa_port a)
  | V6 v6 =>
      "[" +:+ ipv6_to_string v6 +:+
      (if sa_scope a =? 0 then "" else "%" +:+ uint_to_string (sa_scope a)) +:+
      "]:" +:+ uint_to_string (sa_port a)
  end.

Example socket_addr_v6 :
  socket_addr_to_string <$> parse_socket_addr "[fe80::1%3]:0053" = Some "[fe80::1%3]:53".
Proof. vm_compute. reflexivity. Qed.
Example socket_addr_port : parse_socket_addr "0.0.0.0:65536" = None.
Proof. vm_compute. reflexivity. Qed.

(** ** [sort] and [dedup] on strings *)

Fixpoint bytes_leb (a b : list byte) : bool :=
  match a, b with
  | [], _ => true
  | _ :: _, [] => false
  | x :: a, y :: b =>
      if byte_val x <? byte_val y then true
      else if byte_val y <? byte_val x then false
      else bytes_leb a b
  end.
Definition str_le (a b : string) : Prop := bytes_leb (bytes a) (bytes b) = true.
Definition str_lt (a b : string) : Prop := str_le a b ∧ a ≠ b.
#[export] Instance str_le_dec : RelDecision str_le.
Proof. intros a b. apply bool_eq_dec. Defined.

Lemma bytes_leb_total a b : bytes_leb a b = true ∨ bytes_leb b a = true.
Proof.
  revert b. induction a as [|x a IH]; intros [|y b]; simpl; auto.
  destruct (Z.ltb_spec (byte_val x) (byte_val y)); [by left|].
  destruct (Z.ltb_spec (byte_val y) (byte_val x)); [by right|]. apply IH.
Qed.

Lemma bytes_leb_antisym a b : bytes_leb a b = true → bytes_leb b a = true → a = b.
Proof.
  revert b. induction a as [|x a IH]; intros [|y b]; simpl; try done.
  destruct (Z.ltb_spec (byte_val x) (byte_val y)); destruct (Z.ltb_spec (byte_val y) (byte_val x));
    try done; try lia.
  intros Hab Hba. f_equal; [|by apply IH]. apply (inj byte_val). lia.
Qed.

Lemma bytes_leb_trans a b c : bytes_leb a b = true → bytes_leb b c = true → bytes_leb a c = true.
Proof.
  revert b c. induction a as [|x a IH]; intros [|y b] [|z c]; simpl; try done.
  destruct (Z.ltb_spec (byte_val x) (byte_val y)), (Z.ltb_spec (byte_val y) (byte_val x)),
    (Z.ltb_spec (byte_val y) (byte_val z)), (Z.ltb_spec (byte_val z) (byte_val y)),
    (Z.ltb_spec (byte_val x) (byte_val z)), (Z.ltb_spec (byte_val z) (byte_val x));
    try done; try lia. apply IH.
Qed.

#[export] Instance str_le_total : Total str_le.
Proof. intros a b. apply bytes_leb_total. Qed.
#[export] Instance str_le_trans : Transitive str_le.
Proof. intros a b c. apply bytes_leb_trans. Qed.
#[export] Instance str_le_antisymm : AntiSymm (=) str_le.
Proof. intros a b Hab Hba. apply (inj bytes). by apply bytes_leb_antisym. Qed.

(** [v.dedup()]: of equal neighbours one stays *)
Fixpoint dedup (l : list string) : list string :=
  match l with
  | x :: ((y :: _) as l') => if decide (x = y) then dedup l' else x :: dedup l'
  | _ => l
  end.
(** [v.sort(); v.dedup()] *)
Definition sort_dedup (l : list string) : list string := dedup (merge_sort str_le l).

Lemma elem_of_dedup l x : x ∈ dedup l ↔ x ∈ l.
Proof.
  induction l as [|y [|z l] IH]; [done..|]. cbn [dedup]. case_decide; set_solver.
Qed.

Lemma dedup_sorted l : StronglySorted str_le l → StronglySorted str_lt (dedup l).
Proof.
  induction 1 as [|x l Hs IH Hx]; [constructor|].
  destruct l as [|y l]; [repeat constructor|].
  change (dedup (x :: y :: l)) with (if decide (x = y) then dedup (y :: l) else x :: dedup (y :: l)).
  case_decide as Hxy; [exact IH|]. constructor; [exact IH|].
  apply Forall_forall. intros z Hz. rewrite elem_of_dedup in Hz. rewrite Forall_forall in Hx.
  split; [exact (Hx z Hz)|]. intros ->.
  apply Hxy, (anti_symm str_le); [apply Hx; left|].
  apply StronglySorted_inv in Hs as [_ Hy]. apply elem_of_cons in Hz as [->|Hz]; [done|].
  rewrite Forall_forall in Hy. by apply Hy.
Qed.

Lemma elem_of_sort_dedup l x : x ∈ sort_dedup l ↔ x ∈ l.
Proof. unfold sort_dedup. by rewrite elem_of_dedup, merge_sort_Permutation. Qed.

Lemma sort_dedup_sorted l : StronglySorted str_lt (sort_dedup l).
Proof. apply dedup_sorted, (StronglySorted_merge_sort str_le). Qed.

(** A strictly sorted list is determined by its elements. *)
Lemma strictly_sorted_unique l1 l2 :
  StronglySorted str_lt l1 → StronglySorted str_lt l2 → (∀ x, x ∈ l1 ↔ x ∈ l2) → l1 = l2.
Proof.
  intros Hs1. revert l2. induction Hs1 as [|x l1 Hs1 IH Hx]; intros l2 Hs2 Hsame.
  - destruct l2 as [|y l2]; [done|]. destruct (Hsame y) as [_ Hy]. set_solver.
  - destruct Hs2 as [|y l2 Hs2 Hy]; [destruct (Hsame x) as [Hx' _]; set_solver|].
    rewrite Forall_forall in Hx, Hy.
    assert (x = y) as ->.
    { destruct (proj1 (elem_of_cons l2 x y)) as [|Hxl]; [apply Hsame; left|done|].
      destruct (proj1 (elem_of_cons l1 y x)) as [|Hyl]; [apply Hsame; left|done|].
      apply (anti_symm str_le); [apply (Hx y Hyl)|apply (Hy x Hxl)]. }
    f_equal. apply IH; [done|]. intros z. specialize (Hsame z).
    assert (y ∉ l1) by (intros Hin; by destruct (Hx y Hin)).
    assert (y ∉ l2) by (intros Hin; by destruct (Hy y Hin)). set_solver.
Qed.

Lemma sort_dedup_id l : StronglySorted str_lt l → sort_dedup l = l.
Proof.
  intros Hl. apply strictly_sorted_unique; [apply sort_dedup_sorted|done|].
  intros x. apply elem_of_sort_dedup.
Qed.

(** ** Text with one colon is not an address *)

Lemma read_char_Some c l r : read_char c l = Some r ↔ l = c :: r.
Proof.
  destruct l as [|b l]; simpl; [done|]. case_decide; naive_solver.
Qed.

(** How many colons a text has *)
Definition colons (l : list byte) : nat := length (filter (.= colon) l).

Lemma colons_app l1 l2 : colons (l1 ++ l2) = (colons l1 + colons l2)%nat.
Proof. unfold colons. by rewrite filter_app, length_app. Qed.

Lemma span_digits_split radix l ds rest :
  span_digits radix l = (ds, rest) → ∃ p, l = p ++ rest ∧ length p = length ds.
Proof.
  revert ds. induction l as [|b l IH]; intros ds; simpl; [intros [= <- <-]; by exists []|].
  destruct (to_digit radix b); [|intros [= <- <-]; by exists []].
  destruct (span_digits radix l) as [ds' rest'] eqn:Hs. intros [= <- <-].
  destruct (IH ds' eq_refl) as (p & -> & Hp). exists (b :: p). simpl. by rewrite Hp.
Qed.

Lemma read_number_suffix radix n z0 bound l v rest :
  read_number radix n z0 bound l = Some (v, rest) → rest `suffix_of` l.
Proof.
  unfold read_number. destruct (span_digits radix l) as [ds r] eqn:Hs.
  destruct (_ || _); [done|]. destruct (_ && _); [done|]. destruct (_ <=? _); [|done].
  intros [= <- <-]. destruct (span_digits_split _ _ _ _ Hs) as (p & -> & _). by exists p.
Qed.

Lemma read_char_suffix c l rest : read_char c l = Some rest → rest `suffix_of` l.
Proof. intros ->%read_char_Some. by exists [c]. Qed.

Lemma read_ipv4_suffix l a rest : read_ipv4 l = Some (a, rest) → rest `suffix_of` l.
Proof.
  unfold read_ipv4, read_octet. intros Hr.
  destruct (read_number _ _ _ _ l) as [[o0 l0]|] eqn:E0; [|done]. simpl in Hr.
  destruct (read_char _ l0) as [l1|] eqn:E1; [|done]. simpl in Hr.
  destruct (read_number _ _ _ _ l1) as [[o1 l2]|] eqn:E2; [|done]. simpl in Hr.
  destruct (read_char _ l2) as [l3|] eqn:E3; [|done]. simpl in Hr.
  destruct (read_number _ _ _ _ l3) as [[o2 l4]|] eqn:E4; [|done]. simpl in Hr.
  destruct (read_char _ l4) as [l5|] eqn:E5; [|done]. simpl in Hr.
  destruct (read_number _ _ _ _ l5) as [[o3 l6]|] eqn:E6; [|done]. simpl in Hr.
  injection Hr as <- <-.
  apply read_number_suffix in E0, E2, E4, E6. apply read_char_suffix in E1, E3, E5.
  by do 6 (etrans; [eassumption|]).
Qed.

Lemma colons_suffix l1 l2 : l1 `suffix_of` l2 → (colons l1 ≤ colons l2)%nat.
Proof. intros [p ->]. rewrite colons_app. lia. Qed.

(** The groups that are read are separated by colons. *)
Lemma read_groups_colons room i l gs v4 rest :
  read_groups room i l = (gs, v4, rest) →
  (colons rest ≤ colons l)%nat ∧
  (length gs + colons rest ≤ colons l + (if decide (i = 0%nat) then 1 else 0)
     + (if v4 then 1 else 0))%nat.
Proof.
  revert i l gs v4 rest. induction room as [|room IH]; intros i l gs v4 rest; cbn [read_groups].
  { intros [= <- <- <-]. simpl. lia. }
  set (sep := if decide (i = 0%nat) then Some l else read_char colon l).
  assert (∀ l1, sep = Some l1 →
    (colons l1 ≤ colons l)%nat ∧
    (S (colons l1) ≤ colons l + (if decide (i = 0%nat) then 1 else 0))%nat) as Hsep.
  { unfold sep. intros l1. case_decide; [intros [= <-]; lia|].
    intros ->%read_char_Some. unfold colons. rewrite filter_cons_True by done. simpl. lia. }
  destruct (if (1 <=? room)%nat then sep ≫= read_ipv4 else None) as [[a l']|] eqn:Hv4.
  - intros [= <- <- <-]. destruct (1 <=? room)%nat; [|done].
    destruct sep as [l1|]; [|done]. specialize (Hsep l1 eq_refl).
    apply read_ipv4_suffix, colons_suffix in Hv4. simpl. lia.
  - destruct sep as [l1|]; simpl; [|intros [= <- <- <-]; simpl; lia].
    specialize (Hsep l1 eq_refl).
    destruct (read_number 16 4 true u16_max l1) as [[g l']|] eqn:Hg;
      [|intros [= <- <- <-]; simpl; lia].
    destruct (read_groups room (S i) l') as [[gs' v4'] l''] eqn:Hrec. intros [= <- <- <-].
    apply IH in Hrec. rewrite decide_False in Hrec by done.
    apply read_number_suffix, colons_suffix in Hg. simpl. lia.
Qed.

(** An IPv6 address has at least two colons. *)
Lemma read_ipv6_colons l a rest : read_ipv6 l = Some (a, rest) → (2 ≤ colons l)%nat.
Proof.
  unfold read_ipv6. destruct (read_groups 8 0 l) as [[hd v4] l1] eqn:Hg.
  apply read_groups_colons in Hg as [Hle Hg]. simpl in Hg.
  case_decide as Hlen; [destruct v4; lia|]. destruct v4; [done|].
  destruct (read_char colon l1) as [l2|] eqn:E1; [simpl|done].
  destruct (read_char colon l2) as [l3|] eqn:E2; [simpl|done].
  apply read_char_Some in E1, E2. subst. intros _. unfold colons in Hle at 1.
  rewrite !filter_cons_True in Hle by done. simpl in Hle. lia.
Qed.

(** Digits and dots are no colons. *)
Lemma span_digits_colons l ds rest : span_digits 10 l = (ds, rest) → colons l = colons rest.
Proof.
  revert ds. induction l as [|b l IH]; intros ds; simpl; [by intros [= <- <-]|].
  destruct (to_digit 10 b) eqn:Hb; [|by intros [= <- <-]].
  destruct (span_digits 10 l) as [ds' rest'] eqn:Hs. intros [= <- <-].
  rewrite <- (IH _ eq_refl). unfold colons. rewrite filter_cons_False; [done|].
  intros ->. by vm_compute in Hb.
Qed.

Lemma read_octet_colons l v rest : read_octet l = Some (v, rest) → colons l = colons rest.
Proof.
  unfold read_octet, read_number. destruct (span_digits 10 l) as [ds r] eqn:Hs.
  destruct (_ || _); [done|]. destruct (_ && _); [done|]. destruct (_ <=? _); [|done].
  intros [= <- <-]. by eapply span_digits_colons.
Qed.

Lemma read_dot_colons l rest : read_char dot l = Some rest → colons l = colons rest.
Proof. intros ->%read_char_Some. unfold colons. by rewrite filter_cons_False. Qed.

Lemma read_ipv4_colons l a rest : read_ipv4 l = Some (a, rest) → colons l = colons rest.
Proof.
  unfold read_ipv4. intros Hr.
  destruct (read_octet l) as [[o0 l0]|] eqn:E0; [|done]. simpl in Hr.
  destruct (read_char _ l0) as [l1|] eqn:E1; [|done]. simpl in Hr.
  destruct (read_octet l1) as [[o1 l2]|] eqn:E2; [|done]. simpl in Hr.
  destruct (read_char _ l2) as [l3|] eqn:E3; [|done]. simpl in Hr.
  destruct (read_octet l3) as [[o2 l4]|] eqn:E4; [|done]. simpl in Hr.
  destruct (read_char _ l4) as [l5|] eqn:E5; [|done]. simpl in Hr.
  destruct (read_octet l5) as [[o3 l6]|] eqn:E6; [|done]. simpl in Hr.
  injection Hr as <- <-.
  apply read_octet_colons in E0, E2, E4, E6. apply read_dot_colons in E1, E3, E5. congruence.
Qed.

(** Text with exactly one colon is no address. *)
Lemma parse_ip_one_colon s : colons (bytes s) = 1%nat → parse_ip s = None.
Proof.
  intros Hone. unfold parse_ip.
  destruct (read_ipv4 (bytes s)) as [[a [|b l]]|] eqn:H4; [|done|].
  - apply read_ipv4_colons in H4. by rewrite Hone in H4.
  - destruct (read_ipv6 (bytes s)) as [[a l]|] eqn:H6; [|done].
    apply read_ipv6_colons in H6. lia.
Qed.

Lemma colons_none l : colon ∉ l → colons l = 0%nat.
Proof.
  unfold colons. induction l as [|b l IH]; intros Hl; [done|].
  rewrite filter_cons_False by set_solver. apply IH. set_solver.
Qed.

(** ** Trimming text that needs none *)

(** White space before a separator that is no white space is white space without it. *)
Lemma strip_token_app c toks h r :
  (∀ t, t ∈ toks → c ∉ t) →
  strip_token toks (h ++ c :: r) = None ↔ strip_token toks h = None.
Proof.
  intros Hc. rewrite !strip_token_None. split.
  - intros Hn t q Ht ->. apply (Hn t (q ++ c :: r) Ht). by rewrite <- app_assoc.
  - intros Hn t q Ht Heq. apply app_eq_inv in Heq as [(k & -> & Hk)|(k & -> & Hk)].
    + by apply (Hn t k Ht).
    + destruct k as [|b k]; simplify_eq/=.
      * apply (Hn h [] ltac:(by rewrite app_nil_r in Ht)). by rewrite app_nil_r.
      * apply (Hc _ Ht). set_solver.
Qed.

Lemma strip_token_head b toks r :
  (∀ t, t ∈ toks → t ≠ [] ∧ head t ≠ Some b) → strip_token toks (b :: r) = None.
Proof.
  intros Hh. rewrite strip_token_None. intros [|b' t] q Ht Heq; [by apply Hh in Ht as []|].
  apply Hh in Ht as [_ Ht]. simplify_eq/=.
Qed.

(** Bytes that are in no white space *)
Definition no_space (b : byte) : bool :=
  forallb (λ t, negb (bool_decide (b ∈ t))) whitespace.

Lemma no_space_free b t : no_space b = true → t ∈ whitespace → b ∉ t.
Proof.
  unfold no_space. rewrite forallb_forall. intros Hb Ht%list_elem_of_In.
  specialize (Hb t Ht). apply negb_true_iff in Hb. by apply bool_decide_eq_false in Hb.
Qed.

Lemma no_space_head b r : no_space b = true → strip_token whitespace (b :: r) = None.
Proof.
  intros Hb. apply strip_token_head. intros t Ht. split; [by apply whitespace_nonempty|].
  intros Hh. apply (no_space_free b t Hb Ht). destruct t; simplify_eq/=. left.
Qed.

Lemma no_space_last b r : no_space b = true →
  strip_token (reverse <$> whitespace) (reverse (r ++ [b])) = None.
Proof.
  intros Hb. rewrite reverse_app. change (reverse [b] ++ reverse r) with (b :: reverse r).
  apply strip_token_head.
  intros t Ht. split; [by apply whitespace_rev_nonempty|]. intros Hh.
  apply list_elem_of_fmap in Ht as (u & -> & Hu). apply (no_space_free b u Hb Hu).
  apply elem_of_reverse. destruct (reverse u); simplify_eq/=. left.
Qed.

Lemma no_space_visible b : 33 ≤ byte_val b < 128 → no_space b = true.
Proof.
  intros Hb. destruct b; first [vm_compute; reflexivity|exfalso;
    match type of Hb with context [byte_val ?x] =>
      let v := eval vm_compute in (byte_val x) in change (byte_val x) with v in Hb end; lia].
Qed.
