(* ===== verification/Config.v ===== *)
(** * The command line (src/main.rs)

    The values of the options and what [main] makes of them: the mesh configuration,
    the control URLs, the advertised DNS servers, and the state of the application.
    Error values carry the message. *)

From S2P Require Import Prelude RustStd StdNet StdText Externals Model Store Auth.

(** [x ← m?]: an error returns *)
Notation "'let?' x := m 'in' k" := (match m with Ok x => k | Err e => Err e end)
  (at level 10, x pattern, k at level 200).

Definition comma : byte := Byte.x2c.
Definition slash : byte := Byte.x2f.
Definition equals : byte := Byte.x3d.
Definition open_bracket : byte := Byte.x5b.
Definition close_bracket : byte := Byte.x5d.

Record Args : Type := mkArgs {
  ar_listen : string;
  ar_state : PathBuf;
  ar_db_url : option string;
  ar_db_url_file : option string;
  ar_admin_token : option string;
  ar_stun : list string;
  ar_turn : list string;
  ar_stream_relay : list string;
  ar_udp_relay : list string;
  ar_dns_server : list string;
  ar_udp_relay_listen : option string;
  ar_stream_relay_listen : option string;
  ar_dns_listen : option string;
  ar_mesh_server_id : option string;
  ar_mesh_listen : option string;
  ar_mesh_peer : list string;
  ar_mesh_ca_cert : option string;
  ar_mesh_cert : option string;
  ar_mesh_key : option string;
  ar_mesh_max_hops : Z;
  ar_control_url : list string;
}.

(** ** The mesh *)

Record MeshPeer : Type := mkMeshPeer {
  mp_id : string;
  mp_addr : string;
}.

Record MeshConfig : Type := mkMeshConfig {
  mcf_server_id : string;
  mcf_listen : SockAddr;
  mcf_peers : list MeshPeer;
  mcf_ca_cert_path : string;
  mcf_cert_path : string;
  mcf_key_path : string;
  mcf_max_hops : Z;
}.

(** One round of the loop of [parse_mesh_peers]: [splitn(2, '=')] gives one or two parts *)
Definition parse_mesh_peer (value : string) : result MeshPeer string :=
  let '(first, second) := match split_once equals value with
                          | Some (first, second) => (first, second)
                          | None => (value, "")
                          end in
  let id := trim first in
  let addr := trim second in
  if is_empty id || is_empty addr
  then Err ("invalid --mesh-peer value " +:+ value +:+ "; expected ID=HOST:PORT")
  else Ok (mkMeshPeer id addr).

Fixpoint parse_mesh_peers (values : list string) : result (list MeshPeer) string :=
  match values with
  | [] => Ok []
  | value :: values =>
      let? peer := parse_mesh_peer value in
      let? peers := parse_mesh_peers values in
      Ok (peer :: peers)
  end.

(** [o.ok_or_else(|| e)] *)
Definition ok_or_msg {A} (o : option A) (e : string) : result A string :=
  match o with Some a => Ok a | None => Err e end.

Definition build_mesh_config (args : Args) : result (option MeshConfig) string :=
  let enabled := is_some (ar_mesh_server_id args) || is_some (ar_mesh_listen args)
                 || negb (bool_decide (ar_mesh_peer args = []))
                 || is_some (ar_mesh_ca_cert args) || is_some (ar_mesh_cert args)
                 || is_some (ar_mesh_key args) in
  if negb enabled then Ok None
  else
    let? server_id := ok_or_msg (ar_mesh_server_id args) "mesh requires --mesh-server-id" in
    let? listen_raw := ok_or_msg (ar_mesh_listen args) "mesh requires --mesh-listen" in
    let? listen := ok_or_msg (parse_socket_addr listen_raw) "invalid socket address syntax" in
    let? ca_cert_path := ok_or_msg (ar_mesh_ca_cert args) "mesh requires --mesh-ca-cert" in
    let? cert_path := ok_or_msg (ar_mesh_cert args) "mesh requires --mesh-cert" in
    let? key_path := ok_or_msg (ar_mesh_key args) "mesh requires --mesh-key" in
    let? peers := parse_mesh_peers (ar_mesh_peer args) in
    if bool_decide (peers = []) then Err "mesh requires at least one --mesh-peer"
    else if ar_mesh_max_hops args =? 0 then Err "--mesh-max-hops must be > 0"
    else Ok (Some (mkMeshConfig server_id listen peers ca_cert_path cert_path key_path
                     (ar_mesh_max_hops args))).

(** ** Control URLs *)

Definition url_scheme_ok (url : string) : bool :=
  starts_with "http://" url || starts_with "https://" url.

(** The inner loop, over the candidates of one value *)
Fixpoint control_url_candidates (candidates : list string) : result (list string) string :=
  match candidates with
  | [] => Ok []
  | candidate :: candidates =>
      let trimmed := trim_end_matches slash (trim candidate) in
      if is_empty trimmed then control_url_candidates candidates
      else if negb (url_scheme_ok trimmed)
      then Err ("invalid --control-url value " +:+ candidate
                +:+ "; expected http:// or https:// URL")
      else let? urls := control_url_candidates candidates in Ok (trimmed :: urls)
  end.

Fixpoint control_url_values (values : list string) : result (list string) string :=
  match values with
  | [] => Ok []
  | value :: values =>
      let? here := control_url_candidates (split comma value) in
      let? rest := control_url_values values in
      Ok (here ++ rest)
  end.

Definition normalize_control_urls (values : list string) : result (list string) string :=
  let? urls := control_url_values values in Ok (sort_dedup urls).

(** ** DNS servers *)

Definition DEFAULT_DNS_PORT : Z := 53.

Definition format_host_port (host : string) (port : Z) : string :=
  if contains_char colon host && negb (starts_with "[" host)
  then "[" +:+ host +:+ "]:" +:+ uint_to_string port
  else host +:+ ":" +:+ uint_to_string port.

Definition parse_port (port_raw : string) : result Z string :=
  ok_or_msg (parse_uint u16_max port_raw) "invalid port".

Definition split_host_port (value : string) : result (string * Z) string :=
  let value := trim value in
  if is_empty value then Err "missing host"
  else match strip_prefix "[" value with
  | Some stripped =>
      match split_once close_bracket stripped with
      | None => Err "missing closing bracket"
      | Some (host, rest) =>
          if is_empty rest then Ok (host, DEFAULT_DNS_PORT)
          else match strip_prefix ":" rest with
               | Some port_raw => let? port := parse_port port_raw in Ok (host, port)
               | None => Err "invalid bracketed host"
               end
      end
  | None =>
      match parse_ip value with
      | Some ip => Ok (ip_to_string ip, DEFAULT_DNS_PORT)
      | None =>
          match rsplit_once colon value with
          | Some (host, port_raw) =>
              if is_empty host then Err "missing host"
              else if contains_char colon host
              then Err "IPv6 addresses with port must be bracketed"
              else let? port := parse_port port_raw in Ok (host, port)
          | None => Ok (value, DEFAULT_DNS_PORT)
          end
      end
  end.

Fixpoint dns_server_values (values : list string) : result (list string) string :=
  match values with
  | [] => Ok []
  | raw :: values =>
      let trimmed := trim raw in
      if is_empty trimmed then dns_server_values values
      else match split_host_port trimmed with
           | Err _ => Err ("invalid dns server value " +:+ trimmed
               +:+ "; expected HOST[:PORT] (IPv6 with port must use [addr]:port)")
           | Ok (host, port) =>
               let? out := dns_server_values values in Ok (format_host_port host port :: out)
           end
  end.

Definition normalize_dns_server_values (values : list string) : result (list string) string :=
  let? out := dns_server_values values in Ok (sort_dedup out).

Definition extract_control_url_host (url : string) : option string :=
  rest ← match strip_prefix "https://" url with
         | Some rest => Some rest
         | None => strip_prefix "http://" url
         end;
  authority ← head (split slash rest);
  if is_empty authority then None
  else if starts_with "[" authority then
    (* [authority[1..end]] with [end] the first closing bracket *)
    '(before, _) ← split_once close_bracket authority;
    strip_prefix "[" before
  else
    match rsplit_once colon authority with
    | Some (host, _) => if is_empty host then Some authority else Some host
    | None => Some authority
    end.

Definition resolve_dns_servers (explicit : list string) (dns_listen : option string)
    (control_urls : list string) : result (list string) string :=
  if negb (bool_decide (explicit = [])) then normalize_dns_server_values explicit
  else
    match dns_listen with
    | None => Ok []
    | Some listen_raw =>
        let? listen_addr := ok_or_msg (parse_socket_addr listen_raw)
                              ("invalid --dns-listen value " +:+ listen_raw) in
        let values := omap (λ control_url,
                        host ← extract_control_url_host control_url;
                        Some (format_host_port host (sa_port listen_addr))) control_urls in
        let values := if bool_decide (values = []) && negb (is_unspecified (sa_ip listen_addr))
                      then [socket_addr_to_string listen_addr] else values in
        normalize_dns_server_values values
    end.

(** The unit tests of main.rs *)
Example split_host_port_defaults_to_53_when_port_omitted :
  split_host_port "dns.example.com" = Ok ("dns.example.com", 53) ∧
  split_host_port "[2001:db8::10]" = Ok ("2001:db8::10", 53).
Proof. split; vm_compute; reflexivity. Qed.
Example split_host_port_rejects_invalid_unbracketed_ipv6 :
  is_ok (split_host_port "2001:db8::10:70000") = false.
Proof. vm_compute. reflexivity. Qed.
Example normalize_dns_server_values_deduplicates_values :
  normalize_dns_server_values
    ["dns.example.com"; "dns.example.com:53"; "[2001:db8::1]"; "[2001:db8::1]:53"]
  = Ok ["[2001:db8::1]:53"; "dns.example.com:53"].
Proof. vm_compute. reflexivity. Qed.
Example resolve_dns_servers_derives_from_control_url_and_listen :
  resolve_dns_servers [] (Some "0.0.0.0:5353") ["https://control.example.com"]
  = Ok ["control.example.com:5353"].
Proof. vm_compute. reflexivity. Qed.
Example extract_control_url_host_handles_ipv6_url :
  extract_control_url_host "https://[2001:db8::10]:8443" = Some "2001:db8::10".
Proof. vm_compute. reflexivity. Qed.

(** ** Hosts and ports *)

(** Hosts that can be written before a port: in brackets when there is a colon, and
    otherwise such that nothing of the host is taken for white space or a bracket *)
Definition host_ok (host : string) : Prop :=
  head (bytes host) ≠ Some open_bracket ∧
  if contains_char colon host then close_bracket ∉ bytes host
  else host ≠ "" ∧ strip_token whitespace (bytes host) = None.

Lemma print_dec_last z : ∃ l b, print_dec z = l ++ [b] ∧ no_space b = true.
Proof.
  destruct (exists_last (print_dec_nonempty z)) as (l & b & Hz).
  exists l, b. split; [done|]. apply no_space_visible.
  assert (b ∈ print_dec z) as Hb by (rewrite Hz; set_solver).
  apply print_dec_digits in Hb. lia.
Qed.

(** Text that ends in a number and starts with no white space is trimmed. *)
Lemma trim_before_port l port :
  strip_token whitespace (l ++ print_dec port) = None →
  trim (str (l ++ print_dec port)) = str (l ++ print_dec port).
Proof.
  intros Hs. unfold trim. rewrite bytes_str, trim_bytes_id; [done|done|].
  destruct (print_dec_last port) as (p & b & -> & Hb). rewrite app_assoc. by apply no_space_last.
Qed.

Lemma strip_prefix_char c s : strip_prefix (str [c]) s =
  match bytes s with b :: l => if decide (c = b) then Some (str l) else None | [] => None end.
Proof.
  unfold strip_prefix. rewrite bytes_str. simpl. destruct (bytes s) as [|b l]; [done|].
  by case_decide.
Qed.

Lemma print_dec_no_colon port : colon ∉ print_dec port.
Proof.
  intros Hin%print_dec_digits. change (byte_val colon) with 58 in Hin. lia.
Qed.

Lemma parse_port_print port : 0 ≤ port ≤ u16_max → parse_port (str (print_dec port)) = Ok port.
Proof.
  intros Hp. unfold parse_port. change (str (print_dec port)) with (uint_to_string port).
  rewrite parse_uint_print; [done|done|]. unfold u16_max in Hp. lia.
Qed.

Lemma split_host_port_bracketed host port :
  close_bracket ∉ bytes host → 0 ≤ port ≤ u16_max →
  split_host_port ("[" +:+ host +:+ "]:" +:+ uint_to_string port) = Ok (host, port).
Proof.
  intros Hfree Hport. unfold split_host_port.
  assert ("[" +:+ host +:+ "]:" +:+ uint_to_string port =
    str (open_bracket :: bytes host ++ [close_bracket; colon] ++ print_dec port)) as ->.
  { apply (inj bytes). rewrite !bytes_app, bytes_str. unfold uint_to_string.
    by rewrite bytes_str. }
  change (open_bracket :: bytes host ++ [close_bracket; colon] ++ print_dec port) with
    ([open_bracket] ++ bytes host ++ [close_bracket; colon] ++ print_dec port).
  rewrite !app_assoc, trim_before_port.
  2: { rewrite <- !app_assoc. by apply no_space_head. }
  rewrite <- !app_assoc, is_empty_bytes, bytes_str. cbn [app].
  rewrite bool_decide_eq_false_2 by done.
  change "[" with (str [open_bracket]). rewrite strip_prefix_char, bytes_str.
  rewrite decide_True by done. unfold split_once. rewrite bytes_str.
  rewrite (proj2 (split_once_Some close_bracket _ (bytes host) (colon :: print_dec port))).
  2: { done. }
  unfold str_pair. cbn [fmap option_fmap option_map fst snd]. rewrite is_empty_bytes, bytes_str.
  rewrite bool_decide_eq_false_2 by done.
  change ":" with (str [colon]). rewrite strip_prefix_char, bytes_str.
  rewrite decide_True by done. rewrite parse_port_print by done. by rewrite str_bytes.
Qed.

Lemma split_host_port_plain host port :
  host_ok host → contains_char colon host = false → 0 ≤ port ≤ u16_max →
  split_host_port (host +:+ ":" +:+ uint_to_string port) = Ok (host, port).
Proof.
  unfold host_ok. intros [Hopen Hok] Hcolon Hport. rewrite Hcolon in Hok.
  destruct Hok as [Hne Hspace]. unfold contains_char in Hcolon.
  apply bool_decide_eq_false in Hcolon.
  assert (host +:+ ":" +:+ uint_to_string port = str (bytes host ++ [colon] ++ print_dec port)) as ->.
  { apply (inj bytes). rewrite !bytes_app, bytes_str. unfold uint_to_string. by rewrite bytes_str. }
  unfold split_host_port. rewrite app_assoc, trim_before_port.
  2: { rewrite <- app_assoc. apply strip_token_app; [|done].
       intros t Ht. by apply no_space_free. }
  rewrite <- app_assoc, is_empty_bytes, bytes_str.
  rewrite bool_decide_eq_false_2 by (by destruct (bytes host)).
  change "[" with (str [open_bracket]). rewrite strip_prefix_char, bytes_str.
  assert (bytes host ≠ []) as Hnil.
  { intros Hnil. apply Hne. apply (inj bytes). by rewrite Hnil. }
  destruct (bytes host) as [|b l] eqn:Hb; [done|]. cbn [app head] in *.
  rewrite decide_False by congruence.
  rewrite parse_ip_one_colon.
  2: { rewrite bytes_str. change (b :: l ++ colon :: print_dec port) with
         ((b :: l) ++ [colon] ++ print_dec port). rewrite !colons_app.
       rewrite (colons_none (b :: l)), (colons_none (print_dec port));
         [done|apply print_dec_no_colon|done]. }
  unfold rsplit_once. rewrite bytes_str.
  rewrite (proj2 (rsplit_once_Some colon _ (b :: l) (print_dec port))).
  2: { split; [done|apply print_dec_no_colon]. }
  unfold str_pair. cbn [fmap option_fmap option_map fst snd].
  rewrite is_empty_bytes, bytes_str, bool_decide_eq_false_2 by done.
  unfold contains_char. rewrite bytes_str, bool_decide_eq_false_2 by done.
  rewrite parse_port_print by done. by rewrite <- Hb, str_bytes.
Qed.

Lemma starts_with_bracket s : starts_with "[" s = bool_decide (head (bytes s) = Some open_bracket).
Proof.
  unfold starts_with. change (bytes "[") with [open_bracket]. simpl.
  destruct (bytes s) as [|b l]; [done|]. simpl.
  case_decide; [by rewrite bool_decide_eq_true_2 by congruence|].
  by rewrite bool_decide_eq_false_2 by congruence.
Qed.

Lemma split_format host port :
  host_ok host → 0 ≤ port ≤ u16_max →
  split_host_port (format_host_port host port) = Ok (host, port).
Proof.
  intros Hok Hport. unfold format_host_port. rewrite starts_with_bracket.
  rewrite (bool_decide_eq_false_2 (head (bytes host) = _)) by apply Hok.
  destruct (contains_char colon host) eqn:Hcolon; simpl.
  - apply split_host_port_bracketed; [|done]. destruct Hok as [_ Hok]. by rewrite Hcolon in Hok.
  - by apply split_host_port_plain.
Qed.

(** The bytes of a printed address *)
Definition addr_byte (b : byte) : bool :=
  let v := byte_val b in ((46 <=? v) && (v <=? 58)) || ((97 <=? v) && (v <=? 102)).

Lemma print_dec_addr z : Forall (λ b, addr_byte b = true) (print_dec z).
Proof.
  apply Forall_forall. intros b Hb%print_dec_digits. unfold addr_byte. lia.
Qed.

Lemma print_hex_addr z : Forall (λ b, addr_byte b = true) (print_hex z).
Proof.
  apply Forall_forall. intros b (d & -> & Hd)%list_elem_of_fmap.
  pose proof (to_radix_digits 16 z ltac:(lia)) as Hall. rewrite Forall_forall in Hall.
  specialize (Hall d Hd). simpl in Hall. unfold addr_byte, digit_byte.
  destruct (Z.ltb_spec d 10); rewrite byte_val_of by lia; lia.
Qed.

Lemma print_ipv4_addr a : Forall (λ b, addr_byte b = true) (print_ipv4 a).
Proof.
  unfold print_ipv4. destruct (octets a) as [[[o0 o1] o2] o3].
  repeat (apply Forall_app; split; [apply print_dec_addr|]; apply Forall_cons; split; [done|]).
  apply print_dec_addr.
Qed.

Lemma print_segments_addr gs : Forall (λ b, addr_byte b = true) (print_segments gs).
Proof.
  destruct gs as [|g gs]; [constructor|]. apply Forall_app. split; [apply print_hex_addr|].
  induction gs as [|g' gs IH]; [constructor|]. unfold print_tail. rewrite bind_cons.
  apply Forall_app. split; [|exact IH]. constructor; [done|apply print_hex_addr].
Qed.

Lemma print_ipv6_addr a : Forall (λ b, addr_byte b = true) (print_ipv6 a).
Proof.
  unfold print_ipv6. destruct (to_ipv4_mapped a).
  - rewrite !Forall_app. repeat split; try apply print_hex_addr; try apply print_ipv4_addr;
      by repeat constructor.
  - destruct (zero_run _ _ _ _) as [start len]. destruct (_ <? _)%nat.
    + rewrite !Forall_app. repeat split; try apply print_segments_addr; by repeat constructor.
    + apply print_segments_addr.
Qed.

Lemma print_ipv6_colon a : colon ∈ print_ipv6 a.
Proof.
  unfold print_ipv6. destruct (to_ipv4_mapped a); [left|].
  destruct (zero_run _ _ _ _) as [start len]. destruct (_ <? _)%nat.
  { apply elem_of_app. right. left. }
  assert (length (segments a) = 8%nat) as Hlen by done.
  destruct (segments a) as [|g0 [|g1 gs]]; [done..|]. cbn [print_segments].
  apply elem_of_app. right. unfold print_tail. rewrite bind_cons. left.
Qed.

(** The text of an address can be written before a port. *)
Lemma ip_host_ok ip : host_ok (ip_to_string ip).
Proof.
  assert (∀ l, l ≠ [] → Forall (λ b, addr_byte b = true) l → host_ok (str l)) as Hok.
  { intros l Hne Hall. unfold host_ok, contains_char. rewrite bytes_str.
    rewrite Forall_forall in Hall. split.
    - destruct l as [|b l]; [done|]. intros [= ->].
      by specialize (Hall open_bracket ltac:(set_solver)).
    - case_bool_decide; [intros Hin; by specialize (Hall _ Hin)|].
      split; [intros Heq; apply Hne; by rewrite <- (bytes_str l), Heq|].
      destruct l as [|b l]; [done|]. apply no_space_head, no_space_visible.
      specialize (Hall b ltac:(set_solver)). unfold addr_byte in Hall. lia. }
  destruct ip as [a|a]; apply Hok.
  - unfold print_ipv4. destruct (octets a) as [[[o0 o1] o2] o3].
    intros [Hnil _]%app_eq_nil. by apply print_dec_nonempty in Hnil.
  - apply print_ipv4_addr.
  - intros Hnil. pose proof (print_ipv6_colon a) as Hc. rewrite Hnil in Hc. set_solver.
  - apply print_ipv6_addr.
Qed.

(** What [split_host_port] takes from text without brackets *)
Lemma split_host_port_ok value host port :
  head (bytes (trim value)) ≠ Some open_bracket →
  split_host_port value = Ok (host, port) → host_ok host ∧ 0 ≤ port ≤ u16_max.
Proof.
  intros Hopen. unfold split_host_port. destruct (is_empty (trim value)) eqn:Hne; [done|].
  change "[" with (str [open_bracket]). rewrite strip_prefix_char.
  rewrite is_empty_bytes in Hne. apply bool_decide_eq_false in Hne.
  destruct (bytes (trim value)) as [|b l] eqn:Hv; [done|]. simpl in Hopen.
  rewrite decide_False by congruence.
  assert (strip_token whitespace (b :: l) = None) as Hspace.
  { rewrite <- Hv. unfold trim. rewrite bytes_str. apply trim_bytes_start. }
  destruct (parse_ip (trim value)) as [ip|].
  { intros [= <- <-]. split; [apply ip_host_ok|]. unfold u16_max, DEFAULT_DNS_PORT. lia. }
  unfold rsplit_once. rewrite Hv.
  destruct (rsplit_once_bytes colon (b :: l)) as [[h p]|] eqn:Hr.
  - apply rsplit_once_Some in Hr as [Heq _]. unfold str_pair. cbn [fmap option_fmap option_map fst snd].
    destruct (is_empty (str h)) eqn:Hh; [done|].
    destruct (contains_char colon (str h)) eqn:Hc; [done|].
    unfold parse_port. destruct (parse_uint u16_max (str p)) as [z|] eqn:Hp; [|done].
    intros [= <- <-]. split; [|by eapply parse_uint_range]. unfold host_ok. rewrite Hc.
    rewrite bytes_str. split; [by destruct h as [|b' h]; simplify_eq/=|].
    split; [intros Heq'; by rewrite Heq' in Hh|].
    rewrite Heq in Hspace. apply strip_token_app in Hspace; [done|].
    intros t Ht. by apply no_space_free.
  - intros [= <- <-]. apply rsplit_once_None in Hr.
    split; [|unfold u16_max, DEFAULT_DNS_PORT; lia]. unfold host_ok, contains_char. rewrite Hv.
    rewrite bool_decide_eq_false_2 by done. split; [done|]. split; [|done].
    intros Heq. by rewrite Heq in Hv.
Qed.

(** ** Lists of values

    The loops over values have one shape: a value is skipped, refused or kept. *)
Fixpoint collect {A B E} (f : A → option (result B E)) (l : list A) : result (list B) E :=
  match l with
  | [] => Ok []
  | a :: l =>
      match f a with
      | None => collect f l
      | Some r => let? b := r in let? bs := collect f l in Ok (b :: bs)
      end
  end.

Section Collect.
Context {A B E : Type} (f : A → option (result B E)).

Lemma collect_app l1 l2 :
  collect f (l1 ++ l2) =
  let? b1 := collect f l1 in let? b2 := collect f l2 in Ok (b1 ++ b2).
Proof.
  induction l1 as [|a l1 IH]; simpl; [by destruct (collect f l2)|].
  destruct (f a) as [[b|e]|]; [|done|done]. rewrite IH.
  destruct (collect f l1); [|done]. by destruct (collect f l2).
Qed.

Lemma collect_spec l :
  match collect f l with
  | Ok out => (∀ b, b ∈ out ↔ ∃ a, a ∈ l ∧ f a = Some (Ok b)) ∧
              (∀ a e, a ∈ l → f a ≠ Some (Err e))
  | Err e => ∃ a, a ∈ l ∧ f a = Some (Err e)
  end.
Proof.
  induction l as [|a l IH]; simpl; [split; set_solver|].
  destruct (f a) as [[b|e]|] eqn:Ha.
  - destruct (collect f l) as [out|e].
    + destruct IH as [Hin Herr]. setoid_rewrite elem_of_cons. setoid_rewrite Hin. naive_solver.
    + destruct IH as (a' & Ha' & Hf). exists a'. split; [by right|done].
  - exists a. split; [left|done].
  - destruct (collect f l) as [out|e].
    + destruct IH as [Hin Herr]. setoid_rewrite elem_of_cons. setoid_rewrite Hin. naive_solver.
    + destruct IH as (a' & Ha' & Hf). exists a'. split; [by right|done].
Qed.
End Collect.

(** What one value contributes to the DNS servers *)
Definition dns_entry (raw : string) : option (result string string) :=
  let trimmed := trim raw in
  if is_empty trimmed then None
  else match split_host_port trimmed with
       | Ok (host, port) => Some (Ok (format_host_port host port))
       | Err _ => Some (Err ("invalid dns server value " +:+ trimmed
           +:+ "; expected HOST[:PORT] (IPv6 with port must use [addr]:port)"))
       end.

Lemma dns_server_values_collect values : dns_server_values values = collect dns_entry values.
Proof.
  induction values as [|raw values IH]; [done|]. cbn [dns_server_values collect].
  unfold dns_entry at 1. destruct (is_empty (trim raw)); [exact IH|].
  destruct (split_host_port (trim raw)) as [[host port]|]; [|done]. by rewrite IH.
Qed.

(** What one candidate contributes to the control URLs *)
Definition url_entry (candidate : string) : option (result string string) :=
  let trimmed := trim_end_matches slash (trim candidate) in
  if is_empty trimmed then None
  else if url_scheme_ok trimmed then Some (Ok trimmed)
  else Some (Err ("invalid --control-url value " +:+ candidate
                  +:+ "; expected http:// or https:// URL")).

Lemma control_url_values_collect values :
  control_url_values values = collect url_entry (values ≫= split comma).
Proof.
  assert (∀ cs, control_url_candidates cs = collect url_entry cs) as Hcs.
  { induction cs as [|c cs IH]; [done|]. cbn [control_url_candidates collect].
    unfold url_entry at 1. destruct (is_empty _); [exact IH|].
    destruct (url_scheme_ok _); [|done]. simpl. by rewrite IH. }
  induction values as [|v values IH]; [done|]. cbn [control_url_values].
  by rewrite bind_cons, collect_app, Hcs, IH.
Qed.

Lemma parse_mesh_peers_collect values :
  parse_mesh_peers values = collect (λ v, Some (parse_mesh_peer v)) values.
Proof. induction values as [|v values IH]; [done|]. simpl. by rewrite IH. Qed.

(** A host and a port that are written with [format_host_port] are read back by
    [split_host_port], for every host that can be written before a port: IPv6 addresses
    are bracketed, names are not. *)
Theorem host_port_roundtrip host port :
  host_ok host → 0 ≤ port ≤ u16_max →
  split_host_port (format_host_port host port) = Ok (host, port).
Proof. apply split_format. Qed.

Lemma split_host_port_trim value : split_host_port (trim value) = split_host_port value.
Proof. unfold split_host_port. by rewrite trim_idemp. Qed.

(** An entry of which the host can be written before a port is an entry for itself. *)
Lemma dns_entry_stable host port :
  host_ok host → 0 ≤ port ≤ u16_max →
  dns_entry (format_host_port host port) = Some (Ok (format_host_port host port)).
Proof.
  intros Hok Hport. pose proof (split_format host port Hok Hport) as Hs.
  unfold dns_entry. rewrite split_host_port_trim, Hs.
  destruct (is_empty (trim (format_host_port host port))) eqn:He; [|done].
  unfold split_host_port in Hs. by rewrite He in Hs.
Qed.

(** The advertised DNS servers are sorted, without repetitions, and are the servers
    that the values name, each with its port; two spellings of one server count once.
    The values are refused exactly when one of them is no host with an optional port. *)
Theorem dns_servers_spec values :
  match normalize_dns_server_values values with
  | Ok out => StronglySorted str_lt out ∧
      (∀ e, e ∈ out ↔ ∃ raw, raw ∈ values ∧ dns_entry raw = Some (Ok e)) ∧
      (∀ raw e, raw ∈ values → dns_entry raw ≠ Some (Err e))
  | Err _ => ∃ raw e, raw ∈ values ∧ dns_entry raw = Some (Err e)
  end.
Proof.
  unfold normalize_dns_server_values. rewrite dns_server_values_collect.
  pose proof (collect_spec dns_entry values) as Hspec. destruct (collect dns_entry values).
  - split; [apply sort_dedup_sorted|]. split; [|apply Hspec]. intros e.
    rewrite elem_of_sort_dedup. apply Hspec.
  - destruct Hspec as (raw & Hraw & Hentry). eauto.
Qed.

(** The advertised list is in normal form: putting the servers through the parser
    once more changes nothing.  Of the values in brackets this needs that what is in
    the brackets can be written before a port. *)
Theorem dns_servers_stable values out :
  normalize_dns_server_values values = Ok out →
  (∀ raw host port, raw ∈ values → head (bytes (trim raw)) = Some open_bracket →
     split_host_port raw = Ok (host, port) → host_ok host ∧ 0 ≤ port ≤ u16_max) →
  normalize_dns_server_values out = Ok out.
Proof.
  unfold normalize_dns_server_values. rewrite !dns_server_values_collect.
  pose proof (collect_spec dns_entry values) as Hok.
  destruct (collect dns_entry values) as [out0|]; [|done]. destruct Hok as [Hok _].
  intros [= <-] Hbr.
  assert (∀ e, e ∈ sort_dedup out0 → dns_entry e = Some (Ok e)) as Hself.
  { intros e He. rewrite elem_of_sort_dedup, Hok in He. destruct He as (raw & Hraw & Hentry).
    unfold dns_entry in Hentry. destruct (is_empty _); [done|]. rewrite split_host_port_trim in Hentry.
    destruct (split_host_port raw) as [[host port]|] eqn:Hs; [|done]. injection Hentry as <-.
    destruct (decide (head (bytes (trim raw)) = Some open_bracket)) as [Hb|Hb].
    - destruct (Hbr raw host port) as [? ?]; [done..|]. by apply dns_entry_stable.
    - apply split_host_port_ok in Hs as [? ?]; [|done]. by apply dns_entry_stable. }
  set (out := sort_dedup out0) in *. pose proof (collect_spec dns_entry out) as Hout.
  destruct (collect dns_entry out) as [out1|].
  - destruct Hout as [Hout _]. f_equal. apply strictly_sorted_unique; [apply sort_dedup_sorted..|]. intros e.
    rewrite elem_of_sort_dedup, Hout. split.
    + intros (raw & Hraw & Hentry). rewrite (Hself raw Hraw) in Hentry. by simplify_eq.
    + intros He. exists e. auto.
  - destruct Hout as (raw & Hraw & Hentry). by rewrite (Hself raw Hraw) in Hentry.
Qed.

(** Brackets around nothing are taken for a host: the server then advertises a
    DNS server without a host, which it would refuse if it were given as a value. *)
Theorem empty_brackets_accepted :
  normalize_dns_server_values ["[]"] = Ok [":53"] ∧
  is_ok (normalize_dns_server_values [":53"]) = false.
Proof. split; vm_compute; reflexivity. Qed.

(** The control URLs are sorted, without repetitions, and are the candidates between
    the commas, without surrounding white space and trailing slashes; every one has the
    http or https scheme.  The values are refused exactly when a candidate that is not
    empty has neither. *)
Theorem control_urls_spec values :
  match normalize_control_urls values with
  | Ok urls => StronglySorted str_lt urls ∧
      (∀ u, u ∈ urls ↔ ∃ v c, v ∈ values ∧ c ∈ split comma v ∧ u ≠ "" ∧
         u = trim_end_matches slash (trim c)) ∧
      (∀ u, u ∈ urls → url_scheme_ok u = true)
  | Err _ => ∃ v c, v ∈ values ∧ c ∈ split comma v ∧
      let u := trim_end_matches slash (trim c) in u ≠ "" ∧ url_scheme_ok u = false
  end.
Proof.
  unfold normalize_control_urls. rewrite control_url_values_collect.
  pose proof (collect_spec url_entry (values ≫= split comma)) as Hspec.
  destruct (collect _ _) as [urls|e]; unfold url_entry, is_empty in Hspec.
  - destruct Hspec as [Hin Herr]. setoid_rewrite list_elem_of_bind in Hin.
    setoid_rewrite list_elem_of_bind in Herr. split; [apply sort_dedup_sorted|].
    setoid_rewrite elem_of_sort_dedup. setoid_rewrite Hin. split.
    + intros u. split.
      * intros (c & (v & Hc & Hv) & Hu). case_bool_decide; [done|].
        destruct (url_scheme_ok _); [|done]. injection Hu as <-. eauto 6.
      * intros (v & c & Hv & Hc & Hne & ->). exists c. split; [eauto|].
        specialize (Herr c). rewrite bool_decide_eq_false_2 in Herr |- * by done.
        destruct (url_scheme_ok _); [done|]. exfalso. eapply Herr; eauto.
    + intros u (c & _ & Hu). case_bool_decide; [done|].
      destruct (url_scheme_ok _) eqn:Hs; [|done]. by injection Hu as <-.
  - destruct Hspec as (c & (v & Hc & Hv)%list_elem_of_bind & Hu). exists v, c. split; [done|]. split; [done|].
    case_bool_decide; [done|]. by destruct (url_scheme_ok _).
Qed.

(** ** DNS servers derived from the control URLs *)

Lemma read_number_range n l v rest bound :
  read_number 10 n true bound l = Some (v, rest) → 0 ≤ v ≤ bound.
Proof.
  unfold read_number. pose proof (span_digits_nonneg l) as Hds.
  destruct (span_digits 10 l) as [ds r]. destruct (_ || _); [done|]. simpl.
  destruct (Z.leb_spec (from_digits 10 ds) bound); [|done]. intros [= <- _].
  split; [by apply from_digits_nonneg|done].
Qed.

Lemma read_port_range l port rest : read_port l = Some (port, rest) → 0 ≤ port ≤ u16_max.
Proof.
  unfold read_port. destruct (read_char colon l); [|done]. apply read_number_range.
Qed.

Lemma parse_socket_addr_port s addr :
  parse_socket_addr s = Some addr → 0 ≤ sa_port addr ≤ u16_max.
Proof.
  unfold parse_socket_addr.
  destruct (read_ipv4 (bytes s)) as [[a l]|]; cbn [mbind option_bind].
  - destruct (read_port l) as [[port [|]]|] eqn:Hp; cbn [mbind option_bind].
    + intros [= <-]. by eapply read_port_range.
    + done.
    + destruct (read_char Byte.x5b (bytes s)) as [l1|]; cbn [mbind option_bind]; [|done].
      destruct (read_ipv6 l1) as [[b l2]|]; cbn [mbind option_bind]; [|done].
      destruct (read_scope l2) as [scope l3].
      destruct (read_char Byte.x5d l3) as [l4|]; cbn [mbind option_bind]; [|done].
      destruct (read_port l4) as [[port' [|]]|] eqn:Hp'; cbn [mbind option_bind]; [|done..].
      intros [= <-]. by eapply read_port_range.
  - destruct (read_char Byte.x5b (bytes s)) as [l1|]; cbn [mbind option_bind]; [|done].
    destruct (read_ipv6 l1) as [[b l2]|]; cbn [mbind option_bind]; [|done].
    destruct (read_scope l2) as [scope l3].
    destruct (read_char Byte.x5d l3) as [l4|]; cbn [mbind option_bind]; [|done].
    destruct (read_port l4) as [[port' [|]]|] eqn:Hp'; cbn [mbind option_bind]; [|done..].
    intros [= <-]. by eapply read_port_range.
Qed.

(** A printed socket address is a host before a port. *)
Lemma socket_addr_host addr :
  ∃ host, host_ok host ∧ socket_addr_to_string addr = format_host_port host (sa_port addr).
Proof.
  unfold socket_addr_to_string. destruct (sa_ip addr) as [v4|v6].
  - exists (ipv4_to_string v4). split; [exact (ip_host_ok (V4 v4))|]. unfold format_host_port.
    assert (contains_char colon (ipv4_to_string v4) = false) as ->; [|done].
    unfold contains_char, ipv4_to_string. rewrite bytes_str. apply bool_decide_eq_false.
    unfold print_ipv4. destruct (octets v4) as [[[o0 o1] o2] o3].
    rewrite !elem_of_app, !elem_of_cons, !elem_of_app, !elem_of_cons, !elem_of_app, !elem_of_cons.
    pose proof print_dec_no_colon. naive_solver.
  - set (scope := if sa_scope addr =? 0 then "" else "%" +:+ uint_to_string (sa_scope addr)).
    exists (ipv6_to_string v6 +:+ scope).
    assert (Forall (λ b, addr_byte b || bool_decide (b = Byte.x25) = true) (bytes (ipv6_to_string v6 +:+ scope)))
      as Hall.
    { rewrite bytes_app. unfold ipv6_to_string. rewrite bytes_str. apply Forall_app. split.
      - eapply Forall_impl; [apply print_ipv6_addr|]. simpl. intros b ->. done.
      - unfold scope. destruct (_ =? 0); [constructor|]. rewrite bytes_app. constructor; [done|].
        unfold uint_to_string. rewrite bytes_str. eapply Forall_impl; [apply print_dec_addr|].
        simpl. intros b ->. done. }
    assert (contains_char colon (ipv6_to_string v6 +:+ scope) = true) as Hcolon.
    { unfold contains_char. apply bool_decide_eq_true. rewrite bytes_app. unfold ipv6_to_string.
      rewrite bytes_str. apply elem_of_app. left. apply print_ipv6_colon. }
    rewrite Forall_forall in Hall.
    assert (host_ok (ipv6_to_string v6 +:+ scope)) as Hok.
    { unfold host_ok. rewrite Hcolon. split.
      - intros Hh. destruct (bytes _) as [|b l]; [done|]. injection Hh as ->.
        by specialize (Hall open_bracket ltac:(left)).
      - intros Hin. by specialize (Hall _ Hin). }
    split; [done|]. unfold format_host_port. rewrite Hcolon, starts_with_bracket.
    rewrite (bool_decide_eq_false_2 (head _ = _)) by apply Hok. simpl.
    apply (inj bytes). rewrite !bytes_app. by rewrite <- !app_assoc.
Qed.

(** Without explicit servers, the advertised ones are the hosts of the control URLs
    with the port the responder listens on; if no URL has a host, the listen address
    itself, unless that is the wildcard.  This never fails as long as the hosts in the
    URLs can be written before a port. *)
Theorem derived_dns_servers listen_raw addr urls :
  parse_socket_addr listen_raw = Some addr →
  (∀ u host, u ∈ urls → extract_control_url_host u = Some host → host_ok host) →
  ∃ out, resolve_dns_servers [] (Some listen_raw) urls = Ok out ∧ StronglySorted str_lt out ∧
    ∀ e, e ∈ out ↔
      (∃ u host, u ∈ urls ∧ extract_control_url_host u = Some host ∧
         e = format_host_port host (sa_port addr)) ∨
      ((∀ u, u ∈ urls → extract_control_url_host u = None) ∧
       is_unspecified (sa_ip addr) = false ∧ e = socket_addr_to_string addr).
Proof.
  intros Haddr Hhosts. pose proof (parse_socket_addr_port _ _ Haddr) as Hport.
  unfold resolve_dns_servers. rewrite bool_decide_eq_true_2 by done. rewrite Haddr. simpl.
  set (derived := omap _ urls).
  assert (∀ e, e ∈ derived ↔ ∃ u host, u ∈ urls ∧ extract_control_url_host u = Some host ∧
    e = format_host_port host (sa_port addr)) as Hderived.
  { intros e. unfold derived. rewrite list_elem_of_omap. split.
    - intros (u & Hu & Heq). destruct (extract_control_url_host u) as [host|] eqn:Hx; [|done].
      injection Heq as <-. eauto.
    - intros (u & host & Hu & Hx & ->). exists u. by rewrite Hx. }
  set (values := if bool_decide (derived = []) && _ then _ else derived).
  assert (∀ e, e ∈ values ↔ e ∈ derived ∨
    (derived = [] ∧ is_unspecified (sa_ip addr) = false ∧ e = socket_addr_to_string addr)) as Hvalues.
  { intros e. unfold values. destruct (is_unspecified _); simpl.
    - rewrite andb_false_r. naive_solver.
    - rewrite andb_true_r. case_bool_decide as Hnil; [rewrite Hnil|]; set_solver. }
  assert (∀ e, e ∈ values → dns_entry e = Some (Ok e)) as Hself.
  { intros e [He|(_ & _ & ->)]%Hvalues.
    - apply Hderived in He as (u & host & Hu & Hx & ->). apply dns_entry_stable; eauto.
    - destruct (socket_addr_host addr) as (host & Hok & ->). by apply dns_entry_stable. }
  unfold normalize_dns_server_values. rewrite dns_server_values_collect.
  pose proof (collect_spec dns_entry values) as Hspec. destruct (collect dns_entry values) as [out|e].
  - exists (sort_dedup out). split; [done|]. split; [apply sort_dedup_sorted|].
    intros e. rewrite elem_of_sort_dedup. destruct Hspec as [Hin _]. rewrite Hin.
    transitivity (e ∈ values).
    { split; [|eauto]. intros (a & Ha & Hs). rewrite (Hself a Ha) in Hs. by simplify_eq. }
    rewrite Hvalues, Hderived.
    assert (derived = [] ↔ ∀ u, u ∈ urls → extract_control_url_host u = None) as ->; [|done].
    split.
    + intros Hnil u Hu. destruct (extract_control_url_host u) as [host|] eqn:Hx; [|done].
      assert (format_host_port host (sa_port addr) ∈ derived) as Hin' by (apply Hderived; eauto).
      rewrite Hnil in Hin'. set_solver.
    + intros Hnone. destruct derived as [|e' l]; [done|].
      destruct (proj1 (Hderived e') ltac:(left)) as (u & host & Hu & Hx & _).
      rewrite (Hnone u Hu) in Hx. done.
  - destruct Hspec as (a & Ha & Hs). by rewrite (Hself a Ha) in Hs.
Qed.

(** A control URL with a port and no host is not skipped: its port is taken for the
    host, and the server advertises it, in brackets, as a DNS server. *)
Theorem url_without_host_advertised :
  resolve_dns_servers [] (Some "0.0.0.0:5353") ["https://:8443"] = Ok ["[:8443]:5353"].
Proof. vm_compute. reflexivity. Qed.

(** ** The mesh options *)

(** None of the options that ask for a mesh *)
Definition no_mesh_option (args : Args) : Prop :=
  ar_mesh_server_id args = None ∧ ar_mesh_listen args = None ∧ ar_mesh_peer args = [] ∧
  ar_mesh_ca_cert args = None ∧ ar_mesh_cert args = None ∧ ar_mesh_key args = None.

(** The options say what a mesh needs, and [c] is what they say. *)
Record mesh_options (args : Args) (c : MeshConfig) : Prop := {
  mo_server : ar_mesh_server_id args = Some (mcf_server_id c);
  mo_listen : (ar_mesh_listen args ≫= parse_socket_addr) = Some (mcf_listen c);
  mo_ca : ar_mesh_ca_cert args = Some (mcf_ca_cert_path c);
  mo_cert : ar_mesh_cert args = Some (mcf_cert_path c);
  mo_key : ar_mesh_key args = Some (mcf_key_path c);
  mo_peers : Forall2 (λ v p, parse_mesh_peer v = Ok p) (ar_mesh_peer args) (mcf_peers c);
  mo_some_peer : mcf_peers c ≠ [];
  mo_hops : mcf_max_hops c = ar_mesh_max_hops args;
  mo_hops_ne : ar_mesh_max_hops args ≠ 0;
}.

Lemma parse_mesh_peers_Ok values peers :
  parse_mesh_peers values = Ok peers ↔ Forall2 (λ v p, parse_mesh_peer v = Ok p) values peers.
Proof.
  revert peers. induction values as [|v values IH]; intros peers; simpl.
  - split; [intros [= <-]; constructor|]. by inversion 1.
  - destruct (parse_mesh_peer v) as [p|e] eqn:Hp; simpl.
    + destruct (parse_mesh_peers values) as [ps|e]; simpl.
      * split; [intros [= <-]; constructor; [done|by apply IH]|].
        inversion 1 as [|? p' ? ps' Hp' Hps]; subst. apply IH in Hps. congruence.
      * split; [done|]. inversion 1 as [|? p' ? ps' Hp' Hps]; subst. by apply IH in Hps.
    + split; [done|]. inversion 1. congruence.
Qed.

Lemma build_mesh_config_some args :
  ¬ no_mesh_option args →
  match build_mesh_config args with
  | Ok (Some c) => mesh_options args c
  | Ok None => False
  | Err _ => ∀ c, ¬ mesh_options args c
  end.
Proof.
  intros Hopt. unfold build_mesh_config.
  assert (∀ b : bool, (b = false → no_mesh_option args) → b = true) as Htrue by (by intros []; auto).
  rewrite (Htrue (_ || _)).
  2: { intros Hf. apply orb_false_iff in Hf as [Hf Hk]. apply orb_false_iff in Hf as [Hf Hc].
       apply orb_false_iff in Hf as [Hf Ha]. apply orb_false_iff in Hf as [Hf Hp].
       apply orb_false_iff in Hf as [Hi Hl]. apply negb_false_iff, bool_decide_eq_true in Hp.
       unfold is_some in *. unfold no_mesh_option. repeat case_match; naive_solver. }
  simpl. destruct (ar_mesh_server_id args) as [sid|] eqn:Hs; simpl;
    [|intros c []; congruence].
  destruct (ar_mesh_listen args) as [raw|] eqn:Hl; simpl; [|intros c []; by rewrite Hl in *].
  destruct (parse_socket_addr raw) as [listen|] eqn:Hlisten; simpl;
    [|intros c []; rewrite Hl in *; simpl in *; congruence].
  destruct (ar_mesh_ca_cert args) as [ca|] eqn:Hca; simpl; [|intros c []; congruence].
  destruct (ar_mesh_cert args) as [cert|] eqn:Hcert; simpl; [|intros c []; congruence].
  destruct (ar_mesh_key args) as [key|] eqn:Hkey; simpl; [|intros c []; congruence].
  destruct (parse_mesh_peers (ar_mesh_peer args)) as [peers|e] eqn:Hpeers; simpl.
  2: { intros c [? ? ? ? ? Hps _ _ _]. apply parse_mesh_peers_Ok in Hps. congruence. }
  case_bool_decide as Hnil.
  { intros c [? ? ? ? ? Hps Hne _ _]. apply parse_mesh_peers_Ok in Hps. congruence. }
  destruct (Z.eqb_spec (ar_mesh_max_hops args) 0); [by intros c []|].
  split; simpl; try done; [by rewrite Hl|by apply parse_mesh_peers_Ok].
Qed.

(** The mesh is off exactly when no option asks for it; when one does, the
    configuration is accepted exactly when all of them are given, the listen address and
    every peer are well formed, there is a peer, and the hop limit is not zero. *)
Theorem mesh_config_spec args :
  match build_mesh_config args with
  | Ok None => no_mesh_option args
  | Ok (Some c) => mesh_options args c
  | Err _ => ¬ no_mesh_option args ∧ ∀ c, ¬ mesh_options args c
  end.
Proof.
  destruct (decide (ar_mesh_server_id args = None ∧ ar_mesh_listen args = None ∧
    ar_mesh_peer args = [] ∧ ar_mesh_ca_cert args = None ∧ ar_mesh_cert args = None ∧
    ar_mesh_key args = None)) as [Hno|Hopt].
  - assert (build_mesh_config args = Ok None) as ->; [|done].
    destruct Hno as (H1 & H2 & H3 & H4 & H5 & H6). unfold build_mesh_config.
    rewrite H1, H2, H3, H4, H5, H6. done.
  - pose proof (build_mesh_config_some args Hopt) as Hsome.
    destruct (build_mesh_config args) as [[c|]|e]; [done|done|by split].
Qed.

(** A peer written as [ID=ADDR] is read back; only the first equals sign separates. *)
Lemma mesh_peer_roundtrip id addr :
  id ≠ "" → addr ≠ "" → trim id = id → trim addr = addr → equals ∉ bytes id →
  parse_mesh_peer (id +:+ "=" +:+ addr) = Ok (mkMeshPeer id addr).
Proof.
  intros Hid Haddr Tid Taddr Heq. unfold parse_mesh_peer, split_once.
  rewrite !bytes_app. change (bytes "=") with [equals].
  rewrite (proj2 (split_once_Some equals _ (bytes id) (bytes addr))) by done.
  unfold str_pair. cbn [fmap option_fmap option_map fst snd]. rewrite !str_bytes, Tid, Taddr.
  unfold is_empty. by rewrite !bool_decide_eq_false_2 by done.
Qed.

(** ** Hosts of URLs *)

Lemma strip_prefix_app p s : strip_prefix p (p +:+ s) = Some s.
Proof.
  unfold strip_prefix. rewrite bytes_app.
  rewrite (proj2 (strip_prefix_bytes_Some (bytes p) _ (bytes s))) by done.
  simpl. by rewrite str_bytes.
Qed.

Lemma split_bytes_head c l1 l2 :
  c ∉ l1 → (l2 = [] ∨ ∃ r, l2 = c :: r) → head (split_bytes c (l1 ++ l2)) = Some l1.
Proof.
  intros Hc Hl2. induction l1 as [|b l1 IH]; simpl.
  - destruct Hl2 as [->|[r ->]]; simpl; [done|]. by rewrite decide_True.
  - rewrite decide_False by set_solver. specialize (IH ltac:(set_solver)).
    destruct (split_bytes c (l1 ++ l2)) as [|p ps]; [done|]. simpl in *. by simplify_eq.
Qed.

(** The path of a URL: nothing, or what a slash begins *)
Definition url_path (path : string) : Prop := path = "" ∨ ∃ p, path = "/" +:+ p.

Lemma extract_authority scheme authority path :
  scheme = "http://" ∨ scheme = "https://" → slash ∉ bytes authority → url_path path →
  extract_control_url_host (scheme +:+ authority +:+ path) =
  if is_empty authority then None
  else if starts_with "[" authority then
    '(before, _) ← split_once close_bracket authority; strip_prefix "[" before
  else
    match rsplit_once colon authority with
    | Some (host, _) => if is_empty host then Some authority else Some host
    | None => Some authority
    end.
Proof.
  intros Hscheme Hslash Hpath. unfold extract_control_url_host.
  assert (match strip_prefix "https://" (scheme +:+ authority +:+ path) with
          | Some rest => Some rest
          | None => strip_prefix "http://" (scheme +:+ authority +:+ path)
          end = Some (authority +:+ path)) as ->.
  { destruct Hscheme as [->| ->]; [|by rewrite strip_prefix_app].
    assert (strip_prefix "https://" ("http://" +:+ authority +:+ path) = None) as ->;
      [|apply strip_prefix_app].
    unfold strip_prefix. by rewrite bytes_app. }
  cbn [mbind option_bind].
  assert (head (split slash (authority +:+ path)) = Some authority) as ->; [|done].
  unfold split. rewrite bytes_app.
  assert (head (split_bytes slash (bytes authority ++ bytes path)) = Some (bytes authority)) as Hhead.
  { apply split_bytes_head; [done|]. destruct Hpath as [->|[q ->]]; [by left|right].
    exists (bytes q). by rewrite bytes_app. }
  destruct (split_bytes slash (bytes authority ++ bytes path)) as [|p ps]; [done|].
  simpl in *. injection Hhead as ->. by rewrite str_bytes.
Qed.

(** The host of a control URL is what stands between the scheme and the port or the
    path: a name with or without a port, and an address inside brackets without them. *)
Theorem url_host_extracted scheme host port path :
  scheme = "http://" ∨ scheme = "https://" → url_path path → slash ∉ bytes host →
  (port = "" ∨ ∃ p, port = ":" +:+ p ∧ (slash ∉ bytes p) ∧ colon ∉ bytes p) →
  (host ≠ "" → colon ∉ bytes host → head (bytes host) ≠ Some open_bracket →
     extract_control_url_host (scheme +:+ (host +:+ port) +:+ path) = Some host) ∧
  (close_bracket ∉ bytes host →
     extract_control_url_host (scheme +:+ ("[" +:+ host +:+ "]" +:+ port) +:+ path) = Some host).
Proof.
  intros Hscheme Hpath Hslash Hport.
  assert (slash ∉ bytes port) as Hps.
  { destruct Hport as [->|(p & -> & Hp & _)]; [apply not_elem_of_nil|]. rewrite bytes_app.
    change (bytes ":") with [colon]. set_solver. }
  split.
  - intros Hne Hcolon Hopen. rewrite extract_authority; [|done| |done].
    2: { rewrite bytes_app, elem_of_app. naive_solver. }
    assert (bytes host ≠ []) as Hnil.
    { intros Hnil. apply Hne, (inj bytes). by rewrite Hnil. }
    rewrite is_empty_bytes, starts_with_bracket, bytes_app.
    destruct (bytes host) as [|b l] eqn:Hb; [done|]. simpl in *.
    rewrite (bool_decide_eq_false_2 (Some b = _)) by done. unfold rsplit_once. rewrite bytes_app, Hb.
    destruct Hport as [->|(p & -> & _ & Hp)].
    + rewrite app_nil_r, (proj2 (rsplit_once_None colon (b :: l))) by done. simpl.
      f_equal. apply (inj bytes). by rewrite bytes_app, app_nil_r.
    + rewrite bytes_app. rewrite (proj2 (rsplit_once_Some colon _ (b :: l) (bytes p))) by done.
      unfold str_pair. cbn [fmap option_fmap option_map fst snd].
      rewrite is_empty_bytes, bytes_str. simpl. by rewrite <- Hb, str_bytes.
  - intros Hclose. rewrite extract_authority; [|done| |done].
    2: { rewrite !bytes_app, !elem_of_app. change (bytes "[") with [open_bracket].
         change (bytes "]") with [close_bracket]. rewrite !list_elem_of_singleton.
         intros [?|[?|[?|?]]]; done. }
    rewrite is_empty_bytes, starts_with_bracket, bytes_app. simpl.
    unfold split_once. rewrite !bytes_app.
    rewrite (proj2 (split_once_Some close_bracket _ (open_bracket :: bytes host) (bytes port))).
    2: { split; [done|]. rewrite not_elem_of_cons. split; [done|exact Hclose]. }
    unfold str_pair. cbn [fmap option_fmap option_map fst snd mbind option_bind].
    change "[" with (str [open_bracket]). rewrite strip_prefix_char, bytes_str.
    rewrite decide_True by done. by rewrite str_bytes.
Qed.

(** ** Witnesses *)

Lemma host_port_roundtrip_witness :
  split_host_port (format_host_port "2001:db8::1" 5353) = Ok ("2001:db8::1", 5353).
Proof.
  apply (host_port_roundtrip "2001:db8::1" 5353); [|unfold u16_max; lia].
  split; [by vm_compute|]. vm_compute. by apply (bool_decide_unpack (_ ∉ _)).
Defined.

Lemma dns_servers_stable_witness :
  normalize_dns_server_values ["[2001:db8::1]:53"; "dns.example.com:53"]
  = Ok ["[2001:db8::1]:53"; "dns.example.com:53"].
Proof.
  apply (dns_servers_stable ["dns.example.com"; "2001:db8::1"]); [by vm_compute|].
  assert (Forall (λ raw, head (bytes (trim raw)) ≠ Some open_bracket)
    ["dns.example.com"; "2001:db8::1"]) as Hall by (apply (bool_decide_unpack _); vm_compute; exact I).
  intros raw host port Hraw Hopen. rewrite Forall_forall in Hall. destruct (Hall raw Hraw Hopen).
Defined.

Lemma derived_dns_servers_witness :
  ∃ out, resolve_dns_servers [] (Some "10.0.0.1:5353") [] = Ok out ∧ "10.0.0.1:5353" ∈ out.
Proof.
  destruct (derived_dns_servers "10.0.0.1:5353" (mkSockAddr (V4 167772161) 0 5353) [])
    as (out & Hout & _ & Hin); [by vm_compute|intros u host Hu; destruct (not_elem_of_nil _ Hu)|].
  exists out. split; [exact Hout|]. apply (proj2 (Hin _)). right.
  split; [intros u Hu; destruct (not_elem_of_nil _ Hu)|]. split; vm_compute; reflexivity.
Defined.

Lemma url_host_extracted_witness :
  extract_control_url_host ("https://" +:+ ("[" +:+ "::1" +:+ "]" +:+ ":8443") +:+ "/api")
  = Some "::1".
Proof.
  apply (url_host_extracted "https://" "::1" ":8443" "/api").
  - by right.
  - right. by exists "api".
  - by apply (bool_decide_unpack (_ ∉ _)).
  - right. exists "8443". split; [done|]. split; by apply (bool_decide_unpack (_ ∉ _)).
  - by apply (bool_decide_unpack (_ ∉ _)).
Defined.
