(* ===== verification/Startup.v ===== *)
(** * Starting the server (src/main.rs, [main])

    [boot] is what [main] does before it listens: it checks its arguments, opens the
    store, and builds the state of the application and of the mesh.  The theorems say what every started server has,
    and that a server may be stopped, started again with other options, and even lose
    its latest writes, without leaving the invariant. *)

From S2P Require Import Prelude Effects RustStd StdNet StdText Externals Model Store SampleStore.
From S2P Require Import Ipam Keys Acl Auth Netmap Netid ApiHelpers Api Invariant Safety Server.
From S2P Require Import Scenario Reachability Access StreamRelay Mesh Config.

(** Where the state is kept *)
Inductive StoreChoice : Type :=
  | UseDb (url : string)
  | UseFile (path : PathBuf).

(** The first checks of [main], and [resolved_db_url].  [read_to_string] is what reading
    a file gives. *)
Definition check_args (args : Args) (read_to_string : string → option string)
    : result StoreChoice string :=
  if is_none (ar_admin_token args)
  then Err "admin token is required; set --admin-token or LIGHTSCALE_ADMIN_TOKEN"
  else if is_some (ar_db_url args) && is_some (ar_db_url_file args)
  then Err "set only one of --db-url and --db-url-file"
  else
    let? resolved_db_url :=
      match ar_db_url_file args with
      | Some path =>
          let? raw := ok_or_msg (read_to_string path) "cannot read db url file" in
          let trimmed := trim raw in
          if is_empty trimmed then Err ("db url file is empty: " +:+ path)
          else Ok (Some trimmed)
      | None => Ok (ar_db_url args)
      end in
    Ok (match resolved_db_url with
        | Some db_url => UseDb db_url
        | None => UseFile (ar_state args)
        end).

(** [MeshPeerMeta] of a peer *)
Definition peer_meta (peer : MeshPeer) : MeshPeerMeta := mkMeshPeerMeta (mp_id peer) (mp_addr peer).

(** What is decided once the store is open: the mesh, and the state of the application *)
Definition build_app_state (args : Args) : result (AppState * option MeshConfig) string :=
  let? mesh_config := build_mesh_config args in
  let? control_urls := normalize_control_urls (ar_control_url args) in
  let? dns_servers :=
    resolve_dns_servers (ar_dns_server args) (ar_dns_listen args) control_urls in
  let relay := mkRelayConfig (ar_stun args) (ar_turn args) (ar_stream_relay args)
                 (ar_udp_relay args) dns_servers in
  let? peers := parse_mesh_peers (ar_mesh_peer args) in
  Ok (mkAppState relay (ar_admin_token args) control_urls (ar_mesh_server_id args)
        (peer_meta <$> peers), mesh_config).

(** The addresses that are listened on, in the order in which they are parsed *)
Record Listeners : Type := mkListeners {
  ls_http : SockAddr;
  ls_udp_relay : option SockAddr;
  ls_stream_relay : option SockAddr;
  ls_dns : option SockAddr;
}.

Definition parse_listen (value : option string) : result (option SockAddr) string :=
  match value with
  | None => Ok None
  | Some listen =>
      let? addr := ok_or_msg (parse_socket_addr listen) "invalid socket address syntax" in
      Ok (Some addr)
  end.

Definition parse_listeners (args : Args) : result Listeners string :=
  let? http := ok_or_msg (parse_socket_addr (ar_listen args)) "invalid socket address syntax" in
  let? udp := parse_listen (ar_udp_relay_listen args) in
  let? stream := parse_listen (ar_stream_relay_listen args) in
  let? dns := parse_listen (ar_dns_listen args) in
  Ok (mkListeners http udp stream dns).

(** Why a server does not start *)
Inductive BootErr : Type :=
  | BootRefused (message : string)
  | StoreFailed.

Section Boot.
Context `{Serde}.

Definition refuse {A} (r : result A string) : M StateStore BootErr A :=
  try_result (map_err BootRefused r).

(** [StateStore::load_db] or [StateStore::load]; [db] is the database behind the URL. *)
Definition open_store (choice : StoreChoice) (db : DbStore) : M StateStore BootErr unit :=
  match choice with
  | UseDb _ => λ w st,
      match load_db (E := Empty_set) db w st with
      | (Ok _, w, st) => (Ok tt, w, st)
      | (Err _, w, st) => (Err StoreFailed, w, st)
      end
  | UseFile path => r ← io; modify (λ st, load (Some path) (ss_files st) r)
  end.

(** [mesh::start] up to its sockets, which gives the mesh of the server its first state *)
Definition start_mesh (mesh_config : option MeshConfig) : result (option MeshContext) string :=
  match mesh_config with
  | None => Ok None
  | Some config =>
      let? context := ok_or_msg (mesh_context (mcf_server_id config) (mcf_max_hops config)
                                   (mp_id <$> mcf_peers config))
                        (if is_empty (trim (mcf_server_id config))
                         then "mesh server id must be non-empty" else "mesh max hops must be > 0") in
      Ok (Some context)
  end.

(** [main], without its sockets and tasks *)
Definition boot (args : Args) (read_to_string : string → option string) (db : DbStore)
    : M StateStore BootErr (AppState * option MeshContext * Listeners) :=
  choice ← refuse (check_args args read_to_string);
  open_store choice db;;
  '(app, mesh_config) ← refuse (build_app_state args);
  mesh ← refuse (start_mesh mesh_config);
  listeners ← refuse (parse_listeners args);
  mret (app, mesh, listeners).
End Boot.

(** ** What a started server has *)
Section Started.
Context `{IpNet} `{Crates} `{HashOrder} `{SerdeLaws}.

Lemma refuse_ok {A} (r : result A string) w st a w' st' :
  refuse r w st = (Ok a, w', st') → r = Ok a ∧ w' = w ∧ st' = st.
Proof. destruct r as [b|e]; [|done]. by intros [= <- <- <-]. Qed.

(** A boot that succeeds passed all its checks. *)
Lemma boot_ok args read_to_string db w st app mesh ls w' st' :
  boot args read_to_string db w st = (Ok (app, mesh, ls), w', st') →
  ∃ choice w1 mesh_config, check_args args read_to_string = Ok choice ∧
    open_store choice db w st = (Ok tt, w1, st') ∧
    build_app_state args = Ok (app, mesh_config) ∧ start_mesh mesh_config = Ok mesh ∧
    parse_listeners args = Ok ls.
Proof.
  unfold boot. intros (choice & w1 & st1 & Hc & Hb)%bind_ok_inv.
  apply refuse_ok in Hc as (Hc & -> & ->).
  apply bind_ok_inv in Hb as ([] & w2 & st2 & Ho & Hb).
  apply bind_ok_inv in Hb as ([app' mesh_config] & w3 & st3 & Ha & Hb).
  apply refuse_ok in Ha as (Ha & -> & ->).
  apply bind_ok_inv in Hb as (mesh' & w3 & st3 & Hm & Hb). apply refuse_ok in Hm as (Hm & -> & ->).
  apply bind_ok_inv in Hb as (ls' & w3 & st3 & Hl & Hb). apply refuse_ok in Hl as (Hl & -> & ->).
  injection Hb as <- <- <- <- <-. by exists choice, w2, mesh_config.
Qed.

Lemma build_app_state_ok args app mesh_config :
  build_app_state args = Ok (app, mesh_config) →
  app_admin_token app = ar_admin_token args ∧ build_mesh_config args = Ok mesh_config ∧
  normalize_control_urls (ar_control_url args) = Ok (app_control_urls app) ∧
  resolve_dns_servers (ar_dns_server args) (ar_dns_listen args) (app_control_urls app)
    = Ok (rc_dns_servers (app_relay app)).
Proof.
  unfold build_app_state. destruct (build_mesh_config args) as [mc|]; [|done].
  destruct (normalize_control_urls _) as [urls|]; [|done].
  destruct (resolve_dns_servers _ _ _) as [dns|] eqn:Hd; [|done].
  destruct (parse_mesh_peers _) as [peers|]; [|done]. by intros [= <- <-].
Qed.

Lemma check_args_token args read_to_string choice :
  check_args args read_to_string = Ok choice → is_Some (ar_admin_token args).
Proof. unfold check_args. destruct (ar_admin_token args); [eauto|done]. Qed.

Lemma bearer_token_trimmed headers t : bearer_token headers = Some t → trim t = t ∧ t ≠ "".
Proof.
  unfold bearer_token. destruct (headers "authorization") as [h|]; [|done]. simpl.
  destruct (header_to_str h) as [v|]; [|done]. simpl.
  destruct (strip_prefix "Bearer " v) as [r|]; [|done]. simpl. unfold is_empty.
  case_bool_decide; [done|]. intros [= <-]. split; [apply trim_idemp|done].
Qed.

(** C22. No server runs without an admin token: whatever the options, a server that
    starts has one, and refuses every administration request that does not carry it. *)
Theorem started_server_guarded args read_to_string db w st app mesh ls w' st' :
  boot args read_to_string db w st = (Ok (app, mesh, ls), w', st') →
  ∃ t, ar_admin_token args = Some t ∧
    ∀ r headers w1 st1, admin_route r = Some headers → bearer_token headers ≠ Some t →
      serve app r w1 st1 = (Err (Unauthorized "admin token required"), w1, st1).
Proof.
  intros (choice & w1 & mc & Hc & _ & Ha & _)%boot_ok.
  apply check_args_token in Hc as [t Ht]. apply build_app_state_ok in Ha as [Happ _].
  exists t. split; [done|]. intros r headers w2 st2 Hr Hb.
  apply (admin_route_denied app r headers t); [congruence|done|done].
Qed.

(** An admin token that is empty, or has white space around it, is accepted at the
    start and then matches nothing: no request can ever use an administration route. *)
Theorem blank_admin_token_locks_out args read_to_string db w st app mesh ls w' st' t :
  boot args read_to_string db w st = (Ok (app, mesh, ls), w', st') →
  ar_admin_token args = Some t → t = "" ∨ trim t ≠ t →
  ∀ r headers w1 st1, admin_route r = Some headers →
    serve app r w1 st1 = (Err (Unauthorized "admin token required"), w1, st1).
Proof.
  intros (choice & w1 & mc & _ & _ & Ha & _)%boot_ok Ht Hblank r headers w2 st2 Hr.
  apply build_app_state_ok in Ha as [Happ _].
  apply (admin_route_denied app r headers t); [congruence|done|].
  intros [Htrim Hne]%bearer_token_trimmed. by destruct Hblank.
Qed.
End Started.

(** ** A server that is stopped and started again *)
Section Lives.
Context `{IpNetLaws} `{Crates} `{HashOrder} `{SerdeLaws}.

(** The stores of a server over several lives.  A life begins with the empty state, when
    there is no file or it does not parse, or with a state that an earlier life had at
    some time, not necessarily its last one: [live_load] is the start on a state file, and
    [live_restart] covers every other way, such as a row of a database that is put back.
    Each life may have its own options. *)
Inductive lives : StateStore → Prop :=
  | live_fresh st : view st = Some State_default → lives st
  | live_serve app st w r res w' st' :
      lives st → request_typed r → serve app r w st = (res, w', st') → lives st'
  | live_load st s path files r :
      lives st → view st = Some s →
      (∀ p contents, path = Some p → files !! path_text p = Some contents →
         state_from_json contents = None ∨ contents = state_to_json s) →
      lives (load path files r)
  | live_restart st s st' :
      lives st → view st = Some s → view st' = Some s → lives st'.

(** What [load] reads: the state of the file, or the default state. *)
Lemma load_view path files r :
  view (load (Some path) files r) =
  Some (match r, files !! path_text path with
        | IoOk, Some contents => default State_default (state_from_json contents)
        | _, _ => State_default
        end).
Proof. unfold view, load, load_state. simpl. by destruct r, (files !! path_text path). Qed.

Lemma load_cases path files r s :
  (∀ p contents, path = Some p → files !! path_text p = Some contents →
     state_from_json contents = None ∨ contents = state_to_json s) →
  view (load path files r) = Some State_default ∨ view (load path files r) = Some s.
Proof.
  intros Hfiles. destruct path as [p|]; [|by left]. rewrite load_view.
  destruct r; [|by left]. destruct (files !! path_text p) as [contents|] eqn:Hc; [|by left].
  destruct (Hfiles p contents eq_refl Hc) as [->| ->]; [by left|right].
  by rewrite state_from_to_json.
Qed.

(** C1. The state invariant survives restarts: over any number of lives of the server,
    with different options, with writes that were lost or cut short before a stop, every
    state it works on has unique identifiers and addresses, disjoint blocks and
    consistent references. *)
Theorem lives_invariant st s : lives st → view st = Some s → inv s.
Proof.
  intros Hl. revert s.
  induction Hl as [st Hv|app st w r res w' st' _ IH Hty Hs|st s path files r _ IH Hv Hfiles
                  |st s st' _ IH Hv Hv'].
  - intros s. rewrite Hv. intros [= <-]. apply inv_default.
  - pose proof (serve_preserves app true inv r (inv_closed app) (λ _, eq_refl) Hty w st IH) as Hp.
    rewrite Hs in Hp. by destruct res.
  - intros s'. destruct (load_cases path files r s Hfiles) as [->| ->]; intros [= <-];
      [apply inv_default|by apply IH].
  - intros s'. rewrite Hv'. intros [= <-]. by apply IH.
Qed.

(** Starting the server on a file store begins or continues its lives: when the file
    is missing, unreadable, does not parse, or holds a state that the server once had,
    the started server is in a store from which everything that is proved of all lives
    holds. *)
Theorem boot_lives args read_to_string db w st app mesh ls w' st' old s :
  boot args read_to_string db w st = (Ok (app, mesh, ls), w', st') →
  check_args args read_to_string = Ok (UseFile (ar_state args)) →
  lives old → view old = Some s →
  (∀ contents, ss_files st !! path_text (ar_state args) = Some contents →
     state_from_json contents = None ∨ contents = state_to_json s) →
  lives st'.
Proof.
  intros (choice & w1 & mc & Hc & Ho & _)%boot_ok Hfile Hold Hs Hfiles.
  rewrite Hfile in Hc. injection Hc as <-. simpl in Ho.
  apply bind_ok_inv in Ho as (r & w2 & st2 & Hio & Hm). injection Hio as <- <- <-.
  injection Hm as _ <-.
  apply (live_load old s); [done|done|]. intros p contents [= <-]. apply Hfiles.
Qed.
End Lives.

(** ** A concrete start *)
Module StartSample.
Definition args : Args :=
  mkArgs "0.0.0.0:8080" (mkPathBuf "state.json" None) None None (Some "admin") [] [] [] [] []
    None (Some "0.0.0.0:443") (Some "0.0.0.0:5353") (Some "vpn-a") (Some "0.0.0.0:7443")
    ["vpn-b=b.example.com:7443"] (Some "ca.pem") (Some "a.pem") (Some "a.key") 4
    ["https://vpn.example.com/, https://vpn.example.com"].
Definition no_file : string → option string := λ _, None.
Definition no_db : DbStore := mkDbStore None None.
End StartSample.
Import StartSample.

(** The sample server starts. *)
Lemma sample_boot :
  ∃ app mesh ls w' st', boot args no_file no_db demo_world empty_store
                        = (Ok (app, mesh, ls), w', st').
Proof.
  destruct (boot args no_file no_db demo_world empty_store) as [[[[[app mesh] ls]|e] w'] st'] eqn:Hb;
    [eauto 10|]. apply (f_equal (λ p, is_ok p.1.1)) in Hb. by vm_compute in Hb.
Qed.

Lemma started_server_guarded_witness :
  ∃ app, serve app (DeleteNode no_headers alice_id) demo_world demo_store =
    (Err (Unauthorized "admin token required"), demo_world, demo_store).
Proof.
  destruct sample_boot as (app & mesh & ls & w' & st' & Hb).
  destruct (started_server_guarded _ _ _ _ _ _ _ _ _ _ Hb) as (t & Ht & Hserve).
  exists app. apply (Hserve (DeleteNode no_headers alice_id) no_headers); [done|].
  vm_compute. discriminate.
Defined.

(** The same server with a blank token *)
Definition blank_args : Args :=
  mkArgs "0.0.0.0:8080" (mkPathBuf "state.json" None) None None (Some "secret ") [] [] [] [] []
    None None None None None [] None None None 4 [].

Lemma blank_admin_token_locks_out_witness :
  ∃ app, serve app (GetTopology admin_headers) demo_world demo_store =
    (Err (Unauthorized "admin token required"), demo_world, demo_store).
Proof.
  destruct (boot blank_args no_file no_db demo_world empty_store)
    as [[[[[app mesh] ls]|e] w'] st'] eqn:Hb.
  - exists app. apply (blank_admin_token_locks_out _ _ _ _ _ _ _ _ _ _ "secret " Hb) with admin_headers;
      [done|right; by vm_compute|done].
  - exfalso. apply (f_equal (λ p, is_ok p.1.1)) in Hb. by vm_compute in Hb.
Defined.

(** A server that served the demo requests, and is started again from what it wrote *)
Definition saved_files : gmap string string := {["state.json" := state_to_json demo_state]}.

Lemma demo_lives : lives demo_store.
Proof.
  pose proof demo_reachable as Hr. induction Hr as [st Hv|st w r res w' st' _ IH Hty Hs].
  - by apply live_fresh.
  - by apply (live_serve demo_app st w r res w' st').
Qed.

Lemma lives_invariant_witness :
  inv demo_state ∧ view (load (Some (mkPathBuf "state.json" None)) saved_files IoOk) = Some demo_state.
Proof.
  assert (view (load (Some (mkPathBuf "state.json" None)) saved_files IoOk) = Some demo_state) as Hv.
  { rewrite load_view. unfold saved_files. cbn [path_text].
    by rewrite lookup_singleton_eq, state_from_to_json. }
  split; [|exact Hv].
  apply (lives_invariant (load (Some (mkPathBuf "state.json" None)) saved_files IoOk) demo_state);
    [|exact Hv].
  apply (live_load demo_store demo_state); [exact demo_lives|exact demo_view|].
  intros p contents [= <-] Hc. right. unfold saved_files in Hc. cbn [path_text] in Hc.
  rewrite lookup_singleton_eq in Hc. exact (eq_sym (Some_inj _ _ Hc)).
Defined.

Lemma boot_lives_witness :
  ∃ app mesh ls w' st', boot args no_file no_db demo_world (mkStateStore
    (File (mkFileStore State_default None)) saved_files) = (Ok (app, mesh, ls), w', st') ∧ lives st'.
Proof.
  destruct (boot args no_file no_db demo_world (mkStateStore
    (File (mkFileStore State_default None)) saved_files)) as [[[[[app mesh] ls]|e] w'] st'] eqn:Hb.
  - exists app, mesh, ls, w', st'. split; [done|].
    apply (boot_lives _ _ _ _ _ _ _ _ _ _ demo_store demo_state Hb); [by vm_compute| | |].
    + exact demo_lives.
    + exact demo_view.
    + intros contents Hc. right. cbn [ss_files] in Hc. unfold saved_files in Hc.
      change (path_text (ar_state args)) with "state.json" in Hc.
      rewrite lookup_singleton_eq in Hc. exact (eq_sym (Some_inj _ _ Hc)).
  - exfalso. apply (f_equal (λ p, is_ok p.1.1)) in Hb. by vm_compute in Hb.
Defined.
