(* ===== verification/DnsNames.v ===== *)
(** * Node names in the DNS

    Every stored name is trimmed and not empty, so below a proper domain the DNS names of
    the live nodes of a network are as distinct as their names, and on a server with one
    network every live node can be resolved. *)

From S2P Require Import Prelude Effects RustStd StdNet StdText Externals Model Store SampleStore.
From S2P Require Import Ipam Keys Acl Auth Netmap Netid ApiHelpers Api Invariant Safety Server.
From S2P Require Import Scenario Reachability Names Dns.

#[local] Opaque effective_node_status audit build_token with_network with_node
  ensure_unique_node_name.

Section Clean.
Context `{IpNetLaws} `{Crates} `{HashOrder}.
Context (app : AppState).

(** Names as [normalize_node_name] returns them *)
Definition clean_name (name : string) : Prop := trim name = name ∧ name ≠ "".
Definition names_clean (s : State) : Prop :=
  ∀ k nd, st_nodes s !! k = Some nd → clean_name (nd_name nd).

Lemma normalize_clean raw name : normalize_node_name raw = Ok name → clean_name name.
Proof.
  unfold normalize_node_name, is_empty. case_bool_decide as He; [done|]. intros [= <-].
  split; [apply trim_idemp|done].
Qed.

(** All that happens to the nodes of a state: their names stay, or become clean. *)
Definition renames (nodes nodes' : gmap string NodeState) : Prop :=
  ∀ k nd', nodes' !! k = Some nd' →
    clean_name (nd_name nd') ∨ ∃ nd, nodes !! k = Some nd ∧ nd_name nd = nd_name nd'.

Lemma renames_refl nodes : renames nodes nodes.
Proof. intros k nd Hk. right. eauto. Qed.

Lemma renames_insert nodes k n n' :
  nodes !! k = Some n → nd_name n = nd_name n' → renames nodes (<[k := n']> nodes).
Proof.
  intros Hk Hn j nd' [[<- <-]|[_ Hj]]%lookup_insert_Some; right; eauto.
Qed.

Lemma renames_insert_clean nodes k n' :
  clean_name (nd_name n') → renames nodes (<[k := n']> nodes).
Proof. intros Hn j nd' [[<- <-]|[_ Hj]]%lookup_insert_Some; [by left|right; eauto]. Qed.

Lemma renames_delete nodes k : renames nodes (delete k nodes).
Proof. intros j nd' [_ Hj]%lookup_delete_Some. right. eauto. Qed.

Lemma names_clean_renames s s' :
  names_clean s → renames (st_nodes s) (st_nodes s') → names_clean s'.
Proof.
  intros Hs Hr k nd' Hk. destruct (Hr k nd' Hk) as [?|(nd & Hnd & <-)]; [done|]. by eapply Hs.
Qed.

Lemma rotate_key_name t new unchanged now name :
  preserves (λ n, nd_name n = name) (rotate_key t new unchanged now).
Proof.
  unfold rotate_key. destruct new as [k|]; [|by apply preserves_pure].
  apply preserves_bind; [by apply preserves_pure|intros n].
  apply preserves_bind; [apply preserves_pure, pure_fail_if|intros _].
  repeat (apply preserves_bind; [apply triple_modify; by destruct t|intros _]).
  by apply triple_modify.
Qed.

Lemma rotate_keys_node_name headers req now name :
  preserves (λ n, nd_name n = name) (rotate_keys_node app headers req now).
Proof.
  unfold rotate_keys_node. apply preserves_bind; [by apply preserves_pure|intros n].
  apply preserves_bind; [apply preserves_pure, pure_try_result|intros _].
  apply preserves_bind; [apply rotate_key_name|intros _].
  apply preserves_bind; [apply rotate_key_name|intros _]. by apply triple_modify.
Qed.

Lemma rotate_keys_tx_clean headers nid req now :
  preserves names_clean (rotate_keys_tx app headers nid req now).
Proof.
  intros w s Hn. unfold rotate_keys_tx. tx_simpl. rewrite with_node_unfold.
  destruct (st_nodes s !! nid) as [n|] eqn:En; [|done].
  pose proof (rotate_keys_node_name headers req now (nd_name n) w n eq_refl) as Hname.
  destruct (rotate_keys_node app headers req now w n) as [[r w1] n1].
  assert (names_clean (put_node nid n1 s)) as Hput.
  { apply (names_clean_renames s); [done|]. eapply renames_insert; [done|]. by destruct r. }
  destruct r as [[]|e]; [|exact Hput]. tx_simpl. rewrite lookup_insert_eq. simpl.
  tx_audit. exact Hput.
Qed.

Lemma register_tx_clean req raw name tok now :
  normalize_node_name raw = Ok name → preserves names_clean (register_tx req name tok now).
Proof.
  intros Hname%normalize_clean w s Hn. unfold register_tx. tx_simpl.
  destruct (st_tokens s !! rq_token req) as [t|] eqn:Et; simpl; [|done].
  destruct (tk_expires_at t <=? now); simpl; [done|].
  destruct (tk_revoked_at t); simpl; [done|].
  destruct (tk_uses_left t =? 0); simpl; [done|].
  destruct (ensure_unique_node_name _ _ _ _) as [[]|e]; simpl; [|done].
  destruct (st_networks s !! tk_network_id t) as [n|] eqn:En; simpl; [|done].
  rewrite (with_network_unfold _ _ _ _ _ En).
  destruct (allocate_node_ips w n) as [[[[ip4 ip6]|e] w1] n1]; [|done]. tx_simpl. tx_audit.
  rewrite Et. simpl.
  destruct (_ =? 0); simpl; (apply (names_clean_renames s); [done|]; by apply renames_insert_clean).
Qed.

Lemma register_url_tx_clean req raw name tok now ex :
  normalize_node_name raw = Ok name → preserves names_clean (register_url_tx req name tok now ex).
Proof.
  intros Hname%normalize_clean w s Hn. unfold register_url_tx. tx_simpl.
  destruct (ensure_unique_node_name _ _ _ _) as [[]|e]; simpl; [|done].
  destruct (st_networks s !! ru_network_id req) as [n|] eqn:En; simpl; [|done].
  rewrite (with_network_unfold _ _ _ _ _ En).
  destruct (allocate_node_ips w n) as [[[[ip4 ip6]|e] w1] n1]; [|done]. tx_simpl. tx_audit.
  apply (names_clean_renames s); [done|]. by apply renames_insert_clean.
Qed.

Lemma next_node_name_clean s n req name :
  next_node_name s n req = Ok (Some name) → clean_name name.
Proof.
  unfold next_node_name. destruct (un_name req) as [raw|]; [|done].
  destruct (normalize_node_name raw) as [norm|] eqn:Hnorm; [|done]. case_bool_decide; [done|].
  destruct (ensure_unique_node_name _ _ _ _) as [[]|]; [|done]. intros [= <-].
  by eapply normalize_clean.
Qed.

Lemma update_node_tx_clean nid req now : preserves names_clean (update_node_tx nid req now).
Proof.
  intros w s Hn. unfold update_node_tx. tx_simpl.
  destruct (st_nodes s !! nid) as [n|] eqn:En; simpl; [|done].
  destruct (next_node_name s n req) as [nn|e] eqn:Enn; simpl; [|done].
  match goal with |- context [<[nid := ?x]> (st_nodes s)] => set (n' := x) end.
  assert (names_clean (put_node nid n' s)) as Hok.
  { apply (names_clean_renames s); [done|]. destruct nn as [m|].
    - apply renames_insert_clean. apply next_node_name_clean in Enn.
      unfold n'. by destruct (next_node_tags n req).
    - eapply renames_insert; [done|]. unfold n'. by destruct (next_node_tags n req). }
  match goal with |- context [st_networks s !! ?k] =>
    destruct (st_networks s !! k) as [nw|]; simpl; [|exact Hok] end.
  destruct (effective_node_status _ _ _) as [ap rot].
  case_bool_decide; simpl; [exact Hok|]. tx_audit. exact Hok.
Qed.

Lemma names_clean_closed : closed app true names_clean.
Proof.
  destruct administration_keeps_nodes as (K1 & K2 & K3 & K4 & K5 & K6).
  split; intros; try done.
  1-6: by apply (keeps_nodes_pred (λ nodes, ∀ k nd, nodes !! k = Some nd → clean_name (nd_name nd))).
  - by eapply register_tx_clean.
  - by eapply register_url_tx_clean.
  - intros w s Hn. unfold approve_node_secret_tx. tx_simpl.
    destruct (st_nodes s !! nid) as [n|] eqn:En; simpl; [|done].
    destruct (nd_approved n); [done|]. destruct (nd_auth_secret n) as [a|]; simpl; [|done].
    case_bool_decide; simpl; [done|].
    destruct (nd_auth_expires_at n) as [x|]; [destruct (x <=? now)|]; simpl; try done;
      unfold approve_audit; tx_simpl; tx_audit; (apply (names_clean_renames s); [done|]);
      by eapply renames_insert.
  - intros w s Hn. unfold approve_node_tx. tx_simpl.
    destruct (st_nodes s !! nid) as [n|] eqn:En; simpl; [|done]. destruct (nd_approved n); [done|].
    unfold approve_audit. tx_simpl. tx_audit. apply (names_clean_renames s); [done|].
    by eapply renames_insert.
  - apply update_node_tx_clean.
  - apply rotate_keys_tx_clean.
  - intros w s Hn. unfold revoke_node_tx. tx_simpl.
    destruct (st_nodes s !! nid) as [n|] eqn:En; simpl; [|done]. tx_simpl. tx_audit.
    apply (names_clean_renames s); [done|]. by eapply renames_insert.
  - intros w s Hn. unfold delete_node_tx. tx_simpl.
    destruct (st_nodes s !! nid) as [n|] eqn:En; simpl; [|done]. tx_simpl. tx_audit.
    apply (names_clean_renames s); [done|]. apply renames_delete.
  - intros w s Hn. unfold heartbeat_tx. tx_simpl.
    destruct (st_nodes s !! nid) as [n|] eqn:En; simpl; [|done].
    destruct (require_node _ _ _) as [[]|e]; simpl; [|done].
    apply (names_clean_renames s); [done|]. eapply renames_insert; [done|].
    by destruct (unwrap_or probe false).
Qed.
End Clean.

(** ** Names below a domain *)
Section Normal.
Context `{UnicodeLaws}.

(** A domain that [normalize_name] leaves as it is, up to case: not empty, ASCII, and
    without white space or a dot at its end *)
Record domain_ok (domain : string) : Prop := {
  do_nonempty : bytes domain ≠ [];
  do_ascii : is_ascii domain = true;
  do_space : strip_token (reverse <$> whitespace) (reverse (bytes domain)) = None;
  do_dot : last (bytes domain) ≠ Some dot;
}.

Lemma is_ascii_app a b : is_ascii (a +:+ b) = is_ascii a && is_ascii b.
Proof. unfold is_ascii. by rewrite bytes_app, forallb_app. Qed.

Lemma ascii_lower_app a b :
  to_ascii_lowercase (a +:+ b) = to_ascii_lowercase a +:+ to_ascii_lowercase b.
Proof. unfold to_ascii_lowercase. by rewrite bytes_app, fmap_app, str_app. Qed.

Lemma trim_end_dot_id s : last (bytes s) ≠ Some dot → trim_end_matches dot s = s.
Proof.
  intros Hlast. unfold trim_end_matches.
  rewrite strip_tokens_stuck, reverse_involutive, str_bytes; [done|].
  apply strip_token_None. intros t r Ht%list_elem_of_singleton. subst t. intros Heq. apply Hlast.
  rewrite <- (reverse_involutive (bytes s)), Heq, reverse_app. apply last_snoc.
Qed.

(** The normal form of a node's name below its domain *)
Lemma normalize_below name domain :
  clean_name name → is_ascii name = true → domain_ok domain →
  normalize_name (name +:+ "." +:+ domain) = to_ascii_lowercase name +:+ "." +:+
    to_ascii_lowercase domain.
Proof.
  intros [Htrim Hne] Hascii [Hd Hda Hds Hdd]. unfold normalize_name.
  assert (trim (name +:+ "." +:+ domain) = name +:+ "." +:+ domain) as ->.
  { unfold trim. rewrite trim_bytes_id, str_bytes; [done| |].
    - rewrite !bytes_app. change (bytes ".") with [dot]. cbn [app].
      apply strip_token_app; [intros t Ht; by apply no_space_free|].
      rewrite <- Htrim. unfold trim. rewrite bytes_str. apply trim_bytes_start.
    - rewrite !bytes_app, !reverse_app. change (reverse (bytes ".")) with [dot].
      rewrite <- app_assoc. cbn [app]. apply strip_token_app; [|exact Hds].
      intros t (u & -> & Hu)%list_elem_of_fmap. rewrite elem_of_reverse. by apply no_space_free. }
  rewrite trim_end_dot_id.
  2: { rewrite !bytes_app, !last_app. destruct (last (bytes domain)) eqn:Hl; [done|].
       by apply last_None in Hl. }
  rewrite to_lowercase_ascii by (rewrite !is_ascii_app, Hascii, Hda; done).
  by rewrite !ascii_lower_app.
Qed.
End Normal.

Section Distinct.
Context `{IpNetLaws} `{Crates} `{HashOrder} `{SerdeLaws} `{UnicodeLaws} `{HickoryName}.
Context (app : AppState).

(** The name of every node of a reachable server is trimmed and not empty. *)
Lemma reachable_names_clean st s : reachable app st → view st = Some s → names_clean s.
Proof.
  intros Hr Hv. apply (reachable_ind_inv app names_clean st (names_clean_closed app)); [|done|done].
  intros k nd Hk. simpl in Hk. by apply lookup_empty_Some in Hk.
Qed.

(** Live nodes of one network have different DNS names, when their names differ. *)
Lemma dns_names_distinct s k1 k2 nd1 nd2 n :
  names_clean s → names_unique s → domain_ok (nw_dns_domain n) →
  st_nodes s !! k1 = Some nd1 → st_nodes s !! k2 = Some nd2 → k1 ≠ k2 →
  nd_network_id nd1 = nd_network_id nd2 → nd_revoked_at nd1 = None → nd_revoked_at nd2 = None →
  is_ascii (nd_name nd1) = true → is_ascii (nd_name nd2) = true →
  normalize_name (nd_name nd1 +:+ "." +:+ nw_dns_domain n) ≠
  normalize_name (nd_name nd2 +:+ "." +:+ nw_dns_domain n).
Proof.
  intros Hclean Huniq Hdom Hk1 Hk2 Hne Hnet R1 R2 A1 A2.
  rewrite !normalize_below by eauto. intros Heq.
  apply (Huniq k1 k2 nd1 nd2 Hk1 Hk2 Hne Hnet R1 R2).
  apply (inj bytes). apply (f_equal bytes) in Heq. rewrite !bytes_app in Heq.
  by apply app_inv_tail in Heq.
Qed.

Lemma run_state rs w st s :
  view st = Some State_default → Forall request_typed rs →
  Forall (λ r, is_rotation r = false) rs → view (run app rs w st).2 = Some s →
  reachable app (run app rs w st).2 ∧ named s ∧ names_clean s.
Proof.
  intros Hst Hty Hrot Hv.
  assert (reachable app (run app rs w st).2) as Hr by (apply reachable_run; [by apply reach_init|done]).
  split; [done|]. split; [|by eapply reachable_names_clean].
  apply (run_keeps app rs w st named (named_closed app) Hty Hrot); [|done].
  intros s0. rewrite Hst. intros [= <-]. split; [apply inv_default|].
  intros k1 k2 n1 n2 Hk. simpl in Hk. by apply lookup_empty_Some in Hk.
Qed.

(** C35. On a server with one network whose domain is a proper one and whose nodes all have
    ASCII names, whatever requests it served except key rotations: a DNS message with a
    question whose name, as the DNS library writes it out, normalises to the DNS name of an
    approved and unrevoked node is answered without an error, with a record of each address
    of this node of the type asked for; unless the state is in a database and reading it
    fails. *)
Theorem one_network_resolves {E : Type} rs w st s nid n k nd request q w1 :
  view st = Some State_default → Forall request_typed rs →
  Forall (λ r, is_rotation r = false) rs → view (run app rs w st).2 = Some s →
  st_networks s = {[nid := n]} → domain_ok (nw_dns_domain n) →
  (∀ j x, st_nodes s !! j = Some x → is_ascii (nd_name x) = true) →
  st_nodes s !! k = Some nd → nd_approved nd = true → nd_revoked_at nd = None →
  q ∈ msg_queries request →
  query_name q = normalize_name (nd_name nd +:+ "." +:+ nw_dns_domain n) →
  (is_db (run app rs w st).2 = true ∧
   (build_response (E := E) request w1 (run app rs w st).2).1.1 = Err Failed) ∨
  ∃ a b r w', parse_ip (nd_ipv4 nd) = Some (V4 a) ∧ parse_ip (nd_ipv6 nd) = Some (V6 b) ∧
    build_response (E := E) request w1 (run app rs w st).2 = (Ok r, w', (run app rs w st).2) ∧
    (∀ ip, ip ∈ [V4 a; V6 b] → type_matches (q_type q) ip = true →
       build_record (q_name q) ip ∈ msg_answers r ∧ msg_response_code r = NoError).
Proof.
  intros Hst Hty Hrot Hv Hnets Hdom Hascii Hk Happ Hrev Hq Hname.
  destruct (run_state rs w st s Hst Hty Hrot Hv) as (Hr & [Hinv Huniq] & Hclean).
  assert (∀ j x, st_nodes s !! j = Some x → nd_network_id x = nid) as Hnid.
  { intros j x Hj. destruct (inv_node_addr _ _ _ Hinv j x Hj) as (n' & Hn' & _).
    rewrite Hnets in Hn'. by apply lookup_singleton_Some in Hn' as [<- _]. }
  assert (st_networks s !! nd_network_id nd = Some n) as Hn.
  { rewrite (Hnid k nd Hk), Hnets. apply lookup_singleton_eq. }
  apply (resolves_node app _ s k nd n); try done.
  intros k' nd' Hk' Hsame. destruct (decide (k' = k)) as [|Hne]; [done|exfalso].
  destruct (reachable_node_record app _ s k nd n Hr Hv Hk Happ Hrev Hn) as (a & b & _ & _ & Hrec).
  unfold dns_name_of in Hsame. rewrite Hrec in Hsame. unfold node_record in Hsame.
  destruct (nd_revoked_at nd') eqn:Hrev'; [done|]. destruct (nd_approved nd'); [|done].
  rewrite (Hnid k' nd' Hk'), Hnets, lookup_singleton_eq in Hsame. simpl in Hsame.
  destruct (parse_ip (nd_ipv4 nd')); [|done]. simpl in Hsame.
  destruct (parse_ip (nd_ipv6 nd')); [|done]. injection Hsame as Hsame. revert Hsame.
  apply (dns_names_distinct s k' k nd' nd n); eauto. by rewrite (Hnid _ _ Hk), (Hnid _ _ Hk').
Qed.
End Distinct.
Import DnsSample.

(** The network of the demo server *)
Definition demo_nid : string := nd_network_id (node_of demo_state alice_id).
Definition demo_net : NetworkState :=
  default (mkNetworkState "" "" "" "" "" false AclPolicy_default (mkKeyRotationPolicy None) 0 0 0)
    (st_networks demo_state !! demo_nid).

Lemma one_network_resolves_witness :
  ∃ r w', build_response (E := ApiError) (ask alice_name RT_AAAA) demo_world demo_store
            = (Ok r, w', demo_store) ∧ msg_response_code r = NoError.
Proof.
  destruct (one_network_resolves (E := ApiError) demo_app demo_requests demo_world empty_store
    demo_state demo_nid demo_net alice_id (node_of demo_state alice_id) (ask alice_name RT_AAAA)
    (mkQuery (H := hickory_name) alice_name RT_AAAA 1) demo_world eq_refl demo_requests_typed)
    as [[Hdb _]|(a & b & r & w' & _ & _ & Hrun & Hans)].
  - repeat constructor.
  - exact demo_view.
  - vm_compute. reflexivity.
  - split; [vm_compute; discriminate|vm_compute; reflexivity..|vm_compute; discriminate].
  - intros j x Hj.
    assert (forallb (λ kv, is_ascii (nd_name kv.2)) (map_to_list (st_nodes demo_state)) = true)
      as Hall by (vm_compute; reflexivity).
    rewrite forallb_forall in Hall. apply elem_of_map_to_list, list_elem_of_In in Hj.
    exact (Hall _ Hj).
  - exact demo_alice.
  - vm_compute. reflexivity.
  - vm_compute. reflexivity.
  - left.
  - vm_compute. reflexivity.
  - exfalso. vm_compute in Hdb. discriminate Hdb.
  - exists r, w'. split; [exact Hrun|]. apply (Hans (V6 b)); [right; left|reflexivity].
Defined.
