(* ===== verification/MeshWire.v ===== *)
(** * Mesh connections as streams of bytes (src/mesh.rs, [write_frame], [run_connection])

    A frame travels as one line of JSON.  The reader splits its stream into lines, takes
    the first one for the hello, and skips lines that are no frames.  serde_json's
    encoding of frames is a parameter; that it round-trips, is UTF-8, has no raw line
    breaks, and that an object that is cut off does not parse, is what its documentation
    and the JSON grammar promise. *)

From S2P Require Import Prelude RustStd StdNet StdText Externals RelayCodec StreamRelay Mesh.

Class MeshSerde := {
  frame_to_json : MeshFrame → list byte;
  frame_from_json : string → option MeshFrame;
}.
(** [hops_left] is a [u8]. *)
Definition frame_typed (f : MeshFrame) : Prop :=
  match f with Hello _ => True | Relay _ _ _ _ _ hops_left => 0 ≤ hops_left ≤ u8_max end.
Class MeshSerdeLaws `{MeshSerde} : Prop := {
  frame_from_to_json f : frame_typed f → frame_from_json (str (frame_to_json f)) = Some f;
  frame_json_utf8 f : utf8_valid (frame_to_json f) = true;
  frame_json_line f b : b ∈ frame_to_json f → b ≠ Byte.x0a ∧ b ≠ Byte.x0d;
  frame_json_nonempty f : frame_to_json f ≠ [];
  frame_json_cut f l tail :
    frame_to_json f = l ++ tail → tail ≠ [] → frame_from_json (str l) = None;
}.

Definition newline : byte := Byte.x0a.
Definition carriage_return : byte := Byte.x0d.

(** What happens on a connection as [run_connection] sees it: whether its own hello can be
    written, the bytes that arrive, and whether they end with an error of the transport
    (a reset, a TLS stream without close_notify) instead of an end of stream. *)
Record Incoming : Type := mkIncoming {
  ic_hello_sent : bool;
  ic_bytes : list byte;
  ic_broken : bool;
}.

(** [lines.next_line()]: a line without its line break, the end, or an error *)
Inductive LineRes : Type :=
  | LineOk (line : string) (rest : list byte)
  | LineEnd
  | LineErr.

Definition strip_cr (l : list byte) : list byte :=
  match reverse l with
  | b :: r => if decide (b = carriage_return) then reverse r else l
  | [] => []
  end.

(** [broken] says how the bytes end.  A line that is complete is returned first; what is
    left without a line break is a line only when the stream ends cleanly. *)
Definition next_line (broken : bool) (input : list byte) : LineRes :=
  match split_once_bytes newline input with
  | Some (l, rest) =>
      match from_utf8 (strip_cr l) with Some line => LineOk line rest | None => LineErr end
  | None =>
      if broken then LineErr
      else match input with
      | [] => LineEnd
      | _ :: _ => match from_utf8 input with Some line => LineOk line [] | None => LineErr end
      end
  end.

(** UTF-8 is checked character by character: a valid first part does not matter. *)
Lemma utf8_valid_app a b : utf8_valid a = true → utf8_valid (a ++ b) = utf8_valid b.
Proof.
  remember (length a) as n eqn:Hn. revert a Hn.
  induction n as [n IH] using lt_wf_ind. intros a ->. destruct a as [|x a]; [done|].
  cbn [utf8_valid app].
  destruct (in_range 0 0x7f x); [intros Hv; apply (IH (length a)); simpl; auto; lia|].
  destruct (in_range 0xc2 0xdf x).
  { destruct a as [|y a]; [done|]. simpl. intros [-> Hv]%andb_true_iff. simpl.
    apply (IH (length a)); simpl; auto; lia. }
  destruct (in_range 0xe0 0xef x).
  { destruct a as [|y [|z a]]; [done..|]. simpl. intros [-> Hv]%andb_true_iff. simpl.
    apply (IH (length a)); simpl; auto; lia. }
  destruct (in_range 0xf0 0xf4 x); [|done].
  destruct a as [|y [|z [|u a]]]; [done..|]. simpl. intros [-> Hv]%andb_true_iff. simpl.
  apply (IH (length a)); simpl; auto; lia.
Qed.

Section Wire.
Context `{MeshSerde}.

Definition mesh_write_frame (frame : MeshFrame) : list byte := frame_to_json frame ++ [newline].

(** The read loop of [run_connection]: the frames it handles, and whether it ends with a
    read error.  Every line is at least one byte, so the length of the input is enough
    fuel. *)
Fixpoint read_loop (broken : bool) (fuel : nat) (input : list byte) : list MeshFrame * bool :=
  match fuel with
  | O => ([], false)
  | S fuel =>
      match next_line broken input with
      | LineEnd => ([], false)
      | LineErr => ([], true)
      | LineOk line rest =>
          let '(frames, read_error) := read_loop broken fuel rest in
          match frame_from_json line with
          | Some frame => (frame :: frames, read_error)
          | None => (frames, read_error)
          end
      end
  end.
Definition read_frames_of (broken : bool) (input : list byte) : list MeshFrame * bool :=
  read_loop broken (S (length input)) input.

(** [run_connection] on what the peer sends: nothing happens when the own hello cannot be
    written, or the peer's is missing, does not parse or is refused; otherwise the connection is opened, its frames are
    handled in order, and it is closed.  [handled] gives the outcome and the times of the
    handling of each frame. *)
Definition connection_events (m : MeshContext) (conn_id : Z) (expected_peer : option string)
    (input : Incoming) (handled : nat → bool * (Z * Z * Z)) : list MeshEvent :=
  if negb (ic_hello_sent input) then []
  else
  match next_line (ic_broken input) (ic_bytes input) with
  | LineOk line rest =>
      match frame_from_json line with
      | Some (Hello peer_id) =>
          if negb (validate_peer m expected_peer peer_id) then []
          else
          let '(frames, read_error) := read_frames_of (ic_broken input) rest in
          EvOpen conn_id expected_peer (Hello peer_id)
          :: imap (λ i frame, let '(delivered, (t1, t2, t3)) := handled i in
                              EvFrame peer_id frame delivered t1 t2 t3) frames
          ++ [EvClose read_error conn_id peer_id]
      | _ => []
      end
  | _ => []
  end.

(** ** Reading what was written *)
Context `{!MeshSerdeLaws}.

Lemma strip_cr_id l : carriage_return ∉ l → strip_cr l = l.
Proof.
  intros Hl. unfold strip_cr. destruct (reverse l) as [|b r] eqn:Hr.
  - by rewrite <- (reverse_involutive l), Hr.
  - rewrite decide_False; [done|]. intros ->. apply Hl, elem_of_reverse. rewrite Hr. left.
Qed.

Lemma next_line_written broken f rest :
  next_line broken (mesh_write_frame f ++ rest) = LineOk (str (frame_to_json f)) rest.
Proof.
  unfold next_line, mesh_write_frame. rewrite <- app_assoc.
  rewrite (proj2 (split_once_Some newline _ (frame_to_json f) rest)).
  - rewrite strip_cr_id by (intros Hin; by apply frame_json_line in Hin as []).
    unfold from_utf8. by rewrite frame_json_utf8.
  - split; [done|]. intros Hin. by apply frame_json_line in Hin as [].
Qed.

(** The frames whose lines are among the first [n] bytes of what was written.  The text of
    a frame that lacks its line break only counts when the stream ends cleanly there. *)
Fixpoint received (broken : bool) (n : nat) (frames : list MeshFrame) : list MeshFrame :=
  match frames with
  | [] => []
  | f :: frames =>
      let len := length (frame_to_json f) in
      if (len <? n)%nat then f :: received broken (n - S len) frames
      else if (len =? n)%nat && negb broken then [f] else []
  end.

(** A line that is cut off: an error, or the line it would have been, or the end. *)
Lemma next_line_cut broken f arrived tail :
  frame_to_json f = arrived ++ tail →
  next_line broken arrived =
    if broken || negb (utf8_valid arrived) then LineErr
    else if decide (arrived = []) then LineEnd else LineOk (str arrived) [].
Proof.
  intros Hf. unfold next_line. rewrite (proj2 (split_once_None newline arrived)).
  - destruct broken; [done|]. destruct arrived as [|b l]; [done|].
    unfold from_utf8. by destruct (utf8_valid (b :: l)).
  - intros Hin. destruct (frame_json_line f newline) as [Hb _]; [rewrite Hf; set_solver|done].
Qed.

(** The bytes that arrived of a frame and of those after it *)
Lemma arrived_cases f frames arrived rest :
  concat (mesh_write_frame <$> (f :: frames)) = arrived ++ rest →
  (∃ more, arrived = mesh_write_frame f ++ more ∧
    concat (mesh_write_frame <$> frames) = more ++ rest) ∨
  (∃ tail, frame_to_json f = arrived ++ tail).
Proof.
  rewrite fmap_cons. cbn [concat]. intros Heq.
  destruct (decide (length arrived ≤ length (frame_to_json f))%nat) as [Hl|Hl].
  - right. exists (drop (length arrived) (frame_to_json f)).
    apply (f_equal (take (length arrived))) in Heq. unfold mesh_write_frame in Heq.
    rewrite <- !app_assoc, take_app_le, take_app_length in Heq by done.
    rewrite <- Heq at 1. by rewrite take_drop.
  - left. exists (drop (length (mesh_write_frame f)) arrived).
    assert (length (mesh_write_frame f) ≤ length arrived)%nat as Hle
      by (unfold mesh_write_frame; rewrite length_app; simpl; lia).
    split.
    + apply (f_equal (take (length (mesh_write_frame f)))) in Heq.
      rewrite take_app_length, take_app_le in Heq by done.
      rewrite Heq at 1. by rewrite take_drop.
    + apply (f_equal (drop (length (mesh_write_frame f)))) in Heq.
      by rewrite drop_app_length, drop_app_le in Heq by done.
Qed.

Lemma utf8_valid_line f more :
  utf8_valid (mesh_write_frame f ++ more) = utf8_valid more.
Proof.
  unfold mesh_write_frame. rewrite <- app_assoc, utf8_valid_app; [done|].
  apply frame_json_utf8.
Qed.

Lemma received_line broken f frames more :
  received broken (length (mesh_write_frame f ++ more)) (f :: frames) =
  f :: received broken (length more) frames.
Proof.
  simpl. unfold mesh_write_frame. rewrite !length_app. cbn [length].
  rewrite (proj2 (Nat.ltb_lt _ _)) by lia. do 2 f_equal. lia.
Qed.

Lemma received_cut broken f frames arrived tail :
  frame_to_json f = arrived ++ tail →
  received broken (length arrived) (f :: frames) =
  if decide (tail = []) then if broken then [] else [f] else [].
Proof.
  intros Hf. simpl. rewrite Hf, length_app. rewrite (proj2 (Nat.ltb_ge _ _)) by lia.
  destruct tail as [|b tail]; simpl.
  - rewrite (proj2 (Nat.eqb_eq _ _)) by lia. by destruct broken.
  - by rewrite (proj2 (Nat.eqb_neq _ _)) by lia.
Qed.

(** The read loop on the first part of what was written *)
Lemma read_loop_arrived broken fuel frames arrived rest :
  (length arrived < fuel)%nat → Forall frame_typed frames →
  concat (mesh_write_frame <$> frames) = arrived ++ rest →
  read_loop broken fuel arrived =
  (received broken (length arrived) frames, broken || negb (utf8_valid arrived)).
Proof.
  revert fuel arrived. induction frames as [|f frames IH]; intros [|fuel] arrived Hfuel Hty Heq;
    [lia| |lia|].
  - symmetry in Heq. apply app_eq_nil in Heq as [-> _]. by destruct broken.
  - apply Forall_cons in Hty as [Hf Hty]. cbn [read_loop].
    destruct (arrived_cases f frames arrived rest Heq) as [(more & -> & Hmore)|(tail & Hcut)].
    + rewrite next_line_written, frame_from_to_json, utf8_valid_line, received_line by done.
      rewrite IH by (done || (unfold mesh_write_frame in Hfuel; rewrite !length_app in Hfuel;
                              simpl in Hfuel; lia)). done.
    + rewrite (next_line_cut broken f arrived tail Hcut), (received_cut broken f frames arrived tail Hcut).
      pose proof (frame_json_utf8 f) as Hutf8. pose proof (frame_json_nonempty f) as Hne.
      destruct tail as [|b tail].
      * rewrite app_nil_r in Hcut. subst arrived. rewrite Hutf8, orb_false_r.
        destruct broken; [done|]. simpl. rewrite decide_False by done.
        rewrite frame_from_to_json by done. by destruct fuel.
      * pose proof (frame_json_cut f arrived (b :: tail) Hcut ltac:(done)) as Hnone.
        destruct broken, (utf8_valid arrived), (decide (arrived = [])); simpl; try done.
        rewrite Hnone. by destruct fuel.
Qed.

Lemma connection_arrived m conn_id expected peer_id frames input rest handled :
  validate_peer m expected peer_id = true → Forall frame_typed frames →
  ic_hello_sent input = true →
  concat (mesh_write_frame <$> (Hello peer_id :: frames)) = ic_bytes input ++ rest →
  connection_events m conn_id expected input handled =
  match received (ic_broken input) (length (ic_bytes input)) (Hello peer_id :: frames) with
  | [] => []
  | _ :: got =>
      EvOpen conn_id expected (Hello peer_id)
      :: imap (λ i frame, let '(delivered, (t1, t2, t3)) := handled i in
                          EvFrame peer_id frame delivered t1 t2 t3) got
      ++ [EvClose (ic_broken input || negb (utf8_valid (ic_bytes input))) conn_id peer_id]
  end.
Proof.
  intros Hvalid Hty Hsent Heq. unfold connection_events. rewrite Hsent. cbn [negb].
  destruct input as [sent arrived broken]. cbn [ic_bytes ic_broken] in *.
  destruct (arrived_cases _ _ _ _ Heq) as [(more & -> & Hmore)|(tail & Hcut)].
  - rewrite next_line_written, frame_from_to_json, Hvalid, received_line, utf8_valid_line by done.
    cbn [negb]. unfold read_frames_of.
    by rewrite (read_loop_arrived broken (S (length more)) frames more rest (Nat.lt_succ_diag_r _)
                  Hty Hmore).
  - rewrite (next_line_cut _ _ _ _ Hcut), (received_cut _ _ _ _ _ Hcut).
    destruct tail as [|b tail].
    + rewrite app_nil_r in Hcut. subst arrived. rewrite frame_json_utf8, orb_false_r.
      destruct broken; [done|]. simpl. rewrite decide_False by apply frame_json_nonempty.
      by rewrite frame_from_to_json, Hvalid.
    + pose proof (frame_json_cut _ _ _ Hcut ltac:(done)) as Hnone.
      destruct broken, (utf8_valid arrived), (decide (arrived = [])); simpl; try done.
      by rewrite Hnone.
Qed.

(** C31. A connection carries frames faithfully, wherever and however it ends: when the
    server's own hello goes out, and any first part of the lines of a hello that is
    accepted and of frames arrives, followed by an end of stream or a read error, then
    nothing happens if the hello did not arrive; otherwise the server opens the
    connection, handles exactly the frames that arrived, in this order, and closes it,
    with a read error exactly when the transport failed or the stream ended inside a
    character. *)
Theorem connection_faithful m conn_id expected peer_id frames input rest handled :
  validate_peer m expected peer_id = true → Forall frame_typed frames →
  ic_hello_sent input = true →
  concat (mesh_write_frame <$> (Hello peer_id :: frames)) = ic_bytes input ++ rest →
  connection_events m conn_id expected input handled =
  match received (ic_broken input) (length (ic_bytes input)) (Hello peer_id :: frames) with
  | [] => []
  | _ :: got =>
      EvOpen conn_id expected (Hello peer_id)
      :: imap (λ i frame, let '(delivered, (t1, t2, t3)) := handled i in
                          EvFrame peer_id frame delivered t1 t2 t3) got
      ++ [EvClose (ic_broken input || negb (utf8_valid (ic_bytes input))) conn_id peer_id]
  end.
Proof. apply connection_arrived. Qed.

(** Nobody gets in without a valid hello: whatever bytes a connection sends, if it
    does not begin with the hello of an accepted peer, nothing happens at all. *)
Theorem no_hello_no_events m conn_id expected input handled :
  (∀ line rest peer_id, next_line (ic_broken input) (ic_bytes input) = LineOk line rest →
     frame_from_json line = Some (Hello peer_id) → validate_peer m expected peer_id = false) →
  connection_events m conn_id expected input handled = [].
Proof.
  intros Hno. unfold connection_events. destruct (ic_hello_sent input); [simpl|done].
  destruct (next_line _ _) as [line rest| |]; [|done..].
  destruct (frame_from_json line) as [[peer_id|]|] eqn:Hf; [|done..].
  by rewrite (Hno line rest peer_id eq_refl Hf).
Qed.
End Wire.

(** ** A concrete encoding *)
Module WireSample.
Definition separator : byte := Byte.x2c.

Definition encode_fields (fields : list (list byte)) : list byte :=
  fields ≫= λ f, bytes (Sample.hex_encode f) ++ [separator].
Fixpoint decode_fields (fuel : nat) (l : list byte) : option (list (list byte)) :=
  match fuel, l with
  | _, [] => Some []
  | O, _ => None
  | S fuel, _ =>
      '(p, r) ← split_once_bytes separator l;
      f ← Sample.hex_decode (str p); fs ← decode_fields fuel r; Some (f :: fs)
  end.

Definition frame_fields (f : MeshFrame) : list (list byte) :=
  match f with
  | Hello server_id => [[Byte.x00]; bytes server_id]
  | Relay message_id transport from_id to_id payload_b64 hops_left =>
      [[Byte.x01]; bytes message_id; [match transport with Stream => Byte.x00 | Udp => Byte.x01 end];
       bytes from_id; bytes to_id; bytes payload_b64; [byte_of hops_left]]
  end.
Definition fields_frame (fs : list (list byte)) : option MeshFrame :=
  match fs with
  | [[Byte.x00]; server_id] => Some (Hello (str server_id))
  | [[Byte.x01]; message_id; [transport]; from_id; to_id; payload_b64; [hops_left]] =>
      Some (Relay (str message_id) (if decide (transport = Byte.x00) then Stream else Udp)
              (str from_id) (str to_id) (str payload_b64) (byte_val hops_left))
  | _ => None
  end.

#[export] Instance mesh_serde : MeshSerde := {|
  frame_to_json f := encode_fields (frame_fields f);
  frame_from_json s := decode_fields 8 (bytes s) ≫= fields_frame;
|}.

Lemma hex_bytes l b : b ∈ bytes (Sample.hex_encode l) → 48 ≤ byte_val b ≤ 102.
Proof.
  unfold Sample.hex_encode. rewrite bytes_str. intros (x & Hb & _)%list_elem_of_bind.
  pose proof (byte_val_range x) as Hx.
  assert (∀ d, 0 ≤ d < 16 → 48 ≤ byte_val (digit_byte d) ≤ 102) as Hd.
  { intros d Hd. unfold digit_byte. destruct (Z.ltb_spec d 10); rewrite byte_val_of; lia. }
  assert (0 ≤ byte_val x / 16 < 16 ∧ 0 ≤ byte_val x mod 16 < 16) as [H1 H2].
  { split; [split; [apply Z.div_pos; lia|apply Z.div_lt_upper_bound; lia]|].
    apply Z.mod_pos_bound. lia. }
  apply elem_of_cons in Hb as [->|Hb]; [by apply Hd|].
  apply list_elem_of_singleton in Hb as ->. by apply Hd.
Qed.

Lemma decode_encode_fields fuel fields :
  (length fields ≤ fuel)%nat → decode_fields fuel (encode_fields fields) = Some fields.
Proof.
  revert fuel. induction fields as [|f fields IH]; intros fuel Hfuel; [by destruct fuel|].
  destruct fuel as [|fuel]; simpl in Hfuel; [lia|]. unfold encode_fields. rewrite bind_cons.
  fold (encode_fields fields). cbn [decode_fields]. rewrite <- app_assoc.
  rewrite (proj2 (split_once_Some separator _ (bytes (Sample.hex_encode f)) (encode_fields fields))).
  - cbn [mbind option_bind]. rewrite str_bytes, Sample.hex_decode_encode, IH by lia.
    by destruct (bytes (Sample.hex_encode f)).
  - split; [done|]. intros Hin%hex_bytes. change (byte_val separator) with 44 in Hin. lia.
Qed.

Lemma encode_fields_bytes fields b : b ∈ encode_fields fields → 44 ≤ byte_val b ≤ 102.
Proof.
  intros (f & Hb & _)%list_elem_of_bind. apply elem_of_app in Hb as [Hb%hex_bytes|Hb]; [lia|].
  apply list_elem_of_singleton in Hb as ->. change (byte_val separator) with 44. lia.
Qed.

(** What is cut off decodes to fewer fields, or not at all. *)
Lemma decode_cut fuel fields l tail :
  encode_fields fields = l ++ tail → tail ≠ [] →
  decode_fields fuel l = None ∨
  ∃ k, (k < length fields)%nat ∧ decode_fields fuel l = Some (take k fields).
Proof.
  revert fuel l. induction fields as [|f fields IH]; intros fuel l Heq Htail.
  { symmetry in Heq. by apply app_eq_nil in Heq as [_ ?]. }
  destruct l as [|b l]; [right; exists 0%nat; split; [simpl; lia|by destruct fuel]|].
  destruct fuel as [|fuel]; [by left|]. cbn [decode_fields].
  destruct (split_once_bytes separator (b :: l)) as [[p r]|] eqn:Hs; [|by left].
  apply split_once_Some in Hs as [Hl Hp]. rewrite Hl in Heq.
  unfold encode_fields in Heq. rewrite bind_cons in Heq. fold (encode_fields fields) in Heq.
  rewrite <- !app_assoc in Heq.
  assert (split_once_bytes separator (p ++ separator :: r ++ tail) = Some (p, r ++ tail)) as H1
    by by apply split_once_Some.
  assert (split_once_bytes separator (bytes (Sample.hex_encode f) ++ separator :: encode_fields fields)
          = Some (bytes (Sample.hex_encode f), encode_fields fields)) as H2.
  { apply split_once_Some. split; [done|]. intros Hin%hex_bytes.
    change (byte_val separator) with 44 in Hin. lia. }
  cbn [app] in Heq. rewrite Heq, H1 in H2. injection H2 as -> Hrest.
  cbn [mbind option_bind]. rewrite str_bytes, Sample.hex_decode_encode.
  destruct (IH fuel r (eq_sym Hrest) Htail) as [->|(k & Hk & ->)]; [by left|right].
  exists (S k). split; [simpl; lia|done].
Qed.

Lemma frame_cut f k : (k < length (frame_fields f))%nat → fields_frame (take k (frame_fields f)) = None.
Proof.
  destruct f as [id|id [] fr t p hops]; simpl; intros Hk;
    by do 8 (destruct k as [|k]; [done|]; try lia).
Qed.

Lemma utf8_ascii l : (∀ b, b ∈ l → byte_val b <= 127) → utf8_valid l = true.
Proof.
  induction l as [|b l IH]; intros Hl; [done|]. cbn [utf8_valid].
  assert (in_range 0 127 b = true) as ->; [|apply IH; intros; apply Hl; by right].
  pose proof (byte_val_range b). specialize (Hl b ltac:(left)). unfold in_range. lia.
Qed.

#[export] Instance mesh_serde_laws : MeshSerdeLaws.
Proof.
  split.
  - intros f Hf. unfold frame_from_json, frame_to_json, mesh_serde. rewrite bytes_str.
    rewrite decode_encode_fields by (destruct f; simpl; lia).
    destruct f as [id|id tr f t p hops]; simpl; rewrite ?str_bytes; [done|].
    rewrite byte_val_of by (simpl in Hf; unfold u8_max in Hf; lia). by destruct tr.
  - intros f. apply utf8_ascii. intros b Hb%encode_fields_bytes. lia.
  - intros f b Hb%encode_fields_bytes. split; intros ->;
      [change (byte_val Byte.x0a) with 10 in Hb|change (byte_val Byte.x0d) with 13 in Hb]; lia.
  - intros f Hf. by destruct f.
  - intros f l tail Hf Htail. unfold frame_from_json, mesh_serde. rewrite bytes_str.
    destruct (decode_cut 8 (frame_fields f) l tail Hf Htail) as [->|(k & Hk & ->)]; [done|].
    by apply frame_cut.
Qed.
End WireSample.

(** A hello and two frames, the last of which lacks its end; the stream ends, or breaks. *)
Definition sample_frames : list MeshFrame :=
  [Relay "m1" Udp "n1" "n2" "01" 4; Relay "m2" Stream "n2" "n1" "02" 4].
Definition sample_lines : list byte :=
  concat (mesh_write_frame (H := WireSample.mesh_serde) <$> (Hello "b" :: sample_frames)).
Definition sample_cut (dropped : nat) (broken : bool) : Incoming :=
  mkIncoming true (take (length sample_lines - dropped) sample_lines) broken.

Lemma connection_faithful_witness :
  let events := λ input, connection_events (H := WireSample.mesh_serde) MeshSample.start 1 None
    input (λ _, (false, (10, 11, 12))) in
  let first := [EvOpen 1 None (Hello "b"); EvFrame "b" (Relay "m1" Udp "n1" "n2" "01" 4) false 10 11 12] in
  events (sample_cut 1 false) =
    first ++ [EvFrame "b" (Relay "m2" Stream "n2" "n1" "02" 4) false 10 11 12; EvClose false 1 "b"] ∧
  events (sample_cut 1 true) = first ++ [EvClose true 1 "b"].
Proof.
  intros events first.
  assert (∀ dropped broken, events (sample_cut dropped broken) =
    match received (H := WireSample.mesh_serde) broken
            (length (take (length sample_lines - dropped) sample_lines)) (Hello "b" :: sample_frames) with
    | [] => []
    | _ :: got => EvOpen 1 None (Hello "b")
        :: imap (λ i frame, EvFrame "b" frame false 10 11 12) got
        ++ [EvClose (broken || negb (utf8_valid (take (length sample_lines - dropped) sample_lines))) 1 "b"]
    end) as Hall.
  { intros dropped broken. unfold events.
    apply (@connection_faithful WireSample.mesh_serde WireSample.mesh_serde_laws MeshSample.start 1 None "b" sample_frames
      (sample_cut dropped broken) (drop (length sample_lines - dropped) sample_lines)).
    - by vm_compute.
    - repeat constructor; unfold frame_typed, u8_max; lia.
    - done.
    - unfold sample_cut. cbn [ic_bytes]. by rewrite take_drop. }
  split; rewrite Hall; by vm_compute.
Defined.

Lemma no_hello_no_events_witness :
  connection_events (H := WireSample.mesh_serde) MeshSample.start 1 None
    (mkIncoming true (bytes "GET / HTTP/1.1") false) (λ _, (false, (10, 11, 12))) = [].
Proof.
  apply (no_hello_no_events (H := WireSample.mesh_serde)). intros line rest peer_id Hline Hf.
  vm_compute in Hline. injection Hline as <- _. by vm_compute in Hf.
Defined.
