(* ===== verification/Cluster.v ===== *)
(** * Relays and mesh of several servers (src/main.rs, src/mesh.rs, the relays)

    A server passes packets from its relays to its mesh and back through channels; the
    meshes of the servers exchange frames.  Here the handling of a frame is split where
    it waits for the local relay ([deliver_local] of src/mesh.rs), the channels are
    queues, and the servers take their steps in any order.  The theorems say that what a
    client receives, on whatever server, is what some client sent to it, and that clients
    of two servers can talk to each other. *)

From S2P Require Import Prelude RustStd StdNet Externals RelayCodec StreamRelay UdpRelay Mesh.

(** [MeshIncomingPacket]; the sender of its answer is a number. *)
Record MeshIncomingPacket : Type := mkMeshIncomingPacket {
  mi_transport : MeshTransport;
  mi_from_id : string;
  mi_to_id : string;
  mi_payload : list byte;
  mi_delivered : Z;
}.

(** A task in [handle_frame] that waits for the answer of the local relay *)
Record Waiting : Type := mkWaiting {
  wt_source_peer : string;
  wt_message_id : string;
  wt_transport : MeshTransport;
  wt_from_id : string;
  wt_to_id : string;
  wt_payload : list byte;
  wt_hops_left : Z;
  wt_answer : option bool;
}.
#[export] Instance eta_Waiting : Eta Waiting := λ w,
  mkWaiting (wt_source_peer w) (wt_message_id w) (wt_transport w) (wt_from_id w) (wt_to_id w)
    (wt_payload w) (wt_hops_left w) (wt_answer w).

(** The relay side of a server, with the channels between its tasks.  The packets that
    the relays handed to the mesh wait in [sr_mesh] and [ur_mesh]; [sv_to_local] is the
    channel from the mesh to the dispatcher, and [sv_stream_rx] and [sv_udp_rx] those
    from the dispatcher to the relays, [None] when the receiver is gone. *)
Record Server : Type := mkServer {
  sv_mesh : MeshContext;
  sv_stream : StreamRelay;
  sv_udp : UdpRelay;
  sv_to_local : list MeshIncomingPacket;
  sv_stream_rx : option (list MeshIncomingPacket);
  sv_udp_rx : option (list MeshIncomingPacket);
  sv_waiting : gmap Z Waiting;
  sv_next : Z;
}.
#[export] Instance eta_Server : Eta Server := λ s,
  mkServer (sv_mesh s) (sv_stream s) (sv_udp s) (sv_to_local s) (sv_stream_rx s) (sv_udp_rx s)
    (sv_waiting s) (sv_next s).

Definition server_start (m : MeshContext) : Server :=
  mkServer m relay_start (mkUdpRelay ∅ [] []) [] (Some []) (Some []) ∅ 0.

(** [delivered.send(flag)]: nobody may be waiting any more. *)
Definition answer (flag : bool) (ticket : Z) (s : Server) : Server :=
  s <| sv_waiting := alter (λ w : Waiting, w <| wt_answer := Some flag |>) ticket (sv_waiting s) |>.

(** The task in [main] that sends packets on to the relay of their transport *)
Definition dispatch (packet : MeshIncomingPacket) (s : Server) : Server :=
  match mi_transport packet with
  | Stream => match sv_stream_rx s with
              | Some q => s <| sv_stream_rx := Some (q ++ [packet]) |>
              | None => answer false (mi_delivered packet) s
              end
  | Udp => match sv_udp_rx s with
           | Some q => s <| sv_udp_rx := Some (q ++ [packet]) |>
           | None => answer false (mi_delivered packet) s
           end
  end.

(** One packet of [handle_mesh_deliveries] of the stream relay, which does not look at
    the transport, with the flag that is sent back *)
Definition stream_from_mesh (packet : MeshIncomingPacket) (s : StreamRelay)
    : bool * StreamRelay :=
  match deliver_local s (mi_from_id packet) (mi_to_id packet) (mi_payload packet) with
  | Some r => r
  | None => (false, s)
  end.

(** The two relays take the next packet from the mesh. *)
Definition stream_takes (s : Server) : Server :=
  match sv_stream_rx s with
  | Some (packet :: q) =>
      let '(flag, relay) := stream_from_mesh packet (sv_stream s) in
      let s := s <| sv_stream_rx := Some q |> in
      answer flag (mi_delivered packet) (s <| sv_stream := relay |>)
  | _ => s
  end.
Definition udp_takes (send_ok : bool) (s : Server) : Server :=
  match sv_udp_rx s with
  | Some (packet :: q) =>
      let '(flag, relay) := udp_from_mesh send_ok (mi_transport packet) (mi_from_id packet)
                              (mi_to_id packet) (mi_payload packet) (sv_udp s) in
      let s := s <| sv_udp_rx := Some q |> in
      answer flag (mi_delivered packet) (s <| sv_udp := relay |>)
  | _ => s
  end.

(** A relay that cannot listen drops its channel, and with it the packets that wait. *)
Definition stream_gone (s : Server) : Server :=
  foldr (λ packet, answer false (mi_delivered packet)) (s <| sv_stream_rx := @None (list MeshIncomingPacket) |>)
    (default [] (sv_stream_rx s)).
Definition udp_gone (s : Server) : Server :=
  foldr (λ packet, answer false (mi_delivered packet)) (s <| sv_udp_rx := @None (list MeshIncomingPacket) |>)
    (default [] (sv_udp_rx s)).

Section Frames.
Context `{HashOrder} `{Crates}.

(** [handle_frame] up to [deliver_local], which is called with the payload *)
Definition receive_frame (source_peer message_id from_id payload_b64 : string)
    (t_seen t_learn : Z) (m : MeshContext) : option (list byte) * MeshContext :=
  let '(fresh, m) := remember_message message_id t_seen m in
  if negb fresh then (None, m)
  else
    let m := learn_route from_id source_peer t_learn m in
    (b64_decode payload_b64, m).

(** The rest of [handle_frame] *)
Definition finish_frame (w : Waiting) (delivered : bool) (t_route : Z) (m : MeshContext)
    : MeshContext :=
  if delivered || (wt_hops_left w =? 0) then m
  else
    let forwarded := Relay (wt_message_id w) (wt_transport w) (wt_from_id w) (wt_to_id w)
                       (b64_encode (wt_payload w)) (u_saturating_sub (wt_hops_left w) 1) in
    forward_to_target (Some (wt_source_peer w)) (wt_to_id w) forwarded t_route m.

(** A frame arrives: the mesh looks at it and, if it is new, asks the local relays. *)
Definition frame_arrives (source_peer : string) (frame : MeshFrame) (t_seen t_learn : Z)
    (s : Server) : Server :=
  match frame with
  | Hello _ => s
  | Relay message_id transport from_id to_id payload_b64 hops_left =>
      let '(payload, m) := receive_frame source_peer message_id from_id payload_b64
                             t_seen t_learn (sv_mesh s) in
      let s := s <| sv_mesh := m |> in
      match payload with
      | None => s
      | Some payload =>
          let ticket := sv_next s in
          let packet := mkMeshIncomingPacket transport from_id to_id payload ticket in
          let w := mkWaiting source_peer message_id transport from_id to_id payload hops_left None in
          let s := s <| sv_next := ticket + 1 |> in
          let s := s <| sv_to_local := sv_to_local s ++ [packet] |> in
          s <| sv_waiting := <[ticket := w]> (sv_waiting s) |>
      end
  end.

(** [timeout(LOCAL_DELIVER_TIMEOUT, rx)] returns: with the answer when there is one, or
    when the time is up. *)
Definition frame_done (ticket : Z) (timed_out : bool) (t_route : Z) (s : Server) : Server :=
  match sv_waiting s !! ticket with
  | None => s
  | Some w =>
      if is_some (wt_answer w) || timed_out then
        let delivered := default false (wt_answer w) in
        let s := s <| sv_waiting := delete ticket (sv_waiting s) |> in
        s <| sv_mesh := finish_frame w delivered t_route (sv_mesh s) |>
      else s
  end.

(** The mesh takes a packet of the stream relay or of the UDP relay. *)
Definition mesh_takes (transport : MeshTransport) (message_id : string) (t_seen t_route : Z)
    (s : Server) : Server :=
  match transport with
  | Stream =>
      match sr_mesh (sv_stream s) with
      | packet :: q =>
          let relay := sv_stream s in
          let s := s <| sv_stream := relay <| sr_mesh := q |> |> in
          s <| sv_mesh := send_local packet message_id t_seen t_route (sv_mesh s) |>
      | [] => s
      end
  | Udp =>
      match ur_mesh (sv_udp s) with
      | packet :: q =>
          let relay := sv_udp s in
          let s := s <| sv_udp := relay <| ur_mesh := q |> |> in
          s <| sv_mesh := send_local packet message_id t_seen t_route (sv_mesh s) |>
      | [] => s
      end
  end.

(** What happens on one server by itself; the arrival of frames depends on the others. *)
Inductive ServerEvent : Type :=
  | Client (ev : RelayEvent)                    (** a client of the stream relay *)
  | Datagram (buf : list byte) (addr : SocketAddr) (now : Z) (send_ok : bool)
  | Cleanup (now : Z)
  | Connect (conn_id : Z) (expected_peer : option string) (hello : MeshFrame)
  | Disconnect (read_error : bool) (conn_id : Z) (peer_id : string)
  | WriterStopped (conn_id : Z)
  | Dispatch
  | StreamTakes
  | UdpTakes (send_ok : bool)
  | StreamGone
  | UdpGone
  | FrameDone (ticket : Z) (timed_out : bool) (t_route : Z)
  | MeshTakes (transport : MeshTransport) (message_id : string) (t_seen t_route : Z).

Definition server_step (ev : ServerEvent) (s : Server) : Server :=
  match ev with
  | Client ev =>
      match ev with
      | FromMesh _ _ _ => s                     (* see [StreamTakes] *)
      | _ => s <| sv_stream := relay_step true ev (sv_stream s) |>
      end
  | Datagram buf addr now send_ok =>
      s <| sv_udp := default (sv_udp s) (udp_receive true send_ok buf addr now (sv_udp s)) |>
  | Cleanup now => s <| sv_udp := udp_cleanup now (sv_udp s) |>
  | Connect conn_id expected_peer hello =>
      s <| sv_mesh := default (sv_mesh s) (open_connection conn_id expected_peer hello (sv_mesh s)) |>
  | Disconnect read_error conn_id peer_id =>
      s <| sv_mesh := close_connection read_error conn_id peer_id (sv_mesh s) |>
  | WriterStopped conn_id => s <| sv_mesh := writer_stopped conn_id (sv_mesh s) |>
  | Dispatch =>
      match sv_to_local s with
      | packet :: q => dispatch packet (s <| sv_to_local := q |>)
      | [] => s
      end
  | StreamTakes => stream_takes s
  | UdpTakes send_ok => udp_takes send_ok s
  | StreamGone => stream_gone s
  | UdpGone => udp_gone s
  | FrameDone ticket timed_out t_route => frame_done ticket timed_out t_route s
  | MeshTakes transport message_id t_seen t_route =>
      mesh_takes transport message_id t_seen t_route s
  end.

(** ** Splitting [handle_frame] changes nothing *)
Lemma handle_frame_split source message_id tr from_id to_id b64 hops delivered t1 t2 t3 m :
  handle_frame source (Relay message_id tr from_id to_id b64 hops) delivered t1 t2 t3 m =
  let '(payload, m) := receive_frame source message_id from_id b64 t1 t2 m in
  match payload with
  | None => m
  | Some payload => finish_frame (mkWaiting source message_id tr from_id to_id payload hops None)
                      delivered t3 m
  end.
Proof.
  unfold handle_frame, receive_frame. destruct (remember_message message_id t1 m) as [[] m1]; [|done].
  simpl. by destruct (b64_decode b64).
Qed.
End Frames.

(** ** Servers together *)

(** What clients do that others can tell: a packet is sent, or a node is seen at an
    address. *)
Inductive Act : Type :=
  | Sent (transport : MeshTransport) (from_id to_id : string) (payload : list byte)
  | SeenAt (node_id : string) (addr : SocketAddr).

(** The acts of an event: a registered connection sends in the name of its node, and a
    datagram shows where its sender is. *)
Definition acts (ev : ServerEvent) (s : Server) : list Act :=
  match ev with
  | Client (FrameRead c (Some frame)) =>
      match sr_conns (sv_stream s) !! c, stream_parse_packet frame with
      | Some (Some node_id), Some (Send from_id to_id payload) =>
          if bool_decide (from_id = node_id) then [Sent Stream from_id to_id payload] else []
      | _, _ => []
      end
  | Datagram buf addr _ _ =>
      match udp_parse_packet buf with
      | Some (Register node_id) => [SeenAt node_id addr]
      | Some (Send from_id to_id payload) => [SeenAt from_id addr; Sent Udp from_id to_id payload]
      | None => []
      end
  | _ => []
  end.

Section Cluster.
Context `{HashOrder} `{Crates}.

(** The servers by their identifiers, and the acts of clients so far.  A frame arrives
    from a server that has sent it to one of its connections, at any time, perhaps more
    than once or never. *)
Inductive cluster_step : list Act * gmap string Server → list Act * gmap string Server → Prop :=
  | step_server log cluster id s ev :
      cluster !! id = Some s →
      cluster_step (log, cluster) (log ++ acts ev s, <[id := server_step ev s]> cluster)
  | step_frame log cluster id s peer sp conn frame t_seen t_learn :
      cluster !! id = Some s → cluster !! peer = Some sp → (conn, frame) ∈ mc_sent (sv_mesh sp) →
      cluster_step (log, cluster)
        (log, <[id := frame_arrives peer frame t_seen t_learn s]> cluster).

(** The events that are the servers' own: their tasks take packets and answer frames in time.
    No client, datagram, connection or failure is among them. *)
Definition task (ev : ServerEvent) : bool :=
  match ev with
  | MeshTakes _ _ _ _ | Dispatch | StreamTakes | UdpTakes _ => true
  | FrameDone _ timed_out _ => negb timed_out
  | _ => false
  end.

(** The steps of a cluster in which no client does anything: tasks run, and frames arrive
    that were sent. *)
Inductive own_step : gmap string Server → gmap string Server → Prop :=
  | task_server cluster id s ev :
      cluster !! id = Some s → task ev = true →
      own_step cluster (<[id := server_step ev s]> cluster)
  | task_frame cluster id s peer sp conn frame t_seen t_learn :
      cluster !! id = Some s → cluster !! peer = Some sp → (conn, frame) ∈ mc_sent (sv_mesh sp) →
      own_step cluster (<[id := frame_arrives peer frame t_seen t_learn s]> cluster).

(** A client sends a packet on its connection. *)
Definition client_sends (conn : Z) (frame : list byte) (s : Server) : Server :=
  server_step (Client (FrameRead conn (Some frame))) s.

(** Every server starts with a fresh mesh. *)
Definition cluster_start (cluster : gmap string Server) : Prop :=
  map_Forall (λ id s, ∃ max_hops peers m,
    mesh_context id max_hops peers = Some m ∧ s = server_start m) cluster.

Definition cluster_reaches (log : list Act) (cluster : gmap string Server) : Prop :=
  ∃ start, cluster_start start ∧ rtc cluster_step ([], start) (log, cluster).
End Cluster.

(** ** Where packets come from *)
Section Provenance.
Context `{HashOrder} `{CratesLaws}.

(** What the parts of a server hold stems from the acts of clients. *)
Section Log.
Context (log : list Act).

Definition frame_ok (f : MeshFrame) : Prop :=
  match f with
  | Hello _ => True
  | Relay _ transport from_id to_id payload_b64 _ =>
      ∃ payload, b64_decode payload_b64 = Some payload ∧ Sent transport from_id to_id payload ∈ log
  end.
Definition outgoing_ok (pk : MeshOutgoingPacket) : Prop :=
  Sent (mo_transport pk) (mo_from_id pk) (mo_to_id pk) (mo_payload pk) ∈ log.
Definition incoming_ok (pk : MeshIncomingPacket) : Prop :=
  Sent (mi_transport pk) (mi_from_id pk) (mi_to_id pk) (mi_payload pk) ∈ log.
Definition waiting_ok (w : Waiting) : Prop :=
  Sent (wt_transport w) (wt_from_id w) (wt_to_id w) (wt_payload w) ∈ log.

Record stream_ok (s : StreamRelay) : Prop := {
  so_table : table_ok s;
  so_outbox : ∀ c q d, sr_outbox s !! c = Some q → d ∈ q →
    ∃ from to payload, sr_conns s !! c = Some (Some to) ∧
      stream_build_packet TYPE_DELIVER from "" payload = Some d ∧ Sent Stream from to payload ∈ log;
  so_mesh : Forall outgoing_ok (sr_mesh s);
}.
Record udp_ok (s : UdpRelay) : Prop := {
  uo_peers : ∀ node peer, ur_peers s !! node = Some peer → SeenAt node (peer_addr peer) ∈ log;
  uo_sent : ∀ addr d, (addr, d) ∈ ur_sent s →
    ∃ from to payload, SeenAt to addr ∈ log ∧
      udp_build_packet TYPE_DELIVER from "" payload = Some d ∧ Sent Udp from to payload ∈ log;
  uo_mesh : Forall outgoing_ok (ur_mesh s);
}.
Record server_ok (s : Server) : Prop := {
  vo_mesh : ∀ c f, (c, f) ∈ mc_sent (sv_mesh s) → frame_ok f;
  vo_stream : stream_ok (sv_stream s);
  vo_udp : udp_ok (sv_udp s);
  vo_to_local : Forall incoming_ok (sv_to_local s);
  vo_stream_rx : Forall (λ pk, mi_transport pk = Stream ∧ incoming_ok pk) (default [] (sv_stream_rx s));
  vo_udp_rx : Forall incoming_ok (default [] (sv_udp_rx s));
  vo_waiting : map_Forall (λ _, waiting_ok) (sv_waiting s);
}.

(** *** The stream relay *)
Lemma deliver_stream_ok s f t p b s' :
  stream_ok s → Sent Stream f t p ∈ log → deliver_local s f t p = Some (b, s') → stream_ok s'.
Proof.
  intros [Ht Ho Hm] Hsent Hd. pose proof (deliver_local_table _ _ _ _ _ _ Hd) as (E1 & E2 & E3 & E4).
  split; [by apply (table_ok_same s)| |by rewrite E4].
  destruct (stream_build_packet TYPE_DELIVER f "" p) as [d|] eqn:Hb.
  - destruct (deliver_local_spec _ _ _ _ _ _ Ht Hd) as [_ Hout]. specialize (Hout d Hb).
    intros c q x. rewrite Hout, E2. case_decide as Hc; [|by apply Ho].
    intros (q0 & Hq & ->)%fmap_Some Hx. apply elem_of_app in Hx as [Hx|Hx]; [by eapply Ho|].
    apply list_elem_of_singleton in Hx as ->. by exists f, t, p.
  - unfold deliver_local in Hd. rewrite Hb in Hd. destruct (sr_peers s !! t); [done|].
    injection Hd as _ <-. exact Ho.
Qed.

Lemma on_packet_ok c node frame s :
  stream_ok s →
  (∀ to p, stream_parse_packet frame = Some (Send node to p) → Sent Stream node to p ∈ log) →
  stream_ok (on_packet true c node frame s).
Proof.
  intros Hs Hlog. unfold on_packet.
  destruct (stream_parse_packet frame) as [[|f t p]|] eqn:Hp; [done| |done].
  case_bool_decide as Hf; [done|]. subst f. specialize (Hlog t p eq_refl).
  destruct (deliver_local_total s frame node t p Hp) as [[b s1] Hd]. rewrite Hd.
  pose proof (deliver_stream_ok _ _ _ _ _ _ Hs Hlog Hd) as Hs1. destruct b; [done|].
  destruct Hs1 as [Ht Ho Hm]. split; [by apply (table_ok_same s1)|done|].
  apply Forall_app. split; [done|]. by apply Forall_singleton.
Qed.

Lemma drop_conn_outbox c s c' q : sr_outbox (drop_conn c s) !! c' = Some q →
  c' ≠ c ∧ sr_outbox s !! c' = Some q ∧ sr_conns (drop_conn c s) !! c' = sr_conns s !! c'.
Proof. simpl. intros [Hne Hq]%lookup_delete_Some. by rewrite lookup_delete_ne. Qed.

Lemma unregister_rest c node s : sr_outbox (unregister c node s) = sr_outbox s ∧
  sr_conns (unregister c node s) = sr_conns s ∧ sr_mesh (unregister c node s) = sr_mesh s.
Proof. unfold unregister. by destruct (sr_peers s !! node). Qed.

Lemma stream_step_ok ev s :
  stream_ok s → (∀ f t p, ev ≠ FromMesh f t p) →
  (∀ c node frame to p, ev = FrameRead c (Some frame) → sr_conns s !! c = Some (Some node) →
     stream_parse_packet frame = Some (Send node to p) → Sent Stream node to p ∈ log) →
  stream_ok (relay_step true ev s).
Proof.
  intros Hs Hev Hlog. pose proof (table_ok_step true ev s (so_table _ Hs)) as Ht.
  destruct ev as [|c frame|c|c|f t p]; [| | | |by destruct (Hev f t p)].
  - destruct Hs as [Ht0 Ho Hm]. split; [exact Ht| |exact Hm]. simpl. intros c q d.
    rewrite lookup_insert_Some. intros [[<- <-]|[Hne Hq]] Hd; [by destruct (not_elem_of_nil _ Hd)|].
    rewrite lookup_insert_ne by done. by eapply Ho.
  - simpl in *. destruct (sr_conns s !! c) as [[node|]|] eqn:Hc; [| |done].
    + destruct frame as [frame|]; [apply on_packet_ok; [done|]; naive_solver|].
      destruct Hs as [Ht0 Ho Hm]. destruct (unregister_rest c node s) as (E1 & E2 & E3).
      split; [exact Ht| |by simpl; rewrite E3]. intros c' q d Hq Hd.
      apply drop_conn_outbox in Hq as (_ & Hq & ->). rewrite E1 in Hq. rewrite E2. by eapply Ho.
    + destruct Hs as [Ht0 Ho Hm].
      destruct (frame ≫= stream_parse_packet) as [[node|f t p]|]; (split; [exact Ht| |exact Hm]);
        intros c' q d Hq Hd; try (apply drop_conn_outbox in Hq as (_ & Hq & ->); by eapply Ho).
      simpl in *. destruct (Ho _ _ _ Hq Hd) as (from & to & p & Hto & Hrest).
      rewrite lookup_insert_ne by congruence. by exists from, to, p.
  - destruct Hs as [Ht0 Ho Hm]. split; [exact Ht| |exact Hm]. simpl. intros c' q d.
    rewrite lookup_alter_Some. intros [(-> & q0 & Hq & ->)|[_ Hq]] Hd; [|by eapply Ho].
    eapply Ho; [exact Hq|]. rewrite <- (take_drop 1 q0). apply elem_of_app. by right.
  - destruct Hs as [Ht0 Ho Hm]. split; [exact Ht| |exact Hm]. simpl. intros c' q d.
    intros [_ Hq]%lookup_delete_Some. by apply Ho.
Qed.

(** *** The UDP relay *)
Lemma udp_deliver_ok send_ok s f t p b s' :
  udp_ok s → Sent Udp f t p ∈ log → udp_deliver_local send_ok f t p s = Some (b, s') → udp_ok s'.
Proof.
  intros Hs Hsent. unfold udp_deliver_local.
  destruct (ur_peers s !! t) as [peer|] eqn:Hpeer; [|by intros [= _ <-]].
  destruct (udp_build_packet _ _ _ _) as [d|] eqn:Hb; [|done]. cbn [mbind option_bind].
  destruct send_ok; intros [= _ <-]; [|done]. destruct Hs as [Hp Hu Hm].
  split; [exact Hp| |exact Hm]. simpl. intros addr x Hx.
  apply elem_of_app in Hx as [Hx|Hx]; [by apply Hu|].
  apply list_elem_of_singleton in Hx. injection Hx as -> ->. exists f, t, p. eauto.
Qed.

Lemma upsert_ok node addr now s :
  udp_ok s → SeenAt node addr ∈ log → udp_ok (upsert_peer node addr now s).
Proof.
  intros [Hp Hu Hm] Hseen. split; [|exact Hu|exact Hm]. simpl. intros n peer.
  rewrite lookup_insert_Some. intros [[<- <-]|[_ Hn]]; [done|by apply Hp].
Qed.

Lemma udp_receive_ok send_ok buf addr now s :
  udp_ok s →
  (∀ node, udp_parse_packet buf = Some (Register node) → SeenAt node addr ∈ log) →
  (∀ f t p, udp_parse_packet buf = Some (Send f t p) →
     SeenAt f addr ∈ log ∧ Sent Udp f t p ∈ log) →
  udp_ok (default s (udp_receive true send_ok buf addr now s)).
Proof.
  intros Hs Hreg Hsend. unfold udp_receive.
  destruct (udp_parse_packet buf) as [[node|f t p]|]; [by apply upsert_ok; [|apply Hreg]| |done].
  destruct (Hsend f t p eq_refl) as [Hseen Hsent]. apply (upsert_ok _ _ now s Hs) in Hseen.
  destruct (udp_deliver_local _ _ _ _ _) as [[b s1]|] eqn:Hd; [|done].
  apply (udp_deliver_ok _ _ _ _ _ _ _ Hseen Hsent) in Hd. cbn [mbind option_bind default].
  destruct b; [done|]. destruct Hd as [Hp Hu Hm]. split; [exact Hp|exact Hu|].
  apply Forall_app. split; [done|]. by apply Forall_singleton.
Qed.

Lemma udp_cleanup_ok now s : udp_ok s → udp_ok (udp_cleanup now s).
Proof.
  intros [Hp Hu Hm]. split; [|exact Hu|exact Hm]. intros n peer.
  intros [Hn _]%map_lookup_filter_Some. by apply Hp.
Qed.

(** *** The mesh *)
Definition sent_ok (m : MeshContext) : Prop := ∀ c f, (c, f) ∈ mc_sent m → frame_ok f.

Lemma forward_ok ex to_id frame now m :
  sent_ok m → frame_ok frame → sent_ok (forward_to_target ex to_id frame now m).
Proof.
  intros Hm Hf c f. rewrite forward_sent. simpl. intros Hin.
  apply elem_of_app in Hin as [Hin|Hin]; [by eapply Hm|].
  apply list_elem_of_fmap in Hin as (c' & [= _ ->] & _). done.
Qed.

Lemma remember_sent_ok id now m : sent_ok m → sent_ok (remember_message id now m).2.
Proof. destruct (remember_rest id now m) as [seen ->]. done. Qed.

Lemma receive_sent_ok source id from_id b64 t1 t2 m :
  sent_ok m → sent_ok (receive_frame source id from_id b64 t1 t2 m).2.
Proof.
  intros Hm. unfold receive_frame. pose proof (remember_sent_ok id t1 m Hm) as Hm1.
  destruct (remember_message id t1 m) as [[] m1]; [|done]. simpl in *.
  destruct (learn_rest from_id source t2 m1) as [hints ->]. done.
Qed.

Lemma receive_payload source id from_id b64 t1 t2 m payload :
  (receive_frame source id from_id b64 t1 t2 m).1 = Some payload → b64_decode b64 = Some payload.
Proof. unfold receive_frame. by destruct (remember_message id t1 m) as [[] m1]. Qed.

Lemma finish_sent_ok w delivered t m :
  sent_ok m → waiting_ok w → sent_ok (finish_frame w delivered t m).
Proof.
  intros Hm Hw. unfold finish_frame. destruct (_ || _); [done|]. apply forward_ok; [done|].
  exists (wt_payload w). split; [apply b64_decode_encode|done].
Qed.

Lemma send_local_ok packet id t1 t2 m :
  sent_ok m → outgoing_ok packet → sent_ok (send_local packet id t1 t2 m).
Proof.
  intros Hm Hp. unfold send_local. pose proof (remember_sent_ok id t1 m Hm) as Hm1.
  destruct (remember_message id t1 m) as [fresh m1]. apply forward_ok; [done|].
  exists (mo_payload packet). split; [apply b64_decode_encode|done].
Qed.

Lemma connections_sent_ok m :
  sent_ok m →
  (∀ c ex hello, sent_ok (default m (open_connection c ex hello m))) ∧
  (∀ err c p, sent_ok (close_connection err c p m)) ∧ (∀ c, sent_ok (writer_stopped c m)).
Proof.
  intros Hm. split; [|split; [|done]].
  - intros c ex [p|]; simpl; [|done]. by destruct (validate_peer m ex p).
  - intros err c p. unfold close_connection. destruct err; [done|]. by case_bool_decide.
Qed.

(** *** The channels *)
Lemma answer_ok flag ticket s : server_ok s → server_ok (answer flag ticket s).
Proof.
  intros []. split; try done. simpl. intros t w.
  rewrite lookup_alter_Some. intros [(-> & w0 & Hw & ->)|[_ Hw]].
  - exact (vo_waiting0 _ _ Hw).
  - exact (vo_waiting0 _ _ Hw).
Qed.

Lemma answers_ok flag (l : list MeshIncomingPacket) s :
  server_ok s → server_ok (foldr (λ packet, answer flag (mi_delivered packet)) s l).
Proof. intros Hs. induction l as [|pk l IH]; [done|]. by apply answer_ok. Qed.

Lemma dispatch_ok packet s : server_ok s → incoming_ok packet → server_ok (dispatch packet s).
Proof.
  intros Hs Hpk. unfold dispatch. destruct (mi_transport packet) eqn:Htr.
  - pose proof (vo_stream_rx _ Hs) as Hq. destruct (sv_stream_rx s) as [q|]; [|by apply answer_ok].
    destruct Hs. split; try done. apply Forall_app. split; [done|]. by apply Forall_singleton.
  - pose proof (vo_udp_rx _ Hs) as Hq. destruct (sv_udp_rx s) as [q|]; [|by apply answer_ok].
    destruct Hs. split; try done. apply Forall_app. split; [done|]. by apply Forall_singleton.
Qed.

Lemma stream_takes_ok s : server_ok s → server_ok (stream_takes s).
Proof.
  intros Hs. unfold stream_takes. pose proof (vo_stream_rx _ Hs) as Hq.
  destruct (sv_stream_rx s) as [[|pk q]|]; [done| |done]. simpl in Hq.
  apply Forall_cons in Hq as [[Htr Hpk] Hq]. unfold incoming_ok in Hpk. rewrite Htr in Hpk.
  assert (stream_ok (stream_from_mesh pk (sv_stream s)).2) as Hrelay.
  { unfold stream_from_mesh. destruct (deliver_local _ _ _ _) as [[b s1]|] eqn:Hd; [|apply Hs].
    by apply (deliver_stream_ok _ _ _ _ _ _ (vo_stream _ Hs) Hpk Hd). }
  destruct (stream_from_mesh pk (sv_stream s)) as [flag relay]. apply answer_ok.
  destruct Hs. by split.
Qed.

Lemma udp_takes_ok send_ok s : server_ok s → server_ok (udp_takes send_ok s).
Proof.
  intros Hs. unfold udp_takes. pose proof (vo_udp_rx _ Hs) as Hq.
  destruct (sv_udp_rx s) as [[|pk q]|]; [done| |done]. simpl in Hq.
  apply Forall_cons in Hq as [Hpk Hq]. unfold incoming_ok in Hpk.
  assert (udp_ok (udp_from_mesh send_ok (mi_transport pk) (mi_from_id pk) (mi_to_id pk)
    (mi_payload pk) (sv_udp s)).2) as Hrelay.
  { unfold udp_from_mesh. destruct (mi_transport pk); [apply Hs|].
    destruct (udp_deliver_local _ _ _ _ _) as [[b s1]|] eqn:Hd; [|apply Hs].
    by apply (udp_deliver_ok _ _ _ _ _ _ _ (vo_udp _ Hs) Hpk Hd). }
  destruct (udp_from_mesh _ _ _ _ _ _) as [flag relay]. apply answer_ok. destruct Hs. by split.
Qed.

Lemma frame_done_ok ticket timed_out t s : server_ok s → server_ok (frame_done ticket timed_out t s).
Proof.
  intros Hs. unfold frame_done. destruct (sv_waiting s !! ticket) as [w|] eqn:Hw; [|done].
  destruct (_ || _); [|done]. destruct Hs. split; try done; simpl.
  - apply finish_sent_ok; [done|]. exact (vo_waiting0 _ _ Hw).
  - by apply map_Forall_delete.
Qed.

Lemma mesh_takes_ok transport id t1 t2 s : server_ok s → server_ok (mesh_takes transport id t1 t2 s).
Proof.
  intros Hs. unfold mesh_takes. destruct transport.
  - pose proof (so_mesh _ (vo_stream _ Hs)) as Hq. destruct (sr_mesh (sv_stream s)) as [|pk q]; [done|].
    apply Forall_cons in Hq as [Hpk Hq]. destruct Hs as [Hm [Ht Ho _]]. split; try done; simpl.
    + by apply send_local_ok.
    + split; [by apply (table_ok_same (sv_stream s))|done|done].
  - pose proof (uo_mesh _ (vo_udp _ Hs)) as Hq. destruct (ur_mesh (sv_udp s)) as [|pk q]; [done|].
    apply Forall_cons in Hq as [Hpk Hq]. destruct Hs as [Hm Hst [Hp Hu _]]. split; try done; simpl.
    by apply send_local_ok.
Qed.

Lemma frame_arrives_ok peer frame t1 t2 s :
  server_ok s → frame_ok frame → server_ok (frame_arrives peer frame t1 t2 s).
Proof.
  intros Hs Hf. unfold frame_arrives. destruct frame as [|id tr f t b64 hops]; [done|].
  destruct Hf as (p & Hdec & Hsent).
  pose proof (receive_sent_ok peer id f b64 t1 t2 (sv_mesh s) (vo_mesh _ Hs)) as Hm.
  pose proof (receive_payload peer id f b64 t1 t2 (sv_mesh s)) as Hp.
  destruct (receive_frame peer id f b64 t1 t2 (sv_mesh s)) as [payload m]. simpl in *.
  destruct payload as [payload|]; [|destruct Hs; by split].
  specialize (Hp payload eq_refl). assert (payload = p) as -> by congruence.
  destruct Hs. split; try done; simpl.
  - apply Forall_app. split; [done|]. by apply Forall_singleton.
  - by apply map_Forall_insert_2.
Qed.
End Log.

(** More acts do no harm. *)
Lemma outgoing_mono log log' pk : log ⊆ log' → outgoing_ok log pk → outgoing_ok log' pk.
Proof. intros Hsub. apply Hsub. Qed.

Lemma server_ok_mono log log' s : log ⊆ log' → server_ok log s → server_ok log' s.
Proof.
  intros Hsub [Hm [Ht Ho Hom] [Hp Hu Hum] Hl Hsr Hur Hw]. split.
  - intros c [|id tr f t b64 hops] Hin; [done|]. destruct (Hm _ _ Hin) as (p & ? & ?). exists p. eauto.
  - split; [done| |eapply Forall_impl; [exact Hom|]; intros; by eapply outgoing_mono].
    intros c q d Hq Hd. destruct (Ho _ _ _ Hq Hd) as (f & t & p & ? & ? & ?). exists f, t, p. eauto.
  - split; [eauto| |eapply Forall_impl; [exact Hum|]; intros; by eapply outgoing_mono].
    intros addr d Hd. destruct (Hu _ _ Hd) as (f & t & p & ? & ? & ?). exists f, t, p. eauto.
  - eapply Forall_impl; [exact Hl|]. intros pk. apply Hsub.
  - eapply Forall_impl; [exact Hsr|]. intros pk [? Hpk]. split; [done|]. by apply Hsub.
  - eapply Forall_impl; [exact Hur|]. intros pk. apply Hsub.
  - intros t w Ht'. apply Hsub. exact (Hw _ _ Ht').
Qed.

Lemma server_step_ok log ev s :
  server_ok log s → server_ok (log ++ acts ev s) (server_step ev s).
Proof.
  intros Hs. assert (log ⊆ log ++ acts ev s) as Hsub by set_solver.
  apply (server_ok_mono _ _ _ Hsub) in Hs. assert (acts ev s ⊆ log ++ acts ev s) as Hacts by set_solver.
  revert Hs Hacts. generalize (log ++ acts ev s) as log'. clear Hsub. intros log' Hs Hacts.
  destruct ev as [ev|buf addr now send_ok|now|c ex hello|err c p|c| | |send_ok| | |tk out t|tr id t1 t2];
    simpl.
  - assert (server_ok log' (s <| sv_stream := relay_step true ev (sv_stream s) |>) ∨
            ∃ f t p, ev = FromMesh f t p) as [Hok|(f & t & p & ->)]; [| |done].
    { destruct ev as [|c frame|c|c|f t p]; [left..|right; eauto];
        (destruct Hs as [Hm Hst]; split; try done; apply stream_step_ok; [done|done|]); try done.
      intros c' node frame' to p [= <- ->] Hc Hp. apply Hacts. simpl. rewrite Hc, Hp.
      rewrite bool_decide_eq_true_2 by done. left. }
    by destruct ev.
  - pose proof (vo_udp _ _ Hs) as Hu. destruct Hs. split; try done. apply udp_receive_ok; [done| |].
    + intros node Hp. apply Hacts. simpl. rewrite Hp. left.
    + intros f t p Hp. split; apply Hacts; simpl; rewrite Hp; [left|right; left].
  - pose proof (udp_cleanup_ok _ now _ (vo_udp _ _ Hs)) as Hu. destruct Hs. by split.
  - destruct (connections_sent_ok _ _ (vo_mesh _ _ Hs)) as (Hc & _ & _). destruct Hs. by split; try apply Hc.
  - destruct (connections_sent_ok _ _ (vo_mesh _ _ Hs)) as (_ & Hc & _). destruct Hs. by split; try apply Hc.
  - destruct (connections_sent_ok _ _ (vo_mesh _ _ Hs)) as (_ & _ & Hc). destruct Hs. by split; try apply Hc.
  - pose proof (vo_to_local _ _ Hs) as Hq. destruct (sv_to_local s) as [|pk q]; [done|].
    apply Forall_cons in Hq as [Hpk Hq]. apply dispatch_ok; [|done]. destruct Hs. by split.
  - by apply stream_takes_ok.
  - by apply udp_takes_ok.
  - apply answers_ok. destruct Hs. by split.
  - apply answers_ok. destruct Hs. by split.
  - by apply frame_done_ok.
  - by apply mesh_takes_ok.
Qed.

Definition cluster_ok (log : list Act) (cluster : gmap string Server) : Prop :=
  map_Forall (λ _, server_ok log) cluster.

Lemma cluster_step_ok log cluster log' cluster' :
  cluster_step (log, cluster) (log', cluster') → cluster_ok log cluster → cluster_ok log' cluster'.
Proof.
  intros Hstep Hok. inversion Hstep as [? ? id s ev Hs|? ? id s peer sp c f t1 t2 Hs Hsp Hin]; subst.
  - apply map_Forall_insert_2; [apply server_step_ok; exact (Hok _ _ Hs)|].
    intros id' s' Hs'. apply (server_ok_mono log); [set_solver|]. exact (Hok _ _ Hs').
  - apply map_Forall_insert_2; [|done]. apply frame_arrives_ok; [exact (Hok _ _ Hs)|].
    exact (vo_mesh _ _ (Hok _ _ Hsp) _ _ Hin).
Qed.

Lemma server_start_ok m : mc_sent m = [] → server_ok [] (server_start m).
Proof.
  intros Hm. split.
  - simpl. rewrite Hm. intros c f Hin. by destruct (not_elem_of_nil _ Hin).
  - split; [exact (table_ok_run true [])| |constructor]. simpl. intros; simplify_map_eq.
  - split; [|simpl; intros addr d Hin; by destruct (not_elem_of_nil _ Hin)|constructor].
    simpl. intros; simplify_map_eq.
  - constructor.
  - constructor.
  - constructor.
  - simpl. intros t w Hw. simplify_map_eq.
Qed.

Lemma cluster_steps_ok x y : rtc cluster_step x y → cluster_ok x.1 x.2 → cluster_ok y.1 y.2.
Proof.
  induction 1 as [x|[l c] [l' c'] z Hstep _ IH]; [done|]. intros Hok. apply IH.
  by apply (cluster_step_ok l c).
Qed.

Lemma cluster_reaches_ok log cluster : cluster_reaches log cluster → cluster_ok log cluster.
Proof.
  intros (start & Hstart & Hrtc). apply (cluster_steps_ok _ _ Hrtc). intros id s Hs.
  destruct (Hstart _ _ Hs) as (hops & peers & m & Hm & ->). apply server_start_ok.
  unfold mesh_context in Hm. destruct (is_empty _); [done|]. destruct (_ =? _); [done|].
  by injection Hm as <-.
Qed.

(** C9. In a cluster of servers, whatever order their tasks run in and however frames are
    delayed, repeated or lost between them: every packet that a server hands to a
    stream connection goes to a connection that registered for the packet's target, and
    some client on some server sent exactly this payload from the named sender to this
    target over the stream relay; every datagram a server sends goes to an address the
    target was seen at, and stems in the same way from a datagram of a client. *)
Theorem cluster_no_forgery log cluster id s :
  cluster_reaches log cluster → cluster !! id = Some s →
  (∀ conn queue deliver, sr_outbox (sv_stream s) !! conn = Some queue → deliver ∈ queue →
     ∃ from to payload, sr_conns (sv_stream s) !! conn = Some (Some to) ∧
       stream_build_packet TYPE_DELIVER from "" payload = Some deliver ∧
       Sent Stream from to payload ∈ log) ∧
  (∀ addr deliver, (addr, deliver) ∈ ur_sent (sv_udp s) →
     ∃ from to payload, SeenAt to addr ∈ log ∧
       udp_build_packet TYPE_DELIVER from "" payload = Some deliver ∧
       Sent Udp from to payload ∈ log).
Proof.
  intros Hreach Hs. apply cluster_reaches_ok in Hreach. specialize (Hreach _ _ Hs) as [_ [] []].
  split; assumption.
Qed.
End Provenance.

(** ** Packets arrive *)
Section Delivery.
Context `{HashOrder} `{CratesLaws}.

(** A stream packet for a node without a connection here waits for the mesh. *)
Lemma send_waits c node to payload frame s :
  table_ok s → sr_conns s !! c = Some (Some node) →
  stream_parse_packet frame = Some (Send node to payload) → ¬ (∃ d, listens s to d) →
  sr_mesh (relay_step true (FrameRead c (Some frame)) s) =
  sr_mesh s ++ [mkMeshOutgoingPacket Stream node to payload].
Proof.
  intros Hok Hc Hp Hno. simpl. rewrite Hc. unfold on_packet. rewrite Hp.
  rewrite bool_decide_eq_false_2 by (by intros []).
  destruct (deliver_local_total s frame node to payload Hp) as [[b s1] Hd]. rewrite Hd.
  destruct (deliver_local_spec _ _ _ _ _ _ Hok Hd) as [Hany _].
  apply deliver_local_table in Hd as (_ & _ & _ & Em).
  destruct b; [by destruct Hno, Hany; auto|]. simpl. by rewrite Em.
Qed.

Lemma send_rest c node to payload frame s :
  table_ok s → sr_conns s !! c = Some (Some node) →
  stream_parse_packet frame = Some (Send node to payload) → ¬ (∃ d, listens s to d) →
  sr_conns (relay_step true (FrameRead c (Some frame)) s) = sr_conns s ∧
  sr_outbox (relay_step true (FrameRead c (Some frame)) s) = sr_outbox s.
Proof.
  intros Hok Hc Hp Hno. simpl. rewrite Hc. unfold on_packet. rewrite Hp.
  rewrite bool_decide_eq_false_2 by (by intros []).
  destruct (deliver_local_total s frame node to payload Hp) as [[b s1] Hd]. rewrite Hd.
  pose proof (deliver_local_spec _ _ _ _ _ _ Hok Hd) as [Hany Hout].
  pose proof (deliver_local_table _ _ _ _ _ _ Hd) as (_ & Ec & _ & _).
  destruct b; [by destruct Hno, Hany; auto|]. simpl. split; [done|].
  apply map_eq. intros c'. destruct (stream_build_packet TYPE_DELIVER node "" payload) as [d|] eqn:Hb.
  - rewrite (Hout d eq_refl). case_decide; [|done].
    destruct (sr_outbox s !! c') eqn:Ho; [|done]. destruct Hno. exists c'. split; [done|eauto].
  - unfold deliver_local in Hd. rewrite Hb in Hd. destruct (sr_peers s !! to); [done|].
    by injection Hd as <-.
Qed.

(** The mesh sends a packet to a connected peer, unless it knows of another way. *)
Lemma send_local_reaches packet message_id t1 t2 m peer k :
  mc_peers m !! peer = Some k → k ∈ mc_receivers m →
  (∀ hint, mc_route_hints m !! mo_to_id packet = Some hint → rh_peer_id hint = peer) →
  (k, Relay message_id (mo_transport packet) (mo_from_id packet) (mo_to_id packet)
        (b64_encode (mo_payload packet)) (mc_max_hops m))
  ∈ mc_sent (send_local packet message_id t1 t2 m).
Proof.
  intros Hpeer Hk Hhint. unfold send_local. destruct (remember_rest message_id t1 m) as [seen Hrest].
  destruct (remember_message message_id t1 m) as [fresh m1]. simpl in Hrest.
  assert (k ∈ forward_conns None (mo_to_id packet) t2 m1) as Hin.
  { assert (k ∈ others None m1) as Hothers.
    { apply elem_of_others. exists peer. by rewrite Hrest. }
    unfold forward_conns, lookup_route. rewrite Hrest in *. simpl in *.
    destruct (mc_route_hints m !! mo_to_id packet) as [hint|] eqn:Hh; [|done].
    destruct (_ <=? ROUTE_TTL); [|done]. simpl. rewrite (Hhint _ eq_refl), Hpeer.
    rewrite bool_decide_eq_true_2 by done. left. }
  rewrite forward_sent. simpl. apply elem_of_app. right.
  apply list_elem_of_fmap. exists k. split; [by rewrite Hrest|done].
Qed.

Lemma receive_new peer message_id from b64 t1 t2 m :
  mc_seen_ids m !! message_id = None →
  ∃ m', receive_frame peer message_id from b64 t1 t2 m = (b64_decode b64, m') ∧
    mc_sent m' = mc_sent m ∧ mc_peers m' = mc_peers m ∧ mc_receivers m' = mc_receivers m.
Proof.
  intros Hnew. unfold receive_frame. pose proof (remember_fresh message_id t1 m) as Hfresh.
  unfold seen_lately in Hfresh. rewrite Hnew in Hfresh.
  destruct (remember_rest message_id t1 m) as [seen Hrest].
  destruct (remember_message message_id t1 m) as [fresh m1]. simpl in *. subst fresh m1.
  eexists. split; [done|]. by destruct (learn_rest from peer t2 (m <| mc_seen_ids := seen |>)) as [h ->].
Qed.

(** A trimmed table has no new entries. *)
Lemma deletes_sub {V} (l : list string) (m : gmap string V) : foldl (λ m k, delete k m) m l ⊆ m.
Proof.
  revert m. induction l as [|k l IH]; intros m; [done|]. simpl. etrans; [apply IH|apply delete_subseteq].
Qed.
Lemma trim_table_sub {V} (stamp : V → Z) ttl limit now (m : gmap string V) :
  trim_table stamp ttl limit now m ⊆ m.
Proof.
  unfold trim_table. destruct (limit <? size m)%nat; [|done]. rewrite evict_oldest_keys.
  etrans; [apply deletes_sub|apply map_filter_subseteq].
Qed.

Lemma remember_in_new id message_id now seen :
  id ≠ message_id → seen !! id = None → remember_in message_id now seen !! id = None.
Proof.
  intros Hne Hid. unfold remember_in. case_match; [case_match; [done|]|];
    (eapply lookup_weaken_None; [|apply trim_table_sub]; by rewrite lookup_insert_ne).
Qed.

(** Once a frame from a node was taken from a peer, no other way to the node is known. *)
Lemma receive_route peer message_id from b64 t1 t2 m hint :
  mc_seen_ids m !! message_id = None → from ≠ "" → peer ≠ "" →
  mc_route_hints (receive_frame peer message_id from b64 t1 t2 m).2 !! from = Some hint →
  rh_peer_id hint = peer.
Proof.
  intros Hnew Hfrom Hpeer. unfold receive_frame. pose proof (remember_fresh message_id t1 m) as Hfresh.
  unfold seen_lately in Hfresh. rewrite Hnew in Hfresh.
  destruct (remember_message message_id t1 m) as [fresh m1]. simpl in Hfresh. subst fresh. simpl.
  unfold learn_route, is_empty. rewrite !bool_decide_eq_false_2 by done. simpl. intros Hh.
  pose proof (lookup_weaken _ _ _ _ Hh (trim_table_sub _ _ _ _ _)) as Hin.
  by apply lookup_insert_Some in Hin as [[_ <-]|[? _]].
Qed.

(** The server passed a packet of a client on, and is otherwise as before. *)
Record sent_off (message_id : string) (s s' : Server) : Prop := {
  sf_conns : sr_conns (sv_stream s') = sr_conns (sv_stream s);
  sf_outbox : sr_outbox (sv_stream s') = sr_outbox (sv_stream s);
  sf_to_local : sv_to_local s' = sv_to_local s;
  sf_stream_rx : sv_stream_rx s' = sv_stream_rx s;
  sf_seen id : id ≠ message_id → mc_seen_ids (sv_mesh s) !! id = None →
    mc_seen_ids (sv_mesh s') !! id = None;
}.

(** Exactly the connections of [node] got the packet. *)
Definition gets (node : string) (deliver : list byte) (s s' : Server) : Prop :=
  ∀ c, sr_outbox (sv_stream s') !! c =
    if decide (sr_conns (sv_stream s) !! c = Some (Some node))
    then (λ q, q ++ [deliver]) <$> sr_outbox (sv_stream s) !! c
    else sr_outbox (sv_stream s) !! c.

(** The server took a packet from [peer]: exactly the connections of the target got it,
    nothing was passed on, and no other way to its sender is known. *)
Record got (peer from to : string) (deliver : list byte) (s s' : Server) : Prop := {
  go_outbox : gets to deliver s s';
  go_conns : sr_conns (sv_stream s') = sr_conns (sv_stream s);
  go_idle : sr_mesh (sv_stream s') = sr_mesh (sv_stream s);
  go_sent : mc_sent (sv_mesh s') = mc_sent (sv_mesh s);
  go_peers : mc_peers (sv_mesh s') = mc_peers (sv_mesh s);
  go_receivers : mc_receivers (sv_mesh s') = mc_receivers (sv_mesh s);
  go_route hint : from ≠ "" → peer ≠ "" → mc_route_hints (sv_mesh s') !! from = Some hint →
    rh_peer_id hint = peer;
}.




(** What a server does with a new frame for a node that is connected to it, when its
    relay is not busy: every connection of the node gets the packet, and the frame goes
    no further. *)
Lemma frame_delivered peer message_id from to payload hops t1 t2 t3 s :
  table_ok (sv_stream s) → (∃ d, listens (sv_stream s) to d) →
  is_Some (stream_build_packet TYPE_DELIVER from "" payload) →
  sv_to_local s = [] → sv_stream_rx s = Some [] → mc_seen_ids (sv_mesh s) !! message_id = None →
  let frame := Relay message_id Stream from to (b64_encode payload) hops in
  let s' := server_step (FrameDone (sv_next s) false t3) (server_step StreamTakes
              (server_step Dispatch (frame_arrives peer frame t1 t2 s))) in
  ∃ deliver, stream_build_packet TYPE_DELIVER from "" payload = Some deliver ∧
    got peer from to deliver s s'.
Proof.
  intros Ht Hlisten [deliver Hb] Hq Hrx Hseen frame s'. exists deliver. split; [done|].
  destruct (deliver_local (sv_stream s) from to payload) as [[flag relay]|] eqn:Hd; cycle 1.
  { unfold deliver_local in Hd. destruct (sr_peers _ !! to); [|done]. rewrite Hb in Hd.
    simpl in Hd. by destruct (send_all _ _ _). }
  destruct (deliver_local_spec _ _ _ _ _ _ Ht Hd) as [Hany Hout].
  pose proof (deliver_local_table _ _ _ _ _ _ Hd) as (_ & Ec & _ & Em).
  rewrite (proj2 Hany Hlisten) in Hd. specialize (Hout deliver Hb).
  pose proof (λ hint, receive_route peer message_id from (b64_encode payload) t1 t2 _ hint Hseen)
    as Hroute.
  destruct (receive_new peer message_id from (b64_encode payload) t1 t2 _ Hseen)
    as (m & Hr & Hsent & Hpeers & Hrec).
  rewrite Hr in Hroute. rewrite b64_decode_encode in Hr.
  assert (s' = mkServer m relay (sv_udp s) [] (Some []) (sv_udp_rx s)
                 (delete (sv_next s) (sv_waiting s)) (sv_next s + 1)) as ->.
  { unfold s', frame, frame_arrives. rewrite Hr. simpl. rewrite Hq. simpl. unfold dispatch. simpl.
    rewrite Hrx. simpl. unfold stream_takes, stream_from_mesh. simpl. rewrite Hd. simpl.
    unfold frame_done, answer. simpl. rewrite lookup_alter_eq, lookup_insert_eq. simpl.
    rewrite delete_alter_eq, delete_insert_eq. done. }
  by split.
Qed.

Lemma server_steps evs log cluster id s :
  cluster !! id = Some s →
  ∃ log', rtc cluster_step (log, cluster)
    (log', <[id := foldl (λ s ev, server_step ev s) s evs]> cluster).
Proof.
  revert log cluster s. induction evs as [|ev evs IH]; intros log cluster s Hs; simpl.
  - exists log. by rewrite insert_id.
  - destruct (IH (log ++ acts ev s) (<[id := server_step ev s]> cluster) (server_step ev s))
      as [log' Hlog']; [apply lookup_insert_eq|].
    exists log'. rewrite insert_insert_eq in Hlog'. eapply rtc_l; [|exact Hlog'].
    by apply step_server.
Qed.

Lemma task_steps evs cluster id s :
  cluster !! id = Some s → Forall (λ ev, task ev = true) evs →
  rtc own_step cluster (<[id := foldl (λ s ev, server_step ev s) s evs]> cluster).
Proof.
  intros Hs Hevs. revert cluster s Hs. induction Hevs as [|ev evs Hev _ IH]; intros cluster s Hs; simpl.
  - by rewrite insert_id.
  - specialize (IH (<[id := server_step ev s]> cluster) (server_step ev s) (lookup_insert_eq _ _ _)).
    rewrite insert_insert_eq in IH. eapply rtc_l; [|exact IH]. by apply task_server.
Qed.



(** The node [node] on connection [conn] of server [a] can reach the node [to], which is
    connected to server [b] only: [a] has a connection to [b], and does not believe [to]
    to be behind another server. *)
Record can_reach (a b : string) (sa sb : Server) (conn : Z) (node to : string) : Prop := {
  cr_conn : sr_conns (sv_stream sa) !! conn = Some (Some node);
  cr_away : ¬ ∃ d, listens (sv_stream sa) to d;
  cr_here : ∃ d, listens (sv_stream sb) to d;
  cr_link : ∃ k, mc_peers (sv_mesh sa) !! b = Some k ∧ k ∈ mc_receivers (sv_mesh sa);
  cr_route hint : mc_route_hints (sv_mesh sa) !! to = Some hint → rh_peer_id hint = b;
}.

(** The sender's server: the packet goes through the relay to the mesh. *)
Lemma sends_off conn node to payload frame message_id a b sa sb :
  table_ok (sv_stream sa) → can_reach a b sa sb conn node to → sr_mesh (sv_stream sa) = [] →
  stream_parse_packet frame = Some (Send node to payload) →
  let sa' := server_step (MeshTakes Stream message_id 0 0) (client_sends conn frame sa) in
  sent_off message_id sa sa' ∧ sr_mesh (sv_stream sa') = [] ∧
  ∃ k, (k, Relay message_id Stream node to (b64_encode payload) (mc_max_hops (sv_mesh sa)))
       ∈ mc_sent (sv_mesh sa').
Proof.
  intros Ht [Hconn Hno _ (k & Hpeer & Hk) Hhint] Hmesh Hp.
  pose proof (send_waits conn node to payload frame _ Ht Hconn Hp Hno) as Hwaits.
  pose proof (send_rest conn node to payload frame _ Ht Hconn Hp Hno) as [Ec Eo].
  rewrite Hmesh, app_nil_l in Hwaits.
  set (packet := mkMeshOutgoingPacket Stream node to payload) in *.
  set (relay := relay_step true (FrameRead conn (Some frame)) (sv_stream sa)) in *.
  assert (server_step (MeshTakes Stream message_id 0 0) (client_sends conn frame sa) =
          mkServer (send_local packet message_id 0 0 (sv_mesh sa))
            ((relay : StreamRelay) <| sr_mesh := @nil MeshOutgoingPacket |>) (sv_udp sa)
            (sv_to_local sa) (sv_stream_rx sa) (sv_udp_rx sa) (sv_waiting sa) (sv_next sa)) as ->.
  { unfold client_sends. cbn [server_step]. unfold mesh_takes. cbn [sv_stream]. fold relay. by rewrite Hwaits. }
  cbv zeta. split; [|split; [done|exists k; by apply (send_local_reaches packet message_id 0 0 _ b)]].
  split; cbn [sv_stream sv_to_local sv_stream_rx sv_mesh]; [done|done|done|done|].
  intros id Hne Hid. unfold send_local.
  pose proof (remember_seen message_id 0 (sv_mesh sa)) as Hseen.
  destruct (remember_message message_id 0 (sv_mesh sa)) as [fresh m1]. simpl in Hseen.
  rewrite forward_seen, Hseen. by apply remember_in_new.
Qed.

(** A packet crosses from one server to another. *)
Lemma packet_crosses log cluster a b sa sb conn node to payload frame message_id :
  cluster_reaches log cluster →
  a ≠ b → cluster !! a = Some sa → cluster !! b = Some sb → can_reach a b sa sb conn node to →
  sr_mesh (sv_stream sa) = [] → sv_to_local sb = [] → sv_stream_rx sb = Some [] →
  stream_parse_packet frame = Some (Send node to payload) →
  mc_seen_ids (sv_mesh sb) !! message_id = None →
  ∃ deliver sa' sb', stream_build_packet TYPE_DELIVER node "" payload = Some deliver ∧
    rtc own_step (<[a := client_sends conn frame sa]> cluster) (<[b := sb']> (<[a := sa']> cluster)) ∧
    sent_off message_id sa sa' ∧ got a node to deliver sb sb'.
Proof.
  intros Hreach Hab Ha Hb Hcan Hmesh Hq Hrx Hp Hseen.
  apply cluster_reaches_ok in Hreach.
  pose proof (so_table _ _ (vo_stream _ _ (Hreach _ _ Ha))) as Hta.
  pose proof (so_table _ _ (vo_stream _ _ (Hreach _ _ Hb))) as Htb. clear Hreach.
  destruct (sends_off conn node to payload frame message_id a b sa sb Hta Hcan Hmesh Hp)
    as (Hoff & _ & k & Hin).
  set (sa1 := client_sends conn frame sa) in *.
  set (sa2 := server_step (MeshTakes Stream message_id 0 0) sa1) in *.
  assert (is_Some (stream_build_packet TYPE_DELIVER node "" payload)) as Hbuild.
  { destruct (parse_packet_send_len stream_magic eq_refl _ _ _ _ Hp) as [Hf _].
    unfold stream_build_packet, build_packet. rewrite (proj2 (Nat.ltb_ge _ _)) by done. eauto. }
  destruct (frame_delivered a message_id node to payload (mc_max_hops (sv_mesh sa)) 0 0 0 sb
    Htb (cr_here _ _ _ _ _ _ _ Hcan) Hbuild Hq Hrx Hseen) as (deliver & Hd & Hgot).
  pose proof (task_steps [MeshTakes Stream message_id 0 0] (<[a := sa1]> cluster) a sa1
    (lookup_insert_eq _ _ _) ltac:(by repeat constructor)) as Hsteps1.
  cbn [foldl] in Hsteps1. fold sa2 in Hsteps1. rewrite insert_insert_eq in Hsteps1.
  set (f := Relay message_id Stream node to _ _) in *.
  assert (own_step (<[a := sa2]> cluster) (<[b := frame_arrives a f 0 0 sb]> (<[a := sa2]> cluster)))
    as Hstep.
  { apply (task_frame _ b sb a sa2 k f 0 0); [by rewrite lookup_insert_ne|apply lookup_insert_eq|].
    exact Hin. }
  pose proof (task_steps [Dispatch; StreamTakes; FrameDone (sv_next sb) false 0]
    (<[b := frame_arrives a f 0 0 sb]> (<[a := sa2]> cluster)) b _ (lookup_insert_eq _ _ _)
    ltac:(by repeat constructor)) as Hsteps2.
  cbn [foldl] in Hsteps2. set (sb' := server_step (FrameDone _ _ _) _) in *. clearbody sb' sa2.
  rewrite insert_insert_eq in Hsteps2. exists deliver, sa2, sb'. split; [exact Hd|].
  split; [|exact (conj Hoff Hgot)].
  etrans; [exact Hsteps1|exact (rtc_l _ _ _ _ Hstep Hsteps2)].
Qed.

(** Packets cross the mesh.  In a cluster of servers that runs in any way, let a client be
    connected to server [a] for a node, and another node be connected only to server [b],
    to which [a] has a connection and from which [a] does not believe it to be away.
    When the client sends the node a packet and neither relay is busy, the tasks of the
    servers can bring it about, with nothing more from any client, that every connection
    of the node on [b] gets exactly the packet, with its sender's name, and [b] passes
    nothing on. *)
Theorem relay_across_mesh log cluster a b sa sb conn node to payload frame message_id :
  cluster_reaches log cluster →
  a ≠ b → cluster !! a = Some sa → cluster !! b = Some sb → can_reach a b sa sb conn node to →
  sr_mesh (sv_stream sa) = [] → sv_to_local sb = [] → sv_stream_rx sb = Some [] →
  stream_parse_packet frame = Some (Send node to payload) →
  mc_seen_ids (sv_mesh sb) !! message_id = None →
  ∃ deliver cluster' sb', stream_build_packet TYPE_DELIVER node "" payload = Some deliver ∧
    rtc own_step (<[a := client_sends conn frame sa]> cluster) cluster' ∧ cluster' !! b = Some sb' ∧
    gets to deliver sb sb' ∧ mc_sent (sv_mesh sb') = mc_sent (sv_mesh sb).
Proof.
  intros Hreach Hab Ha Hb Hcan Hm Hq Hrx Hp Hseen.
  destruct (packet_crosses log cluster a b sa sb conn node to payload frame message_id)
    as (deliver & sa' & sb' & Hd & Hsteps & _ & []); try done.
  exists deliver, (<[b := sb']> (<[a := sa']> cluster)), sb'. split; [done|]. split; [exact Hsteps|].
  split; [apply lookup_insert_eq|done].
Qed.

End Delivery.

(** ** Two servers, [a] with node n1 and [b] with node n2 *)
Module ClusterSample.
Definition act_on : ServerEvent → Server → Server :=
  server_step (H := Sample.hash_order) (H0 := Sample.crates).
Definition play (s : Server) (evs : list ServerEvent) : Server := foldl (λ s ev, act_on ev s) s evs.
Definition mesh_of (id peer : string) : MeshContext :=
  default MeshSample.start (mesh_context id 4 [peer]).
Definition start_a : Server := server_start (mesh_of "a" "b").
Definition start_b : Server := server_start (mesh_of "b" "a").
Definition start : gmap string Server := {["a" := start_a; "b" := start_b]}.

(** A client registers on each server, and the servers are connected. *)
Definition join (node : string) : list ServerEvent :=
  [Client Accept; Client (FrameRead 1 (Some (reg_frame node)))].
Definition events_a : list ServerEvent := Connect 1 (Some "b") (Hello "b") :: join "n1".
Definition events_b : list ServerEvent := Connect 2 None (Hello "a") :: join "n2".
Definition ready_a : Server := play start_a events_a.
Definition ready_b : Server := play start_b events_b.
Definition ready : gmap string Server := <["b" := ready_b]> (<["a" := ready_a]> start).

(** n1 sends to n2. *)
Definition send_events : list ServerEvent :=
  [Client (FrameRead 1 (Some (send_frame "n1" "n2"))); MeshTakes Stream "m1" 10 11].
Definition sent_a : Server := play ready_a send_events.
Definition the_frame : MeshFrame := Relay "m1" Stream "n1" "n2" (Sample.hex_encode (bytes "hi")) 4.
Definition arrived_b : Server :=
  frame_arrives (H := Sample.hash_order) (H0 := Sample.crates) "a" the_frame 12 13 ready_b.
Definition delivered_b : Server := play arrived_b [Dispatch; StreamTakes; FrameDone 0 false 14].
Definition delivered : gmap string Server :=
  <["b" := delivered_b]> (<["b" := arrived_b]> (<["a" := sent_a]> ready)).

Definition reaches : list Act → gmap string Server → Prop :=
  cluster_reaches (H := Sample.hash_order) (H0 := Sample.crates).

Lemma start_ok : cluster_start start.
Proof.
  apply map_Forall_insert_2; [|apply map_Forall_insert_2; [|apply map_Forall_empty]];
    exists 4; eexists; eexists; (split; [reflexivity|reflexivity]).
Qed.

Lemma play_reaches evs log cluster id s s' :
  reaches log cluster → cluster !! id = Some s → s' = play s evs →
  ∃ log', reaches log' (<[id := s']> cluster).
Proof.
  intros (s0 & Hs0 & Hr) Hs ->.
  destruct (server_steps (H := Sample.hash_order) (H0 := Sample.crates) evs log cluster id s Hs)
    as [log' Hsteps].
  exists log', s0. split; [exact Hs0|]. etrans; [exact Hr|exact Hsteps].
Qed.

Lemma ready_reached : ∃ log, reaches log ready.
Proof.
  assert (reaches [] start) as H0 by (exists start; split; [apply start_ok|apply rtc_refl]).
  destruct (play_reaches events_a [] start "a" start_a ready_a H0 eq_refl eq_refl) as [log1 H1].
  apply (play_reaches events_b log1 (<["a" := ready_a]> start) "b" start_b ready_b H1);
    [|exact eq_refl].
  rewrite lookup_insert_ne by done. reflexivity.
Qed.

Lemma delivered_reached : ∃ log, reaches log delivered.
Proof.
  destruct ready_reached as (log & H0).
  destruct (play_reaches send_events log ready "a" ready_a sent_a H0) as [log1 H1].
  { unfold ready. rewrite lookup_insert_ne by done. apply lookup_insert_eq. }
  { vm_compute. reflexivity. }
  apply (play_reaches [Dispatch; StreamTakes; FrameDone 0 false 14] log1
    (<["b" := arrived_b]> (<["a" := sent_a]> ready)) "b" arrived_b delivered_b);
    [|apply lookup_insert_eq|vm_compute; reflexivity].
  destruct H1 as (s0 & Hs0 & H1). exists s0. split; [exact Hs0|].
  assert ((1, the_frame) ∈ mc_sent (sv_mesh sent_a)) as Hin.
  { assert (mc_sent (sv_mesh sent_a) = [(1, the_frame)]) as -> by (by vm_compute). left. }
  refine (rtc_r _ _ _ H1 (step_frame _ _ "b" ready_b "a" sent_a 1 the_frame 12 13 _ _ Hin)).
  - rewrite lookup_insert_ne by done. apply lookup_insert_eq.
  - apply lookup_insert_eq.
Qed.
End ClusterSample.

Lemma cluster_no_forgery_witness :
  ∃ log from payload, ClusterSample.reaches log ClusterSample.delivered ∧
    Sent Stream from "n2" payload ∈ log.
Proof.
  destruct ClusterSample.delivered_reached as [log Hreach].
  assert (sr_outbox (sv_stream ClusterSample.delivered_b) !! 1 =
    Some [default [] (stream_build_packet TYPE_DELIVER "n1" "" (bytes "hi"))]) as Hq
    by (by vm_compute).
  destruct (proj1 (cluster_no_forgery (H1 := Sample.crates_laws) log _ "b" _ Hreach
    (lookup_insert_eq _ _ _)) 1 _ _ Hq ltac:(left)) as (from & to & payload & Hto & _ & Hin).
  assert (sr_conns (sv_stream ClusterSample.delivered_b) !! 1 = Some (Some "n2")) as Hc
    by (by vm_compute).
  rewrite Hc in Hto. injection Hto as <-. exists log, from, payload. exact (conj Hreach Hin).
Defined.




