(* ===== verification/MeshTls.v ===== *)
(** * Who is at the other end of a mesh connection (src/mesh.rs, TLS set-up)

    The certificates and keys a server loads, the TLS configurations it builds of them,
    and what a connection must show before the hello is looked at.  The PEM parsers, the
    trust store and the checks of a certificate chain are the rustls library's and
    parameters. *)

From S2P Require Import Prelude RustStd StdNet StdText Externals RelayCodec StreamRelay Mesh Config.
From S2P Require Import MeshWire.

Class Tls := {
  Cert : Type;
  Key : Type;
  pem_certs : list byte → option (list Cert);         (** [rustls_pemfile::certs] *)
  pem_pkcs8_keys : list byte → option (list Key);
  pem_rsa_keys : list byte → option (list Key);
  pem_ec_keys : list byte → option (list Key);
  root_ok : Cert → bool;                              (** [RootCertStore::add] *)
  verifier_ok : list Cert → bool;                     (** [WebPkiClientVerifier] is built *)
  identity_ok : list Cert → Key → bool;               (** the key fits the chain *)
  server_name_ok : string → bool;                     (** [ServerName::try_from] *)
  client_chain_ok : list Cert → list Cert → bool;     (** roots, chain *)
  server_chain_ok : list Cert → list Cert → string → bool;  (** roots, chain, name *)
}.

Section Tls.
Context `{Tls}.

(** What reading a file gives *)
Context (read : string → option (list byte)).

Definition open_file (path : string) : result (list byte) string :=
  ok_or_msg (read path) ("failed to open " +:+ path).

Definition load_certs (path : string) : result (list Cert) string :=
  let? file := open_file path in
  let? certs := ok_or_msg (pem_certs file) ("failed to read certs from " +:+ path) in
  match certs with
  | [] => Err ("no certs in " +:+ path)
  | _ => Ok certs
  end.

(** [load_private_key]: the last key of the first format of which the file has a key *)
Definition load_private_key (path : string) : result Key string :=
  let? file := open_file path in
  let? keys := ok_or_msg (pem_pkcs8_keys file) ("failed to read private key from " +:+ path) in
  match last keys with
  | Some key => Ok key
  | None =>
      let? file := open_file path in
      let? keys := ok_or_msg (pem_rsa_keys file) ("failed to read rsa private key from " +:+ path) in
      match last keys with
      | Some key => Ok key
      | None =>
          let? file := open_file path in
          let? keys := ok_or_msg (pem_ec_keys file) ("failed to read ec private key from " +:+ path) in
          match last keys with
          | Some key => Ok key
          | None => Err ("no private key found in " +:+ path)
          end
      end
  end.

(** The loop that fills the trust store *)
Fixpoint add_roots (certs roots : list Cert) : result (list Cert) string :=
  match certs with
  | [] => Ok roots
  | cert :: certs =>
      if root_ok cert then add_roots certs (roots ++ [cert])
      else Err "failed to add mesh CA cert to trust store"
  end.

(** [ServerConfig] and [ClientConfig]: the roots the other side is checked against, and
    what this side shows *)
Record TlsConfig : Type := mkTlsConfig {
  tls_roots : list Cert;
  tls_certs : list Cert;
  tls_key : Key;
}.

Definition build_server_tls_config (config : MeshConfig) : result TlsConfig string :=
  let? certs := load_certs (mcf_cert_path config) in
  let? key := load_private_key (mcf_key_path config) in
  let? ca := load_certs (mcf_ca_cert_path config) in
  let? roots := add_roots ca [] in
  if negb (verifier_ok roots) then Err "failed to build mesh client cert verifier"
  else if negb (identity_ok certs key) then Err "failed to build mesh server tls config"
  else Ok (mkTlsConfig roots certs key).

Definition build_client_tls_config (config : MeshConfig) : result TlsConfig string :=
  let? ca := load_certs (mcf_ca_cert_path config) in
  let? roots := add_roots ca [] in
  let? certs := load_certs (mcf_cert_path config) in
  let? key := load_private_key (mcf_key_path config) in
  if negb (identity_ok certs key) then Err "failed to build mesh client tls config"
  else Ok (mkTlsConfig roots certs key).

(** [start] up to its listener *)
Definition mesh_start (config : MeshConfig) : result (MeshContext * TlsConfig * TlsConfig) string :=
  let? context := ok_or_msg (mesh_context (mcf_server_id config) (mcf_max_hops config)
                               (mp_id <$> mcf_peers config))
                    (if is_empty (trim (mcf_server_id config)) then "mesh server id must be non-empty"
                     else "mesh max hops must be > 0") in
  let? server_tls := build_server_tls_config config in
  let? client_tls := build_client_tls_config config in
  Ok (context, server_tls, client_tls).

Lemma load_certs_ok path certs :
  load_certs path = Ok certs → certs ≠ [] ∧ ∃ file, read path = Some file ∧ pem_certs file = Some certs.
Proof.
  unfold load_certs, open_file. destruct (read path) as [file|]; [|done]. simpl.
  destruct (pem_certs file) as [[|c l]|] eqn:Hc; [done| |done]. simpl. intros [= <-].
  split; [done|]. by exists file.
Qed.

Lemma add_roots_ok certs roots roots' :
  add_roots certs roots = Ok roots' → roots' = roots ++ certs ∧ Forall (λ c, root_ok c = true) certs.
Proof.
  revert roots. induction certs as [|c certs IH]; intros roots; simpl.
  - intros [= <-]. by rewrite app_nil_r.
  - destruct (root_ok c) eqn:Hc; [|done]. intros [-> Hall]%IH. by rewrite <- app_assoc; auto.
Qed.

(** The key of a file: the last one of the first format that the file has keys of *)
Lemma load_private_key_spec path file pkcs8 rsa ec :
  read path = Some file → pem_pkcs8_keys file = Some pkcs8 → pem_rsa_keys file = Some rsa →
  pem_ec_keys file = Some ec →
  load_private_key path =
  ok_or_msg (union (last pkcs8) (union (last rsa) (last ec))) ("no private key found in " +:+ path).
Proof.
  intros Hr H1 H2 H3. unfold load_private_key, open_file. rewrite Hr. simpl. rewrite H1. simpl.
  destruct (last pkcs8) as [k|]; [by destruct (last rsa), (last ec)|]. rewrite H2. simpl.
  destruct (last rsa); [by destruct (last ec)|]. rewrite H3. simpl. by destruct (last ec).
Qed.

(** A mesh that starts authenticates both sides alike: it checks clients and servers
    against the same roots, which are the certificates of the CA file and at least one,
    and shows the same certificate and key in both roles. *)
Theorem mesh_start_mutual config m server_tls client_tls :
  mesh_start config = Ok (m, server_tls, client_tls) →
  server_tls = client_tls ∧ tls_certs server_tls ≠ [] ∧ tls_roots server_tls ≠ [] ∧
  identity_ok (tls_certs server_tls) (tls_key server_tls) = true ∧
  (∃ file, read (mcf_ca_cert_path config) = Some file ∧ pem_certs file = Some (tls_roots server_tls)) ∧
  mc_allowed_peers m = list_to_set (mp_id <$> mcf_peers config).
Proof.
  unfold mesh_start, build_server_tls_config, build_client_tls_config.
  destruct (mesh_context _ _ _) as [m'|] eqn:Hm; [|done]. simpl.
  destruct (load_certs (mcf_cert_path config)) as [certs|] eqn:Hcerts; [|done]. simpl.
  destruct (load_private_key (mcf_key_path config)) as [key|]; [|done]. simpl.
  destruct (load_certs (mcf_ca_cert_path config)) as [ca|] eqn:Hca; [|done]. simpl.
  destruct (add_roots ca []) as [roots|] eqn:Hroots; [|done]. simpl.
  destruct (verifier_ok roots); [|done]. simpl.
  destruct (identity_ok certs key) eqn:Hid; [|done]. simpl. intros [= <- <- <-].
  apply load_certs_ok in Hcerts as [Hcerts _]. apply load_certs_ok in Hca as [Hne Hfile].
  apply add_roots_ok in Hroots as [-> _]. simpl. split; [done|]. split; [done|]. split; [done|].
  split; [done|]. split; [done|]. unfold mesh_context in Hm.
  destruct (is_empty _); [done|]. destruct (_ =? _); [done|]. by injection Hm as <-.
Qed.
End Tls.

(** ** Connections *)
Section Connections.
Context `{Tls} `{MeshSerde}.

(** How the handling of the frames of a connection goes, see [connection_events] *)
Definition Handled : Type := nat → bool * (Z * Z * Z).

(** A connection to [run_listener]: the chain the client shows, and what it sends *)
Definition inbound (m : MeshContext) (server_tls : TlsConfig) (chain : list Cert) (conn_id : Z)
    (input : Incoming) (handled : Handled) : list MeshEvent :=
  if client_chain_ok (tls_roots server_tls) chain
  then connection_events m conn_id None input handled else [].

(** One round of the loop of [run_outbound_peer]: the address does not answer, or the
    server there shows a chain and sends something. *)
Inductive Attempt : Type :=
  | TcpFailed
  | TcpConnected (chain : list Cert) (conn_id : Z) (input : Incoming) (handled : Handled).

Definition outbound_attempt (m : MeshContext) (client_tls : TlsConfig) (peer : MeshPeer)
    (attempt : Attempt) : list MeshEvent :=
  match attempt with
  | TcpFailed => []
  | TcpConnected chain conn_id input handled =>
      if server_chain_ok (tls_roots client_tls) chain (mp_id peer)
      then connection_events m conn_id (Some (mp_id peer)) input handled else []
  end.

(** [run_outbound_peer] ends at once when the identifier is no server name, and otherwise
    tries again and again. *)
Definition run_outbound_peer (m : MeshContext) (client_tls : TlsConfig) (peer : MeshPeer)
    (attempts : list Attempt) : list MeshEvent :=
  if negb (server_name_ok (mp_id peer)) then []
  else attempts ≫= outbound_attempt m client_tls peer.

(** ** What a connection proves *)

(** The peer an event of a connection is attributed to *)
Definition event_peer (e : MeshEvent) : option string :=
  match e with
  | EvOpen _ _ (Hello p) | EvFrame p _ _ _ _ _ | EvClose _ _ p => Some p
  | _ => None
  end.

(** All events of a connection are attributed to one peer, which was accepted. *)
Lemma connection_events_peer m conn_id expected input handled e :
  e ∈ connection_events m conn_id expected input handled →
  ∃ p, event_peer e = Some p ∧ validate_peer m expected p = true.
Proof.
  unfold connection_events. destruct (ic_hello_sent input); simpl;
    [|intros He; destruct (not_elem_of_nil _ He)].
  destruct (next_line _ _) as [line rest| |]; [|intros He; destruct (not_elem_of_nil _ He)..].
  destruct (frame_from_json line) as [[p|]|]; [|intros He; destruct (not_elem_of_nil _ He)..].
  destruct (validate_peer m expected p) eqn:Hv; [|intros He; destruct (not_elem_of_nil _ He)].
  simpl. destruct (read_frames_of _ rest) as [frames err]. intros He. exists p. split; [|done].
  apply elem_of_cons in He as [->|He]; [done|]. apply elem_of_app in He as [He|He].
  - apply list_elem_of_lookup in He as [i Hi]. rewrite list_lookup_imap in Hi.
    destruct (frames !! i) as [f|]; [|done]. simpl in Hi.
    destruct (handled i) as [d [[t1 t2] t3]]. by injection Hi as <-.
  - by apply list_elem_of_singleton in He as ->.
Qed.

(** The events of an outbound task are those of its attempts. *)
Lemma outbound_event m client_tls peer attempts e :
  e ∈ run_outbound_peer m client_tls peer attempts →
  ∃ before after chain conn_id input handled,
    attempts = before ++ TcpConnected chain conn_id input handled :: after ∧
    server_chain_ok (tls_roots client_tls) chain (mp_id peer) = true ∧
    e ∈ connection_events m conn_id (Some (mp_id peer)) input handled.
Proof.
  unfold run_outbound_peer. destruct (server_name_ok _); [|intros He; destruct (not_elem_of_nil _ He)].
  simpl. intros ([|chain c input handled] & He & Hin)%list_elem_of_bind;
    [destruct (not_elem_of_nil _ He)|].
  simpl in He. destruct (server_chain_ok _ chain _) eqn:Hchain; [|destruct (not_elem_of_nil _ He)].
  apply list_elem_of_split in Hin as (l1 & l2 & ->). by exists l1, l2, chain, c, input, handled.
Qed.

(** C30. A connection this server makes is authenticated: whatever answers at the address
    of a peer, each event is one of a connection whose own certificate chain is valid,
    under the mesh CA, for the configured identifier of the peer, whatever the attempts
    before and after it showed; and it is attributed to exactly this peer, as which the
    other side must introduce itself and which must be an allowed one. *)
Theorem outbound_authentic m client_tls peer attempts e :
  e ∈ run_outbound_peer m client_tls peer attempts →
  event_peer e = Some (mp_id peer) ∧ mp_id peer ∈ mc_allowed_peers m ∧
  ∃ before after chain conn_id input handled,
    attempts = before ++ TcpConnected chain conn_id input handled :: after ∧
    server_chain_ok (tls_roots client_tls) chain (mp_id peer) = true ∧
    e ∈ connection_events m conn_id (Some (mp_id peer)) input handled.
Proof.
  intros He. pose proof (outbound_event _ _ _ _ _ He) as
    (before & after & chain & c & input & handled & Hatt & Hchain & Hev).
  pose proof (connection_events_peer _ _ _ _ _ _ Hev) as (p & Hp & Hv).
  apply validate_peer_spec in Hv as (_ & _ & Hexp & Hall). rewrite (Hexp _ eq_refl) in *.
  split; [done|]. split; [done|]. by exists before, after, chain, c, input, handled.
Qed.

(** What comes in is only looked at when the mesh CA signed the client's certificate, and
    is attributed to a configured peer. *)
Lemma inbound_needs_ca m server_tls chain conn_id input handled e :
  e ∈ inbound m server_tls chain conn_id input handled →
  client_chain_ok (tls_roots server_tls) chain = true ∧
  ∃ p, event_peer e = Some p ∧ p ∈ mc_allowed_peers m ∧ p ≠ mc_server_id m.
Proof.
  unfold inbound. destruct (client_chain_ok _ chain); [|intros He; destruct (not_elem_of_nil _ He)].
  intros (p & Hp & Hv)%connection_events_peer. split; [done|]. exists p.
  by apply validate_peer_spec in Hv as (_ & ? & _ & ?).
Qed.

(** C40. A connection that comes in is authenticated as some member of the mesh only:
    whoever holds any certificate of the mesh CA, for whatever name, may introduce itself
    as any configured peer.  It then takes that peer's place: what this server has for
    the peer is sent to the newcomer, also when the peer was connected before. *)
Theorem inbound_identity_unbound `{!MeshSerdeLaws} m server_tls chain conn_id p handled frame :
  client_chain_ok (tls_roots server_tls) chain = true →
  p ∈ mc_allowed_peers m → p ≠ mc_server_id m → p ≠ "" →
  ∃ m', inbound m server_tls chain conn_id
            (mkIncoming true (mesh_write_frame (Hello p)) false) handled =
          [EvOpen conn_id None (Hello p); EvClose false conn_id p] ∧
    open_connection conn_id None (Hello p) m = Some m' ∧
    mc_sent (send_to_peer p frame m').2 = mc_sent m ++ [(conn_id, frame)].
Proof.
  intros Hchain Hall Hself Hne.
  assert (validate_peer m None p = true) as Hv by (by apply validate_peer_spec).
  unfold inbound, open_connection. rewrite Hchain, Hv. eexists. split; [|split; [done|]].
  - pose proof (connection_arrived m conn_id None p []
      (mkIncoming true (mesh_write_frame (Hello p)) false) [] handled Hv) as Hev.
    rewrite Hev; [|constructor|done|cbn [fmap list_fmap concat ic_bytes]; by rewrite app_nil_r].
    cbn [ic_broken ic_bytes]. pose proof (received_line false (Hello p) [] []) as Hrec.
    pose proof (utf8_valid_line (Hello p) []) as Hutf8. rewrite app_nil_r in Hrec, Hutf8.
    by rewrite Hrec, Hutf8.
  - unfold send_to_peer, channel_send. simpl. rewrite lookup_insert_eq.
    rewrite decide_True by set_solver. done.
Qed.
End Connections.

(** ** A toy PKI: a certificate is the name of its signer and the name it is for *)
Module TlsSample.
#[export] Instance tls : Tls := {|
  Cert := string * string;
  Key := string;
  pem_certs file := Some [(str file, str file)];
  pem_pkcs8_keys file := Some [];
  pem_rsa_keys file := Some [str file];
  pem_ec_keys file := Some [];
  root_ok _ := true;
  verifier_ok _ := true;
  identity_ok _ _ := true;
  server_name_ok name := negb (is_empty name);
  client_chain_ok roots chain :=
    match head roots, head chain with
    | Some (ca, _), Some (signer, _) => bool_decide (ca = signer)
    | _, _ => false
    end;
  server_chain_ok roots chain name :=
    match head roots, head chain with
    | Some (ca, _), Some (signer, subject) => bool_decide (ca = signer ∧ subject = name)
    | _, _ => false
    end;
|}.

Definition config : TlsConfig (H := tls) := mkTlsConfig (H := tls) [("ca", "ca")] [("ca", "a")] "key".
Definition handled : Handled := λ _, (false, (10, 11, 12)).
Definition hello_b : Incoming :=
  mkIncoming true (mesh_write_frame (H := WireSample.mesh_serde) (Hello "b")) false.
Definition peer_b : MeshPeer := mkMeshPeer "b" "10.0.0.12:7443".
(** An impostor, then the peer itself *)
Definition attempts : list (Attempt (H := tls)) :=
  [TcpFailed (H := tls); TcpConnected (H := tls) [("ca", "c")] 1 hello_b handled;
   TcpConnected (H := tls) [("ca", "b")] 2 hello_b handled].
End TlsSample.

Lemma mesh_start_mutual_witness :
  ∃ m t1 t2, mesh_start (H := TlsSample.tls) (λ p, Some (bytes p))
      (mkMeshConfig "a" (mkSockAddr (V4 0) 0 7443) [TlsSample.peer_b] "ca" "a" "key" 4)
    = Ok (m, t1, t2) ∧ t1 = t2.
Proof.
  destruct (mesh_start (H := TlsSample.tls) (λ p, Some (bytes p))
    (mkMeshConfig "a" (mkSockAddr (V4 0) 0 7443) [TlsSample.peer_b] "ca" "a" "key" 4))
    as [[[m t1] t2]|e] eqn:Hs; [|by vm_compute in Hs].
  exists m, t1, t2. split; [done|]. exact (proj1 (mesh_start_mutual _ _ _ _ _ Hs)).
Defined.

Lemma outbound_authentic_witness :
  run_outbound_peer (H := TlsSample.tls) (H0 := WireSample.mesh_serde) MeshSample.start
    TlsSample.config TlsSample.peer_b TlsSample.attempts
  = [EvOpen 2 (Some "b") (Hello "b"); EvClose false 2 "b"] ∧
  mp_id TlsSample.peer_b ∈ mc_allowed_peers MeshSample.start.
Proof.
  assert (run_outbound_peer (H := TlsSample.tls) (H0 := WireSample.mesh_serde) MeshSample.start
    TlsSample.config TlsSample.peer_b TlsSample.attempts
    = [EvOpen 2 (Some "b") (Hello "b"); EvClose false 2 "b"]) as Hrun by (by vm_compute).
  split; [exact Hrun|].
  refine (proj1 (proj2 (outbound_authentic (H := TlsSample.tls) (H0 := WireSample.mesh_serde)
    MeshSample.start TlsSample.config TlsSample.peer_b TlsSample.attempts
    (EvClose false 2 "b") _))).
  rewrite Hrun. right. left.
Defined.

(** The holder of a certificate for c takes the place of b, which was connected. *)
Lemma inbound_identity_unbound_witness :
  server_chain_ok (Tls := TlsSample.tls) (tls_roots TlsSample.config) [("ca", "c")] "b" = false ∧
  ∃ m', open_connection 7 None (Hello "b") MeshSample.connected = Some m' ∧
    mc_sent (send_to_peer "b" (Hello "x") m').2 = [(7, Hello "x")].
Proof.
  split; [by vm_compute|].
  destruct (inbound_identity_unbound (H := TlsSample.tls) (H0 := WireSample.mesh_serde)
    (H1 := WireSample.mesh_serde_laws) MeshSample.connected TlsSample.config
    [("ca", "c")] 7 "b" TlsSample.handled (Hello "x")) as (m' & _ & Hopen & Hsent).
  - by vm_compute.
  - by apply (bool_decide_unpack _); vm_compute.
  - by vm_compute.
  - done.
  - exists m'. split; [exact Hopen|]. rewrite Hsent. by vm_compute.
Defined.
