(* ===== verification/Launch.v ===== *)
(** * What a started server runs (src/main.rs, [main], the second half)

    After [boot] (Startup.v) [main] makes the channels between the mesh and the relays,
    spawns the dispatcher and the services whose addresses are given, and serves.  A
    receiver that no service took stays in the frame of [main], which does not return.
    Here the tasks that run decide which of the events of Cluster.v can happen, and the
    theorem says that the option for the listener of a relay decides whether the frames
    of its transport are ever answered. *)

From S2P Require Import Prelude Effects RustStd StdNet StdText Externals RelayCodec StreamRelay UdpRelay Mesh.
From S2P Require Import Model Store SampleStore Ipam Keys Acl Auth Netmap Netid ApiHelpers Api.
From S2P Require Import Invariant Safety Server Scenario Reachability Access Config Startup Cluster.

(** ** The wiring *)

(** The arguments of [run_with_mesh] of a relay: where it listens, and whether it got the
    sender to the mesh and the receiver of its packets from the mesh *)
Record RelayTask : Type := mkRelayTask {
  rt_listen : SockAddr;
  rt_mesh_tx : bool;
  rt_mesh_rx : bool;
}.

(** The tasks of a server.  The last two fields are the receivers that [main] keeps. *)
Record Launch : Type := mkLaunch {
  la_http : SockAddr;
  la_dispatcher : bool;
  la_udp : option RelayTask;
  la_stream : option RelayTask;
  la_dns : option SockAddr;
  la_warned : bool;
  la_udp_rx : bool;
  la_stream_rx : bool;
}.

(** A relay is spawned when its address is given, and takes its receiver. *)
Definition spawn_relay (listen : option SockAddr) (mesh_tx mesh_rx : bool)
    : option RelayTask * bool :=
  match listen with
  | Some addr => (Some (mkRelayTask addr mesh_tx mesh_rx), false)
  | None => (None, mesh_rx)
  end.

(** [main] from the channels of the mesh on *)
Definition launch (mesh : option MeshContext) (ls : Listeners) : Launch :=
  let relay_to_mesh_tx := is_some mesh in
  let dispatcher := is_some mesh in
  let '(udp, udp_mesh_rx) := spawn_relay (ls_udp_relay ls) relay_to_mesh_tx dispatcher in
  let '(stream, stream_mesh_rx) := spawn_relay (ls_stream_relay ls) relay_to_mesh_tx dispatcher in
  let warned := is_some mesh && is_none (ls_stream_relay ls) && is_none (ls_udp_relay ls) in
  mkLaunch (ls_http ls) dispatcher udp stream (ls_dns ls) warned udp_mesh_rx stream_mesh_rx.

(** The service of a transport *)
Definition relay_of (tr : MeshTransport) (la : Launch) : option RelayTask :=
  match tr with Stream => la_stream la | Udp => la_udp la end.
(** Its task that takes packets from the mesh *)
Definition takes_from_mesh (tr : MeshTransport) (la : Launch) : bool :=
  match relay_of tr la with Some task => rt_mesh_rx task | None => false end.

(** The events that the tasks of a server can cause *)
Definition can_happen (la : Launch) (ev : ServerEvent) : bool :=
  match ev with
  | Client _ => is_some (la_stream la)
  | Datagram _ _ _ _ | Cleanup _ => is_some (la_udp la)
  | Connect _ _ _ | Disconnect _ _ _ | WriterStopped _ | FrameDone _ _ _ | MeshTakes _ _ _ _
  | Dispatch => la_dispatcher la
  | StreamTakes | StreamGone => takes_from_mesh Stream la
  | UdpTakes _ | UdpGone => takes_from_mesh Udp la
  end.

#[export] Instance MeshTransport_eq : EqDecision MeshTransport.
Proof. solve_decision. Defined.

Section Launched.
Context `{HashOrder} `{Crates}.

Inductive launch_step (la : Launch) : Server → Server → Prop :=
  | launch_own s ev : can_happen la ev = true → launch_step la s (server_step ev s)
  | launch_frame s peer frame t_seen t_learn :
      la_dispatcher la = true → launch_step la s (frame_arrives peer frame t_seen t_learn s).

(** ** The queues *)

Definition rx_of (tr : MeshTransport) (s : Server) : option (list MeshIncomingPacket) :=
  match tr with Stream => sv_stream_rx s | Udp => sv_udp_rx s end.
Definition queued (tr : MeshTransport) (s : Server) : list MeshIncomingPacket :=
  default [] (rx_of tr s).

(** The packet is on its way to the relay of its transport. *)
Definition on_its_way (pk : MeshIncomingPacket) (s : Server) : Prop :=
  pk ∈ sv_to_local s ∨ pk ∈ queued (mi_transport pk) s.

(** Every frame that waits without an answer has a packet on its way, and every packet on
    its way has a number that was given, to a frame of its transport. *)
Record accounted (s : Server) : Prop := {
  ac_waiting t w : sv_waiting s !! t = Some w → wt_answer w = None →
    ∃ pk, mi_delivered pk = t ∧ mi_transport pk = wt_transport w ∧ on_its_way pk s;
  ac_given t w : sv_waiting s !! t = Some w → t < sv_next s;
  ac_to_local pk : pk ∈ sv_to_local s → mi_delivered pk < sv_next s ∧
    ∀ w, sv_waiting s !! mi_delivered pk = Some w → wt_transport w = mi_transport pk;
  ac_queued tr pk : pk ∈ queued tr s → mi_transport pk = tr ∧ mi_delivered pk < sv_next s ∧
    ∀ w, sv_waiting s !! mi_delivered pk = Some w → wt_transport w = tr;
}.

Lemma start_accounted m : accounted (server_start m).
Proof.
  split; simpl; [by intros ? ? ?%lookup_empty_Some..|intros ? []%elem_of_nil|].
  intros [] pk Hpk; by apply elem_of_nil in Hpk.
Qed.

(** *** A step moves packets, and answers some of them *)
Record moves (answered : list MeshIncomingPacket) (s s' : Server) : Prop := {
  mv_next : sv_next s' = sv_next s;
  mv_waiting t w' : sv_waiting s' !! t = Some w' →
    ∃ w, sv_waiting s !! t = Some w ∧ wt_transport w' = wt_transport w ∧
      (wt_answer w' = None → ∀ pk, pk ∈ answered → mi_delivered pk ≠ t) ∧
      ((∀ pk, pk ∈ answered → mi_delivered pk ≠ t) → wt_answer w' = wt_answer w);
  mv_to_local : sv_to_local s' ⊆ sv_to_local s;
  mv_queued tr : queued tr s' ⊆ queued tr s ++ filter (λ pk, mi_transport pk = tr) (sv_to_local s);
  mv_way pk : on_its_way pk s → on_its_way pk s' ∨ pk ∈ answered;
  mv_answered pk : pk ∈ answered → on_its_way pk s;
}.

Lemma moves_accounted answered s s' : moves answered s s' → accounted s → accounted s'.
Proof.
  intros [Hn Hw Hl Hq Hway _] [A1 A2 A3 A4]. split.
  - intros t w' Ht Hopen. destruct (Hw t w' Ht) as (w & Hs & Etr & Hnot & Heq).
    specialize (Hnot Hopen). rewrite (Heq Hnot) in Hopen.
    destruct (A1 t w Hs Hopen) as (pk & Hd & Htr & Hpk). exists pk. split; [done|].
    split; [congruence|]. destruct (Hway pk Hpk) as [?|Hin]; [done|]. by destruct (Hnot pk Hin).
  - intros t w' Ht. rewrite Hn. destruct (Hw t w' Ht) as (w & Hs & _). by eapply A2.
  - intros pk Hpk. rewrite Hn. destruct (A3 pk (Hl pk Hpk)) as [Hlt Heq]. split; [done|].
    intros w' Ht. destruct (Hw _ _ Ht) as (w & Hs & -> & _). by apply Heq.
  - intros tr pk Hpk. rewrite Hn.
    assert (mi_transport pk = tr ∧ mi_delivered pk < sv_next s ∧
      ∀ w, sv_waiting s !! mi_delivered pk = Some w → wt_transport w = tr) as (Etr & Hlt & Heq).
    { apply (Hq tr), elem_of_app in Hpk as [Hpk|[Htr Hpk]%list_elem_of_filter]; [by apply A4|].
      destruct (A3 pk Hpk) as [? Heq]. split; [done|]. split; [done|]. intros w Hs. by rewrite (Heq w Hs). }
    split; [done|]. split; [done|]. intros w' Ht. destruct (Hw _ _ Ht) as (w & Hs & -> & _). by apply Heq.
Qed.

(** Answers leave the queues alone. *)
Lemma answers_rest flag (l : list MeshIncomingPacket) s :
  let s' := foldr (λ packet, answer flag (mi_delivered packet)) s l in
  sv_next s' = sv_next s ∧ sv_to_local s' = sv_to_local s ∧ (∀ tr, rx_of tr s' = rx_of tr s).
Proof. induction l as [|pk l IH]; [done|]. simpl. destruct IH as (? & ? & Hrx). done. Qed.

Lemma answers_waiting flag (l : list MeshIncomingPacket) s t w' :
  sv_waiting (foldr (λ packet, answer flag (mi_delivered packet)) s l) !! t = Some w' →
  ∃ w, sv_waiting s !! t = Some w ∧ wt_transport w' = wt_transport w ∧
    (wt_answer w' = None → ∀ pk, pk ∈ l → mi_delivered pk ≠ t) ∧
    ((∀ pk, pk ∈ l → mi_delivered pk ≠ t) → wt_answer w' = wt_answer w).
Proof.
  revert w'. induction l as [|pk l IH]; intros w'; simpl.
  { intros Hw. exists w'. split; [done|]. split; [done|]. split; [|done]. intros _ pk []%elem_of_nil. }
  rewrite lookup_alter_Some. intros [(<- & w1 & Hw1 & ->)|[Hne Hw1]].
  - destruct (IH w1 Hw1) as (w & Hw & Htr & _). exists w. split; [done|]. split; [done|].
    split; [done|]. intros Hnot. by destruct (Hnot pk); [left|].
  - destruct (IH w' Hw1) as (w & Hw & Htr & Hno & Heq). exists w. split; [done|]. split; [done|]. split.
    + intros Hn pk' [->|Hin]%elem_of_cons; [done|by apply Hno].
    + intros Hnot. apply Heq. intros pk' Hin. apply Hnot. by right.
Qed.

Lemma same_waiting (s : Server) t w' : sv_waiting s !! t = Some w' →
  ∃ w, sv_waiting s !! t = Some w ∧ wt_transport w' = wt_transport w ∧
    (wt_answer w' = None → ∀ pk : MeshIncomingPacket, pk ∈ [] → mi_delivered pk ≠ t) ∧
    ((∀ pk : MeshIncomingPacket, pk ∈ [] → mi_delivered pk ≠ t) → wt_answer w' = wt_answer w).
Proof. apply (answers_waiting true []). Qed.

(** A step that does not touch the queues, and forgets a waiting frame at most *)
Lemma moves_nothing s s' :
  sv_next s' = sv_next s → sv_waiting s' ⊆ sv_waiting s → sv_to_local s' = sv_to_local s →
  (∀ tr, rx_of tr s' = rx_of tr s) → moves [] s s'.
Proof.
  intros Hn Hw Hl Hq. split; [done| | | | |].
  - intros t w' Ht. apply same_waiting. by eapply lookup_weaken.
  - by rewrite Hl.
  - intros tr. unfold queued. rewrite Hq. set_solver.
  - intros pk Hpk. left. unfold on_its_way, queued. by rewrite Hl, Hq.
  - by intros pk ?%elem_of_nil.
Qed.

(** Packets at the head of the queue of a relay are answered. *)
Lemma moves_answered tr flag l q s s' :
  queued tr s = l ++ q → queued tr s' = q → (∀ tr', tr' ≠ tr → rx_of tr' s' = rx_of tr' s) →
  sv_next s' = sv_next s → sv_to_local s' = sv_to_local s →
  sv_waiting s' = sv_waiting (foldr (λ packet, answer flag (mi_delivered packet)) s l) →
  accounted s → moves l s s'.
Proof.
  intros Hq Hq' Hother Hn Hl Hw Hac. split; [done| | | | |].
  - intros t w' Ht. rewrite Hw in Ht. by apply answers_waiting in Ht.
  - by rewrite Hl.
  - intros tr'. destruct (decide (tr' = tr)) as [->|Hne]; [rewrite Hq, Hq'; set_solver|].
    unfold queued. rewrite (Hother tr' Hne). set_solver.
  - intros pk [Hpk|Hpk]; [left; left; by rewrite Hl|].
    destruct (decide (mi_transport pk = tr)) as [Htr|Hne].
    + rewrite Htr, Hq in Hpk. apply elem_of_app in Hpk as [?|?]; [by right|].
      left; right. by rewrite Htr, Hq'.
    + left; right. unfold queued. by rewrite (Hother _ Hne).
  - intros pk Hpk. right. assert (pk ∈ queued tr s) as Hin by (rewrite Hq; set_solver).
    by rewrite (proj1 (ac_queued _ Hac tr pk Hin)).
Qed.

Lemma rx_answer flag t s tr : rx_of tr (answer flag t s) = rx_of tr s.
Proof. by destruct tr. Qed.

(** Which frames wait depends on nothing else. *)
Lemma answers_congr flag (l : list MeshIncomingPacket) s s' :
  sv_waiting s' = sv_waiting s →
  sv_waiting (foldr (λ packet, answer flag (mi_delivered packet)) s' l) =
  sv_waiting (foldr (λ packet, answer flag (mi_delivered packet)) s l).
Proof. intros Hw. induction l as [|pk l IH]; [done|]. simpl. by rewrite IH. Qed.

(** The relay of a transport that gets no packets from the mesh keeps its queue, and
    answers nothing. *)
Definition untouched (tr : MeshTransport) (answered : list MeshIncomingPacket) (s s' : Server)
    : Prop :=
  (∀ q, rx_of tr s = Some q → ∃ q', rx_of tr s' = Some (q ++ q')) ∧
  (is_Some (rx_of tr s) → ∀ pk, pk ∈ answered → mi_transport pk ≠ tr).

Lemma untouched_same tr s s' : rx_of tr s' = rx_of tr s → untouched tr [] s s'.
Proof.
  intros E. split; [|by intros _ pk ?%elem_of_nil]. intros q Hq. exists []. by rewrite E, app_nil_r.
Qed.

Lemma untouched_other tr tr' l s s' :
  tr' ≠ tr → rx_of tr s' = rx_of tr s → (∀ pk, pk ∈ l → mi_transport pk = tr') →
  untouched tr l s s'.
Proof.
  intros Hne E Hl. split; [|intros _ pk Hpk; by rewrite (Hl pk Hpk)].
  intros q Hq. exists []. by rewrite E, app_nil_r.
Qed.

(** The dispatcher takes a packet. *)
Lemma dispatch_moves s packet q :
  accounted s → sv_to_local s = packet :: q →
  ∃ answered, moves answered s (dispatch packet (s <| sv_to_local := q |>)) ∧
    ∀ tr, untouched tr answered s (dispatch packet (s <| sv_to_local := q |>)).
Proof.
  intros Hac Hl. set (tr0 := mi_transport packet).
  destruct (rx_of tr0 s) as [rx|] eqn:Hrx.
  - (* the packet moves on *)
    set (s' := dispatch packet (s <| sv_to_local := q |>)).
    assert (sv_next s' = sv_next s ∧ sv_waiting s' = sv_waiting s ∧ sv_to_local s' = q ∧
      rx_of tr0 s' = Some (rx ++ [packet]) ∧ ∀ tr, tr ≠ tr0 → rx_of tr s' = rx_of tr s)
      as (En & Ew & El & Erx & Eother).
    { unfold s', dispatch, tr0 in *. destruct (mi_transport packet); simpl in *; rewrite Hrx;
        (split; [done|]; split; [done|]; split; [done|]; split; [done|]; by intros []). }
    exists []. split; [split; [done| | | | |]|].
    + intros t w' Ht. rewrite Ew in Ht. by apply same_waiting.
    + rewrite El, Hl. set_solver.
    + intros tr. unfold queued. destruct (decide (tr = tr0)) as [->|Hne].
      * rewrite Erx, Hrx, Hl. simpl. rewrite filter_cons_True by done. set_solver.
      * rewrite (Eother tr Hne). set_solver.
    + intros pk [Hpk|Hpk]; left; unfold on_its_way, queued.
      * rewrite Hl in Hpk. apply elem_of_cons in Hpk as [->|Hpk]; [|left; by rewrite El].
        right. fold tr0. rewrite Erx. set_solver.
      * right. unfold queued in Hpk. destruct (decide (mi_transport pk = tr0)) as [E|Hne].
        -- rewrite E in *. rewrite Hrx in Hpk. rewrite Erx. set_solver.
        -- by rewrite (Eother _ Hne).
    + by intros pk ?%elem_of_nil.
    + intros tr. destruct (decide (tr = tr0)) as [->|Hne]; [|by apply untouched_same, Eother].
      split; [|by intros _ pk ?%elem_of_nil]. intros rx' Hrx'. exists [packet]. congruence.
  - (* its relay is gone *)
    assert (dispatch packet (s <| sv_to_local := q |>) =
            answer false (mi_delivered packet) (s <| sv_to_local := q |>)) as ->.
    { unfold dispatch, tr0 in *. destruct (mi_transport packet); simpl in *; by rewrite Hrx. }
    exists [packet]. split; [split; [done| | | | |]|].
    + intros t w' Ht. by apply (answers_waiting false [packet] (s <| sv_to_local := q |>)) in Ht.
    + simpl. rewrite Hl. set_solver.
    + intros tr. unfold queued. rewrite rx_answer. destruct tr; simpl; set_solver.
    + intros pk [Hpk|Hpk]; unfold on_its_way, queued; rewrite rx_answer; simpl.
      * rewrite Hl in Hpk. apply elem_of_cons in Hpk as [->|Hpk]; [right; left|by do 2 left].
      * left; right. unfold queued in Hpk. by destruct (mi_transport pk).
    + intros pk ->%list_elem_of_singleton. left. rewrite Hl. left.
    + intros tr. split; [intros rx Hq; exists []; rewrite app_nil_r, rx_answer; by destruct tr|].
      intros [rx Hq] pk ->%list_elem_of_singleton Htr. fold tr0 in Htr. congruence.
Qed.

(** What a relay does to the queues: it answers the packet at the head of its own. *)
Lemma takes_moves tr flag packet q s s' :
  accounted s → rx_of tr s = Some (packet :: q) → rx_of tr s' = Some q →
  (∀ tr', tr' ≠ tr → rx_of tr' s' = rx_of tr' s) → sv_next s' = sv_next s →
  sv_to_local s' = sv_to_local s → sv_waiting s' = sv_waiting (answer flag (mi_delivered packet) s) →
  moves [packet] s s' ∧ ∀ tr', tr' ≠ tr → untouched tr' [packet] s s'.
Proof.
  intros Hac Hrx Hrx' Hother Hn Hl Hw. split.
  - apply (moves_answered tr flag _ q); unfold queued; rewrite ?Hrx, ?Hrx'; done.
  - intros tr' Hne. apply (untouched_other tr' tr); [done|by apply Hother|].
    intros pk ->%list_elem_of_singleton. apply (ac_queued _ Hac tr). unfold queued. rewrite Hrx. left.
Qed.

(** A relay that cannot listen *)
Lemma gone_moves tr s s' :
  accounted s → rx_of tr s' = None → (∀ tr', tr' ≠ tr → rx_of tr' s' = rx_of tr' s) →
  sv_next s' = sv_next s → sv_to_local s' = sv_to_local s →
  sv_waiting s' = sv_waiting (foldr (λ packet, answer false (mi_delivered packet)) s (queued tr s)) →
  moves (queued tr s) s s' ∧ ∀ tr', tr' ≠ tr → untouched tr' (queued tr s) s s'.
Proof.
  intros Hac Hrx Hother Hn Hl Hw. split.
  - apply (moves_answered tr false _ []); unfold queued; rewrite ?app_nil_r, ?Hrx; done.
  - intros tr' Hne. apply (untouched_other tr' tr); [done|by apply Hother|].
    intros pk Hpk. by apply (ac_queued _ Hac tr).
Qed.

(** Which relay an event needs *)
Definition needs (ev : ServerEvent) : option MeshTransport :=
  match ev with
  | StreamTakes | StreamGone => Some Stream
  | UdpTakes _ | UdpGone => Some Udp
  | _ => None
  end.

Lemma step_moves ev s :
  accounted s → ∃ answered, moves answered s (server_step ev s) ∧
    ∀ tr, needs ev ≠ Some tr → untouched tr answered s (server_step ev s).
Proof.
  intros Hac.
  assert (∀ s', sv_next s' = sv_next s → sv_waiting s' ⊆ sv_waiting s →
    sv_to_local s' = sv_to_local s → sv_stream_rx s' = sv_stream_rx s → sv_udp_rx s' = sv_udp_rx s →
    ∃ answered, moves answered s s' ∧ ∀ tr, needs ev ≠ Some tr → untouched tr answered s s') as Hsame.
  { intros s' Hn Hw Hl H1 H2. assert (∀ tr, rx_of tr s' = rx_of tr s) as Hrx by (by intros []).
    exists []. split; [by apply moves_nothing|]. intros tr _. by apply untouched_same. }
  destruct ev as [ev|buf addr now send_ok|now|c ex hello|err c p|c| | |send_ok| | |tk out t|tr id t1 t2];
    simpl; try (by apply Hsame).
  - destruct ev; by apply Hsame.
  - destruct (sv_to_local s) as [|packet q] eqn:Hl; [by apply Hsame|].
    destruct (dispatch_moves s packet q Hac Hl) as (answered & Hm & Hun). eauto.
  - unfold stream_takes. destruct (sv_stream_rx s) as [[|packet q]|] eqn:Hrx; [by apply Hsame| |by apply Hsame].
    destruct (stream_from_mesh packet (sv_stream s)) as [flag relay]. exists [packet].
    destruct (takes_moves Stream flag packet q s (answer flag (mi_delivered packet)
      ((s <| sv_stream_rx := Some q |>) <| sv_stream := relay |>)) Hac Hrx) as [Hm Hun];
      [done|by intros []|done|done|done|]. split; [done|]. intros tr Hne. apply Hun. congruence.
  - unfold udp_takes. destruct (sv_udp_rx s) as [[|packet q]|] eqn:Hrx; [by apply Hsame| |by apply Hsame].
    destruct (udp_from_mesh _ _ _ _ _ _) as [flag relay]. exists [packet].
    destruct (takes_moves Udp flag packet q s (answer flag (mi_delivered packet)
      ((s <| sv_udp_rx := Some q |>) <| sv_udp := relay |>)) Hac Hrx) as [Hm Hun];
      [done|by intros []|done|done|done|]. split; [done|]. intros tr Hne. apply Hun. congruence.
  - exists (queued Stream s). unfold stream_gone.
    destruct (answers_rest false (default [] (sv_stream_rx s))
      (s <| sv_stream_rx := @None (list MeshIncomingPacket) |>)) as (En & El & Erx).
    destruct (gone_moves Stream s (stream_gone s) Hac) as [Hm Hun]; unfold stream_gone;
      [by rewrite Erx|by intros []; rewrite Erx|done|done|by apply answers_congr|].
    split; [done|]. intros tr Hne. apply Hun. congruence.
  - exists (queued Udp s). unfold udp_gone.
    destruct (answers_rest false (default [] (sv_udp_rx s))
      (s <| sv_udp_rx := @None (list MeshIncomingPacket) |>)) as (En & El & Erx).
    destruct (gone_moves Udp s (udp_gone s) Hac) as [Hm Hun]; unfold udp_gone;
      [by rewrite Erx|by intros []; rewrite Erx|done|done|by apply answers_congr|].
    split; [done|]. intros tr Hne. apply Hun. congruence.
  - unfold frame_done. destruct (sv_waiting s !! tk); [|by apply Hsame].
    destruct (_ || _); [|by apply Hsame]. apply Hsame; try done. apply delete_subseteq.
  - destruct tr; simpl; [destruct (sr_mesh _)|destruct (ur_mesh _)]; by apply Hsame.
Qed.

(** A frame that is handed to the local relays *)
Lemma frame_accounted peer frame t1 t2 s : accounted s → accounted (frame_arrives peer frame t1 t2 s).
Proof.
  intros Hac. unfold frame_arrives. destruct frame as [|id tr f t b64 hops]; [done|].
  destruct (receive_frame peer id f b64 t1 t2 (sv_mesh s)) as [[payload|] m].
  2: { apply (moves_accounted [] s); [|done]. by apply moves_nothing. }
  destruct Hac as [A1 A2 A3 A4]. split.
  - intros n w. simpl. rewrite lookup_insert_Some. intros [[<- <-]|[Hne Hw]] Hopen.
    + exists (mkMeshIncomingPacket tr f t payload (sv_next s)). split; [done|]. split; [done|].
      left. simpl. set_solver.
    + destruct (A1 n w Hw Hopen) as (pk & Hd & Htr & Hway). exists pk. split; [done|]. split; [done|].
      destruct Hway as [Hin|Hin]; [left; simpl; set_solver|right]. unfold queued in *.
      by destruct (mi_transport pk).
  - intros n w. simpl. rewrite lookup_insert_Some. intros [[<- <-]|[_ Hw]]; [lia|].
    specialize (A2 n w Hw). lia.
  - intros pk. simpl. intros [Hpk| ->%list_elem_of_singleton]%elem_of_app.
    + destruct (A3 pk Hpk) as [Hlt Heq]. split; [lia|]. intros w. rewrite lookup_insert_ne by lia. apply Heq.
    + simpl. split; [lia|]. intros w. rewrite lookup_insert_eq. by intros [= <-].
  - intros tr' pk Hpk. assert (pk ∈ queued tr' s) as Hin by (by destruct tr').
    destruct (A4 tr' pk Hin) as (Etr & Hlt & Heq). split; [done|]. simpl. split; [lia|].
    intros w. rewrite lookup_insert_ne by lia. apply Heq.
Qed.

Lemma launch_accounted la s s' : rtc (launch_step la) s s' → accounted s → accounted s'.
Proof.
  induction 1 as [|s1 s2 s3 Hstep _ IH]; [done|]. intros Hac. apply IH.
  destruct Hstep as [s ev _|s peer frame t1 t2 _]; [|by apply frame_accounted].
  destruct (step_moves ev s Hac) as (answered & Hm & _). by eapply moves_accounted.
Qed.

(** ** A relay that listens answers everything *)

Definition takes (tr : MeshTransport) : ServerEvent :=
  match tr with Stream => StreamTakes | Udp => UdpTakes true end.
Definition run_events (s : Server) (evs : list ServerEvent) : Server :=
  foldl (λ s ev, server_step ev s) s evs.

(** The dispatcher and the relay of [tr] take what waits. *)
Definition drain (tr : MeshTransport) (s : Server) : list ServerEvent :=
  repeat Dispatch (length (sv_to_local s)) ++
  repeat (takes tr) (length (sv_to_local s) + length (queued tr s)).

Lemma run_events_app s evs evs' : run_events s (evs ++ evs') = run_events (run_events s evs) evs'.
Proof. apply foldl_app. Qed.

Lemma run_launched la s evs :
  Forall (λ ev, can_happen la ev = true) evs → rtc (launch_step la) s (run_events s evs).
Proof.
  intros Hevs. revert s. induction Hevs as [|ev evs Hev _ IH]; intros s; [apply rtc_refl|].
  eapply rtc_l; [by apply launch_own|apply IH].
Qed.

Lemma dispatch_one tr packet q s :
  sv_to_local s = packet :: q →
  sv_to_local (server_step Dispatch s) = q ∧
  (length (queued tr (server_step Dispatch s)) ≤ S (length (queued tr s)))%nat.
Proof.
  intros Hl. simpl. rewrite Hl. unfold dispatch, queued.
  destruct (mi_transport packet); simpl;
    [destruct (sv_stream_rx s) eqn:Hrx|destruct (sv_udp_rx s) eqn:Hrx];
    (split; [done|]); destruct tr; simpl; rewrite ?Hrx; simpl; rewrite ?length_app; simpl; lia.
Qed.

Lemma dispatch_all tr n s :
  length (sv_to_local s) = n →
  sv_to_local (run_events s (repeat Dispatch n)) = [] ∧
  (length (queued tr (run_events s (repeat Dispatch n))) ≤ n + length (queued tr s))%nat.
Proof.
  revert s. induction n as [|n IH]; intros s Hn; simpl.
  - by apply length_zero_iff_nil in Hn.
  - destruct (sv_to_local s) as [|packet q] eqn:Hl; [done|].
    destruct (dispatch_one tr packet q s Hl) as [Hq Hlen].
    destruct (IH (server_step Dispatch s)) as [Hnil Hle]; [rewrite Hq; simpl in Hn; lia|].
    simpl in *. rewrite Hl in *. split; [done|lia].
Qed.

Lemma takes_one tr s :
  sv_to_local (server_step (takes tr) s) = sv_to_local s ∧
  length (queued tr (server_step (takes tr) s)) = pred (length (queued tr s)).
Proof.
  unfold queued. destruct tr; simpl; unfold stream_takes, udp_takes.
  - destruct (sv_stream_rx s) as [[|packet q]|] eqn:Hrx; simpl; rewrite ?Hrx; [done| |done].
    by destruct (stream_from_mesh packet (sv_stream s)).
  - destruct (sv_udp_rx s) as [[|packet q]|] eqn:Hrx; simpl; rewrite ?Hrx; [done| |done].
    by destruct (udp_from_mesh _ _ _ _ _ _).
Qed.

Lemma takes_all tr k s :
  (length (queued tr s) ≤ k)%nat →
  sv_to_local (run_events s (repeat (takes tr) k)) = sv_to_local s ∧
  queued tr (run_events s (repeat (takes tr) k)) = [].
Proof.
  revert s. induction k as [|k IH]; intros s Hk; simpl.
  - split; [done|]. apply length_zero_iff_nil. lia.
  - destruct (takes_one tr s) as [El Eq]. rewrite <- El. apply IH. lia.
Qed.

Lemma drained tr s :
  sv_to_local (run_events s (drain tr s)) = [] ∧ queued tr (run_events s (drain tr s)) = [].
Proof.
  unfold drain. rewrite run_events_app.
  destruct (dispatch_all tr _ s eq_refl) as [Hnil Hlen].
  destruct (takes_all tr _ _ Hlen) as [El Eq]. by rewrite El.
Qed.

(** The frames that wait go on waiting until [handle_frame] takes their answer. *)
Lemma answer_waits flag n s t w :
  sv_waiting s !! t = Some w →
  ∃ w', sv_waiting (answer flag n s) !! t = Some w' ∧ wt_transport w' = wt_transport w.
Proof.
  intros Hw. simpl. destruct (decide (n = t)) as [->|Hne].
  - rewrite lookup_alter_eq, Hw. simpl. eauto.
  - rewrite lookup_alter_ne by done. eauto.
Qed.

Lemma drain_step_waits tr ev s t w :
  ev = Dispatch ∨ ev = takes tr → sv_waiting s !! t = Some w →
  ∃ w', sv_waiting (server_step ev s) !! t = Some w' ∧ wt_transport w' = wt_transport w.
Proof.
  intros Hev Hw. destruct Hev as [->| ->]; [|destruct tr]; simpl.
  - destruct (sv_to_local s); [eauto|]. unfold dispatch.
    destruct (mi_transport _); simpl; [destruct (sv_stream_rx s)|destruct (sv_udp_rx s)];
      first [by eauto|by apply answer_waits].
  - unfold stream_takes. destruct (sv_stream_rx s) as [[|]|]; [eauto| |eauto].
    destruct (stream_from_mesh _ _). by apply answer_waits.
  - unfold udp_takes. destruct (sv_udp_rx s) as [[|]|]; [eauto| |eauto].
    destruct (udp_from_mesh _ _ _ _ _ _). by apply answer_waits.
Qed.

Lemma drain_waits tr evs s t w :
  Forall (λ ev, ev = Dispatch ∨ ev = takes tr) evs → sv_waiting s !! t = Some w →
  ∃ w', sv_waiting (run_events s evs) !! t = Some w' ∧ wt_transport w' = wt_transport w.
Proof.
  intros Hevs. revert s w. induction Hevs as [|ev evs Hev _ IH]; intros s w Hw; [by exists w|].
  destruct (drain_step_waits tr ev s t w Hev Hw) as (w1 & Hw1 & <-). by apply IH.
Qed.

Lemma drain_events tr s : Forall (λ ev, ev = Dispatch ∨ ev = takes tr) (drain tr s).
Proof. apply Forall_app. split; apply Forall_forall; intros ev ->%list_elem_of_In%repeat_spec; auto. Qed.

(** ** A relay that does not listen answers nothing *)

(** No frame of the transport is answered, and its receiver is kept. *)
Definition kept (tr : MeshTransport) (s : Server) : Prop :=
  is_Some (rx_of tr s) ∧
  ∀ t w, sv_waiting s !! t = Some w → wt_transport w = tr → wt_answer w = None.

Lemma frame_kept tr peer frame t1 t2 s :
  kept tr s → kept tr (frame_arrives peer frame t1 t2 s) ∧
  rx_of tr (frame_arrives peer frame t1 t2 s) = rx_of tr s.
Proof.
  intros [Hrx Hopen]. unfold frame_arrives. destruct frame as [|id tr' f t b64 hops]; [done|].
  destruct (receive_frame peer id f b64 t1 t2 (sv_mesh s)) as [[payload|] m].
  - split; [|by destruct tr]. split; [by destruct tr|]. intros n w. simpl.
    rewrite lookup_insert_Some. intros [[_ <-]|[_ Hw]]; [done|by apply (Hopen n)].
  - split; [|by destruct tr]. split; [by destruct tr|done].
Qed.

Lemma own_kept tr ev s :
  accounted s → needs ev ≠ Some tr → kept tr s →
  kept tr (server_step ev s) ∧ queued tr s `prefix_of` queued tr (server_step ev s).
Proof.
  intros Hac Hne [[q Hrx] Hopen]. destruct (step_moves ev s Hac) as (answered & Hm & Hun).
  destruct (Hun tr Hne) as [Hq Hnot]. destruct (Hq q Hrx) as [q' Hq'].
  split; [split; [by rewrite Hq'|]|unfold queued; rewrite Hrx, Hq'; by exists q'].
  intros t w' Hw' Htr. destruct (mv_waiting _ _ _ Hm t w' Hw') as (w & Hw & Etr & _ & Heq).
  rewrite Heq; [apply (Hopen t w Hw); congruence|]. intros pk Hpk <-.
  apply (Hnot ltac:(eauto) pk Hpk).
  destruct (mv_answered _ _ _ Hm pk Hpk) as [Hin|Hin].
  - rewrite <- (proj2 (ac_to_local _ Hac pk Hin) w Hw). congruence.
  - rewrite <- (proj2 (proj2 (ac_queued _ Hac _ pk Hin)) w Hw). congruence.
Qed.

Lemma needs_takes la ev tr :
  takes_from_mesh tr la = false → can_happen la ev = true → needs ev ≠ Some tr.
Proof. intros Hno Hev [=]. destruct ev; simplify_eq/=; congruence. Qed.

Lemma launch_kept la tr s s' :
  takes_from_mesh tr la = false → rtc (launch_step la) s s' → accounted s → kept tr s →
  kept tr s' ∧ queued tr s `prefix_of` queued tr s'.
Proof.
  intros Hno. induction 1 as [s|s1 s2 s3 Hstep _ IH]; [done|]. intros Hac Hk.
  assert (accounted s2) as Hac2 by (eapply launch_accounted; [by apply rtc_once|done]).
  assert (kept tr s2 ∧ queued tr s1 `prefix_of` queued tr s2) as [Hk2 Hp].
  { destruct Hstep as [s ev Hev|s peer frame t1 t2 _].
    - apply own_kept; [done| |done]. by apply (needs_takes la).
    - destruct (frame_kept tr peer frame t1 t2 s Hk) as [? E]. split; [done|].
      unfold queued. by rewrite E. }
  destruct (IH Hac2 Hk2) as [Hk3 Hp3]. split; [done|]. by etrans.
Qed.

Definition listen_option (tr : MeshTransport) (ls : Listeners) : option SockAddr :=
  match tr with Stream => ls_stream_relay ls | Udp => ls_udp_relay ls end.

Lemma launch_takes m ls tr :
  takes_from_mesh tr (launch (Some m) ls) = is_some (listen_option tr ls).
Proof.
  unfold takes_from_mesh, relay_of, launch, spawn_relay.
  by destruct tr; simpl; destruct (ls_udp_relay ls), (ls_stream_relay ls).
Qed.
Lemma launch_dispatches m ls : la_dispatcher (launch (Some m) ls) = true.
Proof. unfold launch, spawn_relay. by destruct (ls_udp_relay ls), (ls_stream_relay ls). Qed.

(** C26. The listener option of a relay decides what a server of the mesh does with the
    frames of its transport.  With it, whatever the server has done, its dispatcher and
    its relay can go on and answer every frame that waits for this relay, and nothing
    stays queued.  Without it [main] holds the receiver and never reads it: no frame of
    the transport is ever answered, so each of them is finished by its time limit alone,
    and the queue of their packets never loses one. *)
Theorem relay_option_decides m ls tr s :
  let la := launch (Some m) ls in
  rtc (launch_step la) (server_start m) s →
  match listen_option tr ls with
  | Some _ =>
      let s' := run_events s (drain tr s) in
      rtc (launch_step la) s s' ∧ queued tr s' = [] ∧
      ∀ t w, sv_waiting s !! t = Some w → wt_transport w = tr →
        ∃ w', sv_waiting s' !! t = Some w' ∧ is_Some (wt_answer w')
  | None =>
      ∀ s', rtc (launch_step la) s s' →
        queued tr s `prefix_of` queued tr s' ∧
        ∀ t w, sv_waiting s' !! t = Some w → wt_transport w = tr →
          (∀ t_route, frame_done t false t_route s' = s') ∧
          ∃ pk, mi_delivered pk = t ∧ mi_transport pk = tr ∧ on_its_way pk s'
  end.
Proof.
  intros la Hs. pose proof (launch_accounted _ _ _ Hs (start_accounted m)) as Hac.
  pose proof (launch_takes m ls tr) as Htakes. pose proof (launch_dispatches m ls) as Hdisp.
  destruct (listen_option tr ls) as [addr|]; fold la in Htakes, Hdisp; simpl in Htakes.
  - intros s'. destruct (drained tr s) as [Hnil Hq]. fold s' in Hnil, Hq.
    assert (rtc (launch_step la) s s') as Hrun.
    { apply run_launched. eapply Forall_impl; [apply drain_events|].
      intros ev [->| ->]; [done|]. by destruct tr. }
    split; [done|]. split; [done|]. intros t w Hw Htr.
    destruct (drain_waits tr _ s t w (drain_events tr s) Hw) as (w' & Hw' & Htr').
    fold s' in Hw'. exists w'. split; [done|].
    destruct (wt_answer w') as [b|] eqn:Hopen; [eauto|exfalso].
    destruct (ac_waiting _ (launch_accounted _ _ _ Hrun Hac) t w' Hw' Hopen) as (pk & _ & E & [Hin|Hin]).
    + rewrite Hnil in Hin. by apply elem_of_nil in Hin.
    + rewrite E, Htr', Htr, Hq in Hin. by apply elem_of_nil in Hin.
  - assert (kept tr (server_start m)) as Hk0.
    { split; [by destruct tr|]. intros t w Hw. simpl in Hw. by apply lookup_empty_Some in Hw. }
    destruct (launch_kept la tr _ _ Htakes Hs (start_accounted m) Hk0) as [Hk _].
    intros s' Hs'. destruct (launch_kept la tr _ _ Htakes Hs' Hac Hk) as [[_ Hopen] Hp].
    split; [done|]. intros t w Hw Htr. pose proof (Hopen t w Hw Htr) as Hnone. split.
    + intros t_route. unfold frame_done. by rewrite Hw, Hnone.
    + destruct (ac_waiting _ (launch_accounted _ _ _ Hs' Hac) t w Hw Hnone) as (pk & ? & ? & ?).
      exists pk. by rewrite <- Htr.
Qed.
End Launched.

(** ** A server of a mesh with a UDP relay only, and two frames of which one is for the
    stream relay it does not have *)
Module LaunchSample.
Definition listeners : Listeners :=
  mkListeners (mkSockAddr (V4 0) 0 8080)
    (Some (mkSockAddr (V4 0) 0 3478)) None None.
Definition mesh : MeshContext := ClusterSample.mesh_of "b" "a".
Definition started : Launch := launch (Some mesh) listeners.
Definition stream_frame : MeshFrame := Relay "m1" Stream "n1" "n2" (Sample.hex_encode (bytes "hi")) 4.
Definition udp_frame : MeshFrame := Relay "m2" Udp "n1" "n3" (Sample.hex_encode (bytes "hi")) 4.
Definition arrives (frame : MeshFrame) : Server → Server :=
  frame_arrives (H := Sample.hash_order) (H0 := Sample.crates) "a" frame 1 2.
Definition busy : Server := arrives udp_frame (arrives stream_frame (server_start mesh)).
Definition steps : Server → Server → Prop :=
  rtc (launch_step (H := Sample.hash_order) (H0 := Sample.crates) started).

Lemma busy_reached : steps (server_start mesh) busy.
Proof. do 2 (eapply rtc_l; [by apply launch_frame|]). apply rtc_refl. Qed.
End LaunchSample.
Import LaunchSample.

Lemma relay_option_decides_witness :
  ∃ w, sv_waiting busy !! 0 = Some w ∧ wt_transport w = Stream ∧
    ∀ s', steps busy s' → ∀ w', sv_waiting s' !! 0 = Some w' → wt_transport w' = Stream →
      frame_done (H := Sample.hash_order) (H0 := Sample.crates) 0 false 0 s' = s'.
Proof.
  destruct (sv_waiting busy !! 0) as [w|] eqn:Hw.
  - exists w. split; [exact eq_refl|].
    assert (wt_transport <$> sv_waiting busy !! 0 = Some Stream) as Htr by (vm_compute; exact eq_refl).
    rewrite Hw in Htr. split; [exact (Some_inj _ _ Htr)|]. intros s' Hs' w' Hw' Htr'.
    pose proof (relay_option_decides (H := Sample.hash_order) (H0 := Sample.crates) mesh listeners
      Stream busy busy_reached) as Hno.
    exact (proj1 (proj2 (Hno s' Hs') 0 w' Hw' Htr') 0).
  - exfalso. apply (f_equal is_some) in Hw. by vm_compute in Hw.
Defined.
